(* ===== verification/_CoqProject ===== *)
-Q . S2P
Prelude.v
Strings.v
Codec.v
Regions.v
Format.v
Pack.v
PackProofs.v
PackWitness.v
StorePolicy.v
StorePolicyProofs.v
StoreIndex.v
StoreIndexProofs.v
Store.v
StoreSteps.v
StoreProofs.v
StoreRefinement.v
StoreWitness.v
Float.v
Eviction.v
EvictionProofs.v
Evict.v
EvictProofs.v
Breaker.v
BreakerProofs.v
Singleflight.v
NegativeCache.v
Planner.v
PlannerProofs.v
Cgroup.v
CgroupProofs.v
Scheduler.v
SchedulerProofs.v
FlightProofs.v
SchedulerWitness.v
Bytes.v
PePdb.v
PePdbProofs.v
ObjectGates.v
GateSound.v
Archive.v
ArchiveProofs.v
ArchiveIdentity.v
ClosedArchive.v
ArchiveWitness.v
Remote.v
RemoteLayout.v
RemoteProofs.v
UploadProofs.v
ExtractProofs.v
Prefetch.v
RestoreProofs.v
RoundTrip.v
RestoreWitness.v
CargoLayout.v
RustcArgs.v
RustcPolicy.v
RustcArgsProofs.v
PathNormalizer.v
PathNormalizerProofs.v
SourceScan.v
ScanProofs.v
ScanTotal.v
ScanSpec.v
ScanLexemes.v
ScanCorrect.v
DepInfoText.v
KeyFold.v
NativeLink.v
NativeLinkProofs.v
EnvDeps.v
EnvDepProofs.v
Predictions.v
PredictionProofs.v
InputWitness.v
KeyRecipe.v
KeyProofs.v
KeySound.v
KeyInputs.v
KeyComplete.v
KeyWitness.v
