(* ===== verification/Prelude.v ===== *)
(** * kache: a verification library

    kache is a build cache.  A compiler wrapper computes a cache key for each
    compilation, restores the outputs of a key it knows from a local store, and
    publishes the outputs of the others; a daemon keeps the store within its size
    and moves entries to and from a remote object store.  This library models the
    parts of it whose correctness the rest relies on, and proves what they
    promise.

    ** The program and its model

    Paths are relative to [src/].  Each component has one file of definitions,
    one or more of theorems ([..Proofs]) and, where concrete data is large, one
    of concrete runs ([..Witness]); smaller runs close the file of the theorems.

    - [Prelude], [Strings], [Codec], [Float]: what the sources use of Rust.  The
      [result] monad, machine integers as [Z] with their maxima and explicit
      wrapping, saturating or checked operations, stable sorting, updates of one
      field of a record; byte strings,
      UTF-8, [Path] components, decimal and little-endian encodings; the types a
      JSON field can hold and the interface of the JSON codec; binary64
      arithmetic, through the kernel's [SpecFloat].
    - [Format]: [crates/kache-format/src/lib.rs], entry metadata and the
      validators of names, keys and hashes that cross a trust boundary.
    - [Regions]: [src/checked_regions.rs], range checks of untrusted offsets.
    - [Pack]: [src/remote_pack.rs], the multi-entry prefetch pack and its catalog:
      [build_pack], [decode_pack], [encode_catalog], [decode_catalog], object
      keys and build selectors.  [PackProofs], [PackWitness].
    - [StorePolicy]: the pure helpers of [crates/kache-store/src/store.rs] and
      [atomic.rs]: hardlink rules, publish renames and their retries, diagnostics
      cap, restore verification, content digest.  [StorePolicyProofs], which also
      says what the validators guarantee once a name is joined to a directory.
    - [StoreIndex]: the SQLite tables of the store and each statement that
      changes them, and the drift probe of [blob_drift.rs].  [StoreIndexProofs].
    - [Store]: the store's operations, [put], [get], [import_downloaded_entry],
      [import_restored_entry], [migrate_entry_to_blobs], [remove_entry_guarded],
      durability flushes and the orphan sweep, over the index, the entry
      directories and the blob files.  [StoreSteps]: the step relation in which
      any number of processes interleave these operations at the granularity of
      their write transactions, with its invariant.  [StoreProofs],
      [StoreWitness] (concrete runs, and runs that leave the invariant's
      conditions).
    - [Eviction]: [crates/kache-store/src/eviction.rs], the four policies and the
      shadow walk.  [EvictionProofs].
    - [Evict]: the sweeps of [store.rs] that apply a policy: candidates, pins, the
      removal walk with its budget and pacing, tombstones and counters.
      [EvictProofs].
    - [Breaker], [Singleflight], [NegativeCache]: [src/remote_resilience.rs], the
      classification of remote errors and the circuit breaker, the sharing of
      concurrent downloads of one key, and the cache of remote misses.
      [BreakerProofs]; the other two hold their own theorems.
    - [StoreRefinement]: the map from keys to artifacts that the store
      implements, its abstract transactions, and the abstraction function.
    - [Planner]: [crates/kache-core/src/lib.rs], the composition of a prefetch
      plan from recorded actions, shards, history and key cache, its limits and
      the dispatch order.  [PlannerProofs].
    - [Cgroup]: the resource limits of [src/scheduler.rs], from the text of the
      proc and cgroup files to a snapshot.  [CgroupProofs].
    - [Scheduler]: the rest of [src/scheduler.rs] with [scheduler/permit_wait.rs]
      and [scheduler/pressure.rs]: flights, weights, scans and waits as functions
      of what locks and clock answer, and the shared pool and the wake word as step
      relations.  [SchedulerProofs] (pool and waits), [FlightProofs] (misses, leases
      and weights), [SchedulerWitness].
    - [Bytes]: readers of untrusted bytes, in which a refusal, a panic and an
      unfinished loop are different results, and the rules for them.
    - [PePdb]: [src/pe_pdb.rs], the pairing of executables and program databases.
      [PePdbProofs].
    - [ObjectGates], [Archive]: [src/native_archive.rs], the ELF, Mach-O and COFF
      gates, the identities of GNU and BSD archives, the closed check of Windows
      runtime archives and the member listing.  [GateSound] (no gate
      panics, and what they accept), [ArchiveProofs] (the readers end),
      [ArchiveIdentity] (what an identity commits to), [ClosedArchive],
      [ArchiveWitness].
    - [Remote]: [src/remote_backend.rs] and the write policy of
      [crates/kache-config] ([policy.rs], [config.rs]): the backends over an
      operator interface, bounded reads, and who may write where.
      [RemoteLayout]: [src/remote_layout.rs], object keys, uploads, listings,
      downloads and the extraction of an entry.  [RemoteProofs], [UploadProofs]
      (interleaved uploads), [ExtractProofs].
    - [Prefetch]: the packed prefetch and the demand restore of [src/daemon.rs],
      over the store, the remote and the packs.  [RestoreProofs], [RoundTrip],
      [RestoreWitness].
    - [CargoLayout]: [src/cargo_layout.rs], the directories of a Cargo target.
    - [RustcArgs]: [src/args.rs], response files, the parser of a rustc command
      line and the questions asked of it.  [RustcPolicy]: [compiler/rustc.rs] and
      [compile.rs], refusals, output classes, incremental flags.
      [RustcArgsProofs].
    - [PathNormalizer]: [src/path_normalizer.rs], the rules that replace the
      directories of one machine by tokens, in key text, in remap flags and in
      source identities.  [PathNormalizerProofs].
    - [SourceScan]: the scan of a source for uses of an environment variable
      ([source_env_dep_use_bytes] of [src/cache_key.rs] and its helpers), with
      the bounds of its loops and its panics.  [ScanProofs] (each loop by the
      bytes left), [ScanTotal] (it always answers), [ScanSpec] (the reference:
      tokens, and what they say of a variable), [ScanLexemes], [ScanCorrect] (the
      scan against the reference).
    - [DepInfoText]: the parser of dep-info files, with a writer in the format
      rustc documents as its reference.
    - [EnvDeps]: how the value of a variable enters a key: lexical resolution,
      the decision from the scans, the sentinel, and the memo of scans.
      [EnvDepProofs].
    - [Predictions]: the closures remembered from earlier builds and shared by
      [src/prediction_share.rs]: records and their relocation, validation, tree
      guards, the lookups of [predicted_key_inputs] and the choice made by
      [resolve_key_inputs].  [PredictionProofs]; [InputWitness] evaluates scans,
      values and predictions.
    - [KeyFold]: the hasher of [src/cache_key.rs] as the bytes it was fed, framed
      and unframed records, the salt and the declared variables, and the
      environment snapshot of [src/key_env.rs].
    - [NativeLink]: the native libraries of a key ([cache_key.rs] and
      [native_link_key.rs]): [-l] specs, linker arguments, search directories.
      [NativeLinkProofs].
    - [KeyRecipe]: [compute_key_into] as the list of records it folds, one
      definition per section, and [finish_key] of [compiler/rustc.rs].
      [KeyProofs] (records are uniquely decodable), [KeySound] (which labels a
      section uses), [KeyInputs] (what a section says of its inputs),
      [KeyComplete] (the finished key), [KeyWitness] (one crate in two
      checkouts, and inputs a key leaves out).

    The store's state is [Store.Store]: the index ([StoreIndex.Db], a finite map
    per table), the files of the entry directories and the blob files.  An
    operation that fits in one write transaction is one function on it; one that
    spans several is split at the commits ([put] into [stage_outputs] and
    [put_commit], a removal into [remove_read], [remove_commit] and
    [remove_cleanup], an import into [import_check] and [import_commit]), and the
    steps of [StoreSteps] are those halves, interleaved freely.  Runs keep to four
    conditions that the code itself does not enforce ([keeps_indexed_meta],
    [undisturbed], [vouched] and [no_meta_artifact], explained there).

    ** What is proved

    - Store, over all runs of [StoreSteps]: every indexed entry keeps its metadata and
      all of its blobs ([live_rows_have_files]); and, in runs in which no source
      changes between the phases of its put ([sources_stable]), every blob's bytes
      match its name ([blobs_content_addressed]) and the store refines a map from
      keys to whole artifacts, which hits read ([store_refines_cache],
      [get_reads_cache]).
    - Store, per operation: a put of stable sources without leftovers is read back
      ([put_then_get]); a hit is sound on
      any store ([get_hit_sound]); a removal deletes exactly what it owned
      ([remove_entry_exact]) and backs off when the entry changed
      ([guarded_removal_backs_off]); on an index that has drifted, neither
      publication nor removal takes another entry's blob ([publish_never_steals],
      [removal_never_steals]); the drift probe decides balance
      ([drift_clean_iff_balanced]).
    - Eviction: pins are respected and the store invariant is kept
      ([sweep_respects_pins]); the reported numbers are exact
      ([sweep_accounts_exactly]); a size sweep reaches its target or nothing more
      could go ([evict_for_progress]); rankings are sorted for all floating-point
      inputs ([rankings_sorted]); duplicates keep a survivor
      ([duplicates_leave_a_survivor]); the shadow walk is minimal
      ([shadow_walk_is_minimal]).
    - Packs: round trips, soundness and absence of panics of the decoder,
      uniqueness of keys, injectivity of selectors.
    - Remote: the breaker's protocol over all runs and the exact condition on
      which it trips ([breaker_protocol], [degrades_exactly_on_streak]); one
      leader per key and exact answers to followers ([singleflight_leaders],
      [followers_get_the_answer]); an upload is never hidden by an older miss,
      negative answers have evidence, and the cache is bounded
      ([upload_stays_visible], [negative_answer_was_recorded],
      [negative_cache_bounded]).
    - Planning: every key once, one source per crate and exact counts
      ([plan_composition_exact]); limits ([plan_within_limits]); nothing a
      confident source knows is missing ([plan_serves_confident_sources]); the
      order of dispatch ([dispatch_order]).
    - Scheduling, over all interleavings: no slot has two holders and the pool is
      never exceeded ([pool_never_overcommitted]), admitted work fits the memory
      ([admitted_memory_fits]).  A compile that waited is admitted by an
      uninterrupted scan once it counts all markers of the tests
      ([waited_compile_admitted]); no wake-up is lost when a permit is dropped
      ([no_lost_wakeup], which names the releases that notify nobody).  Per call:
      scans, waits, leases and the outcomes of a miss
      ([scan_takes_lowest_free], [wait_for_permit_settles], [test_lease_sound],
      [begin_miss_outcomes]).  Limits: [snapshot_reports_tightest],
      [snapshot_well_typed], [cpuset_counts_union].
    - Binary readers: none panics and every loop ends ([pe_readers_never_panic],
      [archive_readers_settle]).  Archives: equal identities are equal members
      ([archive_identity_exact]); accepted objects carry nothing a linker would
      interpret by path ([elf_gate_sound], [macho_gate_sound]); a closed runtime
      archive holds short imports and COFF objects of a plain form only, which are
      spelled out on their bytes ([closed_archive_sound]).  Executables: stored pairs
      match and are served again ([stored_pairs_match],
      [admitted_pairs_are_served]); debug records lie where both addresses say
      ([rva_mapping_unique], [codeview_record_genuine]).
    - Remote transfers: an uploaded entry is restored by another machine whatever
      happens in between ([remote_round_trip]); listed keys have their packs
      ([listed_entries_have_packs]) and no upload replaces an object
      ([uploads_never_rewrite]); an extraction that succeeds verified what it
      publishes and one that fails keeps what was there ([extraction_sound],
      [refused_extraction_keeps_entry]); a packed prefetch of archives without [./] spellings keeps
      the store sound ([packed_prefetch_sound]); reads are bounded ([remote_read_bounded]); an
      untrusted CI job cannot write under the base prefix
      ([untrusted_ci_leaves_base]).
    - Cache keys: compilations with one key agree on every input the key folds
      ([equal_keys_equal_inputs]; [KeyWitness] has inputs it does not fold); a linking unit is keyed by the bytes of its
      static libraries or not at all ([static_libraries_keyed]); grouping changes
      no digest ([grouping_is_transparent]).
    - Environment reads: the scanner answers on all bytes ([scan_is_total]) and
      agrees with the tokens of the source ([scan_reads_tokens]); a memoised
      answer is the scan's ([memoised_use_is_the_scan]); a value is replaced by a
      sentinel only when no source reads it or the user said so
      ([normalised_value_is_not_read]);
      lexical resolution collapses a path once and for all
      ([lexical_resolution_collapses]); dep-info is read back as written
      ([dep_info_round_trip]).
    - Predictions: a closure that is used was recorded and holds now
      ([predicted_closure_is_current]); every closure of a key has one of three
      sources, and verification compares closures up to order
      ([key_closure_is_accounted_for]); records read back where they were made
      ([portable_records_round_trip]), relocated paths stay inside their root
      ([relocated_path_stays_inside]), and what is published holds no rooted path
      and reads back ([published_rows_are_private_and_faithful]).
    - Paths: no prefix of the machine is left in normalised text
      ([normalize_erases_prefixes]); the rule that names a source in the key is
      the flag rustc applies, so that equal identities of plain paths are equal
      embedded paths ([source_rule_is_the_applied_flag], [source_identity_fixes_embedded_path]);
      configured directories are a set ([base_dirs_order_irrelevant]); the
      recognisers of Cargo's directories agree ([unit_dirs_agree]).
    - Command lines: response files, presentation flags and the listed spellings
      do not matter ([response_files_transparent], [presentation_stripped_exact],
      [spellings_equivalent]).
    - Helpers: capped diagnostics stay valid UTF-8 ([cap_diagnostics_safe]); the
      content digest identifies file sets ([content_preimage_identifies]);
      retries are bounded and renames settle ([retry_transient_settles],
      [publish_rename_settles]); names stay inside their directory
      ([store_paths_contained], [stored_name_contained]).
    - Where guarantees stop: the last sections of [StoreWitness] and
      [KeyWitness], [trailing_separator_is_accepted],
      [respelled_member_poisons_blob], [doubled_separator_splits_identity] and
      [backslash_beside_root].

    ** Parameters, bounds and fuel

    Code outside the repository is a parameter: [blake3] (an arbitrary function
    from bytes to text; theorems that need it say so; none assumes that it is
    injective; those that compare digests assume that the inputs they compare do
    not collide, and [equal_keys_equal_inputs] that a digest has 64 digits), [serde_json] (the class [Codec.JsonCodec]: decoding what was
    encoded), the compiler's artifact rules ([StorePolicy.ArtifactPolicy]), the
    pointer width ([Prelude.Usize], 32 or 64 bits), the wall clock, SQLite's date
    arithmetic and lock failures, the file-system probes for extents and
    links, Unicode normalisation ([nfc]) and path canonicalisation, tar and zstd,
    and the object store's operator.  Of a key, [KeyRecipe.Probes] and
    [NativeLink.LinkProbes] hold the answers of the compiler and the toolchain,
    of file hashing, and of the parts of [cache_key.rs] that run processes: the
    discovery of the closure, the uses of a variable in a source, the codegen
    backends, the libc, CRT and linker identities and the install names of an
    Apple link.  Of a prediction, [Predictions.Lookup] and
    [Predictions.Discovery] hold the rows the database and the remote answer
    with, the identities, the digests of the trees, the file tests, the flight
    and the answer of the pre-pass.  The witnesses instantiate each with a
    concrete function.

    Most functions are structurally recursive or folds.  Loops that are not take
    fuel: the scans and waits of [Scheduler] a number of rounds, where [None] is
    "still waiting" (the theorems give the rounds that suffice); the [while]
    loops of [Archive] one round per byte and one more, which is enough because
    every round moves past a header of sixty bytes ([archive_readers_settle]: the
    result is never [OutOfFuel]).  The loops of [SourceScan] have the source's
    own bound, the length of the input, as their number of passes, and
    [scan_is_total] shows that a larger one changes nothing.  The retry loop's counter is the source's own
    constant.  Theorems about wrapping 64-bit epochs are about runs short enough
    not to wrap ([2 ^ 64] steps).

    ** Not modelled

    The file-system calls under the store (reflinks, hardlinks, permissions,
    fsync), crashes inside a transaction, schema migrations, the unit and
    target-root tables, tracing output, failing writes of a downloaded body to its
    sink, and the asynchronous waiting of the
    daemon and of followers (a poll of the outcome stands for it).  Windows path
    rules and the Windows branches of the helpers are left out; so are the
    Windows and macOS identities of a linked output.  The daemon's server, the
    wrapper, build scripts, the command line and the service are I/O around the
    modelled parts.  Of the compilers only rustc is modelled: the C, CUDA and
    rustdoc adapters run a preprocessor or a documentation tool and key what it
    prints.  Predictions: the identities of records, the walks that digest a
    tree, and the transfer of rows.  The scanner's reference has no lexeme for a
    lifetime named r, br or cr that a quote follows directly, which the scanner
    takes for a raw string.  The store, the planner and the scheduler take cache keys as given. *)

From Stdlib Require Export ZArith Lia Ascii String.
From stdpp Require Export prelude gmap strings sorting.

#[global] Open Scope Z_scope.

(** ** Fallible code

    [anyhow::Result] and [io::Result]: every component declares the
    errors its code can raise as an inductive type [E], one constructor per
    [bail!] / [context] of the source. *)

Inductive result (E A : Type) : Type :=
| Ok (a : A)
| Err (e : E).
Arguments Ok {E A} a.
Arguments Err {E A} e.

#[global] Instance result_ret E : MRet (result E) := fun _ a => Ok a.
#[global] Instance result_bind E : MBind (result E) :=
  fun _ _ k m => match m with Ok a => k a | Err e => Err e end.
#[global] Instance result_fmap E : FMap (result E) :=
  fun _ _ f m => match m with Ok a => Ok (f a) | Err e => Err e end.

(** [bail!]-style guard and [Option::context]. *)
Definition ensure {E} (b : bool) (e : E) : result E unit :=
  if b then Ok tt else Err e.
Definition with_context {E A} (o : option A) (e : E) : result E A :=
  match o with Some a => Ok a | None => Err e end.
Definition is_ok {E A} (r : result E A) : bool :=
  match r with Ok _ => true | Err _ => false end.
Definition ok {E A} (r : result E A) : option A :=
  match r with Ok a => Some a | Err _ => None end.

(** A [for] loop whose body may fail: the state is threaded through. *)
Fixpoint try_fold {E S A} (f : S -> A -> result E S) (s : S) (l : list A) : result E S :=
  match l with
  | [] => Ok s
  | a :: l => s' ← f s a; try_fold f s' l
  end.

Lemma ensure_Ok {E} (b : bool) (e : E) u : ensure b e = Ok u <-> b = true.
Proof. destruct b, u; split; simpl; congruence. Qed.

Lemma bind_Ok {E A B} (m : result E A) (k : A -> result E B) b :
  (m ≫= k) = Ok b <-> exists a, m = Ok a /\ k a = Ok b.
Proof. destruct m; split; simpl; naive_solver. Qed.

Lemma with_context_Ok {E A} (o : option A) (e : E) a : with_context o e = Ok a <-> o = Some a.
Proof. destruct o; split; simpl; congruence. Qed.

Lemma try_fold_app {E S A} (f : S -> A -> result E S) s l1 l2 :
  try_fold f s (l1 ++ l2) = s' ← try_fold f s l1; try_fold f s' l2.
Proof. revert s. induction l1 as [|a l1 IH]; intros s; simpl; [done|].
  destruct (f s a); simpl; [apply IH|done]. Qed.

(** Loop invariant rule for [try_fold]. *)
Lemma try_fold_ind {E S A} (f : S -> A -> result E S) (P : list A -> S -> Prop) s0 :
  P [] s0 ->
  (forall done a s s', P done s -> f s a = Ok s' -> P (done ++ [a]) s') ->
  forall l s, try_fold f s0 l = Ok s -> P l s.
Proof.
  intros H0 Hstep l. induction l as [|a l IH] using rev_ind; intros s; simpl.
  - intros [= <-]. done.
  - rewrite try_fold_app, bind_Ok. intros (s1 & H1 & H2). simpl in H2.
    apply bind_Ok in H2 as (s2 & H2 & [= <-]). eauto.
Qed.

(** Decompose a successful run of monadic code into its steps. *)
Ltac inv_result :=
  repeat match goal with
  | H : (_ ≫= _) = Ok _ |- _ => apply bind_Ok in H; destruct H as (? & ? & ?)
  | H : ensure _ _ = Ok _ |- _ => apply ensure_Ok in H
  | H : with_context _ _ = Ok _ |- _ => apply with_context_Ok in H
  | H : Ok _ = Ok _ |- _ => injection H as H; subst
  | H : Err _ = Ok _ |- _ => discriminate H
  | H : mret _ = Ok _ |- _ => injection H as H; subst
  | x : unit |- _ => destruct x
  end.

#[export] Instance Ok_inj {E A} : Inj (=) (=) (@Ok E A).
Proof. congruence. Qed.
(** [inv_result] that leaves the value returned whole. *)
Ltac ok_result :=
  repeat match goal with
  | H : (_ ≫= _) = Ok _ |- _ => apply bind_Ok in H as (? & ? & H)
  | H : ensure _ _ = Ok _ |- _ => apply ensure_Ok in H
  | H : Ok _ = Ok _ |- _ => apply (inj Ok) in H; subst
  | H : Err _ = Ok _ |- _ => discriminate H
  end.

(** ** Machine integers

    Unsigned integers are [Z] kept in [0 .. max]; the operations below are the
    [checked_*] and [saturating_*] methods at a given maximum. *)

Definition u16_max : Z := 2 ^ 16 - 1.
Definition u32_max : Z := 2 ^ 32 - 1.
Definition u64_max : Z := 2 ^ 64 - 1.
Definition i64_max : Z := 2 ^ 63 - 1.
Definition i64_min : Z := - 2 ^ 63.
Definition i64_ok (z : Z) : bool := (i64_min <=? z) && (z <=? i64_max).
Definition in_range (max x : Z) : Prop := 0 <= x <= max.

Definition checked_add (max a b : Z) : option Z :=
  if a + b <=? max then Some (a + b) else None.
Definition checked_mul (max a b : Z) : option Z :=
  if a * b <=? max then Some (a * b) else None.
Definition saturating_add (max a b : Z) : Z := Z.min max (a + b).
Definition saturating_mul (max a b : Z) : Z := Z.min max (a * b).
Definition saturating_sub (a b : Z) : Z := Z.max 0 (a - b).
Definition div_ceil (a b : Z) : Z := (a + b - 1) / b.
Definition clamp (lo hi x : Z) : Z := Z.max lo (Z.min hi x).

(** [usize]: the pointer width is that of the target, so everything that
    mentions [usize] is stated for both widths kache is released for. *)
Class Usize := { usize_bits : Z; usize_bits_ok : usize_bits = 32 \/ usize_bits = 64 }.
#[export] Program Instance usize64 : Usize | 10 := { usize_bits := 64 }.
Next Obligation. by right. Qed.
Program Definition usize32 : Usize := {| usize_bits := 32 |}.
Next Obligation. by left. Qed.
Definition usize_max `{Usize} : Z := 2 ^ usize_bits - 1.
(** [usize::try_from] on a [u64]. *)
Definition usize_try_from `{Usize} (x : Z) : option Z :=
  if x <=? usize_max then Some x else None.

Lemma usize_max_bound `{Usize} : u32_max <= usize_max <= u64_max.
Proof. unfold usize_max, u32_max, u64_max. destruct usize_bits_ok as [-> | ->]; lia. Qed.

Lemma checked_add_Some max a b c :
  checked_add max a b = Some c <-> c = a + b /\ a + b <= max.
Proof. unfold checked_add. destruct (Z.leb_spec (a + b) max); split; intros; naive_solver lia. Qed.

Lemma usize_try_from_Some `{Usize} x y :
  usize_try_from x = Some y <-> y = x /\ x <= usize_max.
Proof. unfold usize_try_from. destruct (Z.leb_spec x usize_max); split; intros; naive_solver lia. Qed.

(** Turn the boolean guards of the code into propositions. *)
Ltac bool_to_prop :=
  repeat match goal with
  | H : _ && _ = true |- _ => apply andb_true_iff in H; destruct H
  | H : _ || _ = false |- _ => apply orb_false_iff in H; destruct H
  | H : negb _ = true |- _ => apply negb_true_iff in H
  | H : negb _ = false |- _ => apply negb_false_iff in H
  | H : (_ <=? _) = true |- _ => apply Z.leb_le in H
  | H : (_ <=? _) = false |- _ => apply Z.leb_gt in H
  | H : (_ <? _) = true |- _ => apply Z.ltb_lt in H
  | H : (_ <? _) = false |- _ => apply Z.ltb_ge in H
  | H : (_ =? _) = true |- _ => apply Z.eqb_eq in H
  | H : (_ =? _) = false |- _ => apply Z.eqb_neq in H
  | H : String.eqb _ _ = true |- _ => apply String.eqb_eq in H
  | H : String.eqb _ _ = false |- _ => apply String.eqb_neq in H
  | H : bool_decide _ = true |- _ => apply bool_decide_eq_true_1 in H
  | H : bool_decide _ = false |- _ => apply bool_decide_eq_false_1 in H
  end.

(** ** Stable sorting

    [slice::sort_by] is stable; ties keep their input order. *)

Section Sorting.
Context {A : Type} (leb : A -> A -> bool).

Fixpoint insert_by (x : A) (l : list A) : list A :=
  match l with
  | [] => [x]
  | y :: l' => if leb x y then x :: l else y :: insert_by x l'
  end.
Fixpoint sort_by (l : list A) : list A :=
  match l with [] => [] | x :: l => insert_by x (sort_by l) end.

Lemma insert_by_perm x l : insert_by x l ≡ₚ x :: l.
Proof. induction l as [|y l IH]; simpl; [done|]. destruct (leb x y); [done|].
  rewrite IH. constructor. Qed.
Lemma sort_by_perm l : sort_by l ≡ₚ l.
Proof. induction l as [|x l IH]; simpl; [done|]. by rewrite insert_by_perm, IH. Qed.
Lemma length_sort_by l : length (sort_by l) = length l.
Proof. apply Permutation_length, sort_by_perm. Qed.
Lemma elem_of_sort_by x l : x ∈ sort_by l <-> x ∈ l.
Proof. by rewrite sort_by_perm. Qed.
Lemma Forall_sort_by P l : Forall P (sort_by l) <-> Forall P l.
Proof. by rewrite sort_by_perm. Qed.

Lemma sort_by_sorted_id l : Sorted (fun x y => leb x y = true) l -> sort_by l = l.
Proof.
  induction 1 as [|x l Hs IH Hd]; simpl; [done|]. rewrite IH.
  destruct Hd as [|y l Hxy]; simpl; [done|]. by rewrite Hxy.
Qed.

(** Elements that tie keep their order. *)
Lemma sort_by_stable (P : A -> bool) l :
  (forall x y, P x = true -> P y = true -> leb x y = true) ->
  List.filter P (sort_by l) = List.filter P l.
Proof.
  intros Htie. induction l as [|x l IH]; simpl; [done|]. rewrite <- IH. clear IH.
  induction (sort_by l) as [|y s IH]; simpl; [done|]. destruct (leb x y) eqn:E; simpl; [done|].
  rewrite IH. destruct (P x) eqn:Px, (P y) eqn:Py; try done. by rewrite Htie in E.
Qed.

Hypothesis leb_total : forall x y, leb x y = true \/ leb y x = true.

Lemma insert_by_sorted x l :
  Sorted (fun x y => leb x y = true) l -> Sorted (fun x y => leb x y = true) (insert_by x l).
Proof.
  induction 1 as [|y l Hs IH Hd]; simpl; [by repeat constructor|].
  destruct (leb x y) eqn:E; [repeat constructor; done|].
  constructor; [done|]. destruct Hd as [|z l Hyz]; simpl.
  - constructor. by destruct (leb_total x y); [congruence|].
  - destruct (leb x z); constructor; [|done]. by destruct (leb_total x y); [congruence|].
Qed.
Lemma sort_by_sorted l : Sorted (fun x y => leb x y = true) (sort_by l).
Proof. induction l; simpl; [constructor|]. by apply insert_by_sorted. Qed.
Lemma sort_by_idem l : sort_by (sort_by l) = sort_by l.
Proof. apply sort_by_sorted_id, sort_by_sorted. Qed.
End Sorting.

(** Membership in the [HashSet]-insert idiom: [insert] returns whether the
    value was new. *)
Lemma NoDup_snoc {A} (l : list A) x : NoDup (l ++ [x]) <-> NoDup l /\ x ∉ l.
Proof.
  rewrite NoDup_app. split.
  - intros (H1 & H2 & _). split; [done|]. intros Hx. by apply (H2 x Hx), list_elem_of_here.
  - intros (H1 & H2). split; [done|]. split; [|apply NoDup_singleton].
    intros y Hy ->%list_elem_of_singleton. done.
Qed.

(** An error that no step raises is not raised by their composition. *)
Lemma bind_no_err {E A B} (m : result E A) (k : A -> result E B) e :
  m <> Err e -> (forall a, m = Ok a -> k a <> Err e) -> (m ≫= k) <> Err e.
Proof. destruct m; simpl; naive_solver. Qed.
Lemma try_fold_keeps {E S A} (f : S -> A -> result E S) (Q : S -> Prop) l s s' :
  (forall s a s', Q s -> f s a = Ok s' -> Q s') -> Q s -> try_fold f s l = Ok s' -> Q s'.
Proof.
  intros Hf. revert s. induction l as [|a l IH]; intros s Hs; cbn.
  - by intros [= <-].
  - intros (t & Ht & Hr)%bind_Ok. eapply IH; [|done]. eauto.
Qed.
Lemma try_fold_no_err {E S A} (f : S -> A -> result E S) l s e :
  (forall s a, f s a <> Err e) -> try_fold f s l <> Err e.
Proof. intros Hf. revert s. induction l; intros s; simpl; [done|]. by apply bind_no_err. Qed.
Lemma guard_no_err {E} (b : bool) (e e' : E) : e <> e' -> (if b then Err e else Ok tt) <> Err e'.
Proof. destruct b; congruence. Qed.
Lemma ensure_no_err {E} (b : bool) (e e' : E) : e <> e' -> ensure b e <> Err e'.
Proof. destruct b; simpl; congruence. Qed.
Lemma context_no_err {E A} (o : option A) (e e' : E) : e <> e' -> with_context o e <> Err e'.
Proof. destruct o; simpl; congruence. Qed.
Create HintDb kache.
#[export] Hint Resolve bind_no_err try_fold_no_err guard_no_err ensure_no_err context_no_err : kache.

(** Where the order is antisymmetric on the elements, the sorted list only
    depends on them. *)
Lemma sort_by_perm_eq_on {A} (leb : A -> A -> bool) (l1 l2 : list A) :
  (forall x y, leb x y = true \/ leb y x = true) ->
  (forall x y z, leb x y = true -> leb y z = true -> leb x z = true) ->
  (forall x y, x ∈ l1 -> y ∈ l1 -> leb x y = true -> leb y x = true -> x = y) ->
  l1 ≡ₚ l2 -> sort_by leb l1 = sort_by leb l2.
Proof.
  intros Htot Htr Hanti Hp.
  apply (StronglySorted_unique_strong (fun x y => leb x y = true)).
  - intros x y Hx Hy. rewrite elem_of_sort_by in Hx, Hy. rewrite <- Hp in Hy. by apply Hanti.
  - apply Sorted_StronglySorted; [exact Htr|by apply sort_by_sorted].
  - apply Sorted_StronglySorted; [exact Htr|by apply sort_by_sorted].
  - by rewrite !sort_by_perm.
Qed.
Lemma sort_by_perm_eq {A} (leb : A -> A -> bool) :
  (forall x y, leb x y = true \/ leb y x = true) ->
  (forall x y z, leb x y = true -> leb y z = true -> leb x z = true) ->
  (forall x y, leb x y = true -> leb y x = true -> x = y) ->
  forall l1 l2, l1 ≡ₚ l2 -> sort_by leb l1 = sort_by leb l2.
Proof. intros Htot Htr Hanti l1 l2. apply sort_by_perm_eq_on; auto. Qed.
Lemma StronglySorted_lookup_lt {A} (R : relation A) l i j x y :
  StronglySorted R l -> l !! i = Some x -> l !! j = Some y -> (i < j)%nat -> R x y.
Proof.
  intros Hs. revert i j. induction Hs as [|a l Hs IH Ha]; intros i j Hi Hj Hlt; [done|].
  destruct j as [|j]; [lia|]. destruct i as [|i]; simpl in *; [|eapply IH; eauto; lia].
  simplify_eq. rewrite Forall_forall in Ha. eapply Ha, list_elem_of_lookup_2, Hj.
Qed.
(** Loop invariant rule for [fold_left]. *)
Lemma fold_left_inv {S A} (f : S -> A -> S) (P : S -> Prop) l s :
  P s -> (forall s a, a ∈ l -> P s -> P (f s a)) -> P (fold_left f l s).
Proof.
  revert s. induction l as [|a l IH]; intros s Hs Hf; simpl; [done|].
  apply IH; [apply Hf; set_solver|]. intros. apply Hf; set_solver.
Qed.
(** What a step establishes for its element, and no step undoes, holds of every
    element at the end. *)
Lemma fold_left_reach {S A} (f : S -> A -> S) (Q : A -> S -> Prop) l s :
  (forall s a b, Q b s -> Q b (f s a)) -> (forall s a, Q a (f s a)) ->
  forall a, a ∈ l -> Q a (fold_left f l s).
Proof.
  intros Hk Ho. revert s. induction l as [|b l IH]; intros s a Ha; [set_solver|]. simpl.
  apply elem_of_cons in Ha as [->|Ha]; [|by apply IH].
  apply (fold_left_inv f (Q b)); auto.
Qed.
Lemma NoDup_map_inj {A B} (f : A -> B) l x y :
  NoDup (map f l) -> x ∈ l -> y ∈ l -> f x = f y -> x = y.
Proof.
  intros Hnd [i Hi]%list_elem_of_lookup [j Hj]%list_elem_of_lookup E.
  enough (i = j) by congruence. eapply (NoDup_lookup (f <$> l)); [done|..].
  - by rewrite list_lookup_fmap, Hi.
  - by rewrite list_lookup_fmap, Hj, E.
Qed.

(** ** Lists: filters, indices, order *)

Lemma Permutation_filter_bool {A} (p : A -> bool) l1 l2 :
  l1 ≡ₚ l2 -> List.filter p l1 ≡ₚ List.filter p l2.
Proof. induction 1; simpl; repeat case_match; eauto using Permutation. Qed.
Lemma elem_of_imap_pair {A} (l : list A) i x : (i, x) ∈ imap pair l -> x ∈ l.
Proof. intros (j & y & [= -> ->] & Hy)%elem_of_lookup_imap_1. by eapply list_elem_of_lookup_2. Qed.
Lemma map_snd_imap {A} (l : list A) : map snd (imap pair l) = l.
Proof.
  change (snd <$> imap pair l = l). apply list_eq. intros i. rewrite list_lookup_fmap, list_lookup_imap.
  by destruct (l !! i).
Qed.
Lemma filter_map_snd {A B} (p : B -> bool) (l : list (A * B)) :
  List.filter p (map snd l) = map snd (List.filter (fun x => p x.2) l).
Proof. induction l as [|[a b] l IH]; cbn; [done|]. destruct (p b); cbn; by rewrite IH. Qed.
Lemma StronglySorted_filter {A} (R : relation A) (p : A -> bool) l :
  StronglySorted R l -> StronglySorted R (List.filter p l).
Proof.
  induction 1 as [|x l _ IH Hx]; cbn; [constructor|]. destruct (p x); [|done]. constructor; [done|].
  rewrite Forall_forall in *. intros y Hy%list_elem_of_In%filter_In. apply Hx, list_elem_of_In, Hy.
Qed.
Lemma StronglySorted_weaken {A} (R R' : relation A) l :
  StronglySorted R l -> (forall x y, x ∈ l -> y ∈ l -> R x y -> R' x y) -> StronglySorted R' l.
Proof.
  induction 1 as [|x l _ IH Hx]; intros HR; [constructor|]. constructor; [apply IH; set_solver|].
  rewrite Forall_forall in *. intros y Hy. apply HR; [set_solver..|auto].
Qed.
Lemma imap_pair_sorted {A} (l : list A) : StronglySorted (fun x y => (x.1 < y.1)%nat) (imap pair l).
Proof.
  enough (forall k, StronglySorted (fun x y : nat * A => (x.1 < y.1)%nat) (imap (fun i x => ((k + i)%nat, x)) l)) as H2
    by (apply (H2 0%nat)).
  induction l as [|a l IH]; intros k; cbn; [constructor|]. constructor.
  - specialize (IH (S k)). erewrite imap_ext; [exact IH|]. intros i x _. cbn. f_equal. lia.
  - rewrite Forall_forall. intros [j x] (i & y & E1 & _)%elem_of_lookup_imap_1. cbn in *. simplify_eq. lia.
Qed.

(** ** Record updates

    Rust code that fills a large struct field by field is modelled with
    [r <| field := v |>]: a record type declares its eta expansion once and the
    setter of each field is found from it. *)

Class Eta (R : Type) := eta : R -> R.
Class Setter {R E : Type} (getter : R -> E) := set : (E -> E) -> R -> R.
Arguments set {R E} getter {_}.

Ltac solve_setter :=
  match goal with
  | |- @Setter ?R ?E ?getter =>
      let inst := constr:(_ : Eta R) in
      let e := eval red in inst in
      let p := eval pattern getter in e in
      match p with
      | ?s _ =>
          let t := eval cbv beta in (fun (f : E -> E) => s (fun r => f (getter r))) in
          exact t
      end
  end.
#[export] Hint Extern 1 (Setter _) => solve_setter : typeclass_instances.

Declare Scope record_scope.
Notation "r <| f := v |>" := (set f (fun _ => v) r)
  (at level 1, f at level 0, left associativity, format "r  <|  f  :=  v  |>") : record_scope.
Notation "r <| f ::= g |>" := (set f g r)
  (at level 1, f at level 0, left associativity, format "r  <|  f  ::=  g  |>") : record_scope.
