(* ===== verification/Strings.v ===== *)
(** * The parts of Rust's [str] and [Path] the modelled code uses

    A Rust [&str] is a UTF-8 byte string; it is modelled by [string], one
    [ascii] per byte, so [len], byte comparison, slicing and the derived [Ord]
    (byte-lexicographic) are those of [string].  Operations that see characters
    ([char::is_control], [trim], [split_whitespace]) decode UTF-8 first.
    [Path] follows the Unix rules of [std::path]. *)

From S2P Require Import Prelude.
#[local] Open Scope string_scope.
#[global] Arguments String.append : simpl nomatch.
#[local] Open Scope Z_scope.

(** ** Bytes *)

Definition byte_val (c : ascii) : Z := Z.of_N (N_of_ascii c).
Definition slen (s : string) : Z := Z.of_nat (String.length s).

Definition between (lo hi x : Z) : bool := (lo <=? x) && (x <=? hi).
Definition is_ascii_digit (c : ascii) : bool := between 48 57 (byte_val c).
Definition is_ascii_lowercase (c : ascii) : bool := between 97 122 (byte_val c).
Definition is_ascii_uppercase (c : ascii) : bool := between 65 90 (byte_val c).
Definition is_ascii_alphanumeric (c : ascii) : bool :=
  is_ascii_digit c || is_ascii_lowercase c || is_ascii_uppercase c.
Definition is_ascii_hexdigit (c : ascii) : bool :=
  is_ascii_digit c || between 97 102 (byte_val c) || between 65 70 (byte_val c).

(** [str::to_ascii_lowercase] *)
Fixpoint to_ascii_lowercase (s : string) : string :=
  match s with
  | EmptyString => EmptyString
  | String c s =>
      String (if is_ascii_uppercase c then ascii_of_N (Z.to_N (byte_val c + 32)) else c)
        (to_ascii_lowercase s)
  end.
(** [s.bytes().all(p)] *)
Fixpoint all_bytes (p : ascii -> bool) (s : string) : bool :=
  match s with
  | "" => true
  | String c s => p c && all_bytes p s
  end.

(** [str::strip_prefix], [str::starts_with], [str::strip_suffix],
    [str::contains] on a string pattern. *)
Fixpoint strip_prefix (p s : string) : option string :=
  match p, s with
  | "", _ => Some s
  | String a p, String b s => if Ascii.eqb a b then strip_prefix p s else None
  | String _ _, "" => None
  end.
Definition starts_with (p s : string) : bool := if strip_prefix p s is Some _ then true else false.
Fixpoint strip_suffix (suf s : string) : option string :=
  if String.eqb s suf then Some "" else
  match s with
  | "" => None
  | String a s => match strip_suffix suf s with Some r => Some (String a r) | None => None end
  end.
Definition ends_with (suffix s : string) : bool := if strip_suffix suffix s is Some _ then true else false.
(** [<[&str]>::join] *)
Fixpoint join_with (sep : string) (l : list string) : string :=
  match l with
  | [] => ""
  | [s] => s
  | s :: l => s ++ sep ++ join_with sep l
  end.
Fixpoint contains (needle s : string) : bool :=
  starts_with needle s || match s with "" => false | String _ s => contains needle s end.

(** [str::contains] on a character. *)
Definition contains_byte (c : ascii) (s : string) : bool := negb (all_bytes (fun b => negb (Ascii.eqb b c)) s).
Definition backslash : ascii := Ascii.ascii_of_nat 92.
Definition dquote : ascii := Ascii.ascii_of_nat 34.

(** [str::split(c)] (always at least one piece) and [str::split_once(c)]. *)
Fixpoint split_on (c : ascii) (s : string) : list string :=
  match s with
  | "" => [""]
  | String a s =>
      if Ascii.eqb a c then "" :: split_on c s
      else match split_on c s with h :: t => String a h :: t | [] => [] end
  end.
Fixpoint split_once (c : ascii) (s : string) : option (string * string) :=
  match s with
  | "" => None
  | String a s =>
      if Ascii.eqb a c then Some ("", s)
      else match split_once c s with Some (l, r) => Some (String a l, r) | None => None end
  end.

(** [str::split_once(sep)] for a string separator. *)
Fixpoint split_once_str (sep s : string) : option (string * string) :=
  match strip_prefix sep s with
  | Some rest => Some ("", rest)
  | None => match s with
            | "" => None
            | String a s => '(l, r) ← split_once_str sep s; Some (String a l, r)
            end
  end.

(** [str::rsplit_once(c)] *)
Fixpoint rsplit_once (c : ascii) (s : string) : option (string * string) :=
  match s with
  | "" => None
  | String a s' =>
      match rsplit_once c s' with
      | Some (l, r) => Some (String a l, r)
      | None => if Ascii.eqb a c then Some ("", s') else None
      end
  end.

(** [str::lines]: split on LF, drop a CR before it, and no empty line after a
    final LF. *)
Definition newline : ascii := Ascii.ascii_of_nat 10.
Definition carriage_return : ascii := Ascii.ascii_of_nat 13.
Definition strip_cr (s : string) : string :=
  match strip_suffix (String carriage_return "") s with Some r => r | None => s end.
Fixpoint drop_last_empty (l : list string) : list string :=
  match l with
  | [] => []
  | [s] => if String.eqb s "" then [] else [s]
  | s :: l => s :: drop_last_empty l
  end.
(** Every piece but the last ends in LF, and only such a piece loses a CR. *)
Fixpoint strip_crs (l : list string) : list string :=
  match l with
  | [] => []
  | [s] => [s]
  | s :: l => strip_cr s :: strip_crs l
  end.
Definition lines (s : string) : list string := drop_last_empty (strip_crs (split_on newline s)).

(** ** Characters *)

(** The characters of a valid UTF-8 string: scalar value and encoding. *)
Fixpoint chars (s : string) : list (Z * string) :=
  match s with
  | "" => []
  | String a s1 =>
      let b0 := byte_val a in
      if b0 <? 128 then (b0, String a "") :: chars s1
      else match s1 with
      | "" => [(b0, String a "")]
      | String b s2 =>
          let b1 := byte_val b in
          if b0 <? 224 then
            (Z.lor (Z.shiftl (Z.land b0 31) 6) (Z.land b1 63),
             String a (String b "")) :: chars s2
          else match s2 with
          | "" => [(b0, String a (String b ""))]
          | String c s3 =>
              let b2 := byte_val c in
              if b0 <? 240 then
                (Z.lor (Z.shiftl (Z.land b0 15) 12)
                   (Z.lor (Z.shiftl (Z.land b1 63) 6) (Z.land b2 63)),
                 String a (String b (String c ""))) :: chars s3
              else match s3 with
              | "" => [(b0, String a (String b (String c "")))]
              | String d s4 =>
                  (Z.lor (Z.shiftl (Z.land b0 7) 18)
                     (Z.lor (Z.shiftl (Z.land b1 63) 12)
                        (Z.lor (Z.shiftl (Z.land b2 63) 6) (Z.land (byte_val d) 63))),
                   String a (String b (String c (String d "")))) :: chars s4
              end
          end
      end
  end.

(** [char::is_control] (general category Cc). *)
Definition is_control (cp : Z) : bool := (cp <? 32) || between 127 159 cp.
(** [char::is_whitespace] (Unicode White_Space). *)
Definition is_whitespace (cp : Z) : bool :=
  between 9 13 cp || (cp =? 32) || (cp =? 133) || (cp =? 160) || (cp =? 5760)
  || between 8192 8202 cp || (cp =? 8232) || (cp =? 8233) || (cp =? 8239)
  || (cp =? 8287) || (cp =? 12288).

Fixpoint concat_str (l : list string) : string :=
  match l with [] => "" | s :: l => s ++ concat_str l end.
Definition unchars (l : list (Z * string)) : string := concat_str (map snd l).

Fixpoint drop_while {A} (p : A -> bool) (l : list A) : list A :=
  match l with [] => [] | a :: l' => if p a then drop_while p l' else l end.
Definition char_ws (c : Z * string) : bool := is_whitespace c.1.
(** [str::trim] *)
Definition trim (s : string) : string :=
  unchars (rev (drop_while char_ws (rev (drop_while char_ws (chars s))))).
(** [str::split_whitespace]: the maximal whitespace-free runs. *)
Fixpoint ws_runs (l : list (Z * string)) : list (list (Z * string)) :=
  match l with
  | [] => [[]]
  | c :: l =>
      if char_ws c then [] :: ws_runs l
      else match ws_runs l with r :: rs => (c :: r) :: rs | [] => [[c]] end
  end.
Definition split_whitespace (s : string) : list string :=
  filter (fun w => w <> "") (map unchars (ws_runs (chars s))).

(** ** Decimal numbers *)

Definition digit_val (c : ascii) : option Z :=
  if is_ascii_digit c then Some (byte_val c - 48) else None.
Fixpoint parse_digits (acc : Z) (s : string) : option Z :=
  match s with
  | "" => Some acc
  | String c s => d ← digit_val c; parse_digits (acc * 10 + d) s
  end.
(** [str::parse] for an unsigned integer with maximum [max]: an optional [+],
    at least one digit, and no overflow. *)
Definition parse_unsigned (max : Z) (s : string) : option Z :=
  let digits := match strip_prefix "+" s with Some r => r | None => s end in
  if String.eqb digits "" then None else
  v ← parse_digits 0 digits;
  if v <=? max then Some v else None.

Definition digit_char (d : Z) : ascii := ascii_of_N (Z.to_N (48 + d)).
(** [{:0n}] of a value with at most [n] digits. *)
Fixpoint fmt_padded (n : nat) (z : Z) : string :=
  match n with
  | O => ""
  | S n => fmt_padded n (z / 10) ++ String (digit_char (z mod 10)) ""
  end.

(** ** Paths (Unix) *)

Inductive Component := RootDir | CurDir | ParentDir | Normal (name : string).
#[export] Instance Component_eq_dec : EqDecision Component.
Proof. solve_decision. Defined.

Definition slash : ascii := "/"%char.
Definition seg_component (s : string) : option Component :=
  if String.eqb s "" then None
  else if String.eqb s "." then None
  else if String.eqb s ".." then Some ParentDir
  else Some (Normal s).
Definition leading (segs : list string) : list Component :=
  match segs with
  | "" :: _ :: _ => [RootDir]
  | "." :: _ => [CurDir]
  | _ => []
  end.
(** [Path::components]: repeated separators and inner [.] vanish, a leading
    [.] stays. *)
Definition components (p : string) : list Component :=
  let segs := split_on slash p in
  leading segs ++ omap seg_component segs.
(** [Path::is_absolute] and [Path::join]. *)
Definition is_absolute (p : string) : bool := starts_with "/" p.
Definition join (dir p : string) : string :=
  if is_absolute p then p
  else if String.eqb dir "" then p
  else match strip_suffix "/" dir with
       | Some _ => dir ++ p
       | None => dir ++ "/" ++ p
       end.

(** ** Lemmas *)

Lemma string_app_nil_r s : s ++ "" = s.
Proof. induction s; simpl; congruence. Qed.
Lemma string_app_assoc s1 s2 s3 : s1 ++ (s2 ++ s3) = (s1 ++ s2) ++ s3.
Proof. induction s1; simpl; congruence. Qed.
Lemma slen_nonneg s : 0 <= slen s.
Proof. unfold slen. lia. Qed.
Lemma slen_app s1 s2 : slen (s1 ++ s2) = slen s1 + slen s2.
Proof. unfold slen. induction s1 as [|a s1 IH]; cbn [String.append String.length]; lia. Qed.
Lemma slen_0 s : slen s = 0 -> s = "".
Proof. destruct s; unfold slen; simpl; [done|lia]. Qed.

Lemma all_bytes_app p s1 s2 : all_bytes p (s1 ++ s2) = all_bytes p s1 && all_bytes p s2.
Proof. induction s1 as [|a s1 IH]; simpl; [done|]. by rewrite IH, andb_assoc. Qed.
Lemma all_bytes_impl (p q : ascii -> bool) s :
  (forall c, p c = true -> q c = true) -> all_bytes p s = true -> all_bytes q s = true.
Proof. intros Hpq. induction s; simpl; [done|]. intros H. bool_to_prop.
  rewrite Hpq, IHs; done. Qed.

Lemma strip_prefix_app p s : strip_prefix p (p ++ s) = Some s.
Proof. induction p as [|a p IH]; simpl; [done|]. by rewrite Ascii.eqb_refl. Qed.
Lemma strip_prefix_Some p s r : strip_prefix p s = Some r <-> s = p ++ r.
Proof.
  split; [|intros ->; apply strip_prefix_app].
  revert s; induction p as [|a p IH]; intros [|b s]; simpl; try congruence.
  destruct (Ascii.eqb_spec a b); [|done]. intros ->%IH. congruence.
Qed.
Lemma strip_suffix_Some suf s r : strip_suffix suf s = Some r <-> s = r ++ suf.
Proof.
  revert r; induction s as [|a s IH]; intros r; cbn [strip_suffix];
    match goal with |- context [String.eqb ?x suf] => destruct (String.eqb_spec x suf) as [E|E] end.
  - subst suf. split; [intros [= <-]; done|]. destruct r; simpl; [done|congruence].
  - split; [done|]. destruct r; simpl; congruence.
  - subst suf. split; [intros [= <-]; done|]. intros Heq.
    apply (f_equal slen) in Heq as Hl. rewrite slen_app in Hl.
    assert (r = "") as -> by (apply slen_0; lia). done.
  - destruct (strip_suffix suf s) as [r'|] eqn:Hs.
    + pose proof (proj1 (IH r') eq_refl) as Hr. split.
      * intros [= <-]. rewrite Hr. done.
      * intros Heq. destruct r as [|b r]; simpl in Heq; [congruence|].
        injection Heq as <- Heq. apply IH in Heq. congruence.
    + split; [done|]. destruct r as [|b r]; simpl; [congruence|].
      intros [= <- Heq]. apply IH in Heq. congruence.
Qed.

Lemma split_on_cons c s : exists h t, split_on c s = h :: t.
Proof.
  induction s as [|a s (h & t & IH)]; simpl; [eauto|].
  rewrite IH. destruct (Ascii.eqb a c); eauto.
Qed.
Lemma split_on_app c s1 s2 :
  split_on c (s1 ++ String c s2) = (split_on c s1 ++ split_on c s2)%list.
Proof.
  induction s1 as [|a s1 IH]; simpl; [by rewrite Ascii.eqb_refl|].
  destruct (Ascii.eqb a c); [by rewrite IH|]. rewrite IH.
  pose proof (split_on_cons c s1) as (h & t & ->). done.
Qed.
Lemma split_on_none c s :
  all_bytes (fun a => negb (Ascii.eqb a c)) s = true -> split_on c s = [s].
Proof.
  induction s as [|a s IH]; simpl; [done|]. intros H. bool_to_prop.
  rewrite H, IH; done.
Qed.

Lemma leading_app segs t : segs <> [] -> segs <> [""] -> leading (segs ++ t) = leading segs.
Proof. intros H1 H2. destruct segs as [|h [|h' segs]]; [done| |].
  - destruct h as [|a h]; [done|]. simpl. done.
  - destruct h; done.
Qed.
Lemma leading_snoc segs t : segs <> [] -> t <> [] -> leading (segs ++ t) = leading (segs ++ [""]).
Proof. intros H1 H2. destruct segs as [|h [|h' segs]], t; try done. Qed.

(** Joining a relative path that has no leading [.] appends its components. *)
Lemma components_join dir p :
  is_absolute p = false -> leading (split_on slash p) = [] ->
  components (join dir p) = (components dir ++ components p)%list.
Proof.
  intros Habs Hlead. unfold join, components. rewrite Habs, Hlead.
  destruct (String.eqb_spec dir "") as [->|Hdir]; [by rewrite Hlead|].
  pose proof (split_on_cons slash p) as (hp & tp & Hp).
  destruct (strip_suffix "/" dir) as [d|] eqn:Hd.
  - apply strip_suffix_Some in Hd. subst dir.
    change "/" with (String slash ""). rewrite <- string_app_assoc. cbn [String.append].
    rewrite !split_on_app, !omap_app. simpl. rewrite !app_nil_r.
    rewrite (leading_snoc _ (split_on slash p)).
    + by rewrite app_assoc.
    + pose proof (split_on_cons slash d) as (h & t & ->). done.
    + by rewrite Hp.
  - change ("/" ++ p) with (String slash p). rewrite split_on_app, omap_app. simpl.
    rewrite leading_app; [by rewrite app_assoc| |].
    + pose proof (split_on_cons slash dir) as (h & t & ->). done.
    + destruct dir as [|a s]; [done|]. simpl.
      destruct (Ascii.eqb_spec a slash) as [->|].
      * pose proof (split_on_cons slash s) as (h & t & ->). done.
      * pose proof (split_on_cons slash s) as (h & t & ->). done.
Qed.

Lemma components_relative p :
  (forall c l, components p = c :: l -> exists n, c = Normal n) ->
  is_absolute p = false /\ leading (split_on slash p) = [].
Proof.
  unfold components. intros H. split.
  - destruct p as [|a p]; [done|]. unfold is_absolute, starts_with. cbn [strip_prefix].
    destruct (Ascii.eqb_spec "/"%char a) as [<-|]; [|done].
    cbn [split_on] in H. rewrite Ascii.eqb_refl in H.
    pose proof (split_on_cons slash p) as (h & t & E). rewrite E in H. cbn in H.
    by destruct (H _ _ eq_refl).
  - destruct (leading (split_on slash p)) as [|c l] eqn:E; [done|].
    destruct (H c (l ++ omap seg_component (split_on slash p))%list eq_refl) as [n ->].
    unfold leading in E. repeat case_match; congruence.
Qed.

(** ** Byte slices *)

Fixpoint stake (n : nat) (s : string) : string :=
  match n, s with S n, String a s => String a (stake n s) | _, _ => "" end.
Fixpoint sdrop (n : nat) (s : string) : string :=
  match n, s with
  | O, _ => s
  | S n, String _ s => sdrop n s
  | S _, "" => ""
  end.
(** [&s[start..end]]; [None] is the out-of-bounds panic. *)
Definition slice (s : string) (start end_ : Z) : option string :=
  if (0 <=? start) && (start <=? end_) && (end_ <=? slen s)
  then Some (stake (Z.to_nat (end_ - start)) (sdrop (Z.to_nat start) s))
  else None.

(** [u64::to_le_bytes] and [u64::from_le_bytes] at [n] bytes. *)
Fixpoint to_le_bytes (n : nat) (z : Z) : string :=
  match n with
  | O => ""
  | S n => String (ascii_of_N (Z.to_N (z mod 256))) (to_le_bytes n (z / 256))
  end.
Fixpoint from_le_bytes (s : string) : Z :=
  match s with "" => 0 | String c s => byte_val c + 256 * from_le_bytes s end.

Lemma byte_val_bound c : 0 <= byte_val c < 256.
Proof. unfold byte_val. pose proof (N_ascii_bounded c). lia. Qed.
Lemma byte_val_of_N z : 0 <= z < 256 -> byte_val (ascii_of_N (Z.to_N z)) = z.
Proof. intros. unfold byte_val. rewrite N_ascii_embedding; lia. Qed.
Lemma byte_val_inj a b : byte_val a = byte_val b -> a = b.
Proof.
  unfold byte_val. intros H%N2Z.inj.
  by rewrite <- (ascii_N_embedding a), <- (ascii_N_embedding b), H.
Qed.
Lemma slen_to_le_bytes n z : slen (to_le_bytes n z) = Z.of_nat n.
Proof. revert z. induction n as [|n IH]; intros z; [done|]. cbn [to_le_bytes].
  specialize (IH (z / 256)). unfold slen in *. cbn [String.length]. lia. Qed.
Lemma from_to_le_bytes n z :
  0 <= z < 256 ^ Z.of_nat n -> from_le_bytes (to_le_bytes n z) = z.
Proof.
  revert z. induction n as [|n IH]; intros z Hz; cbn [to_le_bytes from_le_bytes].
  - simpl in Hz. lia.
  - rewrite Nat2Z.inj_succ, Z.pow_succ_r in Hz by lia.
    pose proof (Z.mod_pos_bound z 256 ltac:(lia)).
    assert (0 <= z / 256 < 256 ^ Z.of_nat n) as Hq
      by (split; [apply Z.div_pos | apply Z.div_lt_upper_bound]; lia).
    rewrite byte_val_of_N, (IH _ Hq) by lia.
    pose proof (Z.div_mod z 256 ltac:(lia)). lia.
Qed.
Lemma to_le_bytes_inj n z1 z2 :
  0 <= z1 < 256 ^ Z.of_nat n -> 0 <= z2 < 256 ^ Z.of_nat n ->
  to_le_bytes n z1 = to_le_bytes n z2 -> z1 = z2.
Proof. intros H1 H2 H. rewrite <- (from_to_le_bytes n z1), H, from_to_le_bytes; done. Qed.

Lemma stake_app s1 s2 : stake (String.length s1) (s1 ++ s2) = s1.
Proof. induction s1; simpl; [by destruct s2|congruence]. Qed.
Lemma sdrop_app s1 s2 : sdrop (String.length s1) (s1 ++ s2) = s2.
Proof. induction s1; simpl; done. Qed.
Lemma stake_sdrop n s : stake n s ++ sdrop n s = s.
Proof. revert s. induction n; intros [|a s]; simpl; try done. by rewrite IHn. Qed.
Lemma slen_stake n s : slen (stake n s) = Z.min (Z.of_nat n) (slen s).
Proof. revert s. induction n as [|n IH]; intros [|a s]; unfold slen in *; simpl; [done|done|done|].
  specialize (IH s). lia. Qed.
Lemma slen_sdrop n s : slen (sdrop n s) = Z.max 0 (slen s - Z.of_nat n).
Proof. pose proof (stake_sdrop n s) as H. apply (f_equal slen) in H.
  rewrite slen_app, slen_stake in H. pose proof (slen_nonneg (sdrop n s)). lia. Qed.
Lemma sdrop_sdrop n m s : sdrop n (sdrop m s) = sdrop (m + n) s.
Proof. revert s. induction m; intros s; simpl; [done|]. destruct s; simpl; [by destruct n|done]. Qed.

(** Splitting equal concatenations at equal lengths. *)
Lemma string_app_inj s1 s2 t1 t2 :
  slen s1 = slen t1 -> s1 ++ s2 = t1 ++ t2 -> s1 = t1 /\ s2 = t2.
Proof.
  revert t1. induction s1 as [|a s1 IH]; intros [|b t1] Hl H; unfold slen in *;
    simpl in *; try lia; [done|].
  injection H as -> H. destruct (IH t1) as [-> ->]; try done. lia.
Qed.

Lemma slice_Some s a b : 0 <= a -> a <= b -> b <= slen s -> exists t, slice s a b = Some t.
Proof. intros. unfold slice. rewrite !(proj2 (Z.leb_le _ _)) by done. eauto. Qed.
Lemma slice_prefix s1 s2 : slice (s1 ++ s2) 0 (slen s1) = Some s1.
Proof.
  unfold slice. rewrite slen_app. pose proof (slen_nonneg s1). pose proof (slen_nonneg s2).
  rewrite !(proj2 (Z.leb_le _ _)) by lia. simpl. f_equal.
  replace (Z.to_nat (slen s1 - 0)) with (String.length s1) by (unfold slen; lia).
  apply stake_app.
Qed.
Lemma slice_shift s1 s2 a b :
  0 <= a -> slice (s1 ++ s2) (slen s1 + a) (slen s1 + b) = slice s2 a b.
Proof.
  intros Ha. unfold slice. rewrite slen_app. pose proof (slen_nonneg s1).
  destruct (Z.leb_spec 0 a), (Z.leb_spec a b), (Z.leb_spec b (slen s2)),
    (Z.leb_spec 0 (slen s1 + a)), (Z.leb_spec (slen s1 + a) (slen s1 + b)),
    (Z.leb_spec (slen s1 + b) (slen s1 + slen s2)); try lia; simpl; try done.
  f_equal. f_equal; [lia|].
  replace (Z.to_nat (slen s1 + a)) with (String.length s1 + Z.to_nat a)%nat by (unfold slen; lia).
  by rewrite <- sdrop_sdrop, sdrop_app.
Qed.
Lemma slice_len s a b t : slice s a b = Some t -> slen t = b - a.
Proof.
  unfold slice. case_match; [|done]. bool_to_prop. intros [= <-].
  rewrite slen_stake, slen_sdrop. lia.
Qed.

Lemma stake_add n m s : stake (n + m) s = stake n s ++ stake m (sdrop n s).
Proof. revert s. induction n as [|n IH]; intros s; cbn; [done|].
  destruct s; cbn; [by destruct m|]. by rewrite IH. Qed.
(** Adjacent slices concatenate. *)
Lemma slice_app s a b c t1 t2 :
  slice s a b = Some t1 -> slice s b c = Some t2 -> slice s a c = Some (t1 ++ t2).
Proof.
  unfold slice. intros H1 H2.
  destruct (_ && _ && _) eqn:E1 in H1; [|done]. destruct (_ && _ && _) eqn:E2 in H2; [|done].
  injection H1 as <-. injection H2 as <-. bool_to_prop.
  rewrite !(proj2 (Z.leb_le _ _)) by lia. cbn [andb]. f_equal.
  replace (Z.to_nat (c - a)) with (Z.to_nat (b - a) + Z.to_nat (c - b))%nat by lia.
  rewrite stake_add, sdrop_sdrop. do 3 f_equal. lia.
Qed.
Lemma slice_full s : slice s 0 (slen s) = Some s.
Proof. rewrite <- (string_app_nil_r s) at 1. apply slice_prefix. Qed.

(** ** String order *)

Lemma string_leb_total a b : String.leb a b = true \/ String.leb b a = true.
Proof. destruct (String.leb_total a b) as [->| ->]; auto. Qed.
Lemma string_leb_trans a b c :
  String.leb a b = true -> String.leb b c = true -> String.leb a c = true.
Proof.
  intros H1 H2. apply Is_true_true. apply Is_true_true in H1, H2.
  exact (transitivity (R := String.le) H1 H2).
Qed.
Lemma string_leb_antisym a b : String.leb a b = true -> String.leb b a = true -> a = b.
Proof. apply String.leb_antisym. Qed.
Lemma string_ltb_leb a b : String.ltb a b = negb (String.leb b a).
Proof.
  unfold String.ltb, String.leb. rewrite (String.compare_antisym a b).
  by destruct (String.compare b a).
Qed.
Lemma string_leb_refl a : String.leb a a = true.
Proof. by destruct (string_leb_total a a). Qed.

(** The derived [Ord] of a pair of strings. *)
Definition pair_leb (x y : string * string) : bool :=
  match String.compare x.1 y.1 with
  | Lt => true
  | Gt => false
  | Eq => String.leb x.2 y.2
  end.
Lemma pair_leb_total x y : pair_leb x y = true \/ pair_leb y x = true.
Proof.
  unfold pair_leb. rewrite (String.compare_antisym x.1 y.1).
  destruct (String.compare y.1 x.1); simpl; auto. apply string_leb_total.
Qed.
Lemma pair_leb_fst x y : pair_leb x y = true -> String.leb x.1 y.1 = true.
Proof. unfold pair_leb, String.leb. by destruct (String.compare x.1 y.1). Qed.
Lemma pair_leb_spec x y :
  pair_leb x y = true <->
    String.leb x.1 y.1 = true /\ (String.leb y.1 x.1 = true -> String.leb x.2 y.2 = true).
Proof.
  unfold pair_leb, String.leb. rewrite (String.compare_antisym x.1 y.1).
  destruct (String.compare y.1 x.1); cbn; naive_solver.
Qed.
Lemma pair_leb_trans x y z : pair_leb x y = true -> pair_leb y z = true -> pair_leb x z = true.
Proof. rewrite !pair_leb_spec. naive_solver eauto using string_leb_trans. Qed.

(** ** Decimal round trip *)

Lemma digit_char_spec d : 0 <= d < 10 ->
  is_ascii_digit (digit_char d) = true /\ digit_val (digit_char d) = Some d.
Proof.
  intros Hd. unfold digit_val, is_ascii_digit, digit_char.
  rewrite byte_val_of_N by lia. unfold between.
  rewrite !(proj2 (Z.leb_le _ _)) by lia. split; [done|]. simpl. f_equal. lia.
Qed.
Lemma slen_fmt_padded n z : slen (fmt_padded n z) = Z.of_nat n.
Proof. revert z. induction n as [|n IH]; intros z; [done|]. cbn [fmt_padded].
  rewrite slen_app, IH. unfold slen. cbn. lia. Qed.
Lemma fmt_padded_digits n z : all_bytes is_ascii_digit (fmt_padded n z) = true.
Proof.
  revert z. induction n as [|n IH]; intros z; [done|]. cbn [fmt_padded].
  rewrite all_bytes_app, IH. cbn [all_bytes andb].
  destruct (digit_char_spec (z mod 10)) as [-> _]; [apply Z.mod_pos_bound; lia|done].
Qed.
Lemma parse_digits_app acc s1 s2 :
  parse_digits acc (s1 ++ s2) = v ← parse_digits acc s1; parse_digits v s2.
Proof. revert acc. induction s1 as [|c s1 IH]; intros acc; cbn; [done|].
  destruct (digit_val c); cbn; [apply IH|done]. Qed.
Lemma parse_fmt_padded n z :
  0 <= z < 10 ^ Z.of_nat n -> parse_digits 0 (fmt_padded n z) = Some z.
Proof.
  revert z. induction n as [|n IH]; intros z Hz; cbn [fmt_padded].
  - simpl in *. f_equal. lia.
  - rewrite Nat2Z.inj_succ, Z.pow_succ_r in Hz by lia.
    assert (0 <= z / 10 < 10 ^ Z.of_nat n) as Hq
      by (split; [apply Z.div_pos | apply Z.div_lt_upper_bound]; lia).
    rewrite parse_digits_app, (IH _ Hq). cbn [mbind option_bind parse_digits].
    destruct (digit_char_spec (z mod 10)) as [_ ->]; [apply Z.mod_pos_bound; lia|].
    cbn. f_equal. pose proof (Z.div_mod z 10 ltac:(lia)). lia.
Qed.
(** A digit string does not start with [+], so parsing sees all of it. *)
Lemma parse_unsigned_digits max s v :
  s <> "" -> all_bytes is_ascii_digit s = true -> parse_digits 0 s = Some v -> v <= max ->
  parse_unsigned max s = Some v.
Proof.
  intros Hne Hd Hp Hv. unfold parse_unsigned.
  destruct (strip_prefix "+" s) eqn:E.
  - apply strip_prefix_Some in E as ->. cbn in Hd. done.
  - rewrite (proj2 (String.eqb_neq s "") Hne), Hp. cbn.
    by rewrite (proj2 (Z.leb_le _ _) Hv).
Qed.
Lemma parse_unsigned_range max s v : parse_unsigned max s = Some v -> 0 <= v <= max.
Proof.
  unfold parse_unsigned. destruct (String.eqb _ ""); [done|].
  set (digits := match strip_prefix "+" s with Some r => r | None => s end). clearbody digits.
  assert (forall t acc w, 0 <= acc -> parse_digits acc t = Some w -> 0 <= w) as Hd.
  { clear. induction t as [|c t IH]; intros acc w Ha; cbn; [by intros [= <-]|].
    unfold digit_val. destruct (is_ascii_digit c) eqn:Ec; [|done]. cbn. apply IH.
    unfold is_ascii_digit, between in Ec. lia. }
  destruct (parse_digits 0 digits) as [w|] eqn:E; [|done]. cbn. apply Hd in E; [|done].
  destruct (Z.leb_spec w max); [|done]. intros [= <-]. lia.
Qed.
Lemma split_once_Some c s a b :
  split_once c s = Some (a, b) -> s = a ++ String c b /\ all_bytes (fun x => negb (Ascii.eqb x c)) a = true.
Proof.
  revert a. induction s as [|x s IH]; intros a; cbn; [done|].
  destruct (Ascii.eqb_spec x c) as [->|N]; [intros [= <- <-]; done|].
  destruct (split_once c s) as [[a' b']|] eqn:E; [|done]. intros [= <- <-].
  destruct (IH _ eq_refl) as [-> F]. split; [done|]. cbn. rewrite F. by destruct (Ascii.eqb_spec x c).
Qed.
Lemma split_once_app c s1 s2 :
  all_bytes (fun a => negb (Ascii.eqb a c)) s1 = true ->
  split_once c (s1 ++ String c s2) = Some (s1, s2).
Proof.
  induction s1 as [|a s1 IH]; cbn; [by rewrite Ascii.eqb_refl|].
  intros H. bool_to_prop. rewrite H, IH; done.
Qed.
Lemma concat_str_app l1 l2 : concat_str (l1 ++ l2) = concat_str l1 ++ concat_str l2.
Proof. induction l1; cbn; [done|]. by rewrite IHl1, string_app_assoc. Qed.

Lemma rsplit_once_none c s :
  all_bytes (fun b => negb (Ascii.eqb b c)) s = true -> rsplit_once c s = None.
Proof.
  induction s as [|a s IH]; cbn; [done|]. intros Hs. bool_to_prop. rewrite IH by done.
  by destruct (Ascii.eqb a c).
Qed.
Lemma rsplit_once_app c l r :
  all_bytes (fun b => negb (Ascii.eqb b c)) r = true -> rsplit_once c (l ++ String c r) = Some (l, r).
Proof.
  intros Hr. induction l as [|a l IH]; cbn.
  - rewrite rsplit_once_none by done. by rewrite Ascii.eqb_refl.
  - by rewrite IH.
Qed.
Lemma rsplit_once_Some c s l r : rsplit_once c s = Some (l, r) -> s = l ++ String c r.
Proof.
  revert l. induction s as [|a s IH]; intros l; cbn; [done|].
  destruct (rsplit_once c s) as [[l' r']|].
  - intros [= <- <-]. cbn. by rewrite (IH l').
  - destruct (Ascii.eqb_spec a c); [|done]. by intros [= <- <-]; subst.
Qed.

(** ** Length-prefixed fields *)

(** [len u64 LE | bytes], the framing every hasher of the program uses. *)
Definition len_prefix (value : string) : string := to_le_bytes 8 (slen value) ++ value.

Lemma len_prefix_inj v1 v2 r1 r2 :
  slen v1 <= u64_max -> slen v2 <= u64_max ->
  len_prefix v1 ++ r1 = len_prefix v2 ++ r2 -> v1 = v2 /\ r1 = r2.
Proof.
  intros H1 H2. unfold len_prefix. rewrite <- !string_app_assoc. intros E.
  pose proof (slen_nonneg v1). pose proof (slen_nonneg v2). unfold u64_max in *.
  apply string_app_inj in E as [El E]; [|by rewrite !slen_to_le_bytes].
  apply to_le_bytes_inj in El; [|simpl; lia..].
  by apply string_app_inj in E.
Qed.

(** [{}] of a [u64]. *)
Fixpoint drop_zeros (s : string) : string :=
  match s with
  | String c ((String _ _) as rest) => if Ascii.eqb c "0" then drop_zeros rest else s
  | _ => s
  end.
Definition fmt_dec (z : Z) : string := drop_zeros (fmt_padded 20 z).
