(* ===== verification/Codec.v ===== *)
(** * Rust values and their JSON encoding

    The models use [Z] for machine integers and [string] for byte strings, so a
    record of the model may hold values no Rust value has.  [RustValue] is the
    predicate that singles out the ones the source's types can hold, and
    [JsonCodec] states what the program relies on from [serde_json] for them.
    [serial_codec] shows that the interface can be implemented. *)

From S2P Require Import Prelude Strings.
#[local] Open Scope string_scope.
#[local] Open Scope Z_scope.

(** ** Values of Rust types *)

Class RustValue (A : Type) := well_typed : A -> bool.
Definition u32_ok (z : Z) : bool := (0 <=? z) && (z <=? u32_max).
Definition u64_ok (z : Z) : bool := (0 <=? z) && (z <=? u64_max).

Definition continuation (c : ascii) : bool := between 128 191 (byte_val c).
(** The byte sequences [str] admits (shortest forms, no surrogates, at most
    U+10FFFF). *)
Fixpoint valid_utf8 (s : string) : bool :=
  match s with
  | "" => true
  | String a s1 =>
      let b0 := byte_val a in
      if b0 <? 128 then valid_utf8 s1 else
      match s1 with
      | "" => false
      | String b s2 =>
          let b1 := byte_val b in
          if between 194 223 b0 then continuation b && valid_utf8 s2 else
          match s2 with
          | "" => false
          | String c s3 =>
              if between 224 239 b0 then
                between (if b0 =? 224 then 160 else 128) (if b0 =? 237 then 159 else 191) b1
                && continuation c && valid_utf8 s3
              else
              match s3 with
              | "" => false
              | String d s4 =>
                  between 240 244 b0
                  && between (if b0 =? 240 then 144 else 128) (if b0 =? 244 then 143 else 191) b1
                  && continuation c && continuation d && valid_utf8 s4
              end
          end
      end
  end.
#[export] Instance rust_string : RustValue string := valid_utf8.
#[export] Instance rust_bool : RustValue bool := fun _ => true.
#[export] Instance rust_vec `{RustValue A} : RustValue (list A) := forallb well_typed.
#[export] Instance rust_option `{RustValue A} : RustValue (option A) :=
  fun o => match o with Some a => well_typed a | None => true end.

(** ** The interface of [serde_json] *)

(** [to_vec] of a value parses back to it, and what parses is a value of the
    type. *)
Class JsonCodec (A : Type) `{RustValue A} := {
  to_vec : A -> string;
  from_slice : string -> option A;
  from_slice_to_vec : forall a, well_typed a = true -> from_slice (to_vec a) = Some a;
  from_slice_typed : forall s a, from_slice s = Some a -> well_typed a = true;
}.

(** ** Lemmas *)

Lemma ascii_utf8 p s :
  (forall c, p c = true -> byte_val c < 128) -> all_bytes p s = true -> valid_utf8 s = true.
Proof.
  intros Hp. induction s as [|c s IH]; cbn [all_bytes valid_utf8]; [done|].
  intros Hs. apply andb_true_iff in Hs as [Hc Hs]. apply Hp in Hc.
  rewrite (proj2 (Z.ltb_lt _ _) Hc). auto.
Qed.

(** ** A concrete codec

    Field lists, each byte marked with [1] and each field closed with [0]. *)

Fixpoint quote (s rest : string) : string :=
  match s with
  | "" => String "0" rest
  | String c s => String "1" (String c (quote s rest))
  end.
Fixpoint quote_fields (l : list string) : string :=
  match l with [] => "" | s :: l => quote s (quote_fields l) end.
Definition cons_head (c : ascii) (l : list string) : list string :=
  match l with [] => [] | s :: l => String c s :: l end.
Fixpoint fields (s : string) : list string :=
  match s with
  | "" => []
  | String m s => if Ascii.eqb m "0" then "" :: fields s
                  else match s with "" => [] | String c s => cons_head c (fields s) end
  end.

Class Serial (A : Type) := {
  serialize : A -> string;
  deserialize : string -> option A;
  deserialize_serialize : forall a, deserialize (serialize a) = Some a;
}.

Lemma fields_quote_fields l : fields (quote_fields l) = l.
Proof.
  induction l as [|s l IH]; [done|]. cbn [quote_fields].
  induction s as [|c s IHs]; cbn; [by rewrite IH|]. by rewrite IHs.
Qed.

#[export] Instance serial_string : Serial string :=
  {| serialize s := s; deserialize := Some; deserialize_serialize _ := eq_refl |}.

(** Numbers by the bits of their encoding. *)
Fixpoint bits (p : positive) : string :=
  match p with
  | xH => ""
  | xO p => String "0" (bits p)
  | xI p => String "1" (bits p)
  end.
Fixpoint unbits (s : string) : positive :=
  match s with
  | "" => xH
  | String c s => if Ascii.eqb c "0" then xO (unbits s) else xI (unbits s)
  end.
Lemma unbits_bits p : unbits (bits p) = p.
Proof. induction p; cbn; by f_equal. Qed.
#[export] Instance serial_Z : Serial Z.
Proof.
  refine {| serialize z := bits (encode z); deserialize s := decode (unbits s) |}.
  intros z. by rewrite unbits_bits, decode_encode.
Defined.
#[export] Instance serial_bool : Serial bool.
Proof.
  refine {| serialize (b : bool) := if b then "t" else "f"; deserialize s := Some (String.eqb s "t") |}.
  by intros [].
Defined.

Section SerialVec.
Context `{Serial A}.
Lemma mapM_deserialize l : mapM deserialize (map serialize l) = Some l.
Proof. induction l as [|a l IH]; cbn; [done|]. by rewrite deserialize_serialize; cbn; rewrite IH. Qed.
#[export] Instance serial_vec : Serial (list A).
Proof.
  refine {| serialize (l : list A) := quote_fields (map serialize l);
            deserialize s := mapM deserialize (fields s) |}.
  intros l. rewrite fields_quote_fields. apply mapM_deserialize.
Defined.
#[export] Instance serial_option : Serial (option A).
Proof.
  refine {| serialize (o : option A) := match o with Some a => String "s" (serialize a) | None => "" end;
            deserialize s := match s with "" => Some None
                             | String _ s => a ← deserialize s; Some (Some a) end |}.
  intros [a|]; [|done]. by rewrite deserialize_serialize.
Defined.
End SerialVec.

Section SerialCodec.
Context (A : Type) `{Serial A, RustValue A}.
Definition serial_from_slice (s : string) : option A :=
  a ← deserialize s;
  if well_typed a then Some a else None.
Definition serial_codec : JsonCodec A.
Proof.
  refine {| to_vec := serialize; from_slice := serial_from_slice |}; unfold serial_from_slice.
  - intros a Ha. rewrite deserialize_serialize. cbn. by rewrite Ha.
  - intros s a. destruct (deserialize s) as [b|]; cbn; [|done].
    destruct (well_typed b) eqn:Hb; congruence.
Defined.
End SerialCodec.

(** Solves the round trip of a record serialised as its field list. *)
Ltac solve_serial :=
  intros []; rewrite fields_quote_fields; repeat (rewrite deserialize_serialize; cbn [mbind option_bind]);
  reflexivity.

(** ** A concrete digest *)

(** A 32-bit checksum printed as 64 digits: any 64 lowercase hex digits are a
    digest. *)
Fixpoint checksum (acc : Z) (s : string) : Z :=
  match s with
  | "" => acc
  | String c s => checksum ((acc * 31 + byte_val c) mod 4294967296) s
  end.
Definition toy_hex (s : string) : string := fmt_padded 64 (checksum 7 s).

(** Refutes [E : f = Err e] by evaluating [f]. *)
Ltac not_err E :=
  match type of E with ?f = _ =>
    let H := fresh in
    assert (H : is_ok f = true) by (vm_compute; reflexivity); rewrite E in H; discriminate H
  end.
