(* ===== verification/Regions.v ===== *)
(** * Checked file regions

    [src/checked_regions.rs]: the offset arithmetic every binary reader of the
    repository goes through before it slices a buffer. *)

From S2P Require Import Prelude.

Section Regions.
Context `{Usize}.

(** [checked_file_region] *)
Definition checked_file_region (file_len offset size minimum_offset : Z) : option (Z * Z) :=
  start ← usize_try_from offset;
  size ← usize_try_from size;
  if negb (size =? 0) && (start <? minimum_offset) then None else
  end_ ← checked_add usize_max start size;
  if file_len <? end_ then None else Some (start, end_).

(** [checked_nonempty_contiguous_region] *)
Definition checked_nonempty_contiguous_region
    (expected_offset offset length payload_len : Z) : option (Z * (Z * Z)) :=
  if negb (offset =? expected_offset) || (length =? 0) then None else
  next_offset ← checked_add u64_max offset length;
  range ← checked_file_region payload_len offset length 0;
  Some (next_offset, range).

(** The mathematical contract: the region is accepted exactly when the exact
    (unbounded) end lies in the file, whatever the pointer width. *)
Lemma checked_file_region_Some file_len offset size minimum_offset s e :
  0 <= offset -> 0 <= size -> in_range usize_max file_len ->
  checked_file_region file_len offset size minimum_offset = Some (s, e) <->
  s = offset /\ e = offset + size /\ e <= file_len /\ (size = 0 \/ minimum_offset <= offset).
Proof.
  unfold in_range. intros Ho Hs Hl.
  unfold checked_file_region, usize_try_from, checked_add.
  destruct (Z.leb_spec offset usize_max); simpl; [|split; intros; naive_solver lia].
  destruct (Z.leb_spec size usize_max); simpl; [|split; intros; naive_solver lia].
  destruct (Z.eqb_spec size 0), (Z.ltb_spec offset minimum_offset),
    (Z.leb_spec (offset + size) usize_max); simpl;
    repeat case_match; bool_to_prop; split; intros; naive_solver lia.
Qed.

End Regions.
