(* ===== verification/Format.v ===== *)
(** * Entry metadata and its validators

    [crates/kache-format/src/lib.rs]: the [meta.json] record shared by the local
    store and the remote readers, and the predicates that guard every value
    that crosses a trust boundary (cache keys, crate names, blob hashes and
    artifact names).  Artifact names follow the Unix path rules of
    [Strings.components]. *)

From S2P Require Import Prelude Strings.
#[local] Open Scope string_scope.
#[local] Open Scope Z_scope.

Definition CACHE_KEY_VERSION : Z := 33.

Definition GATED_EMIT_KINDS : list string :=
  ["link"; "metadata"; "obj"; "dep-info"; "asm"; "llvm-ir"; "llvm-bc"; "mir"].

Record CachedFile := {
  name : string;
  size : Z;
  hash : string;
  executable : bool;
}.
#[export] Instance CachedFile_eq_dec : EqDecision CachedFile.
Proof. solve_decision. Defined.

Record EntryMeta := {
  cache_key : string;
  key_schema : Z;
  crate_name : string;
  crate_types : list string;
  files : list CachedFile;
  stdout : string;
  stderr : string;
  features : list string;
  target : string;
  profile : string;
  compile_time_ms : Z;
  emit_kinds : list string;
}.
#[export] Instance EntryMeta_eq_dec : EqDecision EntryMeta.
Proof. solve_decision. Defined.

(** [EntryMeta::covers_requested_emit] *)
Definition covers_requested_emit (self : EntryMeta) (requested : list string) : bool :=
  if bool_decide (emit_kinds self = []) then true else
  forallb (fun kind => existsb (fun have => String.eqb have kind) (emit_kinds self))
    (filter (fun kind => kind ∈ GATED_EMIT_KINDS) requested).

(** [reports_debug_info_tool_failure] *)
Definition reports_debug_info_tool_failure (stderr : string) : bool :=
  existsb (fun line => contains "debug info with `" line && contains "` failed: " line)
    (lines stderr).

(** [is_valid_cache_key] *)
Definition is_valid_cache_key (s : string) : bool :=
  (slen s =? 64) && all_bytes (fun b => is_ascii_digit b || between 97 102 (byte_val b)) s.

(** [is_valid_crate_name] *)
Definition is_valid_crate_name (s : string) : bool :=
  negb (String.eqb s "") && (slen s <=? 128) && negb (contains ".." s)
  && all_bytes (fun b => is_ascii_alphanumeric b
       || Ascii.eqb b "_" || Ascii.eqb b "-" || Ascii.eqb b ".") s.

(** [is_blob_hash] *)
Definition is_blob_hash (s : string) : bool :=
  (slen s =? 64) && all_bytes is_ascii_hexdigit s.

(** [is_safe_artifact_name] *)
Definition is_safe_artifact_name (name : string) : bool :=
  match components name with
  | [Normal _] => true
  | _ => false
  end.

Definition is_normal (c : Component) : bool :=
  match c with Normal _ => true | _ => false end.

(** [is_safe_stored_artifact_name] *)
Definition is_safe_stored_artifact_name (name : string) : bool :=
  match components name with
  | Normal first :: tail =>
      if negb (forallb is_normal tail) then false
      else if String.eqb first "out" || String.eqb first "outside"
      then negb (bool_decide (tail = []))
      else bool_decide (tail = [])
  | _ => false
  end.

(** ** What the validators guarantee *)

(** No byte of [s] is a separator: the whole string is one path segment. *)
Lemma components_no_slash s :
  all_bytes (fun b => negb (Ascii.eqb b slash)) s = true ->
  s <> "" -> s <> "." -> s <> ".." -> components s = [Normal s].
Proof.
  intros Hs H0 H1 H2. unfold components. rewrite split_on_none by done.
  assert (leading [s] = []) as ->.
  { unfold leading. repeat case_match; try done; congruence. }
  simpl. unfold seg_component.
  rewrite (proj2 (String.eqb_neq s "")), (proj2 (String.eqb_neq s ".")),
    (proj2 (String.eqb_neq s "..")); done.
Qed.

Lemma byte_ne_slash b : byte_val b <> 47 -> negb (Ascii.eqb b slash) = true.
Proof. intros H. destruct (Ascii.eqb_spec b slash) as [->|]; done. Qed.

Lemma valid_cache_key_component k :
  is_valid_cache_key k = true -> components k = [Normal k].
Proof.
  unfold is_valid_cache_key. intros H. bool_to_prop.
  apply components_no_slash; try (intros ->; discriminate).
  eapply all_bytes_impl; [|done]. intros c Hc. apply byte_ne_slash.
  unfold is_ascii_digit, between in Hc. lia.
Qed.

Lemma is_valid_cache_key_is_blob_hash k : is_valid_cache_key k = true -> is_blob_hash k = true.
Proof.
  unfold is_valid_cache_key, is_blob_hash. intros H. bool_to_prop.
  rewrite (proj2 (Z.eqb_eq _ _) H). simpl.
  eapply all_bytes_impl; [|done]. intros c. unfold is_ascii_hexdigit.
  intros ->. done.
Qed.

Lemma safe_name_components n :
  is_safe_artifact_name n = true <-> exists x, components n = [Normal x].
Proof.
  unfold is_safe_artifact_name. split.
  - repeat case_match; try done. eauto.
  - by intros [x ->].
Qed.

(** A path made of normal components is joined strictly below the directory. *)
Lemma components_join_normal dir n ns :
  components n = Normal <$> ns -> components (join dir n) = (components dir ++ (Normal <$> ns))%list.
Proof.
  intros Hn. destruct (components_relative n) as [Ha Hl].
  - rewrite Hn. intros c l. destruct ns; simpl; naive_solver.
  - rewrite components_join, Hn; done.
Qed.

Lemma forallb_normal l : forallb is_normal l = true -> exists ns, l = Normal <$> ns.
Proof.
  induction l as [|c l IH]; simpl; [by exists []|].
  intros H. bool_to_prop. destruct IH as [ns ->]; [done|].
  destruct c as [| | |n]; try done. by exists (n :: ns).
Qed.

Lemma safe_stored_components n :
  is_safe_stored_artifact_name n = true <->
  exists first tail, components n = Normal <$> (first :: tail) /\
    ((first = "out" \/ first = "outside") /\ tail <> []
     \/ first <> "out" /\ first <> "outside" /\ tail = []).
Proof.
  unfold is_safe_stored_artifact_name. split.
  - destruct (components n) as [|[| | |first] tail]; try done.
    destruct (forallb is_normal tail) eqn:Ht; [|done]. simpl.
    apply forallb_normal in Ht as [ns ->].
    destruct (String.eqb_spec first "out"), (String.eqb_spec first "outside"); simpl;
      intros H; bool_to_prop; exists first, ns; (split; [done|]);
      destruct ns; simpl in *; naive_solver.
  - intros (first & tail & -> & H). rewrite fmap_cons. cbv beta iota.
    assert (forallb is_normal (Normal <$> tail) = true) as ->
      by (clear H; induction tail; simpl; done).
    destruct (String.eqb_spec first "out"), (String.eqb_spec first "outside"),
      tail; simpl; naive_solver.
Qed.

(** ** Object keys *)

(** [join_remote_key] of [kache-config] *)
Definition join_remote_key (prefix rest : string) : string :=
  if String.eqb prefix "" then rest else prefix ++ "/" ++ rest.
Lemma join_remote_key_app prefix a b :
  join_remote_key prefix (a ++ b) = join_remote_key prefix a ++ b.
Proof. unfold join_remote_key. case_match; [done|]. by rewrite <- !string_app_assoc. Qed.
