(* ===== verification/Pack.v ===== *)
(** * Prefetch packs and catalogs

    [src/remote_pack.rs]: the immutable multi-entry transport pack
    [KACHPK01 | index_len u64 LE | index JSON | payloads], the catalog that binds
    packs to a build selector, and their object keys.

    Outside the repository, and therefore parameters: [blake3] (a function from
    bytes to a lowercase hex digest) and [serde_json] (a codec that decodes what
    it encoded). *)

From S2P Require Import Prelude Strings Codec Regions Format.
#[local] Open Scope string_scope.
#[local] Open Scope Z_scope.

(** ** Constants and data *)

Definition PACK_VERSION : Z := 1.
Definition CATALOG_VERSION : Z := 1.
Definition DEFAULT_MAX_PACK_BYTES : Z := 256 * 1024 * 1024.
Definition PACK_MAGIC : string := "KACHPK01".
Definition PACK_HEADER_BYTES : Z := slen PACK_MAGIC + 8.
Definition MAX_PACK_INDEX_BYTES : Z := 16 * 1024 * 1024.
Definition MAX_CATALOG_BYTES : Z := 64 * 1024 * 1024.
Definition MAX_PACK_ENTRIES : Z := 65536.
Definition MAX_CATALOG_PACKS : Z := 16384.
Definition MAX_SELECTOR_TEXT_BYTES : Z := 4096.

Record PackInputEntry := {
  pie_cache_key : string;
  pie_crate_name : string;
  pie_meta_digest : string;
  pie_payload : string;
}.
Record PackIndexEntry := {
  pix_cache_key : string;
  pix_crate_name : string;
  pix_meta_digest : string;
  pix_offset : Z;
  pix_length : Z;
}.
Record PackIndex := {
  pi_version : Z;
  pi_key_schema : Z;
  pi_entries : list PackIndexEntry;
}.
Record BuiltPack := {
  bp_bytes : string;
  bp_digest : string;
  bp_object_key : string;
  bp_index : PackIndex;
}.
Record DecodedPackEntry := {
  dpe_descriptor : PackIndexEntry;
  dpe_payload : string;
}.
Record DecodedPack := {
  dp_index : PackIndex;
  dp_entries : list DecodedPackEntry;
}.
Record CatalogEntry := {
  ce_cache_key : string;
  ce_crate_name : string;
  ce_meta_digest : string;
}.
Record CatalogPackRef := {
  cp_digest : string;
  cp_pack_bytes : Z;
  cp_entries : list CatalogEntry;
}.
Record PackCatalog := {
  pc_version : Z;
  pc_key_schema : Z;
  pc_manifest_key : string;
  pc_namespace : string;
  pc_selector_hash : string;
  pc_shard_hashes : list string;
  pc_created_at_ms : Z;
  pc_expires_at_ms : Z;
  pc_packs : list CatalogPackRef;
  pc_fallback_entries : list CatalogEntry;
}.
Record EncodedCatalog := {
  ec_bytes : string;
  ec_digest : string;
  ec_object_key : string;
  ec_catalog : PackCatalog;
}.
Record CatalogObjectRef := {
  cor_object_key : string;
  cor_created_at_ms : Z;
  cor_digest : string;
}.

#[export] Instance PackIndexEntry_eq_dec : EqDecision PackIndexEntry.
Proof. solve_decision. Defined.
#[export] Instance PackIndex_eq_dec : EqDecision PackIndex.
Proof. solve_decision. Defined.
#[export] Instance CatalogEntry_eq_dec : EqDecision CatalogEntry.
Proof. solve_decision. Defined.
#[export] Instance CatalogPackRef_eq_dec : EqDecision CatalogPackRef.
Proof. solve_decision. Defined.
#[export] Instance PackCatalog_eq_dec : EqDecision PackCatalog.
Proof. solve_decision. Defined.

(** One constructor per [bail!] / [context] of the module. *)
Inductive PackError :=
| BadPackCap
| BadDigest
| BadCacheKey
| BadCrateName
| BadSelectorText
| DuplicateShard
| EmptyPack
| TooManyEntries
| DuplicateKey
| EmptyPayload
| LengthOverflow
| IndexTooLarge
| PackTooLarge
| DigestMismatch
| BadMagic
| IndexBeyondObject
| BadIndexJson
| BadVersion
| BadKeySchema
| BadEntryCount
| NotCanonical
| BadFrame
| FrameTotal
| CatalogTooLarge
| BadCatalogJson
| CatalogNotCanonical
| SelectorMismatch
| Expired
| SizeMismatch
| CountMismatch
| BindingMismatch
| BadExpiry
| TooManyPacks
| DuplicatePack
| BadPackSize
(** an out-of-range slice: not a value of the source's error type, but its
    panic; [decode_pack] is proved never to reach it *)
| SlicePanic.
#[export] Instance PackError_eq_dec : EqDecision PackError.
Proof. solve_decision. Defined.

Abbreviation res := (result PackError).

(** ** What the Rust types hold *)

#[export] Instance rust_index_entry : RustValue PackIndexEntry := fun e =>
  valid_utf8 (pix_cache_key e) && valid_utf8 (pix_crate_name e) && valid_utf8 (pix_meta_digest e)
  && u64_ok (pix_offset e) && u64_ok (pix_length e).
#[export] Instance rust_index : RustValue PackIndex := fun i =>
  u32_ok (pi_version i) && u32_ok (pi_key_schema i) && well_typed (pi_entries i).
#[export] Instance rust_catalog_entry : RustValue CatalogEntry := fun e =>
  valid_utf8 (ce_cache_key e) && valid_utf8 (ce_crate_name e) && valid_utf8 (ce_meta_digest e).
#[export] Instance rust_pack_ref : RustValue CatalogPackRef := fun p =>
  valid_utf8 (cp_digest p) && u64_ok (cp_pack_bytes p) && well_typed (cp_entries p).
#[export] Instance rust_catalog : RustValue PackCatalog := fun c =>
  u32_ok (pc_version c) && u32_ok (pc_key_schema c) && valid_utf8 (pc_manifest_key c)
  && valid_utf8 (pc_namespace c) && valid_utf8 (pc_selector_hash c)
  && well_typed (pc_shard_hashes c) && u64_ok (pc_created_at_ms c) && u64_ok (pc_expires_at_ms c)
  && well_typed (pc_packs c) && well_typed (pc_fallback_entries c).

(** ** Validators *)

(** [validate_digest] *)
Definition validate_digest (value : string) : res unit :=
  ensure (is_valid_cache_key value) BadDigest.

(** [validate_selector_text] *)
Definition validate_selector_text (value : string) : res unit :=
  if String.eqb value "" || (MAX_SELECTOR_TEXT_BYTES <? slen value)
     || existsb (fun c => is_control c.1) (chars value)
  then Err BadSelectorText else Ok tt.

(** [validate_entry_fields] *)
Definition validate_entry_fields (cache_key crate_name meta_digest : string) : res unit :=
  ensure (is_valid_cache_key cache_key) BadCacheKey;;
  ensure (is_valid_crate_name crate_name) BadCrateName;;
  validate_digest meta_digest.

(** [validate_entry] *)
Definition validate_entry (entry : CatalogEntry) : res unit :=
  validate_entry_fields (ce_cache_key entry) (ce_crate_name entry) (ce_meta_digest entry).

(** [validate_pack_cap] *)
Definition validate_pack_cap (max_bytes : Z) : res unit :=
  if (max_bytes =? 0) || (DEFAULT_MAX_PACK_BYTES <? max_bytes) then Err BadPackCap else Ok tt.


(** [slice.windows(2).any(|pair| pair[0] == pair[1])] *)
Fixpoint adjacent_dup (l : list string) : bool :=
  match l with
  | a :: ((b :: _) as l') => String.eqb a b || adjacent_dup l'
  | _ => false
  end.

(** ** Object keys *)

(** [pack_object_key] *)
Definition pack_object_key (prefix digest : string) : res string :=
  validate_digest digest;;
  shard ← with_context (slice digest 0 2) SlicePanic;
  Ok (join_remote_key prefix ("v4/prefetch/packs/" ++ shard ++ "/" ++ digest ++ ".kpack")).

(** [pack_meta_object_key] *)
Definition pack_meta_object_key (prefix digest : string) : res string :=
  validate_digest digest;;
  Ok (join_remote_key prefix ("v4/prefetch/pack-meta/" ++ digest ++ ".json")).

(** [catalog_prefix] *)
Definition catalog_prefix (prefix selector : string) : res string :=
  validate_digest selector;;
  Ok (join_remote_key prefix ("v4/prefetch/catalogs/" ++ selector ++ "/")).

(** [catalog_object_key]; [{created_at_ms:020}] of a [u64] has exactly 20 digits. *)
Definition catalog_object_key (prefix selector : string) (created_at_ms : Z) (digest : string)
    : res string :=
  validate_digest selector;;
  validate_digest digest;;
  Ok (join_remote_key prefix
        ("v4/prefetch/catalogs/" ++ selector ++ "/" ++ fmt_padded 20 created_at_ms ++ "-"
           ++ digest ++ ".json")).

(** [parse_catalog_object_ref] *)
Definition parse_catalog_object_ref (prefix key : string) : option CatalogObjectRef :=
  rest ← strip_prefix prefix key;
  filename ← strip_suffix ".json" rest;
  '(created_at, digest) ← split_once "-" filename;
  if negb (slen created_at =? 20) || negb (all_bytes is_ascii_digit created_at) then None
  else if negb (is_ok (validate_digest digest)) then None
  else created_at_ms ← parse_unsigned u64_max created_at;
       Some {| cor_object_key := key; cor_created_at_ms := created_at_ms; cor_digest := digest |}.

(** The comparison of [latest_catalog_object]'s [max_by]. *)
Definition catalog_ref_leb (left right : CatalogObjectRef) : bool :=
  match Z.compare (cor_created_at_ms left) (cor_created_at_ms right) with
  | Lt => true
  | Gt => false
  | Eq => String.leb (cor_digest left) (cor_digest right)
  end.
(** [Iterator::max_by]: the last of several maximal elements. *)
Definition max_by {A} (leb : A -> A -> bool) (l : list A) : option A :=
  fold_left (fun acc x => match acc with
                          | None => Some x
                          | Some m => if leb m x then Some x else Some m
                          end) l None.

(** [latest_catalog_object] *)
Definition latest_catalog_object (prefix selector : string) (object_keys : list string)
    : res (option CatalogObjectRef) :=
  expected_prefix ← catalog_prefix prefix selector;
  Ok (max_by catalog_ref_leb (omap (parse_catalog_object_ref expected_prefix) object_keys)).

(** ** Packs *)

Section Packs.
Context `{Usize}.
(** [blake3::hash(bytes).to_hex()] *)
Context (blake3_hex : string -> string).
Context `{!JsonCodec PackIndex}.

(** [hash_field]: what one length-prefixed field adds to the hasher. *)
Definition hash_field (value : string) : string := to_le_bytes 8 (slen value) ++ value.

(** The bytes [selector_hash] feeds to the hasher, in order. *)
Definition selector_preimage (manifest_key namespace : string) (shards : list string)
    (key_schema : Z) : string :=
  "kache-prefetch-selector-v1" ++ hash_field manifest_key ++ hash_field namespace
  ++ to_le_bytes 4 key_schema ++ to_le_bytes 8 (Z.of_nat (length shards))
  ++ concat_str (map hash_field shards).

(** [selector_hash] *)
Definition selector_hash (manifest_key namespace : string) (shard_hashes : list string)
    (key_schema : Z) : res string :=
  validate_selector_text manifest_key;;
  validate_selector_text namespace;;
  let shards := sort_by String.leb shard_hashes in
  if adjacent_dup shards then Err DuplicateShard else
  try_fold (fun _ shard => validate_digest shard) tt shards;;
  Ok (blake3_hex (selector_preimage manifest_key namespace shards key_schema)).

Definition input_leb (left right : PackInputEntry) : bool :=
  pair_leb (pie_cache_key left, pie_crate_name left) (pie_cache_key right, pie_crate_name right).

(** The loop state of [build_pack]: [index_entries], [next_offset],
    [previous_key]. *)
Record BuildState := {
  bs_index : list PackIndexEntry;
  bs_next_offset : Z;
  bs_previous : option string;
}.
Definition build_step (st : BuildState) (entry : PackInputEntry) : res BuildState :=
  validate_entry_fields (pie_cache_key entry) (pie_crate_name entry) (pie_meta_digest entry);;
  (if bool_decide (bs_previous st = Some (pie_cache_key entry)) then Err DuplicateKey else Ok tt);;
  (if String.eqb (pie_payload entry) "" then Err EmptyPayload else Ok tt);;
  let length := slen (pie_payload entry) in
  let item := {| pix_cache_key := pie_cache_key entry; pix_crate_name := pie_crate_name entry;
                 pix_meta_digest := pie_meta_digest entry;
                 pix_offset := bs_next_offset st; pix_length := length |} in
  next_offset ← with_context (checked_add u64_max (bs_next_offset st) length) LengthOverflow;
  Ok {| bs_index := (bs_index st ++ [item])%list; bs_next_offset := next_offset;
        bs_previous := Some (pie_cache_key entry) |}.

(** [build_pack] *)
Definition build_pack (prefix : string) (entries : list PackInputEntry) (max_bytes : Z)
    : res BuiltPack :=
  validate_pack_cap max_bytes;;
  (if bool_decide (entries = []) then Err EmptyPack else Ok tt);;
  (if MAX_PACK_ENTRIES <? Z.of_nat (length entries) then Err TooManyEntries else Ok tt);;
  let entries := sort_by input_leb entries in
  st ← try_fold build_step {| bs_index := []; bs_next_offset := 0; bs_previous := None |} entries;
  let index := {| pi_version := PACK_VERSION; pi_key_schema := CACHE_KEY_VERSION;
                  pi_entries := bs_index st |} in
  let index_json := to_vec index in
  (if MAX_PACK_INDEX_BYTES <? slen index_json then Err IndexTooLarge else Ok tt);;
  payload_len ← with_context (usize_try_from (bs_next_offset st)) LengthOverflow;
  total_len ← with_context
      (len ← checked_add usize_max PACK_HEADER_BYTES (slen index_json);
       checked_add usize_max len payload_len) LengthOverflow;
  (if max_bytes <? total_len then Err PackTooLarge else Ok tt);;
  let bytes := PACK_MAGIC ++ to_le_bytes 8 (slen index_json) ++ index_json
                 ++ concat_str (map pie_payload entries) in
  let digest := blake3_hex bytes in
  object_key ← pack_object_key prefix digest;
  Ok {| bp_bytes := bytes; bp_digest := digest; bp_object_key := object_key; bp_index := index |}.

(** The loop state of [validate_pack_index]: [ranges], [expected_offset],
    [previous_key]. *)
Record IndexState := {
  is_ranges : list (Z * Z);
  is_expected : Z;
  is_previous : option string;
}.
Definition index_step (payload_len : Z) (st : IndexState) (entry : PackIndexEntry)
    : res IndexState :=
  validate_entry_fields (pix_cache_key entry) (pix_crate_name entry) (pix_meta_digest entry);;
  (if match is_previous st with
      | Some previous => String.leb (pix_cache_key entry) previous
      | None => false
      end then Err NotCanonical else Ok tt);;
  match checked_nonempty_contiguous_region (is_expected st) (pix_offset entry)
          (pix_length entry) payload_len with
  | Some (next_offset, (start, end_)) =>
      Ok {| is_ranges := (is_ranges st ++ [(start, end_)])%list; is_expected := next_offset;
            is_previous := Some (pix_cache_key entry) |}
  | None => Err BadFrame
  end.

(** [validate_pack_index] *)
Definition validate_pack_index (index : PackIndex) (payload_len : Z) : res (list (Z * Z)) :=
  (if negb (pi_version index =? PACK_VERSION) then Err BadVersion else Ok tt);;
  (if negb (pi_key_schema index =? CACHE_KEY_VERSION) then Err BadKeySchema else Ok tt);;
  (if bool_decide (pi_entries index = [])
      || (MAX_PACK_ENTRIES <? Z.of_nat (length (pi_entries index)))
   then Err BadEntryCount else Ok tt);;
  st ← try_fold (index_step payload_len)
         {| is_ranges := []; is_expected := 0; is_previous := None |} (pi_entries index);
  (if negb (is_expected st =? payload_len) then Err FrameTotal else Ok tt);;
  Ok (is_ranges st).

(** [index.entries.iter().zip(ranges).map(..)] of [decode_pack]. *)
Fixpoint decode_entries (payload : string) (entries : list PackIndexEntry)
    (ranges : list (Z * Z)) : res (list DecodedPackEntry) :=
  match entries, ranges with
  | entry :: entries, (start, end_) :: ranges =>
      bytes ← with_context (slice payload start end_) SlicePanic;
      rest ← decode_entries payload entries ranges;
      Ok ({| dpe_descriptor := entry; dpe_payload := bytes |} :: rest)
  | _, _ => Ok []
  end.

(** [decode_pack] *)
Definition decode_pack (bytes expected_digest : string) (max_bytes : Z) : res DecodedPack :=
  validate_pack_cap max_bytes;;
  validate_digest expected_digest;;
  (if max_bytes <? slen bytes then Err PackTooLarge else Ok tt);;
  (if negb (String.eqb (blake3_hex bytes) expected_digest) then Err DigestMismatch else Ok tt);;
  (if slen bytes <? PACK_HEADER_BYTES then Err BadMagic else Ok tt);;
  magic ← with_context (slice bytes 0 (slen PACK_MAGIC)) SlicePanic;
  (if negb (String.eqb magic PACK_MAGIC) then Err BadMagic else Ok tt);;
  header ← with_context (slice bytes (slen PACK_MAGIC) PACK_HEADER_BYTES) SlicePanic;
  index_len ← with_context (usize_try_from (from_le_bytes header)) LengthOverflow;
  (if MAX_PACK_INDEX_BYTES <? index_len then Err IndexTooLarge else Ok tt);;
  payload_start ← with_context (checked_add usize_max PACK_HEADER_BYTES index_len) LengthOverflow;
  (if slen bytes <? payload_start then Err IndexBeyondObject else Ok tt);;
  index_json ← with_context (slice bytes PACK_HEADER_BYTES payload_start) SlicePanic;
  index ← with_context (from_slice index_json) BadIndexJson;
  payload ← with_context (slice bytes payload_start (slen bytes)) SlicePanic;
  ranges ← validate_pack_index index (slen payload);
  entries ← decode_entries payload (pi_entries index) ranges;
  Ok {| dp_index := index; dp_entries := entries |}.

(** [decode_catalog_pack] *)
Definition same_binding (decoded : DecodedPackEntry) (catalog : CatalogEntry) : bool :=
  String.eqb (pix_cache_key (dpe_descriptor decoded)) (ce_cache_key catalog)
  && String.eqb (pix_crate_name (dpe_descriptor decoded)) (ce_crate_name catalog)
  && String.eqb (pix_meta_digest (dpe_descriptor decoded)) (ce_meta_digest catalog).
Definition decode_catalog_pack (bytes : string) (pack : CatalogPackRef) (max_bytes : Z)
    : res DecodedPack :=
  (if negb (slen bytes =? cp_pack_bytes pack) then Err SizeMismatch else Ok tt);;
  decoded ← decode_pack bytes (cp_digest pack) max_bytes;
  (if negb (Nat.eqb (length (dp_entries decoded)) (length (cp_entries pack)))
   then Err CountMismatch else Ok tt);;
  (if forallb (fun p => same_binding p.1 p.2) (zip (dp_entries decoded) (cp_entries pack))
   then Ok tt else Err BindingMismatch);;
  Ok decoded.

End Packs.

(** ** Catalogs *)

Section Catalogs.
Context `{Usize}.
Context (blake3_hex : string -> string).
Context `{!JsonCodec PackCatalog}.

Definition entry_leb (left right : CatalogEntry) : bool :=
  pair_leb (ce_cache_key left, ce_crate_name left) (ce_cache_key right, ce_crate_name right).
Definition pack_leb (left right : CatalogPackRef) : bool :=
  String.leb (cp_digest left) (cp_digest right).

(** The loop state of [validate_catalog]: [cache_keys]; [pack_digests] and
    [total_entries] are only touched by the pack loop. *)
Record CatState := {
  cs_digests : gset string;
  cs_keys : gset string;
  cs_total : Z;
}.
Definition catalog_entry_step (keys : gset string) (entry : CatalogEntry)
    : res (gset string) :=
  validate_entry entry;;
  if decide (ce_cache_key entry ∈ keys) then Err DuplicateKey
  else Ok ({[ce_cache_key entry]} ∪ keys).
Definition catalog_pack_step (st : CatState) (pack : CatalogPackRef) : res CatState :=
  validate_digest (cp_digest pack);;
  (if decide (cp_digest pack ∈ cs_digests st) then Err DuplicatePack else Ok tt);;
  (if (cp_pack_bytes pack =? 0) || (DEFAULT_MAX_PACK_BYTES <? cp_pack_bytes pack)
   then Err BadPackSize else Ok tt);;
  (if bool_decide (cp_entries pack = [])
      || (MAX_PACK_ENTRIES <? Z.of_nat (length (cp_entries pack)))
   then Err BadEntryCount else Ok tt);;
  keys ← try_fold catalog_entry_step (cs_keys st) (cp_entries pack);
  total ← with_context
      (checked_add usize_max (cs_total st) (Z.of_nat (length (cp_entries pack)))) LengthOverflow;
  Ok {| cs_digests := {[cp_digest pack]} ∪ cs_digests st; cs_keys := keys; cs_total := total |}.

(** [validate_catalog] *)
Definition validate_catalog (catalog : PackCatalog) : res unit :=
  (if negb (pc_version catalog =? CATALOG_VERSION) then Err BadVersion else Ok tt);;
  (if negb (pc_key_schema catalog =? CACHE_KEY_VERSION) then Err BadKeySchema else Ok tt);;
  validate_selector_text (pc_manifest_key catalog);;
  validate_selector_text (pc_namespace catalog);;
  (if pc_expires_at_ms catalog <=? pc_created_at_ms catalog then Err BadExpiry else Ok tt);;
  (if adjacent_dup (pc_shard_hashes catalog) then Err DuplicateShard else Ok tt);;
  try_fold (fun _ shard => validate_digest shard) tt (pc_shard_hashes catalog);;
  expected_selector ← selector_hash blake3_hex (pc_manifest_key catalog)
      (pc_namespace catalog) (pc_shard_hashes catalog) (pc_key_schema catalog);
  (if negb (String.eqb (pc_selector_hash catalog) expected_selector)
   then Err SelectorMismatch else Ok tt);;
  (if MAX_CATALOG_PACKS <? Z.of_nat (length (pc_packs catalog)) then Err TooManyPacks else Ok tt);;
  st ← try_fold catalog_pack_step {| cs_digests := ∅; cs_keys := ∅; cs_total := 0 |}
         (pc_packs catalog);
  try_fold catalog_entry_step (cs_keys st) (pc_fallback_entries catalog);;
  total ← with_context
      (checked_add usize_max (cs_total st) (Z.of_nat (length (pc_fallback_entries catalog))))
      LengthOverflow;
  if MAX_PACK_ENTRIES <? total then Err TooManyEntries else Ok tt.

(** The sorting half of [canonicalize_catalog]. *)
Definition sort_pack (pack : CatalogPackRef) : CatalogPackRef :=
  {| cp_digest := cp_digest pack; cp_pack_bytes := cp_pack_bytes pack;
     cp_entries := sort_by entry_leb (cp_entries pack) |}.
Definition sort_catalog (catalog : PackCatalog) : PackCatalog :=
  {| pc_version := pc_version catalog; pc_key_schema := pc_key_schema catalog;
     pc_manifest_key := pc_manifest_key catalog; pc_namespace := pc_namespace catalog;
     pc_selector_hash := pc_selector_hash catalog;
     pc_shard_hashes := sort_by String.leb (pc_shard_hashes catalog);
     pc_created_at_ms := pc_created_at_ms catalog; pc_expires_at_ms := pc_expires_at_ms catalog;
     pc_packs := sort_by pack_leb (map sort_pack (pc_packs catalog));
     pc_fallback_entries := sort_by entry_leb (pc_fallback_entries catalog) |}.

(** [canonicalize_catalog] *)
Definition canonicalize_catalog (catalog : PackCatalog) : res PackCatalog :=
  let catalog := sort_catalog catalog in
  validate_catalog catalog;;
  Ok catalog.

(** [encode_catalog] *)
Definition encode_catalog (prefix : string) (catalog : PackCatalog) : res EncodedCatalog :=
  catalog ← canonicalize_catalog catalog;
  let bytes := to_vec catalog in
  (if MAX_CATALOG_BYTES <? slen bytes then Err CatalogTooLarge else Ok tt);;
  let digest := blake3_hex bytes in
  object_key ← catalog_object_key prefix (pc_selector_hash catalog) (pc_created_at_ms catalog) digest;
  Ok {| ec_bytes := bytes; ec_digest := digest; ec_object_key := object_key;
        ec_catalog := catalog |}.

(** [decode_catalog] *)
Definition decode_catalog (bytes expected_digest : string) : res PackCatalog :=
  validate_digest expected_digest;;
  (if MAX_CATALOG_BYTES <? slen bytes then Err CatalogTooLarge else Ok tt);;
  (if negb (String.eqb (blake3_hex bytes) expected_digest) then Err DigestMismatch else Ok tt);;
  catalog ← with_context (from_slice bytes) BadCatalogJson;
  canonical ← canonicalize_catalog catalog;
  (if negb (bool_decide (canonical = catalog)) then Err CatalogNotCanonical else Ok tt);;
  Ok catalog.

(** [decode_catalog_for_selector] *)
Definition decode_catalog_for_selector (bytes expected_digest expected_selector : string)
    (now_ms : Z) : res PackCatalog :=
  catalog ← decode_catalog bytes expected_digest;
  (if negb (String.eqb (pc_selector_hash catalog) expected_selector)
   then Err SelectorMismatch else Ok tt);;
  (if pc_expires_at_ms catalog <=? now_ms then Err Expired else Ok tt);;
  Ok catalog.

End Catalogs.
