(* ===== verification/PackProofs.v ===== *)
(** * Prefetch packs and catalogs: theorems

    Round trip and panic freedom of the pack codec, canonical form and key
    uniqueness of catalogs, object-key round trip, and what identifies a
    selector. *)

From S2P Require Import Prelude Strings Codec Regions Format Pack.
#[local] Open Scope string_scope.
#[local] Open Scope Z_scope.

#[local] Arguments validate_entry_fields : simpl never.
#[local] Arguments validate_digest : simpl never.
#[local] Arguments slen : simpl never.
#[local] Arguments checked_add : simpl never.
#[local] Arguments checked_file_region : simpl never.
#[local] Arguments slice : simpl never.
#[local] Arguments usize_try_from : simpl never.
#[local] Arguments Z.add : simpl never.

Lemma to_from_le_bytes s : to_le_bytes (String.length s) (from_le_bytes s) = s.
Proof.
  induction s as [|c s IH]; [done|]. cbn [String.length to_le_bytes from_le_bytes].
  pose proof (byte_val_bound c).
  rewrite (Z.mul_comm 256), Z.mod_add, Z.mod_small, Z.div_add, Z.div_small, Z.add_0_l, IH by lia.
  f_equal. apply byte_val_inj. rewrite byte_val_of_N; lia.
Qed.
Lemma from_le_bytes_bound s : 0 <= from_le_bytes s < 256 ^ slen s.
Proof.
  induction s as [|c s IH]; cbn [from_le_bytes]; [unfold slen; simpl; lia|].
  pose proof (byte_val_bound c).
  replace (slen (String c s)) with (Z.succ (slen s)) by (unfold slen; cbn [String.length]; lia).
  rewrite Z.pow_succ_r by apply slen_nonneg. lia.
Qed.

(** ** The pack codec *)

Section Frames.
Context `{Usize}.

(** The index entries and ranges of a run of payloads laid out from [off]. *)
Definition index_item (off : Z) (e : PackInputEntry) : PackIndexEntry :=
  {| pix_cache_key := pie_cache_key e; pix_crate_name := pie_crate_name e;
     pix_meta_digest := pie_meta_digest e; pix_offset := off;
     pix_length := slen (pie_payload e) |}.
Fixpoint index_from (off : Z) (es : list PackInputEntry) : list PackIndexEntry :=
  match es with
  | [] => []
  | e :: es => index_item off e :: index_from (off + slen (pie_payload e)) es
  end.
Fixpoint ranges_from (off : Z) (es : list PackInputEntry) : list (Z * Z) :=
  match es with
  | [] => []
  | e :: es => (off, off + slen (pie_payload e)) :: ranges_from (off + slen (pie_payload e)) es
  end.
Definition payloads (es : list PackInputEntry) : string := concat_str (map pie_payload es).

Definition fields_ok (key crate meta : string) : Prop :=
  validate_entry_fields key crate meta = Ok tt.
Definition input_ok (e : PackInputEntry) : Prop :=
  fields_ok (pie_cache_key e) (pie_crate_name e) (pie_meta_digest e) /\ 0 < slen (pie_payload e).

(** [es] can follow [prev]: no key equals the one before it. *)
Fixpoint keys_differ (prev : option string) (es : list PackInputEntry) : Prop :=
  match es with
  | [] => True
  | e :: es => prev <> Some (pie_cache_key e) /\ keys_differ (Some (pie_cache_key e)) es
  end.

Lemma payloads_cons e es : payloads (e :: es) = pie_payload e ++ payloads es.
Proof. done. Qed.

Lemma build_fold st es st' :
  try_fold build_step st es = Ok st' ->
  bs_index st' = (bs_index st ++ index_from (bs_next_offset st) es)%list /\
  bs_next_offset st' = bs_next_offset st + slen (payloads es) /\
  Forall input_ok es /\ keys_differ (bs_previous st) es /\
  (bs_next_offset st <= u64_max -> bs_next_offset st' <= u64_max).
Proof.
  revert st. induction es as [|e es IH]; intros st; cbn [try_fold index_from keys_differ].
  - intros [= <-]. rewrite app_nil_r. change (slen (payloads [])) with 0.
    split_and!; auto; lia.
  - intros Hrun. apply bind_Ok in Hrun as (st1 & Hstep & Hrun).
    unfold build_step in Hstep. inv_result.
    case_bool_decide; [done|]. destruct (String.eqb_spec (pie_payload e) ""); [done|].
    inv_result. rename select (checked_add _ _ _ = _) into Hadd.
    apply checked_add_Some in Hadd as [-> Hle].
    apply IH in Hrun as (Hi & Ho & Hok & Hk & Hb). cbn in Hi, Ho, Hk, Hb.
    rewrite payloads_cons, slen_app. split_and!; try done.
    + by rewrite Hi, <- app_assoc.
    + lia.
    + constructor; [|done]. split; [done|]. pose proof (slen_nonneg (pie_payload e)).
      destruct (Z.eq_dec (slen (pie_payload e)) 0) as [E%slen_0|]; [done|lia].
    + intros _. auto.
Qed.

(** The key of [e] may come after [prev] in the canonical order. *)
Definition follows (prev : option string) (e : PackInputEntry) : Prop :=
  match prev with Some p => String.leb p (pie_cache_key e) = true | None => True end.

Lemma index_step_ok P st e :
  input_ok e -> is_previous st <> Some (pie_cache_key e) -> follows (is_previous st) e ->
  0 <= is_expected st -> is_expected st + slen (pie_payload e) <= P -> P <= usize_max ->
  index_step P st (index_item (is_expected st) e) =
  Ok {| is_ranges := (is_ranges st ++ [(is_expected st, is_expected st + slen (pie_payload e))])%list;
        is_expected := is_expected st + slen (pie_payload e);
        is_previous := Some (pie_cache_key e) |}.
Proof.
  intros [Hf Hlen] Hne Hfol H0 HP HU. pose proof usize_max_bound.
  unfold index_step. cbn. unfold fields_ok in Hf. rewrite Hf. cbn.
  assert (match is_previous st with Some previous => String.leb (pie_cache_key e) previous
          | None => false end = false) as ->.
  { destruct (is_previous st) as [p|]; [|done].
    destruct (String.leb (pie_cache_key e) p) eqn:E; [|done].
    exfalso. apply Hne. f_equal. by apply string_leb_antisym. }
  cbn. unfold checked_nonempty_contiguous_region.
  rewrite Z.eqb_refl. destruct (Z.eqb_spec (slen (pie_payload e)) 0); [lia|]. cbn.
  rewrite (proj2 (checked_add_Some u64_max (is_expected st) (slen (pie_payload e)) _))
    by (split; [done|lia]). cbn.
  assert (checked_file_region P (is_expected st) (slen (pie_payload e)) 0
          = Some (is_expected st, is_expected st + slen (pie_payload e))) as ->
    by (apply checked_file_region_Some; unfold in_range; lia).
  done.
Qed.

Lemma index_fold P es st :
  Forall input_ok es -> Sorted (fun x y => input_leb x y = true) es ->
  keys_differ (is_previous st) es ->
  (forall e, head es = Some e -> follows (is_previous st) e) ->
  0 <= is_expected st -> is_expected st + slen (payloads es) <= P -> P <= usize_max ->
  exists st', try_fold (index_step P) st (index_from (is_expected st) es) = Ok st' /\
    is_ranges st' = (is_ranges st ++ ranges_from (is_expected st) es)%list /\
    is_expected st' = is_expected st + slen (payloads es).
Proof.
  intros Hok Hs. revert st. induction Hs as [|e es Hs IH Hhd]; intros st Hk Hp H0 HP HU.
  - exists st. cbn [index_from ranges_from try_fold]. rewrite app_nil_r.
    change (slen (payloads [])) with 0. split_and!; [done..|lia].
  - apply Forall_cons in Hok as [He Hok]. destruct Hk as [Hne Hk].
    rewrite payloads_cons, slen_app in HP |- *. pose proof (slen_nonneg (payloads es)).
    cbn [index_from try_fold ranges_from]. rewrite index_step_ok; auto; [|lia]. cbn [mbind result_bind].
    edestruct (IH Hok) as (st' & Hrun & Hr & He'); cycle -1.
    + exists st'. split; [exact Hrun|]. cbn in Hr, He'. rewrite Hr, He', <- app_assoc.
      split; [done|lia].
    + done.
    + cbn. destruct Hhd as [|e' es Hle]; intros ? [= <-]. by apply pair_leb_fst in Hle.
    + cbn. destruct He. lia.
    + cbn. lia.
    + done.
Qed.

Lemma decode_entries_from pre es post :
  decode_entries (pre ++ payloads es ++ post)
    (index_from (slen pre) es) (ranges_from (slen pre) es)
  = Ok (zip_with (fun d e => {| dpe_descriptor := d; dpe_payload := pie_payload e |})
          (index_from (slen pre) es) es).
Proof.
  revert pre. induction es as [|e es IH]; intros pre; [done|].
  cbn [index_from ranges_from decode_entries].
  rewrite payloads_cons, <- string_app_assoc.
  replace (slice (pre ++ pie_payload e ++ payloads es ++ post) (slen pre)
             (slen pre + slen (pie_payload e))) with (Some (pie_payload e)).
  - cbn. specialize (IH (pre ++ pie_payload e)). rewrite slen_app, <- string_app_assoc in IH.
    rewrite IH. done.
  - symmetry. rewrite <- (Z.add_0_r (slen pre)) at 1.
    rewrite slice_shift by lia. apply slice_prefix.
Qed.

End Frames.

(** Successful guards of the form [if b then Err e else Ok tt]. *)
Lemma guard_Ok {E} (b : bool) (e : E) u : (if b then Err e else Ok tt) = Ok u <-> b = false.
Proof. destruct b, u; split; congruence. Qed.
Ltac inv_guards :=
  inv_result;
  repeat match goal with
  | H : (if _ then Err _ else Ok tt) = Ok _ |- _ => apply guard_Ok in H
  end; inv_result; bool_to_prop.

Lemma bind_guard {E A} (b : bool) (e : E) (k : unit -> result E A) :
  b = false -> ((if b then Err e else Ok tt) ≫= k) = k tt.
Proof. by intros ->. Qed.
Lemma bind_context {E A B} (o : option A) (e : E) a (k : A -> result E B) :
  o = Some a -> (with_context o e ≫= k) = k a.
Proof. by intros ->. Qed.
Lemma bind_ok {E A B} (m : result E A) a (k : A -> result E B) : m = Ok a -> (m ≫= k) = k a.
Proof. by intros ->. Qed.

(** What the frame parser reads back from a well-formed frame. *)
Lemma slice_at pre mid post :
  slice (pre ++ mid ++ post) (slen pre) (slen pre + slen mid) = Some mid.
Proof.
  rewrite <- (Z.add_0_r (slen pre)) at 1. rewrite slice_shift by lia. apply slice_prefix.
Qed.

Lemma slen_header json : slen (PACK_MAGIC ++ to_le_bytes 8 (slen json)) = PACK_HEADER_BYTES.
Proof. rewrite slen_app, slen_to_le_bytes. done. Qed.

Definition as_input (d : DecodedPackEntry) : PackInputEntry :=
  {| pie_cache_key := pix_cache_key (dpe_descriptor d);
     pie_crate_name := pix_crate_name (dpe_descriptor d);
     pie_meta_digest := pix_meta_digest (dpe_descriptor d);
     pie_payload := dpe_payload d |}.

Lemma as_input_from off es :
  map as_input (zip_with (fun d e => {| dpe_descriptor := d; dpe_payload := pie_payload e |})
                  (index_from off es) es) = es.
Proof.
  revert off. induction es as [|e es IH]; intros off; cbn; [done|].
  f_equal; [by destruct e|apply IH].
Qed.

Lemma input_leb_total x y : input_leb x y = true \/ input_leb y x = true.
Proof. apply pair_leb_total. Qed.
Lemma length_index_from off es : length (index_from off es) = length es.
Proof. revert off. induction es; intros off; cbn; [done|]. by rewrite IHes. Qed.

(** Validated names are ASCII, so an index of validated entries is a Rust value. *)
Lemma fields_utf8 key crate meta :
  fields_ok key crate meta -> valid_utf8 key && valid_utf8 crate && valid_utf8 meta = true.
Proof.
  unfold fields_ok, validate_entry_fields, validate_digest, is_valid_cache_key,
    is_valid_crate_name. intros Hf. inv_result. bool_to_prop. rewrite !andb_true_iff. split_and!;
  (eapply ascii_utf8; [|eassumption]); intros c;
  unfold is_ascii_alphanumeric, is_ascii_digit, is_ascii_lowercase, is_ascii_uppercase, between;
  rewrite ?orb_true_iff, ?Ascii.eqb_eq; intros Hc; destruct_or!; subst; try lia;
    vm_compute; done.
Qed.
Lemma index_from_typed off es :
  Forall input_ok es -> 0 <= off -> off + slen (payloads es) <= u64_max ->
  well_typed (index_from off es) = true.
Proof.
  revert off. induction es as [|e es IH]; intros off Hes H0 Hle; [done|].
  apply Forall_cons in Hes as [[Hf Hp] Hes].
  rewrite payloads_cons, slen_app in Hle. pose proof (slen_nonneg (payloads es)).
  unfold well_typed, rust_vec. cbn [index_from forallb]. apply andb_true_iff. split.
  - unfold well_typed, rust_index_entry, index_item, u64_ok. cbn -[slen valid_utf8].
    rewrite (fields_utf8 _ _ _ Hf). lia.
  - apply IH; [done|lia..].
Qed.

Section RoundTrip.
Context `{Usize} (blake3_hex : string -> string) `{!JsonCodec PackIndex}.

(** Decoding a frame whose parts satisfy the decoder's checks. *)
Lemma decode_frame index payload ranges entries max_bytes :
  let bytes := PACK_MAGIC ++ to_le_bytes 8 (slen (to_vec index)) ++ to_vec index ++ payload in
  well_typed index = true -> validate_pack_cap max_bytes = Ok tt ->
  validate_digest (blake3_hex bytes) = Ok tt ->
  slen bytes <= max_bytes -> slen (to_vec index) <= MAX_PACK_INDEX_BYTES ->
  validate_pack_index index (slen payload) = Ok ranges ->
  decode_entries payload (pi_entries index) ranges = Ok entries ->
  decode_pack blake3_hex bytes (blake3_hex bytes) max_bytes
  = Ok {| dp_index := index; dp_entries := entries |}.
Proof.
  set (json := to_vec index). intros bytes Hty Hcap Hdig Hmax Hjson Hidx Hent.
  pose proof (slen_nonneg json). pose proof (slen_nonneg payload).
  pose proof usize_max_bound as Hu. unfold u32_max in Hu.
  assert (MAX_PACK_INDEX_BYTES = 16777216) as HmaxJ by done.
  assert (slen bytes = PACK_HEADER_BYTES + slen json + slen payload) as Hlen.
  { subst bytes. rewrite string_app_assoc, slen_app, slen_header, slen_app. lia. }
  assert (PACK_HEADER_BYTES = 16) as Hhdr by done.
  unfold decode_pack. rewrite (bind_ok _ _ _ Hcap), (bind_ok _ _ _ Hdig).
  rewrite bind_guard by lia.
  rewrite bind_guard by (rewrite String.eqb_refl; done).
  rewrite bind_guard by lia.
  rewrite (bind_context _ _ PACK_MAGIC) by apply slice_prefix.
  rewrite bind_guard by done.
  rewrite (bind_context _ _ (to_le_bytes 8 (slen json))).
  2:{ etrans; [|apply (slice_at PACK_MAGIC _ (json ++ payload))].
      by rewrite slen_to_le_bytes. }
  rewrite from_to_le_bytes by (simpl; lia).
  rewrite (bind_context _ _ (slen json)) by (apply usize_try_from_Some; lia).
  rewrite bind_guard by lia.
  rewrite (bind_context _ _ (PACK_HEADER_BYTES + slen json)) by (apply checked_add_Some; lia).
  rewrite bind_guard by lia.
  rewrite (bind_context _ _ json).
  2:{ subst bytes. rewrite string_app_assoc, <- (slen_header json). apply slice_at. }
  rewrite (bind_context _ _ index) by (by apply from_slice_to_vec).
  rewrite (bind_context _ _ payload).
  2:{ subst bytes. rewrite Hlen, !string_app_assoc, <- string_app_assoc.
      rewrite <- (slen_header json), <- slen_app.
      rewrite <- (string_app_nil_r payload) at 1. rewrite !string_app_assoc, <- string_app_assoc.
      apply slice_at. }
  rewrite (bind_ok _ _ _ Hidx), (bind_ok _ _ _ Hent). done.
Qed.

(** C18. Round trip: whatever [build_pack] accepts, [decode_pack] reads back
    under the digest and cap it was built with, with the same index, and the
    decoded entries are exactly the input entries in canonical order, payload
    bytes included. *)
Theorem pack_round_trip prefix entries max_bytes p :
  build_pack blake3_hex prefix entries max_bytes = Ok p ->
  exists d, decode_pack blake3_hex (bp_bytes p) (bp_digest p) max_bytes = Ok d /\
    dp_index d = bp_index p /\ map as_input (dp_entries d) = sort_by input_leb entries.
Proof.
  unfold build_pack. intros Hb. inv_guards.
  match goal with Hf : try_fold build_step _ _ = Ok ?s |- _ =>
    rename Hf into Hfold; rename s into bst end.
  cbn [bp_bytes bp_index bp_digest].
  set (index := {| pi_version := PACK_VERSION; pi_key_schema := CACHE_KEY_VERSION;
                   pi_entries := bs_index bst |}) in *.
  apply build_fold in Hfold as (Hi & Ho & Hok & Hk & Hb64). cbn in Hi, Ho, Hk, Hb64.
  set (es := sort_by input_leb entries) in *.
  rename select (_ ≫= _ = Some _) into Htot.
  rename select (usize_try_from _ = Some _) into Hpl.
  rename select (pack_object_key _ _ = Ok _) into Hkey.
  apply usize_try_from_Some in Hpl as [-> Hpl].
  apply bind_Some in Htot as (len & Hl1%checked_add_Some & Hl2%checked_add_Some).
  destruct Hl1 as [-> Hl1], Hl2 as [-> Hl2].
  unfold pack_object_key in Hkey. inv_result.
  fold (payloads es) in *. rewrite Ho in *. rewrite Z.add_0_l in *.
  edestruct (index_fold (slen (payloads es)) es
    {| is_ranges := []; is_expected := 0; is_previous := None |})
    as (st & Hrun & Hr & He); [done|apply sort_by_sorted, input_leb_total|done|done|simpl; lia..|].
  cbn in Hrun, Hr, He.
  exists {| dp_index := index; dp_entries :=
    zip_with (fun d e => {| dpe_descriptor := d; dpe_payload := pie_payload e |})
      (index_from 0 es) es |}.
  split; [|split; [done|apply as_input_from]].
  apply decode_frame with (ranges := ranges_from 0 es); try done.
    + unfold well_typed, rust_index. cbn [index pi_version pi_key_schema pi_entries]. rewrite Hi.
      apply index_from_typed; [done|lia|]. apply Hb64. done.
    + rewrite string_app_assoc, slen_app, slen_header, slen_app. lia.
    + unfold validate_pack_index. cbn [index pi_version pi_key_schema pi_entries]. rewrite Hi.
      rewrite bind_guard by done. rewrite bind_guard by done.
      rewrite bind_guard.
      2:{ rewrite length_index_from. unfold es. rewrite length_sort_by.
          apply orb_false_iff. split; [|lia]. apply bool_decide_eq_false_2.
          intros E%(f_equal length). rewrite length_index_from, length_sort_by in E.
          by destruct entries. }
      rewrite (bind_ok _ _ _ Hrun). rewrite bind_guard by (rewrite He; lia).
      by rewrite Hr.
    + cbn [index pi_entries]. rewrite Hi, <- (string_app_nil_r (payloads es)).
      apply (decode_entries_from "" es "").
Qed.
End RoundTrip.

(** ** Decoding arbitrary bytes *)

Lemma validate_entry_fields_no_panic a b c : validate_entry_fields a b c <> Err SlicePanic.
Proof.
  unfold validate_entry_fields, validate_digest.
  repeat (apply bind_no_err; [by apply ensure_no_err|intros _ _]). by apply ensure_no_err.
Qed.

(** One step of decoding that cannot panic: a guard, or a slice in range. *)
Ltac step_ok Hs :=
  apply bind_no_err; [first [by apply guard_no_err | by apply ensure_no_err]|intros [] Hs];
  first [apply guard_Ok in Hs | apply ensure_Ok in Hs].
Ltac step_slice x Hs :=
  apply bind_no_err;
    [let E := fresh in
     match goal with |- with_context (slice ?s ?a ?b) _ <> _ =>
       destruct (slice_Some s a b) as [? E]; [lia..|rewrite E; done] end
    |intros x Hs; apply with_context_Ok in Hs].

Section Soundness.
Context `{Usize}.

(** The frames of [es] tile the payload from [off], without gap or overlap. *)
Fixpoint contiguous (off : Z) (es : list PackIndexEntry) : Prop :=
  match es with
  | [] => True
  | e :: es => pix_offset e = off /\ 0 < pix_length e /\ contiguous (off + pix_length e) es
  end.
Fixpoint total_length (es : list PackIndexEntry) : Z :=
  match es with [] => 0 | e :: es => pix_length e + total_length es end.
Definition frame (e : PackIndexEntry) : Z * Z := (pix_offset e, pix_offset e + pix_length e).
Definition index_ok (e : PackIndexEntry) : Prop :=
  fields_ok (pix_cache_key e) (pix_crate_name e) (pix_meta_digest e).
Fixpoint keys_increase (prev : option string) (es : list PackIndexEntry) : Prop :=
  match es with
  | [] => True
  | e :: es => match prev with Some p => String.leb (pix_cache_key e) p = false | None => True end
               /\ keys_increase (Some (pix_cache_key e)) es
  end.

(** Offsets and lengths of an index that came from JSON are [u64]s. *)
Definition u64_entry (e : PackIndexEntry) : Prop := 0 <= pix_offset e /\ 0 <= pix_length e.

Lemma from_slice_u64 `{!JsonCodec PackIndex} s index :
  from_slice s = Some index -> Forall u64_entry (pi_entries index).
Proof.
  intros Hs%from_slice_typed. unfold well_typed, rust_index in Hs. bool_to_prop.
  unfold well_typed, rust_vec in *. apply Forall_forall. intros e He%list_elem_of_In.
  rename select (forallb _ _ = true) into Hall.
  eapply forallb_forall in Hall; [|exact He].
  unfold well_typed, rust_index_entry, u64_ok in Hall. bool_to_prop. split; lia.
Qed.

Lemma index_fold_inv P es st st' :
  in_range usize_max P -> Forall u64_entry es ->
  try_fold (index_step P) st es = Ok st' ->
  Forall index_ok es /\ keys_increase (is_previous st) es /\ contiguous (is_expected st) es /\
  is_ranges st' = (is_ranges st ++ map frame es)%list /\
  is_expected st' = is_expected st + total_length es.
Proof.
  intros HP Hu. revert st. induction Hu as [|e es [Ho Hl] Hu IH]; intros st; cbn [try_fold].
  - intros [= <-]. rewrite app_nil_r. cbn. split_and!; auto. lia.
  - intros Hrun. apply bind_Ok in Hrun as (st1 & Hstep & Hrun).
    unfold index_step in Hstep. inv_guards.
    destruct (checked_nonempty_contiguous_region _ _ _ _) as [[nx [a b]]|] eqn:Hreg; [|done].
    inv_result. apply IH in Hrun as (I1 & I2 & I3 & I4 & I5). cbn in I2, I3, I4, I5.
    unfold checked_nonempty_contiguous_region in Hreg.
    destruct (Z.eqb_spec (pix_offset e) (is_expected st)) as [Eo|], (Z.eqb_spec (pix_length e) 0);
      simpl in Hreg; try done.
    apply bind_Some in Hreg as (nx' & [-> _]%checked_add_Some & Hreg).
    apply bind_Some in Hreg as ([a' b'] & Hreg & [= <- <- <-]).
    apply checked_file_region_Some in Hreg as (-> & -> & Hb & _); [|done..].
    rewrite I4, I5, <- app_assoc, <- Eo. cbn. unfold frame at 1.
    split_and!; auto; try lia.
    + destruct (is_previous st); done.
Qed.

Lemma decode_entries_cover pre rest es :
  contiguous (slen pre) es -> total_length es = slen rest ->
  exists ds, decode_entries (pre ++ rest) es (map frame es) = Ok ds /\
    concat_str (map dpe_payload ds) = rest /\ map dpe_descriptor ds = es.
Proof.
  revert pre rest. induction es as [|e es IH]; intros pre rest; cbn [contiguous total_length].
  - intros _ E. symmetry in E. apply slen_0 in E as ->. by exists [].
  - intros (Ho & Hl & Hc) Ht.
    assert (0 <= total_length es) as Hnn.
    { clear -Hc. revert Hc. generalize (slen pre + pix_length e).
      induction es as [|e' es IH]; intros off; simpl; [lia|]. intros (_ & ? & ?%IH). lia. }
    set (n := Z.to_nat (pix_length e)).
    assert (slen (stake n rest) = pix_length e) as Hn by (rewrite slen_stake; lia).
    edestruct (IH (pre ++ stake n rest) (sdrop n rest)) as (ds & Hds & Hcat & Hdesc).
    { rewrite slen_app, Hn. done. }
    { rewrite slen_sdrop. lia. }
    rewrite <- string_app_assoc, stake_sdrop in Hds.
    exists ({| dpe_descriptor := e; dpe_payload := stake n rest |} :: ds).
    cbn [map decode_entries]. unfold frame at 1.
    assert (slice (pre ++ rest) (pix_offset e) (pix_offset e + pix_length e)
            = Some (stake n rest)) as ->.
    { rewrite <- (stake_sdrop n rest) at 1. rewrite !Ho. rewrite <- Hn. apply slice_at. }
    cbn. rewrite Hds. cbn. rewrite Hcat, Hdesc, stake_sdrop. done.
Qed.

Lemma validate_pack_index_inv index P ranges :
  in_range usize_max P -> Forall u64_entry (pi_entries index) ->
  validate_pack_index index P = Ok ranges ->
  Forall index_ok (pi_entries index) /\ keys_increase None (pi_entries index) /\
  contiguous 0 (pi_entries index) /\ ranges = map frame (pi_entries index) /\
  total_length (pi_entries index) = P.
Proof.
  intros HP Hu Hv. unfold validate_pack_index in Hv. inv_guards.
  rename select (try_fold _ _ _ = Ok _) into Hf.
  apply index_fold_inv in Hf as (I1 & I2 & I3 & I4 & I5); [|done..].
  cbn in *. split_and!; auto. lia.
Qed.

Lemma validate_pack_index_no_panic index P : validate_pack_index index P <> Err SlicePanic.
Proof.
  unfold validate_pack_index. repeat (apply bind_no_err; [by apply guard_no_err|intros _ _]).
  apply bind_no_err.
  - apply try_fold_no_err. intros st e. unfold index_step.
    apply bind_no_err; [by apply validate_entry_fields_no_panic|intros _ _].
    apply bind_no_err; [by apply guard_no_err|intros _ _]. by repeat case_match.
  - intros st _. apply bind_no_err; [by apply guard_no_err|done].
Qed.

Context (blake3_hex : string -> string) `{!JsonCodec PackIndex}.

(** C35. Soundness of decoding untrusted bytes: an accepted pack has the
    expected digest and respects the cap, its bytes are exactly magic, index
    length, index JSON and the decoded payloads in order (every payload byte
    belongs to exactly one entry), the cache keys strictly increase, and every
    entry's key, crate name and digest passed validation. *)
Theorem decode_pack_sound bytes expected max_bytes d :
  slen bytes <= usize_max ->
  decode_pack blake3_hex bytes expected max_bytes = Ok d ->
  blake3_hex bytes = expected /\ slen bytes <= max_bytes <= DEFAULT_MAX_PACK_BYTES /\
  (exists json, from_slice json = Some (dp_index d) /\
     bytes = PACK_MAGIC ++ to_le_bytes 8 (slen json) ++ json
               ++ concat_str (map dpe_payload (dp_entries d))) /\
  map dpe_descriptor (dp_entries d) = pi_entries (dp_index d) /\
  keys_increase None (pi_entries (dp_index d)) /\ Forall index_ok (pi_entries (dp_index d)).
Proof.
  intros Hlen Hd. unfold decode_pack in Hd. inv_guards.
  rename select (slice bytes 0 _ = Some _) into S1.
  rename select (slice bytes _ PACK_HEADER_BYTES = Some _) into S2.
  rename select (slice bytes PACK_HEADER_BYTES _ = Some _) into S3.
  rename select (slice bytes _ (slen bytes) = Some _) into S4.
  rename select (usize_try_from _ = Some _) into Hil.
  rename select (checked_add _ _ _ = Some _) into Hps.
  rename select (validate_pack_index _ _ = Ok _) into Hv.
  rename select (decode_entries _ _ _ = Ok _) into He.
  rename select (from_slice _ = Some _) into Hj.
  rename select (validate_pack_cap _ = Ok _) into Hcap.
  match type of S2 with _ = Some ?x => rename x into header end.
  match type of S3 with _ = Some ?x => rename x into json end.
  match type of S4 with _ = Some ?x => rename x into payload end.
  apply usize_try_from_Some in Hil as [-> _]. apply checked_add_Some in Hps as [-> _].
  pose proof (slice_len _ _ _ _ S2) as L2. pose proof (slice_len _ _ _ _ S3) as L3.
  pose proof (slice_len _ _ _ _ S4) as L4.
  change (slen PACK_MAGIC) with 8 in *. change PACK_HEADER_BYTES with 16 in *.
  apply validate_pack_index_inv in Hv as (V1 & V2 & V3 & -> & V5);
    [|unfold in_range; split; [apply slen_nonneg|]|by eapply from_slice_u64].
  2:{ pose proof (from_le_bytes_bound header). lia. }
  edestruct (decode_entries_cover "" payload) as (ds & Hds & Hcat & Hdesc); [done..|].
  cbn [String.append] in Hds. rewrite Hds in He. injection He as <-. cbn [dp_index dp_entries].
  unfold validate_pack_cap in Hcap. apply guard_Ok in Hcap. bool_to_prop.
  split_and!; auto; try lia.
  exists json. split; [done|]. rewrite Hcat.
  assert (to_le_bytes 8 (slen json) = header) as ->.
  { rewrite L3. replace (16 + from_le_bytes header - 16) with (from_le_bytes header) by lia.
    replace 8%nat with (String.length header) by (unfold slen in L2; lia). apply to_from_le_bytes. }
  pose proof (slice_app _ _ _ _ _ _ S1 (slice_app _ _ _ _ _ _ S2
               (slice_app _ _ _ _ _ _ S3 S4))) as S.
  rewrite slice_full in S. congruence.
Qed.

(** Decoding is total on arbitrary bytes: no input makes the decoder
    slice out of bounds, whatever lengths and offsets it declares. *)
Theorem decode_pack_no_panic bytes expected max_bytes :
  slen bytes <= usize_max ->
  decode_pack blake3_hex bytes expected max_bytes <> Err SlicePanic.
Proof.
  intros Hlen. pose proof (slen_nonneg bytes). unfold decode_pack.
  step_ok Hcap. step_ok Hdig. step_ok Hmax. step_ok Heq. step_ok Hhdr. bool_to_prop.
  change PACK_HEADER_BYTES with 16 in *. change (slen PACK_MAGIC) with 8 in *.
  step_slice magic S1. step_ok Hmagic. step_slice header S2.
  apply bind_no_err; [by apply context_no_err|intros index_len Hil].
  apply with_context_Ok, usize_try_from_Some in Hil as [-> _].
  pose proof (from_le_bytes_bound header).
  step_ok Hix.
  apply bind_no_err; [by apply context_no_err|intros start Hps].
  apply with_context_Ok, checked_add_Some in Hps as [-> _].
  step_ok Hpay. bool_to_prop.
  step_slice json S3.
  apply bind_no_err; [by apply context_no_err|intros index Hj].
  apply with_context_Ok, from_slice_u64 in Hj.
  step_slice payload S4. apply slice_len in S4.
  apply bind_no_err; [apply validate_pack_index_no_panic|intros ranges Hv].
  apply validate_pack_index_inv in Hv as (_ & _ & V3 & -> & V5);
    [|unfold in_range; pose proof (slen_nonneg payload); lia|done].
  edestruct (decode_entries_cover "" payload) as (ds & Hds & _); [done..|].
  cbn [String.append] in Hds. rewrite Hds. done.
Qed.
End Soundness.

(** ** Catalogs *)

Section CatalogProofs.
Context `{Usize} (blake3_hex : string -> string) `{!JsonCodec PackCatalog}.

Lemma entry_leb_total x y : entry_leb x y = true \/ entry_leb y x = true.
Proof. apply pair_leb_total. Qed.
Lemma pack_leb_total x y : pack_leb x y = true \/ pack_leb y x = true.
Proof. apply string_leb_total. Qed.

Lemma sort_pack_idem p : sort_pack (sort_pack p) = sort_pack p.
Proof. unfold sort_pack. cbn. by rewrite (sort_by_idem entry_leb entry_leb_total). Qed.

Lemma sort_catalog_idem c : sort_catalog (sort_catalog c) = sort_catalog c.
Proof.
  unfold sort_catalog at 1. cbn.
  rewrite (sort_by_idem String.leb string_leb_total), (sort_by_idem entry_leb entry_leb_total).
  assert (map sort_pack (sort_by pack_leb (map sort_pack (pc_packs c)))
          = sort_by pack_leb (map sort_pack (pc_packs c))) as ->.
  { rewrite <- (map_id (sort_by _ _)) at 2. apply map_ext_in. intros p Hp.
    apply list_elem_of_In in Hp. apply elem_of_sort_by in Hp.
    apply list_elem_of_In, in_map_iff in Hp as (p' & <- & _). apply sort_pack_idem. }
  by rewrite (sort_by_idem pack_leb pack_leb_total).
Qed.

Lemma canonicalize_sorts c c' :
  canonicalize_catalog blake3_hex c = Ok c' ->
  c' = sort_catalog c /\ validate_catalog blake3_hex c' = Ok tt.
Proof. unfold canonicalize_catalog. intros Hc. inv_result. done. Qed.

Lemma canonicalize_idem c c' :
  canonicalize_catalog blake3_hex c = Ok c' -> canonicalize_catalog blake3_hex c' = Ok c'.
Proof.
  intros [-> Hv]%canonicalize_sorts. unfold canonicalize_catalog.
  rewrite sort_catalog_idem, Hv. done.
Qed.

(** Sorting keeps a catalog a Rust value. *)
Lemma typed_sort_by `{RustValue A} leb (l : list A) : well_typed (sort_by leb l) = well_typed l.
Proof.
  apply Bool.eq_iff_eq_true. unfold well_typed, rust_vec. rewrite !forallb_forall.
  setoid_rewrite <- list_elem_of_In. by setoid_rewrite elem_of_sort_by.
Qed.
Lemma typed_sort_catalog c : well_typed (sort_catalog c) = well_typed c.
Proof.
  assert (forall ps, well_typed (map sort_pack ps) = well_typed ps) as Hmap.
  { intros ps. unfold well_typed, rust_vec. induction ps as [|p ps IH]; [done|].
    cbn [map forallb]. rewrite IH. f_equal. unfold well_typed, rust_pack_ref. cbn [sort_pack
      cp_digest cp_pack_bytes cp_entries]. by rewrite typed_sort_by. }
  unfold well_typed at 1 2, rust_catalog. cbn [sort_catalog pc_version pc_key_schema
    pc_manifest_key pc_namespace pc_selector_hash pc_shard_hashes pc_created_at_ms
    pc_expires_at_ms pc_packs pc_fallback_entries].
  by rewrite !typed_sort_by, Hmap.
Qed.

(** A published catalog decodes to itself: [encode_catalog] puts the
    catalog in canonical order once, and [decode_catalog] of its bytes under
    its digest accepts that order and returns the same catalog. *)
Theorem catalog_round_trip prefix c e :
  well_typed c = true ->
  encode_catalog blake3_hex prefix c = Ok e ->
  decode_catalog blake3_hex (ec_bytes e) (ec_digest e) = Ok (ec_catalog e)
  /\ ec_catalog e = sort_catalog c.
Proof.
  unfold encode_catalog. intros Hty He. inv_guards.
  rename select (canonicalize_catalog _ _ = Ok _) into Hc.
  rename select (catalog_object_key _ _ _ _ = Ok _) into Hk.
  unfold catalog_object_key in Hk. inv_result. cbn [ec_bytes ec_digest ec_catalog].
  assert (x = sort_catalog c) as Hx by (by apply canonicalize_sorts in Hc as [-> _]).
  split; [|done]. unfold decode_catalog.
  rewrite (bind_ok _ tt) by done. rewrite bind_guard by lia.
  rewrite bind_guard by (by rewrite String.eqb_refl).
  rewrite (bind_context _ _ x)
    by (apply from_slice_to_vec; by rewrite Hx, typed_sort_catalog).
  rewrite (bind_ok _ x) by (by eapply canonicalize_idem).
  rewrite bind_guard by (by rewrite bool_decide_eq_true_2).
  done.
Qed.

(** Loop invariant of the duplicate checks. *)
Definition pack_keys (c : list CatalogPackRef) : list string :=
  flat_map (fun p => map ce_cache_key (cp_entries p)) c.

Lemma entries_fold_inv es keys keys' done :
  (forall k, k ∈ keys <-> k ∈ done) -> NoDup done ->
  try_fold catalog_entry_step keys es = Ok keys' ->
  (forall k, k ∈ keys' <-> k ∈ (done ++ map ce_cache_key es)%list) /\
  NoDup (done ++ map ce_cache_key es) /\
  Forall (fun e => validate_entry e = Ok tt) es.
Proof.
  revert keys done. induction es as [|e es IH]; intros keys done Hk Hd; cbn [try_fold map].
  - intros [= <-]. rewrite app_nil_r. auto.
  - intros Hrun. apply bind_Ok in Hrun as (k1 & Hs & Hrun). unfold catalog_entry_step in Hs.
    inv_result. case_decide as Hin; [done|]. inv_result.
    rewrite (cons_middle (ce_cache_key e)), app_assoc.
    destruct (IH ({[ce_cache_key e]} ∪ keys) (done ++ [ce_cache_key e])%list)
      as (A & B & C); [| |done|].
    + intros k. rewrite elem_of_union, elem_of_singleton, Hk, elem_of_app, list_elem_of_singleton.
      tauto.
    + apply NoDup_snoc. by rewrite <- Hk.
    + auto.
Qed.

Lemma packs_fold_inv packs st st' digests keys :
  (forall k, k ∈ cs_digests st <-> k ∈ digests) -> NoDup digests ->
  (forall k, k ∈ cs_keys st <-> k ∈ keys) -> NoDup keys ->
  cs_total st = Z.of_nat (length keys) ->
  try_fold catalog_pack_step st packs = Ok st' ->
  NoDup (digests ++ map cp_digest packs) /\
  (forall k, k ∈ cs_keys st' <-> k ∈ (keys ++ pack_keys packs)%list) /\
  NoDup (keys ++ pack_keys packs) /\
  cs_total st' = Z.of_nat (length (keys ++ pack_keys packs)).
Proof.
  revert st digests keys. induction packs as [|p packs IH];
    intros st digests keys Hd Hdn Hk Hkn Ht; cbn [try_fold map pack_keys flat_map].
  - intros [= <-]. rewrite !app_nil_r. auto.
  - intros Hrun. apply bind_Ok in Hrun as (st1 & Hs & Hrun). unfold catalog_pack_step in Hs.
    inv_guards. rename select (try_fold catalog_entry_step _ _ = Ok _) into He.
    rename select (checked_add _ _ _ = Some _) into Ha.
    apply checked_add_Some in Ha as [-> _].
    destruct (decide (cp_digest p ∈ cs_digests st)) as [|Hnd] eqn:Hdec; [by inv_result|].
    eapply entries_fold_inv in He as (E1 & E2 & E3); [|done|done].
    rewrite (cons_middle (cp_digest p)), !app_assoc.
    eapply IH; [| | | | |exact Hrun]; cbn; auto.
    + intros k. rewrite elem_of_union, elem_of_singleton, Hd, elem_of_app, list_elem_of_singleton.
      tauto.
    + apply NoDup_snoc. by rewrite <- Hd.
    + rewrite length_app, length_map. lia.
Qed.

(** A validated catalog names every cache key once: no key appears in two
    packs, twice in a pack, or both in a pack and in the fallback list; no pack
    appears twice; and the catalog lists at most [MAX_PACK_ENTRIES] entries. *)
Theorem catalog_keys_unique c :
  validate_catalog blake3_hex c = Ok tt ->
  NoDup (map cp_digest (pc_packs c)) /\
  NoDup (pack_keys (pc_packs c) ++ map ce_cache_key (pc_fallback_entries c)) /\
  Z.of_nat (length (pack_keys (pc_packs c)) + length (pc_fallback_entries c)) <= MAX_PACK_ENTRIES.
Proof.
  unfold validate_catalog. intros Hv. inv_guards.
  rename select (try_fold catalog_pack_step _ _ = Ok _) into Hp.
  rename select (try_fold catalog_entry_step _ _ = Ok _) into Hf.
  rename select (checked_add _ _ _ = Some _) into Ha. apply checked_add_Some in Ha as [-> _].
  eapply (packs_fold_inv _ _ _ [] []) in Hp as (P1 & P2 & P3 & P4); cbn; auto using NoDup_nil_2.
  2,3: by intros k; split; intros Hin; [apply elem_of_empty in Hin|apply elem_of_nil in Hin].
  eapply entries_fold_inv in Hf as (_ & F2 & _); [|done|done].
  cbn in *. split_and!; auto. bool_to_prop. lia.
Qed.
End CatalogProofs.

(** ** Object keys and selectors *)

(** Catalog object keys parse back: the key a catalog is published under is
    recognised under its selector's listing prefix, and yields the creation
    time and digest it was built from. *)
Theorem catalog_key_round_trip prefix selector t digest key listing :
  in_range u64_max t ->
  catalog_object_key prefix selector t digest = Ok key ->
  catalog_prefix prefix selector = Ok listing ->
  parse_catalog_object_ref listing key =
  Some {| cor_object_key := key; cor_created_at_ms := t; cor_digest := digest |}.
Proof.
  intros Ht Hk Hl. unfold catalog_object_key in Hk. unfold catalog_prefix in Hl. inv_result.
  unfold parse_catalog_object_ref.
  set (key := join_remote_key _ _). set (listing := join_remote_key _ _).
  assert (key = listing ++ (fmt_padded 20 t ++ "-" ++ digest) ++ ".json") as Hkey.
  { subst key listing. rewrite <- join_remote_key_app. f_equal.
    cbn [String.append]. rewrite <- !string_app_assoc. cbn [String.append].
    by rewrite <- ?string_app_assoc. }
  rewrite (proj2 (strip_prefix_Some listing key _) Hkey). cbn [mbind option_bind].
  rewrite (proj2 (strip_suffix_Some ".json" _ _) eq_refl). cbn [mbind option_bind].
  change ("-" ++ digest) with (String "-" digest). rewrite split_once_app.
  2:{ eapply all_bytes_impl; [|apply fmt_padded_digits]. intros c Hc.
      destruct (Ascii.eqb_spec c "-") as [->|]; [|done]. done. }
  cbn [mbind option_bind]. rewrite slen_fmt_padded, fmt_padded_digits. cbn [Z.of_nat].
  rename select (validate_digest digest = Ok _) into Hdig. rewrite Hdig. cbn [is_ok negb orb].
  rewrite (parse_unsigned_digits _ _ t); [done| |apply fmt_padded_digits|..].
  - intros E%(f_equal slen). rewrite slen_fmt_padded in E. done.
  - apply parse_fmt_padded. unfold in_range, u64_max in Ht. simpl. lia.
  - apply Ht.
Qed.

Section MaxBy.
Context {A} (leb : A -> A -> bool)
  (leb_total : forall x y, leb x y = true \/ leb y x = true)
  (leb_trans : forall x y z, leb x y = true -> leb y z = true -> leb x z = true).
Lemma max_by_spec l :
  match max_by leb l with
  | Some m => m ∈ l /\ forall x, x ∈ l -> leb x m = true
  | None => l = []
  end.
Proof.
  unfold max_by. induction l as [|x l IH] using rev_ind; [done|].
  rewrite fold_left_app. cbn. destruct (fold_left _ l None) as [m|].
  - destruct IH as [Hm Hle]. destruct (leb m x) eqn:E.
    + split; [set_solver|]. intros y [Hy|Hy%list_elem_of_singleton]%elem_of_app; [eauto|].
      subst y. by destruct (leb_total x x).
    + split; [set_solver|]. intros y [Hy|Hy%list_elem_of_singleton]%elem_of_app; [eauto|].
      subst y. by destruct (leb_total m x); [congruence|].
  - subst l. split; [set_solver|]. intros y Hy%list_elem_of_singleton. subst y.
    by destruct (leb_total x x).
Qed.
End MaxBy.

Lemma catalog_ref_leb_total x y : catalog_ref_leb x y = true \/ catalog_ref_leb y x = true.
Proof.
  unfold catalog_ref_leb. rewrite (Z.compare_antisym (cor_created_at_ms x)).
  destruct (Z.compare_spec (cor_created_at_ms x) (cor_created_at_ms y)); cbn; auto.
  apply string_leb_total.
Qed.
Lemma catalog_ref_leb_trans x y z :
  catalog_ref_leb x y = true -> catalog_ref_leb y z = true -> catalog_ref_leb x z = true.
Proof.
  unfold catalog_ref_leb.
  destruct (Z.compare_spec (cor_created_at_ms x) (cor_created_at_ms y)),
    (Z.compare_spec (cor_created_at_ms y) (cor_created_at_ms z)),
    (Z.compare_spec (cor_created_at_ms x) (cor_created_at_ms z)); try done; try lia.
  apply string_leb_trans.
Qed.

(** [latest_catalog_object] picks the newest: the chosen object is one of
    the listed keys that parse, and no listed key that parses is newer (by
    creation time, then digest); it finds none only when none parses. *)
Theorem latest_catalog_is_newest prefix selector keys listing :
  catalog_prefix prefix selector = Ok listing ->
  match latest_catalog_object prefix selector keys with
  | Ok (Some r) =>
      (exists key, key ∈ keys /\ parse_catalog_object_ref listing key = Some r) /\
      (forall key r', key ∈ keys -> parse_catalog_object_ref listing key = Some r' ->
         catalog_ref_leb r' r = true)
  | Ok None => forall key, key ∈ keys -> parse_catalog_object_ref listing key = None
  | Err _ => False
  end.
Proof.
  intros Hl. unfold latest_catalog_object. rewrite Hl. cbn.
  pose proof (max_by_spec catalog_ref_leb catalog_ref_leb_total catalog_ref_leb_trans
    (omap (parse_catalog_object_ref listing) keys)) as Hm.
  destruct (max_by _ _) as [r|].
  - destruct Hm as [Hin Hle]. rewrite list_elem_of_omap in Hin. split.
    + destruct Hin as (key & ? & ?). eauto.
    + intros key r' Hkey Hp. apply Hle, list_elem_of_omap. eauto.
  - intros key Hkey. destruct (parse_catalog_object_ref listing key) as [r|] eqn:E; [|done].
    assert (r ∈ omap (parse_catalog_object_ref listing) keys) as Hr
      by (apply list_elem_of_omap; eauto).
    rewrite Hm in Hr. by apply elem_of_nil in Hr.
Qed.

Lemma hash_field_inj v1 v2 r1 r2 :
  slen v1 <= u64_max -> slen v2 <= u64_max ->
  hash_field v1 ++ r1 = hash_field v2 ++ r2 -> v1 = v2 /\ r1 = r2.
Proof. apply len_prefix_inj. Qed.

Lemma hash_fields_inj l1 l2 r1 r2 :
  length l1 = length l2 -> Forall (fun v => slen v <= u64_max) l1 ->
  Forall (fun v => slen v <= u64_max) l2 ->
  concat_str (map hash_field l1) ++ r1 = concat_str (map hash_field l2) ++ r2 ->
  l1 = l2 /\ r1 = r2.
Proof.
  revert l2. induction l1 as [|v1 l1 IH]; intros [|v2 l2] Hlen H1 H2 E; try done.
  apply Forall_cons in H1 as [? ?], H2 as [? ?]. cbn [map concat_str] in E.
  rewrite <- !string_app_assoc in E. apply hash_field_inj in E as [-> E]; [|done..].
  injection Hlen as Hlen. apply IH in E as [-> ->]; auto.
Qed.

(** The selector digest covers its inputs without ambiguity: the bytes that
    are hashed determine manifest key, namespace, shard list and key schema,
    because every variable-length field is length-prefixed; so two selectors
    with the same digest either agree on all inputs or collide in BLAKE3. *)
Theorem selector_preimage_inj m1 n1 s1 k1 m2 n2 s2 k2 :
  Forall (fun v => slen v <= u64_max) (m1 :: n1 :: m2 :: n2 :: s1 ++ s2) ->
  Forall (in_range u32_max) [k1; k2] ->
  Forall (in_range u64_max) [Z.of_nat (length s1); Z.of_nat (length s2)] ->
  selector_preimage m1 n1 s1 k1 = selector_preimage m2 n2 s2 k2 ->
  m1 = m2 /\ n1 = n2 /\ s1 = s2 /\ k1 = k2.
Proof.
  intros Hs Hk Hn E. unfold selector_preimage in E.
  repeat rewrite Forall_cons in Hs. rewrite Forall_app in Hs.
  repeat rewrite Forall_cons in Hk. repeat rewrite Forall_cons in Hn.
  destruct_and!. unfold in_range, u64_max, u32_max in *.
  apply string_app_inj in E as [_ E]; [|done].
  apply hash_field_inj in E as [-> E]; [|done..].
  apply hash_field_inj in E as [-> E]; [|done..].
  apply string_app_inj in E as [Ek E]; [|by rewrite !slen_to_le_bytes].
  apply to_le_bytes_inj in Ek; [|simpl; lia..].
  apply string_app_inj in E as [El E]; [|by rewrite !slen_to_le_bytes].
  apply to_le_bytes_inj in El; [|simpl; lia..].
  rewrite <- (string_app_nil_r (concat_str (map hash_field s1))),
    <- (string_app_nil_r (concat_str (map hash_field s2))) in E.
  apply hash_fields_inj in E as [-> _]; auto. lia.
Qed.

(** The selector does not depend on the order in which the Cargo.lock
    shards are listed. *)
Theorem selector_hash_perm blake3_hex m n s1 s2 k :
  s1 ≡ₚ s2 -> selector_hash blake3_hex m n s1 k = selector_hash blake3_hex m n s2 k.
Proof.
  intros Hp. unfold selector_hash.
  by rewrite (sort_by_perm_eq String.leb string_leb_total string_leb_trans string_leb_antisym _ _ Hp).
Qed.
