(* ===== verification/PackWitness.v ===== *)
(** * Concrete packs and catalogs

    The theorems of [PackProofs] at concrete inputs: a two-entry pack, a catalog
    that lists it, and a checksum and a field codec in the place of [blake3] and
    [serde_json]. *)

From S2P Require Import Prelude Strings Codec Regions Format Pack PackProofs.
#[local] Open Scope string_scope.
#[local] Open Scope Z_scope.

(** ** Stand-ins for the external functions *)

#[local] Instance serial_PackIndexEntry : Serial PackIndexEntry.
Proof.
  refine {| serialize r := quote_fields [serialize (pix_cache_key r); serialize (pix_crate_name r); serialize (pix_meta_digest r); serialize (pix_offset r); serialize (pix_length r)];
    deserialize s := match fields s with
      | [a; b; c; d; e] =>
        a ← deserialize a;
        b ← deserialize b;
        c ← deserialize c;
        d ← deserialize d;
        e ← deserialize e;
        Some (Build_PackIndexEntry a b c d e)
      | _ => None end |}.
  solve_serial.
Defined.
#[local] Instance serial_PackIndex : Serial PackIndex.
Proof.
  refine {| serialize r := quote_fields [serialize (pi_version r); serialize (pi_key_schema r); serialize (pi_entries r)];
    deserialize s := match fields s with
      | [a; b; c] =>
        a ← deserialize a;
        b ← deserialize b;
        c ← deserialize c;
        Some (Build_PackIndex a b c)
      | _ => None end |}.
  solve_serial.
Defined.
#[local] Instance serial_CatalogEntry : Serial CatalogEntry.
Proof.
  refine {| serialize r := quote_fields [serialize (ce_cache_key r); serialize (ce_crate_name r); serialize (ce_meta_digest r)];
    deserialize s := match fields s with
      | [a; b; c] =>
        a ← deserialize a;
        b ← deserialize b;
        c ← deserialize c;
        Some (Build_CatalogEntry a b c)
      | _ => None end |}.
  solve_serial.
Defined.
#[local] Instance serial_CatalogPackRef : Serial CatalogPackRef.
Proof.
  refine {| serialize r := quote_fields [serialize (cp_digest r); serialize (cp_pack_bytes r); serialize (cp_entries r)];
    deserialize s := match fields s with
      | [a; b; c] =>
        a ← deserialize a;
        b ← deserialize b;
        c ← deserialize c;
        Some (Build_CatalogPackRef a b c)
      | _ => None end |}.
  solve_serial.
Defined.
#[local] Instance serial_PackCatalog : Serial PackCatalog.
Proof.
  refine {| serialize r := quote_fields [serialize (pc_version r); serialize (pc_key_schema r); serialize (pc_manifest_key r); serialize (pc_namespace r); serialize (pc_selector_hash r); serialize (pc_shard_hashes r); serialize (pc_created_at_ms r); serialize (pc_expires_at_ms r); serialize (pc_packs r); serialize (pc_fallback_entries r)];
    deserialize s := match fields s with
      | [a; b; c; d; e; f; g; h; i; j] =>
        a ← deserialize a;
        b ← deserialize b;
        c ← deserialize c;
        d ← deserialize d;
        e ← deserialize e;
        f ← deserialize f;
        g ← deserialize g;
        h ← deserialize h;
        i ← deserialize i;
        j ← deserialize j;
        Some (Build_PackCatalog a b c d e f g h i j)
      | _ => None end |}.
  solve_serial.
Defined.
#[local] Instance toy_index_codec : JsonCodec PackIndex := serial_codec PackIndex.
#[local] Instance toy_catalog_codec : JsonCodec PackCatalog := serial_codec PackCatalog.

(** ** A pack *)

Definition key_a : string := fmt_padded 64 10.
Definition key_b : string := fmt_padded 64 11.
Definition demo_entries : list PackInputEntry :=
  [{| pie_cache_key := key_b; pie_crate_name := "serde"; pie_meta_digest := key_a;
      pie_payload := "second" |};
   {| pie_cache_key := key_a; pie_crate_name := "libc"; pie_meta_digest := key_b;
      pie_payload := "one" |}].
Definition demo_bytes : string :=
  match build_pack toy_hex "ci" demo_entries 65536 with Ok p => bp_bytes p | Err _ => "" end.

Lemma pack_round_trip_witness :
  match build_pack toy_hex "ci" demo_entries 65536 with
  | Ok p => exists d, decode_pack toy_hex (bp_bytes p) (bp_digest p) 65536 = Ok d /\
      dp_index d = bp_index p /\ map as_input (dp_entries d) = sort_by input_leb demo_entries
  | Err _ => False
  end.
Proof.
  destruct (build_pack toy_hex "ci" demo_entries 65536) as [p|e] eqn:E.
  - exact (pack_round_trip toy_hex "ci" demo_entries 65536 p E).
  - not_err E.
Defined.

Lemma decode_pack_sound_witness :
  match decode_pack toy_hex demo_bytes (toy_hex demo_bytes) 65536 with
  | Ok d => map dpe_descriptor (dp_entries d) = pi_entries (dp_index d) /\
            keys_increase None (pi_entries (dp_index d))
  | Err _ => False
  end.
Proof.
  destruct (decode_pack toy_hex demo_bytes (toy_hex demo_bytes) 65536) as [d|e] eqn:E.
  - destruct (decode_pack_sound toy_hex demo_bytes (toy_hex demo_bytes) 65536 d)
      as (_ & _ & _ & H1 & H2 & _); [vm_compute; discriminate|exact E|exact (conj H1 H2)].
  - not_err E.
Defined.

(** A header that declares more index bytes than the object has. *)
Definition truncated_bytes : string := PACK_MAGIC ++ to_le_bytes 8 4096 ++ "{}".
Lemma decode_pack_no_panic_witness :
  decode_pack toy_hex truncated_bytes (toy_hex truncated_bytes) 65536 <> Err SlicePanic
  /\ decode_pack toy_hex truncated_bytes (toy_hex truncated_bytes) 65536 = Err IndexBeyondObject.
Proof.
  split; [|vm_compute; reflexivity].
  apply (decode_pack_no_panic toy_hex truncated_bytes (toy_hex truncated_bytes) 65536).
  vm_compute. discriminate.
Defined.

(** ** A catalog *)

Definition demo_catalog : PackCatalog :=
  {| pc_version := CATALOG_VERSION; pc_key_schema := CACHE_KEY_VERSION;
     pc_manifest_key := "linux/x86_64"; pc_namespace := "main";
     pc_selector_hash :=
       match selector_hash toy_hex "linux/x86_64" "main" [key_b; key_a] CACHE_KEY_VERSION with
       | Ok s => s | Err _ => "" end;
     pc_shard_hashes := [key_b; key_a]; pc_created_at_ms := 1700000000000;
     pc_expires_at_ms := 1700000600000;
     pc_packs := [{| cp_digest := toy_hex demo_bytes; cp_pack_bytes := slen demo_bytes;
       cp_entries := [{| ce_cache_key := key_b; ce_crate_name := "serde"; ce_meta_digest := key_a |};
                      {| ce_cache_key := key_a; ce_crate_name := "libc"; ce_meta_digest := key_b |}]
       |}];
     pc_fallback_entries := [{| ce_cache_key := fmt_padded 64 12; ce_crate_name := "huge";
                                ce_meta_digest := key_b |}] |}.

Lemma catalog_round_trip_witness :
  match encode_catalog toy_hex "ci" demo_catalog with
  | Ok e => decode_catalog toy_hex (ec_bytes e) (ec_digest e) = Ok (ec_catalog e)
            /\ ec_catalog e = sort_catalog demo_catalog
  | Err _ => False
  end.
Proof.
  destruct (encode_catalog toy_hex "ci" demo_catalog) as [e|err] eqn:E.
  - apply (catalog_round_trip toy_hex "ci" demo_catalog e); [vm_compute; reflexivity|exact E].
  - not_err E.
Defined.

Lemma catalog_keys_unique_witness :
  NoDup (pack_keys (pc_packs (sort_catalog demo_catalog))
         ++ map ce_cache_key (pc_fallback_entries (sort_catalog demo_catalog))).
Proof.
  apply (catalog_keys_unique toy_hex (sort_catalog demo_catalog)). vm_compute. reflexivity.
Defined.

Lemma catalog_key_round_trip_witness :
  match catalog_object_key "ci" key_a 1700000000000 key_b, catalog_prefix "ci" key_a with
  | Ok key, Ok listing => parse_catalog_object_ref listing key =
      Some {| cor_object_key := key; cor_created_at_ms := 1700000000000; cor_digest := key_b |}
  | _, _ => False
  end.
Proof.
  destruct (catalog_object_key "ci" key_a 1700000000000 key_b) as [key|e] eqn:E;
    [|not_err E].
  destruct (catalog_prefix "ci" key_a) as [listing|e] eqn:F; [|not_err F].
  apply (catalog_key_round_trip "ci" key_a 1700000000000 key_b key listing);
    [unfold in_range, u64_max; lia|exact E|exact F].
Defined.

Definition demo_listing : list string :=
  omap (fun t => ok (catalog_object_key "ci" key_a t key_b)) [5; 9; 7].
Lemma latest_catalog_is_newest_witness :
  exists r, latest_catalog_object "ci" key_a demo_listing = Ok (Some r) /\ cor_created_at_ms r = 9.
Proof.
  destruct (catalog_prefix "ci" key_a) as [listing|e] eqn:F; [|not_err F].
  pose proof (latest_catalog_is_newest "ci" key_a demo_listing listing F) as H.
  assert (Hr : match latest_catalog_object "ci" key_a demo_listing with
               | Ok (Some r) => cor_created_at_ms r =? 9 | _ => false end = true)
    by (vm_compute; reflexivity).
  destruct (latest_catalog_object "ci" key_a demo_listing) as [[r|]|e]; [|discriminate Hr..].
  exists r. apply Z.eqb_eq in Hr. exact (conj eq_refl Hr).
Defined.

Lemma selector_preimage_inj_witness :
  selector_preimage "ab" "c" [key_a] 33 = selector_preimage "ab" "c" [key_a] 33 /\ "ab" = "ab".
Proof.
  split; [reflexivity|].
  apply (selector_preimage_inj "ab" "c" [key_a] 33 "ab" "c" [key_a] 33); [| | |reflexivity];
    repeat constructor; vm_compute; discriminate.
Defined.

Lemma selector_hash_perm_witness :
  selector_hash toy_hex "m" "n" [key_b; key_a] 33 = selector_hash toy_hex "m" "n" [key_a; key_b] 33.
Proof. apply (selector_hash_perm toy_hex "m" "n" [key_b; key_a] [key_a; key_b] 33). constructor. Defined.
