(* ===== verification/StorePolicy.v ===== *)
(** * Pure helpers of the store

    The functions of [crates/kache-store/src/store.rs] that touch neither the
    index nor the disk: which blobs may be hardlinked, how a publish rename is
    settled, when a restore is verified, how diagnostics are capped, and the
    digest that deduplicates entries by content. *)

From S2P Require Import Prelude Strings Codec Format.
#[local] Open Scope string_scope.
#[local] Open Scope Z_scope.

(** ** Compiler-owned rules ([trait ArtifactPolicy]) *)

Class ArtifactPolicy := {
  allow_hardlink : string -> bool;
  allow_empty : string -> list string -> bool;
  emit_kind : string -> option string;
  stable_after_store : string -> bool;
}.

(** [StorePutResult] *)
Record StorePutResult := { output_blobs : Z; duplicate_blobs : Z; new_blobs : Z }.
Definition is_full_dup (r : StorePutResult) : bool :=
  (0 <? output_blobs r) && (duplicate_blobs r =? output_blobs r).

(** [is_blob_hash_name] *)
Definition is_blob_hash_name (name : string) : bool :=
  (slen name =? 64)
  && all_bytes (fun b => is_ascii_digit b || between 97 102 (byte_val b)) name.

Section Policy.
Context `{ArtifactPolicy}.
(** [hardlink_eligible], off Windows. *)
Definition hardlink_eligible (store_name : string) (executable : bool) : bool :=
  if executable then false else allow_hardlink store_name.
(** [source_hardlink_allowed] *)
Definition source_hardlink_allowed (allow_source_hardlinks : bool) (store_name : string)
    (executable : bool) : bool :=
  allow_source_hardlinks && hardlink_eligible store_name executable.
(** [zero_byte_is_valid_output] *)
Definition zero_byte_is_valid_output (store_name : string) (crate_types : list string) : bool :=
  allow_empty store_name crate_types.

(** [Vec::dedup] *)
Fixpoint dedup (l : list string) : list string :=
  match l with
  | a :: ((b :: _) as l') => if String.eqb a b then dedup l' else a :: dedup l'
  | _ => l
  end.
(** [emit_kinds_for_files] *)
Definition emit_kinds_for_files (files : list CachedFile) : list string :=
  dedup (sort_by String.leb (omap (fun f => emit_kind (name f)) files)).
End Policy.

(** ** Paths in the store *)

(** [str::get(..2)]: [None] past the end or inside a character. *)
Definition get_prefix (n : nat) (s : string) : option string :=
  if (Z.of_nat n <=? slen s)
     && match sdrop n s with String c _ => negb (continuation c) | "" => true end
  then Some (stake n s) else None.
(** [blob_path_in_store_dir] *)
Definition blob_path_in_store_dir (store_dir hash : string) : string :=
  let prefix := default hash (get_prefix 2 hash) in
  join (join (join store_dir "blobs") prefix) hash.
(** [Store::entry_dir] *)
Definition entry_dir (store_dir cache_key : string) : string := join store_dir cache_key.

(** ** Key locks *)

(** [key_of_lock_name] *)
Definition key_of_lock_name (name : string) : option string :=
  key ← strip_suffix ".lock" name;
  if is_valid_cache_key key then Some key else None.
(** [key_lock_is_stale]; [duration_since] fails when [modified] is ahead. *)
Definition key_lock_is_stale (modified now min_age : Z) : bool :=
  (modified <=? now) && (min_age <=? now - modified).
(** [KeyLockSweepStats::remaining] *)
Record KeyLockSweepStats := { kl_seen : Z; kl_removed : Z }.
Definition kl_remaining (s : KeyLockSweepStats) : Z := saturating_sub (kl_seen s) (kl_removed s).

(** ** Waiting out a transient file state ([atomic.rs]) *)

Definition TRANSIENT_ATTEMPTS : Z := 10.
(** [rename_backoff_ms] *)
Definition rename_backoff_ms (attempt : Z) : Z := Z.min (Z.shiftl 1 (Z.min attempt 6)) 64.
(** [should_retry_transient] *)
Definition should_retry_transient (transient : bool) (attempt : Z) : bool :=
  transient && (attempt + 1 <? TRANSIENT_ATTEMPTS).

Section Retry.
Context {E A : Type}.
Variable is_transient : E -> bool.
(** What the operation returns when it is called for the [n]-th time. *)
Variable op : Z -> result E A.

(** The loop of [retry_transient] over the attempts that are left, with the
    milliseconds slept.  [None] is the final [expect], the panic of a loop that
    ends without having returned. *)
Fixpoint retry_loop (tries : nat) (attempt slept : Z) : option (result E A) * Z :=
  match tries with
  | O => (None, slept)
  | S tries =>
      match op attempt with
      | Ok value => (Some (Ok value), slept)
      | Err e =>
          if should_retry_transient (is_transient e) attempt
          then retry_loop tries (attempt + 1) (slept + rename_backoff_ms attempt)
          else (Some (Err e), slept)
      end
  end.
(** [retry_transient] *)
Definition retry_transient : option (result E A) * Z :=
  retry_loop (Z.to_nat TRANSIENT_ATTEMPTS) 0 0.
End Retry.

(** ** Publishing a staged blob *)

Inductive PublishDest := DestFile | DestObstructed | DestVacant.
Inductive PublishRename := Published | LostRace | Deferred.
#[export] Instance PublishDest_eq_dec : EqDecision PublishDest.
Proof. solve_decision. Defined.

(** [publish_attempt_outcome] *)
Definition publish_attempt_outcome {E} (renamed : result E unit) (dest_state : PublishDest)
    : result E PublishRename :=
  match renamed with
  | Ok _ => Ok Published
  | Err e => if decide (dest_state = DestFile) then Ok LostRace else Err e
  end.
(** [publish_failure_outcome] *)
Definition publish_failure_outcome {E} (err : E) (transient : bool) (dest : PublishDest)
    : result E PublishRename :=
  match dest, transient with
  | DestFile, _ => Ok LostRace
  | DestVacant, true => Ok Deferred
  | _, _ => Err err
  end.
(** [publish_rename]: [rename n] and [dest_state n] are what the [n]-th rename
    and the probe after it see, [final_dest] the probe after the last failure. *)
Definition publish_rename {E} (is_transient : E -> bool) (rename : Z -> result E unit)
    (dest_state : Z -> PublishDest) (final_dest : PublishDest)
    : option (result E PublishRename) :=
  match (retry_transient is_transient
           (fun n => publish_attempt_outcome (rename n) (dest_state n))).1 with
  | Some (Err err) => Some (publish_failure_outcome err (is_transient err) final_dest)
  | settled => settled
  end.

(** ** Verifying restores *)

Inductive VerifyRestores := VrOff | VrSampled | VrAlways.
Definition to_ascii_lower (c : ascii) : ascii :=
  if is_ascii_uppercase c then ascii_of_N (Z.to_N (byte_val c + 32)) else c.
Fixpoint eq_ignore_ascii_case (a b : string) : bool :=
  match a, b with
  | "", "" => true
  | String x a, String y b =>
      Ascii.eqb (to_ascii_lower x) (to_ascii_lower y) && eq_ignore_ascii_case a b
  | _, _ => false
  end.
(** [parse_verify_restores] *)
Definition parse_verify_restores (value : option string) : VerifyRestores :=
  match value with
  | Some v =>
      if eq_ignore_ascii_case v "sampled" then VrSampled
      else if eq_ignore_ascii_case v "always" || String.eqb v "1" || eq_ignore_ascii_case v "true"
      then VrAlways else VrOff
  | None => VrOff
  end.
Definition VERIFY_SAMPLE_RATE : Z := 16.
(** [should_verify_this_restore]: the decision and the advanced counter. *)
Definition should_verify_this_restore (mode : VerifyRestores) (counter : Z) : bool * Z :=
  match mode with
  | VrOff => (false, counter)
  | VrAlways => (true, counter)
  | VrSampled => (counter mod VERIFY_SAMPLE_RATE =? 0, (counter + 1) mod (u64_max + 1))
  end.

(** ** Diagnostics *)

(** [parse_max_diagnostics_bytes] *)
Definition parse_max_diagnostics_bytes `{Usize} (value : option string) : option Z :=
  v ← value;
  n ← parse_unsigned usize_max v;
  if 0 <? n then Some n else None.

(** [str::is_char_boundary] for an index within the string. *)
Definition is_char_boundary (s : string) (i : nat) : bool :=
  match i, sdrop i s with
  | O, _ => true
  | _, "" => true
  | _, String c _ => negb (continuation c)
  end.
(** [while end > 0 && !s.is_char_boundary(end) { end -= 1 }] *)
Fixpoint floor_boundary (s : string) (n : nat) : nat :=
  match n with
  | O => O
  | S m => if is_char_boundary s n then n else floor_boundary s m
  end.
(** [cap_diagnostics] *)
Definition truncation_marker (omitted : Z) : string :=
  String "010" ("[kache: diagnostics truncated, " ++ fmt_dec omitted ++ " bytes omitted (#336)]"
                  ++ String "010" "").
Definition cap_diagnostics (s : string) (max : option Z) : string :=
  match max with
  | Some limit =>
      if limit <? slen s then
        let end_ := floor_boundary s (Z.to_nat limit) in
        stake end_ s ++ truncation_marker (slen s - Z.of_nat end_)
      else s
  | None => s
  end.

(** ** The content digest *)

(** [fold_field]: what one field adds to the hasher. *)
Definition fold_field (bytes : string) : string := len_prefix bytes.
Definition file_leb (a b : CachedFile) : bool := pair_leb (name a, hash a) (name b, hash b).
Definition file_fields (f : CachedFile) : string :=
  fold_field (name f) ++ fold_field (hash f) ++ fold_field (to_le_bytes 8 (size f))
  ++ fold_field (String (if executable f then "001" else "000")%char "").
(** The bytes [compute_content_hash] feeds to the hasher. *)
Definition content_preimage (files : list CachedFile) : string :=
  concat_str (map file_fields (sort_by file_leb files)).
(** [compute_content_hash] *)
Definition compute_content_hash (blake3_hex : string -> string) (files : list CachedFile) : string :=
  blake3_hex (content_preimage files).
