(* ===== verification/StorePolicyProofs.v ===== *)
(** * Store policies: diagnostics, content digest, retries

    Capped diagnostics stay valid UTF-8 and lose no more than they must; the
    content digest's preimage determines the file set; waiting out a transient
    state is bounded and never panics; a publish rename settles correctly; a
    validated name stays inside the directory it is joined to. *)

From S2P Require Import Prelude Strings Codec Format StorePolicy.
#[local] Open Scope string_scope.
#[local] Open Scope Z_scope.

(** ** UTF-8 *)

(** One encoded character. *)
Record utf8_char (ch : string) : Prop := {
  uc_length : (1 <= String.length ch <= 4)%nat;
  uc_lead : match ch with String c _ => continuation c = false | "" => False end;
  uc_rest : match ch with String _ rest => all_bytes continuation rest = true | "" => False end;
  uc_valid : forall r, valid_utf8 (ch ++ r) = valid_utf8 r;
}.


Lemma continuation_range c : continuation c = true <-> 128 <= byte_val c <= 191.
Proof. unfold continuation, between. lia. Qed.
Lemma wide_continuation lo hi c :
  between lo hi (byte_val c) = true -> 128 <= lo -> hi <= 191 -> continuation c = true.
Proof. unfold continuation, between. lia. Qed.
Lemma between_false lo hi x : between lo hi x = false -> x < lo \/ hi < x.
Proof. unfold between. lia. Qed.
Ltac utf8_bytes :=
  repeat match goal with
  | H : _ && _ = true |- _ => apply andb_prop in H as [? ?]
  end.
Ltac rewrite_bytes := repeat match goal with H : _ = true |- _ => rewrite H | H : _ = false |- _ => rewrite H end.
Lemma utf8_split s :
  valid_utf8 s = true -> s = "" \/ exists ch rest, s = ch ++ rest /\ utf8_char ch /\ valid_utf8 rest = true.
Proof.
  destruct s as [|a s1]; [by left|]. intros Hv. right. cbn [valid_utf8] in Hv.
  destruct (Z.ltb_spec (byte_val a) 128) as [H0|H0].
  { exists (String a ""), s1. split; [done|]. split; [|done]. split; [cbn; lia| |done|].
    - apply not_true_iff_false. rewrite continuation_range. lia.
    - intros r. cbn. by rewrite (proj2 (Z.ltb_lt _ _) H0). }
  apply Z.ltb_ge in H0. destruct s1 as [|b s2]; [done|].
  destruct (between 194 223 (byte_val a)) eqn:H1.
  { utf8_bytes. exists (String a (String b "")), s2. split; [done|]. split; [|done]. split; [cbn; lia| |cbn; by rewrite_bytes|].
    - apply not_true_iff_false. rewrite continuation_range. unfold between in H1. lia.
    - intros r. cbn [append valid_utf8]. by rewrite_bytes. }
  destruct s2 as [|c s3]; [done|]. destruct (between 224 239 (byte_val a)) eqn:H2.
  { utf8_bytes. exists (String a (String b (String c ""))), s3. split; [done|]. split; [|done].
    split; [cbn; lia| | |].
    - apply not_true_iff_false. rewrite continuation_range. unfold between in H2. lia.
    - cbn. rewrite (wide_continuation _ _ b ltac:(eassumption)) by (destruct (byte_val a =? 224), (byte_val a =? 237); lia).
      by rewrite_bytes.
    - intros r. cbn [append valid_utf8]. by rewrite_bytes. }
  destruct s3 as [|d s4]; [done|]. utf8_bytes.
  exists (String a (String b (String c (String d "")))), s4. split; [done|]. split; [|done].
  split; [cbn; lia| | |].
  - apply not_true_iff_false. rewrite continuation_range. unfold between in H. lia.
  - cbn. rewrite (wide_continuation _ _ b ltac:(eassumption)) by (destruct (byte_val a =? 240), (byte_val a =? 244); lia).
    by rewrite_bytes.
  - intros r. cbn [append valid_utf8]. by rewrite_bytes.
Qed.
Lemma utf8_ind (P : string -> Prop) :
  P "" -> (forall ch rest, utf8_char ch -> valid_utf8 rest = true -> P rest -> P (ch ++ rest)) ->
  forall s, valid_utf8 s = true -> P s.
Proof.
  intros H0 Hc s. remember (String.length s) as n eqn:Hn. revert s Hn.
  induction (lt_wf n) as [n _ IH]. intros s -> Hv.
  destruct (utf8_split s Hv) as [->|(ch & rest & -> & Hch & Hr)]; [done|]. apply Hc; [done|done|].
  eapply IH; [|reflexivity|done]. pose proof (slen_app ch rest). unfold slen in *. destruct Hch as [? _ _ _]. lia.
Qed.

Lemma valid_app s1 s2 : valid_utf8 s1 = true -> valid_utf8 (s1 ++ s2) = valid_utf8 s2.
Proof.
  revert s1. apply (utf8_ind (fun s1 => valid_utf8 (s1 ++ s2) = valid_utf8 s2)); [done|].
  intros ch rest Hch _ IH. rewrite <- string_app_assoc, (uc_valid _ Hch). done.
Qed.
Lemma length_split (s1 s2 : string) : String.length (s1 ++ s2) = (String.length s1 + String.length s2)%nat.
Proof. pose proof (slen_app s1 s2). unfold slen in *. lia. Qed.
(** Inside a character there is no boundary. *)
Lemma boundary_inside ch rest n :
  utf8_char ch -> (1 <= n < String.length ch)%nat -> is_char_boundary (ch ++ rest) n = false.
Proof.
  intros [_ _ Hr _] Hn. destruct ch as [|c ch]; [done|]. destruct n as [|n]; [lia|]. cbn in *.
  assert (n < String.length ch)%nat as Hlt by lia. clear Hn. revert n Hlt Hr.
  induction ch as [|d ch IH]; intros n Hlt Hr; [cbn in Hlt; lia|]. cbn in *.
  apply andb_prop in Hr as [Hd Hr]. destruct n as [|n]; cbn; [by rewrite Hd|]. apply IH; [lia|done].
Qed.
Lemma boundary_beyond ch rest n :
  (1 <= String.length ch)%nat ->
  is_char_boundary (ch ++ rest) (String.length ch + n) =
    match sdrop n rest with String c _ => negb (continuation c) | "" => true end.
Proof.
  intros Hc. assert (sdrop (String.length ch + n) (ch ++ rest) = sdrop n rest) as <-
    by (by rewrite <- sdrop_sdrop, sdrop_app).
  unfold is_char_boundary. destruct (String.length ch + n)%nat eqn:E; [lia|done].
Qed.
Lemma lead_boundary s : valid_utf8 s = true -> match s with String c _ => negb (continuation c) | "" => true end = true.
Proof.
  intros Hv. destruct (utf8_split s Hv) as [->|(ch & rest & -> & Hch & _)]; [done|].
  destruct Hch as [_ Hl _ _]. destruct ch; [done|]. cbn. by rewrite Hl.
Qed.
(** Cutting at a boundary gives two valid strings, and one is at most three
    bytes away. *)
Lemma boundary_valid s :
  valid_utf8 s = true -> forall n, (n <= String.length s)%nat -> is_char_boundary s n = true ->
  valid_utf8 (stake n s) = true.
Proof.
  apply (utf8_ind (fun s => forall n, (n <= String.length s)%nat -> is_char_boundary s n = true ->
    valid_utf8 (stake n s) = true)).
  { intros [|n] Hn _; [done|cbn in Hn; lia]. }
  intros ch rest Hch Hrest IH n Hn Hb. pose proof (uc_length _ Hch) as Hl. rewrite length_split in Hn.
  destruct (decide (n < String.length ch)%nat) as [Hlt|Hge].
  - destruct n as [|n]; [done|]. by rewrite boundary_inside in Hb by (done || lia).
  - replace n with (String.length ch + (n - String.length ch))%nat in * by lia.
    set (m := (n - String.length ch)%nat) in *. rewrite stake_add, stake_app, sdrop_app, (uc_valid _ Hch).
    rewrite boundary_beyond in Hb by lia. apply IH; [lia|]. unfold is_char_boundary. by destruct m, (sdrop _ rest).
Qed.
Lemma boundary_near s :
  valid_utf8 s = true -> forall n, (n <= String.length s)%nat ->
  exists k, (k <= n <= k + 3)%nat /\ is_char_boundary s k = true.
Proof.
  apply (utf8_ind (fun s => forall n, (n <= String.length s)%nat ->
    exists k, (k <= n <= k + 3)%nat /\ is_char_boundary s k = true)).
  { intros n Hn. cbn in Hn. exists 0%nat. split; [lia|done]. }
  intros ch rest Hch Hrest IH n Hn. pose proof (uc_length _ Hch) as Hl. rewrite length_split in Hn.
  destruct (decide (n < String.length ch)%nat) as [Hlt|Hge]; [exists 0%nat; split; [lia|done]|].
  destruct (IH (n - String.length ch)%nat ltac:(lia)) as (k & Hk & Hb).
  exists (String.length ch + k)%nat. split; [lia|]. rewrite boundary_beyond by lia.
  destruct k as [|k]; [by apply (lead_boundary rest)|]. unfold is_char_boundary in Hb. by destruct (sdrop (S k) rest).
Qed.
Lemma floor_boundary_spec s n :
  let m := floor_boundary s n in
  (m <= n)%nat /\ is_char_boundary s m = true
  /\ forall k, (k <= n)%nat -> is_char_boundary s k = true -> (k <= m)%nat.
Proof.
  cbv zeta. induction n as [|n IH]; cbn [floor_boundary]; [split_and!; [done|done|lia]|].
  destruct (is_char_boundary s (S n)) eqn:Hb; [split_and!; [done|done|lia]|].
  destruct IH as (H1 & H2 & H3). split_and!; [lia|done|]. intros k Hk Hkb. apply H3; [|done].
  destruct (decide (k = S n)) as [->|]; [congruence|lia].
Qed.

(** ** Diagnostics *)

Lemma digits_utf8 s : all_bytes is_ascii_digit s = true -> valid_utf8 s = true.
Proof. apply ascii_utf8. intros c. unfold is_ascii_digit, between. lia. Qed.
Lemma all_bytes_drop_zeros p s : all_bytes p s = true -> all_bytes p (drop_zeros s) = true.
Proof.
  induction s as [|c [|d s] IH]; [done|done|]. intros Hs. cbn [drop_zeros].
  destruct (Ascii.eqb c "0"); [|done]. apply IH. cbn [all_bytes] in *. by apply andb_prop in Hs as [_ Hs].
Qed.
Lemma marker_utf8 omitted : valid_utf8 (truncation_marker omitted) = true.
Proof.
  unfold truncation_marker. change (String "010" ?s) with (String "010" "" ++ s).
  rewrite valid_app, valid_app, valid_app by (try reflexivity; apply digits_utf8, all_bytes_drop_zeros, fmt_padded_digits).
  reflexivity.
Qed.

(** Capping diagnostics never breaks them: the result is valid UTF-8.  Text
    within the limit, or with no limit, is unchanged.  Longer text keeps a
    prefix of at most the limit and at least three bytes less, followed by the
    marker that counts exactly the bytes that were dropped. *)
Theorem cap_diagnostics_safe s max :
  valid_utf8 s = true -> (forall limit, max = Some limit -> 0 <= limit) ->
  valid_utf8 (cap_diagnostics s max) = true
  /\ ((forall limit, max = Some limit -> slen s <= limit) -> cap_diagnostics s max = s)
  /\ (forall limit, max = Some limit -> limit < slen s -> exists kept dropped,
        s = kept ++ dropped /\ limit - 3 <= slen kept <= limit
        /\ cap_diagnostics s max = kept ++ truncation_marker (slen dropped)).
Proof.
  intros Hv Hmax. destruct max as [limit|]; [|by split_and!]. specialize (Hmax limit eq_refl). cbn.
  destruct (Z.ltb_spec limit (slen s)) as [Hlt|Hge].
  2: { split_and!; [done|done|]. intros ? [= <-] ?. lia. }
  destruct (floor_boundary_spec s (Z.to_nat limit)) as (Hle & Hb & Hmost).
  destruct (boundary_near s Hv (Z.to_nat limit)) as (k & Hk & Hkb); [unfold slen in Hlt; lia|].
  specialize (Hmost k ltac:(lia) Hkb). set (m := floor_boundary s (Z.to_nat limit)) in *.
  pose proof (slen_stake m s) as Hs1. pose proof (slen_sdrop m s) as Hs2.
  split_and!.
  - rewrite valid_app; [apply marker_utf8|]. apply boundary_valid; [done|unfold slen in *; lia|done].
  - intros H. specialize (H limit eq_refl). lia.
  - intros ? [= <-] _. exists (stake m s), (sdrop m s). split_and!; [by rewrite stake_sdrop|lia|lia|].
    rewrite Hs2. do 2 f_equal. lia.
Qed.
(** A two-byte character across the limit is dropped whole. *)
Lemma cap_diagnostics_safe_witness :
  let s := "ab" ++ String "195" (String "169" "cdef") in
  exists kept dropped, s = kept ++ dropped /\ 0 <= slen kept <= 3
    /\ cap_diagnostics s (Some 3) = kept ++ truncation_marker (slen dropped).
Proof.
  intros s. destruct (cap_diagnostics_safe s (Some 3)) as (_ & _ & H).
  - reflexivity.
  - intros ? [= <-]. lia.
  - exact (H 3 eq_refl eq_refl).
Defined.

(** ** The content digest *)

Definition field_sized (f : CachedFile) : Prop :=
  slen (name f) <= u64_max /\ slen (hash f) <= u64_max /\ 0 <= size f <= u64_max.

Lemma file_fields_inj f1 f2 r1 r2 :
  field_sized f1 -> field_sized f2 -> file_fields f1 ++ r1 = file_fields f2 ++ r2 -> f1 = f2 /\ r1 = r2.
Proof.
  intros (Hn1 & Hh1 & Hs1) (Hn2 & Hh2 & Hs2). unfold file_fields, fold_field. rewrite <- !string_app_assoc.
  intros E. apply len_prefix_inj in E as [En E]; [|done..].
  apply len_prefix_inj in E as [Eh E]; [|done..].
  apply len_prefix_inj in E as [Es E]; [|rewrite slen_to_le_bytes; done..].
  apply len_prefix_inj in E as [Ee E]; [|done..].
  apply to_le_bytes_inj in Es; [|unfold u64_max in *; cbn; lia..].
  split; [|done]. destruct f1 as [? ? ? []], f2 as [? ? ? []]; cbn in *; congruence.
Qed.
Lemma file_fields_not_nil f r : file_fields f ++ r <> "".
Proof. done. Qed.
Lemma concat_fields_inj l1 l2 :
  Forall field_sized l1 -> Forall field_sized l2 ->
  concat_str (map file_fields l1) = concat_str (map file_fields l2) -> l1 = l2.
Proof.
  intros H1. revert l2. induction H1 as [|f1 l1 Hf1 _ IH]; intros l2 H2 E.
  - destruct l2 as [|f2 l2]; [done|]. symmetry in E. by apply file_fields_not_nil in E.
  - destruct H2 as [|f2 l2 Hf2 H2]; [by apply file_fields_not_nil in E|].
    cbn [map concat_str] in E. apply file_fields_inj in E as [-> E]; [|done..]. f_equal. by apply IH.
Qed.

(** The content digest identifies file sets.  Two lists fed to the hasher as
    the same bytes hold the same files, with multiplicity; and lists of
    distinctly named files that hold the same files are fed as the same bytes,
    in whatever order they were collected. *)
Theorem content_preimage_identifies files1 files2 :
  Forall field_sized files1 -> Forall field_sized files2 ->
  (content_preimage files1 = content_preimage files2 -> files1 ≡ₚ files2)
  /\ (NoDup (map name files1) -> files1 ≡ₚ files2 -> content_preimage files1 = content_preimage files2).
Proof.
  intros H1 H2. unfold content_preimage. split.
  - intros E. apply concat_fields_inj in E; [|by apply Forall_sort_by..].
    by rewrite <- (sort_by_perm file_leb files1), E, sort_by_perm.
  - intros Hnd Hp. f_equal. f_equal. apply sort_by_perm_eq_on; [intros; apply pair_leb_total|..|done].
    + intros x y z. apply pair_leb_trans.
    + intros x y Hx Hy Hxy Hyx. apply pair_leb_fst in Hxy, Hyx. cbn in *.
      apply (NoDup_map_inj name files1); auto using string_leb_antisym.
Qed.
Lemma content_preimage_identifies_witness :
  let f1 := {| name := "liba.rlib"; size := 7; hash := "h1"; executable := false |} in
  let f2 := {| name := "liba.d"; size := 0; hash := "h2"; executable := true |} in
  content_preimage [f1; f2] = content_preimage [f2; f1].
Proof.
  intros f1 f2. apply (content_preimage_identifies [f1; f2] [f2; f1]).
  - repeat constructor; discriminate.
  - repeat constructor; discriminate.
  - repeat constructor; set_solver.
  - constructor.
Defined.

(** ** Waiting out a transient state *)

(** The sleeps before the [n]-th attempt. *)
Fixpoint total_backoff (n : nat) : Z :=
  match n with O => 0 | S n => total_backoff n + rename_backoff_ms (Z.of_nat n) end.

Lemma retry_loop_settles {E A} (is_transient : E -> bool) (op : Z -> result E A) tries a slept :
  Z.of_nat (a + S tries) = TRANSIENT_ATTEMPTS -> exists n,
  (a <= n)%nat /\ Z.of_nat n < TRANSIENT_ATTEMPTS
  /\ retry_loop is_transient op (S tries) (Z.of_nat a) slept
     = (Some (op (Z.of_nat n)), slept + (total_backoff n - total_backoff a))
  /\ (forall m, (a <= m < n)%nat -> exists e, op (Z.of_nat m) = Err e /\ is_transient e = true)
  /\ (forall e, op (Z.of_nat n) = Err e -> is_transient e = true -> Z.of_nat n = TRANSIENT_ATTEMPTS - 1).
Proof.
  revert a slept. induction tries as [|tries IH]; intros a slept Ha; cbn [retry_loop];
    destruct (op (Z.of_nat a)) as [v|e] eqn:Eo; unfold should_retry_transient.
  1,3: exists a; split_and!; [lia|lia|rewrite Eo; f_equal; lia|intros; lia|congruence].
  - rewrite (proj2 (Z.ltb_ge _ _)), andb_false_r by lia. exists a.
    split_and!; [lia|lia|rewrite Eo; f_equal; lia|intros; lia|intros; lia].
  - rewrite (proj2 (Z.ltb_lt _ _)), andb_true_r by lia. destruct (is_transient e) eqn:Ht.
    + destruct (IH (S a) (slept + rename_backoff_ms (Z.of_nat a))) as (n & Hn & Hb & Hl & Hm & Hlast); [lia|].
      replace (Z.of_nat a + 1) with (Z.of_nat (S a)) by lia.
      exists n. split_and!; [lia|lia| | |done].
      * change (retry_loop is_transient op (S tries) (Z.of_nat (S a)) (slept + rename_backoff_ms (Z.of_nat a))
          = (Some (op (Z.of_nat n)), slept + (total_backoff n - total_backoff a))).
        rewrite Hl. f_equal. cbn [total_backoff]. lia.
      * intros m Hm'. destruct (decide (m = a)) as [->|]; [eauto|]. apply Hm. lia.
    + exists a. split_and!; [lia|lia|rewrite Eo; f_equal; lia|intros; lia|intros; congruence].
Qed.
Lemma total_backoff_bound n : Z.of_nat n < TRANSIENT_ATTEMPTS -> 0 <= total_backoff n <= 255.
Proof.
  unfold TRANSIENT_ATTEMPTS. intros Hn. do 10 (destruct n as [|n]; [by vm_compute|]). lia.
Qed.

Lemma retry_transient_result {E A} (is_transient : E -> bool) (op : Z -> result E A) :
  exists n, (n < 10)%nat
  /\ retry_transient is_transient op = (Some (op (Z.of_nat n)), total_backoff n)
  /\ (forall m, (m < n)%nat -> exists e, op (Z.of_nat m) = Err e /\ is_transient e = true)
  /\ (forall e, op (Z.of_nat n) = Err e -> is_transient e = true -> n = 9%nat).
Proof.
  destruct (retry_loop_settles is_transient op 9 0 0 eq_refl) as (n & _ & Hb & Hl & Hm & Hlast).
  exists n. unfold TRANSIENT_ATTEMPTS in *.
  split_and!; [lia| | |intros e He Ht; specialize (Hlast e He Ht); lia].
  - unfold retry_transient. change (Z.to_nat TRANSIENT_ATTEMPTS) with 10%nat. etrans; [exact Hl|]. f_equal. cbn. lia.
  - intros m ?. apply Hm. lia.
Qed.

(** Waiting out a transient state is bounded and never panics.  The result
    is what the operation answered on some attempt, the last one made; every
    attempt before it failed transiently; a transient failure is only reported
    by the tenth attempt; and at most 255 ms are slept. *)
Theorem retry_transient_settles {E A} (is_transient : E -> bool) (op : Z -> result E A) :
  exists n slept, (n < 10)%nat /\ 0 <= slept <= 255
  /\ retry_transient is_transient op = (Some (op (Z.of_nat n)), slept)
  /\ (forall m, (m < n)%nat -> exists e, op (Z.of_nat m) = Err e /\ is_transient e = true)
  /\ (forall e, op (Z.of_nat n) = Err e -> is_transient e = true -> n = 9%nat).
Proof.
  destruct (retry_transient_result is_transient op) as (n & Hn & H). exists n, (total_backoff n).
  split_and!; [done|apply total_backoff_bound; unfold TRANSIENT_ATTEMPTS; lia..| | |]; apply H.
Qed.

Lemma attempt_err {E} (r : result E unit) d e : publish_attempt_outcome r d = Err e -> r = Err e /\ d <> DestFile.
Proof. destruct r; cbn; [done|]. destruct (decide (d = DestFile)); [done|]. by intros [= ->]. Qed.
Lemma attempt_ok {E} (r : result E unit) d out : publish_attempt_outcome r d = Ok out ->
  (r = Ok tt /\ out = Published) \/ ((exists e, r = Err e) /\ d = DestFile /\ out = LostRace).
Proof. destruct r as [[]|e]; cbn; [by intros [= <-]; left|]. destruct (decide (d = DestFile)); [|done]. intros [= <-]; eauto 6. Qed.

(** A publish rename always settles, and truthfully.  [Published] means one
    of at most ten renames succeeded; [LostRace] means a file was seen at the
    destination after a rename had failed; [Deferred] means ten renames all
    failed transiently, none with a file at the destination, which is vacant at
    the end; an error is the one a rename reported, with no file at the
    destination. *)
Theorem publish_rename_settles {E} (is_transient : E -> bool) rename dest_state final_dest :
  exists out, publish_rename is_transient rename dest_state final_dest = Some out
  /\ match out with
     | Ok Published => exists n, (n < 10)%nat /\ rename (Z.of_nat n) = Ok tt
     | Ok LostRace => exists n e, (n < 10)%nat /\ rename (Z.of_nat n) = Err e
         /\ (dest_state (Z.of_nat n) = DestFile \/ final_dest = DestFile)
     | Ok Deferred => final_dest = DestVacant /\ forall n, (n < 10)%nat -> exists e,
         rename (Z.of_nat n) = Err e /\ is_transient e = true /\ dest_state (Z.of_nat n) <> DestFile
     | Err e => final_dest <> DestFile /\ exists n, (n < 10)%nat /\ rename (Z.of_nat n) = Err e
         /\ dest_state (Z.of_nat n) <> DestFile /\ (is_transient e = true -> final_dest = DestObstructed)
     end.
Proof.
  destruct (retry_transient_result is_transient (fun n => publish_attempt_outcome (rename n) (dest_state n)))
    as (n & Hn & Hr & Hm & Hlast).
  unfold publish_rename. rewrite Hr. cbn. clear Hr.
  destruct (publish_attempt_outcome (rename (Z.of_nat n)) (dest_state (Z.of_nat n))) as [out|e] eqn:Eo.
  { eexists; split; [reflexivity|]. apply attempt_ok in Eo as [(? & ->)|((e & ?) & ? & ->)]; eauto 8. }
  eexists; split; [reflexivity|]. specialize (Hlast e eq_refl). apply attempt_err in Eo as [Hre Hd].
  destruct final_dest, (is_transient e) eqn:Ht; cbn; eauto 8; try by (split; [done|]; exists n; split_and!; congruence).
  split; [done|]. intros m Hlt. specialize (Hlast eq_refl). subst n.
  destruct (decide (m = 9%nat)) as [->|]; [eauto|].
  destruct (Hm m) as (e' & He' & ?); [lia|]. apply attempt_err in He' as []. eauto.
Qed.

(** ** Names cannot leave the store

    What the validators of [kache-format] guarantee once a name is joined onto a
    directory, by the store or by a restore. *)

(** A stored artifact name stays below the directory it is joined to: the
    result has the directory's components followed by one or more normal ones,
    so no [..], root or [.] can move it elsewhere. *)
Theorem stored_name_contained dir n :
  is_safe_stored_artifact_name n = true ->
  exists first tail, components (join dir n) = (components dir ++ (Normal <$> first :: tail))%list.
Proof.
  intros (first & tail & Hn & _)%safe_stored_components. exists first, tail.
  by apply components_join_normal.
Qed.
Lemma stored_name_contained_witness :
  exists first tail, components (join "/target" "out/gen/a.rs")
                     = (components "/target" ++ (Normal <$> first :: tail))%list.
Proof. apply (stored_name_contained "/target" "out/gen/a.rs"). vm_compute. reflexivity. Defined.

Lemma hex_component h : is_blob_hash h = true -> components h = [Normal h].
Proof.
  unfold is_blob_hash. intros Hh. bool_to_prop.
  apply components_no_slash; try (intros ->; discriminate).
  eapply all_bytes_impl; [|done]. intros c Hc. apply byte_ne_slash.
  unfold is_ascii_hexdigit, is_ascii_digit, between in Hc. lia.
Qed.
Lemma all_bytes_stake p n s : all_bytes p s = true -> all_bytes p (stake n s) = true.
Proof.
  revert s. induction n as [|n IH]; intros [|c s]; cbn; try done.
  intros Hs. bool_to_prop. apply andb_true_iff. auto.
Qed.
Lemma hex_prefix_component h :
  is_blob_hash h = true -> get_prefix 2 h = Some (stake 2 h) /\ components (stake 2 h) = [Normal (stake 2 h)].
Proof.
  intros Hh. pose proof Hh as Hh'. unfold is_blob_hash in Hh'. bool_to_prop.
  destruct h as [|a [|b h]]; [done|done|]. unfold get_prefix. cbn [sdrop stake].
  rename select (all_bytes _ _ = true) into Hall. cbn [all_bytes] in Hall. bool_to_prop.
  split.
  - destruct (Z.of_nat 2 <=? _) eqn:El; [|bool_to_prop; lia]. cbn [andb].
    destruct h as [|c h]; [done|]. cbn [all_bytes] in *. bool_to_prop.
    assert (continuation c = false) as ->; [|done]. unfold continuation, is_ascii_hexdigit,
      is_ascii_digit, between in *. lia.
  - apply components_no_slash; try congruence.
    + cbn [all_bytes]. rewrite !byte_ne_slash; [done|..];
        unfold is_ascii_hexdigit, is_ascii_digit, between in *; lia.
    + intros E. injection E as -> ->. discriminate.
Qed.

(** Cache keys and blob hashes from untrusted metadata name exactly one
    place: a valid key is one directory directly below the store, and a blob
    lives at [blobs/<two digits>/<digest>]; neither can name a path outside. *)
Theorem store_paths_contained store_dir key h :
  is_valid_cache_key key = true -> is_blob_hash h = true ->
  components (entry_dir store_dir key) = (components store_dir ++ [Normal key])%list /\
  components (blob_path_in_store_dir store_dir h)
  = (components store_dir ++ [Normal "blobs"; Normal (stake 2 h); Normal h])%list.
Proof.
  intros Hk Hh. split.
  - apply (components_join_normal _ _ [key]). by apply valid_cache_key_component.
  - destruct (hex_prefix_component h Hh) as [Hp Hpc]. unfold blob_path_in_store_dir. rewrite Hp.
    cbn [default]. rewrite (components_join_normal _ _ [h]) by (by apply hex_component).
    rewrite (components_join_normal _ _ [stake 2 h]) by done.
    rewrite (components_join_normal _ _ ["blobs"]) by done. by rewrite <- !app_assoc.
Qed.
Lemma store_paths_contained_witness :
  components (entry_dir "/cache/store" (fmt_padded 64 7))
  = (components "/cache/store" ++ [Normal (fmt_padded 64 7)])%list.
Proof.
  apply (store_paths_contained "/cache/store" (fmt_padded 64 7) (fmt_padded 64 8));
    vm_compute; reflexivity.
Defined.

(** A trailing separator passes for a single component: the name validator
    accepts ["a/"], although its contract says a name has no separators. *)
Theorem trailing_separator_is_accepted :
  is_safe_artifact_name "a/" = true /\ is_safe_stored_artifact_name "a/." = true /\
  components "a/" = components "a".
Proof. split_and!; reflexivity. Qed.
