(* ===== verification/StoreIndex.v ===== *)
(** * The store's SQLite index

    The derived tables of [crates/kache-store/src/store.rs] and the statements
    that maintain them: [entries], [blobs] (content address, size, refcount) and
    [entry_blobs] (how many references each entry holds on each blob).  A table
    is a finite map from its primary key; a statement is a function on the
    database. *)

From S2P Require Import Prelude Strings Format.
#[local] Open Scope Z_scope.

(** ** Tables *)

(** The columns of [entries] the modelled statements read or write.  Times are
    seconds since the epoch. *)
Record EntryRow := {
  er_crate_name : string;
  er_size : Z;
  er_last_accessed : Z;
  er_hit_count : Z;
  er_committed : bool;
  er_durable : bool;
  er_content_hash : string;
  er_compile_time_ms : Z;
  er_key_schema : Z;
  er_imported_at : option Z;
}.
Record BlobRow := { br_size : Z; br_refcount : Z }.
Record Db := {
  entries : gmap string EntryRow;
  blobs : gmap string BlobRow;
  entry_blobs : gmap (string * string) Z;
}.

Definition set_entries (f : gmap string EntryRow -> gmap string EntryRow) (db : Db) : Db :=
  {| entries := f (entries db); blobs := blobs db; entry_blobs := entry_blobs db |}.
Definition set_blobs (f : gmap string BlobRow -> gmap string BlobRow) (db : Db) : Db :=
  {| entries := entries db; blobs := f (blobs db); entry_blobs := entry_blobs db |}.
Definition set_entry_blobs (f : gmap (string * string) Z -> gmap (string * string) Z) (db : Db)
    : Db :=
  {| entries := entries db; blobs := blobs db; entry_blobs := f (entry_blobs db) |}.
Definition with_refcount (rc : Z) (row : BlobRow) : BlobRow :=
  {| br_size := br_size row; br_refcount := rc |}.

(** ** Statements *)

(** [SELECT SUM(refs) FROM entry_blobs WHERE hash = ?] *)
Definition mapping_total (eb : gmap (string * string) Z) (h : string) : Z :=
  map_fold (fun kh refs acc => if decide (kh.2 = h) then refs + acc else acc) 0 eb.
(** [SELECT refs FROM entry_blobs WHERE cache_key = ? AND hash = ?], 0 if none. *)
Definition refs_of (eb : gmap (string * string) Z) (key h : string) : Z :=
  default 0 (eb !! (key, h)).
Definition delete_mappings (key : string) (eb : gmap (string * string) Z)
    : gmap (string * string) Z :=
  filter (fun row => row.1.1 <> key) eb.

(** [floor_blob_refs_at_mappings] *)
Definition floor_blob_refs_at_mappings (key : string) (db : Db) : Db :=
  set_blobs (map_imap (fun h row =>
    Some (match entry_blobs db !! (key, h) with
          | Some _ => with_refcount (Z.max (br_refcount row) (mapping_total (entry_blobs db) h)) row
          | None => row
          end))) db.

(** The two [blobs] statements of [release_entry_blob_refs]. *)
Definition subtract_mapping (key : string) (db : Db) : Db :=
  set_blobs (map_imap (fun h row =>
    Some (match entry_blobs db !! (key, h) with
          | Some refs => with_refcount (Z.max 0 (br_refcount row - refs)) row
          | None => row
          end))) db.
Definition delete_unreferenced (key : string) (db : Db) : Db :=
  set_blobs (map_imap (fun h row =>
    match entry_blobs db !! (key, h) with
    | Some _ => if br_refcount row <=? 0 then None else Some row
    | None => Some row
    end)) db.

(** [release_entry_blob_refs] *)
Definition release_entry_blob_refs (key : string) (db : Db) : Db :=
  let db := floor_blob_refs_at_mappings key db in
  let db := subtract_mapping key db in
  let db := delete_unreferenced key db in
  set_entry_blobs (delete_mappings key) db.

(** [u64 as i64] *)
Definition as_i64 (z : Z) : Z := if z <=? i64_max then z else z - (u64_max + 1).

(** [INSERT OR IGNORE INTO blobs .. VALUES (?, ?, 1)], else
    [UPDATE blobs SET refcount = refcount + 1] *)
Definition add_blob_ref (db : Db) (file : CachedFile) : Db :=
  set_blobs (fun bs =>
    match bs !! hash file with
    | None => <[hash file := {| br_size := as_i64 (size file); br_refcount := 1 |}]> bs
    | Some row => <[hash file := with_refcount (br_refcount row + 1) row]> bs
    end) db.

(** [record_entry_blobs] *)
Definition record_entry_blobs (key : string) (files : list CachedFile) (db : Db) : Db :=
  let db := set_entry_blobs (delete_mappings key) db in
  fold_left (fun db file =>
    set_entry_blobs (fun eb => <[(key, hash file) := refs_of eb key (hash file) + 1]> eb) db)
    files db.

(** The statements every publisher runs for one generation: release what the
    key held, take one reference per file, record the mapping. *)
Definition publish_refs (key : string) (files : list CachedFile) (db : Db) : Db :=
  record_entry_blobs key files (fold_left add_blob_ref files (release_entry_blob_refs key db)).

(** The statements of a batch import that undo an uncommitted row of the key,
    and those that delete every blob row without references. *)
Definition drop_uncommitted (key : string) (db : Db) : Db :=
  match entries db !! key with
  | Some row =>
      if er_committed row then db
      else set_entries (delete key) (set_entry_blobs (delete_mappings key) (subtract_mapping key db))
  | None => db
  end.
Definition delete_dead_blobs (db : Db) : Db :=
  set_blobs (filter (fun row => 0 < br_refcount row.2)) db.

(** [holds_last_reference] *)
Definition holds_last_reference (rc held : Z) : bool := (0 <? rc) && (rc <=? held).

(** [i64 as u64] *)
Definition as_u64 (z : Z) : Z := z mod (u64_max + 1).
(** [Store::total_size]: the logical size, once per entry. *)
Definition total_size (db : Db) : Z :=
  as_u64 (map_fold (fun _ row acc => er_size row + acc) 0 (entries db)).
(** [Store::physical_size]: each blob counted once. *)
Definition physical_size (db : Db) : Z :=
  as_u64 (map_fold (fun _ row acc => br_size row + acc) 0 (blobs db)).
(** [Store::entry_count] *)
Definition entry_count (db : Db) : Z := Z.of_nat (base.size (entries db)).

(** ** The decrement loop of [remove_entry_attempt]

    One [UPDATE .. refcount - 1] per file of the removed meta, deleting the row
    and remembering the unlink when it reaches zero. *)
Definition decrement_blob (st : Db * list (string * Z)) (h : string) : Db * list (string * Z) :=
  let '(db, unlink) := st in
  match blobs db !! h with
  | None => (db, unlink)
  | Some row =>
      let rc := br_refcount row - 1 in
      if rc <=? 0 then (set_blobs (delete h) db, (unlink ++ [(h, br_size row)])%list)
      else (set_blobs (<[h := with_refcount rc row]>) db, unlink)
  end.
Definition decrement_blobs (hashes : list string) (db : Db) : Db * list (string * Z) :=
  fold_left decrement_blob hashes (db, []).

(** The index half of a removal, after its row was deleted. *)
Definition unmap_entry (key : string) (hashes : list string) (db : Db) : Db * list (string * Z) :=
  let db := floor_blob_refs_at_mappings key db in
  let db := set_entry_blobs (delete_mappings key) db in
  decrement_blobs hashes db.

(** ** The refcount probe ([blob_drift.rs]) *)

Record BlobRefcountDrift := {
  unowned : Z;
  unowned_bytes : Z;
  too_high : Z;
  too_high_bytes : Z;
  too_low : Z;
  too_low_bytes : Z;
  unindexed : Z;
}.
(** The hashes some mapping names: [SELECT DISTINCT hash FROM entry_blobs]. *)
Definition mapped_hashes (eb : gmap (string * string) Z) : gset string :=
  set_map (fun kh : string * string => kh.2) (dom eb).
(** [COALESCE(SUM(CASE WHEN p THEN v END), 0)] over [blobs]. *)
Definition sum_blobs (p : string -> BlobRow -> bool) (v : BlobRow -> Z) (db : Db) : Z :=
  map_fold (fun h row acc => if p h row then v row + acc else acc) 0 (blobs db).

(** [blob_refcount_drift] *)
Definition blob_refcount_drift (db : Db) : BlobRefcountDrift :=
  let eb := entry_blobs db in
  let is_unowned h (_ : BlobRow) := bool_decide (h ∉ mapped_hashes eb) in
  let is_high h row := bool_decide (h ∈ mapped_hashes eb)
                         && (mapping_total eb h <? br_refcount row) in
  let is_low h row := bool_decide (h ∈ mapped_hashes eb)
                        && (br_refcount row <? mapping_total eb h) in
  let count p := Z.max 0 (sum_blobs p (fun _ => 1) db) in
  let bytes p := Z.max 0 (sum_blobs p br_size db) in
  {| unowned := count is_unowned; unowned_bytes := bytes is_unowned;
     too_high := count is_high; too_high_bytes := bytes is_high;
     too_low := count is_low; too_low_bytes := bytes is_low;
     unindexed := Z.of_nat (base.size (mapped_hashes eb ∖ dom (blobs db))) |}.

(** [BlobRefcountDrift::mismatched], [is_clean] *)
Definition mismatched (d : BlobRefcountDrift) : Z :=
  saturating_add u64_max (saturating_add u64_max (saturating_add u64_max
    (unowned d) (too_high d)) (too_low d)) (unindexed d).
Definition is_clean (d : BlobRefcountDrift) : bool := mismatched d =? 0.
