(* ===== verification/StoreIndexProofs.v ===== *)
(** * The index keeps its books

    Lookup equations for the statements of [StoreIndex], the invariant that ties
    [blobs.refcount] to [SUM(entry_blobs.refs)], and what the statements do to
    an index that has already drifted. *)

From S2P Require Import Prelude Strings Format StoreIndex.
#[local] Open Scope Z_scope.

(** ** Sums over the mapping *)

(** How many of [files] are [h]. *)
Definition count (h : string) (hashes : list string) : Z :=
  Z.of_nat (count_occ String.string_dec hashes h).

Lemma count_cons h x l : count h (x :: l) = (if decide (x = h) then 1 else 0) + count h l.
Proof.
  unfold count. cbn [count_occ]. destruct (String.string_dec x h), (decide (x = h)); try done; lia.
Qed.
Lemma count_nonneg h l : 0 <= count h l.
Proof. unfold count. lia. Qed.
Lemma count_pos h l : 0 < count h l <-> h ∈ l.
Proof.
  unfold count. rewrite list_elem_of_In, (count_occ_In String.string_dec). lia.
Qed.
Lemma count_zero h l : count h l = 0 <-> h ∉ l.
Proof. rewrite <- count_pos. pose proof (count_nonneg h l). lia. Qed.
#[export] Hint Resolve count_nonneg : kache.

Abbreviation weight h := (fun (kh : string * string) (refs acc : Z) =>
  if decide (kh.2 = h) then refs + acc else acc).

Lemma weight_comm h (j1 j2 : string * string) (z1 z2 y : Z) :
  weight h j1 z1 (weight h j2 z2 y) = weight h j2 z2 (weight h j1 z1 y).
Proof. cbn beta. repeat case_decide; lia. Qed.

Lemma mapping_total_fresh eb k h' r h :
  eb !! (k, h') = None ->
  mapping_total (<[(k, h') := r]> eb) h = (if decide (h' = h) then r else 0) + mapping_total eb h.
Proof.
  intros Hf. unfold mapping_total. rewrite map_fold_insert_L; [|by intros; apply weight_comm|done].
  cbn. case_decide; lia.
Qed.
Lemma mapping_total_insert eb k h' r h :
  mapping_total (<[(k, h') := r]> eb) h
  = mapping_total eb h + (if decide (h' = h) then r - refs_of eb k h else 0).
Proof.
  unfold refs_of. destruct (eb !! (k, h')) as [r0|] eqn:E.
  - rewrite <- (insert_delete_id eb _ _ E) at 2.
    rewrite <- insert_delete_eq, !mapping_total_fresh by apply lookup_delete_eq.
    case_decide; [subst; rewrite E; cbn; lia|lia].
  - rewrite mapping_total_fresh by done. case_decide; [subst; rewrite E; cbn|]; lia.
Qed.

Lemma lookup_delete_mappings key eb k h :
  delete_mappings key eb !! (k, h) = if decide (k = key) then None else eb !! (k, h).
Proof.
  unfold delete_mappings. case_decide; subst.
  - apply map_lookup_filter_None. right. intros ? _ Hn. by apply Hn.
  - destruct (eb !! (k, h)) eqn:E.
    + apply map_lookup_filter_Some. done.
    + apply map_lookup_filter_None. by left.
Qed.
Lemma delete_mappings_insert key k h r eb :
  delete_mappings key (<[(k, h) := r]> eb)
  = if decide (k = key) then delete_mappings key eb else <[(k, h) := r]> (delete_mappings key eb).
Proof.
  apply map_eq. intros [k1 h1]. rewrite lookup_delete_mappings.
  case_decide as E1; case_decide as E2; subst; rewrite ?lookup_insert_ne, ?lookup_delete_mappings
    by congruence; try (by rewrite decide_True by done); try (by rewrite decide_False by done).
  destruct (decide ((k, h) = (k1, h1))) as [[= -> ->]|Hne]; [by rewrite !lookup_insert_eq|].
  rewrite !lookup_insert_ne by done. rewrite lookup_delete_mappings. by rewrite decide_False.
Qed.

(** Deleting a key's mapping takes exactly its references out of every sum. *)
Lemma mapping_total_delete key eb h :
  mapping_total (delete_mappings key eb) h = mapping_total eb h - refs_of eb key h.
Proof.
  induction eb as [|[k h'] r eb Hf IH] using map_ind.
  - unfold delete_mappings, refs_of. by rewrite map_filter_empty, lookup_empty.
  - rewrite delete_mappings_insert, mapping_total_fresh by done. unfold refs_of in *.
    case_decide as Ek; subst.
    + rewrite IH. destruct (decide (h' = h)) as [->|Hn].
      * rewrite lookup_insert_eq, Hf. cbn. lia.
      * rewrite lookup_insert_ne by congruence. lia.
    + rewrite mapping_total_fresh, IH by (rewrite lookup_delete_mappings; by rewrite decide_False).
      rewrite lookup_insert_ne by congruence. lia.
Qed.

Definition refs_positive (eb : gmap (string * string) Z) : Prop :=
  forall kh r, eb !! kh = Some r -> 0 < r.

Lemma mapping_total_nonneg eb h : refs_positive eb -> 0 <= mapping_total eb h.
Proof.
  induction eb as [|[k h'] r eb Hf IH] using map_ind; intros Hp; [done|].
  rewrite mapping_total_fresh by done.
  assert (0 < r) by (eapply Hp, lookup_insert_eq).
  assert (0 <= mapping_total eb h); [|case_decide; lia].
  apply IH. intros kh r' Hr. apply (Hp kh). rewrite lookup_insert_ne; [done|congruence].
Qed.
Lemma refs_positive_delete key eb : refs_positive eb -> refs_positive (delete_mappings key eb).
Proof. intros Hp [k h] r. rewrite lookup_delete_mappings. case_decide; [done|apply Hp]. Qed.
Lemma refs_of_nonneg eb key h : refs_positive eb -> 0 <= refs_of eb key h.
Proof. intros Hp. unfold refs_of. destruct (eb !! _) eqn:E; cbn; [|done]. apply Hp in E. lia. Qed.
#[export] Hint Resolve mapping_total_nonneg refs_positive_delete refs_of_nonneg : kache.

Lemma refs_of_le_total eb key h : refs_positive eb -> refs_of eb key h <= mapping_total eb h.
Proof.
  intros Hp. pose proof (mapping_total_nonneg _ h (refs_positive_delete key _ Hp)) as Hn.
  rewrite mapping_total_delete in Hn. lia.
Qed.
Lemma mapping_total_pos eb k h : refs_positive eb -> is_Some (eb !! (k, h)) -> 0 < mapping_total eb h.
Proof.
  intros Hp [r Hr]. pose proof (refs_of_le_total eb k h Hp) as Hle. unfold refs_of in Hle.
  rewrite Hr in Hle. apply Hp in Hr. cbn in Hle. lia.
Qed.
Lemma mapping_total_zero eb h : (forall k, eb !! (k, h) = None) -> mapping_total eb h = 0.
Proof.
  induction eb as [|[k h'] r eb Hf IH] using map_ind; intros Hn; [done|].
  assert (h' <> h) by (intros ->; specialize (Hn k); by rewrite lookup_insert_eq in Hn).
  rewrite mapping_total_fresh, decide_False by done. rewrite IH; [done|].
  intros k1. specialize (Hn k1). by rewrite lookup_insert_ne in Hn by congruence.
Qed.

(** ** Lookup equations of the statements *)

Lemma lookup_floor key db h :
  blobs (floor_blob_refs_at_mappings key db) !! h =
  row ← blobs db !! h;
  Some (match entry_blobs db !! (key, h) with
        | Some _ => with_refcount (Z.max (br_refcount row) (mapping_total (entry_blobs db) h)) row
        | None => row
        end).
Proof. unfold floor_blob_refs_at_mappings. cbn. by rewrite map_lookup_imap. Qed.

Lemma lookup_release key db h :
  blobs (release_entry_blob_refs key db) !! h =
  row ← blobs db !! h;
  match entry_blobs db !! (key, h) with
  | None => Some row
  | Some refs =>
      let rc := Z.max 0 (Z.max (br_refcount row) (mapping_total (entry_blobs db) h) - refs) in
      if rc <=? 0 then None else Some (with_refcount rc row)
  end.
Proof.
  unfold release_entry_blob_refs, delete_unreferenced, subtract_mapping. cbn.
  rewrite !map_lookup_imap.
  destruct (blobs db !! h) as [row|]; cbn; [|done]. by destruct (entry_blobs db !! (key, h)).
Qed.

Lemma release_entry_blobs key db :
  entry_blobs (release_entry_blob_refs key db) = delete_mappings key (entry_blobs db).
Proof. done. Qed.

(** [add_blob_ref] over the files of a generation. *)
Lemma lookup_add_refs files db h :
  blobs (fold_left add_blob_ref files db) !! h =
  match blobs db !! h with
  | Some row => Some (with_refcount (br_refcount row + count h (map hash files)) row)
  | None => f ← list_find (fun f => hash f = h) files;
            Some {| br_size := as_i64 (size f.2); br_refcount := count h (map hash files) |}
  end.
Proof.
  revert db. induction files as [|f files IH]; intros db; cbn [fold_left map].
  - destruct (blobs db !! h) as [[sz rc]|]; [|done]. unfold with_refcount. cbn.
    by rewrite Z.add_0_r.
  - rewrite IH, count_cons. unfold add_blob_ref at 1. cbn [set_blobs blobs list_find].
    destruct (decide (hash f = h)) as [->|Hne].
    + destruct (blobs db !! h) as [[sz rc]|]; rewrite lookup_insert_eq; cbn; [|done].
      unfold with_refcount. cbn. do 2 f_equal. lia.
    + rewrite Z.add_0_l.
      destruct (blobs db !! hash f); rewrite lookup_insert_ne by done;
        (destruct (blobs db !! h); [done|]); by destruct (list_find _ files) as [[]|].
Qed.
Lemma add_refs_entry_blobs files db :
  entry_blobs (fold_left add_blob_ref files db) = entry_blobs db.
Proof. revert db. induction files as [|f files IH]; intros db; [done|]. cbn. by rewrite IH. Qed.

Lemma lookup_record key files db k h :
  entry_blobs (record_entry_blobs key files db) !! (k, h) =
  if decide (k = key) then
    if decide (count h (map hash files) = 0) then None else Some (count h (map hash files))
  else entry_blobs db !! (k, h).
Proof.
  unfold record_entry_blobs.
  transitivity (
    if decide (count h (map hash files) = 0) then delete_mappings key (entry_blobs db) !! (k, h)
    else if decide (k = key) then
      Some (refs_of (delete_mappings key (entry_blobs db)) k h + count h (map hash files))
    else delete_mappings key (entry_blobs db) !! (k, h)).
  2:{ unfold refs_of. rewrite !lookup_delete_mappings. cbn. by repeat case_decide. }
  change (delete_mappings key (entry_blobs db))
    with (entry_blobs (set_entry_blobs (delete_mappings key) db)).
  generalize (set_entry_blobs (delete_mappings key) db) as d. clear db.
  induction files as [|f files IH]; intros d; cbn [fold_left map]; [by rewrite decide_True|].
  rewrite IH, count_cons. clear IH. cbn [set_entry_blobs entry_blobs].
  pose proof (count_nonneg h (map hash files)). unfold refs_of.
  destruct (decide (k = key)) as [->|Hk].
  2:{ rewrite lookup_insert_ne by congruence. by repeat case_decide. }
  destruct (decide (hash f = h)) as [->|Hh].
  - rewrite lookup_insert_eq. rewrite (decide_False (P := 1 + _ = 0)) by lia. cbn.
    case_decide; f_equal; lia.
  - rewrite lookup_insert_ne by congruence. rewrite Z.add_0_l. done.
Qed.
Lemma record_blobs key files db : blobs (record_entry_blobs key files db) = blobs db.
Proof.
  unfold record_entry_blobs. change (blobs db) with (blobs (set_entry_blobs (delete_mappings key) db)).
  generalize (set_entry_blobs (delete_mappings key) db) as d. clear db.
  induction files as [|f files IH]; intros d; [done|]. cbn [fold_left]. by rewrite IH.
Qed.
Lemma record_others key files db :
  delete_mappings key (entry_blobs (record_entry_blobs key files db))
  = delete_mappings key (entry_blobs db).
Proof.
  apply map_eq. intros [k h]. rewrite !lookup_delete_mappings, lookup_record. by case_decide.
Qed.
Lemma refs_of_record key files db h :
  refs_of (entry_blobs (record_entry_blobs key files db)) key h = count h (map hash files).
Proof. unfold refs_of. rewrite lookup_record, decide_True by done. by case_decide. Qed.
Lemma mapping_total_record key files db h :
  mapping_total (entry_blobs (record_entry_blobs key files db)) h
  = mapping_total (delete_mappings key (entry_blobs db)) h + count h (map hash files).
Proof.
  pose proof (mapping_total_delete key (entry_blobs (record_entry_blobs key files db)) h) as Hd.
  rewrite record_others, refs_of_record in Hd. lia.
Qed.

(** The decrement loop: [n] decrements of a row leave [rc - n], or delete it. *)
Definition decremented (n : Z) (row : BlobRow) : option BlobRow :=
  if n =? 0 then Some row
  else if br_refcount row - n <=? 0 then None
  else Some (with_refcount (br_refcount row - n) row).

Lemma lookup_decrement hashes st h :
  blobs (fold_left decrement_blob hashes st).1 !! h = blobs st.1 !! h ≫= decremented (count h hashes).
Proof.
  revert st. induction hashes as [|x hashes IH]; intros [db unlink]; cbn [fold_left].
  - by destruct (blobs _ !! h).
  - rewrite IH, count_cons. clear IH. pose proof (count_nonneg h hashes).
    unfold decrement_blob. cbn [fst].
    destruct (blobs db !! x) as [row|] eqn:Ex; cbn [fst].
    2:{ case_decide; [subst; by rewrite Ex|done]. }
    case_decide as Exh; subst.
    + rewrite Ex. cbn [mbind option_bind]. unfold decremented.
      destruct (br_refcount row - 1 <=? 0) eqn:Ez; cbn [fst set_blobs blobs].
      * rewrite lookup_delete_eq. cbn. bool_to_prop.
        rewrite (proj2 (Z.eqb_neq _ _)), (proj2 (Z.leb_le _ _)) by lia. done.
      * rewrite lookup_insert_eq. cbn. bool_to_prop.
        rewrite (proj2 (Z.eqb_neq (1 + _) _)) by lia. replace (br_refcount row - 1 - count h hashes)
          with (br_refcount row - (1 + count h hashes)) by lia.
        destruct (Z.eqb_spec (count h hashes) 0) as [->|]; [|done].
        rewrite (proj2 (Z.leb_gt _ _)) by lia. done.
    + destruct (br_refcount row - 1 <=? 0); cbn [fst set_blobs blobs].
      * by rewrite lookup_delete_ne.
      * by rewrite lookup_insert_ne.
Qed.
Lemma decrement_frame hashes st :
  entry_blobs (fold_left decrement_blob hashes st).1 = entry_blobs st.1 /\
  entries (fold_left decrement_blob hashes st).1 = entries st.1.
Proof.
  revert st. induction hashes as [|x hashes IH]; intros [db unlink]; [done|].
  cbn [fold_left]. destruct (IH (decrement_blob (db, unlink) x)) as [-> ->].
  unfold decrement_blob. cbn. destruct (blobs db !! x); [|done]. by case_match.
Qed.

(** What is scheduled for unlinking are exactly the rows the loop deleted. *)
Lemma elem_of_unlink hashes st h sz :
  (h, sz) ∈ (fold_left decrement_blob hashes st).2 <->
  (h, sz) ∈ st.2 \/
  exists row, blobs st.1 !! h = Some row /\ br_size row = sz /\
              blobs (fold_left decrement_blob hashes st).1 !! h = None.
Proof.
  revert st. induction hashes as [|x hashes IH]; intros [db unlink]; cbn [fold_left].
  - split; [by left|]. intros [?|(row & Hr & _ & Hd)]; [done|]. cbn in *. congruence.
  - rewrite IH. clear IH. unfold decrement_blob at 1 2 5. cbn [fst snd].
    destruct (blobs db !! x) as [row|] eqn:Ex; cbn [fst snd]; [|done].
    destruct (br_refcount row - 1 <=? 0) eqn:Ez; cbn [fst snd set_blobs blobs].
    + rewrite elem_of_app, list_elem_of_singleton. destruct (decide (x = h)) as [->|Hne].
      * assert (blobs (fold_left decrement_blob hashes (decrement_blob (db, unlink) h)).1 !! h
          = None) as Hgone.
        { rewrite lookup_decrement. cbn. rewrite Ex, Ez. cbn. by rewrite lookup_delete_eq. }
        rewrite lookup_delete_eq, Hgone, Ex. naive_solver.
      * rewrite lookup_delete_ne by done. naive_solver.
    + destruct (decide (x = h)) as [->|Hne]; [|by rewrite lookup_insert_ne].
      rewrite lookup_insert_eq, Ex. split; (intros [?|(r & [= <-] & <- & Hd)]; [by left|right]);
        eauto.
Qed.

Lemma publish_entries key files db : entries (publish_refs key files db) = entries db.
Proof.
  unfold publish_refs, record_entry_blobs.
  assert (forall d, entries (fold_left (fun db file => set_entry_blobs
    (fun eb => <[(key, hash file) := refs_of eb key (hash file) + 1]> eb) db) files d) = entries d)
    as Hrec by (induction files; intros d; cbn; [done|by rewrite IHfiles]).
  rewrite Hrec. clear Hrec. cbn. change (entries db) with (entries (release_entry_blob_refs key db)).
  generalize (release_entry_blob_refs key db). induction files as [|f fs IH]; intros d; [done|].
  cbn [fold_left]. by rewrite IH.
Qed.

(** ** The invariant *)

(** Every blob row counts exactly the references the mappings hold on it, and a
    hash without a row is held by nobody. *)
Record balanced (db : Db) : Prop := {
  balanced_refs : refs_positive (entry_blobs db);
  balanced_count : forall h,
    match blobs db !! h with
    | Some row => br_refcount row = mapping_total (entry_blobs db) h /\ 0 < br_refcount row
    | None => mapping_total (entry_blobs db) h = 0
    end;
}.

Lemma refs_positive_record key files db :
  refs_positive (entry_blobs db) -> refs_positive (entry_blobs (record_entry_blobs key files db)).
Proof.
  intros Hp [k h] r. rewrite lookup_record. pose proof (count_nonneg h (map hash files)).
  repeat case_decide; [done|intros [= <-]; lia|apply Hp].
Qed.

(** The references of every other entry, whatever the counts were. *)
Abbreviation others key eb h := (mapping_total (delete_mappings key eb) h).

Lemma floor_covers key db h row :
  blobs (floor_blob_refs_at_mappings key db) !! h = Some row ->
  is_Some (entry_blobs db !! (key, h)) -> mapping_total (entry_blobs db) h <= br_refcount row.
Proof.
  rewrite lookup_floor. intros Hl [r Hr]. rewrite Hr in Hl.
  destruct (blobs db !! h) as [row0|]; cbn in Hl; [|done]. injection Hl as <-. cbn. lia.
Qed.
Lemma release_balanced key db : balanced db -> balanced (release_entry_blob_refs key db).
Proof.
  intros Hb. pose proof (balanced_refs _ Hb) as Hp. split.
  { rewrite release_entry_blobs. auto with kache. }
  intros h. rewrite lookup_release, release_entry_blobs, mapping_total_delete. unfold refs_of.
  pose proof (balanced_count _ Hb h) as Hc. pose proof (refs_of_le_total _ key h Hp) as Hle.
  unfold refs_of in Hle.
  destruct (blobs db !! h) as [row|]; cbn [mbind option_bind].
  - destruct Hc as [Hc Hpos].
    destruct (entry_blobs db !! (key, h)) as [r|] eqn:Er; cbn in *; [|lia].
    rewrite Hc, Z.max_id, Z.max_r by lia. destruct (_ <=? 0) eqn:E; bool_to_prop; cbn; lia.
  - destruct (entry_blobs db !! (key, h)) as [r|] eqn:Er; cbn in *; [|lia].
    apply Hp in Er. lia.
Qed.

Lemma publish_refs_keeps_balance key files db :
  balanced db -> balanced (publish_refs key files db).
Proof.
  intros Hb%(release_balanced key). unfold publish_refs.
  set (db1 := release_entry_blob_refs key db) in *.
  assert (delete_mappings key (entry_blobs db1) = entry_blobs db1) as Hd.
  { apply map_eq. intros [k h]. subst db1. rewrite release_entry_blobs, !lookup_delete_mappings.
    by case_decide. }
  split; [apply refs_positive_record; rewrite add_refs_entry_blobs; apply Hb|].
  intros h. rewrite record_blobs, lookup_add_refs, mapping_total_record, add_refs_entry_blobs, Hd.
  pose proof (balanced_count _ Hb h) as Hc. pose proof (count_nonneg h (map hash files)).
  destruct (blobs db1 !! h) as [row|]; cbn in *; [lia|].
  destruct (list_find _ files) as [[i f]|] eqn:E; cbn.
  - apply list_find_Some in E as (Hi & <- & _).
    assert (0 < count (hash f) (map hash files)); [|lia].
    apply count_pos, list_elem_of_fmap. exists f. split; [done|]. by eapply list_elem_of_lookup_2.
  - rewrite Hc, (proj2 (count_zero h (map hash files))); [done|].
    intros (f & -> & Hf)%list_elem_of_fmap. apply list_find_None in E.
    rewrite Forall_forall in E. by apply (E f).
Qed.

(** ** Counts that may be too high

    A legacy migration may count a reference twice, so what every operation
    maintains is the one-sided version: no row counts less than the mappings
    hold. *)

Record covered (db : Db) : Prop := {
  covered_refs : refs_positive (entry_blobs db);
  covered_count : forall h,
    match blobs db !! h with
    | Some row => mapping_total (entry_blobs db) h <= br_refcount row /\ 0 < br_refcount row
    | None => mapping_total (entry_blobs db) h = 0
    end;
}.
Lemma balanced_covered db : balanced db -> covered db.
Proof.
  intros [Hr Hc]. split; [done|]. intros h. specialize (Hc h). destruct (blobs db !! h); lia.
Qed.

Lemma floor_covered key db h :
  covered db -> blobs (floor_blob_refs_at_mappings key db) !! h = blobs db !! h.
Proof.
  intros Hb. rewrite lookup_floor. pose proof (covered_count _ Hb h) as Hc.
  destruct (blobs db !! h) as [[sz rc]|]; cbn in *; [|done]. case_match; [|done].
  unfold with_refcount. cbn. do 2 f_equal. lia.
Qed.
Lemma release_covered key db : covered db -> covered (release_entry_blob_refs key db).
Proof.
  intros Hb. pose proof (covered_refs _ Hb) as Hp. split.
  { rewrite release_entry_blobs. auto with kache. }
  intros h. rewrite lookup_release, release_entry_blobs, mapping_total_delete. unfold refs_of.
  pose proof (covered_count _ Hb h) as Hc. pose proof (refs_of_le_total _ key h Hp) as Hle.
  unfold refs_of in Hle. pose proof (Hp (key, h)) as Hr.
  destruct (blobs db !! h) as [row|]; cbn [mbind option_bind];
    destruct (entry_blobs db !! (key, h)) as [r|] eqn:Er; cbn in *; try lia.
  - destruct (_ <=? 0) eqn:E; bool_to_prop; cbn; lia.
  - specialize (Hr r eq_refl). lia.
Qed.
Lemma add_refs_covered files db :
  covered db ->
  refs_positive (entry_blobs db) /\ forall h,
    match blobs (fold_left add_blob_ref files db) !! h with
    | Some row => mapping_total (entry_blobs db) h + count h (map hash files) <= br_refcount row
                  /\ 0 < br_refcount row
    | None => mapping_total (entry_blobs db) h + count h (map hash files) = 0
    end.
Proof.
  intros Hb. split; [apply Hb|]. intros h. rewrite lookup_add_refs.
  pose proof (covered_count _ Hb h) as Hc. pose proof (count_nonneg h (map hash files)).
  destruct (blobs db !! h) as [row|]; cbn in *; [lia|].
  destruct (list_find _ files) as [[i f]|] eqn:E; cbn.
  - apply list_find_Some in E as (Hi & <- & _).
    assert (0 < count (hash f) (map hash files)); [|lia].
    apply count_pos, list_elem_of_fmap. exists f. split; [done|]. by eapply list_elem_of_lookup_2.
  - rewrite Hc, (proj2 (count_zero h (map hash files))); [done|].
    intros (f & -> & Hf)%list_elem_of_fmap. apply list_find_None in E.
    rewrite Forall_forall in E. by apply (E f).
Qed.
Lemma delete_mappings_idem key eb :
  delete_mappings key (delete_mappings key eb) = delete_mappings key eb.
Proof. apply map_eq. intros [k h]. rewrite !lookup_delete_mappings. by case_decide. Qed.

Lemma publish_refs_covered key files db : covered db -> covered (publish_refs key files db).
Proof.
  intros Hb%(release_covered key). unfold publish_refs.
  destruct (add_refs_covered files _ Hb) as [Hp Hc].
  split; [apply refs_positive_record; by rewrite add_refs_entry_blobs|].
  intros h. rewrite record_blobs, mapping_total_record, add_refs_entry_blobs, release_entry_blobs,
    delete_mappings_idem. apply Hc.
Qed.
Lemma unmap_covered key hashes db :
  covered db -> (forall h, refs_of (entry_blobs db) key h = count h hashes) ->
  covered (unmap_entry key hashes db).1.
Proof.
  intros Hb Hm. pose proof (covered_refs _ Hb) as Hp. unfold unmap_entry, decrement_blobs.
  set (db1 := set_entry_blobs (delete_mappings key) (floor_blob_refs_at_mappings key db)).
  destruct (decrement_frame hashes (db1, [])) as [He _].
  split; [rewrite He; cbn; auto with kache|].
  intros h. rewrite He, lookup_decrement. cbn [fst].
  change (blobs db1) with (blobs (floor_blob_refs_at_mappings key db)).
  change (entry_blobs db1) with (delete_mappings key (entry_blobs db)).
  rewrite floor_covered, mapping_total_delete, Hm by done.
  pose proof (covered_count _ Hb h) as Hc. pose proof (count_nonneg h hashes).
  pose proof (refs_of_le_total _ key h Hp) as Hle. rewrite Hm in Hle.
  destruct (blobs db !! h) as [row|]; cbn in *; [|lia]. unfold decremented.
  destruct (count h hashes =? 0) eqn:E1; [bool_to_prop; lia|].
  destruct (_ <=? 0) eqn:E2; bool_to_prop; cbn; lia.
Qed.

(** The index half of a removal, for a mapping that matches the removed meta. *)
Lemma unmap_keeps_balance key hashes db :
  balanced db -> (forall h, refs_of (entry_blobs db) key h = count h hashes) ->
  balanced (unmap_entry key hashes db).1.
Proof.
  intros Hb Hm. pose proof (balanced_refs _ Hb) as Hp. unfold unmap_entry, decrement_blobs.
  set (db1 := set_entry_blobs (delete_mappings key) (floor_blob_refs_at_mappings key db)).
  destruct (decrement_frame hashes (db1, [])) as [He _].
  split; [rewrite He; cbn; auto with kache|].
  intros h. rewrite He, lookup_decrement. cbn [fst].
  change (blobs db1) with (blobs (floor_blob_refs_at_mappings key db)).
  change (entry_blobs db1) with (delete_mappings key (entry_blobs db)).
  rewrite floor_covered, mapping_total_delete, Hm by (by apply balanced_covered).
  pose proof (balanced_count _ Hb h) as Hc. pose proof (count_nonneg h hashes).
  pose proof (refs_of_le_total _ key h Hp) as Hle. rewrite Hm in Hle.
  destruct (blobs db !! h) as [row|]; cbn in *; [|lia]. unfold decremented.
  destruct (count h hashes =? 0) eqn:E1; [bool_to_prop; lia|].
  destruct (_ <=? 0) eqn:E2; bool_to_prop; cbn; lia.
Qed.

(** ** The drift probe *)

Lemma sum_blobs_zero p db :
  Z.max 0 (sum_blobs p (fun _ => 1) db) = 0
  <-> forall h row, blobs db !! h = Some row -> p h row = false.
Proof.
  unfold sum_blobs. enough (
    let sum := map_fold (fun h row acc => if p h row then 1 + acc else acc) 0 (blobs db) in
    0 <= sum /\ (sum = 0 <-> forall h row, blobs db !! h = Some row -> p h row = false)) as [H0 <-]
    by lia.
  cbv zeta. induction (blobs db) as [|k x m Hf [IH0 IH]] using map_ind; [done|].
  rewrite map_fold_insert_L; [|intros; repeat case_match; lia|done].
  set (sum := map_fold _ 0 m) in *. destruct (p k x) eqn:Ep.
  - split; [lia|]. split; [lia|]. intros Hall. specialize (Hall k x).
    rewrite lookup_insert_eq in Hall. rewrite Hall in Ep; done.
  - split; [done|]. rewrite IH. split; intros Hall h row Hl.
    + apply lookup_insert_Some in Hl as [[<- <-]|[_ Hl]]; [done|by apply Hall].
    + apply Hall. rewrite lookup_insert_ne; [done|]. intros ->. congruence.
Qed.
Lemma elem_of_mapped eb h : h ∈ mapped_hashes eb <-> exists k, is_Some (eb !! (k, h)).
Proof.
  unfold mapped_hashes. rewrite elem_of_map. split.
  - intros ([k h'] & -> & Hd%elem_of_dom). eauto.
  - intros [k Hk]. exists (k, h). split; [done|]. by apply elem_of_dom.
Qed.
Lemma mapped_total eb h : refs_positive eb -> (h ∈ mapped_hashes eb <-> mapping_total eb h <> 0).
Proof.
  intros Hp. split.
  - intros [k Hk]%elem_of_mapped. pose proof (mapping_total_pos eb k h Hp Hk). lia.
  - intros Hn. apply dec_stable. intros Hex. apply Hn, mapping_total_zero. intros k.
    destruct (eb !! (k, h)) eqn:E; [|done]. exfalso. apply Hex, elem_of_mapped. eauto.
Qed.
Lemma saturating_add_zero max a b :
  0 < max -> 0 <= a -> 0 <= b ->
  0 <= saturating_add max a b /\ (saturating_add max a b = 0 <-> a = 0 /\ b = 0).
Proof. unfold saturating_add. lia. Qed.
Lemma is_clean_iff d :
  Forall (Z.le 0) [unowned d; too_high d; too_low d; unindexed d] ->
  is_clean d = true <-> unowned d = 0 /\ too_high d = 0 /\ too_low d = 0 /\ unindexed d = 0.
Proof.
  rewrite !Forall_cons. intros (H1 & H2 & H3 & H4 & _). unfold is_clean, mismatched.
  assert (0 < u64_max) as Hu by done. rewrite Z.eqb_eq.
  destruct (saturating_add_zero u64_max _ _ Hu H1 H2) as [Hn1 E1].
  destruct (saturating_add_zero u64_max _ _ Hu Hn1 H3) as [Hn2 E2].
  destruct (saturating_add_zero u64_max _ _ Hu Hn2 H4) as [Hn3 E3].
  rewrite E3, E2, E1. tauto.
Qed.

(** The drift probe is exact: on an index whose mappings hold positive
    references, the SQL-only probe reports a clean index precisely when every
    blob row counts the references mapped to it and every mapped hash has a
    row. *)
Theorem drift_clean_iff_balanced db :
  refs_positive (entry_blobs db) -> is_clean (blob_refcount_drift db) = true <-> balanced db.
Proof.
  intros Hp. rewrite is_clean_iff.
  2:{ repeat constructor; cbn; lia. }
  cbn [blob_refcount_drift unowned too_high too_low unindexed]. rewrite !sum_blobs_zero.
  rewrite (Nat2Z.inj_iff _ 0), size_empty_iff. set (eb := entry_blobs db) in *. split.
  - intros (Hun & Hhi & Hlo & Hix). split; [done|]. intros h. fold eb.
    destruct (blobs db !! h) as [row|] eqn:Er.
    + specialize (Hun h row Er). specialize (Hhi h row Er). specialize (Hlo h row Er).
      cbv beta in *. apply bool_decide_eq_false in Hun. apply dec_stable in Hun.
      rewrite bool_decide_eq_true_2 in Hhi, Hlo by done. apply mapped_total in Hun; [|done].
      pose proof (mapping_total_nonneg eb h Hp). cbn in *. bool_to_prop. lia.
    + apply dec_stable. intros Hn%mapped_total; [|done].
      apply not_elem_of_dom in Er. set_solver.
  - intros Hb. pose proof (balanced_count _ Hb) as Hc. fold eb in Hc.
    split_and!; [intros h row Er; specialize (Hc h); rewrite Er in Hc..|].
    + apply bool_decide_eq_false_2. intros Hn. apply Hn, mapped_total; [done|]. lia.
    + rewrite (proj2 (Z.ltb_ge _ _)) by lia. apply andb_false_r.
    + rewrite (proj2 (Z.ltb_ge _ _)) by lia. apply andb_false_r.
    + intros h. split; [|set_solver]. intros [Hm Hd]%elem_of_difference. exfalso.
      apply mapped_total in Hm; [|done]. apply not_elem_of_dom in Hd. specialize (Hc h).
      by rewrite Hd in Hc.
Qed.

(** Giving references back never takes another entry's: on any index,
    drifted or not, republishing a key keeps the row of every blob some other
    entry maps, with at least as many references as the lesser of what the row
    counted and what the others hold, plus the new generation's own. *)
Theorem publish_never_steals key files db h row :
  refs_positive (entry_blobs db) ->
  blobs db !! h = Some row -> 0 < others key (entry_blobs db) h ->
  exists row', blobs (publish_refs key files db) !! h = Some row' /\ br_size row' = br_size row /\
    Z.min (br_refcount row) (others key (entry_blobs db) h) + count h (map hash files)
      <= br_refcount row'.
Proof.
  intros Hp Hrow Ho. unfold publish_refs. rewrite record_blobs, lookup_add_refs, lookup_release, Hrow.
  rewrite mapping_total_delete in *. unfold refs_of in *. cbn [mbind option_bind].
  destruct (entry_blobs db !! (key, h)) as [r|]; cbn in *.
  - rewrite (proj2 (Z.leb_gt _ _)) by lia. eexists. split; [done|]. cbn. lia.
  - eexists. split; [done|]. cbn. lia.
Qed.

(** Removing an entry leaves every other entry's references counted, even when
    the index had drifted before: a blob some other entry maps keeps its row,
    with at least the lesser of what the row counted and what the others hold,
    so the removal never schedules it for unlinking. *)
Theorem removal_never_steals key hashes db h row :
  refs_positive (entry_blobs db) ->
  refs_of (entry_blobs db) key h = count h hashes ->
  blobs db !! h = Some row -> 0 < others key (entry_blobs db) h ->
  exists row', blobs (unmap_entry key hashes db).1 !! h = Some row' /\ br_size row' = br_size row /\
    Z.min (br_refcount row) (others key (entry_blobs db) h) <= br_refcount row'.
Proof.
  intros Hp Hm Hrow Ho. unfold unmap_entry, decrement_blobs. rewrite lookup_decrement.
  cbn [fst set_entry_blobs blobs]. rewrite lookup_floor, Hrow. cbn [mbind option_bind].
  rewrite mapping_total_delete in *. rewrite <- Hm. unfold refs_of, decremented in *.
  pose proof (Hp (key, h)) as Hr.
  destruct (entry_blobs db !! (key, h)) as [r|] eqn:Er; cbn [default] in *.
  - specialize (Hr r eq_refl). cbn in *. rewrite (proj2 (Z.eqb_neq r 0)), (proj2 (Z.leb_gt _ _)) by lia.
    eexists. split; [done|]. cbn. lia.
  - cbn. exists row. split; [done|]. lia.
Qed.
