(* ===== verification/Store.v ===== *)
(** * The artifact store

    [Store] of [crates/kache-store/src/store.rs]: the index, the entry
    directories and the content-addressed blob files, and the operations that
    publish, read and remove entries.  An operation that opens a write
    transaction is one function on the state, because SQLite's writer lock
    serialises those; operations made of several transactions are split at the
    commits, so that other processes can run in between (see [StoreSteps]).

    Parameters: [blake3], [serde_json], the compiler's artifact policy, and the
    file-system probes that ask whether a blob is still shared outside the
    store. *)

From S2P Require Import Prelude Strings Codec Format StorePolicy StoreIndex.
#[local] Open Scope string_scope.
#[local] Open Scope Z_scope.

(** ** Metadata as a Rust value *)

#[export] Instance rust_cached_file : RustValue CachedFile := fun f =>
  valid_utf8 (name f) && u64_ok (size f) && valid_utf8 (hash f).
#[export] Instance rust_entry_meta : RustValue EntryMeta := fun m =>
  valid_utf8 (cache_key m) && u32_ok (key_schema m) && valid_utf8 (crate_name m)
  && well_typed (crate_types m) && well_typed (files m) && valid_utf8 (stdout m)
  && valid_utf8 (stderr m) && well_typed (features m) && valid_utf8 (target m)
  && valid_utf8 (profile m) && u64_ok (compile_time_ms m) && well_typed (emit_kinds m).

(** ** State *)

Record Config := {
  read_only : bool;
  deferred_durability : bool;
  gc_evict_shared : bool;
  verify_restores : VerifyRestores;
  max_diagnostics_bytes : option Z;
  max_size : Z;
  upload_spool_max_jobs : Z;
}.

(** Regular files below [store_dir]: [entry_files] maps an entry's cache key and
    the path inside its directory to the bytes there, [blob_files] a digest to
    the bytes of [blobs/<2>/<digest>]. *)
Record Store := {
  db : Db;
  entry_files : gmap (string * list string) string;
  blob_files : gmap string string;
}.
Definition set_db (d : Db) (st : Store) : Store :=
  {| db := d; entry_files := entry_files st; blob_files := blob_files st |}.
Definition set_entry_files (f : gmap (string * list string) string) (st : Store) : Store :=
  {| db := db st; entry_files := f; blob_files := blob_files st |}.
Definition set_blob_files (f : gmap string string) (st : Store) : Store :=
  {| db := db st; entry_files := entry_files st; blob_files := f |}.

(** [entry_dir.join("meta.json")] *)
Definition meta_path (key : string) : string * list string := (key, ["meta.json"]).
(** [entry_dir.join(name)] for a name made of normal components. *)
Definition artifact_path (key name : string) : string * list string :=
  (key, omap (fun c => match c with Normal n => Some n | _ => None end) (components name)).
(** [fs::remove_dir_all(entry_dir)] *)
Definition remove_dir (key : string) (fs : gmap (string * list string) string)
    : gmap (string * list string) string :=
  filter (fun file => file.1.1 <> key) fs.

(** A blob that is in place is left alone. *)
Definition adopt_blob (h bytes : string) (bf : gmap string string) : gmap string string :=
  match bf !! h with Some _ => bf | None => <[h := bytes]> bf end.

(** One constructor per way the operations fail. *)
Inductive StoreError :=
| ReadOnlyStore
| UnsafeName (name : string)
| SourceMissing (path : string)
| ZeroByteArtifact (name : string)
| DigestChanged (name : string)
| MetaUnreadable
| MetaUnparseable
| MetaMissingRowPresent
| MalformedBlobHash (hash : string)
| MissingFile (name : string)
| WrongSize (name : string)
| ContentMismatch (name : string)
| RestoredBlobVanished (name : string)
| InvalidCacheKey
| StillPending
| BlobRowMissing (hash : string)
| MetaChanged
| RestoreBinding
| RestoreSchema
| RestoreCrateName
| RestoreDuplicate
| RestoreFile (name : string).

(** [VerifiedRestoredEntry]: an entry whose bytes were verified while they were
    written to its directory. *)
Record VerifiedRestoredEntry := { vre_cache_key : string; vre_meta : EntryMeta }.

Definition EVICTION_IDLE_GRACE : Z := 120.
Definition IMPORT_PIN : Z := 6 * 3600.
Definition HIT_STAMP_INTERVAL : Z := 30.

Section Operations.
Context (blake3_hex : string -> string) `{!JsonCodec EntryMeta} `{ArtifactPolicy}.
Context (cfg : Config).

Abbreviation res := (result StoreError).

(** [refuse_write] *)
Definition refuse_write : res unit := if read_only cfg then Err ReadOnlyStore else Ok tt.
(** [durable_writes] *)
Definition durable_writes : bool := negb (deferred_durability cfg).

Definition read_meta (st : Store) (key : string) : option string := entry_files st !! meta_path key.
Definition artifact_exists (st : Store) (key : string) (f : CachedFile) : bool :=
  if entry_files st !! artifact_path key (name f) is Some _ then true else false.

(** [contains] *)
Definition contains_key (st : Store) (key : string) : bool :=
  match read_meta st key, entries (db st) !! key with
  | Some _, Some row => er_committed row
  | _, _ => false
  end.
(** [stored_meta] *)
Definition stored_meta (st : Store) (key : string) : option EntryMeta :=
  content ← read_meta st key;
  from_slice content.
(** [entry_is_durable] *)
Definition entry_is_durable (st : Store) (key : string) : bool :=
  match entries (db st) !! key with Some row => er_durable row | None => true end.

(** [validate_blob_metadata] *)
Definition validate_blob_metadata (st : Store) (f : CachedFile) : bool :=
  match blob_files st !! hash f with Some bytes => slen bytes =? size f | None => false end.
(** [crate::file_hash::hash_file(&blob)] agrees with the recorded address. *)
Definition blob_matches (st : Store) (f : CachedFile) : bool :=
  match blob_files st !! hash f with
  | Some bytes => String.eqb (blake3_hex bytes) (hash f)
  | None => false
  end.
(** The checks of one file on a hit. *)
Definition blob_ok (verify_content : bool) (st : Store) (f : CachedFile) : bool :=
  validate_blob_metadata st f && (negb verify_content || blob_matches st f).

(** ** Removal *)

Record RemovalReclaim := { freed_bytes : Z; blobs_unlinked : Z; disk_bytes_reclaimed : Z }.
Inductive RemovalAttempt :=
| Done (reclaim : option RemovalReclaim)
| Republished
| Unreclaimable.

(** What the unlocked read of [meta.json] leads to: a hash list to release, or
    the wait for the writer lock. *)
Inductive MetaRead := ReadMeta (content : string) (hashes : list string) | NoMeta.
Definition remove_read (st : Store) (key : string) : res MetaRead :=
  match read_meta st key with
  | Some content =>
      match from_slice content with
      | Some meta => Ok (ReadMeta content (map hash (files meta)))
      | None => Err MetaUnparseable
      end
  | None => Ok NoMeta
  end.
(** The settled state under the writer lock when no [meta.json] was read. *)
Definition remove_settle (st : Store) (key : string) : res RemovalAttempt :=
  match entries (db st) !! key with
  | None => Ok (Done None)
  | Some _ => if read_meta st key is Some _ then Ok Republished else Err MetaMissingRowPresent
  end.

(** Unique hashes in order, with how often the entry lists each. *)
Definition held_refs (hashes : list string) : list (string * Z) :=
  map (fun h => (h, Z.of_nat (count_occ String.string_dec hashes h))) (remove_dups hashes).

(** The blobs found retained outside the store, and the check under the lock
    that this entry holds the last references. *)
Fixpoint retained_block (d : Db) (retained : list (string * Z)) : res bool :=
  match retained with
  | [] => Ok false
  | (h, held) :: rest =>
      match blobs d !! h with
      | None => Err (BlobRowMissing h)
      | Some row => if holds_last_reference (br_refcount row) held then Ok true
                    else retained_block d rest
      end
  end.

(** The first transaction of [remove_entry_attempt]: an outcome, or the blobs
    whose unlink is deferred to the cleanup pass.  [retainer h] is
    [blob_has_external_retainer]. *)
Inductive RemoveTx := RolledBack (attempt : RemovalAttempt) | Committed (unlink : list (string * Z)).
Definition remove_commit (retainer : string -> bool) (now : Z) (st : Store) (key : string)
    (skip_if_idle_lt : option Z) (content : string) (hashes : list string) : res (Store * RemoveTx) :=
  let retained :=
    match skip_if_idle_lt with
    | Some _ => if gc_evict_shared cfg then []
                else filter (fun p => retainer p.1 = true) (held_refs hashes)
    | None => []
    end in
  let recently_accessed :=
    match skip_if_idle_lt, entries (db st) !! key with
    | Some grace, Some row => now - grace <=? er_last_accessed row
    | _, _ => false
    end in
  if recently_accessed then Ok (st, RolledBack (Done None)) else
  blocked ← retained_block (db st) retained;
  if (blocked : bool) then Ok (st, RolledBack Unreclaimable) else
  match entries (db st) !! key with
  | None => Ok (st, RolledBack (Done None))
  | Some _ =>
      if bool_decide (read_meta st key = Some content) then
        let '(d, unlink) := unmap_entry key hashes (set_entries (delete key) (db st)) in
        Ok (set_db d st, Committed unlink)
      else Ok (st, RolledBack (Done None))
  end.

(** One blob of the cleanup pass; [on_disk h] is [blob_reclaimable_bytes]. *)
Definition unlink_step (on_disk : string -> option Z) (acc : Store * RemovalReclaim)
    (item : string * Z) : Store * RemovalReclaim :=
  let '(st, r) := acc in
  let '(h, size) := item in
  if blobs (db st) !! h is Some _ then acc
  else (set_blob_files (delete h (blob_files st)) st,
        {| freed_bytes := freed_bytes r + Z.max size 0; blobs_unlinked := blobs_unlinked r + 1;
           disk_bytes_reclaimed := disk_bytes_reclaimed r + default (Z.max size 0) (on_disk h) |}).
(** The cleanup transaction of [remove_entry_attempt]. *)
Definition remove_cleanup (on_disk : string -> option Z) (st : Store) (key : string)
    (unlink : list (string * Z)) : Store * RemovalReclaim :=
  let st := if entries (db st) !! key is Some _ then st
            else set_entry_files (remove_dir key (entry_files st)) st in
  fold_left (unlink_step on_disk) unlink
    (st, {| freed_bytes := 0; blobs_unlinked := 0; disk_bytes_reclaimed := 0 |}).

(** [remove_entry_attempt], run without interference. *)
Definition remove_entry_attempt (retainer : string -> bool) (on_disk : string -> option Z) (now : Z)
    (st : Store) (key : string) (skip_if_idle_lt : option Z) : res (Store * RemovalAttempt) :=
  read ← remove_read st key;
  match read with
  | NoMeta => attempt ← remove_settle st key; Ok (st, attempt)
  | ReadMeta content hashes =>
      '(st, tx) ← remove_commit retainer now st key skip_if_idle_lt content hashes;
      match tx with
      | RolledBack attempt => Ok (st, attempt)
      | Committed unlink =>
          let '(st, reclaim) := remove_cleanup on_disk st key unlink in
          Ok (st, Done (Some reclaim))
      end
  end.

(** [remove_entry_guarded]: retried while a republication is observed. *)
Inductive GuardedRemoval := Reclaimed (r : RemovalReclaim) | Skipped | NotReclaimable.
Fixpoint remove_entry_guarded (fuel : nat) (retainer : string -> bool) (on_disk : string -> option Z)
    (now : Z) (st : Store) (key : string) (skip_if_idle_lt : option Z)
    : option (res (Store * GuardedRemoval)) :=
  match fuel with
  | O => None
  | S fuel =>
      match (refuse_write;; remove_entry_attempt retainer on_disk now st key skip_if_idle_lt) with
      | Err e => Some (Err e)
      | Ok (st, Done (Some r)) => Some (Ok (st, Reclaimed r))
      | Ok (st, Done None) => Some (Ok (st, Skipped))
      | Ok (st, Unreclaimable) => Some (Ok (st, NotReclaimable))
      | Ok (st, Republished) =>
          remove_entry_guarded fuel retainer on_disk now st key skip_if_idle_lt
      end
  end.
(** [let _ = self.remove_entry(cache_key)]: the state after a removal whose
    error is ignored. *)
Definition try_remove (retainer : string -> bool) (on_disk : string -> option Z) (now : Z)
    (st : Store) (key : string) : Store :=
  match remove_entry_guarded 2 retainer on_disk now st key None with
  | Some (Ok (st', _)) => st'
  | _ => st
  end.

(** ** Durability *)

(** Every check [flush_entry_durability] makes before it promotes an entry, on
    one state of the store. *)
Definition flush_ready (st : Store) (key : string) (row : EntryRow) : bool :=
  match read_meta st key ≫= from_slice with
  | None => false
  | Some meta =>
      er_committed row && negb (er_durable row)
      && String.eqb (cache_key meta) key
      && String.eqb (compute_content_hash blake3_hex (files meta)) (er_content_hash row)
      && forallb (fun f => is_blob_hash (hash f)) (files meta)
      && forallb (fun f => forallb (fun g =>
           negb (String.eqb (hash f) (hash g)) || (size f =? size g)) (files meta)) (files meta)
      && forallb (fun f => validate_blob_metadata st f && blob_matches st f) (files meta)
  end.
Definition set_durable (row : EntryRow) : EntryRow :=
  {| er_crate_name := er_crate_name row; er_size := er_size row;
     er_last_accessed := er_last_accessed row; er_hit_count := er_hit_count row;
     er_committed := er_committed row; er_durable := true;
     er_content_hash := er_content_hash row; er_compile_time_ms := er_compile_time_ms row;
     er_key_schema := er_key_schema row; er_imported_at := er_imported_at row |}.
(** [flush_entry_durability] *)
Definition flush_entry_durability (st : Store) (key : string) : res (Store * bool) :=
  refuse_write;;
  match entries (db st) !! key with
  | None => Ok (st, false)
  | Some row =>
      if flush_ready st key row
      then Ok (set_db (set_entries (<[key := set_durable row]>) (db st)) st, true)
      else Ok (st, false)
  end.
(** [finish_strict_durability]; the publication it follows is already committed,
    so the state survives its error. *)
Definition finish_strict_durability (st : Store) (key : string) : Store * res unit :=
  if durable_writes then
    match flush_entry_durability st key with
    | Err e => (st, Err e)
    | Ok (st, _) =>
        (st, match entries (db st) !! key with
             | Some row => ensure (er_committed row && er_durable row) StillPending
             | None => Err StillPending
             end)
    end
  else (st, Ok tt).

(** ** Publishing a compile ([put]) *)

(** The compiler outputs on disk: bytes and the executable bit. *)
Definition Sources : Type := string -> option (string * bool).
Record PutArgs := {
  pa_key : string;
  pa_crate_name : string;
  pa_crate_types : list string;
  pa_features : list string;
  pa_target : string;
  pa_profile : string;
  pa_outputs : list (string * string);
  pa_stdout : string;
  pa_stderr : string;
  pa_compile_time_ms : Z;
}.

(** [publish_staged_blob]: the first publisher's bytes stay. *)
Definition publish_staged_blob (bytes : string) (st : Store) : Store :=
  set_blob_files (adopt_blob (blake3_hex bytes) bytes (blob_files st)) st.

(** The locals of phase 1. *)
Record Staged := {
  sg_files : list CachedFile;
  sg_seen : gset string;
  sg_result : StorePutResult;
  sg_total : Z;
}.
Definition stage_output (src : Sources) (crate_types : list string) (st : Store) (sg : Staged)
    (out : string * string) : Store * res Staged :=
  let '(path, store_name) := out in
  if negb (is_safe_stored_artifact_name store_name) then (st, Err (UnsafeName store_name)) else
  match src path with
  | None => (st, Err (SourceMissing path))
  | Some (bytes, exec) =>
      let sz := slen bytes in
      if (sz =? 0) && negb (zero_byte_is_valid_output store_name crate_types)
      then (st, Err (ZeroByteArtifact store_name)) else
      let h := blake3_hex bytes in
      let r := sg_result sg in
      let known := if blob_files st !! h is Some _ then true else false in
      (publish_staged_blob bytes st,
       Ok {| sg_files := (sg_files sg ++
               [{| name := store_name; size := sz; hash := h; executable := exec |}])%list;
             sg_seen := {[h]} ∪ sg_seen sg;
             sg_result :=
               if decide (h ∈ sg_seen sg) then r
               else {| output_blobs := output_blobs r + 1;
                       duplicate_blobs := duplicate_blobs r + (if known : bool then 1 else 0);
                       new_blobs := new_blobs r + (if known : bool then 0 else 1) |};
             sg_total := sg_total sg + sz |})
  end.
Fixpoint stage_outputs (src : Sources) (crate_types : list string) (st : Store) (sg : Staged)
    (outs : list (string * string)) : Store * res Staged :=
  match outs with
  | [] => (st, Ok sg)
  | out :: outs =>
      match stage_output src crate_types st sg out with
      | (st, Err e) => (st, Err e)
      | (st, Ok sg) => stage_outputs src crate_types st sg outs
      end
  end.

(** [rematerialize_and_verify]: a blob that vanished since phase 1 is ingested
    again from the live source, and its digest checked afterwards. *)
Definition rematerialize_and_verify (src : Sources) (path : string) (f : CachedFile)
    (bf : gmap string string) : gmap string string * res unit :=
  match bf !! hash f with
  | Some _ => (bf, Ok tt)
  | None =>
      match src path with
      | None => (bf, Err (SourceMissing path))
      | Some (bytes, _) =>
          (<[hash f := bytes]> bf,
           ensure (String.eqb (blake3_hex bytes) (hash f)) (DigestChanged (name f)))
      end
  end.
(** The loop of phase 2 over [meta.files.iter().zip(sources)]. *)
Fixpoint register_files (src : Sources) (l : list (CachedFile * string)) (d : Db)
    (bf : gmap string string) : gmap string string * res Db :=
  match l with
  | [] => (bf, Ok d)
  | (f, path) :: l =>
      let d := add_blob_ref d f in
      match rematerialize_and_verify src path f bf with
      | (bf, Err e) => (bf, Err e)
      | (bf, Ok _) => register_files src l d bf
      end
  end.

Definition put_meta (args : PutArgs) (fs : list CachedFile) : EntryMeta :=
  {| cache_key := pa_key args; key_schema := CACHE_KEY_VERSION; crate_name := pa_crate_name args;
     crate_types := pa_crate_types args; files := fs;
     stdout := cap_diagnostics (pa_stdout args) (max_diagnostics_bytes cfg);
     stderr := cap_diagnostics (pa_stderr args) (max_diagnostics_bytes cfg);
     features := pa_features args; target := pa_target args; profile := pa_profile args;
     compile_time_ms := pa_compile_time_ms args; emit_kinds := emit_kinds_for_files fs |}.
(** The row an [INSERT OR REPLACE] of a publisher leaves. *)
Definition published_row (now : Z) (meta : EntryMeta) (total : Z) (imported : option Z) : EntryRow :=
  {| er_crate_name := crate_name meta; er_size := as_i64 total; er_last_accessed := now;
     er_hit_count := 0; er_committed := true; er_durable := false;
     er_content_hash := compute_content_hash blake3_hex (files meta);
     er_compile_time_ms := as_i64 (compile_time_ms meta); er_key_schema := key_schema meta;
     er_imported_at := imported |}.

(** Phase 2 of [put_with_compile_time_policy].  On an error the transaction is
    rolled back; files written to the blob directory stay. *)
Definition put_commit (src : Sources) (now : Z) (st : Store) (args : PutArgs)
    (fs : list CachedFile) (total : Z) : Store * res unit :=
  let key := pa_key args in
  let meta := put_meta args fs in
  let d := release_entry_blob_refs key (db st) in
  let '(bf, registered) := register_files src (zip fs (map fst (pa_outputs args))) d (blob_files st) in
  match registered with
  | Err e => (set_blob_files bf st, Err e)
  | Ok d =>
      let d := record_entry_blobs key fs d in
      let d := set_entries (<[key := published_row now meta total None]>) d in
      ({| db := d; entry_files := <[meta_path key := to_vec meta]> (entry_files st);
          blob_files := bf |}, Ok tt)
  end.
(** [put_with_compile_time_policy]; [src1] are the sources as phase 1 stages
    them, [src2] as phase 2 may read them again. *)
Definition put (src1 src2 : Sources) (now : Z) (st : Store) (args : PutArgs)
    : Store * res StorePutResult :=
  match refuse_write with
  | Err e => (st, Err e)
  | Ok _ =>
      match stage_outputs src1 (pa_crate_types args) st
              {| sg_files := []; sg_seen := ∅; sg_total := 0;
                 sg_result := {| output_blobs := 0; duplicate_blobs := 0; new_blobs := 0 |} |}
              (pa_outputs args) with
      | (st, Err e) => (st, Err e)
      | (st, Ok sg) =>
          match put_commit src2 now st args (sg_files sg) (sg_total sg) with
          | (st, Err e) => (st, Err e)
          | (st, Ok _) =>
              match finish_strict_durability st (pa_key args) with
              | (st, Err e) => (st, Err e)
              | (st, Ok _) => (st, Ok (sg_result sg))
              end
          end
      end
  end.

(** ** Importing a downloaded entry *)

(** The trust boundary of [import_downloaded_entry] for one file. *)
Definition check_restored_file (st : Store) (key : string) (f : CachedFile) : res unit :=
  ensure (is_blob_hash (hash f)) (MalformedBlobHash (hash f));;
  ensure (is_safe_artifact_name (name f)) (UnsafeName (name f));;
  bytes ← with_context (entry_files st !! artifact_path key (name f)) (MissingFile (name f));
  ensure (slen bytes =? size f) (WrongSize (name f));;
  ensure (String.eqb (blake3_hex bytes) (hash f)) (ContentMismatch (name f)).
(** The unlocked half of [import_downloaded_entry]: read and verify. *)
Definition import_check (st : Store) (key : string) : res EntryMeta :=
  refuse_write;;
  content ← with_context (read_meta st key) MetaUnreadable;
  meta ← with_context (from_slice content) MetaUnparseable;
  try_fold (fun _ f => check_restored_file st key f) tt (files meta);;
  Ok meta.

(** [move_verified_blob] *)
Definition move_verified_blob (key : string) (f : CachedFile) (st : Store) : Store * res bool :=
  match blob_files st !! hash f with
  | Some _ => (st, Ok false)
  | None =>
      match entry_files st !! artifact_path key (name f) with
      | None => (st, Err (RestoredBlobVanished (name f)))
      | Some bytes =>
          ({| db := db st; entry_files := delete (artifact_path key (name f)) (entry_files st);
              blob_files := <[hash f := bytes]> (blob_files st) |}, Ok true)
      end
  end.
Fixpoint move_verified_blobs (key : string) (fs : list CachedFile) (st : Store) : Store * res unit :=
  match fs with
  | [] => (st, Ok tt)
  | f :: fs =>
      match move_verified_blob key f st with
      | (st, Err e) => (st, Err e)
      | (st, Ok _) => move_verified_blobs key fs st
      end
  end.
Definition sum_sizes (fs : list CachedFile) : Z := fold_left (fun n f => n + size f) fs 0.

(** The registration transaction of [import_downloaded_entry].  Blobs and
    references are interleaved file by file in the source; the two do not
    interfere, and an error rolls the index back either way. *)
Definition import_commit (now : Z) (st : Store) (key : string) (meta : EntryMeta) : Store * res unit :=
  match move_verified_blobs key (files meta) st with
  | (st, Err e) => (st, Err e)
  | (st, Ok _) =>
      let d := publish_refs key (files meta) (db st) in
      let d := set_entries
        (<[key := published_row now meta (sum_sizes (files meta)) (Some now)]>) d in
      (set_db d st, Ok tt)
  end.
(** The removal of downloaded duplicates after the commit. *)
Definition delete_artifacts (key : string) (fs : list CachedFile)
    (m : gmap (string * list string) string) : gmap (string * list string) string :=
  fold_left (fun m f => delete (artifact_path key (name f)) m) fs m.
Definition remove_artifacts (key : string) (fs : list CachedFile) (st : Store) : Store :=
  set_entry_files (delete_artifacts key fs (entry_files st)) st.

(** [import_downloaded_entry], run without interference. *)
Definition import_downloaded_entry (now : Z) (st : Store) (key : string) : Store * res unit :=
  match import_check st key with
  | Err e => (st, Err e)
  | Ok meta =>
      match import_commit now st key meta with
      | (st, Err e) => (st, Err e)
      | (st, Ok _) => finish_strict_durability (remove_artifacts key (files meta) st) key
      end
  end.
(** [discard_uncommitted_restored_entry] *)
Definition discard_uncommitted_restored_entry (st : Store) (key : string) : res Store :=
  refuse_write;;
  ensure (is_valid_cache_key key) InvalidCacheKey;;
  let committed := match entries (db st) !! key with Some row => er_committed row | None => false end in
  Ok (if committed : bool then st else set_entry_files (remove_dir key (entry_files st)) st).
(** [import_restored_entry]: the first error is the one reported. *)
Definition import_restored_entry (now : Z) (st : Store) (key : string) : Store * res unit :=
  match refuse_write with
  | Err e => (st, Err e)
  | Ok _ =>
      match import_downloaded_entry now st key with
      | (st, Ok _) => (st, Ok tt)
      | (st, Err e) =>
          (match discard_uncommitted_restored_entry st key with Ok st => st | Err _ => st end, Err e)
      end
  end.

(** ** Importing a batch of verified entries *)

(** The preflight of [import_verified_restored_entries] for one artifact; the
    state is the names already seen. *)
Definition preflight_file (st : Store) (key : string) (names : list string) (f : CachedFile)
    : res (list string) :=
  ensure (is_safe_artifact_name (name f) && is_valid_cache_key (hash f)
          && negb (bool_decide (name f ∈ names))) (RestoreFile (name f));;
  bytes ← with_context (entry_files st !! artifact_path key (name f)) (MissingFile (name f));
  ensure (slen bytes =? size f) (WrongSize (name f));;
  Ok (name f :: names).
(** The preflight for one entry; the state is the keys already seen. *)
Definition preflight_entry (st : Store) (keys : list string) (e : VerifiedRestoredEntry)
    : res (list string) :=
  let key := vre_cache_key e in
  let meta := vre_meta e in
  ensure (is_valid_cache_key key && String.eqb (cache_key meta) key) RestoreBinding;;
  ensure (key_schema meta =? CACHE_KEY_VERSION) RestoreSchema;;
  ensure (is_valid_crate_name (crate_name meta)) RestoreCrateName;;
  ensure (negb (bool_decide (key ∈ keys))) RestoreDuplicate;;
  content ← with_context (read_meta st key) MetaUnreadable;
  disk_meta ← with_context (from_slice content) MetaUnparseable;
  ensure (bool_decide (disk_meta = meta)) MetaChanged;;
  try_fold (preflight_file st key) [] (files meta);;
  Ok (key :: keys).
Definition import_preflight (st : Store) (es : list VerifiedRestoredEntry) : res unit :=
  refuse_write;;
  try_fold (preflight_entry st) [] es;;
  Ok tt.

(** One entry inside the transaction of [import_verified_restored_entries]: the
    number of entries registered is threaded through. *)
Definition import_verified_entry (now : Z) (st : Store) (e : VerifiedRestoredEntry) : Store * res Z :=
  let key := vre_cache_key e in
  let meta := vre_meta e in
  let d := delete_dead_blobs (drop_uncommitted key (db st)) in
  match move_verified_blobs key (files meta) (set_db d st) with
  | (st, Err e) => (st, Err e)
  | (st, Ok _) =>
      match entries d !! key with
      | Some _ => (st, Ok 0)
      | None =>
          let d := publish_refs key (files meta) d in
          (set_db (set_entries
             (<[key := published_row now meta (sum_sizes (files meta)) (Some now)]>) d) st, Ok 1)
      end
  end.
Fixpoint import_verified_entries (now : Z) (st : Store) (imported : Z) (es : list VerifiedRestoredEntry)
    : Store * res Z :=
  match es with
  | [] => (st, Ok imported)
  | e :: es =>
      match import_verified_entry now st e with
      | (st, Err e) => (st, Err e)
      | (st, Ok n) => import_verified_entries now st (imported + n) es
      end
  end.
(** The transaction: an error leaves the index as it was. *)
Definition import_batch (now : Z) (st : Store) (es : list VerifiedRestoredEntry) : Store * res Z :=
  match import_verified_entries now st 0 es with
  | (st', Err e) => (set_db (db st) st', Err e)
  | (st', Ok n) => (st', Ok n)
  end.
(** The clean-up and flush after the commit. *)
Fixpoint finish_batch (st : Store) (es : list VerifiedRestoredEntry) : Store * res unit :=
  match es with
  | [] => (st, Ok tt)
  | e :: es =>
      let key := vre_cache_key e in
      match finish_strict_durability (remove_artifacts key (files (vre_meta e)) st) key with
      | (st, Err e) => (st, Err e)
      | (st, Ok _) => finish_batch st es
      end
  end.
(** [import_verified_restored_entries], run without interference. *)
Definition import_verified_restored_entries (now : Z) (st : Store) (es : list VerifiedRestoredEntry)
    : Store * res Z :=
  match import_preflight st es with
  | Err e => (st, Err e)
  | Ok _ =>
      match import_batch now st es with
      | (st, Err e) => (st, Err e)
      | (st, Ok n) =>
          match finish_batch st es with
          | (st, Err e) => (st, Err e)
          | (st, Ok _) => (st, Ok n)
          end
      end
  end.

(** ** Legacy entries *)

(** The preflight of [migrate_entry_to_blobs] for one file. *)
Definition migrate_check (st : Store) (key : string) (f : CachedFile) : res unit :=
  ensure (is_blob_hash (hash f) && is_safe_stored_artifact_name (name f)) (UnsafeName (name f));;
  match entry_files st !! artifact_path key (name f) with
  | None => Ok tt
  | Some artifact =>
      let selected := default artifact (blob_files st !! hash f) in
      ensure (slen selected =? size f) (WrongSize (name f));;
      ensure (String.eqb (blake3_hex selected) (hash f)) (ContentMismatch (name f))
  end.
Definition migrate_step (key : string) (st : Store) (f : CachedFile) : Store :=
  match entry_files st !! artifact_path key (name f) with
  | None => st
  | Some artifact =>
      {| db := add_blob_ref (db st) f;
         entry_files := delete (artifact_path key (name f)) (entry_files st);
         blob_files := adopt_blob (hash f) artifact (blob_files st) |}
  end.
(** [migrate_entry_to_blobs] *)
Definition migrate_entry_to_blobs (st : Store) (meta : EntryMeta) : Store * res bool :=
  let key := cache_key meta in
  match entries (db st) !! key with
  | Some row =>
      if er_committed row then
        match
          (content ← with_context (read_meta st key) MetaUnreadable;
           disk ← with_context (from_slice content) MetaUnparseable;
           ensure (bool_decide (disk = meta)) MetaChanged;;
           try_fold (fun _ f => migrate_check st key f) tt (files meta))
        with
        | Err e => (st, Err e)
        | Ok _ => (fold_left (migrate_step key) (files meta) st, Ok true)
        end
      else (st, Ok false)
  | None => (st, Ok false)
  end.

(** ** Lookup ([get]) *)

Definition stamp_hit (now : Z) (row : EntryRow) : EntryRow :=
  {| er_crate_name := er_crate_name row; er_size := er_size row; er_last_accessed := now;
     er_hit_count := er_hit_count row + 1; er_committed := er_committed row;
     er_durable := er_durable row; er_content_hash := er_content_hash row;
     er_compile_time_ms := er_compile_time_ms row; er_key_schema := er_key_schema row;
     er_imported_at := er_imported_at row |}.
(** The access stamp of a hit, at most one per [HIT_STAMP_INTERVAL]. *)
Definition record_hit (now : Z) (st : Store) (key : string) : Store :=
  match entries (db st) !! key with
  | Some row => if HIT_STAMP_INTERVAL <=? now - er_last_accessed row
                then set_db (set_entries (<[key := stamp_hit now row]>) (db st)) st else st
  | None => st
  end.

(** [get_read_only] *)
Definition get_read_only (sample : bool) (st : Store) (key : string) : option EntryMeta :=
  if negb (contains_key st key) then None else
  content ← read_meta st key;
  meta ← from_slice content;
  if existsb (artifact_exists st key) (files meta) then None else
  let verify_content := negb (entry_is_durable st key) || sample in
  if forallb (blob_ok verify_content st) (files meta) then Some meta else None.

(** [get]; [sample] is [should_verify_this_restore]'s decision for this hit.
    The demand note on a miss writes only the tombstone table. *)
Definition get (retainer : string -> bool) (on_disk : string -> option Z) (now : Z) (sample : bool)
    (st : Store) (key : string) : Store * res (option EntryMeta) :=
  if read_only cfg then (st, Ok (get_read_only sample st key)) else
  if negb (contains_key st key) then (st, Ok None) else
  match (content ← with_context (read_meta st key) MetaUnreadable;
         with_context (from_slice content) MetaUnparseable) with
  | Err e => (st, Err e)
  | Ok meta =>
      let '(st, migrated) :=
        if existsb (artifact_exists st key) (files meta)
        then migrate_entry_to_blobs st meta else (st, Ok true) in
      match migrated with
      | Err _ => (st, Ok None)
      | Ok _ =>
          let verify_content := negb (entry_is_durable st key) || sample in
          if forallb (blob_ok verify_content st) (files meta)
          then (record_hit now st key, Ok (Some meta))
          else (try_remove retainer on_disk now st key, Ok None)
      end
  end.

(** ** The orphan sweep *)

(** [sweep_orphan_blobs]: [old h] holds for a blob file older than the minimum
    age when the directory was walked. *)
Definition is_orphan (old : string -> bool) (st : Store) (h : string) : bool :=
  is_blob_hash_name h && old h && negb (bool_decide (is_Some (blobs (db st) !! h))).
Definition sweep_orphan_blobs (old : string -> bool) (st : Store) : res Store :=
  refuse_write;;
  Ok (set_blob_files (filter (fun file => is_orphan old st file.1 = false) (blob_files st)) st).

End Operations.
