(* ===== verification/StoreSteps.v ===== *)
(** * Interleavings of store operations

    Several processes share one store.  Each step below is one write
    transaction (or one unlocked file write) of some process; what an operation
    read before its transaction is a universally quantified argument of the
    step, so the steps of several operations interleave freely.  The relation
    keeps to four conditions, each a named predicate, that the code does not
    enforce by itself:

    - [keeps_indexed_meta]: an extraction into the directory of an indexed key
      leaves the [meta.json] there as it is;
    - [undisturbed]: when a download registers, the files that its check read in an
      earlier state are still the same; whatever else may have happened in between;
    - [vouched]: the artifacts of a batch match their digests;
    - [no_meta_artifact]: no artifact is called [meta.json].

    [StoreWitness] shows what happens without [undisturbed] and without
    [no_meta_artifact]. *)

From S2P Require Import Prelude Strings Codec Format StorePolicy StoreIndex StoreIndexProofs Store.
#[local] Open Scope string_scope.
#[local] Open Scope Z_scope.

#[local] Set Default Proof Using "Type".

Section Steps.
Context (blake3_hex : string -> string) `{!JsonCodec EntryMeta} `{ArtifactPolicy}.
Context (cfg : Config).

(** No listed artifact lives at [meta.json] itself. *)
Definition no_meta_artifact (fs : list CachedFile) : Prop :=
  Forall (fun f => forall key, artifact_path key (name f) <> meta_path key) fs.

(** Artifacts that carry their recorded digest. *)
Definition verified_artifacts (key : string) (fs : list CachedFile)
    (m : gmap (string * list string) string) : Prop :=
  forall f bytes, f ∈ fs -> m !! artifact_path key (name f) = Some bytes -> blake3_hex bytes = hash f.
(** What the caller of a batch import vouches for. *)
Definition vouched (st : Store) (e : VerifiedRestoredEntry) : Prop :=
  no_meta_artifact (files (vre_meta e)) /\
  verified_artifacts (vre_cache_key e) (files (vre_meta e)) (entry_files st).

(** The directory of a download when it registers in [st]: the metadata, and the
    artifacts as far as they are still there, are what the check read in [seen]. *)
Definition undisturbed (seen st : Store) (key : string) (meta : EntryMeta) : Prop :=
  entry_files st !! meta_path key = entry_files seen !! meta_path key /\
  forall f bytes, f ∈ files meta -> entry_files st !! artifact_path key (name f) = Some bytes ->
    entry_files seen !! artifact_path key (name f) = Some bytes.
(** The files [m] after an extraction into the directory of [key]. *)
Definition keeps_indexed_meta (st : Store) (key : string) (m : gmap (string * list string) string) : Prop :=
  is_Some (entries (db st) !! key) -> m !! meta_path key = entry_files st !! meta_path key.

(** One step of some process.  [good] restricts the outcomes of a put's second
    phase that a run may contain. *)
Inductive step (good : result StoreError unit -> Prop) : Store -> Store -> Prop :=
| step_publish st bytes :
    step good st (publish_staged_blob blake3_hex bytes st)
| step_put_commit st st' src now args fs total r :
    well_typed (put_meta cfg args fs) = true -> no_meta_artifact fs ->
    length fs = length (pa_outputs args) ->
    put_commit blake3_hex cfg src now st args fs total = (st', r) -> good r ->
    step good st st'
| step_extract st key m :
    keeps_indexed_meta st key m ->
    (forall k p, k <> key -> m !! (k, p) = entry_files st !! (k, p)) ->
    step good st (set_entry_files m st)
| step_import seen st st' now key meta r :
    no_meta_artifact (files meta) ->
    import_check blake3_hex cfg seen key = Ok meta -> undisturbed seen st key meta ->
    import_commit blake3_hex now st key meta = (st', r) ->
    step good st st'
| step_import_batch st st' now es r :
    Forall (vouched st) es ->
    import_preflight cfg st es = Ok tt ->
    import_batch blake3_hex now st es = (st', r) ->
    step good st st'
| step_import_clean st key fs :
    no_meta_artifact fs -> step good st (remove_artifacts key fs st)
| step_discard st st' key :
    discard_uncommitted_restored_entry cfg st key = Ok st' -> step good st st'
| step_remove_commit st st' retainer now key grace content meta tx :
    from_slice content = Some meta ->
    remove_commit cfg retainer now st key grace content (map hash (files meta)) = Ok (st', tx) ->
    step good st st'
| step_remove_cleanup st on_disk key unlink :
    step good st (remove_cleanup on_disk st key unlink).1
| step_migrate st st' meta r :
    no_meta_artifact (files meta) ->
    migrate_entry_to_blobs blake3_hex st meta = (st', r) -> step good st st'
| step_hit st now key :
    step good st (record_hit now st key)
| step_flush st st' key flushed :
    flush_entry_durability blake3_hex cfg st key = Ok (st', flushed) -> step good st st'
| step_sweep st st' old :
    sweep_orphan_blobs cfg old st = Ok st' -> step good st st'.

(** ** What the steps maintain *)

(** The store keeps its promises: counts cover the mappings, only rows hold
    references, every row has a [meta.json] that lists exactly what its mapping
    holds, and every blob row has its file. *)
Record store_inv (st : Store) : Prop := {
  inv_covered : covered (db st);
  inv_mapped : forall key h, is_Some (entry_blobs (db st) !! (key, h)) ->
    is_Some (entries (db st) !! key);
  inv_meta : forall key row, entries (db st) !! key = Some row ->
    exists meta, stored_meta st key = Some meta /\
      forall h, refs_of (entry_blobs (db st)) key h = count h (map hash (files meta));
  inv_blob : forall h, is_Some (blobs (db st) !! h) -> is_Some (blob_files st !! h);
  inv_committed : forall key row, entries (db st) !! key = Some row -> er_committed row = true;
}.
Definition addressed (bf : gmap string string) : Prop :=
  forall h bytes, bf !! h = Some bytes -> blake3_hex bytes = h.

Definition empty_store : Store :=
  {| db := {| entries := ∅; blobs := ∅; entry_blobs := ∅ |}; entry_files := ∅; blob_files := ∅ |}.

Lemma empty_inv : store_inv empty_store.
Proof.
  split; cbn; try (intros *; rewrite lookup_empty); try done; try by intros [].
Qed.

(** ** Frame facts *)

Lemma stored_meta_frame st st' key :
  entry_files st' !! meta_path key = entry_files st !! meta_path key ->
  stored_meta st' key = stored_meta st key.
Proof. unfold stored_meta, read_meta. by intros ->. Qed.

(** A change of files that keeps the metadata of every row and the file of every
    blob row keeps the invariant. *)
Lemma inv_files st st' :
  store_inv st -> db st' = db st ->
  (forall key, is_Some (entries (db st) !! key) ->
     entry_files st' !! meta_path key = entry_files st !! meta_path key) ->
  (forall h, is_Some (blobs (db st) !! h) -> is_Some (blob_files st !! h) ->
     is_Some (blob_files st' !! h)) ->
  store_inv st'.
Proof.
  intros [Hc Hm Hme Hb Hco] Hdb Hf Hbf. split; rewrite ?Hdb; try done.
  - intros key row Hrow. erewrite stored_meta_frame; [by eapply Hme|]. apply Hf. by eexists.
  - intros h Hh. auto.
Qed.
Lemma lookup_remove_dir key fs k p :
  remove_dir key fs !! (k, p) = if decide (k = key) then None else fs !! (k, p).
Proof.
  unfold remove_dir. case_decide; subst.
  - apply map_lookup_filter_None. right. intros ? _ Hn. by apply Hn.
  - destruct (fs !! (k, p)) eqn:E.
    + by apply map_lookup_filter_Some.
    + apply map_lookup_filter_None. by left.
Qed.
Lemma no_meta_delete (fs : list CachedFile) (key k : string) (m : gmap (string * list string) string) :
  no_meta_artifact fs ->
  delete_artifacts key fs m !! meta_path k = m !! meta_path k.
Proof.
  unfold delete_artifacts.
  revert m. induction fs as [|f fs IH]; intros m Hn; [done|]. apply Forall_cons in Hn as [Hf Hn].
  cbn [fold_left]. rewrite IH by done. apply lookup_delete_ne. intros E.
  apply (Hf k). unfold artifact_path, meta_path in *. congruence.
Qed.

(** ** Publishing *)

Lemma adopt_blob_spec h bytes bf h' :
  is_Some (adopt_blob h bytes bf !! h) /\ (is_Some (bf !! h') -> is_Some (adopt_blob h bytes bf !! h')).
Proof.
  unfold adopt_blob. destruct (bf !! h) eqn:E; [rewrite E; eauto|].
  rewrite lookup_insert_eq. split; [eauto|]. intros Hh.
  destruct (decide (h = h')) as [<-|]; [rewrite lookup_insert_eq; eauto|by rewrite lookup_insert_ne].
Qed.

(** Publishing a generation under [key], with its metadata and its blobs in
    place, keeps the invariant. *)
Lemma inv_publish st st' key meta row :
  store_inv st -> er_committed row = true ->
  db st' = set_entries (<[key := row]>) (publish_refs key (files meta) (db st)) ->
  stored_meta st' key = Some meta ->
  (forall k, k <> key -> entry_files st' !! meta_path k = entry_files st !! meta_path k) ->
  (forall h, is_Some (blob_files st !! h) -> is_Some (blob_files st' !! h)) ->
  (forall f, f ∈ files meta -> is_Some (blob_files st' !! hash f)) ->
  store_inv st'.
Proof.
  intros [Hc Hm Hme Hb Hco] Hrow Hdb Hmeta Hf Hbf Hfiles.
  assert (entries (publish_refs key (files meta) (db st)) = entries (db st)) as He.
  { apply publish_entries. }
  split; rewrite ?Hdb; cbn [set_entries entries entry_blobs blobs]; rewrite ?He.
  - destruct (publish_refs_covered key (files meta) _ Hc) as [Hp Hcc]. by split.
  - intros k h. unfold publish_refs. rewrite lookup_record, add_refs_entry_blobs,
      release_entry_blobs, lookup_delete_mappings.
    case_decide; subst; [by rewrite lookup_insert_eq|]. rewrite lookup_insert_ne by done. apply Hm.
  - intros k r. unfold refs_of, publish_refs.
    destruct (decide (k = key)) as [->|Hne].
    + intros _. exists meta. split; [done|]. intros h. rewrite lookup_record, decide_True by done.
      by case_decide.
    + rewrite lookup_insert_ne by done. intros Hr. destruct (Hme k r Hr) as (m & Hs & Hrefs).
      exists m. split; [by erewrite stored_meta_frame by (by apply Hf)|]. intros h.
      rewrite lookup_record, decide_False, add_refs_entry_blobs, release_entry_blobs,
        lookup_delete_mappings, decide_False by done. apply Hrefs.
  - intros h. unfold publish_refs. rewrite record_blobs, lookup_add_refs, lookup_release.
    intros Hh. destruct (decide (is_Some (blobs (db st) !! h))) as [Hs|Hn]; [by apply Hbf, Hb|].
    apply eq_None_not_Some in Hn. rewrite Hn in Hh. cbn in Hh.
    destruct (list_find _ (files meta)) as [[i f]|] eqn:E; [|by destruct Hh].
    apply list_find_Some in E as (Hi & <- & _). apply Hfiles. by eapply list_elem_of_lookup_2.
  - intros k r. destruct (decide (k = key)) as [->|Hne].
    + rewrite lookup_insert_eq. by intros [= <-].
    + rewrite lookup_insert_ne by done. apply Hco.
Qed.

(** Phase 2 of a put: the registered references are those of the zipped files,
    and every one of them has a blob afterwards. *)
Lemma register_files_spec src l d bf bf' r :
  register_files blake3_hex src l d bf = (bf', r) ->
  (forall h, is_Some (bf !! h) -> is_Some (bf' !! h)) /\
  (forall d', r = Ok d' -> d' = fold_left add_blob_ref (map fst l) d /\
     forall f, f ∈ map fst l -> is_Some (bf' !! hash f)).
Proof.
  revert d bf. induction l as [|[f path] l IH]; intros d bf; cbn [register_files map fold_left fst].
  { intros [= <- <-]. split; [done|]. intros d' [= <-]. split; [done|]. intros f []%not_elem_of_nil. }
  unfold rematerialize_and_verify.
  assert (forall bf1, bf1 = bf \/ (bf !! hash f = None /\ exists b, bf1 = <[hash f := b]> bf) ->
    forall h, is_Some (bf !! h) -> is_Some (bf1 !! h)) as Hmono.
  { intros bf1 [->|(Hn & b & ->)] h Hh; [done|].
    rewrite lookup_insert_ne; [done|]. intros <-. rewrite Hn in Hh. by destruct Hh. }
  assert (forall bf1, is_Some (bf1 !! hash f) ->
    register_files blake3_hex src l (add_blob_ref d f) bf1 = (bf', r) ->
    (forall h, is_Some (bf !! h) -> is_Some (bf1 !! h)) ->
    (forall h, is_Some (bf !! h) -> is_Some (bf' !! h)) /\
    (forall d', r = Ok d' -> d' = fold_left add_blob_ref (map fst l) (add_blob_ref d f) /\
       forall g, g ∈ f :: map fst l -> is_Some (bf' !! hash g))) as Hgo.
  { intros bf1 Hf1 Hr Hbf1. apply IH in Hr as [Hm Ho]. split; [auto|]. intros d' Hd'.
    destruct (Ho d' Hd') as [-> Hfs]. split; [done|]. intros g [->|Hg]%elem_of_cons; auto. }
  destruct (bf !! hash f) as [b|] eqn:Eb; [intros Hr; apply (Hgo bf); rewrite ?Eb; eauto|].
  destruct (src path) as [[bytes ex]|]; [|intros [= <- <-]; by split].
  unfold ensure. destruct (String.eqb _ _).
  - intros Hr. apply (Hgo _ ltac:(rewrite lookup_insert_eq; eauto) Hr). apply Hmono. eauto.
  - intros [= <- <-]. split; [|done]. apply Hmono. eauto.
Qed.

Lemma put_commit_inv src now st st' args fs total r :
  well_typed (put_meta cfg args fs) = true -> length fs = length (pa_outputs args) ->
  store_inv st -> put_commit blake3_hex cfg src now st args fs total = (st', r) -> store_inv st'.
Proof.
  intros Hty Hlen Hinv. unfold put_commit.
  destruct (register_files _ _ _ _ _) as [bf [d|e]] eqn:Hreg; intros [= <- <-];
    apply register_files_spec in Hreg as [Hmono Hok].
  - destruct (Hok d eq_refl) as [-> Hfs].
    rewrite fst_zip in * by (rewrite length_map; lia).
    apply (inv_publish st _ (pa_key args) (put_meta cfg args fs)
      (published_row blake3_hex now (put_meta cfg args fs) total None)); try done.
    + unfold stored_meta, read_meta. cbn [entry_files]. rewrite lookup_insert_eq. cbn [mbind option_bind].
      by apply from_slice_to_vec.
    + intros k Hk. cbn [entry_files]. apply lookup_insert_ne. unfold meta_path. congruence.
  - apply (inv_files st); auto.
Qed.

(** ** Importing *)

Lemma move_verified_blobs_spec key fs st st' r :
  no_meta_artifact fs -> move_verified_blobs key fs st = (st', r) ->
  db st' = db st /\
  (forall k, entry_files st' !! meta_path k = entry_files st !! meta_path k) /\
  (forall h, is_Some (blob_files st !! h) -> is_Some (blob_files st' !! h)) /\
  (r = Ok tt -> forall f, f ∈ fs -> is_Some (blob_files st' !! hash f)).
Proof.
  revert st. induction fs as [|f fs IH]; intros st Hn; cbn [move_verified_blobs].
  { intros [= <- <-]. split_and!; auto. intros _ f []%not_elem_of_nil. }
  apply Forall_cons in Hn as [Hf Hn]. unfold move_verified_blob.
  destruct (blob_files st !! hash f) as [b|] eqn:Eb.
  - intros Hr. apply IH in Hr as (H1 & H2 & H3 & H4); [|done]. split_and!; auto.
    intros Hok g [->|Hg]%elem_of_cons; [apply H3; eauto|auto].
  - destruct (entry_files st !! _) as [bytes|]; [|intros [= <- <-]; by split_and!].
    intros Hr. apply IH in Hr as (H1 & H2 & H3 & H4); [|done]. cbn [db entry_files blob_files] in *.
    split_and!; auto.
    + intros k. rewrite H2. apply lookup_delete_ne. intros E. apply (Hf k).
      unfold artifact_path, meta_path in *. congruence.
    + intros h Hh. apply H3. rewrite lookup_insert_ne; [done|]. intros <-. rewrite Eb in Hh. by destruct Hh.
    + intros Hok g [->|Hg]%elem_of_cons; [apply H3; rewrite lookup_insert_eq; eauto|auto].
Qed.
(** What the check establishes lasts until the registration. *)
Lemma import_check_lasts seen st key meta :
  import_check blake3_hex cfg seen key = Ok meta -> undisturbed seen st key meta ->
  stored_meta st key = Some meta /\ verified_artifacts key (files meta) (entry_files st).
Proof.
  unfold import_check, undisturbed, stored_meta, read_meta. intros Hc [-> Hu]. inv_result.
  rename select (_ !! _ = Some _) into Hr. rewrite Hr. split; [done|].
  intros f bytes Hin Hb. specialize (Hu f bytes Hin Hb). rename select (try_fold _ _ _ = _) into Hf.
  clear -Hf Hin Hu. induction (files meta) as [|g fs IH]; [by apply not_elem_of_nil in Hin|].
  cbn [try_fold] in Hf. inv_result. apply elem_of_cons in Hin as [->|Hin]; [|by apply IH].
  rename select (check_restored_file _ _ _ _ = _) into Hck. unfold check_restored_file in Hck.
  inv_result. bool_to_prop. congruence.
Qed.
Lemma import_commit_inv now st st' key meta r :
  no_meta_artifact (files meta) -> stored_meta st key = Some meta ->
  store_inv st -> import_commit blake3_hex now st key meta = (st', r) -> store_inv st'.
Proof.
  intros Hn Hs Hinv. unfold import_commit.
  destruct (move_verified_blobs _ _ _) as [st1 [[]|e]] eqn:Hmv; intros [= <- <-];
    apply move_verified_blobs_spec in Hmv as (Hdb & Hmeta & Hmono & Hok); auto.
  - apply (inv_publish st _ key meta
      (published_row blake3_hex now meta (sum_sizes (files meta)) (Some now)));
      cbn; try done; [by rewrite Hdb| |auto..].
    rewrite <- Hs. by apply stored_meta_frame.
  - apply (inv_files st); auto.
Qed.

(** Every row of a reachable index is committed and every blob row referenced, so
    the statements that undo a crashed import find nothing. *)
Lemma index_settled st key :
  store_inv st -> delete_dead_blobs (drop_uncommitted key (db st)) = db st.
Proof.
  intros [[_ Hc] _ _ _ Hco]. unfold drop_uncommitted.
  assert (delete_dead_blobs (db st) = db st) as Hd.
  { unfold delete_dead_blobs, set_blobs. rewrite map_filter_id; [by destruct (db st)|].
    intros h row Hrow. cbn. specialize (Hc h). rewrite Hrow in Hc. lia. }
  destruct (entries (db st) !! key) as [row|] eqn:E; [|done]. by rewrite (Hco _ _ E).
Qed.
Lemma preflight_stored st keys es keys' :
  try_fold (preflight_entry st) keys es = Ok keys' ->
  Forall (fun e => stored_meta st (vre_cache_key e) = Some (vre_meta e)) es.
Proof.
  revert keys. induction es as [|e es IH]; intros keys; [constructor|]. cbn [try_fold].
  intros (k1 & Hp & Hr)%bind_Ok. constructor; [|by eapply IH].
  unfold preflight_entry in Hp. inv_result. bool_to_prop. subst. unfold stored_meta.
  rename select (read_meta _ _ = Some _) into Hm. by rewrite Hm.
Qed.
Lemma move_keeps key fs st st' r : move_verified_blobs key fs st = (st', r) -> blob_files st ⊆ blob_files st'.
Proof.
  revert st. induction fs as [|f fs IH]; intros st; cbn [move_verified_blobs]; [by intros [= <- _]|].
  unfold move_verified_blob. destruct (blob_files st !! hash f) eqn:Eb; [apply IH|].
  destruct (entry_files st !! _); [|by intros [= <- _]]. intros Hr%IH. etrans; [|exact Hr]. by apply insert_subseteq.
Qed.
(** A change that keeps every [meta.json], blob file and row. *)
Record extends (st st' : Store) : Prop := {
  ext_meta : forall k, entry_files st' !! meta_path k = entry_files st !! meta_path k;
  ext_blobs : blob_files st ⊆ blob_files st';
  ext_rows : entries (db st) ⊆ entries (db st');
}.
#[local] Instance extends_preorder : PreOrder extends.
Proof.
  split; [by intros st; split|]. intros st1 st2 st3 [Hm1 Hb1 He1] [Hm2 Hb2 He2].
  split; [intros k; by rewrite Hm2|by etrans..].
Qed.
Lemma import_entry_inv now st st' e r :
  no_meta_artifact (files (vre_meta e)) ->
  stored_meta st (vre_cache_key e) = Some (vre_meta e) -> store_inv st ->
  import_verified_entry blake3_hex now st e = (st', r) -> store_inv st' /\ extends st st'.
Proof.
  intros Hn Hs Hinv. unfold import_verified_entry. rewrite index_settled by done.
  assert (set_db (db st) st = st) as -> by (by destruct st).
  destruct (move_verified_blobs _ _ _) as [st1 r1] eqn:Hmv. pose proof (move_keeps _ _ _ _ _ Hmv) as Hbf.
  apply move_verified_blobs_spec in Hmv as (Hdb & Hmeta & Hmono & Hok); [|done].
  destruct r1 as [[]|err]; [|intros [= <- <-]; split; [apply (inv_files st); auto|by split; rewrite ?Hdb]].
  destruct (entries (db st) !! vre_cache_key e) as [row|] eqn:Erow; intros [= <- <-];
    [split; [apply (inv_files st); auto|by split; rewrite ?Hdb]|]. split.
  - apply (inv_publish st _ (vre_cache_key e) (vre_meta e)
      (published_row blake3_hex now (vre_meta e) (sum_sizes (files (vre_meta e))) (Some now)));
      cbn; try done; [|auto..]. rewrite <- Hs. by apply stored_meta_frame.
  - split; [done..|]. cbn. rewrite publish_entries. by apply insert_subseteq.
Qed.
Lemma import_entries_inv now es st n st' r :
  Forall (fun e => no_meta_artifact (files (vre_meta e))) es ->
  Forall (fun e => stored_meta st (vre_cache_key e) = Some (vre_meta e)) es -> store_inv st ->
  import_verified_entries blake3_hex now st n es = (st', r) -> store_inv st' /\ extends st st'.
Proof.
  intros Hn. revert st n. induction Hn as [|e es He Hn IH]; intros st n Hs Hinv; cbn [import_verified_entries].
  { by intros [= <- <-]. }
  apply Forall_cons in Hs as [Hs Hss]. destruct (import_verified_entry _ _ _ _) as [st1 r1] eqn:E1.
  apply import_entry_inv in E1 as [Hinv1 Hx1]; [|done..].
  destruct r1 as [n1|err]; [|by intros [= <- <-]]. intros Hr. apply IH in Hr as [Hinv2 Hx2]; [| |done].
  - split; [done|]. by etrans.
  - eapply Forall_impl; [exact Hss|]. cbn. intros x <-. apply stored_meta_frame, Hx1.
Qed.
Lemma import_batch_inv now es st st' r :
  Forall (vouched st) es -> import_preflight cfg st es = Ok tt -> store_inv st ->
  import_batch blake3_hex now st es = (st', r) -> store_inv st' /\ extends st st'.
Proof.
  intros Hv Hp Hinv. unfold import_preflight in Hp. inv_result.
  rename select (try_fold _ _ _ = _) into Hp. apply preflight_stored in Hp.
  unfold import_batch. destruct (import_verified_entries _ _ _ _ _) as [st1 r1] eqn:E1.
  apply import_entries_inv in E1 as [Hinv1 [Hm1 Hb1 He1]]; [|by eapply Forall_impl; [exact Hv|intros ? []]|done..].
  destruct r1 as [n|e]; intros [= <- <-]; [split; [done|by split]|]. split; [|by split].
  apply (inv_files st); cbn; auto. intros h _ [b Hb]. exists b. by eapply lookup_weaken.
Qed.

(** ** Removal *)

Lemma unmap_blobs_sub key hashes d h :
  is_Some (blobs (unmap_entry key hashes d).1 !! h) -> is_Some (blobs d !! h).
Proof.
  unfold unmap_entry, decrement_blobs. rewrite lookup_decrement. cbn [fst set_entry_blobs blobs].
  rewrite lookup_floor. destruct (blobs d !! h); cbn; [eauto|by intros []].
Qed.
Lemma unmap_frame key hashes d :
  entry_blobs (unmap_entry key hashes d).1 = delete_mappings key (entry_blobs d) /\
  entries (unmap_entry key hashes d).1 = entries d.
Proof. unfold unmap_entry, decrement_blobs. apply decrement_frame. Qed.

Lemma remove_commit_inv retainer now st st' key grace content meta tx :
  from_slice content = Some meta -> store_inv st ->
  remove_commit cfg retainer now st key grace content (map hash (files meta)) = Ok (st', tx) ->
  store_inv st'.
Proof.
  intros Hparse Hinv. unfold remove_commit. case_match; [by intros [= <- _]|]. intros Hc.
  apply bind_Ok in Hc as (blocked & _ & Hc). case_match; [by injection Hc as <- _|].
  destruct (entries (db st) !! key) as [row|] eqn:Erow; [|by injection Hc as <- _].
  case_bool_decide as Hours; [|by injection Hc as <- _].
  set (d0 := set_entries (delete key) (db st)) in Hc.
  destruct (unmap_entry key _ d0) as [d unlink] eqn:Eu. injection Hc as <- _.
  apply (f_equal fst) in Eu. cbn [fst] in Eu.
  destruct Hinv as [Hc Hm Hme Hb Hco].
  destruct (Hme key row Erow) as (m & Hs & Hrefs). unfold stored_meta in Hs. rewrite Hours in Hs.
  cbn in Hs. rewrite Hparse in Hs. injection Hs as ->.
  destruct (unmap_frame key (map hash (files m)) d0) as [Heb Hen]. rewrite Eu in Heb, Hen.
  split; cbn [set_db db]; rewrite ?Heb, ?Hen; cbn [d0 set_entries entries entry_blobs].
  - rewrite <- Eu. apply unmap_covered; [|done]. destruct Hc as [Hp Hcc]. by split.
  - intros k h. rewrite lookup_delete_mappings. case_decide; [by intros []|].
    intros Hk. rewrite lookup_delete_ne by done. by eapply Hm.
  - intros k r Hr. apply lookup_delete_Some in Hr as [Hne Hr]. destruct (Hme k r Hr) as (m' & Hs & Hk).
    exists m'. split; [done|]. intros h. unfold refs_of. rewrite lookup_delete_mappings.
    rewrite decide_False by done. apply Hk.
  - intros h Hh. rewrite <- Eu in Hh. by apply Hb, (unmap_blobs_sub key (map hash (files m)) d0).
  - intros k r [_ Hr]%lookup_delete_Some. by eapply Hco.
Qed.

(** The cleanup pass touches only what no row names. *)
Lemma unlink_fold_spec on_disk unlink st r :
  let st' := (fold_left (unlink_step on_disk) unlink (st, r)).1 in
  db st' = db st /\ entry_files st' = entry_files st /\
  forall h, blob_files st' !! h =
    if bool_decide (h ∈ map fst unlink /\ blobs (db st) !! h = None) then None
    else blob_files st !! h.
Proof.
  clear blake3_hex. cbv zeta. revert st r. induction unlink as [|[x sz] unlink IH]; intros st r; cbn [fold_left].
  { split_and!; [done..|]. intros h. rewrite bool_decide_eq_false_2; [done|].
    intros [[]%not_elem_of_nil _]. }
  unfold unlink_step at 2 4 6. destruct (blobs (db st) !! x) as [row|] eqn:Ex.
  - destruct (IH st r) as (-> & -> & Hb). split_and!; [done..|]. intros h. rewrite Hb.
    erewrite bool_decide_ext; [reflexivity|]. cbn. rewrite elem_of_cons. naive_solver.
  - match goal with |- context [(?a, ?b)] => destruct (IH a b) as (-> & -> & Hb) end.
    split_and!; [done..|]. intros h. rewrite Hb.
    cbn [set_blob_files db blob_files map fst]. destruct (decide (x = h)) as [->|Hne].
    + rewrite lookup_delete_eq, (bool_decide_eq_true_2 (h ∈ h :: _ /\ _)); [by case_match|].
      split; [by left|done].
    + rewrite lookup_delete_ne by done. erewrite bool_decide_ext; [reflexivity|]. rewrite elem_of_cons. naive_solver.
Qed.
Lemma remove_cleanup_inv on_disk st key unlink :
  store_inv st -> store_inv (remove_cleanup on_disk st key unlink).1.
Proof.
  intros Hinv. unfold remove_cleanup.
  set (st1 := if entries (db st) !! key is Some _ then st else _).
  assert (store_inv st1) as Hinv1.
  { subst st1. destruct (entries (db st) !! key) eqn:E; [done|]. apply (inv_files st); auto.
    intros k Hk. cbn. unfold meta_path. rewrite lookup_remove_dir.
    case_decide; [|done]. subst. rewrite E in Hk. by destruct Hk. }
  clearbody st1. destruct (unlink_fold_spec on_disk unlink st1
    {| freed_bytes := 0; blobs_unlinked := 0; disk_bytes_reclaimed := 0 |}) as (Hdb & Hef & Hbf).
  apply (inv_files st1); [done|done|intros; by rewrite Hef|].
  intros h [row Hrow] Hfile. rewrite Hbf, bool_decide_eq_false_2; [done|].
  rewrite Hrow. by intros [_ ?].
Qed.

(** ** Everything else *)

Lemma add_blob_ref_covered d f : covered d -> covered (add_blob_ref d f).
Proof.
  intros Hc. destruct (add_refs_covered [f] d Hc) as [Hp Hcc]. split; [done|].
  intros h. specialize (Hcc h). cbn [fold_left map] in Hcc.
  pose proof (count_nonneg h [hash f]). pose proof (mapping_total_nonneg _ h Hp).
  change (entry_blobs (add_blob_ref d f)) with (entry_blobs d).
  destruct (blobs (add_blob_ref d f) !! h); lia.
Qed.
Lemma migrate_step_inv key st f :
  (forall k, artifact_path k (name f) <> meta_path k) -> store_inv st ->
  store_inv (migrate_step key st f).
Proof.
  intros Hn Hinv. unfold migrate_step.
  destruct (entry_files st !! artifact_path key (name f)) as [bytes|]; [|done].
  destruct Hinv as [Hc Hm Hme Hb Hco].
  split; cbn [db add_blob_ref set_blobs entries entry_blobs blob_files]; auto.
  - by apply add_blob_ref_covered.
  - intros k row Hrow. erewrite stored_meta_frame; [by eapply Hme|]. cbn.
    apply lookup_delete_ne. intros E. apply (Hn k). unfold artifact_path, meta_path in *. congruence.
  - intros h Hh. destruct (decide (hash f = h)) as [<-|Hne];
      [apply (adopt_blob_spec _ _ _ "")|]. apply adopt_blob_spec, Hb.
    revert Hh. unfold add_blob_ref. cbn.
    by destruct (blobs (db st) !! hash f); rewrite lookup_insert_ne.
Qed.
Lemma migrate_inv st st' meta r :
  no_meta_artifact (files meta) -> store_inv st ->
  migrate_entry_to_blobs blake3_hex st meta = (st', r) -> store_inv st'.
Proof.
  intros Hn Hinv. unfold migrate_entry_to_blobs.
  destruct (entries (db st) !! cache_key meta) as [row|]; [|by intros [= <- _]].
  destruct (er_committed row); [|by intros [= <- _]].
  case_match; intros [= <- _]; [|done]. clear -Hn Hinv. generalize (cache_key meta) as key.
  intros key. revert st Hinv. induction Hn as [|f fs Hf Hn IH]; intros st Hinv; [done|].
  cbn [fold_left]. apply IH. by apply migrate_step_inv.
Qed.

(** Replacing a row by another committed one. *)
Lemma inv_update_row st key row :
  store_inv st -> is_Some (entries (db st) !! key) -> er_committed row = true ->
  store_inv (set_db (set_entries (<[key := row]>) (db st)) st).
Proof.
  intros [Hc Hm Hme Hb Hco] [row0 H0] Hr. split; cbn [set_db db set_entries entries entry_blobs blobs].
  - destruct Hc as [Hp Hcc]. by split.
  - intros k h Hk. destruct (decide (key = k)) as [<-|]; [by rewrite lookup_insert_eq|].
    rewrite lookup_insert_ne by done. by eapply Hm.
  - intros k r Hk. change (stored_meta (set_db _ st) k) with (stored_meta st k).
    apply lookup_insert_Some in Hk as [[<- <-]|[_ Hk]]; by eapply Hme.
  - done.
  - intros k r Hk. apply lookup_insert_Some in Hk as [[<- <-]|[_ Hk]]; [done|by eapply Hco].
Qed.
Lemma record_hit_inv now st key : store_inv st -> store_inv (record_hit now st key).
Proof.
  intros Hinv. unfold record_hit. destruct (entries (db st) !! key) as [row|] eqn:E; [|done].
  case_match; [|done]. apply inv_update_row; eauto. cbn. by eapply inv_committed.
Qed.
Lemma flush_inv st st' key flushed :
  store_inv st -> flush_entry_durability blake3_hex cfg st key = Ok (st', flushed) -> store_inv st'.
Proof.
  intros Hinv. unfold flush_entry_durability. intros Hf. inv_result.
  destruct (entries (db st) !! key) as [row|] eqn:E; [|by injection H1 as <- _].
  case_match; injection H1 as <- _; [|done]. apply inv_update_row; eauto. cbn. by eapply inv_committed.
Qed.
Lemma sweep_inv st st' old :
  store_inv st -> sweep_orphan_blobs cfg old st = Ok st' -> store_inv st'.
Proof.
  intros Hinv. unfold sweep_orphan_blobs. intros Hs. inv_result.
  apply (inv_files st); [done|done|done|]. intros h Hrow [bytes Hb]. exists bytes.
  cbn. apply map_lookup_filter_Some. split; [done|]. unfold is_orphan. cbn.
  rewrite (bool_decide_eq_true_2 _ Hrow). apply andb_false_r.
Qed.
Lemma discard_inv st st' key :
  store_inv st -> discard_uncommitted_restored_entry cfg st key = Ok st' -> store_inv st'.
Proof.
  intros Hinv. unfold discard_uncommitted_restored_entry. intros Hs. inv_result.
  destruct (entries (db st) !! key) as [row|] eqn:E.
  { by rewrite (inv_committed _ Hinv _ _ E). }
  apply (inv_files st); [done|done| |done]. intros k Hk. cbn. unfold meta_path.
  rewrite lookup_remove_dir. case_decide; [|done]. subst. rewrite E in Hk. by destruct Hk.
Qed.

Lemma extract_keeps st key m k :
  keeps_indexed_meta st key m -> (forall k p, k <> key -> m !! (k, p) = entry_files st !! (k, p)) ->
  is_Some (entries (db st) !! k) -> m !! meta_path k = entry_files st !! meta_path k.
Proof. intros Hm Ho Hk. destruct (decide (k = key)) as [->|]; [by apply Hm|by apply Ho]. Qed.
Lemma step_inv good st st' : step good st st' -> store_inv st -> store_inv st'.
Proof.
  intros Hstep Hinv. destruct Hstep.
  - apply (inv_files st); [done|done|done|]. intros h _ Hh. by apply adopt_blob_spec.
  - by eapply put_commit_inv.
  - apply (inv_files st); [done|done| |done]. intros k Hk. cbn. by eapply extract_keeps.
  - eapply import_commit_inv; eauto. by eapply import_check_lasts.
  - by eapply import_batch_inv.
  - apply (inv_files st); [done|done| |done]. intros k _. cbn. by apply no_meta_delete.
  - by eapply discard_inv.
  - by eapply remove_commit_inv.
  - by apply remove_cleanup_inv.
  - by eapply migrate_inv.
  - by apply record_hit_inv.
  - by eapply flush_inv.
  - by eapply sweep_inv.
Qed.
Lemma reachable_inv good st : rtc (step good) empty_store st -> store_inv st.
Proof.
  intros Hr. assert (forall a b, rtc (step good) a b -> store_inv a -> store_inv b) as Hgo.
  { intros a b Hab. induction Hab; eauto using step_inv. }
  eapply Hgo; eauto using empty_inv.
Qed.
End Steps.
