(* ===== verification/StoreProofs.v ===== *)
(** * What the store guarantees

    Safety over every interleaving of the steps of [StoreSteps], and the
    functional behaviour of put, get and removal. *)

From S2P Require Import Prelude Strings Codec Format StorePolicy StoreIndex StoreIndexProofs Store.
From S2P Require Import StoreSteps.
#[local] Open Scope string_scope.
#[local] Open Scope Z_scope.

#[local] Set Default Proof Using "Type".

Section Safety.
Context (blake3_hex : string -> string) `{!JsonCodec EntryMeta} `{ArtifactPolicy}.
Context (cfg : Config).

Lemma inv_row_files st key row :
  store_inv st -> entries (db st) !! key = Some row ->
  exists meta, stored_meta st key = Some meta /\
    forall f, f ∈ files meta -> is_Some (blob_files st !! hash f) /\
      exists b, blobs (db st) !! hash f = Some b /\
        count (hash f) (map hash (files meta)) <= br_refcount b.
Proof.
  intros [[Hp Hc] Hm Hme Hb Hco] Hrow. destruct (Hme key row Hrow) as (meta & Hs & Hrefs).
  exists meta. split; [done|]. intros f Hf. specialize (Hc (hash f)).
  assert (0 < count (hash f) (map hash (files meta))) as Hpos.
  { apply count_pos, list_elem_of_fmap. eauto. }
  pose proof (refs_of_le_total _ key (hash f) Hp) as Hle. rewrite Hrefs in Hle.
  destruct (blobs (db st) !! hash f) as [b|] eqn:Eb; [|lia].
  split; [apply Hb; eauto|]. exists b. split; [done|]. lia.
Qed.


(** ** Content *)

Lemma addressed_insert bf h bytes :
  addressed blake3_hex bf -> blake3_hex bytes = h -> addressed blake3_hex (<[h := bytes]> bf).
Proof. intros Ha Hh k b [[<- <-]|[_ Hb]]%lookup_insert_Some; [done|by apply Ha]. Qed.
Lemma addressed_sub bf bf' : addressed blake3_hex bf -> bf' ⊆ bf -> addressed blake3_hex bf'.
Proof. intros Ha Hs h b Hb. apply Ha. by eapply lookup_weaken. Qed.

(** Runs in which no put found that a source had changed under it. *)
Definition sources_stable (r : result StoreError unit) : Prop :=
  forall n, r <> Err (DigestChanged n).

Lemma register_addressed src l d bf bf' r :
  register_files blake3_hex src l d bf = (bf', r) ->
  (forall n, r <> Err (DigestChanged n)) -> addressed blake3_hex bf -> addressed blake3_hex bf'.
Proof.
  revert d bf. induction l as [|[f path] l IH]; intros d bf; cbn [register_files].
  { by intros [= <- _]. }
  unfold rematerialize_and_verify. destruct (bf !! hash f) eqn:Eb; [apply IH|].
  destruct (src path) as [[bytes ex]|]; [|by intros [= <- _]].
  unfold ensure. destruct (String.eqb_spec (blake3_hex bytes) (hash f)) as [Eh|_].
  - intros Hr Hn Ha. eapply IH; eauto using addressed_insert.
  - intros [= _ <-] Hn. by destruct (Hn (name f)).
Qed.
Lemma put_commit_addressed src now st st' args fs total r :
  put_commit blake3_hex cfg src now st args fs total = (st', r) -> sources_stable r ->
  addressed blake3_hex (blob_files st) -> addressed blake3_hex (blob_files st').
Proof.
  unfold put_commit. destruct (register_files _ _ _ _ _) as [bf [d|e]] eqn:Hreg;
    intros [= <- <-] Hs Ha; eapply register_addressed; eauto.
  intros n [= ->]. by apply (Hs n).
Qed.

Lemma move_addressed key fs st st' r :
  verified_artifacts blake3_hex key fs (entry_files st) -> move_verified_blobs key fs st = (st', r) ->
  addressed blake3_hex (blob_files st) -> addressed blake3_hex (blob_files st').
Proof.
  revert st. induction fs as [|f fs IH]; intros st Hv; cbn [move_verified_blobs].
  { by intros [= <- _]. }
  assert (verified_artifacts blake3_hex key fs (entry_files st)) as Hv'.
  { intros g b Hg. apply Hv. by right. }
  unfold move_verified_blob. destruct (blob_files st !! hash f) eqn:Eb; [by apply IH|].
  destruct (entry_files st !! _) as [bytes|] eqn:Ea; [|by intros [= <- _]].
  intros Hr Ha. apply IH in Hr; [done| |].
  - intros g b Hg. cbn. intros [_ Hl]%lookup_delete_Some. by apply Hv'.
  - cbn. apply addressed_insert; [done|]. apply (Hv f); [by left|done].
Qed.
Lemma import_commit_addressed now st st' key meta r :
  verified_artifacts blake3_hex key (files meta) (entry_files st) ->
  import_commit blake3_hex now st key meta = (st', r) ->
  addressed blake3_hex (blob_files st) -> addressed blake3_hex (blob_files st').
Proof.
  intros Hv. unfold import_commit.
  destruct (move_verified_blobs _ _ _) as [st1 [[]|e]] eqn:Hm; intros [= <- _];
    cbn; eauto using move_addressed.
Qed.

(** Moving blobs only takes files away, so what is vouched for stays so. *)
Lemma move_entry_files key fs st st' r :
  move_verified_blobs key fs st = (st', r) -> entry_files st' ⊆ entry_files st.
Proof.
  revert st. induction fs as [|f fs IH]; intros st; cbn [move_verified_blobs]; [by intros [= <- _]|].
  unfold move_verified_blob. destruct (blob_files st !! hash f); [apply IH|].
  destruct (entry_files st !! _); [|by intros [= <- _]]. intros Hr%IH. etrans; [exact Hr|]. apply delete_subseteq.
Qed.
Lemma import_entry_addressed now st st' e r :
  vouched blake3_hex st e -> import_verified_entry blake3_hex now st e = (st', r) ->
  addressed blake3_hex (blob_files st) ->
  addressed blake3_hex (blob_files st') /\ entry_files st' ⊆ entry_files st.
Proof.
  intros [_ Hv]. unfold import_verified_entry.
  destruct (move_verified_blobs _ _ _) as [st1 r1] eqn:Hm. intros Hr Ha.
  pose proof (move_entry_files _ _ _ _ _ Hm) as Hsub.
  assert (addressed blake3_hex (blob_files st1)) as Ha1 by (eapply move_addressed; [|exact Hm|]; done).
  destruct r1 as [[]|]; [|by simplify_eq]. by case_match; simplify_eq.
Qed.
Lemma import_batch_addressed now es st st' r :
  Forall (vouched blake3_hex st) es -> import_batch blake3_hex now st es = (st', r) ->
  addressed blake3_hex (blob_files st) -> addressed blake3_hex (blob_files st').
Proof.
  intros Hv. unfold import_batch. destruct (import_verified_entries _ _ _ _ _) as [st1 r1] eqn:E1.
  assert (addressed blake3_hex (blob_files st) -> addressed blake3_hex (blob_files st1)) as Hgo;
    [|by destruct r1; intros [= <- _]].
  revert st E1 Hv. generalize 0 as n. induction es as [|e es IH]; intros n st; cbn [import_verified_entries].
  { by intros [= <- _]. }
  destruct (import_verified_entry _ _ _ _) as [st2 r2] eqn:E2. intros Hr [He Hes]%Forall_cons Ha.
  destruct (import_entry_addressed _ _ _ _ _ He E2 Ha) as [Ha2 Hsub].
  destruct r2; [|by simplify_eq]. eapply IH; [exact Hr| |done].
  eapply Forall_impl; [exact Hes|]. intros x [Hn Hx]. split; [done|]. intros f b Hf Hl.
  apply (Hx f b Hf). by eapply lookup_weaken.
Qed.

Lemma migrate_addressed_fold key fs st :
  Forall (fun f => blob_files st !! hash f = None -> forall b,
    entry_files st !! artifact_path key (name f) = Some b -> blake3_hex b = hash f) fs ->
  addressed blake3_hex (blob_files st) ->
  addressed blake3_hex (blob_files (fold_left (migrate_step key) fs st)).
Proof.
  revert st. induction fs as [|f fs IH]; intros st Hall Ha; [done|].
  apply Forall_cons in Hall as [Hf Hall]. cbn [fold_left].
  unfold migrate_step at 2. destruct (entry_files st !! _) as [artifact|] eqn:Ea; [|by apply IH].
  apply IH; cbn [entry_files blob_files]; unfold adopt_blob.
  - eapply Forall_impl; [exact Hall|]. cbn. intros g Hg Hn b [_ Hl]%lookup_delete_Some.
    apply Hg; [|done]. destruct (blob_files st !! hash f) eqn:Eb; [done|].
    by apply lookup_insert_None in Hn as [? _].
  - destruct (blob_files st !! hash f) eqn:Eb; [done|]. apply addressed_insert; auto.
Qed.
Lemma migrate_addressed st st' meta r :
  migrate_entry_to_blobs blake3_hex st meta = (st', r) ->
  addressed blake3_hex (blob_files st) -> addressed blake3_hex (blob_files st').
Proof.
  unfold migrate_entry_to_blobs.
  destruct (entries (db st) !! cache_key meta) as [row|]; [|by intros [= <- _]].
  destruct (er_committed row); [|by intros [= <- _]].
  destruct (_ ≫= _) as [u|e] eqn:Hck; intros [= <- _]; [|done]. intros Ha.
  apply migrate_addressed_fold; [|done]. clear -Hck.
  inv_result. rename select (try_fold _ _ _ = _) into Hf. revert Hf. generalize (files meta) as fs.
  induction fs as [|f fs IH]; intros Hf; [by constructor|]. cbn [try_fold] in Hf. inv_result.
  constructor; [|by apply IH]. intros Hn b Hb.
  rename select (migrate_check _ _ _ _ = _) into Hm. unfold migrate_check in Hm. inv_result.
  rewrite Hb, Hn in *. cbn [default] in *. inv_result. by bool_to_prop.
Qed.

Lemma step_addressed st st' :
  step blake3_hex cfg sources_stable st st' ->
  addressed blake3_hex (blob_files st) -> addressed blake3_hex (blob_files st').
Proof.
  intros Hstep Ha. destruct Hstep; cbn [blob_files set_entry_files]; try done.
  - cbn. unfold adopt_blob. case_match; [done|]. by apply addressed_insert.
  - eauto using put_commit_addressed.
  - eapply import_commit_addressed; [by eapply import_check_lasts|done..].
  - eauto using import_batch_addressed.
  - rename select (discard_uncommitted_restored_entry _ _ _ = _) into Hd.
    unfold discard_uncommitted_restored_entry in Hd. inv_result. by repeat case_match.
  - rename select (remove_commit _ _ _ _ _ _ _ _ = _) into Hd. unfold remove_commit in Hd.
    repeat (case_match || inv_result || simplify_eq); done.
  - unfold remove_cleanup. set (st1 := if entries (db st) !! key is Some _ then st else _).
    assert (blob_files st1 = blob_files st) as Hb by (subst st1; by case_match).
    destruct (unlink_fold_spec on_disk unlink st1
      {| freed_bytes := 0; blobs_unlinked := 0; disk_bytes_reclaimed := 0 |}) as (_ & _ & Hu).
    intros h b. rewrite Hu, Hb. case_match; [done|]. apply Ha.
  - eauto using migrate_addressed.
  - unfold record_hit. by repeat case_match.
  - rename select (flush_entry_durability _ _ _ _ = _) into Hd. unfold flush_entry_durability in Hd.
    repeat (case_match || inv_result || simplify_eq); done.
  - rename select (sweep_orphan_blobs _ _ _ = _) into Hd. unfold sweep_orphan_blobs in Hd.
    inv_result. cbn. eapply addressed_sub; [done|]. apply map_filter_subseteq.
Qed.

(** C34. Content addressing: in every run of the steps of [StoreSteps] in which no
    put's second phase finds its source changed ([sources_stable]), every blob
    file carries the bytes its name is the digest of.  The runs keep to the
    conditions of the steps; the artifacts of a download match their digests when
    it registers, and those of a batch are vouched for. *)
Theorem blobs_content_addressed st :
  rtc (step blake3_hex cfg sources_stable) empty_store st ->
  forall h bytes, blob_files st !! h = Some bytes -> blake3_hex bytes = h.
Proof.
  intros Hr. assert (forall a b, rtc (step blake3_hex cfg sources_stable) a b ->
    addressed blake3_hex (blob_files a) -> addressed blake3_hex (blob_files b)) as Hgo.
  { intros a b Hab. induction Hab; eauto using step_addressed. }
  eapply Hgo; [done|]. intros h b. cbn. by rewrite lookup_empty.
Qed.
End Safety.

(** ** Lookup *)

Section Lookup.
Context (blake3_hex : string -> string) `{!JsonCodec EntryMeta} `{ArtifactPolicy}.
Context (cfg : Config).

(** A file whose blob is on disk with the recorded size and, when the hit was
    verified, the recorded digest. *)
Definition served (verified : bool) (bf : gmap string string) (f : CachedFile) : Prop :=
  exists bytes, bf !! hash f = Some bytes /\ slen bytes = size f /\
    (verified = true -> blake3_hex bytes = hash f).
Lemma blob_ok_served v st f : blob_ok blake3_hex v st f = true -> served v (blob_files st) f.
Proof.
  unfold blob_ok, validate_blob_metadata, blob_matches, served.
  destruct (blob_files st !! hash f) as [bytes|]; [|done]. intros Hok. bool_to_prop.
  exists bytes. split_and!; [done|done|]. intros ->. cbn in *. by bool_to_prop.
Qed.
Lemma record_hit_blobs now st key : blob_files (record_hit now st key) = blob_files st.
Proof. unfold record_hit. by repeat case_match. Qed.
Lemma migrate_entries st meta st' r :
  migrate_entry_to_blobs blake3_hex st meta = (st', r) -> entries (db st') = entries (db st).
Proof.
  unfold migrate_entry_to_blobs. repeat case_match; intros [= <- _]; try done.
  clear. revert st. induction (files meta) as [|f fs IH]; intros st; [done|]. cbn [fold_left].
  rewrite IH. unfold migrate_step. by case_match.
Qed.

(** A hit is sound on any store whatsoever: [get] returns the metadata on
    disk of a committed entry, and after it every listed file has a blob of the
    recorded size; if the entry is not yet durable, or this hit was sampled for
    verification, the bytes also match the recorded digest. *)
Theorem get_hit_sound retainer on_disk now sample st st' key meta :
  get blake3_hex cfg retainer on_disk now sample st key = (st', Ok (Some meta)) ->
  contains_key st key = true /\ stored_meta st key = Some meta /\
  Forall (served (negb (entry_is_durable st key) || sample) (blob_files st')) (files meta).
Proof.
  unfold get. destruct (read_only cfg).
  { unfold get_read_only. destruct (contains_key st key) eqn:Ec; cbn [negb]; [|done].
    unfold stored_meta. destruct (read_meta st key) as [content|]; cbn; [|done].
    destruct (from_slice content) as [m|]; cbn; [|done]. case_match; [done|].
    case_match; [|done]. intros [= <- <-]. split_and!; [done..|].
    apply Forall_forall. intros f Hf. apply blob_ok_served.
    rename select (forallb _ _ = true) into Hall. rewrite forallb_forall in Hall.
    by apply Hall, list_elem_of_In. }
  destruct (contains_key st key) eqn:Ec; cbn [negb]; [|done]. unfold stored_meta.
  destruct (read_meta st key) as [content|]; cbn [with_context mbind result_bind option_bind]; [|done].
  destruct (from_slice content) as [m|]; cbn [with_context]; [|done].
  destruct (if existsb _ _ then _ else _) as [st1 [b|e]] eqn:Em; [|done].
  assert (entries (db st1) = entries (db st)) as Hent.
  { case_match; [by eapply migrate_entries|]. by injection Em as <- _. }
  destruct (forallb _ _) eqn:Hall; [|done]. intros [= <- <-]. split_and!; [done..|].
  rewrite record_hit_blobs. apply Forall_forall. intros f Hf.
  replace (entry_is_durable st key) with (entry_is_durable st1 key)
    by (unfold entry_is_durable; by rewrite Hent).
  rewrite forallb_forall in Hall. by apply blob_ok_served, Hall, list_elem_of_In.
Qed.
End Lookup.

(** ** Put, then get *)

Section PutGet.
Context (blake3_hex : string -> string) `{!JsonCodec EntryMeta} `{ArtifactPolicy}.
Context (cfg : Config).

(** The file record phase 1 makes of one output. *)
Definition output_file (src : Sources) (out : string * string) : option CachedFile :=
  '(bytes, ex) ← src out.1;
  Some {| name := out.2; size := slen bytes; hash := blake3_hex bytes; executable := ex |}.
(** The outputs collide with nothing: bytes with the digest of an output are
    that output. *)
Definition no_collision (src : Sources) (bf : gmap string string) : Prop :=
  forall path bytes ex, src path = Some (bytes, ex) ->
    (forall b, bf !! blake3_hex bytes = Some b -> b = bytes) /\
    (forall path' bytes' ex', src path' = Some (bytes', ex') ->
       blake3_hex bytes' = blake3_hex bytes -> bytes' = bytes).

Lemma stage_outputs_spec src ct outs st sg st' sg' :
  no_collision src (blob_files st) ->
  stage_outputs blake3_hex src ct st sg outs = (st', Ok sg') ->
  db st' = db st /\ entry_files st' = entry_files st /\ no_collision src (blob_files st') /\
  blob_files st ⊆ blob_files st' /\
  length (omap (output_file src) outs) = length outs /\
  sg_files sg' = (sg_files sg ++ omap (output_file src) outs)%list /\
  forall out, out ∈ outs -> exists bytes ex, src out.1 = Some (bytes, ex) /\
    blob_files st' !! blake3_hex bytes = Some bytes.
Proof.
  revert st sg. induction outs as [|[path store_name] outs IH]; intros st sg Hn; cbn [stage_outputs].
  { intros [= <- <-]. rewrite app_nil_r. split_and!; auto. intros ? []%not_elem_of_nil. }
  cbn [stage_output].
  destruct (is_safe_stored_artifact_name store_name); cbn [negb]; [|done].
  destruct (src path) as [[bytes ex]|] eqn:Es; [|done].
  assert (omap (output_file src) ((path, store_name) :: outs) =
    {| name := store_name; size := slen bytes; hash := blake3_hex bytes; executable := ex |}
    :: omap (output_file src) outs) as ->.
  { cbn. unfold output_file at 1. cbn. by rewrite Es. }
  destruct ((slen bytes =? 0) && _); [done|]. intros Hr. set (st1 := publish_staged_blob blake3_hex bytes st) in *.
  assert (blob_files st ⊆ blob_files st1 /\ blob_files st1 !! blake3_hex bytes = Some bytes
          /\ no_collision src (blob_files st1)) as (Hsub & Hhas & Hn1).
  { subst st1. cbn. unfold adopt_blob. destruct (blob_files st !! blake3_hex bytes) as [b|] eqn:Eb.
    - destruct (Hn path bytes ex Es) as [Hb _]. rewrite (Hb b Eb) in Eb. done.
    - split; [by apply insert_subseteq|]. rewrite lookup_insert_eq. split; [done|].
      intros p b e Hp. destruct (Hn p b e Hp) as [H1 H2]. split; [|done].
      intros b' [[Hh <-]|[_ Hl]]%lookup_insert_Some; [by eapply H2|by apply H1]. }
  apply IH in Hr as (H1 & H2 & H3 & H4 & H5 & H6 & H7); [|done].
  split_and!; [done|done|done|by trans (blob_files st1)|cbn; by rewrite H5| |].
  - rewrite H6. cbn [sg_files]. by rewrite <- app_assoc.
  - intros out [->|Hin]%elem_of_cons; [|by apply H7]. exists bytes, ex. split; [done|].
    by eapply lookup_weaken.
Qed.

(** With every blob in place, phase 2 registers without touching the disk. *)
Lemma register_present src l d bf :
  Forall (fun p => is_Some (bf !! hash p.1)) l ->
  register_files blake3_hex src l d bf = (bf, Ok (fold_left add_blob_ref (map fst l) d)).
Proof.
  revert d. induction l as [|[f path] l IH]; intros d Hall; [done|].
  apply Forall_cons in Hall as [[b Hb] Hall]. cbn [register_files map fold_left fst] in *.
  unfold rematerialize_and_verify. rewrite Hb. by apply IH.
Qed.

Lemma finish_strict_spec st key st' r :
  finish_strict_durability blake3_hex cfg st key = (st', r) ->
  (exists row, entries (db st) !! key = Some row /\ er_committed row = true) ->
  entry_files st' = entry_files st /\ blob_files st' = blob_files st /\
  exists row, entries (db st') !! key = Some row /\ er_committed row = true.
Proof.
  unfold finish_strict_durability, flush_entry_durability, refuse_write.
  intros Hf (row & Hl & Hc). destruct (durable_writes cfg); [|injection Hf as <- _; eauto].
  destruct (read_only cfg); cbn in Hf; [injection Hf as <- _; eauto|]. rewrite Hl in Hf.
  destruct (flush_ready _ _ _ _); cbn in Hf; injection Hf as <- _; cbn; [|eauto].
  rewrite lookup_insert_eq. eauto.
Qed.

(** The state a successful put leaves, up to the durability flag of its row. *)
Lemma put_ok_state src now st args st' r :
  no_collision src (blob_files st) -> put blake3_hex cfg src src now st args = (st', Ok r) ->
  let fs := omap (output_file src) (pa_outputs args) in
  let meta := put_meta cfg args fs in
  read_only cfg = false /\
  entry_files st' = <[meta_path (pa_key args) := to_vec meta]> (entry_files st) /\
  (exists row, entries (db st') !! pa_key args = Some row /\ er_committed row = true) /\
  length fs = length (pa_outputs args) /\
  forall out, out ∈ pa_outputs args -> exists bytes ex, src out.1 = Some (bytes, ex) /\
    blob_files st' !! blake3_hex bytes = Some bytes.
Proof.
  intros Hn. unfold put, refuse_write. destruct (read_only cfg); [done|]. cbn match.
  destruct (stage_outputs _ _ _ _ _ _) as [st1 [sg|]] eqn:Hst; [|done].
  apply stage_outputs_spec in Hst as (H1 & H2 & _ & _ & H5 & H6 & H7); [|done]. cbn in H6.
  unfold put_commit. rewrite H6, register_present.
  2:{ apply Forall_forall. intros [f p] Hin. cbn.
      apply elem_of_zip_l in Hin. apply list_elem_of_omap in Hin as ([q n] & Hout & Hof).
      destruct (H7 _ Hout) as (bytes & ex & Hsrc & Hb). unfold output_file in Hof. cbn in *.
      rewrite Hsrc in Hof. injection Hof as <-. by exists bytes. }
  destruct (finish_strict_durability _ _ _ _) as [st3 [[]|]] eqn:Hfin; [|done].
  apply finish_strict_spec in Hfin as (F1 & F2 & F3);
    [|cbn; rewrite lookup_insert_eq; eauto].
  intros [= <- _]. rewrite F1, F2. cbn. rewrite H2. split_and!; auto.
Qed.

(** A hit: an indexed entry whose blobs pass the checks and whose directory holds
    no legacy artifact. *)
Lemma get_hits retainer on_disk now sample st key meta :
  read_only cfg = false -> contains_key st key = true -> stored_meta st key = Some meta ->
  existsb (artifact_exists st key) (files meta) = false ->
  forallb (blob_ok blake3_hex (negb (entry_is_durable st key) || sample) st) (files meta) = true ->
  get blake3_hex cfg retainer on_disk now sample st key = (record_hit now st key, Ok (Some meta)).
Proof.
  intros Hro Hc Hs Hna Hok. unfold get. rewrite Hro, Hc. cbn [negb].
  unfold stored_meta in Hs. destruct (read_meta st key) as [content|]; [|done]. cbn in Hs.
  cbn [with_context mbind result_bind]. rewrite Hs. cbn [with_context]. by rewrite Hna, Hok.
Qed.

(** C8. A put is readable.  When the sources are the same in both phases, no two of the
    sources and blobs have the same digest for different bytes, no output is called
    [meta.json] and none lies as a leftover file in the entry's directory, a [get]
    that follows a successful put is a hit on exactly the metadata the
    put described, whatever the verification mode, and the blob of every output
    holds that output's bytes. *)
Theorem put_then_get src now st args st' r retainer on_disk now' sample :
  let fs := omap (output_file src) (pa_outputs args) in
  let meta := put_meta cfg args fs in
  no_collision src (blob_files st) -> well_typed meta = true -> no_meta_artifact fs ->
  (forall f, f ∈ fs -> entry_files st !! artifact_path (pa_key args) (name f) = None) ->
  put blake3_hex cfg src src now st args = (st', Ok r) ->
  exists st'', get blake3_hex cfg retainer on_disk now' sample st' (pa_key args)
               = (st'', Ok (Some meta)) /\
    forall out, out ∈ pa_outputs args -> exists bytes ex,
      src out.1 = Some (bytes, ex) /\ blob_files st'' !! blake3_hex bytes = Some bytes.
Proof.
  intros fs meta Hn Hty Hnm Hempty Hput.
  destruct (put_ok_state _ _ _ _ _ _ Hn Hput) as (Hro & Hef & (row & Hrow & Hco) & Hlen & Hb).
  fold fs in Hef, Hlen. fold meta in Hef.
  assert (read_meta st' (pa_key args) = Some (to_vec meta)) as Hrm.
  { unfold read_meta. rewrite Hef. apply lookup_insert_eq. }
  assert (existsb (artifact_exists st' (pa_key args)) (files meta) = false) as Hna.
  { apply not_true_iff_false. intros (f & Hf & Ha)%existsb_exists.
    apply list_elem_of_In in Hf. unfold no_meta_artifact in Hnm. rewrite Forall_forall in Hnm.
    specialize (Hnm f Hf (pa_key args)). unfold artifact_exists in Ha.
    rewrite Hef, lookup_insert_ne in Ha by congruence.
    by rewrite (Hempty f Hf) in Ha. }
  assert (forallb (blob_ok blake3_hex (negb (entry_is_durable st' (pa_key args)) || sample) st')
    (files meta) = true) as Hok.
  { apply forallb_forall. intros f Hf. apply list_elem_of_In, list_elem_of_omap in Hf
      as ([p n] & Hout & Hof). destruct (Hb _ Hout) as (bytes & ex & Es & Hbytes).
    unfold output_file in Hof. cbn in *. rewrite Es in Hof. injection Hof as <-. unfold blob_ok, validate_blob_metadata, blob_matches.
    cbn [hash size]. by rewrite Hbytes, Z.eqb_refl, String.eqb_refl, orb_true_r. }
  exists (record_hit now' st' (pa_key args)). split; [|by rewrite record_hit_blobs].
  apply get_hits; [done| |unfold stored_meta; rewrite Hrm; by apply from_slice_to_vec|done|done].
  unfold contains_key. by rewrite Hrm, Hrow, Hco.
Qed.
End PutGet.

(** ** Removal *)

Section Removal.
Context `{!JsonCodec EntryMeta}.
Context (cfg : Config) (retainer : string -> bool) (on_disk : string -> option Z).

(** What a settled removal of [key], which listed [meta], leaves. *)
Record removed (key : string) (meta : EntryMeta) (st st' : Store) : Prop := {
  rm_rows : entries (db st') = delete key (entries (db st));
  rm_dir : forall p, entry_files st' !! (key, p) = None;
  rm_others : forall k p, k <> key -> entry_files st' !! (k, p) = entry_files st !! (k, p);
  rm_blobs : forall h row, blobs (db st) !! h = Some row ->
    blob_files st' !! h =
      if bool_decide (h ∈ map hash (files meta) /\ br_refcount row <= count h (map hash (files meta)))
      then None else blob_files st !! h;
  rm_inv : store_inv st';
}.

Lemma unmap_unlinked key hashes d h :
  covered d -> is_Some (blobs d !! h) ->
  (h ∈ map fst (unmap_entry key hashes d).2 <->
   blobs (unmap_entry key hashes d).1 !! h = None).
Proof.
  intros Hc Hh. unfold unmap_entry, decrement_blobs.
  set (st0 := (set_entry_blobs _ _, [])).
  assert (is_Some (blobs st0.1 !! h)) as [row Hrow].
  { change (is_Some (blobs (floor_blob_refs_at_mappings key d) !! h)). by rewrite floor_covered. }
  rewrite list_elem_of_fmap. split.
  - intros ([h' sz] & -> & Hin). apply elem_of_unlink in Hin as [[]%not_elem_of_nil|Hin].
    by destruct Hin as (? & _ & _ & ?).
  - intros Hn. exists (h, br_size row). split; [done|]. apply elem_of_unlink. right. eauto.
Qed.

(** The blobs a removal unlinks are those whose last references it held. *)
Lemma removal_unlinks key hashes d d' unlink h b :
  covered d -> unmap_entry key hashes d = (d', unlink) -> blobs d !! h = Some b ->
  (h ∈ map fst unlink /\ blobs d' !! h = None)
  <-> (h ∈ hashes /\ br_refcount b <= count h hashes).
Proof.
  intros Hcov Eu Hb. change unlink with (d', unlink).2. change d' with (d', unlink).1 at 2.
  rewrite <- Eu. rewrite unmap_unlinked by (rewrite ?Hb; eauto).
  unfold unmap_entry, decrement_blobs. rewrite lookup_decrement. cbn [fst set_entry_blobs blobs].
  rewrite floor_covered, Hb by done. cbn [mbind option_bind]. unfold decremented.
  rewrite <- count_pos. pose proof (count_nonneg h hashes).
  destruct (count h hashes =? 0) eqn:E1; bool_to_prop; [split; [by intros []|lia]|].
  destruct (br_refcount b - count h hashes <=? 0) eqn:E2; bool_to_prop.
  - split; [lia|]. done.
  - split; [by intros []|lia].
Qed.
(** A removal whose transaction committed, followed by its cleanup. *)
Lemma committed_removal now st key grace content meta st1 unlink st2 r :
  store_inv st -> read_meta st key = Some content -> from_slice content = Some meta ->
  remove_commit cfg retainer now st key grace content (map hash (files meta))
    = Ok (st1, Committed unlink) ->
  remove_cleanup on_disk st1 key unlink = (st2, r) ->
  (exists row, entries (db st) !! key = Some row) /\
  unmap_entry key (map hash (files meta)) (set_entries (delete key) (db st)) = (db st2, unlink) /\
  removed key meta st st2.
Proof.
  intros Hinv Hread Hparse Hcommit Ecl.
  pose proof (remove_commit_inv cfg _ _ _ _ _ _ _ _ _ Hparse Hinv Hcommit) as Hinv1.
  pose proof (remove_cleanup_inv on_disk _ key unlink Hinv1) as Hinv2.
  set (hashes := map hash (files meta)) in *. set (d0 := set_entries (delete key) (db st)).
  unfold remove_commit in Hcommit. case_match; [done|].
  apply bind_Ok in Hcommit as (blocked & _ & Hcommit). case_match; [done|].
  destruct (entries (db st) !! key) as [row|] eqn:Hrow; [|done].
  rewrite bool_decide_eq_true_2 in Hcommit by done. fold d0 in Hcommit.
  destruct (unmap_entry key hashes d0) as [d u] eqn:Eu. injection Hcommit as <- ->.
  destruct (unmap_frame key hashes d0) as [_ Hen]. rewrite Eu in Hen. cbn [fst] in Hen.
  assert (covered d0) as Hcov by (destruct (inv_covered _ Hinv) as [Hp Hc]; by split).
  rewrite Ecl in Hinv2.
  apply (f_equal fst) in Ecl. cbn [fst] in Ecl, Hinv2. unfold remove_cleanup in Ecl.
  cbn [set_db db] in Ecl. rewrite Hen in Ecl. cbn [d0 set_entries entries] in Ecl.
  rewrite lookup_delete_eq in Ecl.
  match type of Ecl with (fold_left _ _ (?a, ?b)).1 = _ =>
    destruct (unlink_fold_spec on_disk unlink a b) as (Udb & Uef & Ubf) end.
  rewrite Ecl in Udb, Uef, Ubf. cbn in Udb, Uef, Ubf. clear Ecl.
  split; [eauto|]. split; [by rewrite Udb|]. split; [by rewrite Udb| | | |done].
  - intros p. rewrite Uef, lookup_remove_dir. by rewrite decide_True.
  - intros k p Hk. rewrite Uef, lookup_remove_dir. by rewrite decide_False.
  - intros h b Hb. rewrite Ubf. erewrite bool_decide_ext; [reflexivity|].
    rewrite (removal_unlinks key hashes d0 d unlink h b) by done. done.
Qed.
Lemma remove_attempt_removes now st key row :
  store_inv st -> entries (db st) !! key = Some row ->
  exists meta r st', stored_meta st key = Some meta /\
    remove_entry_attempt cfg retainer on_disk now st key None = Ok (st', Done (Some r)) /\
    removed key meta st st'.
Proof.
  intros Hinv Hrow. destruct (inv_meta _ Hinv key row Hrow) as (meta & Hs & Hrefs).
  pose proof Hs as Hs'. unfold stored_meta in Hs'.
  apply bind_Some in Hs' as (content & Hread & Hparse).
  destruct (remove_commit cfg retainer now st key None content (map hash (files meta)))
    as [[st1 tx]|e] eqn:Hcommit.
  2:{ unfold remove_commit in Hcommit. cbn in Hcommit.
      rewrite Hrow, bool_decide_eq_true_2 in Hcommit by done. by case_match. }
  assert (exists unlink, tx = Committed unlink) as [unlink ->].
  { unfold remove_commit in Hcommit. cbn in Hcommit.
    rewrite Hrow, bool_decide_eq_true_2 in Hcommit by done. case_match. naive_solver. }
  destruct (remove_cleanup on_disk st1 key unlink) as [st2 r] eqn:Ecl.
  exists meta, r, st2. split; [done|]. split.
  { unfold remove_entry_attempt, remove_read. rewrite Hread, Hparse.
    cbn [mbind result_bind]. rewrite Hcommit. cbn [mbind result_bind]. by rewrite Ecl. }
  by eapply committed_removal.
Qed.

(** C9. Removing an entry removes that entry and nothing else: it succeeds on
    every indexed key; the row and the whole entry directory are gone, other
    directories are untouched; a blob file goes exactly when the entry held its
    last references; and the store invariant holds afterwards, so every other
    entry still has all of its files. *)
Theorem remove_entry_exact fuel now st key row :
  read_only cfg = false -> store_inv st -> entries (db st) !! key = Some row ->
  exists meta r st', stored_meta st key = Some meta /\
    remove_entry_guarded cfg (S fuel) retainer on_disk now st key None
      = Some (Ok (st', Reclaimed r)) /\
    removed key meta st st'.
Proof.
  intros Hro Hinv Hrow.
  destruct (remove_attempt_removes now st key row Hinv Hrow) as (meta & r & st' & Hs & Ha & Hr).
  exists meta, r, st'. split; [done|]. split; [|done].
  cbn [remove_entry_guarded]. unfold refuse_write. rewrite Hro. cbn [mbind result_bind].
  by rewrite Ha.
Qed.

(** The idle guard: an eviction that finds the entry accessed within the
    grace period leaves the store exactly as it was, and so does a remover whose
    row is already gone or whose [meta.json] was republished since it read it;
    only the holder of the current row releases references. *)
Theorem guarded_removal_backs_off now st key grace content hashes st' tx :
  remove_commit cfg retainer now st key grace content hashes = Ok (st', tx) ->
  (forall g row, grace = Some g -> entries (db st) !! key = Some row ->
     now - g <= er_last_accessed row) /\ is_Some grace
  \/ entries (db st) !! key = None \/ read_meta st key <> Some content ->
  st' = st /\ exists attempt, tx = RolledBack attempt.
Proof.
  unfold remove_commit. intros Hc Hwhy. case_match; [injection Hc as <- <-; eauto|].
  apply bind_Ok in Hc as (blocked & _ & Hc). case_match; [injection Hc as <- <-; eauto|].
  destruct (entries (db st) !! key) as [row|] eqn:Erow; [|injection Hc as <- <-; eauto].
  case_bool_decide; [|injection Hc as <- <-; eauto]. exfalso.
  destruct Hwhy as [[Hidle [g ->]]|[?|?]]; [|done|done]. specialize (Hidle g row eq_refl eq_refl). lia.
Qed.
End Removal.
