(* ===== verification/StoreRefinement.v ===== *)
(** * The store is a map

    What a client of the store may think of it: a map from cache keys to an
    entry, the entry's metadata and the bytes of each of its files, in which
    entries appear and disappear as a whole.  The index, the
    directories, reference counts, deferred unlinks and orphans refine that map. *)

From S2P Require Import Prelude Strings Codec Format StorePolicy StoreIndex StoreIndexProofs Store.
From S2P Require Import StoreSteps StoreProofs.
#[local] Open Scope string_scope.
#[local] Open Scope Z_scope.

#[local] Set Default Proof Using "Type".

Section Refinement.
Context (blake3_hex : string -> string) `{!JsonCodec EntryMeta} `{ArtifactPolicy}.
Context (cfg : Config).

(** ** The specification *)

Record Artifact := { art_meta : EntryMeta; art_contents : list string }.
Abbreviation Cache := (gmap string Artifact).
(** The contents are the bytes the metadata's digests name. *)
Definition genuine (a : Artifact) : Prop :=
  Forall2 (fun f bytes => blake3_hex bytes = hash f) (files (art_meta a)) (art_contents a).
Inductive cache_step : Cache -> Cache -> Prop :=
| cache_publish c key a : genuine a -> cache_step c (<[key := a]> c)
| cache_add c new : map_Forall (fun _ => genuine) new -> new ##ₘ c -> cache_step c (new ∪ c)
| cache_remove c key : cache_step c (delete key c).

(** ** Abstraction *)

Definition contents (st : Store) (meta : EntryMeta) : option (list string) :=
  mapM (fun f => blob_files st !! hash f) (files meta).
Definition artifact_of (st : Store) (key : string) : option Artifact :=
  meta ← stored_meta st key;
  cs ← contents st meta;
  Some {| art_meta := meta; art_contents := cs |}.
Definition abs (st : Store) : Cache := map_imap (fun key _ => artifact_of st key) (entries (db st)).

Lemma lookup_abs st key :
  abs st !! key = match entries (db st) !! key with Some _ => artifact_of st key | None => None end.
Proof. unfold abs. rewrite map_lookup_imap. by destruct (entries (db st) !! key). Qed.

Lemma contents_frame st st' meta :
  (forall f, f ∈ files meta -> blob_files st' !! hash f = blob_files st !! hash f) ->
  contents st' meta = contents st meta.
Proof.
  intros Hf. unfold contents. induction (files meta) as [|f fs IH]; [done|]. cbn.
  rewrite Hf by set_solver. rewrite IH by set_solver. done.
Qed.
(** An indexed entry is seen unchanged when its metadata and the blobs that have
    rows are. *)
Lemma artifact_frame st st' key :
  store_inv st -> is_Some (entries (db st) !! key) ->
  entry_files st' !! meta_path key = entry_files st !! meta_path key ->
  (forall h, is_Some (blobs (db st) !! h) -> blob_files st' !! h = blob_files st !! h) ->
  artifact_of st' key = artifact_of st key.
Proof.
  intros Hinv [row Hrow] Hm Hb. unfold artifact_of. rewrite (stored_meta_frame st st' key Hm).
  destruct (inv_row_files st key row Hinv Hrow) as (meta & -> & Hfs). cbn.
  rewrite (contents_frame st st'); [done|]. intros f Hf. apply Hb.
  destruct (Hfs f Hf) as (_ & b & Hrow' & _). eauto.
Qed.
Lemma abs_same st st' :
  store_inv st ->
  (forall key, is_Some (entries (db st') !! key) <-> is_Some (entries (db st) !! key)) ->
  (forall key, is_Some (entries (db st) !! key) ->
     entry_files st' !! meta_path key = entry_files st !! meta_path key) ->
  (forall h, is_Some (blobs (db st) !! h) -> blob_files st' !! h = blob_files st !! h) ->
  abs st' = abs st.
Proof.
  intros Hinv He Hm Hb. apply map_eq. intros key. rewrite !lookup_abs. specialize (He key).
  destruct (entries (db st) !! key) eqn:E1, (entries (db st') !! key) eqn:E2; try done.
  - apply artifact_frame; auto.
  - by destruct (proj2 He (mk_is_Some _ _ eq_refl)).
  - by destruct (proj1 He (mk_is_Some _ _ eq_refl)).
Qed.
Lemma contents_present st meta :
  (forall f, f ∈ files meta -> is_Some (blob_files st !! hash f)) -> addressed blake3_hex (blob_files st) ->
  exists cs, contents st meta = Some cs /\ genuine {| art_meta := meta; art_contents := cs |}.
Proof.
  intros Hf Ha. unfold contents, genuine. cbn. induction (files meta) as [|f fs IH]; [exists []; by repeat constructor|].
  destruct IH as (cs & Ec & Hg); [intros g Hgin; apply Hf; set_solver|]. cbn.
  destruct (Hf f) as [b Eb]; [set_solver|]. rewrite Eb. cbn. rewrite Ec. exists (b :: cs). split; [done|]. constructor; auto.
Qed.
Lemma abs_publish st st' key row meta :
  store_inv st -> entries (db st') = <[key := row]> (entries (db st)) ->
  stored_meta st' key = Some meta ->
  (forall k, k <> key -> entry_files st' !! meta_path k = entry_files st !! meta_path k) ->
  (forall h, is_Some (blobs (db st) !! h) -> blob_files st' !! h = blob_files st !! h) ->
  (forall f, f ∈ files meta -> is_Some (blob_files st' !! hash f)) ->
  addressed blake3_hex (blob_files st') ->
  cache_step (abs st) (abs st').
Proof.
  intros Hinv He Hs Hm Hb Hf Ha. destruct (contents_present st' meta Hf Ha) as (cs & Ec & Hg).
  assert (abs st' = <[key := {| art_meta := meta; art_contents := cs |}]> (abs st)) as ->; [|by constructor].
  apply map_eq. intros k. rewrite lookup_abs, He. destruct (decide (key = k)) as [<-|Hne].
  - rewrite !lookup_insert_eq. unfold artifact_of. rewrite Hs. cbn. by rewrite Ec.
  - rewrite !lookup_insert_ne, lookup_abs by done. destruct (entries (db st) !! k) eqn:Ek; [|done].
    apply artifact_frame; [done|rewrite Ek; eauto|by apply Hm|done].
Qed.
Lemma abs_remove st st' key :
  store_inv st -> entries (db st') = delete key (entries (db st)) ->
  entry_files st' = entry_files st -> blob_files st' = blob_files st ->
  cache_step (abs st) (abs st').
Proof.
  intros Hinv He Hm Hb. assert (abs st' = delete key (abs st)) as ->; [|constructor].
  apply map_eq. intros k. rewrite lookup_abs, He. destruct (decide (key = k)) as [<-|Hne].
  - by rewrite !lookup_delete_eq.
  - rewrite !lookup_delete_ne, lookup_abs by done. destruct (entries (db st) !! k) eqn:Ek; [|done].
    apply artifact_frame; [done|rewrite Ek; eauto|by rewrite Hm|by intros; rewrite Hb].
Qed.

(** Rows are added, and the ones there stay as they were. *)
Lemma abs_add st st' :
  store_inv st -> store_inv st' -> addressed blake3_hex (blob_files st') ->
  entries (db st) ⊆ entries (db st') ->
  (forall key, entry_files st' !! meta_path key = entry_files st !! meta_path key) ->
  (forall h, is_Some (blobs (db st) !! h) -> blob_files st' !! h = blob_files st !! h) ->
  cache_step (abs st) (abs st').
Proof.
  intros Hinv Hinv' Ha Hrows Hm Hb.
  assert (abs st' = filter (fun p => abs st !! p.1 = None) (abs st') ∪ abs st) as ->.
  { apply map_eq. intros k. destruct (entries (db st) !! k) as [row|] eqn:Ek.
    - assert (abs st' !! k = abs st !! k) as Hk.
      { rewrite !lookup_abs, Ek, (lookup_weaken _ _ _ _ Ek Hrows). apply artifact_frame; auto. }
      rewrite lookup_union_r; [done|]. apply map_lookup_filter_None. right. cbn. intros a Ha' Hn. congruence.
    - assert (abs st !! k = None) as Hn by (by rewrite lookup_abs, Ek).
      rewrite lookup_union_l by done. symmetry. destruct (abs st' !! k) eqn:Ek'.
      + by apply map_lookup_filter_Some.
      + apply map_lookup_filter_None. by left. }
  constructor.
  - intros k a [Hk _]%map_lookup_filter_Some. rewrite lookup_abs in Hk.
    destruct (entries (db st') !! k) as [row|] eqn:Ek; [|done].
    destruct (inv_row_files st' k row Hinv' Ek) as (meta & Es & Hf).
    destruct (contents_present st' meta) as (cs & Ec & Hg); [intros f Hin; by apply Hf|done|].
    unfold artifact_of in Hk. rewrite Es in Hk. cbn in Hk. rewrite Ec in Hk. by simplify_eq/=.
  - apply map_disjoint_spec. intros k a b [_ Hk]%map_lookup_filter_Some Hb'. cbn in Hk. congruence.
Qed.

(** ** The steps *)

Lemma adopt_keeps h bytes bf : bf ⊆ adopt_blob h bytes bf.
Proof. unfold adopt_blob. destruct (bf !! h) eqn:E; [done|]. by apply insert_subseteq. Qed.
Lemma register_keeps src l d bf bf' r : register_files blake3_hex src l d bf = (bf', r) -> bf ⊆ bf'.
Proof.
  revert d bf. induction l as [|[f path] l IH]; intros d bf; cbn [register_files]; [by intros [= <- _]|].
  unfold rematerialize_and_verify. destruct (bf !! hash f) eqn:Eb; [apply IH|].
  destruct (src path) as [[bytes ex]|]; [|by intros [= <- _]]. unfold ensure. destruct (String.eqb _ _).
  - intros Hr%IH. etrans; [|exact Hr]. by apply insert_subseteq.
  - intros [= <- _]. by apply insert_subseteq.
Qed.
Lemma migrate_keeps key fs st :
  let st' := fold_left (migrate_step key) fs st in
  blob_files st ⊆ blob_files st' /\ entries (db st') = entries (db st).
Proof.
  apply (fold_left_inv _ (fun st' => blob_files st ⊆ blob_files st' /\ entries (db st') = entries (db st))); [done|].
  intros st1 f _ [Hb He]. unfold migrate_step. destruct (entry_files st1 !! _); [|done]. split; [|done].
  etrans; [exact Hb|apply adopt_keeps].
Qed.
(** Blobs with rows have files, so a larger blob directory shows them unchanged. *)
Lemma kept_rows st bf :
  store_inv st -> blob_files st ⊆ bf ->
  forall h, is_Some (blobs (db st) !! h) -> bf !! h = blob_files st !! h.
Proof.
  intros Hinv Hs h Hh. destruct (inv_blob _ Hinv h Hh) as [b Eb]. rewrite Eb. by eapply lookup_weaken.
Qed.

Lemma put_commit_refines src now st st' args fs total r :
  well_typed (put_meta cfg args fs) = true -> length fs = length (pa_outputs args) ->
  store_inv st -> addressed blake3_hex (blob_files st') ->
  put_commit blake3_hex cfg src now st args fs total = (st', r) ->
  abs st' = abs st \/ cache_step (abs st) (abs st').
Proof.
  intros Hty Hlen Hinv Ha. unfold put_commit.
  destruct (register_files _ _ _ _ _) as [bf [d|e]] eqn:Hreg; intros [= <- <-];
    pose proof (register_keeps _ _ _ _ _ _ Hreg) as Hk; apply register_files_spec in Hreg as [_ Hok].
  - right. destruct (Hok d eq_refl) as [-> Hfs]. rewrite fst_zip in * by (rewrite length_map; lia).
    apply (abs_publish st _ (pa_key args) (published_row blake3_hex now (put_meta cfg args fs) total None) (put_meta cfg args fs));
      [done| | | | |done|done].
    + cbn. f_equal. apply (publish_entries (pa_key args) fs (db st)).
    + unfold stored_meta, read_meta. cbn [entry_files]. rewrite lookup_insert_eq. cbn. by apply from_slice_to_vec.
    + intros k Hk'. cbn [entry_files]. apply lookup_insert_ne. unfold meta_path. congruence.
    + by apply kept_rows.
  - left. apply abs_same; [done|done|done|]. by apply kept_rows.
Qed.
Lemma import_commit_refines now st st' key meta r :
  no_meta_artifact (files meta) -> stored_meta st key = Some meta ->
  store_inv st -> addressed blake3_hex (blob_files st') ->
  import_commit blake3_hex now st key meta = (st', r) -> abs st' = abs st \/ cache_step (abs st) (abs st').
Proof.
  intros Hn Hs Hinv Ha. unfold import_commit.
  destruct (move_verified_blobs _ _ _) as [st1 [[]|e]] eqn:Hmv; intros [= <- <-];
    pose proof (move_keeps _ _ _ _ _ Hmv) as Hk; apply move_verified_blobs_spec in Hmv as (Hdb & Hmeta & _ & Hok); auto.
  - right. eapply (abs_publish st _ key _ meta); [done|cbn; rewrite publish_entries, Hdb; done| |..].
    + rewrite <- Hs. by apply stored_meta_frame.
    + intros k _. apply Hmeta.
    + by apply kept_rows.
    + by apply Hok.
    + done.
  - left. apply abs_same; [done|by rewrite Hdb|auto|]. by apply kept_rows.
Qed.
Lemma import_batch_refines now es st st' r :
  Forall (vouched blake3_hex st) es -> import_preflight cfg st es = Ok tt ->
  store_inv st -> addressed blake3_hex (blob_files st') ->
  import_batch blake3_hex now st es = (st', r) -> cache_step (abs st) (abs st').
Proof.
  intros Hv Hp Hinv Ha Hb. destruct (import_batch_inv _ _ _ _ _ _ _ Hv Hp Hinv Hb) as [Hinv' [Hm Hbf He]].
  apply abs_add; auto using kept_rows.
Qed.
Lemma remove_commit_refines retainer now st st' key grace content hashes tx :
  store_inv st -> remove_commit cfg retainer now st key grace content hashes = Ok (st', tx) ->
  abs st' = abs st \/ cache_step (abs st) (abs st').
Proof.
  intros Hinv. unfold remove_commit. case_match; [intros [= <- _]; by left|]. intros Hc.
  apply bind_Ok in Hc as (blocked & _ & Hc). case_match; [injection Hc as <- _; by left|].
  destruct (entries (db st) !! key) as [row|] eqn:Erow; [|injection Hc as <- _; by left].
  case_bool_decide as Hours; [|injection Hc as <- _; by left].
  set (d0 := set_entries (delete key) (db st)) in Hc.
  destruct (unmap_frame key hashes d0) as [_ Hen].
  destruct (unmap_entry key _ d0) as [d unlink]. injection Hc as <- _. right.
  by apply (abs_remove st _ key).
Qed.
Lemma cleanup_refines on_disk st key unlink :
  store_inv st -> abs (remove_cleanup on_disk st key unlink).1 = abs st.
Proof.
  intros Hinv. unfold remove_cleanup. set (st1 := if entries (db st) !! key is Some _ then st else _).
  assert (db st1 = db st /\ blob_files st1 = blob_files st) as [Hd Hb] by (subst st1; by case_match).
  assert (forall k, is_Some (entries (db st) !! k) -> entry_files st1 !! meta_path k = entry_files st !! meta_path k) as Hm.
  { intros k Hk. subst st1. destruct (entries (db st) !! key) eqn:E; [done|]. cbn. unfold meta_path.
    rewrite lookup_remove_dir. case_decide; [|done]. subst. rewrite E in Hk. by destruct Hk. }
  clearbody st1. destruct (unlink_fold_spec on_disk unlink st1
    {| freed_bytes := 0; blobs_unlinked := 0; disk_bytes_reclaimed := 0 |}) as (Hdb & Hef & Hbf).
  apply abs_same; [done|by rewrite Hdb, Hd|intros; rewrite Hef; auto|].
  intros h [row Hrow]. rewrite Hbf, Hd, Hb, bool_decide_eq_false_2; [done|]. rewrite Hrow. by intros [_ ?].
Qed.
Lemma row_update_refines st key row row' :
  store_inv st -> entries (db st) !! key = Some row' ->
  abs (set_db (set_entries (<[key := row]>) (db st)) st) = abs st.
Proof.
  intros Hinv Hrow. apply abs_same; [done| |done|done]. intros k. cbn. destruct (decide (key = k)) as [<-|].
  - rewrite lookup_insert_eq, Hrow. split; eauto.
  - by rewrite lookup_insert_ne.
Qed.
Lemma migrate_refines st st' meta r :
  no_meta_artifact (files meta) -> store_inv st ->
  migrate_entry_to_blobs blake3_hex st meta = (st', r) -> abs st' = abs st.
Proof.
  intros Hn Hinv. unfold migrate_entry_to_blobs.
  destruct (entries (db st) !! cache_key meta) as [row|]; [|by intros [= <- _]].
  destruct (er_committed row); [|by intros [= <- _]]. case_match; intros [= <- _]; [|done].
  destruct (migrate_keeps (cache_key meta) (files meta) st) as [Hb He].
  apply abs_same; [done|by rewrite He| |by apply kept_rows].
  intros k _. apply (fold_left_inv _ (fun st' => entry_files st' !! meta_path k = entry_files st !! meta_path k)); [done|].
  intros st1 f Hf IH. unfold migrate_step.
  destruct (entry_files st1 !! artifact_path (cache_key meta) (name f)); [|done]. cbn. rewrite <- IH.
  apply lookup_delete_ne. unfold no_meta_artifact in Hn. rewrite Forall_forall in Hn. intros E.
  apply (Hn f Hf k). unfold artifact_path, meta_path in *. congruence.
Qed.
Lemma hit_refines now st key : store_inv st -> abs (record_hit now st key) = abs st.
Proof.
  intros Hinv. unfold record_hit. destruct (entries (db st) !! key) as [row|] eqn:E; [|done].
  case_match; [|done]. by eapply row_update_refines.
Qed.

Lemma step_refines st st' :
  store_inv st -> addressed blake3_hex (blob_files st) -> step blake3_hex cfg sources_stable st st' ->
  abs st' = abs st \/ cache_step (abs st) (abs st').
Proof.
  intros Hinv Ha Hstep. pose proof (step_addressed _ _ _ _ Hstep Ha) as Ha'. destruct Hstep.
  - left. apply abs_same; [done..|]. apply kept_rows; [done|apply adopt_keeps].
  - by eapply put_commit_refines.
  - left. apply abs_same; [done..| |done]. intros k Hk. cbn.
    by eapply extract_keeps.
  - eapply import_commit_refines; eauto. by eapply import_check_lasts.
  - right. by eapply import_batch_refines.
  - left. apply abs_same; [done..| |done]. intros k _. cbn. by apply no_meta_delete.
  - left. rename select (discard_uncommitted_restored_entry _ _ _ = _) into Hd.
    unfold discard_uncommitted_restored_entry in Hd. inv_result.
    destruct (entries (db st) !! key) as [row|] eqn:E; [by rewrite (inv_committed _ Hinv _ _ E)|].
    apply abs_same; [done..| |done]. intros k Hk. cbn. unfold meta_path. rewrite lookup_remove_dir.
    case_decide; [|done]. subst. rewrite E in Hk. by destruct Hk.
  - by eapply remove_commit_refines.
  - left. by apply cleanup_refines.
  - left. by eapply migrate_refines.
  - left. by apply hit_refines.
  - left. rename select (flush_entry_durability _ _ _ _ = _) into Hf. unfold flush_entry_durability in Hf.
    inv_result. destruct (entries (db st) !! key) as [row|] eqn:E; [|simplify_eq; done].
    case_match; simplify_eq; [|done]. by eapply row_update_refines.
  - left. rename select (sweep_orphan_blobs _ _ _ = _) into Hs. unfold sweep_orphan_blobs in Hs. inv_result.
    apply abs_same; [done..|]. intros h Hrow. destruct (inv_blob _ Hinv h Hrow) as [b Eb]. rewrite Eb. cbn.
    apply map_lookup_filter_Some. split; [done|]. unfold is_orphan. cbn.
    rewrite (bool_decide_eq_true_2 _ Hrow). apply andb_false_r.
Qed.
Lemma run_addressed st :
  rtc (step blake3_hex cfg sources_stable) empty_store st -> addressed blake3_hex (blob_files st).
Proof.
  intros Hr. assert (forall a b, rtc (step blake3_hex cfg sources_stable) a b ->
    addressed blake3_hex (blob_files a) -> addressed blake3_hex (blob_files b)) as Hgo.
  { intros a b Hab. induction Hab; eauto using step_addressed. }
  eapply Hgo; [done|]. intros h b. cbn. by rewrite lookup_empty.
Qed.
Lemma abs_rows st : store_inv st -> forall key, is_Some (entries (db st) !! key) <-> is_Some (abs st !! key).
Proof.
  intros Hinv key. rewrite lookup_abs. destruct (entries (db st) !! key) as [row|] eqn:E; [|done].
  split; [intros _|eauto]. destruct (inv_row_files st key row Hinv E) as (meta & Es & Hf).
  unfold artifact_of. rewrite Es. cbn.
  assert (exists cs, contents st meta = Some cs) as [cs ->]; [|by eexists].
  unfold contents. apply mapM_is_Some_2, Forall_forall. intros f Hin. by apply Hf.
Qed.


Lemma get_hit_state retainer on_disk now sample st key st' meta :
  get blake3_hex cfg retainer on_disk now sample st key = (st', Ok (Some meta)) ->
  is_Some (entries (db st) !! key) /\ stored_meta st key = Some meta
  /\ (st' = st \/ exists st1, st' = record_hit now st1 key
        /\ (st1 = st \/ exists r, migrate_entry_to_blobs blake3_hex st meta = (st1, r))).
Proof.
  unfold get, get_read_only, contains_key, stored_meta.
  destruct (read_meta st key) as [content|]; cbn [mbind option_bind]; [|by destruct (read_only cfg)].
  destruct (entries (db st) !! key) as [row|] eqn:E; [|by destruct (read_only cfg)].
  intros Hg. split; [eauto|]. revert Hg. destruct (read_only cfg).
  { destruct (negb (er_committed row)); [done|]. destruct (from_slice content) as [m|]; cbn; [|done].
    repeat case_match; intros [= <- <-]; auto. }
  destruct (negb (er_committed row)); [done|]. cbn. destruct (from_slice content) as [m|]; cbn; [|done].
  destruct (if existsb _ _ then _ else _) as [st1 [b|e]] eqn:Em; [|done].
  destruct (forallb _ _); [|done]. intros [= <- <-]. split; [done|]. right. exists st1. split; [done|].
  destruct (existsb _ _); [eauto|]. injection Em as <- _. by left.
Qed.

(** Reading through the refinement: on any reachable store, a hit returns the
    metadata of the artifact the map holds under that key, whose contents match
    their digests, and the lookup itself does not change the map.  (The entry
    lists no artifact called [meta.json].) *)
Theorem get_reads_cache retainer on_disk now sample st key st' meta :
  rtc (step blake3_hex cfg sources_stable) empty_store st ->
  no_meta_artifact (files meta) ->
  get blake3_hex cfg retainer on_disk now sample st key = (st', Ok (Some meta)) ->
  abs st' = abs st /\ exists a, abs st !! key = Some a /\ art_meta a = meta /\ genuine a.
Proof.
  intros Hr Hn Hg. pose proof (reachable_inv _ _ _ _ Hr) as Hinv.
  apply get_hit_state in Hg as (Hrow & Hs & Hst). split.
  - destruct Hst as [->|(st1 & -> & [->|[r Hm]])]; [done|by apply hit_refines|].
    rewrite hit_refines; [by eapply migrate_refines|by eapply migrate_inv].
  - pose proof Hrow as [a Ha]%(abs_rows st Hinv). exists a. split; [done|].
    rewrite lookup_abs in Ha. destruct (entries (db st) !! key) as [row|] eqn:E; [|done].
    destruct (inv_row_files st key row Hinv E) as (meta' & Es & Hf). simplify_eq.
    destruct (contents_present st meta) as (cs & Ec & Hgen); [intros f Hin; by apply Hf|by apply run_addressed|].
    unfold artifact_of in Ha. rewrite Hs in Ha. cbn in Ha. rewrite Ec in Ha. by injection Ha as <-.
Qed.
End Refinement.
