(* ===== verification/StoreWitness.v ===== *)
(** * Concrete stores

    The theorems of [StoreIndexProofs], [StoreProofs] and [StoreRefinement] at
    concrete inputs, and runs outside the conditions of [StoreSteps]. *)

From S2P Require Import Prelude Strings Codec Format StorePolicy StoreIndex StoreIndexProofs Store StoreSteps StoreProofs StoreRefinement.
#[local] Open Scope string_scope.
#[local] Open Scope Z_scope.

(** ** Stand-ins for the external functions *)

#[export] Instance serial_CachedFile : Serial CachedFile.
Proof.
  refine {| serialize r := quote_fields [serialize (name r); serialize (size r);
                                         serialize (hash r); serialize (executable r)];
    deserialize s := match fields s with
      | [a; b; c; d] =>
        a ← deserialize a; b ← deserialize b; c ← deserialize c; d ← deserialize d;
        Some (Build_CachedFile a b c d)
      | _ => None end |}.
  solve_serial.
Defined.
#[export] Instance serial_EntryMeta : Serial EntryMeta.
Proof.
  refine {| serialize r := quote_fields
      [serialize (cache_key r); serialize (key_schema r); serialize (crate_name r);
       serialize (crate_types r); serialize (files r); serialize (stdout r); serialize (stderr r);
       serialize (features r); serialize (target r); serialize (profile r);
       serialize (compile_time_ms r); serialize (emit_kinds r)];
    deserialize s := match fields s with
      | [a; b; c; d; e; f; g; h; i; j; k; l] =>
        a ← deserialize a; b ← deserialize b; c ← deserialize c; d ← deserialize d;
        e ← deserialize e; f ← deserialize f; g ← deserialize g; h ← deserialize h;
        i ← deserialize i; j ← deserialize j; k ← deserialize k; l ← deserialize l;
        Some (Build_EntryMeta a b c d e f g h i j k l)
      | _ => None end |}.
  solve_serial.
Defined.
#[export] Instance toy_meta_codec : JsonCodec EntryMeta := serial_codec EntryMeta.
#[export] Instance demo_policy : ArtifactPolicy :=
  {| allow_hardlink n := true; allow_empty n _ := false;
     emit_kind n := if starts_with "lib" n then Some "link" else None;
     stable_after_store _ := true |}.

Definition demo_cfg : Config :=
  {| read_only := false; deferred_durability := false; gc_evict_shared := false;
     verify_restores := VrOff; max_diagnostics_bytes := None;
     max_size := 4; upload_spool_max_jobs := 2 |}.
Definition demo_src : Sources := fun p =>
  if String.eqb p "target/libfoo.rlib" then Some ("rlib bytes", false)
  else if String.eqb p "target/libfoo.d" then Some ("deps", false) else None.
Definition demo_args (key : string) : PutArgs :=
  {| pa_key := key; pa_crate_name := "foo"; pa_crate_types := ["lib"]; pa_features := [];
     pa_target := "x86_64-unknown-linux-gnu"; pa_profile := "release";
     pa_outputs := [("target/libfoo.rlib", "libfoo.rlib"); ("target/libfoo.d", "foo.d")];
     pa_stdout := ""; pa_stderr := "warning: unused"; pa_compile_time_ms := 1200 |}.
Definition key1 : string := fmt_padded 64 1.
Definition key2 : string := fmt_padded 64 2.
(** Two entries that share both blobs. *)
Definition store1 : Store := (put toy_hex demo_cfg demo_src demo_src 1000 empty_store (demo_args key1)).1.
Definition store2 : Store := (put toy_hex demo_cfg demo_src demo_src 1010 store1 (demo_args key2)).1.
Definition put_ok : bool :=
  is_ok (put toy_hex demo_cfg demo_src demo_src 1000 empty_store (demo_args key1)).2.

(** ** A run *)

Definition demo_files : list CachedFile := omap (output_file toy_hex demo_src) (pa_outputs (demo_args key1)).
Definition run1 : Store :=
  publish_staged_blob toy_hex "deps" (publish_staged_blob toy_hex "rlib bytes" empty_store).
Definition run2 : Store := (put_commit toy_hex demo_cfg demo_src 1000 run1 (demo_args key1) demo_files 14).1.
Definition run3 : Store := (put_commit toy_hex demo_cfg demo_src 1010 run2 (demo_args key2) demo_files 14).1.

Lemma demo_no_meta : no_meta_artifact demo_files.
Proof. repeat constructor; intros key; vm_compute; discriminate. Qed.
Lemma demo_put_step good st key now :
  (forall r, r = Ok tt -> good r) -> well_typed (put_meta demo_cfg (demo_args key) demo_files) = true ->
  is_ok (put_commit toy_hex demo_cfg demo_src now st (demo_args key) demo_files 14).2 = true ->
  step toy_hex demo_cfg good st
    (put_commit toy_hex demo_cfg demo_src now st (demo_args key) demo_files 14).1.
Proof.
  intros Hg Hty Hok. eapply step_put_commit; [exact Hty|apply demo_no_meta|vm_compute; reflexivity
    |apply surjective_pairing|]. apply Hg.
  destruct (put_commit _ _ _ _ _ _ _ _) as [st' [[]|]]; [done|discriminate Hok].
Qed.
Lemma demo_run good : (forall r, r = Ok tt -> good r) -> rtc (step toy_hex demo_cfg good) empty_store run3.
Proof.
  intros Hg. eapply rtc_l; [apply step_publish|]. eapply rtc_l; [apply step_publish|]. fold run1.
  eapply rtc_l; [apply (demo_put_step good run1 key1 1000 Hg); vm_compute; reflexivity|]. fold run2.
  apply rtc_once. apply (demo_put_step good run2 key2 1010 Hg); vm_compute; reflexivity.
Qed.
Lemma run3_inv : store_inv run3.
Proof. eapply reachable_inv, (demo_run (fun _ => True)). done. Qed.

(** Another process downloads [key3]; between its check and its registration
    [key1] counts a hit. *)
Definition key3 : string := fmt_padded 64 3.
Definition fetched_files : list CachedFile :=
  [{| name := "libbar.rlib"; size := 7; hash := toy_hex "fetched"; executable := false |}].
Definition fetched_meta : EntryMeta := put_meta demo_cfg (demo_args key3) fetched_files.
Definition fetched_tree : gmap (string * list string) string :=
  <[meta_path key3 := to_vec fetched_meta]> (<[artifact_path key3 "libbar.rlib" := "fetched"]> (entry_files run3)).
Definition run4 : Store := set_entry_files fetched_tree run3.
Definition run5 : Store := record_hit 1020 run4 key1.
Definition run6 : Store := (import_commit toy_hex 1030 run5 key3 fetched_meta).1.
Lemma fetched_no_meta : no_meta_artifact (files fetched_meta).
Proof. repeat constructor; intros key; vm_compute; discriminate. Qed.
Lemma extract_two good st key p1 v1 p2 v2 :
  entries (db st) !! key = None ->
  step toy_hex demo_cfg good st (set_entry_files (<[(key, p1) := v1]> (<[(key, p2) := v2]> (entry_files st))) st).
Proof.
  intros E. apply (step_extract _ _ _ st key).
  - intros [row Hrow]. by rewrite E in Hrow.
  - intros k p Hk. rewrite !lookup_insert_ne; [done|congruence..].
Qed.
Lemma hit_between good now now' st key key' meta :
  no_meta_artifact (files meta) -> import_check toy_hex demo_cfg st key = Ok meta ->
  step toy_hex demo_cfg good (record_hit now st key') (import_commit toy_hex now' (record_hit now st key') key meta).1.
Proof.
  intros Hn Hc. eapply (step_import _ _ _ st); [exact Hn|exact Hc| |apply surjective_pairing].
  assert (entry_files (record_hit now st key') = entry_files st) as E by (unfold record_hit; by repeat case_match).
  unfold undisturbed. by rewrite E.
Qed.
Lemma download_run good : (forall r, r = Ok tt -> good r) -> rtc (step toy_hex demo_cfg good) empty_store run6.
Proof.
  intros Hg. etransitivity; [exact (demo_run good Hg)|].
  assert (step toy_hex demo_cfg good run3 run4) as He.
  { unfold run4, fetched_tree, meta_path, artifact_path. apply extract_two. vm_compute. reflexivity. }
  eapply rtc_l; [exact He|]. eapply rtc_l; [exact (step_hit toy_hex demo_cfg good run4 1020 key1)|]. apply rtc_once.
  apply (hit_between good 1020 1030 run4 key3 key1 fetched_meta fetched_no_meta). vm_compute. reflexivity.
Qed.


Lemma stable_ok r : r = Ok tt -> sources_stable r.
Proof. intros ->. by intros n. Qed.
Lemma blobs_content_addressed_witness :
  exists bytes, blob_files run6 !! toy_hex "fetched" = Some bytes /\ toy_hex bytes = toy_hex "fetched".
Proof.
  exists "fetched". assert (Hl : blob_files run6 !! toy_hex "fetched" = Some "fetched")
    by (vm_compute; reflexivity).
  split; [exact Hl|].
  exact (blobs_content_addressed toy_hex demo_cfg run6 (download_run _ stable_ok) _ _ Hl).
Defined.

Lemma get_hit_sound_witness :
  contains_key store2 key1 = true /\
  exists st' meta, get toy_hex demo_cfg (fun _ => false) (fun _ => None) 2000 true store2 key1
                   = (st', Ok (Some meta)).
Proof.
  assert (Hok : match (get toy_hex demo_cfg (fun _ => false) (fun _ => None) 2000 true store2 key1).2
                with Ok (Some _) => true | _ => false end = true) by (vm_compute; reflexivity).
  destruct (get toy_hex demo_cfg (fun _ => false) (fun _ => None) 2000 true store2 key1)
    as [st' [[meta|]|e]] eqn:E; [|discriminate Hok..].
  destruct (get_hit_sound toy_hex demo_cfg (fun _ => false) (fun _ => None) 2000 true store2 st'
    key1 meta E) as (Hc & _). split; [exact Hc|eauto].
Defined.

Lemma get_reads_cache_witness : exists a, abs run3 !! key1 = Some a /\ files (art_meta a) = demo_files.
Proof.
  assert (Hok : match (get toy_hex demo_cfg (fun _ => false) (fun _ => None) 2000 true run3 key1).2
                with Ok (Some m) => bool_decide (files m = demo_files) | _ => false end = true)
    by (vm_compute; reflexivity).
  destruct (get toy_hex demo_cfg (fun _ => false) (fun _ => None) 2000 true run3 key1)
    as [st' [[meta|]|e]] eqn:E; [|discriminate Hok..].
  apply bool_decide_eq_true_1 in Hok.
  destruct (get_reads_cache toy_hex demo_cfg (fun _ => false) (fun _ => None) 2000 true run3 key1 st' meta)
    as (_ & a & Ha & Hm & _); [exact (demo_run _ stable_ok)|rewrite Hok; exact demo_no_meta|exact E|].
  exists a. split; [exact Ha|]. rewrite Hm. exact Hok.
Defined.

Lemma put_then_get_witness :
  exists st'' meta, get toy_hex demo_cfg (fun _ => false) (fun _ => None) 2000 false store1 key1
                    = (st'', Ok (Some meta)).
Proof.
  destruct (put toy_hex demo_cfg demo_src demo_src 1000 empty_store (demo_args key1))
    as [st' [r|e]] eqn:E.
  - destruct (put_then_get toy_hex demo_cfg demo_src 1000 empty_store (demo_args key1) st' r
      (fun _ => false) (fun _ => None) 2000 false) as (st'' & Hg & _).
    + intros path bytes ex Hs. split; [intros b Hb; vm_compute in Hb; discriminate Hb|].
      intros path' bytes' ex' Hs'. revert Hs Hs'. unfold demo_src.
      repeat case_match; intros [= <- <-] [= <- <-]; [reflexivity| | |reflexivity];
        vm_compute; discriminate.
    + vm_compute. reflexivity.
    + apply demo_no_meta.
    + intros p. reflexivity.
    + exact E.
    + exists st''. eexists. unfold store1. rewrite E. exact Hg.
  - exfalso. assert (Hok : put_ok = true) by (vm_compute; reflexivity).
    unfold put_ok in Hok. rewrite E in Hok. discriminate Hok.
Defined.

Lemma remove_entry_exact_witness :
  exists r st', remove_entry_guarded demo_cfg 1 (fun _ => false) (fun _ => None) 2000 run3 key1 None
                = Some (Ok (st', Reclaimed r)) /\ store_inv st'.
Proof.
  destruct (entries (db run3) !! key1) as [row|] eqn:E.
  - destruct (remove_entry_exact demo_cfg (fun _ => false) (fun _ => None) 0 2000 run3 key1 row
      eq_refl run3_inv E) as (meta & r & st' & _ & Hr & Hrm).
    exists r, st'. split; [exact Hr|exact (rm_inv _ _ _ _ Hrm)].
  - exfalso. assert (Hc : contains_key run3 key1 = true) by (vm_compute; reflexivity).
    unfold contains_key in Hc. rewrite E in Hc. destruct (read_meta run3 key1); discriminate Hc.
Defined.

(** The entry was stored at 1000; an eviction at 1050 with two minutes' grace. *)
Lemma guarded_removal_backs_off_witness :
  exists attempt content hashes,
    remove_commit demo_cfg (fun _ => false) 1050 run3 key1 (Some EVICTION_IDLE_GRACE) content hashes
    = Ok (run3, RolledBack attempt).
Proof.
  exists (Done None), "", [].
  assert (Hr : match remove_commit demo_cfg (fun _ => false) 1050 run3 key1
                 (Some EVICTION_IDLE_GRACE) "" [] with
               | Ok (_, RolledBack (Done None)) => true | _ => false end = true)
    by (vm_compute; reflexivity).
  destruct (remove_commit demo_cfg (fun _ => false) 1050 run3 key1 (Some EVICTION_IDLE_GRACE) "" [])
    as [[st' tx]|e] eqn:E; [|discriminate Hr].
  destruct (guarded_removal_backs_off demo_cfg (fun _ => false) 1050 run3 key1
    (Some EVICTION_IDLE_GRACE) "" [] st' tx E) as [Hst _].
  - left. split; [|eauto]. intros g row [= <-] Hrow.
    assert (Hl : match entries (db run3) !! key1 with
                 | Some row => 1050 - EVICTION_IDLE_GRACE <=? er_last_accessed row
                 | None => false end = true) by (vm_compute; reflexivity).
    rewrite Hrow in Hl. apply Z.leb_le in Hl. exact Hl.
  - rewrite Hst. destruct tx as [[[r|]| |]|u]; [discriminate Hr|reflexivity|discriminate Hr..].
Defined.

(** ** The index *)

Lemma run3_refs : refs_positive (entry_blobs (db run3)).
Proof. apply run3_inv. Qed.
Lemma drift_clean_iff_balanced_witness : balanced (db run3).
Proof.
  apply (drift_clean_iff_balanced (db run3) run3_refs). vm_compute. reflexivity.
Defined.

(** A drifted index: the shared blob counts one reference for two owners. *)
Definition undercount (d : Db) : Db :=
  set_blobs (<[toy_hex "deps" := {| br_size := 4; br_refcount := 1 |}]>) d.
Definition drifted : Db := undercount (db run3).
Lemma undercount_refs d : refs_positive (entry_blobs d) -> refs_positive (entry_blobs (undercount d)).
Proof. done. Qed.
Lemma publish_never_steals_witness :
  exists row', blobs (publish_refs key1 [] drifted) !! toy_hex "deps" = Some row'
               /\ 1 <= br_refcount row'.
Proof.
  destruct (publish_never_steals key1 [] drifted (toy_hex "deps") {| br_size := 4; br_refcount := 1 |})
    as (row' & Hl & _ & Hle).
  - exact (undercount_refs (db run3) run3_refs).
  - apply lookup_insert_eq.
  - vm_compute. reflexivity.
  - exists row'. split; [exact Hl|]. etransitivity; [|exact Hle]. vm_compute. discriminate.
Defined.
Lemma removal_never_steals_witness :
  exists row', blobs (unmap_entry key1 (map hash demo_files) drifted).1 !! toy_hex "deps" = Some row'
               /\ 1 <= br_refcount row'.
Proof.
  destruct (removal_never_steals key1 (map hash demo_files) drifted (toy_hex "deps")
    {| br_size := 4; br_refcount := 1 |}) as (row' & Hl & _ & Hle).
  - exact (undercount_refs (db run3) run3_refs).
  - vm_compute. reflexivity.
  - apply lookup_insert_eq.
  - vm_compute. reflexivity.
  - exists row'. split; [exact Hl|]. etransitivity; [|exact Hle]. vm_compute. discriminate.
Defined.

(** ** Where the store's guarantees stop

    Runs that leave the conditions of [StoreSteps]: a source that changes under
    a put's second phase, a put that lands between the check and the
    registration of a download, and an artifact called [meta.json]. *)

(** ** A source that changes *)

Definition one_output (key out_name : string) : PutArgs :=
  {| pa_key := key; pa_crate_name := "foo"; pa_crate_types := ["lib"]; pa_features := [];
     pa_target := ""; pa_profile := "dev"; pa_outputs := [("out", out_name)];
     pa_stdout := ""; pa_stderr := ""; pa_compile_time_ms := 1 |}.
Definition only (bytes : string) : Sources := fun _ => Some (bytes, false).
Definition file_of (out_name bytes : string) : CachedFile :=
  {| name := out_name; size := slen bytes; hash := toy_hex bytes; executable := false |}.
(** The staged blob was reclaimed, and the output rewritten, before phase 2: the put
    fails, and leaves the changed bytes under the old digest. *)
Definition poisoned : Store :=
  (put_commit toy_hex demo_cfg (only "new") 1000 empty_store (one_output key1 "libfoo.rlib")
     [file_of "libfoo.rlib" "old"] 3).1.

(** The bytes left behind reach the next put of the true content: it adopts
    them without looking, commits its row, and cannot flush it. *)
Example next_put_adopts_changed_bytes :
  let r := put toy_hex demo_cfg (only "old") (only "old") 1010 poisoned (one_output key2 "libfoo.rlib") in
  blob_files poisoned !! toy_hex "old" = Some "new" /\
  r.2 = Err StillPending /\
  contains_key r.1 key2 = true /\ blob_files r.1 !! toy_hex "old" = Some "new".
Proof. vm_compute. split_and!; reflexivity. Qed.

(** ** A put between the check and the registration of a download *)

Definition downloaded_meta : EntryMeta :=
  put_meta demo_cfg (one_output key1 "libfoo.rlib") [file_of "libfoo.rlib" "downloaded"].
(** [key2] holds the blob of ["shared"]; a download for [key1] is extracted. *)
Definition race0 : Store :=
  let st := (put toy_hex demo_cfg (only "shared") (only "shared") 1000 empty_store
               (one_output key2 "libfoo.rlib")).1 in
  set_entry_files (<[meta_path key1 := to_vec downloaded_meta]>
    (<[artifact_path key1 "libfoo.rlib" := "downloaded"]> (entry_files st))) st.
(** A compile of [key1] that produced ["shared"] commits first, then the
    download registers the files it had checked. *)
Definition race1 : Store :=
  (put toy_hex demo_cfg (only "shared") (only "shared") 1001 race0 (one_output key1 "libfoo.rlib")).1.
Definition race2 : Store := (import_commit toy_hex 1002 race1 key1 downloaded_meta).1.
Definition race3 : Store := try_remove demo_cfg (fun _ => false) (fun _ => None) 2000 race2 key1.

(** A download that registers after a put of the same key committed leaves
    the put's [meta.json] over its own references; removing that entry then
    spends a reference of the entry it shared a blob with, and deletes the file
    that entry still serves from. *)
Example import_after_put_loses_shared_blob :
  import_check toy_hex demo_cfg race0 key1 = Ok downloaded_meta /\
  (import_commit toy_hex 1002 race1 key1 downloaded_meta).2 = Ok tt /\
  contains_key race3 key1 = false /\
  contains_key race3 key2 = true /\ blob_files race3 !! toy_hex "shared" = None.
Proof. vm_compute. split_and!; reflexivity. Qed.

(** ** An artifact called [meta.json] *)

Definition named_meta : Store :=
  (put toy_hex demo_cfg (only "bytes") (only "bytes") 1000 empty_store (one_output key1 "meta.json")).1.
Definition after_hit : Store :=
  (get toy_hex demo_cfg (fun _ => false) (fun _ => None) 1001 false named_meta key1).1.

(** [meta.json] passes as an artifact name; the first hit on such an entry
    takes its own metadata for a legacy artifact and deletes it, after which the
    entry can be neither read nor removed. *)
Example meta_json_artifact_strands_entry :
  is_safe_stored_artifact_name "meta.json" = true /\ contains_key named_meta key1 = true /\
  contains_key after_hit key1 = false /\ is_Some (entries (db after_hit) !! key1) /\
  remove_entry_guarded demo_cfg 1 (fun _ => false) (fun _ => None) 9000 after_hit key1 None
  = Some (Err MetaMissingRowPresent).
Proof. vm_compute. split_and!; try reflexivity. eauto. Qed.
