(* ===== verification/Float.v ===== *)
(** * Binary64

    [f64] as IEEE 754 binary64 arithmetic over the kernel's [spec_float]: the
    operations the eviction scores use, the order [partial_cmp] gives, and when a
    rounded result is a NaN, a zero or an infinity. *)

From Stdlib Require Import SpecFloat.
From S2P Require Import Prelude.
#[local] Open Scope Z_scope.

(** ** Operations *)

Definition f64 : Type := spec_float.
(** [i64 as f64], rounding to nearest even. *)
Definition f64_of_Z (z : Z) : f64 := binary_normalize 53 1024 z 0 false.
Definition f64_add : f64 -> f64 -> f64 := SFadd 53 1024.
Definition f64_mul : f64 -> f64 -> f64 := SFmul 53 1024.
Definition f64_div : f64 -> f64 -> f64 := SFdiv 53 1024.
Definition is_nan (x : f64) : bool := match x with S754_nan => true | _ => false end.
(** [f64::max], [f64::min]: a NaN operand is ignored. *)
Definition f64_max (x y : f64) : f64 :=
  match SFcompare x y with
  | Some Lt => y
  | Some _ => x
  | None => if is_nan x then y else x
  end.
Definition f64_min (x y : f64) : f64 :=
  match SFcompare x y with
  | Some Gt => y
  | Some _ => x
  | None => if is_nan x then y else x
  end.
(** [x > y] *)
Definition f64_gt (x y : f64) : bool := match SFcompare x y with Some Gt => true | _ => false end.
(** [partial_cmp(..).unwrap_or(Equal)] as a "not greater" test. *)
Definition f64_leb (x y : f64) : bool := match SFcompare x y with Some Gt => false | _ => true end.
(** [f64::total_cmp] on numbers: [-0.0] before [0.0], a NaN last. *)
Definition f64_total_cmp (x y : f64) : comparison :=
  match x, y with
  | S754_nan, S754_nan => Eq
  | S754_nan, _ => Gt
  | _, S754_nan => Lt
  | S754_zero true, S754_zero false => Lt
  | S754_zero false, S754_zero true => Gt
  | _, _ => match SFcompare x y with Some c => c | None => Eq end
  end.

(** The literals [0.01], [0.001] and [1_048_576.0]. *)
Definition f64_0_01 : f64 := Eval vm_compute in f64_div (f64_of_Z 1) (f64_of_Z 100).
Definition f64_0_001 : f64 := Eval vm_compute in f64_div (f64_of_Z 1) (f64_of_Z 1000).
Definition f64_mib : f64 := Eval vm_compute in f64_of_Z 1048576.
Definition f64_one : f64 := Eval vm_compute in f64_of_Z 1.

(** ** The order *)

(** A number's place in the order of [SFcompare]: class, exponent, mantissa. *)
Definition f64_rank (x : f64) : Z * Z * Z :=
  match x with
  | S754_infinity true => (-2, 0, 0)
  | S754_finite true m e => (-1, - e, - Zpos m)
  | S754_zero _ | S754_nan => (0, 0, 0)
  | S754_finite false m e => (1, e, Zpos m)
  | S754_infinity false => (2, 0, 0)
  end.
Definition rank_le (a b : Z * Z * Z) : Prop :=
  a.1.1 < b.1.1 \/ a.1.1 = b.1.1 /\ (a.1.2 < b.1.2 \/ a.1.2 = b.1.2 /\ a.2 <= b.2).

Lemma SFcompare_rank x y :
  is_nan x = false -> is_nan y = false ->
  (SFcompare x y = Some Gt <-> ~ rank_le (f64_rank x) (f64_rank y)) /\
  (SFcompare x y = Some Lt <-> ~ rank_le (f64_rank y) (f64_rank x)) /\
  SFcompare x y <> None.
Proof.
  unfold rank_le.
  destruct x as [[]|[]| |[] m e], y as [[]|[]| |[] m' e']; simpl; try discriminate; intros _ _;
    try fold (Pos.compare m m');
    try (destruct (Z.compare_spec e e'), (Pos.compare_spec m m'); simpl);
    (split; [|split; [|done]]); split; intros; first [done | discriminate | lia | exfalso; lia].
Qed.
Lemma f64_leb_rank x y :
  is_nan x = false -> is_nan y = false ->
  f64_leb x y = true <-> rank_le (f64_rank x) (f64_rank y).
Proof.
  intros Hx Hy. destruct (SFcompare_rank x y Hx Hy) as (Hgt & _ & _). unfold f64_leb.
  assert (Decision (rank_le (f64_rank x) (f64_rank y))) as [HR|HR]
    by (unfold rank_le; apply _); destruct (SFcompare x y) as [[]|]; naive_solver.
Qed.
Lemma f64_leb_total x y : f64_leb x y = true \/ f64_leb y x = true.
Proof.
  destruct (is_nan x) eqn:Hx; [destruct x; by left|].
  destruct (is_nan y) eqn:Hy; [destruct y; by right|].
  rewrite !f64_leb_rank by done. unfold rank_le. lia.
Qed.
Lemma f64_leb_trans x y z :
  is_nan x = false -> is_nan y = false -> is_nan z = false ->
  f64_leb x y = true -> f64_leb y z = true -> f64_leb x z = true.
Proof. intros Hx Hy Hz. rewrite !f64_leb_rank by done. unfold rank_le. lia. Qed.
Lemma f64_gt_leb x y :
  is_nan x = false -> is_nan y = false -> f64_gt x y = negb (f64_leb x y).
Proof. intros. unfold f64_gt, f64_leb. by destruct (SFcompare x y) as [[]|]. Qed.

(** ** Rounding *)

Lemma shr_1_half r : 0 <= shr_m r -> shr_m (shr_1 r) = shr_m r / 2 ^ 1.
Proof. destruct r as [[|[]|] ? ?]; simpl; intros; try done; by rewrite Z.pow_1_r, <- ?Z.div2_div. Qed.
Lemma iter_shr p r :
  0 <= shr_m r -> shr_m (SpecFloat.iter_pos shr_1 p r) = shr_m r / 2 ^ Zpos p.
Proof.
  revert r. induction p as [p IH|p IH|]; intros r Hr; simpl SpecFloat.iter_pos; [| |by apply shr_1_half].
  all: assert (forall k, 0 <= k -> 0 <= shr_m r / 2 ^ k) by (intros; apply Z.div_pos; lia).
  - pose proof (shr_1_half r Hr) as E.
    rewrite IH; rewrite IH; rewrite E; rewrite ?Z.div_div, <- ?Z.pow_add_r by lia; auto with lia.
    do 2 f_equal. lia.
  - rewrite IH; rewrite IH; rewrite ?Z.div_div, <- ?Z.pow_add_r by lia; auto with lia.
    do 2 f_equal. lia.
Qed.
Lemma shr_fexp_spec m e l :
  0 <= m ->
  exists r e', shr_fexp 53 1024 m e l = (r, e') /\ shr_m r = m / 2 ^ (e' - e)
    /\ e' = Z.max e (Z.max (Zdigits2 m + e - 53) (-1074)).
Proof.
  intros Hm. unfold shr_fexp, shr, fexp. change (SpecFloat.emin 53 1024) with (-1074).
  assert (shr_m (shr_record_of_loc m l) = m) as E by (by destruct l as [|[]]).
  destruct (Z.max _ _ - e) as [|p|p] eqn:En; eexists _, _; (split; [done|]).
  - rewrite E, Z.sub_diag, Z.div_1_r. split; [done|lia].
  - rewrite iter_shr, E by (rewrite E; done). split; [f_equal; f_equal; lia|lia].
  - rewrite E, Z.sub_diag, Z.div_1_r. split; [done|lia].
Qed.
(** The result of a rounding, in terms of its two shifts. *)
Lemma round_aux_spec s m e l :
  0 <= m ->
  exists m1 e1 m2 e2,
    e1 = Z.max e (Z.max (Zdigits2 m + e - 53) (-1074))
    /\ (m1 = m / 2 ^ (e1 - e) \/ m1 = m / 2 ^ (e1 - e) + 1)
    /\ e2 = Z.max e1 (Z.max (Zdigits2 m1 + e1 - 53) (-1074))
    /\ m2 = m1 / 2 ^ (e2 - e1)
    /\ binary_round_aux 53 1024 s m e l
       = match m2 with
         | Zpos p => if e2 <=? 971 then S754_finite s p e2 else S754_infinity s
         | _ => S754_zero s
         end.
Proof.
  intros Hm. unfold binary_round_aux.
  destruct (shr_fexp_spec m e l Hm) as (r & e1 & -> & Hr & He1).
  assert (0 <= shr_m r) by (rewrite Hr; apply Z.div_pos; [done|apply Z.pow_pos_nonneg; lia]).
  set (m1 := round_nearest_even _ _).
  assert (m1 = shr_m r \/ m1 = shr_m r + 1) as Hm1.
  { subst m1. unfold round_nearest_even. destruct (loc_of_shr_record r) as [|[]]; try case_match; auto. }
  destruct (shr_fexp_spec m1 e1 loc_Exact ltac:(lia)) as (r2 & e2 & -> & Hr2 & He2).
  exists m1, e1, (shr_m r2), e2. rewrite Hr in Hm1.
  assert (0 <= shr_m r2) by (rewrite Hr2; apply Z.div_pos; [lia|apply Z.pow_pos_nonneg; lia]).
  split_and!; try done. by destruct (shr_m r2).
Qed.

Lemma Zdigits2_log2 m : 0 < m -> Zdigits2 m = Z.log2 m + 1.
Proof.
  destruct m as [|p|]; try lia. intros _. simpl Zdigits2.
  assert (digits2_pos p = Pos.size p) as -> by (induction p; simpl; congruence).
  destruct p; simpl; lia.
Qed.
Lemma Zdigits2_nonneg m : 0 <= Zdigits2 m.
Proof. by destruct m. Qed.
Lemma Zdigits2_lt m k : 0 <= k -> 0 <= m < 2 ^ k -> Zdigits2 m <= k.
Proof.
  intros Hk Hm. destruct (decide (m = 0)) as [->|]; [done|].
  rewrite Zdigits2_log2 by lia. pose proof (Z.log2_lt_pow2 m k). lia.
Qed.
Lemma shift_keeps m k : 0 < m -> 0 <= k < Zdigits2 m -> 0 < m / 2 ^ k.
Proof.
  intros Hm Hk. rewrite Zdigits2_log2 in Hk by done. apply Z.div_str_pos.
  split; [lia|]. transitivity (2 ^ Z.log2 m); [apply Z.pow_le_mono_r; lia|]. by apply Z.log2_spec.
Qed.
Lemma shift_53 m k : 0 <= m -> 0 <= k -> Zdigits2 m - 53 <= k -> 0 <= m / 2 ^ k < 2 ^ 53.
Proof.
  intros Hm Hk Hd. split; [apply Z.div_pos; lia|].
  destruct (decide (m = 0)) as [->|]; [by rewrite Z.div_0_l by lia|].
  rewrite Zdigits2_log2 in Hd by lia. apply Z.div_lt_upper_bound; [lia|].
  rewrite <- Z.pow_add_r by lia. eapply Z.lt_le_trans; [by apply Z.log2_spec; lia|].
  apply Z.pow_le_mono_r; lia.
Qed.

(** The shapes of a result that is not a NaN. *)
Definition is_zero (x : f64) : bool := match x with S754_zero _ => true | _ => false end.
Definition is_inf (x : f64) : bool := match x with S754_infinity _ => true | _ => false end.

Lemma round_not_nan s m e l : 0 <= m -> is_nan (binary_round_aux 53 1024 s m e l) = false.
Proof.
  intros Hm. destruct (round_aux_spec s m e l Hm) as (m1 & e1 & m2 & e2 & _ & _ & _ & _ & ->).
  by repeat case_match.
Qed.
Lemma round_not_zero s m e l :
  0 < m -> -1074 <= e -> is_zero (binary_round_aux 53 1024 s m e l) = false.
Proof.
  intros Hm He.
  destruct (round_aux_spec s m e l ltac:(lia)) as (m1 & e1 & m2 & e2 & He1 & Hm1 & He2 & Hm2 & ->).
  assert (1 <= Zdigits2 m) by (rewrite Zdigits2_log2 by done; pose proof (Z.log2_nonneg m); lia).
  assert (0 < m / 2 ^ (e1 - e)) by (apply shift_keeps; lia).
  assert (1 <= Zdigits2 m1) by (rewrite Zdigits2_log2 by lia; pose proof (Z.log2_nonneg m1); lia).
  assert (0 < m2) by (subst m2; apply shift_keeps; lia).
  by destruct m2; [lia| |lia]; case_match.
Qed.
(** A rounding of a number below [2 ^ (k + e)] does not overflow. *)
Lemma round_bounded s m e l k :
  0 <= m < 2 ^ k -> 0 <= k -> -1000 <= e <= 900 -> k + e <= 900 ->
  match binary_round_aux 53 1024 s m e l with
  | S754_zero _ => True
  | S754_finite _ p e2 => Zpos p <= 2 ^ 53 /\ e <= e2 <= Z.max e (k + e - 52)
  | _ => False
  end.
Proof.
  intros Hm Hk He Hke.
  destruct (round_aux_spec s m e l ltac:(lia)) as (m1 & e1 & m2 & e2 & He1 & Hm1 & He2 & Hm2 & ->).
  pose proof (Zdigits2_lt m k Hk Hm) as Hd.
  pose proof (shift_53 m (e1 - e) ltac:(lia) ltac:(lia) ltac:(lia)) as H53.
  assert (0 <= m1 <= 2 ^ 53) as Hm1' by lia.
  pose proof (Zdigits2_lt m1 54 ltac:(lia) ltac:(lia)) as Hd1.
  assert (e2 <= Z.max e (k + e - 52)).
  { destruct (decide (Zdigits2 m1 <= 53)); [lia|].
    assert (53 <= k).
    { destruct (decide (53 <= k)); [done|]. assert (e1 = e) as -> by lia.
      rewrite Z.sub_diag, Z.div_1_r in Hm1.
      assert (2 ^ k <= 2 ^ 52) by (apply Z.pow_le_mono_r; lia).
      pose proof (Zdigits2_lt m1 53 ltac:(lia) ltac:(lia)). lia. }
    assert (m1 = 2 ^ 53) as -> by (destruct (decide (m1 = 2 ^ 53)); [done|];
      pose proof (Zdigits2_lt m1 53 ltac:(lia) ltac:(lia)); lia).
    subst e2 e1. change (Zdigits2 (2 ^ 53)) with 54. lia. }
  assert (m2 <= m1) by (subst m2; apply Z.div_le_upper_bound; [apply Z.pow_pos_nonneg; lia|];
    assert (1 <= 2 ^ (e2 - e1)) by (pose proof (Z.pow_pos_nonneg 2 (e2 - e1)); lia); nia).
  destruct m2; [done| |done]. rewrite (proj2 (Z.leb_le e2 971)) by lia. lia.
Qed.

Lemma shl_align_spec m e e' :
  exists p, shl_align m e e' = (p, Z.min e e') /\ Zpos p = Zpos m * 2 ^ (e - Z.min e e').
Proof.
  unfold shl_align. destruct (e' - e) as [|d|d] eqn:E.
  - exists m. rewrite Z.min_l, Z.sub_diag by lia. split; [done|lia].
  - exists m. rewrite Z.min_l, Z.sub_diag by lia. split; [done|lia].
  - rewrite Z.min_r by lia. replace (e - e') with (Zpos d) by lia.
    exists (Pos.iter xO m d). split; [done|].
    rewrite <- Z.shiftl_mul_pow2 by lia. simpl.
    by apply (Pos.iter_swap_gen _ _ Zpos).
Qed.
Lemma binary_round_bounded s m e k :
  Zpos m < 2 ^ k -> 0 <= k -> -900 <= e <= 900 -> k + e <= 900 ->
  match binary_round 53 1024 s m e with
  | S754_zero _ => True
  | S754_finite _ p e2 => Zpos p <= 2 ^ 53 /\ e - 53 < e2 <= Z.max e (k + e - 52)
  | _ => False
  end.
Proof.
  intros Hm Hk He Hke. unfold binary_round, fexp. change (SpecFloat.emin 53 1024) with (-1074).
  assert (Zpos (digits2_pos m) = Z.log2 (Zpos m) + 1) as -> by (by rewrite <- Zdigits2_log2).
  pose proof (Z.log2_nonneg (Zpos m)).
  destruct (shl_align_spec m e (Z.max (Z.log2 (Zpos m) + 1 + e - 53) (-1074))) as (p & -> & Hp).
  set (ez := Z.min e _) in *.
  pose proof (round_bounded s (Zpos p) ez loc_Exact (k + (e - ez))) as Hr.
  assert (Zpos p < 2 ^ (k + (e - ez))).
  { rewrite Hp, Z.pow_add_r by lia. apply Z.mul_lt_mono_pos_r; [apply Z.pow_pos_nonneg; lia|done]. }
  specialize (Hr ltac:(lia) ltac:(lia) ltac:(lia) ltac:(lia)).
  repeat case_match; try done. lia.
Qed.

(** An [i64] converts to a finite number, also after adding one. *)
Lemma f64_of_Z_bounded z :
  Z.abs z <= 2 ^ 63 ->
  match f64_of_Z z with
  | S754_zero _ => True
  | S754_finite _ p e => Zpos p <= 2 ^ 53 /\ -53 < e <= 12
  | _ => False
  end.
Proof.
  intros Hz. unfold f64_of_Z, binary_normalize. destruct z as [|p|p]; [done|..].
  - pose proof (binary_round_bounded false p 0 64). repeat case_match; lia.
  - pose proof (binary_round_bounded true p 0 64). repeat case_match; lia.
Qed.
Lemma f64_succ_finite z :
  Z.abs z <= 2 ^ 63 ->
  is_nan (f64_add (f64_of_Z z) f64_one) = false /\ is_inf (f64_add (f64_of_Z z) f64_one) = false.
Proof.
  intros Hz. pose proof (f64_of_Z_bounded z Hz) as Hb. unfold f64_add.
  destruct (f64_of_Z z) as [s|s| |s m e]; try done. unfold f64_one. cbn [SFadd].
  set (ez := Z.min e (-52)).
  destruct (shl_align_spec m e ez) as (p & -> & Hp).
  destruct (shl_align_spec 4503599627370496 (-52) ez) as (q & -> & Hq). cbn [fst].
  assert (ez = -52) as E by lia. rewrite E in *. clear E.
  assert (Zpos p <= 2 ^ 53 * 2 ^ 64).
  { rewrite Hp. apply Z.mul_le_mono_nonneg; [lia..|lia|]. apply Z.pow_le_mono_r; lia. }
  replace (-52 - Z.min (-52) (-52)) with 0 in Hq by lia.
  set (sum := _ + _). assert (Z.abs sum < 2 ^ 118).
  { subst sum. unfold cond_Zopp. destruct s; lia. }
  unfold binary_normalize. destruct sum as [|t|t]; [done|..].
  - pose proof (binary_round_bounded false t (-52) 118). repeat case_match; naive_solver lia.
  - pose proof (binary_round_bounded true t (-52) 118). repeat case_match; naive_solver lia.
Qed.

(** ** Clamped quotients *)

(** At least the positive number [2 ^ e0] times its mantissa. *)
Definition at_least_exp (e0 : Z) (x : f64) : Prop :=
  match x with
  | S754_infinity false => True
  | S754_finite false _ e => e0 <= e
  | _ => False
  end.
Lemma f64_max_clamps x m0 e0 : at_least_exp e0 (f64_max x (S754_finite false m0 e0)).
Proof.
  unfold f64_max. destruct x as [[]|[]| |[] m e]; simpl; try lia; try done.
  destruct (Z.compare_spec e e0); simpl; [case_match; simpl; lia|simpl; lia|simpl; lia].
Qed.
Lemma f64_mul_clamped x y e1 e2 :
  -1074 <= e1 + e2 -> at_least_exp e1 x -> at_least_exp e2 y ->
  is_nan (f64_mul x y) = false /\ is_zero (f64_mul x y) = false.
Proof.
  intros He Hx Hy. unfold f64_mul. destruct x as [|[]| |[] m e], y as [|[]| |[] m' e']; try done.
  simpl in *. split; [by apply round_not_nan|apply round_not_zero; lia].
Qed.
Lemma f64_div_not_nan x y :
  is_nan x = false -> is_inf x = false -> is_nan y = false -> is_zero y = false ->
  is_nan (f64_div x y) = false.
Proof.
  unfold f64_div. destruct x as [|[]| |s m e], y as [|[]| |s' m' e']; try done. intros _ _ _ _.
  cbn [SFdiv]. unfold SFdiv_core_binary. set (e1 := Z.min _ _). 
  match goal with |- context [Z.div_eucl ?a _] => set (m1 := a) end.
  assert (0 <= m1) as Hm1.
  { subst m1. case_match; [lia| |lia]. apply Z.shiftl_nonneg. lia. }
  destruct (Z.div_eucl m1 (Zpos m')) as [q r] eqn:E.
  apply round_not_nan. replace q with (m1 / Zpos m') by (unfold Z.div; by rewrite E).
  by apply Z.div_pos.
Qed.
Lemma at_least_exp_not_nan e x : at_least_exp e x -> is_nan x = false /\ is_zero x = false.
Proof. by destruct x as [[]|[]| |[]]. Qed.
