(* ===== verification/Eviction.v ===== *)
(** * Eviction policies

    [crates/kache-store/src/eviction.rs]: which entries a sweep would evict, as a
    pure function of their features. *)

From S2P Require Import Prelude Strings Float.
#[local] Open Scope string_scope.
#[local] Open Scope Z_scope.

(** ** The hysteresis band *)

Definition EVICT_TARGET_PERCENT : Z := 90.
(** [eviction_target], through [u128]. *)
Definition eviction_target (max_size : Z) : Z := max_size * EVICT_TARGET_PERCENT / 100.
(** [over_eviction_trigger] *)
Definition over_eviction_trigger (physical_size max_size : Z) : bool := max_size <? physical_size.

(** ** Features *)

Record EntryFeatures := {
  ef_key : string;
  ef_size : Z;
  ef_hit_count : Z;
  ef_idle_hours : f64;
  ef_content_hash : option string;
  ef_committed : bool;
  ef_compile_time_ms : Z;
  ef_reclaimable_bytes : option Z;
  ef_recently_accessed : bool;
  ef_recently_imported : bool;
}.
Definition expected_bytes (e : EntryFeatures) : Z := default (ef_size e) (ef_reclaimable_bytes e).

(** ** Policies *)

(** [trait EvictionPolicy] *)
Class EvictionPolicy := {
  policy_name : string;
  select : list EntryFeatures -> list string;
}.

Definition size_mb (e : EntryFeatures) : f64 :=
  f64_max (f64_div (f64_of_Z (expected_bytes e)) f64_mib) f64_0_001.
(** [size_pressure_score] *)
Definition size_pressure_score (e : EntryFeatures) : f64 :=
  let idle := f64_max (ef_idle_hours e) f64_0_01 in
  f64_div (f64_add (f64_of_Z (ef_hit_count e)) f64_one) (f64_mul idle (size_mb e)).
(** [value_density_score] *)
Definition value_density_score (e : EntryFeatures) : f64 :=
  f64_div (f64_of_Z (ef_compile_time_ms e)) (size_mb e).

Definition rank_by (score : EntryFeatures -> f64) (l : list EntryFeatures) : list EntryFeatures :=
  sort_by (fun a b => f64_leb (score a) (score b)) l.
Definition SizePressurePolicy : EvictionPolicy :=
  {| policy_name := "size-pressure"; select l := map ef_key (rank_by size_pressure_score l) |}.
Definition ValueDensityPolicy : EvictionPolicy :=
  {| policy_name := "value-density"; select l := map ef_key (rank_by value_density_score l) |}.
Definition OlderThanPolicy (hours : Z) : EvictionPolicy :=
  {| policy_name := "older-than";
     select l := map ef_key (filter (fun e => f64_gt (ef_idle_hours e) (f64_of_Z hours) = true) l) |}.

(** The group maps of [DuplicatePolicy::select]: newest idle time and size. *)
Definition group_step (groups : gmap string (f64 * Z)) (e : EntryFeatures) : gmap string (f64 * Z) :=
  if ef_committed e then
    match ef_content_hash e with
    | None => groups
    | Some h =>
        match groups !! h with
        | None => <[h := (ef_idle_hours e, 1)]> groups
        | Some (m, n) => <[h := (f64_min m (ef_idle_hours e), n + 1)]> groups
        end
    end
  else groups.
Definition duplicate_eligible (groups : gmap string (f64 * Z)) (e : EntryFeatures) : bool :=
  ef_committed e
  && match ef_content_hash e with
     | None => false
     | Some h =>
         match ef_reclaimable_bytes e with Some bytes => 0 <? bytes | None => false end
         && match groups !! h with
            | Some (newest, n) => (1 <? n) && f64_gt (ef_idle_hours e) newest
            | None => false
            end
     end.
(** Stalest first, then key order. *)
Definition stalest_leb (a b : EntryFeatures) : bool :=
  match f64_total_cmp (ef_idle_hours b) (ef_idle_hours a) with
  | Lt => true
  | Gt => false
  | Eq => String.leb (ef_key a) (ef_key b)
  end.
Definition DuplicatePolicy : EvictionPolicy :=
  {| policy_name := "duplicate";
     select l := let groups := fold_left group_step l ∅ in
                 map ef_key (sort_by stalest_leb (List.filter (duplicate_eligible groups) l)) |}.

(** ** The shadow walk *)

(** [candidates.iter().map(|e| (e.key, e)).collect()]: the last entry wins. *)
Definition by_key (l : list EntryFeatures) : gmap string EntryFeatures :=
  fold_left (fun m e => <[ef_key e := e]> m) l ∅.
(** [would_evict_for_budget] *)
Fixpoint budget_walk (features : gmap string EntryFeatures) (order : list string) (needed freed : Z)
    (victims : gset string) : gset string * Z :=
  match order with
  | [] => (victims, freed)
  | key :: order =>
      if needed <=? freed then (victims, freed)
      else match features !! key with
           | None => budget_walk features order needed freed victims
           | Some e => budget_walk features order needed (freed + Z.max (expected_bytes e) 0)
                         ({[key]} ∪ victims)
           end
  end.
Definition would_evict_for_budget (candidates : list EntryFeatures) (order : list string)
    (bytes_needed : Z) : gset string :=
  (budget_walk (by_key candidates) order bytes_needed 0 ∅).1.
