(* ===== verification/EvictionProofs.v ===== *)
(** * Eviction policies: the rankings

    What [eviction.rs] promises of its policies: the scores are numbers, so each
    ranking is a sorted permutation of the candidates; the duplicate policy never
    empties a group; the shadow walk stops exactly at its budget. *)

From S2P Require Import Prelude Strings Float Eviction.
#[local] Open Scope string_scope.
#[local] Open Scope Z_scope.

(** The integer columns are [i64]. *)
Definition features_typed (e : EntryFeatures) : bool :=
  i64_ok (ef_hit_count e) && i64_ok (ef_size e) && i64_ok (ef_compile_time_ms e)
  && match ef_reclaimable_bytes e with Some b => i64_ok b | None => true end.

(** ** Scores *)

Lemma size_mb_clamped e : at_least_exp (-62) (size_mb e).
Proof. apply (f64_max_clamps _ 4611686018427388 (-62)). Qed.
Lemma i64_ok_abs z : i64_ok z = true -> Z.abs z <= 2 ^ 63.
Proof. unfold i64_ok, i64_min, i64_max. lia. Qed.

Lemma size_pressure_score_number e :
  features_typed e = true -> is_nan (size_pressure_score e) = false.
Proof.
  unfold features_typed. intros [[[Hh%i64_ok_abs _]%andb_prop _]%andb_prop _]%andb_prop.
  unfold size_pressure_score. destruct (f64_succ_finite _ Hh).
  pose proof (f64_max_clamps (ef_idle_hours e) 5764607523034235 (-59)) as Hidle.
  destruct (f64_mul_clamped _ _ (-59) (-62) ltac:(lia) Hidle (size_mb_clamped e)).
  by apply f64_div_not_nan.
Qed.
Lemma value_density_score_number e :
  features_typed e = true -> is_nan (value_density_score e) = false.
Proof.
  unfold features_typed. intros [[_ Hc%i64_ok_abs]%andb_prop _]%andb_prop.
  destruct (at_least_exp_not_nan _ _ (size_mb_clamped e)).
  pose proof (f64_of_Z_bounded _ Hc). unfold value_density_score.
  apply f64_div_not_nan; try done; by destruct (f64_of_Z (ef_compile_time_ms e)).
Qed.

(** [keys] lists the candidates worst-first: no entry after another scores lower. *)
Definition ranked_by (score : EntryFeatures -> f64) (l : list EntryFeatures) (keys : list string) : Prop :=
  exists ranked, keys = map ef_key ranked /\ ranked ≡ₚ l
    /\ StronglySorted (fun a b => f64_gt (score a) (score b) = false) ranked.

Lemma rank_by_ranked score l :
  (forall e, e ∈ l -> is_nan (score e) = false) -> ranked_by score l (map ef_key (rank_by score l)).
Proof.
  intros Hnum. exists (rank_by score l). split; [done|]. split; [apply sort_by_perm|].
  assert (Sorted (fun a b => f64_leb (score a) (score b) = true) (rank_by score l)) as Hs.
  { apply sort_by_sorted. intros a b. apply f64_leb_total. }
  assert (forall e, e ∈ rank_by score l -> is_nan (score e) = false) as Hin.
  { intros e He. apply Hnum. by apply elem_of_sort_by in He. }
  revert Hs Hin. generalize (rank_by score l). intros r Hs Hin.
  induction Hs as [|a r Hs IH Hhd]; [constructor|].
  assert (StronglySorted (λ a b, f64_gt (score a) (score b) = false) r) as Hr
    by (apply IH; set_solver).
  constructor; [done|].
  destruct Hhd as [|b r Hab]; [constructor|].
  assert (forall c, c ∈ b :: r -> f64_leb (score b) (score c) = true) as Hb.
  { intros c [->|Hc]%elem_of_cons; [by destruct (f64_leb_total (score b) (score b))|].
    inversion Hr as [|? ? _ Hall]; subst. rewrite Forall_forall in Hall.
    pose proof (Hall c Hc) as Hg. rewrite f64_gt_leb in Hg by (apply Hin; set_solver).
    by apply negb_false_iff in Hg. }
  apply Forall_forall. intros c Hc. rewrite f64_gt_leb by (apply Hin; set_solver).
  rewrite (f64_leb_trans (score a) (score b) (score c)); try done; try (apply Hin; set_solver).
  by apply Hb.
Qed.

(** Whatever the idle times (NaN, negative and infinite ones included), the two
    score-based policies return every candidate exactly once, and no entry they
    list scores below one listed before it: the scores of entries whose counters
    are [i64] are never NaN, so the comparator's [Equal] fallback is never taken. *)
Theorem rankings_sorted (l : list EntryFeatures) :
  Forall (fun e => features_typed e = true) l ->
  ranked_by size_pressure_score l (select (EvictionPolicy := SizePressurePolicy) l)
  /\ ranked_by value_density_score l (select (EvictionPolicy := ValueDensityPolicy) l).
Proof.
  rewrite Forall_forall. intros Hl. split; apply rank_by_ranked; intros e He.
  - by apply size_pressure_score_number, Hl.
  - by apply value_density_score_number, Hl.
Qed.

(** ** Duplicates *)

Definition in_group (h : string) (e : EntryFeatures) : Prop :=
  ef_committed e = true /\ ef_content_hash e = Some h.

Lemma f64_min_choice x y : f64_min x y = x \/ f64_min x y = y.
Proof. unfold f64_min. repeat case_match; auto. Qed.
Lemma f64_gt_irrefl x : f64_gt x x = false.
Proof.
  unfold f64_gt. destruct x as [[]|[]| |[] m e]; try done; simpl;
    rewrite Z.compare_refl; fold (Pos.compare m m); by rewrite Pos.compare_refl.
Qed.
(** The recorded idle time of a group is one of its members'. *)
Lemma group_newest_member l h m n :
  fold_left group_step l ∅ !! h = Some (m, n) ->
  exists s, s ∈ l /\ in_group h s /\ ef_idle_hours s = m.
Proof.
  revert m n. induction l as [|e l IH] using rev_ind; intros m n; [done|].
  rewrite fold_left_app. simpl. unfold group_step at 1.
  assert (forall m n, fold_left group_step l ∅ !! h = Some (m, n) ->
    exists s : EntryFeatures, s ∈ (l ++ [e])%list /\ in_group h s /\ ef_idle_hours s = m) as Hold.
  { intros m' n' (s & Hs & Hg)%IH. exists s. split; [set_solver|done]. }
  destruct (ef_committed e) eqn:Hc; [|apply Hold].
  destruct (ef_content_hash e) as [h'|] eqn:Hh; [|apply Hold].
  destruct (decide (h' = h)) as [->|Hne]; cycle 1.
  { destruct (fold_left _ l ∅ !! h') as [[]|]; rewrite lookup_insert_ne by done; apply Hold. }
  destruct (fold_left group_step l ∅ !! h) as [[m0 n0]|] eqn:E; rewrite lookup_insert_eq; intros [= <- _].
  - destruct (f64_min_choice m0 (ef_idle_hours e)) as [-> | ->]; [by eapply Hold|].
    exists e. split; [apply elem_of_app; right; by apply list_elem_of_singleton|done].
  - exists e. split; [apply elem_of_app; right; by apply list_elem_of_singleton|done].
Qed.

(** The duplicate policy evicts an entry only when a committed entry with the
    same content hash, strictly more recently used, is kept; it also only takes
    entries whose removal is known to free bytes.  So no content hash loses its
    last entry.  (Keys are the table's primary key.) *)
Theorem duplicates_leave_a_survivor (l : list EntryFeatures) (k : string) :
  NoDup (map ef_key l) -> k ∈ select (EvictionPolicy := DuplicatePolicy) l ->
  exists e s h b, e ∈ l /\ s ∈ l /\ ef_key e = k /\ in_group h e /\ in_group h s
    /\ ef_reclaimable_bytes e = Some b /\ 0 < b
    /\ f64_gt (ef_idle_hours e) (ef_idle_hours s) = true
    /\ ef_key s ∉ select (EvictionPolicy := DuplicatePolicy) l.
Proof.
  intros Hnd Hk. cbn [select DuplicatePolicy] in *. set (groups := fold_left group_step l ∅) in *.
  assert (forall x, x ∈ map ef_key (sort_by stalest_leb (List.filter (duplicate_eligible groups) l)) <->
    exists e, x = ef_key e /\ e ∈ l /\ duplicate_eligible groups e = true) as Hsel.
  { intros x. rewrite list_elem_of_fmap. setoid_rewrite elem_of_sort_by.
    setoid_rewrite list_elem_of_In. setoid_rewrite filter_In. naive_solver. }
  rewrite Hsel in Hk. destruct Hk as (e & -> & He & Hel).
  pose proof Hel as Hel'. unfold duplicate_eligible in Hel'.
  destruct (ef_committed e) eqn:Hc; [|done]. destruct (ef_content_hash e) as [h|] eqn:Hh; [|done].
  destruct (ef_reclaimable_bytes e) as [b|] eqn:Hb; [|done].
  destruct (groups !! h) as [[m n]|] eqn:Hg; [|by rewrite andb_false_r in Hel'].
  apply andb_prop in Hel' as [_ [Hpos%Z.ltb_lt [_ Hgt]%andb_prop]%andb_prop].
  destruct (group_newest_member _ _ _ _ Hg) as (s & Hs & Hin & <-).
  exists e, s, h, b. split_and!; try done. rewrite Hsel. intros (s' & Hkey & Hs' & Hel').
  assert (s' = s) as ->.
  { apply list_elem_of_lookup in Hs as [i Hi], Hs' as [j Hj].
    assert (i = j) as -> by (apply (NoDup_lookup (map ef_key l) i j (ef_key s));
      rewrite ?list_lookup_fmap, ?Hi, ?Hj; simpl; congruence). congruence. }
  destruct Hin as [Hsc Hsh]. unfold duplicate_eligible in Hel'.
  rewrite Hsc, Hsh, Hg, f64_gt_irrefl, !andb_false_r in Hel'. done.
Qed.

(** ** The shadow walk *)

(** The bytes a prefix of the order is expected to free. *)
Definition expected_reclaim (features : gmap string EntryFeatures) (keys : list string) : Z :=
  foldr (fun k acc => match features !! k with
                      | Some e => Z.max (expected_bytes e) 0 | None => 0 end + acc) 0 keys.
Definition known_keys (features : gmap string EntryFeatures) (keys : list string) : gset string :=
  list_to_set (List.filter (fun k => bool_decide (is_Some (features !! k))) keys).

Lemma budget_walk_prefix features order needed freed victims :
  exists pre post, order = (pre ++ post)%list
    /\ budget_walk features order needed freed victims
       = (known_keys features pre ∪ victims, freed + expected_reclaim features pre)
    /\ (needed <= freed + expected_reclaim features pre \/ post = [])
    /\ forall pre1 pre2, pre = (pre1 ++ pre2)%list -> pre2 <> [] ->
         freed + expected_reclaim features pre1 < needed.
Proof.
  revert freed victims. induction order as [|k order IH]; intros freed victims; simpl.
  { exists [], []. simpl. rewrite Z.add_0_r. split_and!; auto; [f_equal; set_solver|].
    intros [|] [|]; done. }
  destruct (Z.leb_spec needed freed).
  { exists [], (k :: order). simpl. rewrite Z.add_0_r. split_and!; auto; [f_equal; set_solver|]. intros [|] [|]; done. }
  destruct (features !! k) as [e|] eqn:Hk.
  - destruct (IH (freed + Z.max (expected_bytes e) 0) ({[k]} ∪ victims)) as (pre & post & -> & -> & Hend & Hmin).
    exists (k :: pre), post. unfold known_keys, expected_reclaim in *. simpl. rewrite Hk.
    rewrite bool_decide_true by eauto. simpl. split_and!; [done| |destruct Hend; [left; lia|by right]|].
    + f_equal; [set_solver|lia].
    + intros [|k1 pre1] pre2 E Hne; [simpl; lia|]. injection E as -> ->.
      specialize (Hmin _ _ eq_refl Hne). simpl. rewrite Hk. lia.
  - destruct (IH freed victims) as (pre & post & -> & -> & Hend & Hmin).
    exists (k :: pre), post. unfold known_keys, expected_reclaim in *. simpl. rewrite Hk.
    rewrite bool_decide_false by (rewrite ?is_Some_alt; naive_solver). split_and!; [done|done|done|].
    intros [|k1 pre1] pre2 E Hne; [simpl; lia|]. injection E as -> ->.
    specialize (Hmin _ _ eq_refl Hne). simpl. rewrite Hk. lia.
Qed.

(** The shadow walk evicts exactly the known keys of a prefix of the policy's
    order: the prefix is expected to free the bytes needed unless the order runs
    out first, and no shorter prefix is, so nothing is evicted past the budget. *)
Theorem shadow_walk_is_minimal (candidates : list EntryFeatures) (order : list string) (needed : Z) :
  exists pre post, order = (pre ++ post)%list
    /\ would_evict_for_budget candidates order needed = known_keys (by_key candidates) pre
    /\ (needed <= expected_reclaim (by_key candidates) pre \/ post = [])
    /\ forall pre1 pre2, pre = (pre1 ++ pre2)%list -> pre2 <> [] ->
         expected_reclaim (by_key candidates) pre1 < needed.
Proof.
  destruct (budget_walk_prefix (by_key candidates) order needed 0 ∅) as (pre & post & -> & E & Hend & Hmin).
  exists pre, post. unfold would_evict_for_budget. rewrite E. split_and!; auto. set_solver.
Qed.

(** ** Witnesses *)

Definition demo_feature (key : string) (hits idle size : Z) (reclaim : option Z) : EntryFeatures :=
  {| ef_key := key; ef_size := size; ef_hit_count := hits; ef_idle_hours := f64_of_Z idle;
     ef_content_hash := Some "c"; ef_committed := true; ef_compile_time_ms := 1500;
     ef_reclaimable_bytes := reclaim; ef_recently_accessed := false; ef_recently_imported := false |}.
Definition demo_features : list EntryFeatures :=
  [demo_feature "a" 9 1 4096 (Some 4096); demo_feature "b" 0 72 1048576 (Some 1048576);
   demo_feature "c" i64_max (-5) 0 None].

Lemma rankings_sorted_witness :
  ranked_by size_pressure_score demo_features (select (EvictionPolicy := SizePressurePolicy) demo_features)
  /\ select (EvictionPolicy := SizePressurePolicy) demo_features = ["b"; "a"; "c"].
Proof.
  split; [|vm_compute; reflexivity].
  refine (proj1 (rankings_sorted demo_features _)). unfold demo_features. repeat (constructor; [vm_compute; reflexivity|]).
  constructor.
Defined.
Lemma duplicates_leave_a_survivor_witness :
  exists e s h b, e ∈ demo_features /\ s ∈ demo_features /\ ef_key e = "b" /\ in_group h e /\ in_group h s
    /\ ef_reclaimable_bytes e = Some b /\ 0 < b
    /\ f64_gt (ef_idle_hours e) (ef_idle_hours s) = true
    /\ ef_key s ∉ select (EvictionPolicy := DuplicatePolicy) demo_features.
Proof.
  apply duplicates_leave_a_survivor.
  - apply (bool_decide_unpack _). vm_compute. exact I.
  - apply (bool_decide_unpack _). vm_compute. exact I.
Defined.
