(* ===== verification/Evict.v ===== *)
(** * Eviction sweeps over the store

    The mechanism half of eviction in [crates/kache-store/src/store.rs]: the
    candidate query, the pins, the removal walk with its budget, pacing and
    counters, the shadow comparison and the tombstone tables, and the sweeps
    built from them.

    Parameters: the probes of the file system ([retainer], [on_disk]), SQLite's
    date arithmetic ([idle]) and its lock failures ([sql_fails]), and how long
    each removal took. *)

From Stdlib Require Import SpecFloat.
From S2P Require Import Prelude Strings Codec Format Float Eviction.
From S2P Require Import StorePolicy StoreIndex Store.
#[local] Open Scope string_scope.
#[local] Open Scope Z_scope.

(** ** Pins and pacing *)

Inductive SweepOrigin := Automatic | Requested.
Definition import_pin_secs (o : SweepOrigin) : option Z :=
  match o with Automatic => Some IMPORT_PIN | Requested => None end.

(** Durations are nanoseconds. *)
Definition EVICTION_WRITE_SLICE : Z := 50 * 1000000.
Definition EVICTION_WRITE_PAUSE : Z := 150 * 1000000.
Record EvictionWritePacer := { pc_slice : Z; pc_pause : Z; pc_held : Z }.
(** [EvictionWritePacer::new] *)
Definition pacer_new (slice pause : Z) : EvictionWritePacer :=
  {| pc_slice := slice; pc_pause := pause; pc_held := 0 |}.
Definition with_held (p : EvictionWritePacer) (held : Z) : EvictionWritePacer :=
  {| pc_slice := pc_slice p; pc_pause := pc_pause p; pc_held := held |}.
(** [EvictionWritePacer::after_write] *)
Definition after_write (p : EvictionWritePacer) (took : Z) : EvictionWritePacer * option Z :=
  let held := pc_held p + took in
  if held <? pc_slice p then (with_held p held, None) else (with_held p 0, Some (pc_pause p)).
(** [EvictionWritePacer::after_contention] *)
Definition after_contention (p : EvictionWritePacer) : EvictionWritePacer * Z :=
  (with_held p 0, pc_pause p).

Definition BUILD_LOCK_POLL_INTERVAL : Z := 100.
(** [lock_poll_interval], in milliseconds. *)
Definition lock_poll_interval (attempt : Z) : Z :=
  Z.min (Z.shiftl 1 (Z.min attempt 7)) BUILD_LOCK_POLL_INTERVAL.

(** ** Counters and failures *)

(** [SqlError::SqliteFailure] codes the sweep tells apart. *)
Inductive SqlFailure := DatabaseBusy (busy_snapshot : bool) | DatabaseLocked | OtherSqlFailure.
Inductive SweepError := RemovalError (e : StoreError) | SqlError (f : SqlFailure).

(** [GcStats]: its numeric fields by name, and [skipped]. *)
Inductive Counter :=
| entries_evicted | bytes_freed | blobs_removed | entries_pinned | entries_unreclaimable
| gc_disk_bytes_reclaimed | entries_failed | entries_locked | entries_busy_snapshot
| entries_recent_prefiltered | entries_import_pinned | evict_write_ms | bytes_held.
#[export] Instance counter_eq_dec : EqDecision Counter.
Proof. solve_decision. Defined.
Record GcStats := { gc_counter : Counter -> Z; gc_skipped : bool }.
(** [GcStats::default()] *)
Definition gc_default : GcStats := {| gc_counter := fun _ => 0; gc_skipped := false |}.
(** [stats.c += n] *)
Definition bump (c : Counter) (n : Z) (s : GcStats) : GcStats :=
  {| gc_counter := fun c' => if decide (c' = c) then gc_counter s c' + n else gc_counter s c';
     gc_skipped := gc_skipped s |}.

(** [stats.c = n] *)
Definition assign (c : Counter) (n : Z) (s : GcStats) : GcStats :=
  {| gc_counter := fun c' => if decide (c' = c) then n else gc_counter s c';
     gc_skipped := gc_skipped s |}.

(** [is_sqlite_contention], [is_sqlite_busy_snapshot] *)
Definition is_sqlite_contention (e : SweepError) : bool :=
  match e with SqlError (DatabaseBusy _) | SqlError DatabaseLocked => true | _ => false end.
Definition is_sqlite_busy_snapshot (e : SweepError) : bool :=
  match e with SqlError (DatabaseBusy snapshot) => snapshot | _ => false end.
(** [record_eviction_failure] *)
Definition record_eviction_failure (s : GcStats) (e : SweepError) : GcStats :=
  let s := bump entries_failed 1 s in
  if is_sqlite_contention e then
    let s := bump entries_locked 1 s in
    if is_sqlite_busy_snapshot e then bump entries_busy_snapshot 1 s else s
  else s.

(** ** Tombstones and shadow victims *)

Record Tombstone := {
  ts_evicted_at : Z;
  ts_policy : string;
  ts_size : Z;
  ts_hit_count : Z;
  ts_idle_hours : f64;
  ts_compile_time_ms : Z;
  ts_demanded_at : option Z;
  ts_shadow : option (string * bool);
}.
Record ShadowVictim := {
  sv_swept_at : Z;
  sv_policy : string;
  sv_size : Z;
  sv_hit_count : Z;
  sv_compile_time_ms : Z;
}.
Record Telemetry := {
  tombstones : gmap string Tombstone;
  shadow_victims : gmap string ShadowVictim;
}.

(** [record_tombstone]: [INSERT OR REPLACE]. *)
Definition record_tombstone (now : Z) (f : EntryFeatures) (policy : string)
    (shadow : option (string * bool)) (t : Telemetry) : Telemetry :=
  {| tombstones := <[ef_key f :=
       {| ts_evicted_at := now; ts_policy := policy; ts_size := ef_size f;
          ts_hit_count := ef_hit_count f; ts_idle_hours := ef_idle_hours f;
          ts_compile_time_ms := ef_compile_time_ms f; ts_demanded_at := None;
          ts_shadow := shadow |}]> (tombstones t);
     shadow_victims := shadow_victims t |}.
(** [record_shadow_victims]: [INSERT OR IGNORE], so the first sweep stays. *)
Definition record_shadow_victims (policy : string) (swept_at : Z) (victims : list EntryFeatures)
    (t : Telemetry) : Telemetry :=
  {| tombstones := tombstones t;
     shadow_victims := fold_left (fun m v =>
       match m !! ef_key v with
       | Some _ => m
       | None => <[ef_key v := {| sv_swept_at := swept_at; sv_policy := policy;
                                  sv_size := ef_size v; sv_hit_count := ef_hit_count v;
                                  sv_compile_time_ms := ef_compile_time_ms v |}]> m
       end) victims (shadow_victims t) |}.
(** [note_tombstone_demand]: only the first demand is recorded. *)
Definition note_tombstone_demand (now : Z) (key : string) (t : Telemetry) : Telemetry :=
  match tombstones t !! key with
  | Some row =>
      match ts_demanded_at row with
      | Some _ => t
      | None =>
          {| tombstones := <[key :=
               {| ts_evicted_at := ts_evicted_at row; ts_policy := ts_policy row;
                  ts_size := ts_size row; ts_hit_count := ts_hit_count row;
                  ts_idle_hours := ts_idle_hours row;
                  ts_compile_time_ms := ts_compile_time_ms row; ts_demanded_at := Some now;
                  ts_shadow := ts_shadow row |}]> (tombstones t);
             shadow_victims := shadow_victims t |}
      end
  | None => t
  end.
(** The two [DELETE] statements of [prune_tombstones], and the rows dropped. *)
Definition prune_tables (now keep_days : Z) (t : Telemetry) : Telemetry * Z :=
  let cutoff := now - keep_days * 86400 in
  let kept := filter (fun r => cutoff <= ts_evicted_at r.2) (tombstones t) in
  ({| tombstones := kept;
      shadow_victims := filter (fun r => cutoff <= sv_swept_at r.2) (shadow_victims t) |},
   Z.of_nat (base.size (tombstones t)) - Z.of_nat (base.size kept)).
(** [tombstone_stats] *)
Definition tombstone_stats (t : Telemetry) : Z * Z :=
  (Z.of_nat (base.size (tombstones t)),
   Z.of_nat (base.size (filter (fun r => is_Some (ts_demanded_at r.2)) (tombstones t)))).

(** ** Candidates *)

Section Candidates.
(** [(julianday('now') - julianday(last_accessed)) * 24.0] *)
Context (idle : Z -> Z -> option f64).

(** [SELECT COALESCE(SUM(b.size), 0) .. WHERE eb.refs = b.refcount] *)
Definition last_ref_bytes (d : Db) (key : string) : Z :=
  map_fold (fun kh refs acc =>
    match blobs d !! kh.2 with
    | Some b => if bool_decide (kh.1 = key) && (refs =? br_refcount b) then br_size b + acc else acc
    | None => acc
    end) 0 (entry_blobs d).
(** [EXISTS(SELECT 1 FROM entry_blobs ..)] *)
Definition has_blob_rows (d : Db) (key : string) : bool :=
  existsb (fun row => String.eqb row.1.1 key) (map_to_list (entry_blobs d)).
(** One row of [eviction_candidates_for]. *)
Definition candidate (now : Z) (origin : SweepOrigin) (d : Db) (key : string) (row : EntryRow)
    : EntryFeatures :=
  {| ef_key := key;
     ef_size := er_size row;
     ef_hit_count := er_hit_count row;
     ef_idle_hours := default (S754_zero false) (idle now (er_last_accessed row));
     ef_content_hash := Some (er_content_hash row);
     ef_committed := er_committed row;
     ef_compile_time_ms := er_compile_time_ms row;
     ef_reclaimable_bytes := if has_blob_rows d key then Some (last_ref_bytes d key) else None;
     ef_recently_accessed := now - EVICTION_IDLE_GRACE <=? er_last_accessed row;
     ef_recently_imported :=
       match er_imported_at row, import_pin_secs origin with
       | Some at_, Some pin => now - pin <=? at_
       | _, _ => false
       end |}.
(** [eviction_candidates_for] *)
Definition eviction_candidates_for (now : Z) (origin : SweepOrigin) (d : Db) : list EntryFeatures :=
  map (fun kr => candidate now origin d kr.1 kr.2) (map_to_list (entries d)).

End Candidates.

(** ** Pins outside the index *)

(** One directory entry of the upload spool: [None] when reading it failed, the
    inner [None] when its name is not UTF-8. *)
Definition SpoolName : Type := option (option string).
Inductive SpoolError := TooManyJobs | SpoolUnreadable.
(** [durable_upload_keys_from_names] *)
Fixpoint durable_upload_keys_loop (index max_jobs : Z) (names : list SpoolName)
    (keys : gset string) : result SpoolError (gset string) :=
  match names with
  | [] => Ok keys
  | name :: names =>
      if max_jobs <=? index then Err TooManyJobs
      else match name with
           | None => Err SpoolUnreadable
           | Some file_name =>
               durable_upload_keys_loop (index + 1) max_jobs names
                 (match file_name ≫= strip_suffix ".json" with
                  | Some key => if is_valid_cache_key key then {[key]} ∪ keys else keys
                  | None => keys
                  end)
           end
  end.
Definition durable_upload_keys_from_names (names : list SpoolName) (max_jobs : Z)
    : result SpoolError (gset string) :=
  durable_upload_keys_loop 0 max_jobs names ∅.
(** [durable_upload_keys]: [dir] is [None] when the spool does not exist. *)
Definition durable_upload_keys (dir : option (list SpoolName)) (max_jobs : Z)
    : result SpoolError (gset string) :=
  match dir with
  | None => Ok ∅
  | Some names => durable_upload_keys_from_names names max_jobs
  end.

(** ** The sweep *)

(** A shadow policy's selection for one sweep ([ShadowSelection]). *)
Record ShadowSelection := { sh_policy : string; sh_victims : gset string }.

(** [shadow_only_victims] *)
Definition shadow_only_victims (shadow : ShadowSelection) (evicted : gset string)
    (features : gmap string EntryFeatures) (durable : gset string) (held : gmap string Z)
    : list EntryFeatures :=
  let left_in_store := List.filter (fun key => negb (bool_decide (key ∈ evicted))
    && negb (bool_decide (key ∈ durable)) && negb (bool_decide (is_Some (held !! key))))
    (elements (sh_victims shadow)) in
  let known := omap (fun key => features !! key) left_in_store in
  sort_by (fun a b => String.leb (ef_key a) (ef_key b))
    (List.filter (fun f => negb (ef_recently_accessed f) && negb (ef_recently_imported f)) known).

(** What a sweep carries along its walk; [sw_sleeps] are the pauses it took. *)
Record Sweep := {
  sw_store : Store;
  sw_telemetry : Telemetry;
  sw_stats : GcStats;
  sw_pacer : EvictionWritePacer;
  sw_sleeps : list Z;
  sw_write_ns : Z;
  sw_size : Z;
  sw_evicted : gset string;
}.
Definition with_stats (f : GcStats -> GcStats) (s : Sweep) : Sweep :=
  {| sw_store := sw_store s; sw_telemetry := sw_telemetry s; sw_stats := f (sw_stats s);
     sw_pacer := sw_pacer s; sw_sleeps := sw_sleeps s; sw_write_ns := sw_write_ns s;
     sw_size := sw_size s; sw_evicted := sw_evicted s |}.
Definition paused (p : EvictionWritePacer * option Z) (s : Sweep) : Sweep :=
  {| sw_store := sw_store s; sw_telemetry := sw_telemetry s; sw_stats := sw_stats s;
     sw_pacer := p.1; sw_sleeps := (sw_sleeps s ++ option_list p.2)%list;
     sw_write_ns := sw_write_ns s; sw_size := sw_size s; sw_evicted := sw_evicted s |}.
Definition with_store (st : Store) (s : Sweep) : Sweep :=
  {| sw_store := st; sw_telemetry := sw_telemetry s; sw_stats := sw_stats s;
     sw_pacer := sw_pacer s; sw_sleeps := sw_sleeps s; sw_write_ns := sw_write_ns s;
     sw_size := sw_size s; sw_evicted := sw_evicted s |}.
Definition timed (took : Z) (s : Sweep) : Sweep :=
  {| sw_store := sw_store s; sw_telemetry := sw_telemetry s; sw_stats := sw_stats s;
     sw_pacer := sw_pacer s; sw_sleeps := sw_sleeps s; sw_write_ns := sw_write_ns s + took;
     sw_size := sw_size s; sw_evicted := sw_evicted s |}.

Section Sweeps.
Context `{!JsonCodec EntryMeta} (cfg : Config).
(** The probes of the file system, and SQLite's lock failures per key. *)
Context (retainer : string -> bool) (on_disk : string -> option Z).
Context (sql_fails : string -> option SqlFailure).
(** How long the removal of a key took, in nanoseconds, and when it ran. *)
Context (took : string -> Z) (clock : string -> Z).
Context (idle : Z -> Z -> option f64).
(** [eviction_pacing] *)
Context (pacing : Z * Z).

(** [remove_entry_guarded(key, Some(EVICTION_IDLE_GRACE))] as a sweep sees it. *)
Definition sweep_remove (st : Store) (key : string) : result SweepError (Store * GuardedRemoval) :=
  match sql_fails key with
  | Some f => Err (SqlError f)
  | None =>
      match remove_entry_guarded cfg 1 retainer on_disk (clock key) st key (Some EVICTION_IDLE_GRACE) with
      | Some (Ok r) => Ok r
      | Some (Err e) => Err (RemovalError e)
      | None => Ok (st, Skipped)
      end
  end.

(** The bookkeeping of a removal that went through. *)
Definition reclaimed (features : option EntryFeatures) (policy : string)
    (shadow : option ShadowSelection) (key : string) (r : RemovalReclaim) (s : Sweep)
    : Sweep :=
  {| sw_store := sw_store s;
     sw_telemetry :=
       match features with
       | Some f => record_tombstone (clock key) f policy
                     ((fun sh => (sh_policy sh, bool_decide (key ∈ sh_victims sh))) <$> shadow)
                     (sw_telemetry s)
       | None => sw_telemetry s
       end;
     sw_stats := bump blobs_removed (blobs_unlinked r)
       (bump gc_disk_bytes_reclaimed (disk_bytes_reclaimed r)
         (bump bytes_freed (freed_bytes r) (bump entries_evicted 1 (sw_stats s))));
     sw_pacer := sw_pacer s; sw_sleeps := sw_sleeps s; sw_write_ns := sw_write_ns s;
     sw_size := Z.max 0 (sw_size s - freed_bytes r);
     sw_evicted := {[key]} ∪ sw_evicted s |}.

(** One key of the walk, past the stop checks. *)
Definition evict_key (by_key : gmap string EntryFeatures) (policy : string)
    (shadow : option ShadowSelection) (durable : gset string) (held : gmap string Z)
    (key : string) (s : Sweep) : Sweep :=
  let features := by_key !! key in
  if bool_decide (key ∈ durable) then with_stats (bump entries_pinned 1) s else
  if from_option ef_recently_accessed false features
  then with_stats (bump entries_recent_prefiltered 1 ∘ bump entries_pinned 1) s else
  if from_option ef_recently_imported false features
  then with_stats (bump entries_import_pinned 1 ∘ bump entries_pinned 1) s else
  if held !! key is Some _ then s else
  let s := timed (took key) s in
  match sweep_remove (sw_store s) key with
  | Ok (st, removal) =>
      let s := with_store st (paused (after_write (sw_pacer s) (took key)) s) in
      match removal with
      | Reclaimed r => reclaimed features policy shadow key r s
      | Skipped => with_stats (bump entries_pinned 1) s
      | NotReclaimable => with_stats (bump entries_unreclaimable 1) s
      end
  | Err e =>
      let s := with_stats (fun stats => record_eviction_failure stats e) s in
      if is_sqlite_contention e
      then let '(p, pause) := after_contention (sw_pacer s) in paused (p, Some pause) s
      else s
  end.

(** The loop; [stop i] is the [i]-th answer of the caller's stop test. *)
Fixpoint evict_loop (by_key : gmap string EntryFeatures) (policy : string)
    (shadow : option ShadowSelection) (durable : gset string) (held : gmap string Z)
    (stop : nat -> bool) (target : option Z) (order : list string) (s : Sweep) : Sweep :=
  match order with
  | [] => s
  | key :: order =>
      if stop 0%nat then s
      else if from_option (fun t => sw_size s <=? t) false target then s
      else evict_loop by_key policy shadow durable held (fun i => stop (S i)) target order
             (evict_key by_key policy shadow durable held key s)
  end.

(** [apply_eviction]; [start] is when the sweep began. *)
Definition apply_eviction (start : Z) (st : Store) (t : Telemetry) (order : list string)
    (by_key : gmap string EntryFeatures) (policy : string) (stop_at : option (Z * Z))
    (shadow : option ShadowSelection) (durable : gset string) (held : gmap string Z)
    (stop : nat -> bool) : Sweep :=
  let s := evict_loop by_key policy shadow durable held stop (snd <$> stop_at) order
    {| sw_store := st; sw_telemetry := t; sw_stats := gc_default;
       sw_pacer := pacer_new pacing.1 pacing.2; sw_sleeps := []; sw_write_ns := 0;
       sw_size := from_option fst 0 stop_at; sw_evicted := ∅ |} in
  let s := with_stats (assign evict_write_ms (sw_write_ns s / 1000000)) s in
  match shadow with
  | None => s
  | Some sh =>
      {| sw_store := sw_store s;
         sw_telemetry := record_shadow_victims (sh_policy sh) start
           (shadow_only_victims sh (sw_evicted s) by_key durable held) (sw_telemetry s);
         sw_stats := sw_stats s; sw_pacer := sw_pacer s; sw_sleeps := sw_sleeps s;
         sw_write_ns := sw_write_ns s; sw_size := sw_size s; sw_evicted := sw_evicted s |}
  end.

(** [held_by_live_files] *)
Definition held_by_live_files (d : Db) (candidates : list EntryFeatures) : gmap string Z :=
  if gc_evict_shared cfg then ∅ else
  map_fold (fun kh refs held =>
    match blobs d !! kh.2 with
    | Some b =>
        if bool_decide (kh.1 ∈ map ef_key candidates)
           && holds_last_reference (br_refcount b) refs && retainer kh.2
        then <[kh.1 := default 0 (held !! kh.1) + Z.max (br_size b) 0]> held else held
    | None => held
    end) ∅ (entry_blobs d).

(** The spool directory as a sweep reads it. *)
Context (spool : option (list SpoolName)).
(** What a sweep returns: the store and tables it leaves, and its counters. *)
Inductive EvictError := WriteRefused | SpoolFailed (e : SpoolError).
Definition swept (s : Sweep) : Store * Telemetry * GcStats := (sw_store s, sw_telemetry s, sw_stats s).
Definition durable_keys : result EvictError (gset string) :=
  match durable_upload_keys spool (upload_spool_max_jobs cfg) with
  | Ok keys => Ok keys
  | Err e => Err (SpoolFailed e)
  end.
(** [evict_with_stop] *)
Definition evict_with_stop (policy : EvictionPolicy) (now : Z) (st : Store) (t : Telemetry)
    (stop_at : option (Z * Z)) (probe_held_bytes : bool) (origin : SweepOrigin) (stop : nat -> bool)
    : result EvictError (Store * Telemetry * GcStats) :=
  let candidates := eviction_candidates_for idle now origin (db st) in
  let order := select candidates in
  match order with
  | [] => Ok (st, t, gc_default)
  | _ :: _ =>
      let held := if probe_held_bytes then held_by_live_files (db st) candidates else ∅ in
      let bytes := map_fold (fun _ b acc => b + acc) 0 held in
      let stop_at := (fun ct => (Z.max 0 (ct.1 - bytes), ct.2)) <$> stop_at in
      let shadow := (fun ct : Z * Z =>
        {| sh_policy := @policy_name ValueDensityPolicy;
           sh_victims := would_evict_for_budget candidates
             (@select ValueDensityPolicy candidates) (Z.max 0 (ct.1 - ct.2)) |}) <$> stop_at in
      durable ← durable_keys;
      let s := apply_eviction now st t order (by_key candidates) policy_name stop_at shadow durable
                 held stop in
      let s := with_stats (bump entries_unreclaimable (Z.of_nat (base.size held))
                             ∘ assign bytes_held bytes) s in
      Ok (swept s)
  end.

Definition refuse_sweep : result EvictError unit :=
  if read_only cfg then Err WriteRefused else Ok tt.
Definition never_stop : nat -> bool := fun _ => false.
(** [evict_for] *)
Definition evict_for (now : Z) (st : Store) (t : Telemetry) (origin : SweepOrigin)
    : result EvictError (Store * Telemetry * GcStats) :=
  refuse_sweep;;
  let size_before := physical_size (db st) in
  if negb (over_eviction_trigger size_before (max_size cfg)) then Ok (st, t, gc_default)
  else evict_with_stop SizePressurePolicy now st t
         (Some (size_before, eviction_target (max_size cfg))) true origin never_stop.
(** [evict_for_disk_pressure] *)
Definition evict_for_disk_pressure (now : Z) (st : Store) (t : Telemetry) (stop : nat -> bool)
    : result EvictError (Store * Telemetry * GcStats) :=
  refuse_sweep;;
  if stop 0%nat then Ok (st, t, gc_default)
  else evict_with_stop SizePressurePolicy now st t None false Automatic (fun i => stop (S i)).
(** [evict_older_than] *)
Definition evict_older_than (now : Z) (st : Store) (t : Telemetry) (hours : Z)
    : result EvictError (Store * Telemetry * GcStats) :=
  refuse_sweep;;
  evict_with_stop (OlderThanPolicy hours) now st t None false Requested never_stop.
(** [evict_stale_key_schemas] *)
Definition evict_stale_key_schemas (now : Z) (st : Store) (t : Telemetry) (current_schema : Z)
    : result EvictError (Store * Telemetry * GcStats) :=
  refuse_sweep;;
  let stale := List.filter (fun kr => er_committed kr.2 && negb (er_key_schema kr.2 =? current_schema))
                 (map_to_list (entries (db st))) in
  let keys := sort_by String.leb (map fst stale) in
  let candidates := eviction_candidates_for idle now Requested (db st) in
  durable ← durable_keys;
  Ok (swept (apply_eviction now st t keys (by_key candidates) "stale_schema" None None durable ∅
               never_stop)).
(** [evict_duplicate_entries_for] *)
Definition evict_duplicate_entries_for (now : Z) (st : Store) (t : Telemetry) (origin : SweepOrigin)
    : result EvictError (Store * Telemetry * GcStats) :=
  refuse_sweep;;
  let size_before := physical_size (db st) in
  if negb (over_eviction_trigger size_before (max_size cfg))
  then Ok (st, t, {| gc_counter := fun _ => 0; gc_skipped := true |})
  else evict_with_stop DuplicatePolicy now st t
         (Some (size_before, eviction_target (max_size cfg))) false origin never_stop.
(** [prune_tombstones] *)
Definition prune_tombstones (now : Z) (t : Telemetry) (keep_days : Z)
    : result EvictError (Telemetry * Z) :=
  refuse_sweep;; Ok (prune_tables now keep_days t).

End Sweeps.
