(* ===== verification/EvictProofs.v ===== *)
(** * Eviction sweeps: pins, accounting, progress

    A sweep removes only what no pin protects, its running budget is the physical
    size of the store it leaves, and when it stops above its target everything
    left is accounted for.  A sweep is a sequence of the steps of [StoreSteps], so
    it keeps the store invariant.  Concrete sweeps close the file. *)

From S2P Require Import Prelude Strings Codec Format StorePolicy StoreIndex StoreIndexProofs Store StoreSteps StoreProofs StoreWitness Float Eviction Evict.
#[local] Open Scope string_scope.
#[local] Open Scope Z_scope.

(** ** Bytes in the blob table *)

Definition blob_bytes (d : Db) : Z := map_fold (fun _ row acc => br_size row + acc) 0 (blobs d).
Definition unlink_bytes (unlink : list (string * Z)) : Z := foldr (fun p acc => p.2 + acc) 0 unlink.
Definition sizes_nonneg (d : Db) : Prop := forall h row, blobs d !! h = Some row -> 0 <= br_size row.

Lemma blob_bytes_sizes d d' : br_size <$> blobs d = br_size <$> blobs d' -> blob_bytes d = blob_bytes d'.
Proof.
  assert (forall d, blob_bytes d = map_fold (fun _ z acc => z + acc) 0 (br_size <$> blobs d)) as E.
  { intros e. by rewrite map_fold_fmap. }
  intros H. by rewrite !E, H.
Qed.
Lemma blob_bytes_delete d h row :
  blobs d !! h = Some row -> blob_bytes d = br_size row + blob_bytes (set_blobs (delete h) d).
Proof. intros Hh. unfold blob_bytes. by rewrite (map_fold_delete_L _ _ h row) by (auto; lia). Qed.
Lemma blob_bytes_floor key d : blob_bytes (floor_blob_refs_at_mappings key d) = blob_bytes d.
Proof.
  apply blob_bytes_sizes, map_eq. intros h. rewrite !lookup_fmap, lookup_floor.
  destruct (blobs d !! h); [|done]. cbn. by repeat case_match.
Qed.

(** The decrement loop moves bytes from the table to the unlink list. *)
Lemma decrement_conserves hashes st :
  blob_bytes (fold_left decrement_blob hashes st).1
    + unlink_bytes (fold_left decrement_blob hashes st).2
  = blob_bytes st.1 + unlink_bytes st.2.
Proof.
  revert st. induction hashes as [|x hashes IH]; intros [d unlink]; [done|].
  cbn [fold_left]. rewrite IH. unfold decrement_blob.
  destruct (blobs d !! x) as [row|] eqn:Ex; [|done].
  destruct (_ <=? 0); cbn [fst snd].
  - rewrite (blob_bytes_delete d x row Ex). unfold unlink_bytes. rewrite foldr_app. cbn.
    assert (forall l a, foldr (fun p acc => p.2 + acc) a l = foldr (fun (p : string * Z) acc => p.2 + acc) 0 l + a)
      as E by (induction l as [|p l IHl]; intros a; cbn; [lia|rewrite IHl; lia]).
    rewrite E. lia.
  - f_equal. apply blob_bytes_sizes, map_eq. intros h. cbn. rewrite !lookup_fmap.
    destruct (decide (h = x)) as [->|]; [|by rewrite lookup_insert_ne].
    rewrite lookup_insert_eq, Ex. done.
Qed.
Lemma unmap_conserves key hashes d d' unlink :
  unmap_entry key hashes d = (d', unlink) -> blob_bytes d' + unlink_bytes unlink = blob_bytes d.
Proof.
  intros E. pose proof (decrement_conserves hashes
    (set_entry_blobs (delete_mappings key) (floor_blob_refs_at_mappings key d), [])) as Hc.
  unfold unmap_entry, decrement_blobs in E. rewrite E in Hc. cbn [fst snd] in Hc.
  rewrite Hc. cbn. rewrite Z.add_0_r. apply (blob_bytes_floor key d).
Qed.
Lemma unlink_gone key hashes d d' unlink :
  unmap_entry key hashes d = (d', unlink) ->
  Forall (fun p => blobs d' !! p.1 = None /\ (sizes_nonneg d -> 0 <= p.2)) unlink.
Proof.
  intros E. apply Forall_forall. intros [h sz] Hin. unfold unmap_entry, decrement_blobs in E.
  replace unlink with (d', unlink).2 in Hin by done. rewrite <- E in Hin.
  apply elem_of_unlink in Hin as [[]%not_elem_of_nil|(row & Hrow & <- & Hgone)].
  rewrite E in Hgone. split; [done|]. intros Hs. cbn [fst set_entry_blobs blobs] in Hrow.
  rewrite lookup_floor in Hrow.
  destruct (blobs d !! h) as [b|] eqn:Hb; [|done]. cbn in Hrow.
  specialize (Hs h b Hb). by repeat case_match; simplify_eq.
Qed.
(** The cleanup reports the bytes of everything it was handed. *)
Lemma cleanup_freed on_disk unlink st r :
  Forall (fun p => blobs (db st) !! p.1 = None /\ 0 <= p.2) unlink ->
  freed_bytes (fold_left (unlink_step on_disk) unlink (st, r)).2 = freed_bytes r + unlink_bytes unlink.
Proof.
  revert st r. induction unlink as [|[h sz] unlink IH]; intros st r Hall; [cbn; lia|].
  apply Forall_cons in Hall as [[Hh Hsz] Hall]. cbn [fold_left unlink_step fst] in *.
  cbn in Hh. rewrite Hh, IH by done. cbn [freed_bytes].
  change (unlink_bytes ((h, sz) :: unlink)) with (sz + unlink_bytes unlink). cbn in Hsz. lia.
Qed.

(** ** One removal of a sweep *)

Section Sweep.
Context `{!JsonCodec EntryMeta} `{AP : ArtifactPolicy} (cfg : Config).
Context (retainer : string -> bool) (on_disk : string -> option Z).
Context (sql_fails : string -> option SqlFailure).
Context (took : string -> Z) (clock : string -> Z).
Context (idle : Z -> Z -> option f64) (pacing : Z * Z).
#[local] Set Default Proof Using "Type AP".

Abbreviation sweep_remove := (sweep_remove cfg retainer on_disk sql_fails clock).
Abbreviation evict_key := (evict_key cfg retainer on_disk sql_fails took clock).
Abbreviation evict_loop := (evict_loop cfg retainer on_disk sql_fails took clock).
Abbreviation apply_eviction := (apply_eviction cfg retainer on_disk sql_fails took clock pacing).

(** Why the removal of an indexed key may leave it in place. *)
Definition removal_blocked (st : Store) (key : string) : Prop :=
  read_only cfg = true
  \/ is_Some (sql_fails key)
  \/ (exists row, entries (db st) !! key = Some row
                  /\ clock key - EVICTION_IDLE_GRACE <= er_last_accessed row)
  \/ (gc_evict_shared cfg = false /\ exists meta h, stored_meta st key = Some meta
        /\ h ∈ map hash (files meta) /\ retainer h = true).

(** The state after a successful removal of [key]. *)
Record evicted_key (key : string) (st st' : Store) (freed : Z) : Prop := {
  ev_row : is_Some (entries (db st) !! key);
  ev_entries : entries (db st') = delete key (entries (db st));
  ev_files : forall k p, k <> key -> entry_files st' !! (k, p) = entry_files st !! (k, p);
  ev_inv : store_inv st';
  ev_freed : sizes_nonneg (db st) -> freed = blob_bytes (db st) - blob_bytes (db st') /\ 0 <= freed;
  ev_sizes : sizes_nonneg (db st) -> sizes_nonneg (db st');
  ev_steps : forall blake3_hex good, rtc (step blake3_hex cfg good) st st';
  ev_idle : forall row, entries (db st) !! key = Some row ->
    er_last_accessed row < clock key - EVICTION_IDLE_GRACE;
  ev_private : gc_evict_shared cfg = false -> forall meta h row,
    stored_meta st key = Some meta -> h ∈ map hash (files meta) -> retainer h = true ->
    blobs (db st) !! h = Some row -> count h (map hash (files meta)) < br_refcount row;
}.

Lemma retained_block_rows d retained :
  (forall h n, (h, n) ∈ retained -> is_Some (blobs d !! h)) ->
  match retained_block d retained with
  | Ok true => exists h n, (h, n) ∈ retained
  | Ok false => True
  | Err _ => False
  end.
Proof.
  induction retained as [|[h n] retained IH]; cbn; [done|]. intros Hrows.
  destruct (Hrows h n ltac:(left)) as [row ->]. destruct (holds_last_reference _ _).
  - exists h, n. by left.
  - specialize (IH ltac:(intros; eapply Hrows; by right)).
    destruct (retained_block d retained) as [[]|]; [|done..].
    destruct IH as (h' & n' & Hin). exists h', n'. by right.
Qed.
Lemma held_refs_elem hashes h n : (h, n) ∈ held_refs hashes -> h ∈ hashes.
Proof. unfold held_refs. intros (x & [= -> _] & Hx)%list_elem_of_fmap. by apply elem_of_remove_dups. Qed.
Lemma blob_sizes_sub key hashes d d' unlink :
  unmap_entry key hashes d = (d', unlink) -> sizes_nonneg d -> sizes_nonneg d'.
Proof.
  intros E Hs h row Hrow. replace d' with (d', unlink).1 in Hrow by done. rewrite <- E in Hrow.
  unfold unmap_entry, decrement_blobs in Hrow. rewrite lookup_decrement in Hrow.
  cbn [fst set_entry_blobs blobs] in Hrow. rewrite lookup_floor in Hrow.
  destruct (blobs d !! h) as [b|] eqn:Hb; [|done]. specialize (Hs h b Hb). cbn in Hrow.
  unfold decremented in Hrow. repeat case_match; simplify_eq; done.
Qed.

Lemma retained_block_false d retained h n row :
  retained_block d retained = Ok false -> (h, n) ∈ retained -> blobs d !! h = Some row ->
  0 < br_refcount row -> n < br_refcount row.
Proof.
  induction retained as [|[h' n'] retained IH]; cbn; [by intros _ []%not_elem_of_nil|].
  destruct (blobs d !! h') as [row'|] eqn:Hh'; [|done].
  destruct (holds_last_reference _ _) eqn:Hl; [done|]. intros Hb [[= -> ->]|Hin]%elem_of_cons Hrow Hpos; [|by eapply IH].
  rewrite Hh' in Hrow. injection Hrow as ->. unfold holds_last_reference in Hl. lia.
Qed.
Lemma held_refs_of hashes h : h ∈ hashes -> (h, count h hashes) ∈ held_refs hashes.
Proof.
  intros Hh. unfold held_refs. apply list_elem_of_fmap. exists h. split; [|by apply elem_of_remove_dups].
  done.
Qed.
(** What a committed guarded removal found. *)
Lemma guarded_commit_checks st key row content hashes now g st1 unlink :
  covered (db st) -> entries (db st) !! key = Some row ->
  remove_commit cfg retainer now st key (Some g) content hashes = Ok (st1, Committed unlink) ->
  er_last_accessed row < now - g /\
  (gc_evict_shared cfg = false -> forall h b, h ∈ hashes -> retainer h = true ->
     blobs (db st) !! h = Some b -> count h hashes < br_refcount b).
Proof.
  intros Hcov Hrow Hc. unfold remove_commit in Hc. rewrite Hrow in Hc.
  destruct (Z.leb_spec (now - g) (er_last_accessed row)); [done|]. split; [done|].
  intros Hsh h b Hh Hr Hb. rewrite Hsh in Hc. apply bind_Ok in Hc as (blocked & Hbl & Hc).
  destruct blocked; [done|]. eapply retained_block_false; [exact Hbl| |done|].
  - apply list_elem_of_filter. split; [exact Hr|by apply held_refs_of].
  - destruct Hcov as [_ Hcc]. specialize (Hcc h). rewrite Hb in Hcc. lia.
Qed.

(** Every blob an indexed entry lists has its row. *)
Lemma listed_rows st key row meta h :
  store_inv st -> entries (db st) !! key = Some row -> stored_meta st key = Some meta ->
  h ∈ map hash (files meta) -> is_Some (blobs (db st) !! h).
Proof.
  intros Hinv Hrow Hs Hh. destruct (inv_meta _ Hinv key row Hrow) as (m & Hs' & Hrefs).
  rewrite Hs in Hs'. injection Hs' as <-. apply count_pos in Hh. rewrite <- Hrefs in Hh.
  destruct (inv_covered _ Hinv) as [Hp Hc]. specialize (Hc h).
  destruct (blobs (db st) !! h); [by eexists|].
  pose proof (refs_of_le_total _ key h Hp). lia.
Qed.
Lemma guarded_commit_outcome st key row meta content now g :
  store_inv st -> entries (db st) !! key = Some row -> stored_meta st key = Some meta ->
  read_meta st key = Some content ->
  match remove_commit cfg retainer now st key (Some g) content (map hash (files meta)) with
  | Ok (_, Committed _) => True
  | Ok (st1, RolledBack a) => st1 = st
      /\ (a = Done None /\ now - g <= er_last_accessed row
          \/ a = Unreclaimable /\ gc_evict_shared cfg = false
             /\ exists h, h ∈ map hash (files meta) /\ retainer h = true)
  | Err _ => False
  end.
Proof.
  intros Hinv Hrow Hs Hread. unfold remove_commit. rewrite Hrow.
  destruct (Z.leb_spec (now - g) (er_last_accessed row)); [split; [done|]; left; by split|].
  set (retained := if gc_evict_shared cfg then [] else _).
  assert (forall h n, (h, n) ∈ retained -> h ∈ map hash (files meta) /\ retainer h = true
    /\ gc_evict_shared cfg = false) as Hret.
  { subst retained. intros h n. destruct (gc_evict_shared cfg); [by intros []%not_elem_of_nil|].
    intros [Hr Hin%held_refs_elem]%list_elem_of_filter. done. }
  pose proof (retained_block_rows (db st) retained) as Hb. destruct (retained_block _ _) as [[]|];
    cbn [mbind result_bind].
  - destruct Hb as (h & n & Hin); [intros; by eapply listed_rows, Hret|].
    destruct (Hret _ _ Hin) as (? & ? & ?). split; [done|]. right. eauto.
  - rewrite bool_decide_eq_true_2 by done. by destruct (unmap_entry _ _ _).
  - apply Hb. intros; by eapply listed_rows, Hret.
Qed.
Lemma unindexed_commit st key content hashes now grace :
  entries (db st) !! key = None ->
  match remove_commit cfg retainer now st key grace content hashes with
  | Ok (_, Committed _) => False
  | Ok (st1, RolledBack a) => st1 = st /\ a <> Republished /\ (forall r, a <> Done (Some r))
  | Err _ => True
  end.
Proof.
  intros Hrow. unfold remove_commit. rewrite Hrow. destruct grace; cbn [mbind result_bind];
    destruct (retained_block _ _) as [[]|]; cbn [mbind result_bind]; done.
Qed.

(** The cleanup of an uncontended removal reports what left the table. *)
Lemma committed_frees st key meta content st1 unlink st2 r :
  store_inv st -> read_meta st key = Some content -> from_slice content = Some meta ->
  remove_commit cfg retainer (clock key) st key (Some EVICTION_IDLE_GRACE) content
    (map hash (files meta)) = Ok (st1, Committed unlink) ->
  remove_cleanup on_disk st1 key unlink = (st2, r) -> evicted_key key st st2 (freed_bytes r).
Proof.
  intros Hinv Hread Hparse Hc Ecl.
  destruct (committed_removal cfg retainer on_disk _ _ _ _ _ _ _ _ _ _ Hinv Hread Hparse Hc Ecl)
    as (Hrow & Hun & Hrm).
  pose proof (unlink_gone _ _ _ _ _ Hun) as Hgone.
  assert (sizes_nonneg (db st) <-> sizes_nonneg (set_entries (delete key) (db st))) as Hsz by done.
  destruct Hrow as [row Hrow].
  destruct (guarded_commit_checks _ _ _ _ _ _ _ _ _ (inv_covered _ Hinv) Hrow Hc) as [Hidle Hpriv].
  assert (stored_meta st key = Some meta) as Hmeta by (unfold stored_meta; by rewrite Hread).
  split; [by eexists| | | | | | | |].
  - apply (rm_rows _ _ _ _ Hrm).
  - intros k p Hk. by apply (rm_others _ _ _ _ Hrm).
  - apply (rm_inv _ _ _ _ Hrm).
  - intros Hs. pose proof (unmap_conserves _ _ _ _ _ Hun) as Hb.
    change (blob_bytes (set_entries _ (db st))) with (blob_bytes (db st)) in Hb.
    rewrite <- Hb. unfold remove_cleanup in Ecl. set (st0 := if entries (db st1) !! key is Some _ then _ else _) in Ecl.
    match type of Ecl with fold_left _ _ (_, ?z) = _ =>
      destruct (unlink_fold_spec on_disk unlink st0 z) as (Hdb & _ & _);
      pose proof (cleanup_freed on_disk unlink st0 z) as Hf end.
    rewrite Ecl in Hdb, Hf. cbn [fst snd freed_bytes] in Hdb, Hf. rewrite <- Hdb in Hf. 
    assert (Forall (fun p => blobs (db st2) !! p.1 = None /\ 0 <= p.2) unlink) as Hall.
    { eapply Forall_impl; [exact Hgone|]. intros p [Hp1 Hp2]. split; [done|by apply Hp2]. }
    rewrite Hf by done. split; [lia|]. cut (0 <= unlink_bytes unlink); [lia|].
    clear -Hall. induction Hall as [|p u [_ Hp] _ IH]; unfold unlink_bytes in *; cbn; lia.
  - rewrite Hsz. by eapply blob_sizes_sub.
  - intros blake3_hex good. eapply rtc_l; [by eapply step_remove_commit|].
    apply rtc_once. replace st2 with (remove_cleanup on_disk st1 key unlink).1 by (by rewrite Ecl).
    apply step_remove_cleanup.
  - intros row'. rewrite Hrow. by intros [= <-].
  - intros Hsh m h b. rewrite Hmeta. intros [= <-]. by apply Hpriv.
Qed.
Lemma sweep_remove_spec st key :
  store_inv st ->
  match sweep_remove st key with
  | Ok (st', Reclaimed r) => evicted_key key st st' (freed_bytes r)
  | Ok (st', _) => st' = st /\ (is_Some (entries (db st) !! key) -> removal_blocked st key)
  | Err _ => is_Some (entries (db st) !! key) -> removal_blocked st key
  end.
Proof.
  intros Hinv. unfold Evict.sweep_remove.
  destruct (sql_fails key) as [f|] eqn:Hsql; [intros _; right; left; by eexists|].
  cbn [remove_entry_guarded]. unfold refuse_write.
  destruct (read_only cfg) eqn:Hro; [cbn; intros _; by left|]. cbn [mbind result_bind].
  unfold remove_entry_attempt, remove_read.
  destruct (entries (db st) !! key) as [row|] eqn:Hrow; cycle 1.
  { assert (forall P : Prop, is_Some (@None EntryRow) -> P) as Hno by (by intros P []).
    destruct (read_meta st key) as [content|] eqn:Hread; cbn [mbind result_bind].
    - destruct (from_slice content) as [meta|]; cbn [mbind result_bind]; [|apply Hno].
      pose proof (unindexed_commit st key content (map hash (files meta)) (clock key)
        (Some EVICTION_IDLE_GRACE) Hrow) as Hc.
      destruct (remove_commit _ _ _ _ _ _ _ _) as [[st1 [a|]]|e]; cbn [mbind result_bind]; [|done|apply Hno].
      destruct Hc as (-> & Hr & Hd). destruct a as [[r|]| |]; try done; [by edestruct Hd|split; [done|apply Hno]..].
    - unfold remove_settle. rewrite Hrow. cbn. split; [done|apply Hno]. }
  destruct (inv_meta _ Hinv key row Hrow) as (meta & Hs & Hrefs).
  pose proof Hs as Hs'. unfold stored_meta in Hs'. apply bind_Some in Hs' as (content & Hread & Hparse).
  rewrite Hread. cbn [mbind result_bind]. rewrite Hparse. cbn [mbind result_bind].
  pose proof (guarded_commit_outcome st key row meta content (clock key) EVICTION_IDLE_GRACE
    Hinv Hrow Hs Hread) as Hout.
  destruct (remove_commit _ _ _ _ _ _ _ _) as [[st1 [a|unlink]]|e] eqn:Hc; cbn [mbind result_bind]; [| |done].
  - destruct Hout as (-> & [[-> Hla]|(-> & Hsh & h & Hh & Hr)]); (split; [done|]); intros _.
    + right; right; left. eauto.
    + right; right; right. eauto 10.
  - destruct (remove_cleanup on_disk st1 key unlink) as [st2 r] eqn:Ecl.
    by eapply committed_frees.
Qed.

(** ** The walk *)

(** The pins a sweep checks before it tries a removal. *)
Definition pinned (features : gmap string EntryFeatures) (durable : gset string)
    (held : gmap string Z) (key : string) : Prop :=
  key ∈ durable
  \/ (exists f, features !! key = Some f
                /\ (ef_recently_accessed f = true \/ ef_recently_imported f = true))
  \/ is_Some (held !! key).

Section Walk.
Context (features : gmap string EntryFeatures) (policy : string).
Context (shadow : option ShadowSelection) (durable : gset string) (held : gmap string Z).

(** What one key of the walk does to the store, the budget and the counters. *)
Lemma evict_key_cases key s :
  store_inv (sw_store s) ->
  let s' := evict_key features policy shadow durable held key s in
  (sw_store s' = sw_store s /\ sw_size s' = sw_size s /\ sw_evicted s' = sw_evicted s
   /\ gc_counter (sw_stats s') bytes_freed = gc_counter (sw_stats s) bytes_freed
   /\ gc_counter (sw_stats s') entries_evicted = gc_counter (sw_stats s) entries_evicted
   /\ (is_Some (entries (db (sw_store s)) !! key) ->
       pinned features durable held key \/ removal_blocked (sw_store s) key))
  \/ exists f, evicted_key key (sw_store s) (sw_store s') f
   /\ ~ pinned features durable held key
   /\ sw_size s' = Z.max 0 (sw_size s - f) /\ sw_evicted s' = {[key]} ∪ sw_evicted s
   /\ gc_counter (sw_stats s') bytes_freed = gc_counter (sw_stats s) bytes_freed + f
   /\ gc_counter (sw_stats s') entries_evicted = gc_counter (sw_stats s) entries_evicted + 1.
Proof.
  intros Hinv. cbv zeta. unfold Evict.evict_key, pinned.
  case_bool_decide as Hd; [left; cbn; split_and!; auto|].
  destruct (features !! key) as [f|] eqn:Hf; cbn [from_option];
    [destruct (ef_recently_accessed f) eqn:Hra; [left; cbn; split_and!; eauto 10|];
     destruct (ef_recently_imported f) eqn:Hri; [left; cbn; split_and!; eauto 10|]|].
  all: destruct (held !! key) eqn:Hh; [left; split_and!; eauto|].
  all: pose proof (sweep_remove_spec (sw_store s) key Hinv) as Hr;
    cbn [sw_store timed sw_pacer sw_size sw_evicted sw_stats];
    destruct (sweep_remove (sw_store s) key) as [[st' [r| |]]|e].
  all: try (right; exists (freed_bytes r); split; [exact Hr|]; split;
    [intros [?|[(f' & Hf' & [?|?])|[? ?]]]; congruence|]; split_and!; reflexivity).
  all: left; cbn; try (destruct Hr as [-> Hr]); try (destruct e as [|[[]| |]]; cbn); split_and!; auto.
Qed.

Lemma evict_loop_ind (P : Sweep -> Prop) stop target order s :
  (forall key s, key ∈ order -> P s -> P (evict_key features policy shadow durable held key s)) ->
  P s -> P (evict_loop features policy shadow durable held stop target order s).
Proof.
  revert stop s. induction order as [|key order IH]; intros stop s Hstep Hs; cbn; [done|].
  destruct (stop 0%nat); [done|]. destruct (from_option _ _ _); [done|].
  apply IH; [intros; apply Hstep; [by right|done]|]. apply Hstep; [by left|done].
Qed.

Definition fresh_sweep (st : Store) (t : Telemetry) (size : Z) : Sweep :=
  {| sw_store := st; sw_telemetry := t; sw_stats := gc_default;
     sw_pacer := pacer_new pacing.1 pacing.2; sw_sleeps := []; sw_write_ns := 0;
     sw_size := size; sw_evicted := ∅ |}.
Abbreviation loop_from stop target order s :=
  (evict_loop features policy shadow durable held stop target order s).

(** The walk is a run of the store's steps. *)
Lemma loop_inv stop target order st t size :
  store_inv st ->
  let s' := loop_from stop target order (fresh_sweep st t size) in
  store_inv (sw_store s') /\ forall blake3_hex good, rtc (step blake3_hex cfg good) st (sw_store s').
Proof.
  intros Hinv. cbv zeta. apply (evict_loop_ind (fun s => store_inv (sw_store s) /\
    forall b3 good, rtc (step b3 cfg good) st (sw_store s))); [|split; [done|reflexivity]].
  intros key s _ [Hs Hsteps].
  destruct (evict_key_cases key s Hs) as [(-> & _)|(f & He & _)]; [done|].
  split; [apply He|]. intros b3 good. etransitivity; [apply Hsteps|apply He].
Qed.
(** A key the pins or the idle guard protect keeps its row and directory. *)
Lemma loop_pins stop target order st t size key :
  store_inv st ->
  pinned features durable held key
  \/ (exists row, entries (db st) !! key = Some row
                  /\ clock key - EVICTION_IDLE_GRACE <= er_last_accessed row)
  \/ key ∉ order ->
  let s' := loop_from stop target order (fresh_sweep st t size) in
  entries (db (sw_store s')) !! key = entries (db st) !! key
  /\ (forall p, entry_files (sw_store s') !! (key, p) = entry_files st !! (key, p))
  /\ key ∉ sw_evicted s'.
Proof.
  intros Hinv Hwhy. cbv zeta.
  apply (evict_loop_ind (fun s => store_inv (sw_store s) /\
    entries (db (sw_store s)) !! key = entries (db st) !! key
    /\ (forall p, entry_files (sw_store s) !! (key, p) = entry_files st !! (key, p))
    /\ key ∉ sw_evicted s)); [|split_and!; try done; apply not_elem_of_empty].
  intros k s Hk (Hs & Hrow & Hfiles & Hev).
  destruct (evict_key_cases k s Hs)
    as [(-> & _ & -> & _)|(f & He & Hnp & _ & -> & _)]; [done|].
  assert (k <> key).
  { intros ->. destruct Hwhy as [?|[(row & Hr & Hla)|?]]; [done| |done].
    pose proof (ev_idle _ _ _ _ He row ltac:(by rewrite Hrow)). lia. }
  split; [apply He|]. rewrite (ev_entries _ _ _ _ He), lookup_delete_ne by done.
  split; [done|]. split; [intros p; by rewrite (ev_files _ _ _ _ He)|].
  by intros [->%elem_of_singleton|?]%elem_of_union.
Qed.
(** The running size and the counters follow the blob table. *)
Lemma loop_accounts stop target order st t size :
  store_inv st -> sizes_nonneg (db st) ->
  let s' := loop_from stop target order (fresh_sweep st t size) in
  gc_counter (sw_stats s') bytes_freed = blob_bytes (db st) - blob_bytes (db (sw_store s'))
  /\ 0 <= gc_counter (sw_stats s') bytes_freed
  /\ gc_counter (sw_stats s') entries_evicted = entry_count (db st) - entry_count (db (sw_store s'))
  /\ (0 <= size -> sw_size s' = Z.max 0 (size - gc_counter (sw_stats s') bytes_freed)).
Proof.
  intros Hinv Hsz. cbv zeta. eapply (evict_loop_ind
    (fun s => (store_inv (sw_store s) /\ sizes_nonneg (db (sw_store s))) /\
      gc_counter (sw_stats s) bytes_freed = blob_bytes (db st) - blob_bytes (db (sw_store s))
      /\ 0 <= gc_counter (sw_stats s) bytes_freed
      /\ gc_counter (sw_stats s) entries_evicted = entry_count (db st) - entry_count (db (sw_store s))
      /\ (0 <= size -> sw_size s = Z.max 0 (size - gc_counter (sw_stats s) bytes_freed))));
    [|split_and!; cbn; auto with lia].
  intros k s _ ((Hs & Hnn) & Hf & Hf0 & He & Hsize).
  destruct (evict_key_cases k s Hs)
    as [(-> & -> & _ & -> & -> & _)|(f & Hev & _ & -> & _ & -> & ->)]; [done|].
  destruct (ev_freed _ _ _ _ Hev Hnn) as [Hfr Hfr0].
  assert (entry_count (db (sw_store s)) = entry_count (db (sw_store
    (evict_key features policy shadow durable held k s))) + 1) as Hcnt.
  { unfold entry_count. rewrite (ev_entries _ _ _ _ Hev). destruct (ev_row _ _ _ _ Hev) as [row Hrow].
    rewrite map_size_delete_Some by eauto.
    assert (base.size (entries (db (sw_store s))) <> 0%nat) by (intros E%map_size_empty_inv; rewrite E in Hrow; done).
    lia. }
  split; [split; [apply Hev|by apply Hev]|]. split_and!; [lia|lia|lia|]. intros. rewrite Hsize by done. lia.
Qed.
(** A row that is left at the end was left alone all along. *)
Lemma loop_frame stop target order s key :
  store_inv (sw_store s) ->
  let s' := loop_from stop target order s in
  entries (db (sw_store s')) !! key = None
  \/ (entries (db (sw_store s')) !! key = entries (db (sw_store s)) !! key
      /\ forall p, entry_files (sw_store s') !! (key, p) = entry_files (sw_store s) !! (key, p)).
Proof.
  intros Hinv. cbv zeta. eapply (evict_loop_ind (fun s' => store_inv (sw_store s') /\
    (entries (db (sw_store s')) !! key = None
    \/ (entries (db (sw_store s')) !! key = entries (db (sw_store s)) !! key
        /\ forall p, entry_files (sw_store s') !! (key, p) = entry_files (sw_store s) !! (key, p)))));
    [|by eauto].
  intros k s1 _ [Hs Hk]. destruct (evict_key_cases k s1 Hs) as [(-> & _)|(f & He & _)]; [done|].
  split; [apply He|]. rewrite (ev_entries _ _ _ _ He). destruct (decide (k = key)) as [->|Hne].
  - left. by rewrite lookup_delete_eq.
  - rewrite lookup_delete_ne by done. destruct Hk as [?|[Hr Hf]]; [by left|right].
    split; [done|]. intros p. by rewrite (ev_files _ _ _ _ He).
Qed.
Lemma blocked_frame st st' key :
  entries (db st') !! key = entries (db st) !! key ->
  (forall p, entry_files st' !! (key, p) = entry_files st !! (key, p)) ->
  removal_blocked st key -> removal_blocked st' key.
Proof.
  intros Hr Hf. unfold removal_blocked. rewrite Hr.
  rewrite (stored_meta_frame st st' key) by apply Hf. done.
Qed.
Lemma loop_progress stop target order s :
  store_inv (sw_store s) ->
  let s' := loop_from stop target order s in
  (exists i, stop i = true)
  \/ (exists bound, target = Some bound /\ sw_size s' <= bound)
  \/ forall key, key ∈ order -> is_Some (entries (db (sw_store s')) !! key) ->
       pinned features durable held key \/ removal_blocked (sw_store s') key.
Proof.
  cbv zeta. revert stop s. induction order as [|k order IH]; intros stop s Hinv; cbn.
  { right; right. by intros key []%not_elem_of_nil. }
  destruct (stop 0%nat) eqn:Hst; [left; eauto|].
  destruct (from_option _ _ target) eqn:Ht.
  { right; left. destruct target as [bound|]; [|done]. exists bound. cbn in Ht. split; [done|lia]. }
  pose proof (evict_key_cases k s Hinv) as Hcase. cbv zeta in Hcase.
  set (s1 := evict_key features policy shadow durable held k s) in *. clearbody s1.
  assert (store_inv (sw_store s1)) as Hinv1
    by (destruct Hcase as [(E & _)|(f & He & _)]; [by rewrite E|apply He]).
  destruct (IH (fun i => stop (S i)) s1 Hinv1) as [[i Hi]|[Hb|Hrest]]; [left; eauto|auto|].
  right; right. intros key [->|Hin]%elem_of_cons Hsome; [|by apply Hrest].
  destruct (loop_frame (fun i => stop (S i)) target order s1 k Hinv1) as [Hnone|[Hr Hf]];
    [rewrite Hnone in Hsome; by destruct Hsome|].
  destruct Hcase as [(E & _ & _ & _ & _ & Hwhy)|(f & He & _)];
    [|rewrite Hr, (ev_entries _ _ _ _ He), lookup_delete_eq in Hsome; by destruct Hsome].
  rewrite E in Hr, Hf. rewrite Hr in Hsome. destruct (Hwhy Hsome); [by left|right; by eapply blocked_frame].
Qed.
End Walk.

(** ** Sweeps *)

Lemma apply_eviction_loop start st t order features policy stop_at shadow durable held stop :
  let s := evict_loop features policy shadow durable held stop (snd <$> stop_at) order
             (fresh_sweep st t (from_option fst 0 stop_at)) in
  let s' := apply_eviction start st t order features policy stop_at shadow durable held stop in
  sw_store s' = sw_store s /\ sw_size s' = sw_size s /\ sw_evicted s' = sw_evicted s
  /\ gc_counter (sw_stats s') bytes_freed = gc_counter (sw_stats s) bytes_freed
  /\ gc_counter (sw_stats s') entries_evicted = gc_counter (sw_stats s) entries_evicted.
Proof. by destruct shadow. Qed.

(** C16. A sweep keeps every entry that a pin protects: one that backs a durable
    upload, was accessed or imported recently when the candidates were read, is
    held by a file outside the store, was accessed within the grace period when
    its turn came, or was not selected.  Its row, its whole directory and all of
    its blobs are still there, and the sweep is a run of the store's steps, so the
    store invariant holds throughout. *)
Theorem sweep_respects_pins start st t order features policy stop_at shadow durable held stop key :
  store_inv st ->
  pinned features durable held key
  \/ (exists row, entries (db st) !! key = Some row
                  /\ clock key - EVICTION_IDLE_GRACE <= er_last_accessed row)
  \/ key ∉ order ->
  let s := apply_eviction start st t order features policy stop_at shadow durable held stop in
  entries (db (sw_store s)) !! key = entries (db st) !! key
  /\ (forall p, entry_files (sw_store s) !! (key, p) = entry_files st !! (key, p))
  /\ (forall meta f, is_Some (entries (db st) !! key) -> stored_meta st key = Some meta ->
        f ∈ files meta -> is_Some (blob_files (sw_store s) !! hash f))
  /\ (key ∉ sw_evicted s)
  /\ forall blake3_hex good, rtc (step blake3_hex cfg good) st (sw_store s).
Proof.
  intros Hinv Hwhy. cbv zeta.
  destruct (apply_eviction_loop start st t order features policy stop_at shadow durable held stop)
    as (-> & _ & -> & _).
  destruct (loop_pins features policy shadow durable held stop (snd <$> stop_at) order st t
    (from_option fst 0 stop_at) key Hinv Hwhy) as (Hrow & Hfiles & Hev).
  destruct (loop_inv features policy shadow durable held stop (snd <$> stop_at) order st t
    (from_option fst 0 stop_at) Hinv) as [Hinv' Hsteps].
  split_and!; [done|done| |done|done]. intros meta f [row Hr] Hs Hf. rewrite Hr in Hrow.
  destruct (inv_row_files _ _ _ Hinv' Hrow) as (m & Hm & Hblob).
  rewrite (stored_meta_frame st _ key), Hs in Hm by apply Hfiles. injection Hm as <-. by apply Hblob.
Qed.

(** The sweep's arithmetic is exact: the bytes it reports freed are what left
    the blob table, the entries it reports evicted are the rows that went, and
    the size it budgets with is the initial one less the bytes freed, so on a
    sweep started at the physical size it is the physical size left. *)
Theorem sweep_accounts_exactly start st t order features policy stop_at shadow durable held stop :
  store_inv st -> sizes_nonneg (db st) ->
  let s := apply_eviction start st t order features policy stop_at shadow durable held stop in
  gc_counter (sw_stats s) bytes_freed = blob_bytes (db st) - blob_bytes (db (sw_store s))
  /\ 0 <= gc_counter (sw_stats s) bytes_freed
  /\ gc_counter (sw_stats s) entries_evicted = entry_count (db st) - entry_count (db (sw_store s))
  /\ (forall size target, stop_at = Some (size, target) -> 0 <= size ->
        sw_size s = Z.max 0 (size - gc_counter (sw_stats s) bytes_freed)).
Proof.
  intros Hinv Hsz. cbv zeta.
  destruct (apply_eviction_loop start st t order features policy stop_at shadow durable held stop)
    as (-> & -> & _ & -> & ->).
  destruct (loop_accounts features policy shadow durable held stop (snd <$> stop_at) order st t
    (from_option fst 0 stop_at) Hinv Hsz) as (H1 & H2 & H3 & H4).
  split_and!; try done. intros size target ->. apply H4.
Qed.

(** Every row is a candidate, under its own key. *)
Lemma candidate_keys now origin d key :
  key ∈ map ef_key (eviction_candidates_for idle now origin d) <-> is_Some (entries d !! key).
Proof.
  unfold eviction_candidates_for. rewrite map_map. cbn. rewrite list_elem_of_fmap. split.
  - intros ([k row] & -> & Hin%elem_of_map_to_list). by eexists.
  - intros [row Hrow]. exists (key, row). split; [done|]. by apply elem_of_map_to_list.
Qed.
Lemma size_pressure_keys l key :
  key ∈ select (EvictionPolicy := SizePressurePolicy) l <-> key ∈ map ef_key l.
Proof.
  cbn. rewrite !list_elem_of_fmap. unfold rank_by. by setoid_rewrite elem_of_sort_by.
Qed.
Lemma physical_exact d : sizes_nonneg d -> blob_bytes d <= u64_max -> physical_size d = blob_bytes d.
Proof.
  intros Hs Hm. unfold physical_size, as_u64. fold (blob_bytes d). apply Z.mod_small. split; [|lia].
  unfold blob_bytes. revert Hs. unfold sizes_nonneg.
  induction (blobs d) as [|h row m Hh IH] using map_ind; intros Hs; [done|].
  rewrite map_fold_insert_L by (auto; lia).
  assert (0 <= map_fold (λ _ row acc, br_size row + acc) 0 m).
  { apply IH. intros h' row' Hr. apply (Hs h'). rewrite lookup_insert_ne; [done|congruence]. }
  specialize (Hs h row ltac:(by rewrite lookup_insert_eq)). lia.
Qed.
Lemma held_nonneg d l : forall k b, held_by_live_files cfg retainer d l !! k = Some b -> 0 <= b.
Proof.
  unfold held_by_live_files. destruct (gc_evict_shared cfg); [done|].
  apply (map_fold_weak_ind (fun held _ => forall k b, held !! k = Some b -> 0 <= b)); [done|].
  intros [k' h] refs m held _ IH k b. cbn [fst snd]. destruct (blobs d !! h) as [row|]; [|apply IH].
  cbn. destruct (_ && _); [|apply IH]. intros [[-> <-]|[_ Hk]]%lookup_insert_Some; [|by eapply IH].
  destruct (held !! k) as [b|] eqn:Hb; cbn; [|lia]. specialize (IH k b Hb). lia.
Qed.

Lemma sweep_sizes start st t order features policy stop_at shadow durable held stop :
  store_inv st -> sizes_nonneg (db st) ->
  let s := apply_eviction start st t order features policy stop_at shadow durable held stop in
  sizes_nonneg (db (sw_store s)) /\ blob_bytes (db (sw_store s)) <= blob_bytes (db st)
  /\ forall key, is_Some (entries (db (sw_store s)) !! key) -> is_Some (entries (db st) !! key).
Proof.
  intros Hinv Hsz. cbv zeta.
  destruct (apply_eviction_loop start st t order features policy stop_at shadow durable held stop)
    as (-> & _).
  apply (evict_loop_ind features policy shadow durable held (fun s => store_inv (sw_store s)
    /\ (sizes_nonneg (db (sw_store s)) /\ blob_bytes (db (sw_store s)) <= blob_bytes (db st)
    /\ forall key, is_Some (entries (db (sw_store s)) !! key) -> is_Some (entries (db st) !! key))));
    [|by split_and!].
  intros key s _ (Hs & Hnn & Hb & Hk).
  destruct (evict_key_cases features policy shadow durable held key s Hs) as [(-> & _)|(f & He & _)]; [done|].
  destruct (ev_freed _ _ _ _ He Hnn). split; [apply He|]. split; [by apply He|]. split; [lia|].
  intros k. rewrite (ev_entries _ _ _ _ He). intros [r [_ Hr]%lookup_delete_Some]. by apply Hk; eexists.
Qed.
(** A budgeted sweep ends within its budget, or tried everything. *)
Lemma sized_sweep_outcome start st t order features policy size target shadow durable held :
  store_inv st -> sizes_nonneg (db st) -> 0 <= size ->
  let s := apply_eviction start st t order features policy (Some (size, target)) shadow durable held
             never_stop in
  size - (blob_bytes (db st) - blob_bytes (db (sw_store s))) <= target
  \/ forall key, key ∈ order -> is_Some (entries (db (sw_store s)) !! key) ->
       pinned features durable held key \/ removal_blocked (sw_store s) key.
Proof.
  intros Hinv Hsz Hsize. cbv zeta.
  destruct (apply_eviction_loop start st t order features policy (Some (size, target)) shadow durable
    held never_stop) as (-> & _).
  destruct (loop_accounts features policy shadow durable held never_stop (Some target) order st t size
    Hinv Hsz) as (Hf & _ & _ & Hs).
  destruct (loop_progress features policy shadow durable held never_stop (Some target) order
    (fresh_sweep st t size) Hinv) as [[i Hi]|[(bound & [= <-] & Hb)|Hrest]]; [done| |by right].
  left. cbn in *. rewrite Hs in Hb by done. lia.
Qed.

(** What a size sweep achieves.  It leaves a store at or below the limit
    alone.  Otherwise it ends at or below the target (90% of the limit, not
    counting bytes that files outside the store hold), or every entry it leaves is
    pinned or could not be removed: its removal failed in SQLite, it was accessed
    in the meantime, or a file outside the store shares one of its blobs. *)
Theorem evict_for_progress spool now st t origin st' t' stats :
  store_inv st -> sizes_nonneg (db st) -> blob_bytes (db st) <= u64_max ->
  evict_for cfg retainer on_disk sql_fails took clock idle pacing spool now st t origin
    = Ok (st', t', stats) ->
  (st' = st /\ physical_size (db st) <= max_size cfg)
  \/ physical_size (db st') <= eviction_target (max_size cfg) + gc_counter stats bytes_held
  \/ forall key, is_Some (entries (db st') !! key) ->
       removal_blocked st' key
       \/ exists durable, durable_keys cfg spool = Ok durable
          /\ pinned (by_key (eviction_candidates_for idle now origin (db st))) durable
               (held_by_live_files cfg retainer (db st) (eviction_candidates_for idle now origin (db st))) key.
Proof.
  intros Hinv Hsz Hmax. unfold evict_for. intros Hev. apply bind_Ok in Hev as ([] & _ & Hev).
  unfold over_eviction_trigger in Hev.
  destruct (Z.ltb_spec (max_size cfg) (physical_size (db st))) as [Hover|Hle]; cbn [negb] in Hev;
    [|injection Hev as -> _ _; by left].
  right. unfold evict_with_stop in Hev. set (cands := eviction_candidates_for idle now origin (db st)) in *.
  pose proof (size_pressure_keys cands) as Hsel.
  destruct (select (EvictionPolicy := SizePressurePolicy) cands) as [|k0 order] eqn:Hord.
  { injection Hev as -> _ _. right. intros key Hk. apply (candidate_keys now origin), Hsel in Hk.
    by apply not_elem_of_nil in Hk. }
  set (held := held_by_live_files cfg retainer (db st) cands) in *.
  apply bind_Ok in Hev as (durable & Hdur & Hev).
  set (bytes := map_fold (fun _ b acc => b + acc) 0 held) in *.
  cbn [fmap option_fmap option_map fst snd] in Hev.
  assert (0 <= bytes) as Hbytes.
  { subst bytes. apply (map_fold_weak_ind (fun acc m => (forall k b, m !! k = Some b -> 0 <= b) -> 0 <= acc));
      [done| |intros; by eapply held_nonneg].
    intros k b m r Hk IH Hall. pose proof (Hall k b ltac:(by rewrite lookup_insert_eq)).
    cut (0 <= r); [lia|]. apply IH. intros k' b' Hk'. apply (Hall k'). rewrite lookup_insert_ne; congruence. }
  rewrite physical_exact in * by done.
  match type of Hev with context [Evict.apply_eviction _ _ _ _ _ _ _ ?a ?b ?c ?d ?e ?f (Some (?g, ?g')) ?h ?i ?j ?k] =>
    destruct (sized_sweep_outcome a b c d e f g g' h i j Hinv Hsz ltac:(lia)) as [Hdone|Hrest];
    destruct (sweep_sizes a b c d e f (Some (g, g')) h i j k Hinv Hsz) as (Hsz' & Hle & Hsub);
    set (s' := Evict.apply_eviction _ _ _ _ _ _ _ a b c d e f (Some (g, g')) h i j k) in *; clearbody s' end.
  all: injection Hev as <- _ <-.
  - left. rewrite physical_exact by (done || lia).
    match goal with |- _ <= _ + ?x => change x with bytes end. cbn. lia.
  - right. intros key Hk. destruct (Hrest key) as [Hp|Hb]; [|done|right; eauto|by left].
    by eapply Hsel, candidate_keys, Hsub.
Qed.
End Sweep.

(** ** Eviction sweeps: concrete runs

    The theorems of [EvictProofs] applied to sweeps over the two-entry store of
    [StoreWitness]. *)

Lemma sizes_nonneg_check d :
  forallb (fun r => 0 <=? br_size r.2) (map_to_list (blobs d)) = true -> sizes_nonneg d.
Proof.
  rewrite forallb_forall. intros Hall h row Hrow. specialize (Hall (h, row)).
  apply Z.leb_le, Hall, list_elem_of_In. by apply elem_of_map_to_list.
Qed.
Lemma run3_sizes : sizes_nonneg (db run3).
Proof. apply sizes_nonneg_check. vm_compute. reflexivity. Qed.

(** Idle hours from timestamps in seconds; the sweeps run at 9000. *)
Definition demo_idle (now last : Z) : option f64 := Some (f64_div (f64_of_Z (now - last)) (f64_of_Z 3600)).
Definition demo_pacing : Z * Z := (EVICTION_WRITE_SLICE, EVICTION_WRITE_PAUSE).
Definition no_telemetry : Telemetry := {| tombstones := ∅; shadow_victims := ∅ |}.
Definition demo_candidates : list EntryFeatures := eviction_candidates_for demo_idle 9000 Automatic (db run3).
(** A sweep of both entries while the first backs a durable upload. *)
Definition demo_sweep : Sweep :=
  apply_eviction demo_cfg (fun _ => false) (fun _ => None) (fun _ => None) (fun _ => 1) (fun _ => 9000)
    demo_pacing 9000 run3 no_telemetry [key1; key2] (by_key demo_candidates) "size-pressure"
    (Some (14, 0)) None {[key1]} ∅ never_stop.

Lemma sweep_respects_pins_witness :
  entries (db (sw_store demo_sweep)) !! key1 = entries (db run3) !! key1
  /\ bool_decide (is_Some (entries (db (sw_store demo_sweep)) !! key2)) = false.
Proof.
  split; [|vm_compute; reflexivity].
  refine (proj1 (sweep_respects_pins demo_cfg (fun _ => false) (fun _ => None) (fun _ => None)
    (fun _ => 1) (fun _ => 9000) demo_pacing 9000 run3 no_telemetry [key1; key2] (by_key demo_candidates)
    "size-pressure" (Some (14, 0)) None {[key1]} ∅ never_stop key1 run3_inv _)).
  left. left. by apply elem_of_singleton.
Defined.
(** Removing the second entry frees nothing: the first shares both blobs. *)
Lemma sweep_accounts_exactly_witness :
  gc_counter (sw_stats demo_sweep) bytes_freed
    = blob_bytes (db run3) - blob_bytes (db (sw_store demo_sweep))
  /\ gc_counter (sw_stats demo_sweep) bytes_freed = 0
  /\ gc_counter (sw_stats demo_sweep) entries_evicted = 1.
Proof.
  split; [|split; vm_compute; reflexivity].
  exact (proj1 (sweep_accounts_exactly demo_cfg (fun _ => false) (fun _ => None) (fun _ => None)
    (fun _ => 1) (fun _ => 9000) demo_pacing 9000 run3 no_telemetry [key1; key2]
    (by_key demo_candidates) "size-pressure" (Some (14, 0)) None {[key1]} ∅ never_stop run3_inv run3_sizes)).
Defined.

Definition demo_evict : result EvictError (Store * Telemetry * GcStats) :=
  evict_for demo_cfg (fun _ => false) (fun _ => None) (fun _ => None) (fun _ => 1) (fun _ => 9000)
    demo_idle demo_pacing (Some []) 9000 run3 no_telemetry Requested.
(** 14 bytes over a limit of 4: both entries go and nothing is left. *)
Lemma evict_for_progress_witness :
  exists st' t' stats, demo_evict = Ok (st', t', stats) /\ physical_size (db st') <= 3
    /\ ((st' = run3 /\ physical_size (db run3) <= 4)
        \/ physical_size (db st') <= 3 + gc_counter stats bytes_held
        \/ forall key, is_Some (entries (db st') !! key) ->
             removal_blocked demo_cfg (fun _ => false) (fun _ => None) (fun _ => 9000) st' key
             \/ exists durable, durable_keys demo_cfg (Some []) = Ok durable
                /\ pinned (by_key (eviction_candidates_for demo_idle 9000 Requested (db run3))) durable
                     (held_by_live_files demo_cfg (fun _ => false) (db run3)
                       (eviction_candidates_for demo_idle 9000 Requested (db run3))) key).
Proof.
  destruct demo_evict as [[[st' t'] stats]|e] eqn:E.
  - exists st', t', stats. split; [reflexivity|].
    assert (Hb : blob_bytes (db run3) <= u64_max) by (vm_compute; discriminate).
    pose proof (evict_for_progress demo_cfg (fun _ => false) (fun _ => None) (fun _ => None)
      (fun _ => 1) (fun _ => 9000) demo_idle demo_pacing (Some []) 9000 run3 no_telemetry Requested
      st' t' stats run3_inv run3_sizes Hb E) as Hp.
    assert (Hsz : match demo_evict with Ok (st', _, _) => physical_size (db st') <=? 3 | _ => false end = true)
      by (vm_compute; reflexivity).
    rewrite E in Hsz. apply Z.leb_le in Hsz. exact (conj Hsz Hp).
  - exfalso. assert (Hok : is_ok demo_evict = true) by (vm_compute; reflexivity).
    rewrite E in Hok. discriminate Hok.
Defined.
