(* ===== verification/Breaker.v ===== *)
(** * Remote errors, deadlines and the circuit breaker

    [src/remote_resilience.rs]: how a failed remote operation is classified, the
    operation deadline, and the per-direction availability breaker with its
    epoch-bound permits.  Instants and durations are integers of one unit; an
    error is the chain of typed causes the code downcasts, with the rendered
    message. *)

From S2P Require Import Prelude Strings.
#[local] Open Scope string_scope.
#[local] Open Scope Z_scope.

(** ** Error classification *)

Inductive RemoteErrorClass :=
| Miss | Transient | Timeout | Authentication | Configuration | Integrity | Local.
(** [poisons_breaker] *)
Definition poisons_breaker (c : RemoteErrorClass) : bool :=
  match c with Transient | Timeout => true | _ => false end.

(** [opendal::ErrorKind] and [std::io::ErrorKind], the kinds the code names. *)
Inductive OpendalKind :=
| OdNotFound | OdPermissionDenied | OdRateLimited | OdRangeNotSatisfied | OdConditionNotMatch
| OdUnexpected | OdOther.
Inductive IoKind :=
| IoTimedOut | IoConnectionRefused | IoConnectionReset | IoConnectionAborted | IoBrokenPipe
| IoNotConnected | IoAddrNotAvailable | IoPermissionDenied | IoInvalidInput | IoUnsupported
| IoInvalidData | IoUnexpectedEof | IoOther.
Record ReqwestError := {
  rq_timeout : bool; rq_status : option Z; rq_builder : bool; rq_decode : bool; rq_body : bool;
  rq_connect : bool; rq_request : bool;
}.
(** One cause of an error chain, by the type it downcasts to. *)
Inductive Cause :=
| EntryNotFound
| Elapsed
| RemoteDeadlineElapsed (stage : string)
| OpendalError (kind : OpendalKind) (is_temporary : bool)
| IoError (kind : IoKind)
| Reqwest (e : ReqwestError)
| OtherCause.
Record RemoteError := { re_chain : list Cause; re_message : string }.

(** [classify_opendal_error] *)
Definition classify_opendal_error (kind : OpendalKind) (is_temporary : bool) : RemoteErrorClass :=
  match kind with
  | OdNotFound => Miss
  | OdPermissionDenied => Authentication
  | OdRateLimited => Transient
  | OdRangeNotSatisfied | OdConditionNotMatch => Integrity
  | OdUnexpected => if is_temporary then Transient else Local
  | OdOther => Configuration
  end.
(** [classify_io_error] *)
Definition classify_io_error (kind : IoKind) : RemoteErrorClass :=
  match kind with
  | IoTimedOut => Timeout
  | IoConnectionRefused | IoConnectionReset | IoConnectionAborted | IoBrokenPipe | IoNotConnected
  | IoAddrNotAvailable => Transient
  | IoPermissionDenied => Authentication
  | IoInvalidInput | IoUnsupported => Configuration
  | IoInvalidData | IoUnexpectedEof => Integrity
  | IoOther => Local
  end.
(** [classify_reqwest_status] *)
Definition classify_reqwest_status (status : option Z) : option RemoteErrorClass :=
  match status with
  | Some code => if (code =? 401) || (code =? 403) then Some Authentication else None
  | None => None
  end.
(** [reqwest_transport_is_transient], [reqwest_payload_is_integrity] *)
Definition reqwest_transport_is_transient (is_connect is_request : bool) : bool :=
  is_connect || is_request.
Definition reqwest_payload_is_integrity (is_decode is_body : bool) : bool := is_decode || is_body.
(** The [reqwest::Error] arm of [classify_remote_error]. *)
Definition classify_reqwest_error (e : ReqwestError) : RemoteErrorClass :=
  if rq_timeout e then Timeout else
  match classify_reqwest_status (rq_status e) with
  | Some class => class
  | None =>
      if rq_builder e then Configuration
      else if reqwest_payload_is_integrity (rq_decode e) (rq_body e) then Integrity
      else if reqwest_transport_is_transient (rq_connect e) (rq_request e) then Transient
      else Local
  end.
(** What one cause decides; [None] moves on to the next. *)
Definition classify_cause (c : Cause) : option RemoteErrorClass :=
  match c with
  | EntryNotFound => Some Miss
  | Elapsed | RemoteDeadlineElapsed _ => Some Timeout
  | OpendalError kind temporary => Some (classify_opendal_error kind temporary)
  | IoError kind => Some (classify_io_error kind)
  | Reqwest e => Some (classify_reqwest_error e)
  | OtherCause => None
  end.
(** [classify_remote_error] *)
Definition classify_remote_error (e : RemoteError) : RemoteErrorClass :=
  match omap classify_cause (re_chain e) with
  | class :: _ => class
  | [] =>
      let message := to_ascii_lowercase (re_message e) in
      if contains "timed out" message || contains "timeout" message then Timeout else Local
  end.

(** ** Deadlines *)

(** [RemoteDeadline]; [None] is the disabled deadline. *)
Definition RemoteDeadline : Type := option Z.
(** [from_secs_at], with the clock's largest instant. *)
Definition from_secs_at (max_instant started_at seconds : Z) : RemoteDeadline :=
  if seconds =? 0 then None else checked_add max_instant started_at (seconds * 1000).
(** [from_millis_at] *)
Definition from_millis_at (max_instant started_at milliseconds : Z) : RemoteDeadline :=
  if milliseconds =? 0 then None else checked_add max_instant started_at milliseconds.
(** [RemoteDeadline::min] *)
Definition deadline_min (a b : RemoteDeadline) : RemoteDeadline :=
  match a, b with
  | Some a, Some b => Some (Z.min a b)
  | Some a, None | None, Some a => Some a
  | None, None => None
  end.
(** [RemoteDeadline::check] *)
Definition deadline_check (d : RemoteDeadline) (now : Z) (stage : string) : result Cause unit :=
  match d with
  | Some deadline => if deadline <=? now then Err (RemoteDeadlineElapsed stage) else Ok tt
  | None => Ok tt
  end.

(** ** The breaker *)

Inductive RemoteDirection := Read | Write_.
Inductive RemoteOperation :=
| DemandGet | UploadHead | UploadPut | PrefetchGet | ListIndex | WarmAllList | ShardGet | ManifestGet
| PredictionGet.
(** [RemoteOperation::direction] *)
Definition direction (op : RemoteOperation) : RemoteDirection :=
  match op with UploadHead | UploadPut => Write_ | _ => Read end.

Definition REMOTE_FAILURE_THRESHOLD : Z := 3.
(** Milliseconds. *)
Definition REMOTE_DEGRADED_FOR : Z := 45000.

Inductive BreakerMode := Closed | Open (until : Z) | HalfOpen.
(** [is_degraded], [recovery_is_notable] *)
Definition mode_is_degraded (m : BreakerMode) : bool :=
  match m with Closed => false | Open _ | HalfOpen => true end.
Definition recovery_is_notable (m : BreakerMode) (failures : Z) : bool :=
  match m with Closed => negb (failures =? 0) | Open _ | HalfOpen => true end.
(** [cooldown_deadline], for a clock that does not overflow. *)
Definition cooldown_deadline (started_at cooldown : Z) : Z := started_at + cooldown.

(** [DirectionBreaker] with its [BreakerState]. *)
Record DirectionBreaker := {
  bk_threshold : Z;
  bk_cooldown : Z;
  bk_mode : BreakerMode;
  bk_failures : Z;
  bk_epoch : Z;
  bk_suppressed : Z;
}.
Definition wrapping_succ (max x : Z) : Z := (x + 1) mod (max + 1).
Definition with_state (b : DirectionBreaker) (mode : BreakerMode) (failures epoch : Z)
    : DirectionBreaker :=
  {| bk_threshold := bk_threshold b; bk_cooldown := bk_cooldown b; bk_mode := mode;
     bk_failures := failures; bk_epoch := epoch; bk_suppressed := bk_suppressed b |}.
Definition with_suppressed (b : DirectionBreaker) (n : Z) : DirectionBreaker :=
  {| bk_threshold := bk_threshold b; bk_cooldown := bk_cooldown b; bk_mode := bk_mode b;
     bk_failures := bk_failures b; bk_epoch := bk_epoch b; bk_suppressed := n |}.

Record RemoteBreaker := { rb_read : DirectionBreaker; rb_write : DirectionBreaker }.
(** [RemoteBreaker::with_policy], [new] *)
Definition with_policy (threshold cooldown : Z) : RemoteBreaker :=
  let make := {| bk_threshold := Z.max threshold 1; bk_cooldown := cooldown; bk_mode := Closed;
                 bk_failures := 0; bk_epoch := 0; bk_suppressed := 0 |} in
  {| rb_read := make; rb_write := make |}.
Definition breaker_new : RemoteBreaker := with_policy REMOTE_FAILURE_THRESHOLD REMOTE_DEGRADED_FOR.
(** [RemoteBreaker::direction] and the write back to it. *)
Definition breaker_of (d : RemoteDirection) (b : RemoteBreaker) : DirectionBreaker :=
  match d with Read => rb_read b | Write_ => rb_write b end.
Definition set_breaker (d : RemoteDirection) (x : DirectionBreaker) (b : RemoteBreaker)
    : RemoteBreaker :=
  match d with
  | Read => {| rb_read := x; rb_write := rb_write b |}
  | Write_ => {| rb_read := rb_read b; rb_write := x |}
  end.

Record BreakerPermit := { bp_operation : RemoteOperation; bp_epoch : Z; bp_probe : bool }.

(** [RemoteBreaker::try_acquire] on the operation's direction, at [now]. *)
Definition try_acquire (now : Z) (op : RemoteOperation) (b : DirectionBreaker)
    : DirectionBreaker * option BreakerPermit :=
  let grant b probe :=
    (b, Some {| bp_operation := op; bp_epoch := bk_epoch b; bp_probe := probe |}) in
  let refuse := (with_suppressed b (wrapping_succ u32_max (bk_suppressed b)), None) in
  match bk_mode b with
  | Closed => grant b false
  | Open until =>
      if until <=? now
      then grant (with_state b HalfOpen (bk_failures b) (wrapping_succ u64_max (bk_epoch b))) true
      else refuse
  | HalfOpen => refuse
  end.
(** [RemoteBreaker::try_acquire_speculative] *)
Definition try_acquire_speculative (op : RemoteOperation) (b : DirectionBreaker)
    : option BreakerPermit :=
  match bk_mode b with
  | Closed => Some {| bp_operation := op; bp_epoch := bk_epoch b; bp_probe := false |}
  | _ => None
  end.
(** [is_degraded] *)
Definition is_degraded (b : RemoteBreaker) : bool :=
  mode_is_degraded (bk_mode (rb_read b)) || mode_is_degraded (bk_mode (rb_write b)).

(** [BreakerPermit::finish]; [class] is [None] on success. *)
Definition finish (now : Z) (p : BreakerPermit) (class : option RemoteErrorClass)
    (b : DirectionBreaker) : DirectionBreaker :=
  if negb (bk_epoch b =? bp_epoch p) then b
  else if negb (from_option poisons_breaker false class) then
    let recovered := recovery_is_notable (bk_mode b) (bk_failures b) in
    let b := with_state b Closed 0 (bk_epoch b) in
    if recovered then with_suppressed b 0 else b
  else
    let failures := saturating_add u32_max (bk_failures b) 1 in
    if bp_probe p || (bk_threshold b <=? failures)
    then with_state b (Open (cooldown_deadline now (bk_cooldown b))) failures
           (wrapping_succ u64_max (bk_epoch b))
    else with_state b (bk_mode b) failures (bk_epoch b).
(** [Drop for BreakerPermit]: an unfinished permit. *)
Definition drop_permit (now : Z) (p : BreakerPermit) (b : DirectionBreaker) : DirectionBreaker :=
  if negb (bp_probe p) then b
  else match bk_mode b with
       | HalfOpen =>
           if bk_epoch b =? bp_epoch p
           then with_state b (Open (cooldown_deadline now (bk_cooldown b))) (bk_failures b)
                  (wrapping_succ u64_max (bk_epoch b))
           else b
       | _ => b
       end.
