(* ===== verification/BreakerProofs.v ===== *)
(** * The circuit breaker: protocol and trip condition

    Runs of one remote breaker: operations acquire permits, and live permits
    finish or are dropped in any order.  Epochs are 64-bit and wrap, so the
    theorems are about runs of fewer than [2 ^ 64] steps. *)

From S2P Require Import Prelude Strings Breaker.
#[local] Open Scope Z_scope.

(** ** Runs *)

Record System := { sy_breaker : RemoteBreaker; sy_live : list BreakerPermit }.
Definition live_with (p : option BreakerPermit) (l : list BreakerPermit) : list BreakerPermit :=
  match p with Some p => p :: l | None => l end.
Inductive step : System -> System -> Prop :=
| step_acquire s now op b p :
    try_acquire now op (breaker_of (direction op) (sy_breaker s)) = (b, p) ->
    step s {| sy_breaker := set_breaker (direction op) b (sy_breaker s);
              sy_live := live_with p (sy_live s) |}
| step_speculative s op p :
    try_acquire_speculative op (breaker_of (direction op) (sy_breaker s)) = Some p ->
    step s {| sy_breaker := sy_breaker s; sy_live := p :: sy_live s |}
| step_finish s now l1 p l2 class :
    sy_live s = l1 ++ p :: l2 ->
    step s {| sy_breaker := set_breaker (direction (bp_operation p))
                (finish now p class (breaker_of (direction (bp_operation p)) (sy_breaker s)))
                (sy_breaker s);
              sy_live := l1 ++ l2 |}
| step_drop s now l1 p l2 :
    sy_live s = l1 ++ p :: l2 ->
    step s {| sy_breaker := set_breaker (direction (bp_operation p))
                (drop_permit now p (breaker_of (direction (bp_operation p)) (sy_breaker s)))
                (sy_breaker s);
              sy_live := l1 ++ l2 |}.
Definition initial (threshold cooldown : Z) : System :=
  {| sy_breaker := with_policy threshold cooldown; sy_live := [] |}.

(** ** The invariant of one direction *)

#[export] Instance direction_eq_dec : EqDecision RemoteDirection.
Proof. solve_decision. Defined.
Definition live_in (d : RemoteDirection) (l : list BreakerPermit) : list BreakerPermit :=
  filter (fun p => direction (bp_operation p) = d) l.
Definition current (b : DirectionBreaker) (l : list BreakerPermit) : list BreakerPermit :=
  filter (fun p => bp_epoch p = bk_epoch b) l.

Record dir_inv (n : Z) (b : DirectionBreaker) (l : list BreakerPermit) : Prop := {
  di_threshold : 1 <= bk_threshold b <= u32_max;
  di_epoch : 0 <= bk_epoch b <= n;
  di_old : Forall (fun p => bp_epoch p <= bk_epoch b) l;
  di_mode : match bk_mode b with
            | Closed => 0 <= bk_failures b < bk_threshold b
                        /\ Forall (fun p => bp_probe p = false) (current b l)
            | Open _ => bk_threshold b <= bk_failures b /\ current b l = []
            | HalfOpen => bk_threshold b <= bk_failures b
                          /\ exists p, current b l = [p] /\ bp_probe p = true
            end;
}.

Lemma dir_inv_mono n b l : dir_inv n b l -> dir_inv (n + 1) b l.
Proof. intros [? ? ? ?]. split; [done|lia|done|done]. Qed.
Lemma dir_inv_suppressed n b l k : dir_inv n b l -> dir_inv n (with_suppressed b k) l.
Proof. by intros [? ? ? ?]. Qed.
Lemma current_cons b p l :
  current b (p :: l) = if decide (bp_epoch p = bk_epoch b) then p :: current b l else current b l.
Proof. unfold current. case_decide; [by rewrite filter_cons_True|by rewrite filter_cons_False]. Qed.
(** Advancing the epoch leaves every live permit behind. *)
Lemma current_fresh b l mode f :
  Forall (fun p => bp_epoch p <= bk_epoch b) l ->
  current (with_state b mode f (bk_epoch b + 1)) l = [].
Proof.
  unfold current. cbn. induction 1 as [|p l Hp _ IH]; [done|].
  rewrite filter_cons_False by lia. done.
Qed.
Lemma old_weaken e l : Forall (fun p => bp_epoch p <= e) l -> Forall (fun p => bp_epoch p <= e + 1) l.
Proof. intros Hl. eapply Forall_impl; [exact Hl|]. cbn. lia. Qed.
Lemma wrapping_small max x : 0 <= x < max -> wrapping_succ max x = x + 1.
Proof. intros. unfold wrapping_succ. apply Z.mod_small. lia. Qed.

(** Re-opening, by a failure or a dropped probe. *)
Lemma reopen_inv n b l now f :
  1 <= bk_threshold b <= u32_max -> 0 <= bk_epoch b <= n ->
  Forall (fun p => bp_epoch p <= bk_epoch b) l -> n < u64_max -> bk_threshold b <= f ->
  dir_inv (n + 1) (with_state b (Open now) f (wrapping_succ u64_max (bk_epoch b))) l.
Proof.
  intros Ht He Ho Hn Hf. rewrite wrapping_small by lia. split; cbn; [done|lia|by apply old_weaken|].
  split; [done|]. by apply (current_fresh b).
Qed.
Lemma acquire_inv n b l now op b' p :
  dir_inv n b l -> n < u64_max -> try_acquire now op b = (b', p) ->
  dir_inv (n + 1) b' (live_with p l).
Proof.
  intros Hinv Hn. pose proof Hinv as [Ht He Ho Hm]. unfold try_acquire.
  destruct (bk_mode b) as [|until|] eqn:Emode.
  - intros [= <- <-]. split; [done|lia|constructor; [cbn; lia|done]|]. rewrite Emode. split; [apply Hm|].
    cbn [live_with]. rewrite current_cons, decide_True by done. constructor; [done|]. apply Hm.
  - destruct (until <=? now); intros [= <- <-].
    + rewrite wrapping_small by lia.
      split; [done|cbn; lia|constructor; [cbn; lia|by apply old_weaken]|]. split; [apply Hm|]. eexists.
      cbn [live_with]. rewrite current_cons, decide_True by done.
      by rewrite (current_fresh b l HalfOpen (bk_failures b) Ho).
    + by apply dir_inv_suppressed, dir_inv_mono.
  - intros [= <- <-]. by apply dir_inv_suppressed, dir_inv_mono.
Qed.

Lemma current_remove b l1 p l2 :
  current b (l1 ++ p :: l2) =
    (if decide (bp_epoch p = bk_epoch b) then current b l1 ++ p :: current b l2
     else current b (l1 ++ l2)).
Proof.
  unfold current. rewrite !filter_app. case_decide; [by rewrite filter_cons_True|by rewrite filter_cons_False].
Qed.
Lemma old_remove e l1 p l2 :
  Forall (fun p => bp_epoch p <= e) (l1 ++ p :: l2) -> Forall (fun p => bp_epoch p <= e) (l1 ++ l2).
Proof. rewrite !Forall_app, Forall_cons. tauto. Qed.
(** A permit that leaves without changing the breaker. *)
Lemma stale_remove n b l1 p l2 :
  dir_inv n b (l1 ++ p :: l2) -> (bp_epoch p = bk_epoch b -> bk_mode b = Closed) ->
  dir_inv (n + 1) b (l1 ++ l2).
Proof.
  intros [Ht He Ho Hm] Hp. split; [done|lia|by eapply old_remove|].
  rewrite current_remove in Hm. case_decide as Hc; [|done]. rewrite (Hp Hc) in *.
  split; [apply Hm|]. destruct Hm as [_ Hm]. unfold current in *. rewrite filter_app.
  rewrite Forall_app, Forall_cons in *. tauto.
Qed.
(** The modes in which a permit of the current epoch can be live. *)
Lemma current_live n b l1 p l2 :
  dir_inv n b (l1 ++ p :: l2) -> bp_epoch p = bk_epoch b ->
  (bk_mode b = Closed /\ bp_probe p = false /\ 0 <= bk_failures b < bk_threshold b
   /\ Forall (fun p => bp_probe p = false) (current b (l1 ++ l2)))
  \/ (bk_mode b = HalfOpen /\ bp_probe p = true /\ bk_threshold b <= bk_failures b
      /\ current b (l1 ++ l2) = []).
Proof.
  intros [Ht He Ho Hm] Hc. rewrite current_remove, decide_True in Hm by done.
  assert (current b (l1 ++ l2) = current b l1 ++ current b l2) as -> by apply filter_app.
  destruct (bk_mode b).
  - left. rewrite Forall_app, Forall_cons in Hm. rewrite Forall_app. tauto.
  - destruct Hm as [_ Hm]. by apply app_nil in Hm as [_ ?].
  - right. destruct Hm as (Hf & q & Hq & Hprobe). destruct (current b l1) as [|x [|]]; [|done..].
    cbn in *. by simplify_eq.
Qed.
Lemma finish_inv n b l1 p l2 now class :
  dir_inv n b (l1 ++ p :: l2) -> n < u64_max -> dir_inv (n + 1) (finish now p class b) (l1 ++ l2).
Proof.
  intros Hinv Hn. unfold finish. destruct (Z.eqb_spec (bk_epoch b) (bp_epoch p)) as [Hc|Hc]; cbn [negb].
  2:{ apply (stale_remove n b l1 p l2); [done|congruence]. }
  pose proof Hinv as [Ht He Ho _]. apply old_remove in Ho.
  destruct (current_live _ _ _ _ _ Hinv (eq_sym Hc)) as [(Em & Hp & Hf & Hcur)|(Em & Hp & Hf & Hcur)].
  - rewrite Hp, Em. cbn [orb]. destruct (from_option poisons_breaker false class); cbn [negb].
    + unfold saturating_add. destruct (Z.leb_spec (bk_threshold b) (Z.min u32_max (bk_failures b + 1))).
      * by apply reopen_inv.
      * split; cbn; [done|lia|done|]. split; [lia|done].
    + case_match; [apply dir_inv_suppressed|]; (split; cbn; [done|lia|done|]); (split; [lia|done]).
  - rewrite Hp. cbn [orb]. destruct (from_option poisons_breaker false class); cbn [negb].
    + apply reopen_inv; try done. unfold saturating_add. lia.
    + case_match; [apply dir_inv_suppressed|]; (split; [done|cbn; lia|done|]);
        change (0 <= 0 < bk_threshold b /\ Forall (fun p => bp_probe p = false) (current b (l1 ++ l2)));
        rewrite Hcur; (split; [lia|constructor]).
Qed.
Lemma drop_inv n b l1 p l2 now :
  dir_inv n b (l1 ++ p :: l2) -> n < u64_max -> dir_inv (n + 1) (drop_permit now p b) (l1 ++ l2).
Proof.
  intros Hinv Hn. unfold drop_permit. pose proof Hinv as [Ht He Ho _]. apply old_remove in Ho.
  assert (bp_epoch p = bk_epoch b -> bk_mode b = HalfOpen -> bp_probe p = true) as Hprobe.
  { intros Hc Em. destruct (current_live _ _ _ _ _ Hinv Hc) as [(E & _)|(_ & Hp & _)]; [congruence|done]. }
  assert (bk_mode b <> HalfOpen -> bp_epoch p = bk_epoch b -> bk_mode b = Closed) as Hcl.
  { intros Hne Hc. by destruct (current_live _ _ _ _ _ Hinv Hc) as [(E & _)|(E & _)]. }
  destruct (bp_probe p) eqn:Hp; cbn [negb].
  2:{ apply (stale_remove n b l1 p l2); [done|]. intros Hc. apply Hcl; [|done]. intros Em. by specialize (Hprobe Hc Em). }
  destruct (bk_mode b) eqn:Em; [apply (stale_remove n b l1 p l2); [done|]; intros Hc; rewrite Em; by apply Hcl..|].
  destruct (Z.eqb_spec (bk_epoch b) (bp_epoch p)) as [Hc|Hc]; [|apply (stale_remove n b l1 p l2); [done|congruence]].
  apply reopen_inv; try done.
  destruct (current_live _ _ _ _ _ Hinv (eq_sym Hc)) as [(E & _)|(_ & _ & Hf & _)]; [congruence|done].
Qed.

(** ** Every run *)

Definition sys_inv (n : Z) (s : System) : Prop :=
  forall d, dir_inv n (breaker_of d (sy_breaker s)) (live_in d (sy_live s)).

Lemma breaker_of_set d d' x b :
  breaker_of d (set_breaker d' x b) = if decide (d = d') then x else breaker_of d b.
Proof. by destruct d, d'; case_decide. Qed.
Lemma live_in_remove d l1 p l2 :
  live_in d (l1 ++ p :: l2) =
    (if decide (direction (bp_operation p) = d) then live_in d l1 ++ p :: live_in d l2
     else live_in d l1 ++ live_in d l2).
Proof.
  unfold live_in. rewrite filter_app. case_decide; [by rewrite filter_cons_True|by rewrite filter_cons_False].
Qed.
Lemma live_in_with d p l :
  live_in d (live_with p l) =
    match p with
    | Some p' => if decide (direction (bp_operation p') = d) then p' :: live_in d l else live_in d l
    | None => live_in d l
    end.
Proof. destruct p as [p|]; [|done]. apply (live_in_remove d [] p l). Qed.
Lemma acquire_operation now op b b' p : try_acquire now op b = (b', Some p) -> bp_operation p = op.
Proof. unfold try_acquire. by repeat case_match; intros; simplify_eq. Qed.
Lemma speculative_acquire now op b p : try_acquire_speculative op b = Some p -> try_acquire now op b = (b, Some p).
Proof. unfold try_acquire_speculative, try_acquire. by destruct (bk_mode b); intros [= <-]. Qed.

Lemma breaker_step_inv n s s' : sys_inv n s -> n < u64_max -> step s s' -> sys_inv (n + 1) s'.
Proof.
  intros Hinv Hn Hstep d. pose proof (Hinv d) as Hd.
  destruct Hstep as [s now op b p Ha|s op p Ha|s now l1 p l2 class Hl|s now l1 p l2 Hl];
    cbn [sy_breaker sy_live].
  - rewrite breaker_of_set, live_in_with. destruct p as [p|].
    + pose proof (acquire_operation _ _ _ _ _ Ha) as Hop. rewrite Hop.
      case_decide; subst; [|rewrite decide_False by done; by apply dir_inv_mono].
      rewrite decide_True by done. apply (acquire_inv n _ _ _ _ _ (Some p) Hd Hn Ha).
    + case_decide; [subst|by apply dir_inv_mono]. by apply (acquire_inv n _ _ _ _ _ None Hd Hn Ha).
  - apply (speculative_acquire 0) in Ha. change (p :: sy_live s) with (live_with (Some p) (sy_live s)).
    rewrite live_in_with, (acquire_operation _ _ _ _ _ Ha). case_decide; [subst|by apply dir_inv_mono].
    apply (acquire_inv n _ _ _ _ _ (Some p) Hd Hn Ha).
  - rewrite Hl, live_in_remove in Hd. rewrite breaker_of_set. unfold live_in at 1. rewrite filter_app.
    fold (live_in d l1) (live_in d l2).
    destruct (decide (direction (bp_operation p) = d)) as [<-|Hne];
      [rewrite decide_True by done; by apply finish_inv|rewrite decide_False by congruence; by apply dir_inv_mono].
  - rewrite Hl, live_in_remove in Hd. rewrite breaker_of_set. unfold live_in at 1. rewrite filter_app.
    fold (live_in d l1) (live_in d l2).
    destruct (decide (direction (bp_operation p) = d)) as [<-|Hne];
      [rewrite decide_True by done; by apply drop_inv|rewrite decide_False by congruence; by apply dir_inv_mono].
Qed.
Lemma breaker_run_inv threshold cooldown n s :
  threshold <= u32_max -> nsteps step n (initial threshold cooldown) s -> Z.of_nat n <= u64_max ->
  sys_inv (Z.of_nat n) s.
Proof.
  intros Ht. revert s. induction n as [|n IH]; intros s Hrun Hn.
  - inversion Hrun; subst. intros d. destruct d; (split; cbn; [unfold u32_max in *; lia|lia|constructor|split; [lia|constructor]]).
  - apply nsteps_inv_r in Hrun as (s' & Hrun & Hstep). replace (Z.of_nat (S n)) with (Z.of_nat n + 1) by lia.
    eapply breaker_step_inv; [apply IH; [done|lia]|lia|done].
Qed.

(** What a result of a current permit does to a closed direction. *)
Definition closed_after (now : Z) (class : option RemoteErrorClass) (b b' : DirectionBreaker) : Prop :=
  if from_option poisons_breaker false class then
    bk_failures b' = bk_failures b + 1 /\
    bk_mode b' = if bk_failures b + 1 <? bk_threshold b then Closed else Open (now + bk_cooldown b)
  else bk_mode b' = Closed /\ bk_failures b' = 0.
Lemma closed_finish n b l p now class :
  dir_inv n b l -> bk_mode b = Closed -> p ∈ l -> bp_epoch p = bk_epoch b ->
  bp_probe p = false /\ closed_after now class b (finish now p class b) /\ drop_permit now p b = b.
Proof.
  intros Hinv Em (l1 & l2 & ->)%list_elem_of_split He.
  destruct (current_live _ _ _ _ _ Hinv He) as [(_ & Hp & Hf & _)|(E & _)]; [|congruence]. destruct Hinv as [Ht _ _ _].
  split; [done|]. split; [|unfold drop_permit; by rewrite Hp]. unfold closed_after, finish. rewrite He, Z.eqb_refl, Hp. cbn [negb orb].
  destruct (from_option poisons_breaker false class); cbn [negb]; [|by destruct (recovery_is_notable _ _)].
  unfold saturating_add. rewrite Z.min_r by lia.
  destruct (Z.leb_spec (bk_threshold b) (bk_failures b + 1)), (Z.ltb_spec (bk_failures b + 1) (bk_threshold b)); cbn; try lia; done.
Qed.
Lemma stale_inert b p now class : bp_epoch p <> bk_epoch b -> finish now p class b = b /\ drop_permit now p b = b.
Proof.
  intros Hp. unfold finish, drop_permit. rewrite (proj2 (Z.eqb_neq _ _)) by congruence.
  split; [done|]. destruct (bp_probe p); [|done]. by destruct (bk_mode b).
Qed.

(** C32. The breaker's protocol, in every run of fewer than [2 ^ 64] steps and for
    each direction.  In every mode, a permit of an earlier epoch is inert: neither
    its result nor its cancellation changes the breaker.  Closed: fewer than
    [threshold] failures are counted, every operation is admitted as normal
    traffic, the current permits are no probes, and the result of one counts a
    failure, opens the direction for a full cooldown at the threshold, or clears
    the count, while its cancellation changes nothing.  Open: an operation is
    admitted exactly when the cooldown is over, as the probe that makes the
    direction half-open, and every outstanding permit is inert.  Half-open: there
    is exactly one outstanding probe, every other operation is refused and every
    other permit is inert; the probe's success closes the direction, and its
    failure or cancellation opens it again for a full cooldown, so a direction is
    never left half-open. *)
Theorem breaker_protocol threshold cooldown n s d :
  threshold <= u32_max -> nsteps step n (initial threshold cooldown) s -> Z.of_nat n <= u64_max ->
  let b := breaker_of d (sy_breaker s) in
  let live := live_in d (sy_live s) in
  (forall p now class, bp_epoch p <> bk_epoch b -> finish now p class b = b /\ drop_permit now p b = b)
  /\ match bk_mode b with
  | Closed => 0 <= bk_failures b < bk_threshold b
      /\ (forall now op, try_acquire now op b
           = (b, Some {| bp_operation := op; bp_epoch := bk_epoch b; bp_probe := false |}))
      /\ (forall p now class, p ∈ live -> bp_epoch p = bk_epoch b ->
           bp_probe p = false /\ closed_after now class b (finish now p class b) /\ drop_permit now p b = b)
  | Open until =>
      (forall now op, match (try_acquire now op b).2 with
         | Some p => until <= now /\ bp_probe p = true /\ bk_mode (try_acquire now op b).1 = HalfOpen
         | None => now < until
         end)
      /\ (forall op, try_acquire_speculative op b = None)
      /\ forall p, p ∈ live -> bp_epoch p <> bk_epoch b
  | HalfOpen =>
      exists l1 p l2, live = l1 ++ p :: l2 /\ bp_probe p = true
      /\ (forall now op, (try_acquire now op b).2 = None /\ try_acquire_speculative op b = None)
      /\ (forall q, q ∈ l1 ++ l2 -> bp_epoch q <> bk_epoch b)
      /\ (forall now, bk_mode (finish now p None b) = Closed)
      /\ (forall now class, bk_mode (finish now p (Some class) b) =
            if poisons_breaker class then Open (now + bk_cooldown b) else Closed)
      /\ (forall now, bk_mode (drop_permit now p b) = Open (now + bk_cooldown b))
  end.
Proof.
  intros Ht Hrun Hn. cbv zeta. pose proof (breaker_run_inv _ _ _ _ Ht Hrun Hn d) as Hinv. pose proof Hinv as [_ _ _ Hm].
  set (b := breaker_of d (sy_breaker s)) in *. set (l := live_in d (sy_live s)) in *. clearbody b l.
  split; [intros; by apply stale_inert|]. destruct (bk_mode b) as [|until|] eqn:Em.
  - split; [apply Hm|]. split; [intros now op; unfold try_acquire; by rewrite Em|]. intros p now class. by eapply closed_finish.
  - split_and!.
    + intros now op. unfold try_acquire. rewrite Em. by destruct (Z.leb_spec until now).
    + intros op. unfold try_acquire_speculative. by rewrite Em.
    + intros p Hp Hc. destruct Hm as [_ Hm]. apply (not_elem_of_nil p). rewrite <- Hm. by apply list_elem_of_filter.
  - destruct Hm as (_ & p & Hcur & Hp).
    assert (p ∈ current b l) as Hin by (rewrite Hcur; by left).
    apply list_elem_of_filter in Hin as [Hpe Hin]. apply list_elem_of_split in Hin as (l1 & l2 & ->).
    exists l1, p, l2. split_and!; try done.
    + intros now op. unfold try_acquire, try_acquire_speculative. by rewrite Em.
    + intros q Hq Hqe. rewrite current_remove, decide_True in Hcur by done.
      assert (q ∈ current b l1 ++ current b l2) as Hq'.
      { unfold current. rewrite <- filter_app. by apply list_elem_of_filter. }
      destruct (current b l1) as [|? [|]]; [|done..]. injection Hcur as Hcur. rewrite Hcur in Hq'.
      by apply not_elem_of_nil in Hq'.
    + intros now. unfold finish. rewrite Hpe, Z.eqb_refl, Em. done.
    + intros now class. unfold finish. rewrite Hpe, Z.eqb_refl, Em, Hp. cbn. by destruct (poisons_breaker class).
    + intros now. unfold drop_permit. rewrite Hp, Em, Hpe, Z.eqb_refl. done.
Qed.

(** ** When a closed direction degrades *)

(** The results of normal permits of one epoch, each with its time. *)
Definition report (p : BreakerPermit) (results : list (Z * option RemoteErrorClass))
    (b : DirectionBreaker) : DirectionBreaker :=
  fold_left (fun b r => finish r.1 p r.2 b) results b.
Definition poisoning (r : Z * option RemoteErrorClass) : Prop :=
  from_option poisons_breaker false r.2 = true.

Lemma report_stale p results b : bk_epoch b <> bp_epoch p -> report p results b = b.
Proof.
  intros Hne. induction results as [|r results IH]; [done|]. cbn. unfold finish at 2.
  by rewrite (proj2 (Z.eqb_neq _ _)).
Qed.
(** What the next result does to a closed direction. *)
Lemma closed_result p r b :
  bk_mode b = Closed -> bk_epoch b = bp_epoch p -> bp_probe p = false ->
  0 <= bk_failures b < bk_threshold b -> bk_threshold b <= u32_max -> 0 <= bk_epoch b <= u64_max ->
  let b' := finish r.1 p r.2 b in
  bk_threshold b' = bk_threshold b /\
  (~ poisoning r /\ bk_mode b' = Closed /\ bk_epoch b' = bk_epoch b /\ bk_failures b' = 0
   \/ poisoning r /\ bk_failures b + 1 < bk_threshold b /\ bk_mode b' = Closed
      /\ bk_epoch b' = bk_epoch b /\ bk_failures b' = bk_failures b + 1
   \/ poisoning r /\ bk_failures b + 1 = bk_threshold b /\ bk_mode b' <> Closed /\ bk_epoch b' <> bp_epoch p).
Proof.
  intros Em He Hp Hf Ht Hr. cbv zeta. unfold finish, poisoning. rewrite He, Z.eqb_refl, Hp, Em. cbn [negb orb].
  destruct (from_option poisons_breaker false r.2); cbn [negb].
  - unfold saturating_add. rewrite Z.min_r by lia.
    destruct (Z.leb_spec (bk_threshold b) (bk_failures b + 1)); (split; [done|]); right.
    + right. split_and!; [done|lia|done|]. cbn. rewrite He in Hr. unfold wrapping_succ.
      destruct (decide (bp_epoch p = u64_max)) as [->|]; [by vm_compute|]. rewrite Z.mod_small by lia. lia.
    + left. split_and!; try done; cbn; lia.
  - split; [by case_match|]. left. by case_match; split_and!.
Qed.
(** [f] results short of, or a whole, streak of [t] poisoning results. *)
Definition starts (t f : Z) (rs : list (Z * option RemoteErrorClass)) : Prop :=
  exists l2 l3, rs = l2 ++ l3 /\ f + Z.of_nat (length l2) = t /\ Forall poisoning l2.
Definition streak (t : Z) (rs : list (Z * option RemoteErrorClass)) : Prop :=
  exists l1 l2 l3, rs = l1 ++ l2 ++ l3 /\ Z.of_nat (length l2) = t /\ Forall poisoning l2.

Lemma streak_cons t r rs : streak t rs -> streak t (r :: rs).
Proof. intros (l1 & l2 & l3 & -> & ?). exists (r :: l1), l2, l3. done. Qed.
Lemma starts_streak t rs : starts t 0 rs -> streak t rs.
Proof. intros (l2 & l3 & -> & Hl & ?). exists [], l2, l3. split_and!; [done|lia|done]. Qed.
Lemma streak_break t f r rs :
  ~ poisoning r -> 0 <= f < t -> (starts t 0 rs \/ streak t rs) <-> (starts t f (r :: rs) \/ streak t (r :: rs)).
Proof.
  intros Hr Hf. split.
  - intros [H|H]; right; apply streak_cons; [by apply starts_streak|done].
  - intros [([|x l2] & l3 & E & Hl & Hp)|([|x l1] & l2 & l3 & E & Hl & Hp)]; [cbn in Hl; lia| | |].
    + injection E as <- _. by apply Forall_cons in Hp as [].
    + destruct l2 as [|x l2]; [cbn in Hl; lia|]. injection E as <- _. by apply Forall_cons in Hp as [].
    + injection E as _ ->. right. by exists l1, l2, l3.
Qed.
Lemma streak_grow t f r rs :
  poisoning r -> 0 <= f -> f + 1 < t ->
  (starts t (f + 1) rs \/ streak t rs) <-> (starts t f (r :: rs) \/ streak t (r :: rs)).
Proof.
  intros Hr Hf Ht. split.
  - intros [(l2 & l3 & -> & Hl & Hp)|H]; [left|right; by apply streak_cons].
    exists (r :: l2), l3. split_and!; [done|cbn; lia|by constructor].
  - intros [([|x l2] & l3 & E & Hl & Hp)|([|x l1] & l2 & l3 & E & Hl & Hp)]; [cbn in Hl; lia| | |].
    + injection E as <- ->. left. exists l2, l3. cbn in Hl. apply Forall_cons in Hp as [_ Hp]. split_and!; [done|lia|done].
    + destruct l2 as [|x l2]; [cbn in Hl; lia|]. injection E as <- ->. cbn in Hl. apply Forall_cons in Hp as [_ Hp].
      left. exists (take (Z.to_nat (t - f - 1)) l2), (drop (Z.to_nat (t - f - 1)) l2 ++ l3).
      rewrite app_assoc, take_drop, length_take. split_and!; [done|lia|by apply Forall_take].
    + injection E as _ ->. right. by exists l1, l2, l3.
Qed.
Lemma trip_spec p results b :
  bk_mode b = Closed -> bk_epoch b = bp_epoch p -> bp_probe p = false ->
  0 <= bk_failures b < bk_threshold b -> bk_threshold b <= u32_max -> 0 <= bk_epoch b <= u64_max ->
  bk_mode (report p results b) <> Closed <->
    starts (bk_threshold b) (bk_failures b) results \/ streak (bk_threshold b) results.
Proof.
  intros Em He Hp. revert b Em He. induction results as [|r results IH]; intros b Em He Hf Ht Hr.
  { cbn. rewrite Em. split; [done|]. intros [(l2 & l3 & E & Hl & _)|(l1 & l2 & l3 & E & Hl & _)].
    - apply eq_sym, app_nil in E as [-> ->]. cbn in Hl. lia.
    - apply eq_sym, app_nil in E as [_ [-> _]%app_nil]. cbn in Hl. lia. }
  destruct (closed_result p r b Em He Hp Hf Ht Hr) as [Ht' Hcase]. cbn [report fold_left].
  change (fold_left _ results ?b') with (report p results b').
  destruct Hcase as [(Hnp & Em' & He' & Hf')|[(Hpo & Hlt & Em' & He' & Hf')|(Hpo & Heq & Em' & He')]].
  - rewrite IH, Ht', Hf' by (congruence || lia). by apply streak_break.
  - rewrite IH, Ht', Hf' by (congruence || lia). apply streak_grow; [done|lia|lia].
  - rewrite report_stale by done. split; [|done]. intros _. left. exists [r], results.
    split_and!; [done|cbn; lia|by constructor].
Qed.

(** A freshly closed direction degrades exactly when [threshold] poisoning
    results (transient failures or timeouts) of its permits arrive in a row.
    Misses, authentication, configuration, integrity and local errors count as
    successes and break the row; results after the trip change nothing. *)
Theorem degrades_exactly_on_streak p results b :
  bk_mode b = Closed -> bk_failures b = 0 -> bk_epoch b = bp_epoch p -> bp_probe p = false ->
  1 <= bk_threshold b <= u32_max -> 0 <= bk_epoch b <= u64_max ->
  bk_mode (report p results b) <> Closed <->
    exists l1 l2 l3, results = l1 ++ l2 ++ l3 /\ Z.of_nat (length l2) = bk_threshold b
                     /\ Forall poisoning l2.
Proof.
  intros Em Hf He Hp Ht Hr. rewrite trip_spec, Hf by (done || lia). split.
  - intros [H|H]; [by apply starts_streak|done].
  - intros H. by right.
Qed.

(** ** Witnesses *)

(** Three failed downloads open the read direction; a later demand probes it. *)
Definition demo_permit (epoch : Z) (probe : bool) : BreakerPermit :=
  {| bp_operation := DemandGet; bp_epoch := epoch; bp_probe := probe |}.

Lemma degrades_exactly_on_streak_witness :
  bk_mode (report (demo_permit 0 false)
    [(1, Some Miss); (2, Some Timeout); (3, Some Transient); (4, Some Timeout)] (rb_read breaker_new)) <> Closed.
Proof.
  apply (degrades_exactly_on_streak (demo_permit 0 false) _ (rb_read breaker_new));
    [reflexivity..|vm_compute; split; discriminate|vm_compute; split; discriminate|].
  exists [(1, Some Miss)], [(2, Some Timeout); (3, Some Transient); (4, Some Timeout)], [].
  split; [reflexivity|]. split; [reflexivity|]. repeat constructor.
Defined.
Lemma breaker_demo_run :
  exists s, nsteps step 7 (initial REMOTE_FAILURE_THRESHOLD REMOTE_DEGRADED_FOR) s
            /\ bk_mode (rb_read (sy_breaker s)) = HalfOpen.
Proof.
  eexists. split.
  - do 3 (eapply nsteps_l; [eapply (step_acquire _ 0 DemandGet _ (Some (demo_permit 0 false))); reflexivity|]).
    eapply nsteps_l; [apply (step_finish _ 1 [] (demo_permit 0 false) [demo_permit 0 false; demo_permit 0 false]
      (Some Timeout)); reflexivity|].
    eapply nsteps_l; [apply (step_finish _ 2 [] (demo_permit 0 false) [demo_permit 0 false] (Some Transient)); reflexivity|].
    eapply nsteps_l; [apply (step_finish _ 3 [] (demo_permit 0 false) [] (Some Timeout)); reflexivity|].
    apply nsteps_once. eapply (step_acquire _ 99000 DemandGet _ (Some (demo_permit 2 true))). reflexivity.
  - reflexivity.
Qed.
Lemma breaker_protocol_witness :
  exists s l1 p l2, bk_mode (rb_read (sy_breaker s)) = HalfOpen
    /\ live_in Read (sy_live s) = l1 ++ p :: l2 /\ bp_probe p = true.
Proof.
  destruct breaker_demo_run as (s & Hrun & Hm). exists s.
  pose proof (breaker_protocol REMOTE_FAILURE_THRESHOLD REMOTE_DEGRADED_FOR 7 s Read) as Hp.
  cbn [breaker_of] in Hp. rewrite Hm in Hp.
  destruct Hp as (_ & l1 & p & l2 & Hl & Hprobe & _).
  - vm_compute. discriminate.
  - exact Hrun.
  - vm_compute. discriminate.
  - exists l1, p, l2. split; [exact Hm|]. split; [exact Hl|exact Hprobe].
Defined.
