(* ===== verification/Singleflight.v ===== *)
(** * Bounded keyed singleflight

    [KeyedSingleflight] of [src/remote_resilience.rs]: at most one leader per key
    does the remote work, followers receive its answer.  A flight's identity (the
    [Arc] pointer) is a number; each function below is one critical section of
    the code. *)

From S2P Require Import Prelude Strings.

Section Singleflight.
Context {T : Type}.

Record FlightOutcome := { fo_result : option T; fo_finished : bool }.
(** The keyed table and the flights handed out so far. *)
Record Flights := {
  flights : gmap string nat;
  outcomes : gmap nat FlightOutcome;
  next_flight : nat;
}.
Inductive SingleflightClaim := Leader (flight : nat) | Follower (flight : nat) | AtCapacity.

(** [KeyedSingleflight::new] *)
Definition singleflight_new : Flights := {| flights := ∅; outcomes := ∅; next_flight := 0 |}.
(** [KeyedSingleflight::claim] *)
Definition claim (max_entries : nat) (key : string) (s : Flights) : Flights * SingleflightClaim :=
  match flights s !! key with
  | Some flight => (s, Follower flight)
  | None =>
      if decide (max_entries <= size (flights s))%nat then (s, AtCapacity)
      else ({| flights := <[key := next_flight s]> (flights s);
               outcomes := <[next_flight s := {| fo_result := None; fo_finished := false |}]> (outcomes s);
               next_flight := S (next_flight s) |}, Leader (next_flight s))
  end.
(** [SingleflightLeader::release]: only the flight that is in the table. *)
Definition release (key : string) (flight : nat) (s : Flights) : Flights :=
  if decide (flights s !! key = Some flight)
  then {| flights := delete key (flights s); outcomes := outcomes s; next_flight := next_flight s |}
  else s.
Definition set_outcome (flight : nat) (o : FlightOutcome) (s : Flights) : Flights :=
  {| flights := flights s; outcomes := <[flight := o]> (outcomes s); next_flight := next_flight s |}.
(** [SingleflightLeader::complete] *)
Definition complete (key : string) (flight : nat) (result : T) (s : Flights) : Flights :=
  release key flight (set_outcome flight {| fo_result := Some result; fo_finished := true |} s).
(** [Drop for SingleflightLeader] without a completion. *)
Definition drop_leader (key : string) (flight : nat) (s : Flights) : Flights :=
  let result := match outcomes s !! flight with Some o => fo_result o | None => None end in
  release key flight (set_outcome flight {| fo_result := result; fo_finished := true |} s).
(** [SingleflightFollower::wait] at one poll: [None] while the flight runs. *)
Definition poll (flight : nat) (s : Flights) : option (option T) :=
  match outcomes s !! flight with
  | Some o => if fo_finished o then Some (fo_result o) else None
  | None => None
  end.

(** ** Runs *)

(** The table with the leaders that have neither completed nor been dropped. *)
Record Shared := { sf_table : Flights; sf_leaders : gmap nat string }.
Inductive step (max_entries : nat) : Shared -> Shared -> Prop :=
| step_lead s key t flight :
    claim max_entries key (sf_table s) = (t, Leader flight) ->
    step max_entries s {| sf_table := t; sf_leaders := <[flight := key]> (sf_leaders s) |}
| step_other s key t c :
    claim max_entries key (sf_table s) = (t, c) -> (forall f, c <> Leader f) ->
    step max_entries s {| sf_table := t; sf_leaders := sf_leaders s |}
| step_complete s key flight result :
    sf_leaders s !! flight = Some key ->
    step max_entries s {| sf_table := complete key flight result (sf_table s);
                          sf_leaders := delete flight (sf_leaders s) |}
| step_drop s key flight :
    sf_leaders s !! flight = Some key ->
    step max_entries s {| sf_table := drop_leader key flight (sf_table s);
                          sf_leaders := delete flight (sf_leaders s) |}.
Definition idle : Shared := {| sf_table := singleflight_new; sf_leaders := ∅ |}.

(** The table holds exactly the live leaders; every other flight is over. *)
Record sf_inv (max_entries : nat) (s : Shared) : Prop := {
  sf_exact : forall key flight, flights (sf_table s) !! key = Some flight <->
                                sf_leaders s !! flight = Some key;
  sf_bound : (size (flights (sf_table s)) <= max_entries)%nat;
  sf_running : forall flight key, sf_leaders s !! flight = Some key ->
    outcomes (sf_table s) !! flight = Some {| fo_result := None; fo_finished := false |};
  sf_known : forall flight, is_Some (outcomes (sf_table s) !! flight) <-> (flight < next_flight (sf_table s))%nat;
  sf_over : forall flight, sf_leaders s !! flight = None -> (flight < next_flight (sf_table s))%nat ->
    is_Some (poll flight (sf_table s));
}.

Lemma release_leader max s key flight o :
  sf_inv max s -> sf_leaders s !! flight = Some key -> fo_finished o = true ->
  sf_inv max {| sf_table := release key flight (set_outcome flight o (sf_table s));
                sf_leaders := delete flight (sf_leaders s) |}.
Proof.
  intros [He Hb Hr Hk Ho] Hl Hf. unfold release. cbn [set_outcome flights].
  rewrite decide_True by (by apply He).
  assert (flight < next_flight (sf_table s))%nat as Hlt by (apply Hk; rewrite (Hr _ _ Hl); by eexists).
  split; cbn.
  - intros k f. rewrite lookup_delete_Some, (He k f), lookup_delete_Some. split.
    + intros [Hne Hs]. split; [|done]. intros <-. congruence.
    + intros [Hne Hs]. split; [|done]. intros <-. apply He in Hs, Hl. congruence.
  - etransitivity; [apply map_subseteq_size, delete_subseteq|done].
  - intros f k [Hne Hs]%lookup_delete_Some. rewrite lookup_insert_ne by done. by eapply Hr.
  - intros f. rewrite lookup_insert_is_Some, Hk. destruct (decide (flight = f)); naive_solver.
  - intros f Hn Hlt'. unfold poll. cbn. destruct (decide (flight = f)) as [<-|Hne].
    + rewrite lookup_insert_eq, Hf. by eexists.
    + rewrite lookup_insert_ne by done. rewrite lookup_delete_ne in Hn by done. by apply (Ho f).
Qed.

Lemma claim_leads max s key t flight :
  sf_inv max s -> claim max key (sf_table s) = (t, Leader flight) ->
  sf_inv max {| sf_table := t; sf_leaders := <[flight := key]> (sf_leaders s) |}.
Proof.
  intros [He Hb Hr Hk Ho] Hc. unfold claim in Hc.
  destruct (flights (sf_table s) !! key) eqn:Hkey; [done|]. case_decide as Hsz; [done|].
  injection Hc as <- <-. set (n := next_flight (sf_table s)) in *.
  assert (sf_leaders s !! n = None) as Hfresh.
  { destruct (sf_leaders s !! n) as [k|] eqn:E; [|done]. pose proof (Hr _ _ E) as Hn.
    assert (n < n)%nat; [|lia]. apply Hk. by eexists. }
  split; cbn.
  - intros k f. rewrite !lookup_insert_Some, (He k f). split.
    + intros [[<- <-]|[Hne Hs]]; [by left|]. right. split; [|done]. intros <-. congruence.
    + intros [[<- <-]|[Hne Hs]]; [by left|]. right. split; [|done]. intros <-. apply He in Hs. congruence.
  - rewrite map_size_insert_None by done. lia.
  - intros f k [[<- <-]|[Hne Hs]]%lookup_insert_Some; [by rewrite lookup_insert_eq|].
    rewrite lookup_insert_ne by done. by eapply Hr.
  - intros f. rewrite lookup_insert_is_Some, Hk. destruct (decide (n = f)); naive_solver lia.
  - intros f Hn Hlt. apply lookup_insert_None in Hn as [Hn Hne]. unfold poll. cbn.
    rewrite lookup_insert_ne by done. apply (Ho f); [done|lia].
Qed.
Lemma step_keeps_inv max s s' : sf_inv max s -> step max s s' -> sf_inv max s'.
Proof.
  intros Hinv Hstep.
  destruct Hstep as [s key t flight Hc|s key t c Hc Hno|s key flight r Hl|s key flight Hl].
  - by eapply claim_leads.
  - unfold claim in Hc. repeat case_match; simplify_eq; [by destruct Hinv..|naive_solver].
  - by apply release_leader.
  - unfold drop_leader. by apply release_leader.
Qed.
Lemma flight_run_inv max s : rtc (step max) idle s -> sf_inv max s.
Proof.
  intros Hrun. assert (sf_inv max idle) as H0.
  { split; cbn.
    - intros key f. by rewrite !lookup_empty.
    - rewrite map_size_empty. lia.
    - intros f key. by rewrite lookup_empty.
    - intros f. rewrite lookup_empty. split; [by intros []|lia].
    - intros f _ Hf. lia. }
  revert H0. induction Hrun as [|x y z Hxy _ IH]; [done|]. intros Hx. apply IH. by eapply step_keeps_inv.
Qed.


(** A flight that is over keeps its outcome. *)
Lemma step_keeps_outcome max s s' flight r :
  sf_inv max s -> step max s s' -> poll flight (sf_table s) = Some r -> poll flight (sf_table s') = Some r.
Proof.
  intros Hinv Hstep Hp.
  assert (forall k f o, sf_leaders s !! f = Some k ->
    poll flight (release k f (set_outcome f o (sf_table s))) = Some r) as Hset.
  { intros k f o Hl. destruct (decide (f = flight)) as [->|Hne].
    - unfold poll in Hp. by rewrite (sf_running _ _ Hinv _ _ Hl) in Hp.
    - unfold release. case_decide; unfold poll in *; cbn; by rewrite lookup_insert_ne. }
  destruct Hstep as [s key t f Hc|s key t c Hc Hno|s key f r' Hl|s key f Hl]; cbn [sf_table] in *.
  - unfold claim in Hc. destruct (flights (sf_table s) !! key); [done|]. case_decide; [done|].
    injection Hc as <- <-. unfold poll in *. cbn. rewrite lookup_insert_ne; [done|].
    intros <-. assert (next_flight (sf_table s) < next_flight (sf_table s))%nat; [|lia].
    apply (sf_known _ _ Hinv). destruct (outcomes (sf_table s) !! _); [by eexists|done].
  - unfold claim in Hc. repeat case_match; simplify_eq; [done..|naive_solver].
  - by apply Hset.
  - by apply Hset.
Qed.
Lemma run_keeps_outcome max s s' flight r :
  sf_inv max s -> rtc (step max) s s' -> poll flight (sf_table s) = Some r -> poll flight (sf_table s') = Some r.
Proof.
  intros Hinv Hrun. revert Hinv. induction Hrun as [|x y z Hxy _ IH]; [done|]. intros Hx Hp.
  apply IH; [by eapply step_keeps_inv|by eapply step_keeps_outcome].
Qed.

(** Followers get the leader's exact answer: while the leader is live a
    follower waits; once it completed with [r], every later poll of that flight
    returns [r], whatever else happens, also after the key was claimed again; if it
    was dropped, followers get no result, never another flight's. *)
Theorem followers_get_the_answer max s key flight :
  rtc (step max) idle s -> sf_leaders s !! flight = Some key ->
  poll flight (sf_table s) = None
  /\ (forall r s', rtc (step max) {| sf_table := complete key flight r (sf_table s);
                                      sf_leaders := delete flight (sf_leaders s) |} s' ->
        poll flight (sf_table s') = Some (Some r))
  /\ (forall s', rtc (step max) {| sf_table := drop_leader key flight (sf_table s);
                                   sf_leaders := delete flight (sf_leaders s) |} s' ->
        poll flight (sf_table s') = Some None).
Proof.
  intros Hinv%flight_run_inv Hl. pose proof (sf_running _ _ Hinv _ _ Hl) as Ho. split; [by unfold poll; rewrite Ho|].
  assert (forall o s', fo_finished o = true ->
    rtc (step max) {| sf_table := release key flight (set_outcome flight o (sf_table s));
                      sf_leaders := delete flight (sf_leaders s) |} s' ->
    poll flight (sf_table s') = Some (fo_result o)) as Hgen.
  { intros o s' Hf Hrun. eapply run_keeps_outcome; [by apply release_leader|exact Hrun|].
    unfold poll, release. cbn. by case_decide; cbn; rewrite lookup_insert_eq, Hf. }
  split; [intros r s' Hrun|intros s' Hrun].
  - exact (Hgen {| fo_result := Some r; fo_finished := true |} s' eq_refl Hrun).
  - unfold drop_leader in Hrun. rewrite Ho in Hrun.
    exact (Hgen {| fo_result := None; fo_finished := true |} s' eq_refl Hrun).
Qed.
End Singleflight.

(** ** Witnesses *)

Lemma demo_lead : rtc (step (T := Z) 2) idle
  {| sf_table := (claim 2 "k" singleflight_new).1; sf_leaders := {[0%nat := "k"%string]} |}.
Proof. apply rtc_once, (step_lead 2 idle "k"). reflexivity. Qed.
Lemma followers_get_the_answer_witness :
  poll 0 (complete "k" 0 7%Z (claim 2 "k" singleflight_new).1) = Some (Some 7%Z).
Proof.
  destruct (followers_get_the_answer 2 _ "k" 0 demo_lead) as (_ & Hc & _).
  - reflexivity.
  - exact (Hc 7%Z _ (rtc_refl _ _)).
Defined.
