(* ===== verification/NegativeCache.v ===== *)
(** * The negative-result cache

    [NegativeKeyCache] of [src/remote_resilience.rs]: definitive remote misses
    remembered for a short time, ordered against writes and newer observations by
    per-key epochs.  Each function is one critical section, at time [now].
    [min_by_key] picks the first minimum in the map's iteration order, which Rust
    leaves unspecified; no theorem depends on which minimum it is. *)

From S2P Require Import Prelude Strings Format Breaker.
#[local] Open Scope Z_scope.

Definition NEGATIVE_CACHE_MAX_ENTRIES : Z := 16384.

Record NegativeEntry := { ne_missed_at : Z; ne_epoch : Z }.
Record KeyEpoch := { ke_epoch : Z; ke_touched_at : Z }.
Record NegativeState := {
  ns_entries : gmap string NegativeEntry;
  ns_epochs : gmap string KeyEpoch;
  ns_next_epoch : Z;
  ns_hits : Z;
}.
Record KnowledgeToken := { kt_key : string; kt_epoch : Z }.

Definition with_entries (m : gmap string NegativeEntry) (s : NegativeState) : NegativeState :=
  {| ns_entries := m; ns_epochs := ns_epochs s; ns_next_epoch := ns_next_epoch s; ns_hits := ns_hits s |}.
Definition with_epochs (m : gmap string KeyEpoch) (s : NegativeState) : NegativeState :=
  {| ns_entries := ns_entries s; ns_epochs := m; ns_next_epoch := ns_next_epoch s; ns_hits := ns_hits s |}.

(** [iter().min_by_key(f).map(|(key, _)| key)] *)
Definition oldest {A} (f : A -> Z) (m : gmap string A) : option string :=
  fst <$> fold_left (fun best kv =>
    match best with
    | Some b => if f kv.2 <? f b.2 then Some kv else Some b
    | None => Some kv
    end) (map_to_list m) (@None (string * A)).

Section Cache.
Context `{Usize} (ttl max_entries : Z).

(** [NegativeKeyCache::with_max_entries] *)
Definition negative_new : NegativeState :=
  {| ns_entries := ∅; ns_epochs := ∅; ns_next_epoch := 0; ns_hits := 0 |}.
(** [enabled] *)
Definition enabled : bool := negb (ttl =? 0).
(** [missed_at.elapsed() <= ttl] *)
Definition unexpired (now : Z) (e : NegativeEntry) : bool := saturating_sub now (ne_missed_at e) <=? ttl.

(** [check] *)
Definition check (now : Z) (key : string) (s : NegativeState) : NegativeState * bool :=
  if negb enabled then (s, false) else
  match ns_entries s !! key with
  | Some e =>
      if unexpired now e
      then ({| ns_entries := ns_entries s; ns_epochs := ns_epochs s; ns_next_epoch := ns_next_epoch s;
               ns_hits := wrapping_succ u64_max (ns_hits s) |}, true)
      else (with_entries (delete key (ns_entries s)) s, false)
  | None => (s, false)
  end.

(** [advance_epoch] *)
Definition advance_epoch (s : NegativeState) : NegativeState :=
  {| ns_entries := ns_entries s; ns_epochs := ns_epochs s;
     ns_next_epoch := Z.max (wrapping_succ u64_max (ns_next_epoch s)) 1; ns_hits := ns_hits s |}.
(** [remember_epoch] *)
Definition remember_epoch (now : Z) (key : string) (epoch : Z) (s : NegativeState) : NegativeState :=
  let max_epochs := saturating_mul usize_max max_entries 2 in
  if max_epochs =? 0 then s else
  let epochs :=
    if (max_epochs <=? Z.of_nat (base.size (ns_epochs s))) && negb (bool_decide (is_Some (ns_epochs s !! key)))
    then match oldest ke_touched_at (ns_epochs s) with
         | Some k => delete k (ns_epochs s)
         | None => ns_epochs s
         end
    else ns_epochs s in
  with_epochs (<[key := {| ke_epoch := epoch; ke_touched_at := now |}]> epochs) s.

(** A new epoch for a key, as every reader and writer takes one. *)
Definition fresh_epoch (now : Z) (key : string) (s : NegativeState) : NegativeState :=
  let s := advance_epoch s in remember_epoch now key (ns_next_epoch s) s.
(** [begin_observation] *)
Definition begin_observation (now : Z) (key : string) (s : NegativeState)
    : NegativeState * option KnowledgeToken :=
  if negb (is_valid_cache_key key) then (s, None) else
  let s := fresh_epoch now key s in
  (s, Some {| kt_key := key; kt_epoch := ns_next_epoch s |}).
(** [begin_write] *)
Definition begin_write (now : Z) (key : string) (s : NegativeState)
    : NegativeState * option KnowledgeToken :=
  if negb (is_valid_cache_key key) then (s, None) else
  let s := fresh_epoch now key s in
  (with_entries (delete key (ns_entries s)) s, Some {| kt_key := key; kt_epoch := ns_next_epoch s |}).
(** The token is the latest knowledge of its key. *)
Definition token_current (token : KnowledgeToken) (s : NegativeState) : bool :=
  match ns_epochs s !! kt_key token with Some e => ke_epoch e =? kt_epoch token | None => false end.
(** [prune_entries] *)
Definition prune_entries (now : Z) (m : gmap string NegativeEntry) : gmap string NegativeEntry :=
  filter (fun kv => unexpired now kv.2 = true) m.
(** [record_miss] *)
Definition record_miss (now : Z) (token : KnowledgeToken) (s : NegativeState) : NegativeState * bool :=
  if negb (token_current token s) then (s, false) else
  if negb enabled then (s, true) else
  let entries := prune_entries now (ns_entries s) in
  let entries :=
    if (max_entries <=? Z.of_nat (base.size entries)) && negb (bool_decide (is_Some (entries !! kt_key token)))
    then match oldest ne_missed_at entries with Some k => delete k entries | None => entries end
    else entries in
  (with_entries (<[kt_key token := {| ne_missed_at := now; ne_epoch := kt_epoch token |}]> entries) s, true).
(** [record_present] *)
Definition record_present (token : KnowledgeToken) (s : NegativeState) : NegativeState * bool :=
  if negb (token_current token s) then (s, false)
  else (with_entries (delete (kt_key token) (ns_entries s)) s, true).
(** [confirm_present] *)
Definition confirm_present (now : Z) (key : string) (s : NegativeState) : NegativeState * bool :=
  if negb (is_valid_cache_key key) then (s, false) else
  let s := fresh_epoch now key s in
  (with_entries (delete key (ns_entries s)) s, true).
(** [listing_epoch] *)
Definition listing_epoch (s : NegativeState) : Z := ns_next_epoch s.
(** [remove_present_in] *)
Definition listed_before (present : gset string) (listing : Z) (kv : string * NegativeEntry) : bool :=
  bool_decide (kv.1 ∈ present) && (ne_epoch kv.2 <=? listing).
Definition remove_present_in (now : Z) (present : gset string) (listing : Z) (s : NegativeState)
    : NegativeState :=
  if negb enabled then s else
  let keys := map fst (List.filter (listed_before present listing) (map_to_list (ns_entries s))) in
  fold_left (fun s key => fresh_epoch now key (with_entries (delete key (ns_entries s)) s)) keys s.

(** ** Runs *)

Inductive Op :=
| OpCheck (key : string)
| OpObserve (key : string)
| OpWrite (key : string)
| OpMiss (token : KnowledgeToken)
| OpPresent (token : KnowledgeToken)
| OpConfirm (key : string)
| OpListed (present : gset string) (listing : Z).
Definition apply_op (now : Z) (op : Op) (s : NegativeState) : NegativeState :=
  match op with
  | OpCheck key => (check now key s).1
  | OpObserve key => (begin_observation now key s).1
  | OpWrite key => (begin_write now key s).1
  | OpMiss token => (record_miss now token s).1
  | OpPresent token => (record_present token s).1
  | OpConfirm key => (confirm_present now key s).1
  | OpListed present listing => remove_present_in now present listing s
  end.
Definition run (ops : list (Z * Op)) (s : NegativeState) : NegativeState :=
  fold_left (fun s op => apply_op op.1 op.2 s) ops s.

(** ** Sizes *)

Lemma oldest_elem {A} (f : A -> Z) (m : gmap string A) :
  match oldest f m with Some k => is_Some (m !! k) | None => m = ∅ end.
Proof.
  unfold oldest.
  assert (forall l (best : option (string * A)),
    match fold_left (fun best kv => match best with
        | Some b => if f kv.2 <? f b.2 then Some kv else Some b | None => Some kv end) l best with
    | Some kv => kv ∈ l \/ best = Some kv
    | None => best = None /\ l = []
    end) as Hfold.
  { induction l as [|kv l IH]; intros best; cbn; [by destruct best; auto|].
    set (best' := match best with Some b => _ | None => _ end).
    specialize (IH best'). destruct (fold_left _ l best') as [r|]; cycle 1.
    { destruct IH as [IH _]. subst best'. destruct best; [by case_match|done]. }
    destruct IH as [IH|IH]; [left; by right|]. subst best'. destruct best as [b|]; [case_match|]; simplify_eq; auto using list_elem_of_here. }
  specialize (Hfold (map_to_list m) None). destruct (fold_left _ _ _) as [[k a]|]; cbn.
  - destruct Hfold as [Hin|?]; [|done]. apply elem_of_map_to_list in Hin. by eexists.
  - destruct Hfold as [_ Hl]. by apply map_to_list_empty_iff.
Qed.
(** Making room for one key keeps a bounded map bounded. *)
Lemma bounded_insert {A} (f : A -> Z) (m : gmap string A) (bound : Z) key (x : A) :
  0 < bound -> Z.of_nat (base.size m) <= bound ->
  Z.of_nat (base.size (<[key := x]>
    (if (bound <=? Z.of_nat (base.size m)) && negb (bool_decide (is_Some (m !! key)))
     then match oldest f m with Some k => delete k m | None => m end else m))) <= bound.
Proof.
  intros Hb Hm. destruct (Z.leb_spec bound (Z.of_nat (base.size m))); cbn [andb].
  - case_bool_decide as Hk; cbn [negb]; [by rewrite map_size_insert_Some|].
    pose proof (oldest_elem f m) as Ho. destruct (oldest f m) as [k|]; [|subst; rewrite map_size_empty in *; lia].
    assert (k <> key) by congruence.
    assert (m !! key = None) as Hn by (destruct (m !! key) eqn:E; [by destruct Hk; eexists|done]).
    rewrite map_size_insert_None by (by rewrite lookup_delete_ne).
    rewrite map_size_delete_Some by done.
    assert (base.size m <> 0%nat) by (intros E%map_size_empty_inv; subst; destruct Ho as [? Ho]; by rewrite lookup_empty in Ho).
    lia.
  - rewrite map_size_insert. destruct (m !! key); cbn; lia.
Qed.

Definition max_epochs : Z := saturating_mul usize_max max_entries 2.
Record bounded (s : NegativeState) : Prop := {
  bd_entries : Z.of_nat (base.size (ns_entries s)) <= max_entries;
  bd_epochs : Z.of_nat (base.size (ns_epochs s)) <= max_epochs;
}.
Hypothesis max_nonneg : 0 <= max_entries.

Lemma max_epochs_pos : 0 < max_epochs -> 0 < max_entries.
Proof. unfold max_epochs, saturating_mul. lia. Qed.
Lemma delete_bounded {A} key (m : gmap string A) (bound : Z) :
  Z.of_nat (base.size m) <= bound -> Z.of_nat (base.size (delete key m)) <= bound.
Proof. intros Hm. pose proof (map_subseteq_size _ _ (delete_subseteq m key)). lia. Qed.
Lemma with_entries_bounded m s :
  bounded s -> Z.of_nat (base.size m) <= max_entries -> bounded (with_entries m s).
Proof. by intros [He Hp]. Qed.
Lemma fresh_epoch_bounded now key s : bounded s -> bounded (fresh_epoch now key s).
Proof.
  intros [He Hp]. unfold fresh_epoch, remember_epoch. fold max_epochs.
  destruct (Z.eqb_spec max_epochs 0) as [|Hne]; [done|]. split; [done|]. cbn [ns_epochs with_epochs advance_epoch].
  apply bounded_insert; [|done]. unfold max_epochs, saturating_mul in *. pose proof usize_max_bound as Hu.
  unfold u32_max in Hu. lia.
Qed.
Lemma record_miss_bounded now token s : bounded s -> bounded (record_miss now token s).1.
Proof.
  intros Hb. unfold record_miss. destruct (token_current token s) eqn:Ht; [|done]. cbn [negb].
  destruct enabled; [|done]. cbn [negb fst]. apply with_entries_bounded; [done|]. destruct Hb as [He Hp].
  apply bounded_insert.
  - apply max_epochs_pos. unfold token_current in Ht. destruct (ns_epochs s !! kt_key token) eqn:E; [|done].
    assert (base.size (ns_epochs s) <> 0%nat); [|lia].
    intros Hz%map_size_empty_inv. by rewrite Hz in E.
  - pose proof (map_subseteq_size _ _ (map_filter_subseteq (fun kv => unexpired now kv.2 = true) (ns_entries s))).
    unfold prune_entries. lia.
Qed.
Lemma apply_op_bounded now op s : bounded s -> bounded (apply_op now op s).
Proof.
  intros Hb. pose proof Hb as [He _]. destruct op as [key|key|key|token|token|key|present listing]; cbn.
  - unfold check. repeat case_match; cbn; try done; [by destruct Hb|]. apply with_entries_bounded; [done|]. by apply delete_bounded.
  - unfold begin_observation. case_match; [done|]. by apply fresh_epoch_bounded.
  - unfold begin_write. case_match; [done|]. pose proof (fresh_epoch_bounded now key s Hb) as Hf.
    apply with_entries_bounded; [done|]. by apply delete_bounded, Hf.
  - by apply record_miss_bounded.
  - unfold record_present. case_match; [done|]. apply with_entries_bounded; [done|]. by apply delete_bounded.
  - unfold confirm_present. case_match; [done|]. pose proof (fresh_epoch_bounded now key s Hb) as Hf.
    apply with_entries_bounded; [done|]. by apply delete_bounded, Hf.
  - unfold remove_present_in. case_match; [done|].
    generalize (map fst (List.filter (listed_before present listing) (map_to_list (ns_entries s)))).
    intros keys. clear He. revert s Hb. induction keys as [|k keys IH]; intros s Hb; [done|]. cbn. apply IH.
    apply fresh_epoch_bounded, with_entries_bounded; [done|]. apply delete_bounded, Hb.
Qed.
Lemma run_bounded ops s : bounded s -> bounded (run ops s).
Proof.
  revert s. induction ops as [|[now op] ops IH]; intros s Hs; [done|]. by apply IH, apply_op_bounded.
Qed.

(** Whatever is asked of it, the cache remembers at most [max_entries] misses
    and twice as many epochs, so a hostile or pathological client cannot grow it;
    with a capacity of zero it remembers nothing. *)
Theorem negative_cache_bounded ops :
  Z.of_nat (base.size (ns_entries (run ops negative_new))) <= max_entries
  /\ Z.of_nat (base.size (ns_epochs (run ops negative_new))) <= 2 * max_entries.
Proof.
  assert (bounded negative_new) as H0.
  { split; cbn; rewrite map_size_empty; [lia|]. unfold max_epochs, saturating_mul.
    pose proof usize_max_bound. unfold u32_max in *. lia. }
  destruct (run_bounded ops _ H0) as [He Hp]. split; [done|]. unfold max_epochs, saturating_mul in Hp. lia.
Qed.

(** ** Visibility of writes *)

(** Nothing at or before epoch [e] can say that [key] is missing. *)
Record visible (e : Z) (key : string) (s : NegativeState) : Prop := {
  vi_entry : ns_entries s !! key = None;
  vi_epoch : forall ke, ns_epochs s !! key = Some ke -> e < ke_epoch ke;
  vi_next : e <= ns_next_epoch s;
}.

Lemma advance_next s :
  0 <= ns_next_epoch s < u64_max -> ns_next_epoch (advance_epoch s) = ns_next_epoch s + 1.
Proof. intros Hs. cbn. unfold wrapping_succ. rewrite Z.mod_small by lia. lia. Qed.
Lemma fresh_entries now k s : ns_entries (fresh_epoch now k s) = ns_entries s.
Proof. unfold fresh_epoch, remember_epoch. by case_match. Qed.
Lemma fresh_next now k s :
  0 <= ns_next_epoch s < u64_max -> ns_next_epoch (fresh_epoch now k s) = ns_next_epoch s + 1.
Proof. intros Hs. rewrite <- (advance_next s Hs). unfold fresh_epoch, remember_epoch. by case_match. Qed.
Lemma fresh_visible e key now k s :
  0 <= ns_next_epoch s < u64_max -> visible e key s -> visible e key (fresh_epoch now k s).
Proof.
  intros Hs [He Hp Hn]. split; [by rewrite fresh_entries| |rewrite fresh_next by done; lia].
  unfold fresh_epoch, remember_epoch. case_match; [done|]. cbn [ns_epochs with_epochs]. intros ke.
  intros [[_ <-]|[_ Hk]]%lookup_insert_Some; [cbn [ke_epoch]; rewrite advance_next by done; lia|].
  apply Hp. revert Hk. case_match; [|done]. case_match; [|done]. by intros [_ ?]%lookup_delete_Some.
Qed.
(** A new epoch for [key] outdates everything known before. *)
Lemma fresh_outdates now key s :
  0 <= ns_next_epoch s < u64_max -> bounded s ->
  visible (ns_next_epoch s) key
    (with_entries (delete key (ns_entries (fresh_epoch now key s))) (fresh_epoch now key s)).
Proof.
  intros Hs [_ Hb]. split; cbn [ns_entries ns_epochs ns_next_epoch with_entries];
    [apply lookup_delete_eq| |rewrite fresh_next by done; lia].
  unfold fresh_epoch, remember_epoch. fold max_epochs. destruct (Z.eqb_spec max_epochs 0) as [Hz|].
  - intros ke Hke. rewrite Hz in Hb. assert (base.size (ns_epochs s) = 0%nat) as E%map_size_empty_inv by lia.
    cbn in Hke. by rewrite E in Hke.
  - cbn [ns_epochs with_epochs]. rewrite lookup_insert_eq. intros ke [= <-].
    pose proof (advance_next s Hs) as Ha. cbn in *. lia.
Qed.
Lemma drop_entry_visible e key k s : visible e key s -> visible e key (with_entries (delete k (ns_entries s)) s).
Proof. intros [He Hp Hn]. split; [|done|done]. cbn. by apply lookup_delete_None; right. Qed.
Lemma stale_token e key token s :
  visible e key s -> kt_key token = key -> kt_epoch token <= e -> token_current token s = false.
Proof.
  intros [_ Hp _] <- Ht. unfold token_current. destruct (ns_epochs s !! kt_key token) as [ke|] eqn:E; [|done].
  specialize (Hp ke eq_refl). lia.
Qed.

(** Removing listed keys takes one epoch each. *)
Lemma drop_keys_visible e key now keys s :
  visible e key s -> 0 <= ns_next_epoch s -> ns_next_epoch s + Z.of_nat (length keys) <= u64_max ->
  let s' := fold_left (fun s k => fresh_epoch now k (with_entries (delete k (ns_entries s)) s)) keys s in
  visible e key s' /\ ns_next_epoch s' = ns_next_epoch s + Z.of_nat (length keys).
Proof.
  cbv zeta. revert s. induction keys as [|k keys IH]; intros s Hv Hs Hr; cbn [fold_left length] in *; [split; [done|lia]|].
  set (s1 := with_entries (delete k (ns_entries s)) s).
  assert (ns_next_epoch s1 = ns_next_epoch s) as E by done.
  assert (ns_next_epoch (fresh_epoch now k s1) = ns_next_epoch s + 1) as E1 by (rewrite fresh_next, E by lia; lia).
  destruct (IH (fresh_epoch now k s1)) as [Hv' Hn']; [|lia|lia|].
  - apply fresh_visible; [lia|]. by apply drop_entry_visible.
  - split; [done|lia].
Qed.
Lemma length_listed present listing s :
  bounded s -> Z.of_nat (length (map fst (List.filter (listed_before present listing) (map_to_list (ns_entries s)))))
    <= max_entries.
Proof.
  intros [He _]. rewrite length_map.
  pose proof (List.filter_length_le (listed_before present listing) (map_to_list (ns_entries s))) as Hf.
  rewrite length_map_to_list in Hf. lia.
Qed.
Definition no_new_miss (e : Z) (key : string) (op : Op) : Prop :=
  forall token, op = OpMiss token -> kt_key token = key -> kt_epoch token <= e.
Lemma apply_op_visible e key now op s :
  bounded s -> visible e key s -> no_new_miss e key op -> 0 <= ns_next_epoch s ->
  ns_next_epoch s + (1 + max_entries) <= u64_max ->
  visible e key (apply_op now op s)
  /\ ns_next_epoch s <= ns_next_epoch (apply_op now op s) <= ns_next_epoch s + (1 + max_entries).
Proof.
  intros Hb Hv Hop Hs Hr. assert (0 <= ns_next_epoch s < u64_max) as Hs' by lia.
  destruct op as [k|k|k|token|token|k|present listing]; cbn [apply_op].
  - unfold check. repeat case_match; cbn [fst]; (split; [|cbn; lia]); try done; [by destruct Hv|by apply drop_entry_visible].
  - unfold begin_observation. case_match; cbn [fst]; [split; [done|lia]|]. rewrite fresh_next by done.
    split; [by apply fresh_visible|lia].
  - unfold begin_write. case_match; cbn [fst]; [split; [done|lia]|]. cbn [ns_next_epoch with_entries].
    rewrite fresh_next by done. split; [by apply drop_entry_visible, fresh_visible|lia].
  - unfold record_miss. destruct (token_current token s) eqn:Ht; cbn [negb fst]; [|split; [done|lia]].
    assert (kt_key token <> key) as Hne.
    { intros Hk. rewrite (stale_token e key token s Hv Hk) in Ht; [done|]. by apply Hop. }
    case_match; cbn [fst]; [split; [done|lia]|]. split; [|cbn; lia].
    destruct Hv as [He Hp Hn]. split; [|done|done]. cbn [ns_entries with_entries].
    rewrite lookup_insert_ne by done.
    assert (prune_entries now (ns_entries s) !! key = None) as Hpr by (apply map_lookup_filter_None; by left).
    case_match; [|done]. case_match; [|done]. by apply lookup_delete_None; right.
  - unfold record_present. case_match; cbn [fst]; (split; [|cbn; lia]); [done|by apply drop_entry_visible].
  - unfold confirm_present. case_match; cbn [fst]; [split; [done|lia]|]. cbn [ns_next_epoch with_entries].
    rewrite fresh_next by done. split; [by apply drop_entry_visible, fresh_visible|lia].
  - unfold remove_present_in. case_match; [split; [done|lia]|].
    pose proof (length_listed present listing s Hb).
    edestruct (drop_keys_visible e key now) as [Hv' Hn']; [done|done| |split; [exact Hv'|lia]]. lia.
Qed.
Lemma run_visible e key ops s :
  bounded s -> visible e key s -> Forall (fun op => no_new_miss e key op.2) ops -> 0 <= ns_next_epoch s ->
  ns_next_epoch s + Z.of_nat (length ops) * (1 + max_entries) <= u64_max -> visible e key (run ops s).
Proof.
  revert s. induction ops as [|[now op] ops IH]; intros s Hb Hv Hops Hs Hr; [done|].
  apply Forall_cons in Hops as [Hop Hops]. cbn [length] in Hr.
  destruct (apply_op_visible e key now op s Hb Hv Hop Hs) as [Hv' Hn']; [nia|].
  apply (IH (apply_op now op s)); [by apply apply_op_bounded|done|done|lia|nia].
Qed.
Lemma fresh_nonneg now k s : 0 <= ns_next_epoch (fresh_epoch now k s).
Proof. unfold fresh_epoch, remember_epoch. case_match; cbn; lia. Qed.
Lemma run_nonneg ops s : 0 <= ns_next_epoch s -> 0 <= ns_next_epoch (run ops s).
Proof.
  revert s. induction ops as [|[now op] ops IH]; intros s Hs; [done|]. apply (IH (apply_op now op s)).
  destruct op as [k|k|k|token|token|k|present listing]; cbn [apply_op].
  - unfold check. by repeat case_match.
  - unfold begin_observation. case_match; [done|]. apply fresh_nonneg.
  - unfold begin_write. case_match; [done|]. cbn. apply fresh_nonneg.
  - unfold record_miss. by repeat case_match.
  - unfold record_present. by case_match.
  - unfold confirm_present. case_match; [done|]. cbn. apply fresh_nonneg.
  - unfold remove_present_in. case_match; [done|].
    generalize (map fst (List.filter (listed_before present listing) (map_to_list (ns_entries s)))).
    intros keys. revert s Hs. induction keys as [|k keys IHk]; intros s Hs; [done|]. cbn. apply IHk, fresh_nonneg.
Qed.

(** C33. A started or completed upload is visible at once and stays so: after
    [begin_write] or [confirm_present] of a key, no sequence of operations makes
    the cache answer that the key is missing again, unless a new miss is recorded
    with a token taken after the write.  Observations that began before it are
    refused whenever they arrive, also after their epoch was evicted.  (Until the
    64-bit epoch counter runs out.) *)
Theorem upload_stays_visible ops0 ops key now write :
  let s0 := run ops0 negative_new in
  is_valid_cache_key key = true -> write = OpWrite key \/ write = OpConfirm key ->
  Forall (fun op => no_new_miss (ns_next_epoch s0) key op.2) ops ->
  ns_next_epoch s0 + (1 + Z.of_nat (length ops)) * (1 + max_entries) <= u64_max ->
  let s := run ops (apply_op now write s0) in
  (forall now', (check now' key s).2 = false)
  /\ (forall now' token, kt_key token = key -> kt_epoch token <= ns_next_epoch s0 ->
        record_miss now' token s = (s, false)).
Proof.
  cbv zeta. intros Hkey Hwrite Hops Hr. set (s0 := run ops0 negative_new) in *.
  assert (0 <= ns_next_epoch s0) as H0 by (by apply run_nonneg).
  assert (bounded s0) as Hb.
  { apply run_bounded. split; cbn; rewrite map_size_empty; [lia|]. unfold max_epochs, saturating_mul.
    pose proof usize_max_bound. unfold u32_max in *. lia. }
  assert (0 <= ns_next_epoch s0 < u64_max) as Hs0 by nia.
  assert (apply_op now write s0 = with_entries (delete key (ns_entries (fresh_epoch now key s0))) (fresh_epoch now key s0)) as Ew.
  { destruct Hwrite as [-> | ->]; cbn; unfold begin_write, confirm_present; by rewrite Hkey. }
  pose proof (fresh_outdates now key s0 Hs0 Hb) as Hv. rewrite <- Ew in Hv.
  apply (run_visible _ key ops) in Hv; [|by apply apply_op_bounded|done| |].
  - split.
    + intros now'. unfold check. rewrite (vi_entry _ _ _ Hv). by case_match.
    + intros now' token Hk Ht. unfold record_miss. by rewrite (stale_token _ _ _ _ Hv Hk Ht).
  - rewrite Ew. cbn. apply fresh_nonneg.
  - rewrite Ew. cbn. rewrite fresh_next by done. nia.
Qed.

(** ** Where a negative answer comes from *)

Lemma apply_op_entries now op s key e :
  ns_entries (apply_op now op s) !! key = Some e ->
  ns_entries s !! key = Some e
  \/ exists token, op = OpMiss token /\ kt_key token = key /\ ne_missed_at e = now.
Proof.
  destruct op as [k|k|k|token|token|k|present listing]; cbn [apply_op].
  - unfold check. repeat case_match; cbn; try by left. intros [_ ?]%lookup_delete_Some. by left.
  - unfold begin_observation. case_match; cbn [fst]; [by left|]. rewrite fresh_entries. by left.
  - unfold begin_write. case_match; cbn [fst]; [by left|]. cbn. rewrite fresh_entries.
    intros [_ ?]%lookup_delete_Some. by left.
  - unfold record_miss. repeat case_match; cbn [fst]; try (by left); cbn [ns_entries with_entries];
      intros [[<- <-]|[_ Hin]]%lookup_insert_Some; try (right; by exists token); left;
      try (apply lookup_delete_Some in Hin as [_ Hin]); by apply map_lookup_filter_Some in Hin as [Hin _].
  - unfold record_present. case_match; cbn; [by left|]. intros [_ ?]%lookup_delete_Some. by left.
  - unfold confirm_present. case_match; cbn [fst]; [by left|]. cbn. rewrite fresh_entries.
    intros [_ ?]%lookup_delete_Some. by left.
  - unfold remove_present_in. case_match; [by left|].
    generalize (map fst (List.filter (listed_before present listing) (map_to_list (ns_entries s)))).
    intros keys. revert s. induction keys as [|k keys IH]; intros s; cbn; [by left|]. intros Hin.
    destruct (IH _ Hin) as [Hs|?]; [|by right]. rewrite fresh_entries in Hs. cbn in Hs.
    apply lookup_delete_Some in Hs as [_ ?]. by left.
Qed.

(** The cache answers "missing" only on evidence: a definitive miss of that very
    key was recorded at most [ttl] ago.  Observations, writes, listings and lookups
    never create a negative answer. *)
Theorem negative_answer_was_recorded ops now key :
  (check now key (run ops negative_new)).2 = true ->
  exists t token, (t, OpMiss token) ∈ ops /\ kt_key token = key /\ now - t <= ttl.
Proof.
  assert (forall e, ns_entries (run ops negative_new) !! key = Some e ->
    exists token, (ne_missed_at e, OpMiss token) ∈ ops /\ kt_key token = key) as Hrec.
  { induction ops as [|[t op] ops IH] using rev_ind; intros e; [done|].
    unfold run. rewrite fold_left_app. cbn [fold_left fst snd]. intros Hin%apply_op_entries.
    destruct Hin as [Hin|(token & -> & Hk & ->)].
    - destruct (IH e Hin) as (token & ? & ?). exists token. split; [|done]. apply elem_of_app. by left.
    - exists token. split; [|done]. apply elem_of_app. right. by left. }
  unfold check. case_match; [done|]. destruct (ns_entries _ !! key) as [e|] eqn:E; [|done].
  unfold unexpired, saturating_sub. destruct (Z.leb_spec (Z.max 0 (now - ne_missed_at e)) ttl); [|done]. intros _.
  destruct (Hrec e eq_refl) as (token & Hin & Hk). exists (ne_missed_at e), token. split_and!; [done|done|lia].
Qed.
End Cache.

(** ** Witnesses *)

#[local] Instance demo_usize : Usize := usize64.
Definition demo_key : string := fmt_padded 64 7.
Definition demo_miss : list (Z * Op) :=
  [(10, OpObserve demo_key); (11, OpMiss {| kt_key := demo_key; kt_epoch := 1 |})].

Lemma negative_cache_bounded_witness :
  Z.of_nat (base.size (ns_entries (run 30 2 demo_miss negative_new))) <= 2.
Proof. refine (proj1 (negative_cache_bounded 30 2 _ demo_miss)). lia. Defined.
Lemma negative_answer_was_recorded_witness :
  exists t token, (t, OpMiss token) ∈ demo_miss /\ kt_key token = demo_key /\ 20 - t <= 30.
Proof. apply (negative_answer_was_recorded 30 2 demo_miss 20 demo_key). vm_compute. reflexivity. Defined.
(** The miss is forgotten when the upload starts, and the late token of the
    earlier observation cannot bring it back. *)
Lemma upload_stays_visible_witness :
  (check 30 20 demo_key (run 30 2 demo_miss negative_new)).2 = true
  /\ (check 30 22 demo_key (run 30 2 [(21, OpMiss {| kt_key := demo_key; kt_epoch := 1 |})]
        (apply_op 30 2 20 (OpWrite demo_key) (run 30 2 demo_miss negative_new)))).2 = false.
Proof.
  split; [vm_compute; reflexivity|].
  refine (proj1 (upload_stays_visible 30 2 _ demo_miss _ demo_key 20 (OpWrite demo_key) _ _ _ _) 22).
  - lia.
  - vm_compute. reflexivity.
  - left. reflexivity.
  - constructor; [|constructor]. intros token [= <-] _. vm_compute. discriminate.
  - vm_compute. discriminate.
Defined.
