(* ===== verification/Planner.v ===== *)
(** * Prefetch planning

    [crates/kache-core/src/lib.rs]: which remote entries a build should download
    ahead of demand.  A planner merges four sources of candidates in descending
    order of confidence and sorts the result for dispatch. *)

From S2P Require Import Prelude Strings.
#[local] Open Scope string_scope.
#[local] Open Scope Z_scope.

(** ** Data *)

Record BuildIntent := {
  bi_crate_names : list string;
  bi_namespace : option string;
  bi_cargo_lock_deps : list (string * string);
  bi_identity_key : option string;
  bi_lock_path : option string;
}.

Inductive CandidateSource := Manifest | Shard | History | KeyCache | UnknownSource.
#[export] Instance CandidateSource_eq_dec : EqDecision CandidateSource.
Proof. solve_decision. Defined.
(** [confidence_rank]: lower is better. *)
Definition confidence_rank (s : CandidateSource) : Z :=
  match s with Manifest => 0 | Shard => 1 | History => 2 | KeyCache => 3 | UnknownSource => 4 end.

Record PrefetchCandidate := {
  pc_cache_key : string;
  pc_crate_name : string;
  pc_compile_time_ms : option Z;
  pc_size_bytes : option Z;
  pc_source : CandidateSource;
  pc_demand_index : option Z;
}.
(** [PrefetchCandidate::new] *)
Definition candidate_new (cache_key crate_name : string) : PrefetchCandidate :=
  {| pc_cache_key := cache_key; pc_crate_name := crate_name; pc_compile_time_ms := None;
     pc_size_bytes := None; pc_source := UnknownSource; pc_demand_index := None |}.
Definition with_source (source : CandidateSource) (c : PrefetchCandidate) : PrefetchCandidate :=
  {| pc_cache_key := pc_cache_key c; pc_crate_name := pc_crate_name c;
     pc_compile_time_ms := pc_compile_time_ms c; pc_size_bytes := pc_size_bytes c;
     pc_source := source; pc_demand_index := pc_demand_index c |}.
Definition with_demand (demand : option Z) (c : PrefetchCandidate) : PrefetchCandidate :=
  {| pc_cache_key := pc_cache_key c; pc_crate_name := pc_crate_name c;
     pc_compile_time_ms := pc_compile_time_ms c; pc_size_bytes := pc_size_bytes c;
     pc_source := pc_source c; pc_demand_index := demand |}.

Inductive PrefetchDisposition := Execute | UseFallback | DoNothing.
Record PrefetchPlan := {
  pp_plan_id : option string;
  pp_planner : option string;
  pp_disposition : PrefetchDisposition;
  pp_candidates : list PrefetchCandidate;
}.

(** [PlanLimits]; [0] disables a cap. *)
Record PlanLimits := {
  key_cache_per_crate : Z;
  key_cache_total : Z;
  history_per_crate : Z;
}.
Definition default_limits : PlanLimits :=
  {| key_cache_per_crate := 2; key_cache_total := 64; history_per_crate := 2 |}.

Record PlanComposition := {
  from_identity : Z;
  from_shards : Z;
  from_history : Z;
  from_key_cache : Z;
  dropped_history_per_crate : Z;
  dropped_key_cache_per_crate : Z;
  dropped_key_cache_total : Z;
}.
Definition dropped_total (c : PlanComposition) : Z :=
  dropped_history_per_crate c + dropped_key_cache_per_crate c + dropped_key_cache_total c.

(** ** Dispatch order *)

Definition URGENCY_BUCKET : Z := 16.
(** [dispatch_sort_key] *)
Definition dispatch_sort_key (c : PrefetchCandidate) : Z * Z * option Z :=
  (from_option (fun index => index / URGENCY_BUCKET) u32_max (pc_demand_index c),
   confidence_rank (pc_source c), pc_compile_time_ms c).
(** [Ord] of [Reverse<Option<u64>>]: [None] is below every [Some], reversed. *)
Definition reverse_cost_leb (a b : option Z) : bool :=
  match a, b with
  | _, None => true
  | None, Some _ => false
  | Some a, Some b => b <=? a
  end.
(** [Ord] of the key tuple. *)
Definition dispatch_key_leb (a b : Z * Z * option Z) : bool :=
  match a.1.1 ?= b.1.1 with
  | Lt => true
  | Gt => false
  | Eq => match a.1.2 ?= b.1.2 with
          | Lt => true
          | Gt => false
          | Eq => reverse_cost_leb a.2 b.2
          end
  end.
Definition dispatch_leb (a b : PrefetchCandidate) : bool :=
  dispatch_key_leb (dispatch_sort_key a) (dispatch_sort_key b).
(** [sort_candidates_for_dispatch] *)
Definition sort_candidates_for_dispatch (l : list PrefetchCandidate) : list PrefetchCandidate :=
  sort_by dispatch_leb l.

(** [cap_to]: what is kept, and how many were dropped. *)
Definition cap_to {A} (items : list A) (limit : Z) : list A * Z :=
  let len := Z.of_nat (length items) in
  if (limit =? 0) || (len <=? limit) then (items, 0)
  else (take (Z.to_nat limit) items, len - limit).

(** ** Crate order *)

(** The filter of [crate_query_order], with the names [seen] so far. *)
Fixpoint first_seen (seen : gset string) (names : list string) : list string :=
  match names with
  | [] => []
  | n :: names =>
      if bool_decide (n ∈ seen) then first_seen seen names
      else n :: first_seen ({[n]} ∪ seen) names
  end.
Definition crate_query_order (intent : BuildIntent) : list string :=
  first_seen ∅ (bi_crate_names intent).
(** [demand_index_map]; [index as u32] keeps the low 32 bits. *)
Definition demand_index_map (crate_order : list string) : gmap string Z :=
  fold_left (fun m p => <[p.2 := Z.of_nat p.1 mod (u32_max + 1)]> m)
    (imap pair crate_order) ∅.

Section Order.
Context `{Usize}.
(** [order_candidates_by_crate_order] *)
Definition priority_map (intent : BuildIntent) : gmap string Z :=
  fold_left (fun m p => if m !! p.2 is Some _ then m else <[p.2 := Z.of_nat p.1]> m)
    (imap pair (crate_query_order intent)) ∅.
Definition ordered_leb (priority : gmap string Z) (a b : nat * PrefetchCandidate) : bool :=
  let rank p := default usize_max (priority !! pc_crate_name p) in
  match rank a.2 ?= rank b.2 with
  | Lt => true
  | Gt => false
  | Eq => (a.1 <=? b.1)%nat
  end.
Definition order_candidates_by_crate_order (l : list PrefetchCandidate) (intent : BuildIntent)
    : list PrefetchCandidate :=
  if bool_decide (bi_crate_names intent = []) then l
  else map snd (sort_by (ordered_leb (priority_map intent)) (imap pair l)).
End Order.

(** ** The sources *)

(** [trait PlannerDataSource]: each query is asked at most once per argument in
    one plan, so an answer is a function of its arguments. *)
Class PlannerDataSource (E : Type) := {
  shard_candidates : string -> list (string * string) -> result E (list PrefetchCandidate);
  history_candidates : list string -> result E (list PrefetchCandidate);
  key_cache_keys_for_crate : string -> result E (list string);
  identity_candidates : string -> result E (list PrefetchCandidate);
}.

(** ** Composition *)

Section Plan.
Context `{Usize} {E : Type} `{PlannerDataSource E}.

(** The locals of [build_prefetch_plan_with_limits]. *)
Record Merge := {
  mg_seen : gset string;
  mg_resolved : gset string;
  mg_candidates : list PrefetchCandidate;
  mg_composition : PlanComposition;
}.
Definition with_composition (f : PlanComposition -> PlanComposition) (m : Merge) : Merge :=
  {| mg_seen := mg_seen m; mg_resolved := mg_resolved m; mg_candidates := mg_candidates m;
     mg_composition := f (mg_composition m) |}.
Definition resolve (name : string) (m : Merge) : Merge :=
  {| mg_seen := mg_seen m; mg_resolved := {[name]} ∪ mg_resolved m;
     mg_candidates := mg_candidates m; mg_composition := mg_composition m |}.
(** [if seen.insert(key) { .. push }]; [count] is what the branch counts. *)
Definition offer (count : PlanComposition -> PlanComposition) (c : PrefetchCandidate) (m : Merge)
    : Merge :=
  if bool_decide (pc_cache_key c ∈ mg_seen m) then m
  else {| mg_seen := {[pc_cache_key c]} ∪ mg_seen m; mg_resolved := mg_resolved m;
          mg_candidates := (mg_candidates m ++ [c])%list;
          mg_composition := count (mg_composition m) |}.

Definition bump_from_shards (n : Z) (c : PlanComposition) : PlanComposition :=
  {| from_identity := from_identity c; from_shards := from_shards c + n;
     from_history := from_history c; from_key_cache := from_key_cache c;
     dropped_history_per_crate := dropped_history_per_crate c;
     dropped_key_cache_per_crate := dropped_key_cache_per_crate c;
     dropped_key_cache_total := dropped_key_cache_total c |}.
Definition bump_history (n dropped : Z) (c : PlanComposition) : PlanComposition :=
  {| from_identity := from_identity c; from_shards := from_shards c;
     from_history := from_history c + n; from_key_cache := from_key_cache c;
     dropped_history_per_crate := dropped_history_per_crate c + dropped;
     dropped_key_cache_per_crate := dropped_key_cache_per_crate c;
     dropped_key_cache_total := dropped_key_cache_total c |}.
Definition bump_key_cache (n dropped_crate dropped_all : Z) (c : PlanComposition) : PlanComposition :=
  {| from_identity := from_identity c; from_shards := from_shards c;
     from_history := from_history c; from_key_cache := from_key_cache c + n;
     dropped_history_per_crate := dropped_history_per_crate c;
     dropped_key_cache_per_crate := dropped_key_cache_per_crate c + dropped_crate;
     dropped_key_cache_total := dropped_key_cache_total c + dropped_all |}.
Definition set_from_identity (n : Z) (c : PlanComposition) : PlanComposition :=
  {| from_identity := n; from_shards := from_shards c; from_history := from_history c;
     from_key_cache := from_key_cache c;
     dropped_history_per_crate := dropped_history_per_crate c;
     dropped_key_cache_per_crate := dropped_key_cache_per_crate c;
     dropped_key_cache_total := dropped_key_cache_total c |}.

Definition merge_start : Merge :=
  {| mg_seen := ∅; mg_resolved := ∅; mg_candidates := [];
     mg_composition := {| from_identity := 0; from_shards := 0; from_history := 0;
       from_key_cache := 0; dropped_history_per_crate := 0; dropped_key_cache_per_crate := 0;
       dropped_key_cache_total := 0 |} |}.

(** The recorded actions of this lockfile, target and profile. *)
Definition identity_step (m : Merge) (p : nat * PrefetchCandidate) : Merge :=
  let '(index, c) := p in
  let m := resolve (pc_crate_name c) m in
  let demand := match pc_demand_index c with
                | Some d => Some d
                | None => if Z.of_nat index <=? u32_max then Some (Z.of_nat index) else None
                end in
  offer id (with_demand demand (with_source Manifest c)) m.
Definition merge_identity (intent : BuildIntent) (m : Merge) : Merge :=
  match trim <$> bi_identity_key intent with
  | None | Some "" => m
  | Some identity_key =>
      match identity_candidates identity_key with
      | Err _ => m
      | Ok l =>
          let m := fold_left identity_step (imap pair l) m in
          with_composition (set_from_identity (Z.of_nat (length (mg_candidates m)))) m
      end
  end.

(** The lockfile's shards, for the crates no recorded action names. *)
Definition shard_step (identity_resolved : gset string) (m : Merge) (c : PrefetchCandidate) : Merge :=
  if bool_decide (pc_crate_name c ∈ identity_resolved) then m
  else offer (bump_from_shards 1) (with_source Shard c) (resolve (pc_crate_name c) m).
Definition merge_shards (intent : BuildIntent) (m : Merge) : Merge :=
  match bi_namespace intent, bi_cargo_lock_deps intent with
  | Some namespace, (_ :: _) as deps =>
      match shard_candidates namespace deps with
      | Err _ => m
      | Ok l => fold_left (shard_step (mg_resolved m)) (order_candidates_by_crate_order l intent) m
      end
  | _, _ => m
  end.

Definition unresolved (crate_order : list string) (m : Merge) : list string :=
  List.filter (fun name => negb (bool_decide (name ∈ mg_resolved m))) crate_order.

(** What this machine built before: [by_crate] groups the answers. *)
Definition group_by_crate (l : list PrefetchCandidate) : gmap string (list PrefetchCandidate) :=
  fold_left (fun by_crate c =>
      <[pc_crate_name c := (default [] (by_crate !! pc_crate_name c) ++ [with_source History c])%list]> by_crate)
    l ∅.
Definition history_take (limits : PlanLimits)
    (acc : gmap string (list PrefetchCandidate) * Merge) (crate_name : string)
    : gmap string (list PrefetchCandidate) * Merge :=
  let '(by_crate, m) := acc in
  match by_crate !! crate_name with
  | None => (by_crate, m)
  | Some for_crate =>
      let '(for_crate, dropped) := cap_to for_crate (history_per_crate limits) in
      (delete crate_name by_crate,
       fold_left (fun m c => offer (bump_history 1 0) c (resolve (pc_crate_name c) m)) for_crate
         (with_composition (bump_history 0 dropped) m))
  end.
Definition merge_history (limits : PlanLimits) (intent : BuildIntent) (m : Merge) : result E Merge :=
  match unresolved (crate_query_order intent) m with
  | [] => Ok m
  | history_query =>
      l ← history_candidates history_query;
      Ok (fold_left (history_take limits) history_query
            (group_by_crate (order_candidates_by_crate_order l intent), m)).2
  end.

(** Keys of the remote listing that carry the crate's name. *)
Definition key_cache_full (limits : PlanLimits) (m : Merge) : bool :=
  (0 <? key_cache_total limits) && (key_cache_total limits <=? from_key_cache (mg_composition m)).
Definition key_cache_offer (limits : PlanLimits) (m : Merge) (c : PrefetchCandidate) : Merge :=
  if key_cache_full limits m then with_composition (bump_key_cache 0 0 1) m
  else offer (bump_key_cache 1 0 0) c m.
Definition key_cache_step (limits : PlanLimits) (m : Merge) (crate_name : string) : result E Merge :=
  keys ← key_cache_keys_for_crate crate_name;
  if key_cache_full limits m then
    Ok (with_composition (bump_key_cache 0 0
          (Z.of_nat (length (List.filter (fun key => negb (bool_decide (key ∈ mg_seen m))) keys)))) m)
  else
    let '(for_crate, dropped) :=
      cap_to (map (fun key => with_source KeyCache (candidate_new key crate_name)) keys)
             (key_cache_per_crate limits) in
    Ok (fold_left (key_cache_offer limits) for_crate
          (with_composition (bump_key_cache 0 dropped 0) m)).
Definition merge_key_cache (limits : PlanLimits) (intent : BuildIntent) (m : Merge) : result E Merge :=
  try_fold (key_cache_step limits) m (unresolved (crate_query_order intent) m).

(** The demand stamp of the candidates that carry none. *)
Definition stamp_demand (demand_index : gmap string Z) (c : PrefetchCandidate) : PrefetchCandidate :=
  match pc_demand_index c with
  | Some _ => c
  | None => with_demand (demand_index !! pc_crate_name c) c
  end.
(** [execute_plan] *)
Definition execute_plan (planner_name : string) (l : list PrefetchCandidate) : PrefetchPlan :=
  let planner := trim planner_name in
  {| pp_plan_id := None; pp_planner := Some (if String.eqb planner "" then "planner" else planner);
     pp_disposition := Execute; pp_candidates := l |}.
(** [build_prefetch_plan_with_limits] *)
Definition merge_sources (limits : PlanLimits) (intent : BuildIntent) : result E Merge :=
  let m := merge_shards intent (merge_identity intent merge_start) in
  m ← merge_history limits intent m;
  merge_key_cache limits intent m.
Definition build_prefetch_plan_with_limits (intent : BuildIntent) (planner_name : string)
    (limits : PlanLimits) : result E (PrefetchPlan * PlanComposition) :=
  m ← merge_sources limits intent;
  let stamped := map (stamp_demand (demand_index_map (crate_query_order intent))) (mg_candidates m) in
  Ok (execute_plan planner_name (sort_candidates_for_dispatch stamped), mg_composition m).
(** [build_prefetch_plan] *)
Definition build_prefetch_plan (intent : BuildIntent) (planner_name : string) : result E PrefetchPlan :=
  fst <$> build_prefetch_plan_with_limits intent planner_name default_limits.
End Plan.
