(* ===== verification/PlannerProofs.v ===== *)
(** * Prefetch planning: dispatch order and composition

    The dispatch order realises its three priorities and is stable; a plan holds
    every key once, takes each crate from one source only, the most confident one
    that knows it, and respects its caps.  A concrete build closes the file. *)

From S2P Require Import Prelude Strings Planner.
#[local] Open Scope string_scope.
#[local] Open Scope Z_scope.

(** ** The dispatch order *)

(** The three priorities: urgency, confidence, rebuild cost. *)
Definition bucket (i : Z) : Z := i / URGENCY_BUCKET.
Definition costlier (a b : option Z) : Prop :=
  match a, b with
  | Some x, Some y => y < x
  | Some _, None => True
  | None, _ => False
  end.
Definition better_value (a b : PrefetchCandidate) : Prop :=
  confidence_rank (pc_source a) < confidence_rank (pc_source b)
  \/ pc_source a = pc_source b /\ costlier (pc_compile_time_ms a) (pc_compile_time_ms b).
Definition preferred (a b : PrefetchCandidate) : Prop :=
  match pc_demand_index a, pc_demand_index b with
  | Some i, Some j => bucket i < bucket j \/ bucket i = bucket j /\ better_value a b
  | Some _, None => True
  | None, Some _ => False
  | None, None => better_value a b
  end.
(** [demand_index] is a [u32]. *)
Definition demand_typed (c : PrefetchCandidate) : Prop :=
  forall i, pc_demand_index c = Some i -> 0 <= i <= u32_max.

Lemma confidence_rank_inj a b : confidence_rank a = confidence_rank b -> a = b.
Proof. by destruct a, b. Qed.
Lemma reverse_cost_leb_costlier a b : reverse_cost_leb b a = false <-> costlier a b.
Proof. destruct a, b; cbn; rewrite ?Z.leb_gt; split; done || lia. Qed.
Lemma dispatch_key_total a b : dispatch_key_leb a b = true \/ dispatch_key_leb b a = true.
Proof.
  unfold dispatch_key_leb. rewrite (Z.compare_antisym a.1.1), (Z.compare_antisym a.1.2).
  destruct (a.1.1 ?= b.1.1), (a.1.2 ?= b.1.2); cbn; auto.
  destruct a.2, b.2; cbn; auto. destruct (Z.le_ge_cases z z0); [right|left]; lia.
Qed.
Lemma dispatch_key_trans a b c :
  dispatch_key_leb a b = true -> dispatch_key_leb b c = true -> dispatch_key_leb a c = true.
Proof.
  unfold dispatch_key_leb. destruct a as [[x1 x2] x3], b as [[y1 y2] y3], c as [[z1 z2] z3]; cbn.
  destruct (Z.compare_spec x1 y1), (Z.compare_spec y1 z1), (Z.compare_spec x1 z1); try done; try lia.
  destruct (Z.compare_spec x2 y2), (Z.compare_spec y2 z2), (Z.compare_spec x2 z2); try done; try lia.
  destruct x3, y3, z3; cbn; try done. lia.
Qed.
Lemma preferred_strict a b :
  demand_typed a -> demand_typed b -> preferred a b -> dispatch_leb b a = false.
Proof.
  unfold demand_typed, preferred, better_value, bucket, dispatch_leb, dispatch_key_leb, dispatch_sort_key, u32_max, URGENCY_BUCKET.
  destruct (pc_demand_index a) as [i|], (pc_demand_index b) as [j|]; cbn; intros Ha Hb; try done.
  all: try specialize (Ha _ eq_refl); try specialize (Hb _ eq_refl).
  - destruct (Z.compare_spec (j / 16) (i / 16)); intros Hp; try done; [|destruct Hp as [|[? _]]; lia].
    destruct (Z.compare_spec (confidence_rank (pc_source b)) (confidence_rank (pc_source a))) as [E| |]; try done; try lia.
    + apply reverse_cost_leb_costlier. destruct Hp as [|(_ & [|[_ ?]])]; [lia|lia|done].
    + destruct Hp as [|(_ & [|[Es _]])]; [lia|lia|rewrite Es in *; lia].
  - intros _. assert (i / 16 < 2 ^ 32 - 1) by (apply Z.div_lt_upper_bound; lia).
    destruct (Z.compare_spec (2 ^ 32 - 1) (i / 16)); [lia|lia|done].
  - intros Hp. rewrite Z.compare_refl.
    destruct (Z.compare_spec (confidence_rank (pc_source b)) (confidence_rank (pc_source a))) as [E| |]; try done.
    + apply reverse_cost_leb_costlier. destruct Hp as [|[_ ?]]; [lia|done].
    + destruct Hp as [|[Es _]]; [lia|rewrite Es in *; lia].
Qed.

(** The dispatch order realises its documented priorities: a candidate whose
    demand is known goes before one whose demand is not; then the earlier urgency
    bucket, then the more confident source, then the higher rebuild cost, with an
    unknown cost last.  Nothing is lost, and candidates with equal keys keep the
    order they were merged in. *)
Theorem dispatch_order l :
  Forall demand_typed l ->
  let d := sort_candidates_for_dispatch l in
  d ≡ₚ l
  /\ (forall i j a b, d !! i = Some a -> d !! j = Some b -> preferred a b -> (i < j)%nat)
  /\ (forall key, List.filter (fun c => bool_decide (dispatch_sort_key c = key)) d
                  = List.filter (fun c => bool_decide (dispatch_sort_key c = key)) l).
Proof.
  intros Ht d. split_and!.
  - apply sort_by_perm.
  - intros i j a b Hi Hj Hp. destruct (decide (i < j)%nat) as [|Hge]; [done|exfalso].
    assert (Forall demand_typed d) as Hd by (by apply Forall_sort_by).
    rewrite Forall_forall in Hd.
    assert (dispatch_leb b a = false) as Hf by (apply preferred_strict; eauto using list_elem_of_lookup_2).
    enough (dispatch_leb b a = true) by congruence.
    destruct (decide (i = j)) as [->|].
    { simplify_eq. unfold dispatch_leb. by destruct (dispatch_key_total (dispatch_sort_key a) (dispatch_sort_key a)). }
    assert (StronglySorted (fun x y => dispatch_leb x y = true) d) as Hs.
    { apply Sorted_StronglySorted; [|apply sort_by_sorted; intros; apply dispatch_key_total].
      intros x y z. apply dispatch_key_trans. }
    apply (StronglySorted_lookup_lt (fun x y => dispatch_leb x y = true) d j i b a); auto. lia.
  - intros key. apply sort_by_stable. intros x y Hx Hy. bool_to_prop. unfold dispatch_leb. rewrite Hx, Hy.
    by destruct (dispatch_key_total key key).
Qed.

(** ** Composition: one phase per source *)

Definition keys (l : list PrefetchCandidate) : list string := map pc_cache_key l.
Definition tally (p : PrefetchCandidate -> bool) (l : list PrefetchCandidate) : Z :=
  Z.of_nat (length (List.filter p l)).
Definition is_source (X : CandidateSource) (c : PrefetchCandidate) : bool := bool_decide (pc_source c = X).
Definition of_crate (X : CandidateSource) (n : string) (c : PrefetchCandidate) : bool :=
  bool_decide (pc_source c = X /\ pc_crate_name c = n).
(** The counter of a source. *)
Definition from (X : CandidateSource) (c : PlanComposition) : Z :=
  match X with
  | Manifest => from_identity c | Shard => from_shards c | History => from_history c
  | KeyCache => from_key_cache c | UnknownSource => 0
  end.

Lemma tally_app p l1 l2 : tally p (l1 ++ l2) = tally p l1 + tally p l2.
Proof. unfold tally. rewrite List.filter_app, length_app. lia. Qed.
Lemma tally_one p c : tally p [c] = if p c then 1 else 0.
Proof. unfold tally. cbn. by destruct (p c). Qed.
Lemma tally_perm p l1 l2 : l1 ≡ₚ l2 -> tally p l1 = tally p l2.
Proof. intros Hp. unfold tally. f_equal. by apply Permutation_length, Permutation_filter_bool. Qed.
Lemma tally_map (p : PrefetchCandidate -> bool) f l : (forall c, p (f c) = p c) -> tally p (map f l) = tally p l.
Proof.
  intros Hf. unfold tally. f_equal. induction l as [|c l IH]; simpl; [done|].
  rewrite Hf. destruct (p c); simpl; by rewrite IH.
Qed.
Lemma tally_none p l : (forall c, c ∈ l -> p c = false) -> tally p l = 0.
Proof. intros Hp. unfold tally. induction l as [|c l IH]; simpl; [done|]. rewrite Hp by set_solver. apply IH. set_solver. Qed.
Lemma tally_all p l : (forall c, c ∈ l -> p c = true) -> tally p l = Z.of_nat (length l).
Proof. intros Hp. unfold tally. induction l as [|c l IH]; simpl; [done|]. rewrite Hp by set_solver. simpl.
  rewrite !Nat2Z.inj_succ, IH; [done|set_solver]. Qed.

Section Composition.
Context `{Usize} {E : Type} `{PlannerDataSource E}.

(** While source [X] is merged: [R] are the crates resolved before. *)
Record phase (X : CandidateSource) (R : gset string) (m : Merge) : Prop := {
  ph_seen : forall k, k ∈ mg_seen m <-> k ∈ keys (mg_candidates m);
  ph_nodup : NoDup (keys (mg_candidates m));
  ph_rank : forall c, c ∈ mg_candidates m -> confidence_rank (pc_source c) <= confidence_rank X;
  ph_old : forall c, c ∈ mg_candidates m -> pc_source c <> X -> pc_crate_name c ∈ R;
  ph_new : forall c, c ∈ mg_candidates m -> pc_source c = X -> pc_crate_name c ∉ R;
  ph_one : forall c1 c2, c1 ∈ mg_candidates m -> c2 ∈ mg_candidates m ->
    pc_crate_name c1 = pc_crate_name c2 -> pc_source c1 = pc_source c2;
  ph_counts : forall Y, (X = Manifest -> Y <> Manifest) ->
    from Y (mg_composition m) = tally (is_source Y) (mg_candidates m);
}.
(** Every candidate's crate counts as resolved. *)
Definition covered (m : Merge) : Prop :=
  forall c, c ∈ mg_candidates m -> pc_crate_name c ∈ mg_resolved m.
(** [count] counts one candidate of [X]; recorded actions are counted later. *)
Definition counts_one (X : CandidateSource) (count : PlanComposition -> PlanComposition) : Prop :=
  forall comp Y, (X = Manifest -> Y <> Manifest) ->
    from Y (count comp) = from Y comp + (if bool_decide (Y = X) then 1 else 0).

Lemma offer_phase X R m count c :
  phase X R m -> pc_source c = X -> X <> UnknownSource -> pc_crate_name c ∉ R -> counts_one X count ->
  phase X R (offer count c m).
Proof.
  intros Hm Hs Hx Hc Hn. unfold offer. case_bool_decide as Hin; [done|]. destruct Hm as [S1 S2 S3 S4 S5 S6 S7].
  rewrite S1 in Hin. split; cbn.
  - intros k. unfold keys. rewrite map_app, elem_of_union, elem_of_app, S1. set_solver.
  - unfold keys. rewrite map_app. by apply NoDup_snoc.
  - set_solver by lia.
  - set_solver.
  - set_solver.
  - intros c1 c2. rewrite !elem_of_app, !list_elem_of_singleton. intros H1 H2 E12.
    assert (forall d, d ∈ mg_candidates m -> pc_crate_name d = pc_crate_name c -> pc_source d = X) as Hd.
    { intros d Hd Ed. destruct (decide (pc_source d = X)); [done|]. exfalso. apply Hc. rewrite <- Ed. auto. }
    destruct H1 as [H1| ->], H2 as [H2| ->]; [auto|rewrite Hs; auto|rewrite Hs; symmetry; auto|done].
  - intros Y HY. rewrite Hn, S7, tally_app by done. f_equal. rewrite tally_one. unfold is_source.
    rewrite Hs. repeat case_bool_decide; subst; done.
Qed.
Lemma phase_same X R m m' :
  mg_seen m' = mg_seen m -> mg_candidates m' = mg_candidates m ->
  (forall Y, from Y (mg_composition m') = from Y (mg_composition m)) -> phase X R m -> phase X R m'.
Proof. intros E1 E2 E3 []. split; rewrite ?E1, ?E2; auto. intros Y HY. rewrite E3. auto. Qed.
Lemma offer_covered count c m : covered m -> pc_crate_name c ∈ mg_resolved m -> covered (offer count c m).
Proof. intros Hm Hc. unfold offer. case_bool_decide; [done|]. intros d. cbn. set_solver. Qed.
Lemma next_phase X Y m R :
  phase X R m -> covered m -> confidence_rank X < confidence_rank Y ->
  from_identity (mg_composition m) = tally (is_source Manifest) (mg_candidates m) ->
  phase Y (mg_resolved m) m.
Proof.
  intros [S1 S2 S3 S4 S5 S6 S7] Hc Hr Hi.
  assert (forall c, c ∈ mg_candidates m -> pc_source c <> Y) as Hy
    by (intros c Hin <-; specialize (S3 c Hin); lia).
  split; auto.
  - intros c Hin. specialize (S3 c Hin). lia.
  - intros c Hin Es. by apply Hy in Hin.
  - intros Z _. destruct (decide (Z = Manifest)) as [->|]; [done|by apply S7].
Qed.

(** *** Recorded actions *)

Lemma identity_fold l m :
  phase Manifest ∅ m -> covered m -> (forall c, c ∈ mg_candidates m -> pc_source c = Manifest) ->
  let m' := fold_left identity_step l m in
  phase Manifest ∅ m' /\ covered m' /\ (forall c, c ∈ mg_candidates m' -> pc_source c = Manifest).
Proof.
  intros H1 H2 H3. cbv zeta.
  apply (fold_left_inv _ (fun m => phase Manifest ∅ m /\ covered m
    /\ (forall c, c ∈ mg_candidates m -> pc_source c = Manifest))); [done|].
  clear. intros m [i c] _ (Hp & Hc & Hs). unfold identity_step. split_and!.
  - apply offer_phase; [by apply (phase_same _ _ m)|done|done|set_solver|].
    intros comp Y HY. cbn. case_bool_decide; [naive_solver|lia].
  - apply offer_covered; [intros d; cbn; set_solver|cbn; set_solver].
  - intros d. unfold offer. cbn. case_bool_decide; cbn; [auto|]. set_solver.
Qed.
Lemma merge_start_phase : phase Manifest ∅ merge_start.
Proof. split; cbn; try set_solver; try constructor. intros [] ?; done. Qed.
(** What the recorded actions answered. *)
Definition identity_answer (intent : BuildIntent) : list PrefetchCandidate :=
  match trim <$> bi_identity_key intent with
  | None | Some "" => []
  | Some key => default [] (ok (identity_candidates key))
  end.
Lemma merge_identity_fold intent :
  let m := fold_left identity_step (imap pair (identity_answer intent)) merge_start in
  merge_identity intent merge_start
  = with_composition (set_from_identity (Z.of_nat (length (mg_candidates m)))) m.
Proof.
  unfold merge_identity, identity_answer. destruct (trim <$> bi_identity_key intent) as [[|c k]|]; [done| |done].
  by destruct (identity_candidates (String c k)).
Qed.
Lemma merge_identity_phase intent :
  let m := merge_identity intent merge_start in phase Shard (mg_resolved m) m /\ covered m.
Proof.
  cbv zeta. rewrite merge_identity_fold.
  destruct (identity_fold (imap pair (identity_answer intent)) merge_start) as (Hp & Hc & Hs);
    [apply merge_start_phase|set_solver|set_solver|].
  set (m := fold_left identity_step _ _) in *. split; [|done]. apply (next_phase Manifest _ _ ∅); [|done|done|].
  - destruct Hp as [S1 S2 S3 S4 S5 S6 S7]. split; auto. intros Y HY. cbn [with_composition mg_composition mg_candidates].
    rewrite <- S7 by done. destruct Y; naive_solver.
  - cbn. rewrite tally_all; [done|]. intros c Hin. unfold is_source. by rewrite (Hs c Hin), bool_decide_eq_true.
Qed.
Lemma offer_offered count c m : pc_cache_key c ∈ mg_seen (offer count c m).
Proof. unfold offer. case_bool_decide; cbn; set_solver. Qed.
Lemma offer_keeps count c m k : k ∈ mg_seen m -> k ∈ mg_seen (offer count c m).
Proof. unfold offer. case_bool_decide; cbn; set_solver. Qed.
Lemma offer_resolved count c m : mg_resolved (offer count c m) = mg_resolved m.
Proof. unfold offer. by case_bool_decide. Qed.
Definition named (l : list PrefetchCandidate) (n : string) : Prop := exists c, c ∈ l /\ pc_crate_name c = n.
Lemma identity_resolved intent n :
  n ∈ mg_resolved (merge_identity intent merge_start) <-> named (identity_answer intent) n.
Proof.
  rewrite merge_identity_fold. cbn. split.
  - apply (fold_left_inv identity_step (fun m => n ∈ mg_resolved m -> named (identity_answer intent) n)); [set_solver|].
    intros m [i c] Hin%elem_of_imap_pair IH. unfold identity_step. rewrite offer_resolved. cbn.
    intros [->%elem_of_singleton|]%elem_of_union; [by exists c|auto].
  - intros (c & Hc & <-). rewrite <- (map_snd_imap (identity_answer intent)) in Hc.
    apply list_elem_of_fmap in Hc as (p & -> & Hp).
    apply (fold_left_reach identity_step (fun p m => pc_crate_name p.2 ∈ mg_resolved m)); [..|done];
      intros m [i c]; unfold identity_step; intros; rewrite offer_resolved; cbn; set_solver.
Qed.
Lemma identity_seen intent c :
  c ∈ identity_answer intent -> pc_cache_key c ∈ mg_seen (merge_identity intent merge_start).
Proof.
  rewrite merge_identity_fold. cbn. intros Hc. rewrite <- (map_snd_imap (identity_answer intent)) in Hc.
  apply list_elem_of_fmap in Hc as (p & -> & Hp).
  apply (fold_left_reach identity_step (fun p m => pc_cache_key p.2 ∈ mg_seen m)); [..|done].
  - intros m [i a] b Hb. apply offer_keeps. done.
  - intros m [i a]. apply (offer_offered id (with_demand _ (with_source Manifest a))).
Qed.

(** *** Shards *)

Definition shard_answer (intent : BuildIntent) : list PrefetchCandidate :=
  match bi_namespace intent, bi_cargo_lock_deps intent with
  | Some namespace, (_ :: _) as deps => default [] (ok (shard_candidates namespace deps))
  | _, _ => []
  end.
Lemma order_perm l intent : order_candidates_by_crate_order l intent ≡ₚ l.
Proof.
  unfold order_candidates_by_crate_order. case_bool_decide; [done|].
  rewrite <- (map_snd_imap l) at 2. by rewrite (sort_by_perm _ (imap pair l)).
Qed.
Lemma merge_shards_fold intent m :
  merge_shards intent m
  = fold_left (shard_step (mg_resolved m)) (order_candidates_by_crate_order (shard_answer intent) intent) m.
Proof.
  assert (order_candidates_by_crate_order [] intent = []) as E0.
  { apply Permutation_nil. symmetry. apply order_perm. }
  unfold merge_shards, shard_answer. destruct (bi_namespace intent), (bi_cargo_lock_deps intent); try by rewrite E0.
  destruct (shard_candidates _ _); [done|]. cbn. by rewrite E0.
Qed.
Lemma shard_counts : counts_one Shard (bump_from_shards 1).
Proof. intros comp Y _. by destruct Y; case_bool_decide; cbn; rewrite ?Z.add_0_r. Qed.
Lemma merge_shards_phase intent m :
  phase Shard (mg_resolved m) m -> covered m ->
  let m' := merge_shards intent m in phase History (mg_resolved m') m' /\ covered m'.
Proof.
  intros Hp Hc. cbv zeta. rewrite merge_shards_fold. set (R := mg_resolved m) in *. clearbody R.
  assert (phase Shard R (fold_left (shard_step R) (order_candidates_by_crate_order (shard_answer intent) intent) m)
    /\ covered (fold_left (shard_step R) (order_candidates_by_crate_order (shard_answer intent) intent) m)) as [Hp' Hc'].
  { apply (fold_left_inv _ (fun m => phase Shard R m /\ covered m)); [done|]. clear.
    intros m c _ [Hp Hc]. unfold shard_step. case_bool_decide; [done|]. split.
    - apply offer_phase; [by apply (phase_same _ _ m)|done|done|done|apply shard_counts].
    - apply offer_covered; [intros d; cbn; set_solver|cbn; set_solver]. }
  split; [|done]. apply (next_phase Shard _ _ R); [done..|]. by apply (ph_counts _ _ _ Hp' Manifest).
Qed.
Lemma shards_resolved intent m n :
  n ∈ mg_resolved (merge_shards intent m) <-> n ∈ mg_resolved m \/ named (shard_answer intent) n.
Proof.
  rewrite merge_shards_fold. set (R := mg_resolved m). split.
  - apply (fold_left_inv _ (fun m => n ∈ mg_resolved m -> n ∈ R \/ named (shard_answer intent) n)); [auto|].
    intros m1 c Hin IH. rewrite order_perm in Hin. unfold shard_step. case_bool_decide; [done|].
    rewrite offer_resolved. cbn. intros [->%elem_of_singleton|]%elem_of_union; [right; by exists c|auto].
  - assert (forall m1 c k, k ∈ mg_resolved m1 -> k ∈ mg_resolved (shard_step R m1 c)) as Hmono.
    { intros m1 c k Hk. unfold shard_step. case_bool_decide; [done|]. rewrite offer_resolved. cbn. set_solver. }
    assert (R ⊆ mg_resolved (fold_left (shard_step R) (order_candidates_by_crate_order (shard_answer intent) intent) m)) as HR.
    { apply (fold_left_inv _ (fun m1 => R ⊆ mg_resolved m1)); [done|]. intros m1 c _ Hs k Hk. apply Hmono, Hs, Hk. }
    intros [Hn|(c & Hc & <-)]; [by apply HR|]. destruct (decide (pc_crate_name c ∈ R)); [by apply HR|].
    apply (fold_left_reach _ (fun c m1 => pc_crate_name c ∉ R -> pc_crate_name c ∈ mg_resolved m1)); [..|by rewrite order_perm|done].
    + auto.
    + intros m1 a Ha. unfold shard_step. rewrite bool_decide_eq_false_2 by done. rewrite offer_resolved. cbn. set_solver.
Qed.
Lemma shard_step_keeps R m c k : k ∈ mg_seen m -> k ∈ mg_seen (shard_step R m c).
Proof. intros Hk. unfold shard_step. case_bool_decide; [done|]. by apply offer_keeps. Qed.
Lemma shards_seen intent m k : k ∈ mg_seen m -> k ∈ mg_seen (merge_shards intent m).
Proof. intros Hk. rewrite merge_shards_fold. apply (fold_left_inv _ (fun m => k ∈ mg_seen m)); auto using shard_step_keeps. Qed.
Lemma shards_offered intent m c :
  c ∈ shard_answer intent -> pc_crate_name c ∉ mg_resolved m ->
  pc_cache_key c ∈ mg_seen (merge_shards intent m).
Proof.
  intros Hc. rewrite merge_shards_fold. set (R := mg_resolved m).
  apply (fold_left_reach _ (fun c m1 => pc_crate_name c ∉ R -> pc_cache_key c ∈ mg_seen m1)); [..|by rewrite order_perm].
  - intros m1 a b Hb Hn. by apply shard_step_keeps, Hb.
  - intros m1 a Ha. unfold shard_step. rewrite bool_decide_eq_false_2 by done.
    apply (offer_offered _ (with_source Shard a)).
Qed.

(** *** History *)

Definition history_answer (intent : BuildIntent) (m : Merge) : list PrefetchCandidate :=
  default [] (ok (history_candidates (unresolved (crate_query_order intent) m))).
Definition crate_is (n : string) (c : PrefetchCandidate) : bool := bool_decide (pc_crate_name c = n).
Lemma lookup_group l n :
  default [] (group_by_crate l !! n) = map (with_source History) (List.filter (crate_is n) l).
Proof.
  unfold group_by_crate. induction l as [|c l IH] using rev_ind; [done|].
  rewrite fold_left_app, List.filter_app, map_app, <- IH. cbn. unfold crate_is at 1.
  destruct (decide (pc_crate_name c = n)) as [<-|Hn].
  - rewrite lookup_insert_eq, bool_decide_eq_true_2 by done. done.
  - rewrite lookup_insert_ne, bool_decide_eq_false_2 by done. cbn. by rewrite app_nil_r.
Qed.
Lemma group_elem l n for_crate c :
  group_by_crate l !! n = Some for_crate -> c ∈ for_crate -> pc_source c = History /\ pc_crate_name c = n.
Proof.
  intros Hl Hc. pose proof (lookup_group l n) as E1. rewrite Hl in E1. cbn in E1. subst for_crate.
  apply list_elem_of_fmap in Hc as (d & -> & Hd%list_elem_of_In%filter_In). cbn. split; [done|].
  unfold crate_is in Hd. destruct Hd as [_ Hd]. by bool_to_prop.
Qed.
Lemma cap_to_prefix {A} (l : list A) limit : exists rest, l = ((cap_to l limit).1 ++ rest)%list.
Proof.
  unfold cap_to. destruct (_ || _); cbn; [exists []; by rewrite app_nil_r|].
  exists (drop (Z.to_nat limit) l). by rewrite take_drop.
Qed.
Lemma cap_to_nil {A} limit (x : A) : x ∉ (cap_to [] limit).1.
Proof.
  destruct (cap_to_prefix (@nil A) limit) as [rest Hr]. symmetry in Hr. apply app_nil in Hr as [-> _].
  apply not_elem_of_nil.
Qed.
Lemma cap_to_length {A} (l : list A) limit : 0 < limit -> Z.of_nat (length (cap_to l limit).1) <= limit.
Proof.
  intros Hl. unfold cap_to. destruct (_ || _) eqn:E1; cbn; [lia|]. rewrite length_take. lia.
Qed.

Definition history_add (m : Merge) (c : PrefetchCandidate) : Merge :=
  offer (bump_history 1 0) c (resolve (pc_crate_name c) m).
Lemma history_counts : counts_one History (bump_history 1 0).
Proof. intros comp Y _. by destruct Y; case_bool_decide; cbn; rewrite ?Z.add_0_r. Qed.
Lemma history_add_phase R m c :
  phase History R m -> covered m -> pc_source c = History -> pc_crate_name c ∉ R ->
  phase History R (history_add m c) /\ covered (history_add m c).
Proof.
  intros Hp Hc Hs Hn. split.
  - apply offer_phase; [by apply (phase_same _ _ m)|done|done|done|apply history_counts].
  - apply offer_covered; [intros d; cbn; set_solver|cbn; set_solver].
Qed.
Lemma tally_offer p count c m :
  tally p (mg_candidates (offer count c m)) <= tally p (mg_candidates m) + (if p c then 1 else 0).
Proof.
  unfold offer. case_bool_decide; cbn; [destruct (p c); lia|]. rewrite tally_app, tally_one. destruct (p c); lia.
Qed.
Lemma fold_tally f p l m :
  (forall m c, tally p (mg_candidates (f m c)) <= tally p (mg_candidates m) + (if p c then 1 else 0)) ->
  tally p (mg_candidates (fold_left f l m)) <= tally p (mg_candidates m) + tally p l.
Proof.
  intros Hf. revert m. induction l as [|c l IH]; intros m; [unfold tally; cbn; lia|]. cbn [fold_left].
  etrans; [apply IH|]. specialize (Hf m c). change (c :: l) with ([c] ++ l)%list. rewrite tally_app, tally_one. lia.
Qed.
(** A list of one crate's candidates counts for that crate only. *)
Lemma tally_crate X n k l :
  (forall c, c ∈ l -> pc_crate_name c = n) ->
  tally (of_crate X k) l <= if bool_decide (n = k) then Z.of_nat (length l) else 0.
Proof.
  intros Hl. case_bool_decide as Hn.
  - unfold tally. pose proof (filter_length_le (of_crate X k) l). lia.
  - rewrite tally_none; [done|]. intros c Hc. apply bool_decide_eq_false. intros [_ <-]. by rewrite (Hl c Hc) in Hn.
Qed.
Lemma bump_same_phase X R m f :
  (forall comp Y, from Y (f comp) = from Y comp) -> phase X R m -> phase X R (with_composition f m).
Proof. intros Hf Hp. apply (phase_same _ _ m); [done|done|intros Y; apply Hf|done]. Qed.

Lemma history_take_phase limits R l by_crate m n :
  (forall k for_crate, by_crate !! k = Some for_crate -> group_by_crate l !! k = Some for_crate) ->
  phase History R m -> covered m -> n ∉ R ->
  let r := history_take limits (by_crate, m) n in
  (forall k for_crate, r.1 !! k = Some for_crate -> group_by_crate l !! k = Some for_crate)
  /\ phase History R r.2 /\ covered r.2.
Proof.
  intros Hg Hp Hc Hn. unfold history_take. destruct (by_crate !! n) as [for_crate|] eqn:El; [|done].
  destruct (cap_to_prefix for_crate (history_per_crate limits)) as [rest Hpre].
  destruct (cap_to for_crate (history_per_crate limits)) as [kept dropped]. cbn in *. split.
  { intros k fc Hk. apply Hg. by apply lookup_delete_Some in Hk as [_ Hk]. }
  apply (fold_left_inv history_add (fun m => phase History R m /\ covered m)).
  - split; [|done]. apply bump_same_phase; [|done]. intros comp []; cbn; lia.
  - intros m1 c Hin [? ?]. destruct (group_elem l n for_crate c) as [? <-]; [auto|subst; set_solver|].
    by apply history_add_phase.
Qed.
Lemma history_fold_phase limits R l names by_crate m :
  (forall k for_crate, by_crate !! k = Some for_crate -> group_by_crate l !! k = Some for_crate) ->
  phase History R m -> covered m -> (forall n, n ∈ names -> n ∉ R) ->
  let r := fold_left (history_take limits) names (by_crate, m) in phase History R r.2 /\ covered r.2.
Proof.
  intros Hg Hp Hc Hn. cbv zeta. eapply proj2.
  apply (fold_left_inv (history_take limits) (fun r =>
    (forall k for_crate, r.1 !! k = Some for_crate -> group_by_crate l !! k = Some for_crate)
    /\ phase History R r.2 /\ covered r.2)); [done|].
  intros [bc m1] n Hin (? & ? & ?). apply history_take_phase; auto.
Qed.
(** One crate's turn adds at most its cap, and to that crate only. *)
Lemma history_take_tally limits l by_crate m n k :
  (forall j for_crate, by_crate !! j = Some for_crate -> group_by_crate l !! j = Some for_crate) ->
  0 < history_per_crate limits ->
  tally (of_crate History k) (mg_candidates (history_take limits (by_crate, m) n).2)
  <= tally (of_crate History k) (mg_candidates m)
     + (if bool_decide (n = k) then history_per_crate limits else 0).
Proof.
  intros Hg Hl. unfold history_take. destruct (by_crate !! n) as [for_crate|] eqn:El; [|case_bool_decide; cbn; lia].
  destruct (cap_to_prefix for_crate (history_per_crate limits)) as [rest Hpre].
  pose proof (cap_to_length for_crate (history_per_crate limits) Hl) as Hlen.
  destruct (cap_to for_crate (history_per_crate limits)) as [kept dropped]. cbn in *.
  assert (forall c, c ∈ kept -> pc_crate_name c = n) as Hk.
  { intros c Hc. apply (group_elem l n for_crate c); [auto|subst; set_solver]. }
  etrans; [apply (fold_tally history_add); intros m1 c; apply (tally_offer _ _ c (resolve (pc_crate_name c) m1))|]. cbn.
  pose proof (tally_crate History n k kept Hk). case_bool_decide; lia.
Qed.
Lemma history_fold_tally limits l names by_crate m :
  (forall j for_crate, by_crate !! j = Some for_crate -> group_by_crate l !! j = Some for_crate) ->
  0 < history_per_crate limits -> NoDup names ->
  (forall k, k ∈ names -> tally (of_crate History k) (mg_candidates m) = 0) ->
  (forall k, tally (of_crate History k) (mg_candidates m) <= history_per_crate limits) ->
  forall k, tally (of_crate History k)
    (mg_candidates (fold_left (history_take limits) names (by_crate, m)).2) <= history_per_crate limits.
Proof.
  intros Hg Hl Hnd. revert by_crate m Hg. induction Hnd as [|n names Hn _ IH]; intros by_crate m Hg Hz Hle; [done|].
  cbn [fold_left].
  pose proof (fun k => history_take_tally limits l by_crate m n k Hg Hl) as Ht.
  assert (forall j fc, (history_take limits (by_crate, m) n).1 !! j = Some fc -> group_by_crate l !! j = Some fc) as Hg'.
  { intros j fc. unfold history_take. destruct (by_crate !! n); [|apply Hg]. destruct (cap_to _ _). cbn.
    intros [_ Hj]%lookup_delete_Some. auto. }
  destruct (history_take limits (by_crate, m) n) as [bc' m'] eqn:Er. cbn in *. apply IH; [done| |].
  - intros k Hk. specialize (Ht k). rewrite bool_decide_eq_false_2 in Ht by (intros ->; done).
    rewrite Hz in Ht by set_solver. unfold tally in *. lia.
  - intros k. specialize (Ht k). specialize (Hle k). case_bool_decide; [|lia]. subst k.
    rewrite Hz in Ht by set_solver. lia.
Qed.
Lemma history_take_keeps limits r n k : k ∈ mg_seen r.2 -> k ∈ mg_seen (history_take limits r n).2.
Proof.
  destruct r as [bc m]. intros Hk. unfold history_take. destruct (bc !! n); [|done]. destruct (cap_to _ _). cbn.
  apply (fold_left_inv history_add (fun m => k ∈ mg_seen m)); [done|]. intros. by apply offer_keeps.
Qed.
Lemma history_fold_offers limits names by_crate m n c :
  NoDup names -> n ∈ names ->
  c ∈ (cap_to (default [] (by_crate !! n)) (history_per_crate limits)).1 ->
  pc_cache_key c ∈ mg_seen (fold_left (history_take limits) names (by_crate, m)).2.
Proof.
  intros Hnd. revert by_crate m. induction Hnd as [|a names Ha _ IH]; intros by_crate m Hn Hc; [set_solver|].
  cbn [fold_left]. destruct (decide (n = a)) as [->|Hne].
  - apply (fold_left_inv _ (fun r => pc_cache_key c ∈ mg_seen r.2)); [|intros; by apply history_take_keeps].
    unfold history_take. destruct (by_crate !! a) as [fc|]; [|by apply cap_to_nil in Hc]. cbn in Hc.
    destruct (cap_to fc _) as [kept d]. cbn in *.
    apply (fold_left_reach history_add (fun c m => pc_cache_key c ∈ mg_seen m)); [..|done].
    + intros. by apply offer_keeps.
    + intros. apply offer_offered.
  - apply elem_of_cons in Hn as [->|Hn]; [done|].
    destruct (history_take limits (by_crate, m) a) as [bc' m'] eqn:Er. apply IH; [done|].
    assert (bc' !! n = by_crate !! n) as ->; [|done]. unfold history_take in Er.
    destruct (by_crate !! a) as [fc|]; [|congruence]. destruct (cap_to fc (history_per_crate limits)).
    injection Er as <- _. by rewrite lookup_delete_ne.
Qed.
Lemma elem_of_first_seen seen l x : x ∈ first_seen seen l <-> x ∈ l /\ x ∉ seen.
Proof.
  revert seen. induction l as [|n l IH]; intros seen; cbn; [set_solver|].
  case_bool_decide; rewrite ?elem_of_cons, IH; [set_solver|].
  rewrite not_elem_of_union, not_elem_of_singleton. destruct (decide (x = n)) as [->|]; naive_solver.
Qed.
Lemma first_seen_NoDup seen l : NoDup (first_seen seen l).
Proof.
  revert seen. induction l as [|n l IH]; intros seen; cbn; [constructor|]. case_bool_decide; [done|].
  constructor; [|done]. rewrite elem_of_first_seen. set_solver.
Qed.
Lemma elem_of_unresolved intent m n :
  n ∈ unresolved (crate_query_order intent) m <-> n ∈ bi_crate_names intent /\ n ∉ mg_resolved m.
Proof.
  unfold unresolved. rewrite list_elem_of_In, filter_In, <- list_elem_of_In. unfold crate_query_order.
  rewrite elem_of_first_seen, negb_true_iff, bool_decide_eq_false. set_solver.
Qed.
Lemma unresolved_NoDup intent m : NoDup (unresolved (crate_query_order intent) m).
Proof. apply NoDup_ListNoDup, List.NoDup_filter, NoDup_ListNoDup, first_seen_NoDup. Qed.

Lemma ordered_leb_total priority x y : ordered_leb priority x y = true \/ ordered_leb priority y x = true.
Proof.
  unfold ordered_leb. rewrite (Z.compare_antisym (default usize_max (priority !! pc_crate_name x.2))).
  destruct (_ ?= _); cbn; auto. rewrite !Nat.leb_le. lia.
Qed.
Lemma ordered_leb_trans priority x y z :
  ordered_leb priority x y = true -> ordered_leb priority y z = true -> ordered_leb priority x z = true.
Proof.
  unfold ordered_leb.
  generalize (default usize_max (priority !! pc_crate_name x.2)), (default usize_max (priority !! pc_crate_name y.2)),
    (default usize_max (priority !! pc_crate_name z.2)). intros a b c.
  destruct (Z.compare_spec a b), (Z.compare_spec b c), (Z.compare_spec a c); try done; try lia.
  rewrite !Nat.leb_le. lia.
Qed.
(** Reordering by crate keeps the answers for one crate in their order. *)
Lemma order_keeps_crate l intent n :
  List.filter (crate_is n) (order_candidates_by_crate_order l intent) = List.filter (crate_is n) l.
Proof.
  unfold order_candidates_by_crate_order. case_bool_decide; [done|].
  rewrite <- (map_snd_imap l) at 2. rewrite !filter_map_snd. f_equal.
  set (leb := ordered_leb (priority_map intent)). set (p := fun x : nat * PrefetchCandidate => crate_is n x.2).
  assert (forall x, x ∈ List.filter p (sort_by leb (imap pair l)) <-> x ∈ List.filter p (imap pair l)) as Hmem.
  { intros x. rewrite !list_elem_of_In, !filter_In, <- !list_elem_of_In. by rewrite elem_of_sort_by. }
  assert (forall x, x ∈ List.filter p (imap pair l) -> l !! x.1 = Some x.2 /\ pc_crate_name x.2 = n) as Hp.
  { intros x [Hin Hx]%list_elem_of_In%filter_In. apply list_elem_of_In, elem_of_lookup_imap_1 in Hin as (i & y & -> & Hy).
    unfold p, crate_is in Hx. by bool_to_prop. }
  apply (StronglySorted_unique_strong (fun x y => leb x y = true)).
  - intros x y [Hx Hnx]%Hmem%Hp [Hy Hny]%Hp. unfold leb, ordered_leb. rewrite Hnx, Hny, Z.compare_refl, !Nat.leb_le.
    destruct x as [i a], y as [j b]; cbn in *. intros. assert (i = j) as -> by lia. congruence.
  - apply StronglySorted_filter, Sorted_StronglySorted.
    + intros x y z. apply ordered_leb_trans.
    + apply sort_by_sorted, ordered_leb_total.
  - eapply StronglySorted_weaken; [apply StronglySorted_filter, imap_pair_sorted|].
    intros x y [_ Hx]%Hp [_ Hy]%Hp Hlt. unfold leb, ordered_leb. rewrite Hx, Hy, Z.compare_refl. apply Nat.leb_le. lia.
  - apply Permutation_filter_bool, sort_by_perm.
Qed.
Lemma history_total_zero R m k : phase History R m -> k ∉ mg_resolved m -> covered m ->
  tally (of_crate History k) (mg_candidates m) = 0.
Proof.
  intros Hp Hk Hc. apply tally_none. intros c Hin. unfold of_crate. apply bool_decide_eq_false.
  intros [_ <-]. by apply Hk, Hc.
Qed.
Lemma history_none_yet m k : phase History (mg_resolved m) m -> covered m ->
  tally (of_crate History k) (mg_candidates m) = 0.
Proof.
  intros Hp Hc. apply tally_none. intros c Hin. unfold of_crate. apply bool_decide_eq_false.
  intros [Es _]. apply (ph_new _ _ _ Hp c Hin Es). by apply Hc.
Qed.
Lemma merge_history_fold limits intent m m' :
  merge_history limits intent m = Ok m' ->
  let query := unresolved (crate_query_order intent) m in
  m' = (fold_left (history_take limits) query
          (group_by_crate (order_candidates_by_crate_order (history_answer intent m) intent), m)).2.
Proof.
  unfold merge_history, history_answer. destruct (unresolved (crate_query_order intent) m) as [|n q]; [by intros [= <-]|].
  intros (l & Hl & [= <-])%bind_Ok. by rewrite Hl.
Qed.
Lemma merge_history_phase limits intent m m' :
  phase History (mg_resolved m) m -> covered m -> merge_history limits intent m = Ok m' ->
  phase KeyCache (mg_resolved m') m' /\ covered m'
  /\ (0 < history_per_crate limits ->
      forall k, tally (of_crate History k) (mg_candidates m') <= history_per_crate limits).
Proof.
  intros Hp Hc ->%merge_history_fold.
  set (g := group_by_crate _). set (q := unresolved _ m).
  destruct (history_fold_phase limits (mg_resolved m) (order_candidates_by_crate_order (history_answer intent m) intent) q g m) as [Hp' Hc'];
    [done|done|done|by intros n [_ Hn]%elem_of_unresolved|].
  split_and!; [|done|].
  - apply (next_phase History _ _ (mg_resolved m)); [done..|]. by apply (ph_counts _ _ _ Hp' Manifest).
  - intros Hl. eapply history_fold_tally; [done|done|apply unresolved_NoDup|..].
    + intros k _. by apply history_none_yet.
    + intros k. rewrite history_none_yet by done. lia.
Qed.
Lemma history_seen limits intent m m' k :
  merge_history limits intent m = Ok m' -> k ∈ mg_seen m -> k ∈ mg_seen m'.
Proof.
  intros ->%merge_history_fold Hk. apply (fold_left_inv _ (fun r => k ∈ mg_seen r.2)); [done|].
  intros. by apply history_take_keeps.
Qed.
Lemma cap_to_map {A B} (f : A -> B) l limit : (cap_to (map f l) limit).1 = map f (cap_to l limit).1.
Proof. unfold cap_to. rewrite length_map. destruct (_ || _); cbn; [done|]. symmetry. apply (fmap_take f). Qed.
Lemma history_offered limits intent m m' n c :
  merge_history limits intent m = Ok m' -> n ∈ bi_crate_names intent -> n ∉ mg_resolved m ->
  c ∈ (cap_to (List.filter (crate_is n) (history_answer intent m)) (history_per_crate limits)).1 ->
  pc_cache_key c ∈ mg_seen m'.
Proof.
  intros ->%merge_history_fold Hn Hr Hc. change (pc_cache_key c) with (pc_cache_key (with_source History c)).
  apply (history_fold_offers limits _ _ _ n); [apply unresolved_NoDup|by apply elem_of_unresolved|].
  rewrite lookup_group, order_keeps_crate, cap_to_map. by apply list_elem_of_fmap_2.
Qed.

(** *** The key cache *)

Lemma key_cache_counts : counts_one KeyCache (bump_key_cache 1 0 0).
Proof. intros comp Y _. by destruct Y; case_bool_decide; cbn; rewrite ?Z.add_0_r. Qed.
(** What holds while the key cache is merged. *)
Record guessing (limits : PlanLimits) (R : gset string) (m : Merge) : Prop := {
  gs_phase : phase KeyCache R m;
  gs_total : 0 < key_cache_total limits -> from_key_cache (mg_composition m) <= key_cache_total limits;
}.
Lemma key_cache_offer_guessing limits R m c :
  guessing limits R m -> pc_source c = KeyCache -> pc_crate_name c ∉ R ->
  guessing limits R (key_cache_offer limits m c).
Proof.
  intros [Hp Ht] Hs Hn. unfold key_cache_offer, key_cache_full. destruct (_ && _) eqn:Ef.
  - split; [|cbn; intros; lia]. apply bump_same_phase; [|done]. intros comp []; cbn; lia.
  - split; [by apply offer_phase; auto using key_cache_counts|]. intros H1. specialize (Ht H1).
    unfold offer. case_bool_decide; cbn; lia.
Qed.
Lemma key_cache_step_ok limits m n m' :
  key_cache_step limits m n = Ok m' ->
  exists kept f, (forall comp Y, from Y (f comp) = from Y comp)
    /\ (forall c, c ∈ kept -> pc_source c = KeyCache /\ pc_crate_name c = n)
    /\ (0 < key_cache_per_crate limits -> Z.of_nat (length kept) <= key_cache_per_crate limits)
    /\ m' = fold_left (key_cache_offer limits) kept (with_composition f m).
Proof.
  unfold key_cache_step. intros (keys & _ & Hm)%bind_Ok. destruct (key_cache_full limits m).
  { injection Hm as <-. exists [], (bump_key_cache 0 0 (Z.of_nat (length (List.filter (fun key => negb (bool_decide (key ∈ mg_seen m))) keys)))).
    split_and!; [intros comp []; cbn; lia|set_solver|cbn; lia|done]. }
  set (offers := map _ keys) in Hm.
  destruct (cap_to_prefix offers (key_cache_per_crate limits)) as [rest Hpre].
  pose proof (cap_to_length offers (key_cache_per_crate limits)) as Hlen.
  destruct (cap_to offers (key_cache_per_crate limits)) as [kept dropped]. injection Hm as <-. cbn in *.
  exists kept, (bump_key_cache 0 dropped 0). split_and!; [intros comp []; cbn; lia| |done|done].
  intros c Hc. assert (c ∈ offers) as (key & -> & _)%list_elem_of_fmap by (rewrite Hpre; set_solver). done.
Qed.
Lemma key_cache_offer_tally limits p m c :
  tally p (mg_candidates (key_cache_offer limits m c))
  <= tally p (mg_candidates m) + (if p c then 1 else 0).
Proof.
  unfold key_cache_offer. destruct (key_cache_full limits m); [cbn; destruct (p c); lia|]. apply tally_offer.
Qed.
Lemma key_cache_step_guessing limits R m n m' :
  guessing limits R m -> n ∉ R -> key_cache_step limits m n = Ok m' -> guessing limits R m'.
Proof.
  intros [Hp Ht] Hn (kept & f & Hf & Hk & _ & ->)%key_cache_step_ok.
  apply (fold_left_inv _ (guessing limits R)).
  - split; [by apply bump_same_phase|]. cbn. intros. etrans; [|by apply Ht]. by rewrite (Hf _ KeyCache).
  - intros m1 c [Hs Hc]%Hk Hg. apply key_cache_offer_guessing; [done|done|by rewrite Hc].
Qed.
Lemma key_cache_step_tally limits m n m' k X :
  key_cache_step limits m n = Ok m' -> 0 < key_cache_per_crate limits ->
  tally (of_crate X k) (mg_candidates m') <= tally (of_crate X k) (mg_candidates m)
    + (if bool_decide (n = k) then key_cache_per_crate limits else 0).
Proof.
  intros (kept & f & Hf & Hk & Hlen & ->)%key_cache_step_ok Hl. specialize (Hlen Hl).
  etrans; [apply (fold_tally (key_cache_offer limits)); apply key_cache_offer_tally|]. cbn.
  pose proof (tally_crate X n k kept (fun c Hc => proj2 (Hk c Hc))). case_bool_decide; lia.
Qed.
Lemma key_cache_fold limits R names m m' :
  guessing limits R m -> (forall n, n ∈ names -> n ∉ R) ->
  try_fold (key_cache_step limits) m names = Ok m' -> guessing limits R m'.
Proof.
  intros Hg Hn. revert m Hg. induction names as [|n names IH]; intros m Hg; cbn; [by intros [= <-]|].
  intros (m1 & H1 & H2)%bind_Ok. eapply IH; [set_solver| |done].
  eapply key_cache_step_guessing; [done| |done]. set_solver.
Qed.
Lemma key_cache_fold_tally limits names m m' k :
  NoDup names -> 0 < key_cache_per_crate limits ->
  (forall n, tally (of_crate KeyCache n) (mg_candidates m) <= if bool_decide (n ∈ names) then 0 else key_cache_per_crate limits) ->
  try_fold (key_cache_step limits) m names = Ok m' ->
  tally (of_crate KeyCache k) (mg_candidates m') <= key_cache_per_crate limits.
Proof.
  intros Hnd Hl. revert m. induction Hnd as [|n names Hn _ IH]; intros m Hz; cbn.
  { intros [= <-]. specialize (Hz k). case_bool_decide; lia. }
  intros (m1 & H1 & H2)%bind_Ok. eapply IH; [|done]. intros j. specialize (Hz j).
  pose proof (key_cache_step_tally limits m n m1 j KeyCache H1 Hl).
  repeat case_bool_decide; subst; set_solver by lia.
Qed.
Lemma key_cache_step_keeps limits m n m' k :
  key_cache_step limits m n = Ok m' -> k ∈ mg_seen m -> k ∈ mg_seen m'.
Proof.
  intros (kept & f & _ & _ & _ & ->)%key_cache_step_ok Hk. apply (fold_left_inv _ (fun m => k ∈ mg_seen m)); [done|].
  intros m1 c _ Hk1. unfold key_cache_offer. destruct (key_cache_full limits m1); [done|]. by apply offer_keeps.
Qed.
Lemma key_cache_seen limits intent m m' k :
  merge_key_cache limits intent m = Ok m' -> k ∈ mg_seen m -> k ∈ mg_seen m'.
Proof.
  unfold merge_key_cache. generalize (unresolved (crate_query_order intent) m). intros names. revert m.
  induction names as [|n names IH]; intros m; cbn; [by intros [= <-]|].
  intros (m1 & H1 & H2)%bind_Ok Hk. eapply IH; [done|]. by eapply key_cache_step_keeps.
Qed.
Lemma key_cache_fold_history limits names m m' k :
  try_fold (key_cache_step limits) m names = Ok m' ->
  tally (of_crate History k) (mg_candidates m') <= tally (of_crate History k) (mg_candidates m).
Proof.
  revert m. induction names as [|n names IH]; intros m; cbn; [by intros [= <-]|].
  intros (m1 & (kept & f & _ & Hk & _ & ->)%key_cache_step_ok & H2)%bind_Ok. etrans; [by apply (IH _ H2)|].
  etrans; [apply (fold_tally (key_cache_offer limits)); apply key_cache_offer_tally|]. cbn.
  rewrite (tally_none _ kept); [lia|]. intros c [Hs _]%Hk. apply bool_decide_eq_false. rewrite Hs. by intros [? _].
Qed.

(** *** The whole plan *)

Lemma merge_before_history intent :
  let m := merge_shards intent (merge_identity intent merge_start) in
  phase History (mg_resolved m) m /\ covered m.
Proof. destruct (merge_identity_phase intent). by apply merge_shards_phase. Qed.
Lemma merge_sources_phase limits intent m :
  merge_sources limits intent = Ok m ->
  (exists R, phase KeyCache R m)
  /\ (0 < key_cache_total limits -> from_key_cache (mg_composition m) <= key_cache_total limits)
  /\ (0 < key_cache_per_crate limits ->
      forall k, tally (of_crate KeyCache k) (mg_candidates m) <= key_cache_per_crate limits)
  /\ (0 < history_per_crate limits ->
      forall k, tally (of_crate History k) (mg_candidates m) <= history_per_crate limits).
Proof.
  unfold merge_sources. intros (m1 & H1 & H2)%bind_Ok. destruct (merge_before_history intent) as [Hp Hc].
  destruct (merge_history_phase _ _ _ _ Hp Hc H1) as (Hp1 & Hc1 & Hh1). clear Hp Hc H1.
  assert (forall c, c ∈ mg_candidates m1 -> pc_source c <> KeyCache) as Hno.
  { intros c Hin Es. apply (ph_new _ _ _ Hp1 c Hin Es). by apply Hc1. }
  assert (guessing limits (mg_resolved m1) m) as [Hp2 Ht2].
  { eapply key_cache_fold; [|by intros n [_ Hn]%elem_of_unresolved|exact H2]. split; [done|].
    change (from_key_cache (mg_composition m1)) with (from KeyCache (mg_composition m1)).
    rewrite (ph_counts _ _ _ Hp1 KeyCache) by done. rewrite tally_none; [lia|].
    intros c Hin. apply bool_decide_eq_false. by apply Hno. }
  split_and!; [by eexists|done|..].
  - intros Hl k. eapply key_cache_fold_tally; [apply unresolved_NoDup|done| |exact H2].
    intros n. rewrite tally_none; [case_bool_decide; lia|]. intros c Hin. apply bool_decide_eq_false.
    intros [Es _]. by apply (Hno c).
  - intros Hl k. etrans; [by eapply key_cache_fold_history|]. by apply Hh1.
Qed.
Lemma stamp_keeps demand c :
  pc_cache_key (stamp_demand demand c) = pc_cache_key c
  /\ pc_crate_name (stamp_demand demand c) = pc_crate_name c
  /\ pc_source (stamp_demand demand c) = pc_source c.
Proof. unfold stamp_demand. by destruct (pc_demand_index c). Qed.
Lemma plan_ok intent planner limits plan comp :
  build_prefetch_plan_with_limits intent planner limits = Ok (plan, comp) ->
  exists m, merge_sources limits intent = Ok m /\ comp = mg_composition m
    /\ keys (pp_candidates plan) ≡ₚ keys (mg_candidates m)
    /\ (forall c, c ∈ pp_candidates plan -> exists c', c' ∈ mg_candidates m
          /\ pc_crate_name c = pc_crate_name c' /\ pc_source c = pc_source c')
    /\ (forall X, tally (is_source X) (pp_candidates plan) = tally (is_source X) (mg_candidates m))
    /\ (forall X n, tally (of_crate X n) (pp_candidates plan) = tally (of_crate X n) (mg_candidates m)).
Proof.
  unfold build_prefetch_plan_with_limits. intros (m & Hm & [= <- <-])%bind_Ok. exists m. cbn.
  set (demand := demand_index_map _). clearbody demand. unfold sort_candidates_for_dispatch.
  set (cs := map (stamp_demand demand) (mg_candidates m)).
  pose proof (sort_by_perm dispatch_leb cs) as Hp.
  split_and!; [done|done|..].
  - unfold keys. rewrite Hp. unfold cs. rewrite map_map. apply Permutation_refl'. apply map_ext. intros c. apply stamp_keeps.
  - intros c. rewrite Hp. intros (c' & -> & Hc')%list_elem_of_fmap. exists c'. split; [done|]. split; apply stamp_keeps.
  - intros X. rewrite (tally_perm _ _ _ Hp). apply tally_map. intros c. unfold is_source.
    destruct (stamp_keeps demand c) as (_ & _ & ->). done.
  - intros X n. rewrite (tally_perm _ _ _ Hp). apply tally_map. intros c. unfold of_crate.
    destruct (stamp_keeps demand c) as (_ & -> & ->). done.
Qed.

(** C17. A plan lists every cache key once, takes all candidates of one crate from
    one source, and its composition counts exactly what each source contributed. *)
Theorem plan_composition_exact intent planner limits plan comp :
  build_prefetch_plan_with_limits intent planner limits = Ok (plan, comp) ->
  let cs := pp_candidates plan in
  NoDup (keys cs)
  /\ (forall c1 c2, c1 ∈ cs -> c2 ∈ cs -> pc_crate_name c1 = pc_crate_name c2 -> pc_source c1 = pc_source c2)
  /\ (forall X, from X comp = tally (is_source X) cs).
Proof.
  intros (m & Hm & -> & Hk & Hmem & Hs & _)%plan_ok. cbv zeta.
  apply merge_sources_phase in Hm as ([R Hp] & _). split_and!.
  - rewrite Hk. apply Hp.
  - intros c1 c2 (d1 & ? & -> & ->)%Hmem (d2 & ? & -> & ->)%Hmem. by apply (ph_one _ _ _ Hp).
  - intros X. rewrite Hs. by apply (ph_counts _ _ _ Hp).
Qed.

(** A plan stays within its limits: at most [key_cache_total] guesses overall,
    at most [key_cache_per_crate] guesses and [history_per_crate] earlier builds
    for any one crate, where a limit of zero is no limit. *)
Theorem plan_within_limits intent planner limits plan comp :
  build_prefetch_plan_with_limits intent planner limits = Ok (plan, comp) ->
  let cs := pp_candidates plan in
  (0 < key_cache_total limits -> tally (is_source KeyCache) cs <= key_cache_total limits)
  /\ (0 < key_cache_per_crate limits -> forall n, tally (of_crate KeyCache n) cs <= key_cache_per_crate limits)
  /\ (0 < history_per_crate limits -> forall n, tally (of_crate History n) cs <= history_per_crate limits).
Proof.
  intros (m & Hm & -> & _ & _ & Hs & Hc)%plan_ok. cbv zeta.
  apply merge_sources_phase in Hm as ([R Hp] & Ht & Hk & Hh). split_and!.
  - intros Hl. rewrite Hs, <- (ph_counts _ _ _ Hp KeyCache) by done. by apply Ht.
  - intros Hl n. rewrite Hc. by apply Hk.
  - intros Hl n. rewrite Hc. by apply Hh.
Qed.

(** *** What the plan serves *)

(** The crates that neither recorded actions nor shards name. *)
Definition open_crates (intent : BuildIntent) : list string :=
  List.filter (fun n => negb (existsb (crate_is n) (identity_answer intent ++ shard_answer intent)))
    (crate_query_order intent).
Lemma named_existsb l n : existsb (crate_is n) l = true <-> named l n.
Proof.
  rewrite existsb_exists. unfold named, crate_is.
  split; intros (c & Hin & Hc); exists c; rewrite list_elem_of_In in *; by rewrite ?bool_decide_eq_true in *.
Qed.
Lemma unresolved_open intent :
  unresolved (crate_query_order intent) (merge_shards intent (merge_identity intent merge_start)) = open_crates intent.
Proof.
  unfold unresolved, open_crates. apply List.filter_ext. intros n. f_equal. apply eq_bool_prop_intro.
  rewrite bool_decide_spec, Is_true_true, named_existsb, shards_resolved, identity_resolved.
  unfold named. set_solver.
Qed.
Lemma merge_sources_total limits intent :
  is_ok (history_candidates (open_crates intent)) = true ->
  (forall n, is_ok (key_cache_keys_for_crate n) = true) ->
  exists m1 m, merge_history limits intent (merge_shards intent (merge_identity intent merge_start)) = Ok m1
    /\ merge_key_cache limits intent m1 = Ok m /\ merge_sources limits intent = Ok m.
Proof.
  intros Hh Hk. unfold merge_sources.
  assert (exists m1, merge_history limits intent (merge_shards intent (merge_identity intent merge_start)) = Ok m1)
    as [m1 E1].
  { unfold merge_history. rewrite unresolved_open. destruct (open_crates intent) as [|n q]; [by eexists|].
    destruct (history_candidates (n :: q)); [by eexists|done]. }
  rewrite E1. cbn. assert (exists m, merge_key_cache limits intent m1 = Ok m) as [m E2]; [|by eauto].
  unfold merge_key_cache. generalize (unresolved (crate_query_order intent) m1). intros names. clear E1.
  revert m1. induction names as [|n names IH]; intros m1; cbn; [by eexists|].
  assert (exists m2, key_cache_step limits m1 n = Ok m2) as [m2 E2].
  { unfold key_cache_step. specialize (Hk n). destruct (key_cache_keys_for_crate n); [cbn|done].
    destruct (key_cache_full limits m1); [by eexists|]. destruct (cap_to _ _). by eexists. }
  rewrite E2. apply IH.
Qed.

(** Confident sources are served in full and a failing one is not fatal.  When
    the history and the key cache answer, there is a plan, whatever the other two
    sources do; it holds every recorded action of the build, every shard entry of
    a crate no recorded action names, and for every other requested crate the most
    recent [history_per_crate] entries of its history. *)
Theorem plan_serves_confident_sources intent planner limits hist :
  history_candidates (open_crates intent) = Ok hist ->
  (forall n, is_ok (key_cache_keys_for_crate n) = true) ->
  exists plan comp, build_prefetch_plan_with_limits intent planner limits = Ok (plan, comp)
  /\ (forall c, c ∈ identity_answer intent -> pc_cache_key c ∈ keys (pp_candidates plan))
  /\ (forall c, c ∈ shard_answer intent -> ~ named (identity_answer intent) (pc_crate_name c) ->
        pc_cache_key c ∈ keys (pp_candidates plan))
  /\ (forall n c, n ∈ open_crates intent ->
        c ∈ (cap_to (List.filter (crate_is n) hist) (history_per_crate limits)).1 ->
        pc_cache_key c ∈ keys (pp_candidates plan)).
Proof.
  intros Hh Hk. destruct (merge_sources_total limits intent) as (m1 & m & E1 & E2 & Em); [by rewrite Hh|done|].
  destruct (build_prefetch_plan_with_limits intent planner limits) as [[plan comp]|e] eqn:Eb.
  2: { unfold build_prefetch_plan_with_limits in Eb. by rewrite Em in Eb. }
  exists plan, comp. split; [done|]. apply plan_ok in Eb as (m' & Em' & _ & Hkeys & _).
  assert (m' = m) as -> by congruence. clear Em'.
  destruct (merge_sources_phase _ _ _ Em) as ([R Hp] & _).
  assert (forall k, k ∈ mg_seen m1 -> k ∈ keys (pp_candidates plan)) as Hin.
  { intros k Hk1. rewrite Hkeys, <- (ph_seen _ _ _ Hp). by eapply key_cache_seen. }
  split_and!.
  - intros c Hc. apply Hin. eapply history_seen; [exact E1|]. by apply shards_seen, identity_seen.
  - intros c Hc Hn. apply Hin. eapply history_seen; [exact E1|]. apply shards_offered; [done|]. by rewrite identity_resolved.
  - intros n c Hn Hc. apply Hin. rewrite <- unresolved_open in Hn. pose proof Hn as [Hn1 Hn2]%elem_of_unresolved.
    eapply history_offered; [exact E1|exact Hn1|exact Hn2|]. unfold history_answer. by rewrite unresolved_open, Hh.
Qed.
End Composition.

(** ** Prefetch planning: a concrete build

    The theorems of [PlannerProofs] at a build of four crates whose sources
    overlap, with caps that bite. *)

Definition candidate_of (key crate : string) (cost : option Z) : PrefetchCandidate :=
  {| pc_cache_key := key; pc_crate_name := crate; pc_compile_time_ms := cost; pc_size_bytes := None;
     pc_source := UnknownSource; pc_demand_index := None |}.
(** Recorded actions know [serde]; the shard query fails; the history has three
    builds of [rand]; the key cache guesses for everything. *)
#[local] Instance demo_source : PlannerDataSource unit := {
  shard_candidates _ _ := Err tt;
  history_candidates _ := Ok [candidate_of "r1" "rand" (Some 9); candidate_of "r2" "rand" None;
                              candidate_of "r3" "rand" (Some 7)];
  key_cache_keys_for_crate name := Ok [name ++ "-1"; name ++ "-2"; name ++ "-3"];
  identity_candidates _ := Ok [candidate_of "s1" "serde" (Some 40); candidate_of "s1" "serde" None];
}.
Definition demo_intent : BuildIntent :=
  {| bi_crate_names := ["serde"; "rand"; "log"; "rand"; "time"]; bi_namespace := Some "ns";
     bi_cargo_lock_deps := [("serde", "1.0")]; bi_identity_key := Some " lock "; bi_lock_path := None |}.
Definition demo_limits : PlanLimits :=
  {| key_cache_per_crate := 2; key_cache_total := 3; history_per_crate := 2 |}.
Definition demo_plan : result unit (PrefetchPlan * PlanComposition) :=
  Eval vm_compute in build_prefetch_plan_with_limits demo_intent "" demo_limits.
Definition demo_candidates : list PrefetchCandidate :=
  match demo_plan with Ok (p, _) => pp_candidates p | Err _ => [] end.

Lemma dispatch_order_witness :
  let late := with_demand (Some 40) (candidate_of "a" "a" (Some 900)) in
  let soon := with_demand (Some 3) (candidate_of "b" "b" None) in
  sort_candidates_for_dispatch [candidate_of "c" "c" (Some 5); late; soon]
  ≡ₚ [candidate_of "c" "c" (Some 5); late; soon].
Proof.
  intros late soon. refine (proj1 (dispatch_order [candidate_of "c" "c" (Some 5); late; soon] _)).
  apply Forall_cons. split; [by intros i [=]|]. apply Forall_cons. split; [by intros i [= <-]|].
  apply Forall_cons. split; [by intros i [= <-]|apply Forall_nil; constructor].
Defined.
Lemma plan_composition_exact_witness :
  length demo_candidates = 6%nat /\ NoDup (keys demo_candidates).
Proof.
  split; [reflexivity|].
  refine (proj1 (plan_composition_exact demo_intent "" demo_limits _ _ _)). vm_compute. reflexivity.
Defined.
Lemma plan_within_limits_witness :
  tally (is_source KeyCache) demo_candidates = 3 /\ tally (of_crate History "rand") demo_candidates <= 2.
Proof.
  split; [reflexivity|].
  refine (proj2 (proj2 (plan_within_limits demo_intent "" demo_limits _ _ _)) _ "rand");
    [vm_compute; reflexivity|reflexivity].
Defined.
Lemma plan_serves_confident_sources_witness :
  exists plan comp, build_prefetch_plan_with_limits demo_intent "" demo_limits = Ok (plan, comp)
    /\ "s1" ∈ keys (pp_candidates plan) /\ "r2" ∈ keys (pp_candidates plan).
Proof.
  destruct (plan_serves_confident_sources demo_intent "" demo_limits
              [candidate_of "r1" "rand" (Some 9); candidate_of "r2" "rand" None; candidate_of "r3" "rand" (Some 7)])
    as (plan & comp & E & Hi & _ & Hh); [reflexivity|reflexivity|].
  exists plan, comp. split; [exact E|]. split.
  - apply (Hi (candidate_of "s1" "serde" (Some 40))). apply elem_of_cons. by left.
  - apply (Hh "rand" (candidate_of "r2" "rand" None)); [by apply elem_of_cons; left|].
    change (candidate_of "r2" "rand" None ∈ [candidate_of "r1" "rand" (Some 9); candidate_of "r2" "rand" None]).
    apply elem_of_cons. right. apply elem_of_cons. by left.
Defined.
