(* ===== verification/Cgroup.v ===== *)
(** * Cgroup limits

    The Linux resource probe of [src/scheduler.rs]: the parsers of the proc and
    cgroup-v2 files, the chain of ancestors a limit can come from, and the
    snapshot of limits and headroom.  A path is the list of its components, which
    is what [Path] compares; the files are read through [read], and [missing p]
    is [try_exists] answering [Ok(false)]. *)

From S2P Require Import Prelude Strings Codec.
#[local] Open Scope string_scope.
#[local] Open Scope Z_scope.

Abbreviation path := (list Component).

(** ** Paths *)

(** [Path::starts_with] and [Path::strip_prefix]. *)
Fixpoint path_strip_prefix (base p : path) : option path :=
  match base, p with
  | [], _ => Some p
  | a :: base, b :: p => if decide (a = b) then path_strip_prefix base p else None
  | _ :: _, [] => None
  end.
Definition path_starts_with (base p : path) : bool :=
  if path_strip_prefix base p is Some _ then true else false.
(** [Path::join] of a path without a root. *)
Definition path_join (base p : path) : path := (base ++ p)%list.
(** [PathBuf::pop]: [None] when there is no parent. *)
Definition path_pop (p : path) : option path :=
  match rev p with
  | [] | [RootDir] => None
  | _ :: up => Some (rev up)
  end.

(** ** Parsers *)

Record CpuLimit := { quota_us : Z; period_us : Z }.
#[export] Instance CpuLimit_eq_dec : EqDecision CpuLimit.
Proof. solve_decision. Defined.
Record MemoryEvents := {
  ev_low : Z; ev_high : Z; ev_max : Z; ev_oom : Z; ev_oom_kill : Z; ev_oom_group_kill : Z;
}.
Definition default_events : MemoryEvents :=
  {| ev_low := 0; ev_high := 0; ev_max := 0; ev_oom := 0; ev_oom_kill := 0; ev_oom_group_kill := 0 |}.

(** [rounded_cpus] *)
Definition rounded_cpus (l : CpuLimit) : Z := Z.min (div_ceil (quota_us l) (period_us l)) u32_max.

(** [valid_cgroup_relative] *)
Definition valid_cgroup_relative (p : string) : bool :=
  String.eqb p "/"
  || match strip_prefix "/" p with
     | Some rest => forallb (fun part => negb (String.eqb part "") && negb (String.eqb part ".")
                                          && negb (String.eqb part "..")) (split_on slash rest)
     | None => false
     end.
(** [line.splitn(3, ':')] with all three fields present. *)
Definition split_colons (line : string) : option (string * string * string) :=
  '(a, rest) ← split_once ":" line;
  '(b, c) ← split_once ":" rest;
  Some (a, b, c).
(** [parse_cgroup_v2_path] *)
Definition parse_cgroup_line (line : string) : option string :=
  '(hierarchy, controllers, p) ← split_colons line;
  if String.eqb hierarchy "0" && String.eqb controllers "" && starts_with "/" p
     && valid_cgroup_relative p
  then Some p else None.
Definition find_map {A B} (f : A -> option B) (l : list A) : option B := head (omap f l).
Definition parse_cgroup_v2_path (text : string) : option string := find_map parse_cgroup_line (lines text).

(** [decode_mountinfo_field]: the kernel's four octal escapes. *)
Definition decode_escape (a b c : ascii) : option ascii :=
  match a, b, c with
  | "0", "1", "1" => Some "009"
  | "0", "1", "2" => Some "010"
  | "0", "4", "0" => Some " "
  | "1", "3", "4" => Some "\"
  | _, _, _ => None
  end%char.
Fixpoint decode_bytes (s : string) : option string :=
  match s with
  | "" => Some ""
  | String byte rest =>
      if Ascii.eqb byte "\" then
        match rest with
        | String a (String b (String c rest)) =>
            d ← decode_escape a b c;
            r ← decode_bytes rest;
            Some (String d r)
        | _ => None
        end
      else r ← decode_bytes rest; Some (String byte r)
  end.
Definition decode_mountinfo_field (field : string) : option string :=
  decoded ← decode_bytes field;
  if valid_utf8 decoded then Some decoded else None.

(** [valid_absolute_path] *)
Definition valid_absolute_path (p : path) : bool :=
  match p with
  | RootDir :: rest => forallb (fun c => match c with CurDir | ParentDir => false | _ => true end) rest
  | _ => false
  end.
(** [parse_cgroup2_mounts], one line. *)
Definition parse_mount_line (line : string) : option (path * path) :=
  '(lhs, rhs) ← split_once_str " - " line;
  match split_whitespace rhs with
  | filesystem :: _ :: _ :: _ =>
      match split_whitespace lhs with
      | _ :: _ :: _ :: root :: mount_point :: _ :: _ =>
          if String.eqb filesystem "cgroup2" then
            root ← decode_mountinfo_field root;
            mount_point ← decode_mountinfo_field mount_point;
            if valid_absolute_path (components root) && valid_absolute_path (components mount_point)
            then Some (components root, components mount_point) else None
          else None
      | _ => None
      end
  | _ => None
  end.
Definition parse_cgroup2_mounts (text : string) : list (path * path) := omap parse_mount_line (lines text).

(** [cgroup_path] *)
Definition cgroup_path (root mount_point relative : path) : option path :=
  suffix ← path_strip_prefix root relative;
  let current := path_join mount_point suffix in
  if path_starts_with mount_point current then Some current else None.

(** [parse_cpu_limit]: the outer [None] is malformed, the inner one unlimited. *)
Definition parse_cpu_limit (text : string) : option (option CpuLimit) :=
  match split_whitespace text with
  | [quota; period] =>
      period_us ← parse_unsigned u64_max period;
      if period_us =? 0 then None else
      if String.eqb quota "max" then Some None else
      quota_us ← parse_unsigned u64_max quota;
      if 0 <? quota_us then Some (Some {| quota_us := quota_us; period_us := period_us |}) else None
  | _ => None
  end.
(** [cpu_limit_is_tighter] *)
Definition cpu_limit_is_tighter (l r : CpuLimit) : bool :=
  quota_us l * period_us r <=? quota_us r * period_us l.

(** [parse_cpuset_cpus]: the ranges, then their union. *)
Definition parse_cpu_range (item : string) : option (Z * Z) :=
  let item := trim item in
  if String.eqb item "" then None else
  '(s, e) ← match split_once "-" item with
            | Some (s, e) => s ← parse_unsigned u32_max (trim s); e ← parse_unsigned u32_max (trim e); Some (s, e)
            | None => cpu ← parse_unsigned u32_max item; Some (cpu, cpu)
            end;
  if e <? s then None else Some (s, e).
Definition range_leb (a b : Z * Z) : bool :=
  match a.1 ?= b.1 with Lt => true | Gt => false | Eq => a.2 <=? b.2 end.
Definition range_len (r : Z * Z) : Z := r.2 - r.1 + 1.
Definition merge_range (acc : Z * option (Z * Z)) (r : Z * Z) : option (Z * option (Z * Z)) :=
  let '(count, merged) := acc in
  match merged with
  | Some m =>
      if r.1 <=? m.2 then Some (count, Some (m.1, Z.max m.2 r.2))
      else count ← checked_add u64_max count (range_len m); Some (count, Some r)
  | None => Some (count, Some r)
  end.
Fixpoint merge_ranges (acc : Z * option (Z * Z)) (l : list (Z * Z)) : option (Z * option (Z * Z)) :=
  match l with
  | [] => Some acc
  | r :: l => acc ← merge_range acc r; merge_ranges acc l
  end.
Definition parse_cpu_ranges (text : string) : option (list (Z * Z)) :=
  mapM parse_cpu_range (split_on "," (trim text)).
Definition count_cpus (ranges : list (Z * Z)) : option Z :=
  '(count, merged) ← merge_ranges (0, None) (sort_by range_leb ranges);
  count ← match merged with
          | Some m => checked_add u64_max count (range_len m)
          | None => Some count
          end;
  if count <=? u32_max then Some count else None.
Definition parse_cpuset_cpus (text : string) : option Z :=
  ranges ← parse_cpu_ranges text;
  count_cpus ranges.

(** [parse_memory_events] *)
Definition set_event (key : string) (value : Z) (e : MemoryEvents) : MemoryEvents :=
  let at_ k old := if String.eqb key k then value else old in
  {| ev_low := at_ "low" (ev_low e); ev_high := at_ "high" (ev_high e);
     ev_max := at_ "max" (ev_max e); ev_oom := at_ "oom" (ev_oom e);
     ev_oom_kill := at_ "oom_kill" (ev_oom_kill e);
     ev_oom_group_kill := at_ "oom_group_kill" (ev_oom_group_kill e) |}.
Fixpoint event_lines (ls : list string) (events : MemoryEvents) (found : bool) : option (MemoryEvents * bool) :=
  match ls with
  | [] => Some (events, found)
  | line :: ls =>
      if String.eqb (trim line) "" then event_lines ls events found else
      match split_whitespace line with
      | [key; value] =>
          value ← parse_unsigned u64_max value;
          event_lines ls (set_event key value events) true
      | _ => None
      end
  end.
Definition parse_memory_events (text : string) : option MemoryEvents :=
  '(events, found) ← event_lines (lines text) default_events false;
  if (found : bool) then Some events else None.
(** [meminfo_total_bytes] *)
Definition meminfo_total_bytes (text : string) : option Z :=
  line ← find_map (strip_prefix "MemTotal:") (lines text);
  word ← head (split_whitespace line);
  kib ← parse_unsigned u64_max word;
  checked_mul u64_max kib 1024.

(** ** The domain *)

Record ResourceDomain := {
  rd_mount_point : path;
  rd_current : path;
  rd_ancestor_limits_complete : bool;
}.
Record ResourceSnapshot := {
  rs_memory_limit_bytes : option Z;
  rs_cpu_limit : option CpuLimit;
  rs_cpuset_cpus : option Z;
  rs_memory_current_bytes : option Z;
  rs_memory_headroom_bytes : option Z;
  rs_ancestor_limits_complete : bool;
  rs_current_memory_events : option MemoryEvents;
}.
Definition unsupported : ResourceSnapshot :=
  {| rs_memory_limit_bytes := None; rs_cpu_limit := None; rs_cpuset_cpus := None;
     rs_memory_current_bytes := None; rs_memory_headroom_bytes := None;
     rs_ancestor_limits_complete := false; rs_current_memory_events := None |}.

(** [min_by_key]: the first of the least. *)
Fixpoint min_by_depth (best : option (nat * ResourceDomain)) (l : list (nat * ResourceDomain))
    : option (nat * ResourceDomain) :=
  match l with
  | [] => best
  | x :: l =>
      min_by_depth (match best with
                    | Some b => if (b.1 <=? x.1)%nat then best else Some x
                    | None => Some x
                    end) l
  end.
(** [ResourceDomain::from_proc_text] *)
Definition domain_of_mount (relative : path) (m : path * path) : option (nat * ResourceDomain) :=
  let '(mount_root, mount_point) := m in
  current ← cgroup_path mount_root mount_point relative;
  Some (length mount_root,
        {| rd_mount_point := mount_point; rd_current := current;
           rd_ancestor_limits_complete := bool_decide (mount_root = [RootDir]) |}).
Definition from_proc_text (cgroup mountinfo : string) : option ResourceDomain :=
  relative ← parse_cgroup_v2_path cgroup;
  snd <$> min_by_depth None
    (omap (domain_of_mount (components relative)) (parse_cgroup2_mounts mountinfo)).

(** [ancestors]: from the current cgroup up to the mount point; every round
    drops a component, so the length of the path bounds the rounds. *)
Fixpoint ancestor_loop (fuel : nat) (mount_point p : path) : list path :=
  match fuel with
  | O => []
  | S fuel =>
      if path_starts_with mount_point p then
        p :: (if decide (p = mount_point) then []
              else match path_pop p with Some up => ancestor_loop fuel mount_point up | None => [] end)
      else []
  end.
Definition ancestors (d : ResourceDomain) : list path :=
  ancestor_loop (S (length (rd_current d))) (rd_mount_point d) (rd_current d).

Section Snapshot.
Variable read : path -> option string.
Variable missing : path -> bool.

Definition in_dir (p : path) (file : string) : path := path_join p [Normal file].
(** [read_u64_file], [read_memory_limit], [read_cpu_limit] *)
Definition read_u64_file (p : path) : option Z := text ← read p; parse_unsigned u64_max (trim text).
Definition read_memory_limit (p : path) : option (option Z) :=
  text ← read p;
  let value := trim text in
  if String.eqb value "max" then Some None else v ← parse_unsigned u64_max value; Some (Some v).
Definition read_cpu_limit (p : path) : option (option CpuLimit) := text ← read p; parse_cpu_limit text.

(** The locals of the loop over the ancestors. *)
Record Limits := {
  lm_memory : option Z;
  lm_headroom : option Z;
  lm_memory_complete : bool;
  lm_headroom_complete : bool;
  lm_cpu : option CpuLimit;
  lm_cpu_complete : bool;
}.
Definition lower (a : option Z) (b : Z) : option Z :=
  Some (match a with Some a => Z.min a b | None => b end).
Definition memory_step (mount_point : path) (p : path) (l : Limits) : Limits :=
  match read_memory_limit (in_dir p "memory.max") with
  | Some (Some limit) =>
      let current := read_u64_file (in_dir p "memory.current") in
      {| lm_memory := lower (lm_memory l) limit;
         lm_headroom := match current with
                        | Some c => lower (lm_headroom l) (saturating_sub limit c)
                        | None => lm_headroom l
                        end;
         lm_memory_complete := lm_memory_complete l;
         lm_headroom_complete := if current is Some _ then lm_headroom_complete l else false;
         lm_cpu := lm_cpu l; lm_cpu_complete := lm_cpu_complete l |}
  | Some None => l
  | None =>
      if bool_decide (p = mount_point) && missing (in_dir p "memory.max") then l
      else {| lm_memory := lm_memory l; lm_headroom := lm_headroom l; lm_memory_complete := false;
              lm_headroom_complete := lm_headroom_complete l;
              lm_cpu := lm_cpu l; lm_cpu_complete := lm_cpu_complete l |}
  end.
Definition with_cpu (cpu : option CpuLimit) (complete : bool) (l : Limits) : Limits :=
  {| lm_memory := lm_memory l; lm_headroom := lm_headroom l; lm_memory_complete := lm_memory_complete l;
     lm_headroom_complete := lm_headroom_complete l; lm_cpu := cpu; lm_cpu_complete := complete |}.
Definition cpu_step (mount_point : path) (p : path) (l : Limits) : Limits :=
  match read_cpu_limit (in_dir p "cpu.max") with
  | Some (Some limit) =>
      with_cpu (Some (match lm_cpu l with
                      | Some current => if cpu_limit_is_tighter current limit then current else limit
                      | None => limit
                      end)) (lm_cpu_complete l) l
  | Some None => l
  | None =>
      if bool_decide (p = mount_point) && missing (in_dir p "cpu.max") then l
      else with_cpu (lm_cpu l) false l
  end.
(** [snapshot] *)
Definition scan_limits (d : ResourceDomain) : Limits :=
  fold_left (fun l p => cpu_step (rd_mount_point d) p (memory_step (rd_mount_point d) p l)) (ancestors d)
    {| lm_memory := None; lm_headroom := None;
       lm_memory_complete := rd_ancestor_limits_complete d; lm_headroom_complete := true;
       lm_cpu := None; lm_cpu_complete := rd_ancestor_limits_complete d |}.
Definition snapshot (d : ResourceDomain) : ResourceSnapshot :=
  let l := scan_limits d in
  {| rs_memory_limit_bytes := if lm_memory_complete l then lm_memory l else None;
     rs_cpu_limit := if lm_cpu_complete l then lm_cpu l else None;
     rs_cpuset_cpus := text ← read (in_dir (rd_current d) "cpuset.cpus.effective"); parse_cpuset_cpus text;
     rs_memory_current_bytes := read_u64_file (in_dir (rd_current d) "memory.current");
     rs_memory_headroom_bytes :=
       if lm_memory_complete l && lm_headroom_complete l then lm_headroom l else None;
     rs_ancestor_limits_complete := rd_ancestor_limits_complete d;
     rs_current_memory_events :=
       text ← read (in_dir (rd_current d) "memory.events"); parse_memory_events text |}.
End Snapshot.
(** [ResourceSnapshot::from_domain] *)
Definition from_domain (read : path -> option string) (missing : path -> bool)
    (domain : option ResourceDomain) : ResourceSnapshot :=
  match domain with Some d => snapshot read missing d | None => unsupported end.
