(* ===== verification/CgroupProofs.v ===== *)
(** * Cgroup limits: what the probe reports

    The CPU count is the size of the union of the listed ranges; the ancestor
    chain runs from the current cgroup to the mount point; a reported limit is the
    tightest one of the whole chain, never that of a partial scan. *)

From S2P Require Import Prelude Strings Codec Cgroup.
#[local] Open Scope string_scope.
#[local] Open Scope Z_scope.

(** ** CPU sets *)

Definition range_ok (r : Z * Z) : Prop := 0 <= r.1 <= r.2 /\ r.2 <= u32_max.
Definition in_cpu_range (x : Z) (r : Z * Z) : Prop := r.1 <= x <= r.2.
Definition interval (s e : Z) : gset Z := list_to_set (seqZ s (e - s + 1)).
Definition union_of (l : list (Z * Z)) : gset Z := ⋃ ((fun r => interval r.1 r.2) <$> l).

Lemma elem_of_interval s e x : x ∈ interval s e <-> s <= x <= e.
Proof. unfold interval. rewrite elem_of_list_to_set, elem_of_seqZ. lia. Qed.
Lemma elem_of_union_of l x : x ∈ union_of l <-> Exists (in_cpu_range x) l.
Proof.
  unfold union_of. induction l as [|r l IH]; cbn; [rewrite Exists_nil; set_solver|].
  by rewrite elem_of_union, IH, Exists_cons, elem_of_interval.
Qed.
Lemma size_interval s e : s <= e -> Z.of_nat (size (interval s e)) = e - s + 1.
Proof. intros Hse. unfold interval. rewrite size_list_to_set by apply NoDup_seqZ. rewrite length_seqZ. lia. Qed.
Lemma range_leb_total a b : range_leb a b = true \/ range_leb b a = true.
Proof. unfold range_leb. destruct (Z.compare_spec a.1 b.1), (Z.compare_spec b.1 a.1); auto; lia. Qed.
Lemma range_leb_trans a b c : range_leb a b = true -> range_leb b c = true -> range_leb a c = true.
Proof.
  unfold range_leb. destruct (Z.compare_spec a.1 b.1), (Z.compare_spec b.1 c.1), (Z.compare_spec a.1 c.1); try done; lia.
Qed.
Lemma range_leb_fst a b : range_leb a b = true -> a.1 <= b.1.
Proof. unfold range_leb. destruct (Z.compare_spec a.1 b.1); [lia|lia|done]. Qed.

(** The count with [m] open: what the remaining, sorted ranges add. *)
Definition total (acc : Z * option (Z * Z)) (l : list (Z * Z)) : Z :=
  acc.1 + Z.of_nat (size (union_of (option_list acc.2 ++ l))).
Lemma total_some c m l : total (c, Some m) l = c + Z.of_nat (size (union_of (m :: l))).
Proof. done. Qed.
Lemma total_none c l : total (c, None) l = c + Z.of_nat (size (union_of l)).
Proof. done. Qed.
Lemma union_grows m r l :
  m.1 <= r.1 -> r.1 <= m.2 ->
  union_of (m :: r :: l) = union_of ((m.1, Z.max m.2 r.2) :: l).
Proof.
  intros H1 H2. apply set_eq. intros x. rewrite !elem_of_union_of, !Exists_cons. unfold in_cpu_range. cbn.
  intuition lia.
Qed.
Lemma union_splits m r l :
  range_ok m -> m.2 < r.1 -> Forall (fun q => r.1 <= q.1) l ->
  Z.of_nat (size (union_of (m :: r :: l))) = range_len m + Z.of_nat (size (union_of (r :: l))).
Proof.
  intros [Hm _] Hlt Hl. change (union_of (m :: r :: l)) with (interval m.1 m.2 ∪ union_of (r :: l)).
  rewrite size_union, Nat2Z.inj_add, size_interval; [done|lia|].
  intros x. rewrite elem_of_interval, elem_of_union_of, Exists_exists. intros Hx (q & Hq & Hxq).
  apply elem_of_cons in Hq as [->|Hq]; [unfold in_cpu_range in *; lia|].
  rewrite Forall_forall in Hl. specialize (Hl q Hq). unfold in_cpu_range in *. lia.
Qed.
Lemma merge_ranges_spec l : forall count merged,
  0 <= count -> Forall range_ok (option_list merged ++ l) ->
  StronglySorted (fun a b => a.1 <= b.1) (option_list merged ++ l) ->
  total (count, merged) l <= u64_max ->
  exists count' merged', merge_ranges (count, merged) l = Some (count', merged') /\ 0 <= count'
    /\ Forall range_ok (option_list merged') /\ total (count', merged') [] = total (count, merged) l.
Proof.
  induction l as [|r l IH]; intros count merged H0 Hok Hs Ht.
  { exists count, merged. rewrite app_nil_r in *. split_and!; [done|done|done|]. unfold total. by rewrite app_nil_r. }
  destruct merged as [m|]; cbn [merge_ranges merge_range option_list app] in *.
  2: { apply (IH count (Some r)); done. }
  apply Forall_cons in Hok as [Hm Hok]. pose proof Hok as [Hr Hok']%Forall_cons.
  apply StronglySorted_inv in Hs as [Hs Hmin]. pose proof Hs as [Hs' Hrmin]%StronglySorted_inv.
  apply Forall_cons in Hmin as [Hmr Hmin].
  destruct (Z.leb_spec r.1 m.2) as [Hle|Hgt]; cbn.
  - assert (total (count, Some (m.1, Z.max m.2 r.2)) l = total (count, Some m) (r :: l)) as Et.
    { by rewrite !total_some, union_grows. }
    rewrite <- Et in *. apply IH; [done| |constructor; done|done].
    constructor; [|done]. destruct Hm, Hr. unfold range_ok. cbn. lia.
  - assert (total (count + range_len m, Some r) l = total (count, Some m) (r :: l)) as Et.
    { rewrite !total_some, union_splits by done. lia. }
    rewrite <- Et in *. rewrite total_some in Ht.
    unfold checked_add. rewrite (proj2 (Z.leb_le _ _)) by lia. cbn [mbind option_bind].
    apply IH; [destruct Hm; unfold range_len; lia|done|done|done].
Qed.
Lemma union_bound l : Forall range_ok l -> Z.of_nat (size (union_of l)) <= u32_max + 1.
Proof.
  intros Hl. rewrite <- (Z.sub_0_r (u32_max + 1)). etrans; [apply inj_le, (subseteq_size _ (interval 0 u32_max))|].
  - intros x. rewrite elem_of_union_of, elem_of_interval, Exists_exists. intros (r & Hr & Hx).
    rewrite Forall_forall in Hl. destruct (Hl r Hr). unfold in_cpu_range in Hx. lia.
  - rewrite size_interval; unfold u32_max; lia.
Qed.
Lemma parse_cpu_range_ok item r : parse_cpu_range item = Some r -> range_ok r.
Proof.
  unfold parse_cpu_range. destruct (String.eqb (trim item) ""); [done|].
  intros ([s e] & Hse & Hr)%bind_Some. destruct (Z.ltb_spec e s); [done|]. injection Hr as <-.
  assert (0 <= s /\ e <= u32_max) as [H1 H2]; [|split; cbn; lia].
  destruct (split_once "-" (trim item)) as [[a b]|].
  - apply bind_Some in Hse as (x & Hx%parse_unsigned_range & (y & Hy%parse_unsigned_range & [= <- <-])%bind_Some). lia.
  - apply bind_Some in Hse as (x & Hx%parse_unsigned_range & [= <- <-]). lia.
Qed.

Lemma parse_cpuset_union text ranges :
  parse_cpu_ranges text = Some ranges ->
  let cpus := union_of (sort_by range_leb ranges) in
  parse_cpuset_cpus text
  = if Z.of_nat (size cpus) <=? u32_max then Some (Z.of_nat (size cpus)) else None.
Proof.
  intros Hr. cbv zeta. unfold parse_cpuset_cpus. rewrite Hr. cbn [mbind option_bind].
  set (sorted := sort_by range_leb ranges).
  assert (Forall range_ok sorted) as Hok.
  { apply Forall_sort_by, Forall_forall. intros r Hin. unfold parse_cpu_ranges in Hr.
    apply mapM_Some in Hr. apply list_elem_of_lookup in Hin as [i Hi].
    eapply Forall2_lookup_r in Hr as (item & _ & Hp); [|exact Hi]. by eapply parse_cpu_range_ok. }
  assert (StronglySorted (fun a b : Z * Z => a.1 <= b.1) sorted) as Hs.
  { eapply StronglySorted_weaken; [|intros x y _ _; apply range_leb_fst].
    apply Sorted_StronglySorted; [intros x y z; apply range_leb_trans|apply sort_by_sorted, range_leb_total]. }
  pose proof (union_bound sorted Hok) as Hb.
  destruct (merge_ranges_spec sorted 0 None) as (count & merged & Em & H0 & Hm & Ht); [done|done|done| |].
  { rewrite total_none. unfold u32_max, u64_max in *. lia. }
  unfold count_cpus. fold sorted. rewrite Em. cbn [mbind option_bind].
  rewrite total_none, Z.add_0_l in Ht. destruct merged as [m|].
  - rewrite total_some in Ht. apply Forall_cons in Hm as [Hm _].
    assert (Z.of_nat (size (union_of [m])) = range_len m) as El.
    { unfold union_of. cbn. rewrite union_empty_r_L, size_interval; [done|]. apply Hm. }
    unfold checked_add, u32_max, u64_max in *. rewrite (proj2 (Z.leb_le _ _)) by lia. cbn [mbind option_bind].
    by rewrite <- Ht, El.
  - rewrite total_none in Ht. cbn [mbind option_bind]. rewrite <- Ht. cbn. by rewrite Z.add_0_r.
Qed.

(** The CPU count of a cpuset is the number of distinct CPUs its ranges list,
    whatever their order and overlap: the merging loop never overflows and equals
    the size of the union; only a set of all [2 ^ 32] CPUs is refused. *)
Theorem cpuset_counts_union text ranges (cpus : gset Z) :
  parse_cpu_ranges text = Some ranges ->
  (forall x, x ∈ cpus <-> exists r, r ∈ ranges /\ in_cpu_range x r) ->
  parse_cpuset_cpus text
  = if Z.of_nat (size cpus) <=? u32_max then Some (Z.of_nat (size cpus)) else None.
Proof.
  intros Hr Hc. rewrite (parse_cpuset_union _ _ Hr). cbv zeta.
  assert (cpus = union_of (sort_by range_leb ranges)) as ->; [|done].
  apply set_eq. intros x. rewrite Hc, elem_of_union_of, Exists_exists.
  split; intros (r & Hin & Hx); exists r; (split; [by apply elem_of_sort_by in Hin || by apply elem_of_sort_by|done]).
Qed.
Lemma cpuset_counts_union_witness : parse_cpuset_cpus "0-3,2-5,9" = Some 7.
Proof.
  rewrite (cpuset_counts_union "0-3,2-5,9" [(0, 3); (2, 5); (9, 9)] (list_to_set [0; 1; 2; 3; 4; 5; 9])).
  - vm_compute. reflexivity.
  - vm_compute. reflexivity.
  - intros x. rewrite elem_of_list_to_set. unfold in_cpu_range. split.
    + intros Hx. destruct (decide (x <= 3)); [exists (0, 3)|destruct (decide (x <= 5)); [exists (2, 5)|exists (9, 9)]];
        (split; [set_solver|set_solver by lia]).
    + intros (r & Hr & Hx). set_unfold. destruct Hr as [->|[->|[->|[]]]]; cbn in Hx; lia.
Defined.

(** ** The ancestor chain *)

Lemma path_strip_prefix_Some base p r : path_strip_prefix base p = Some r <-> p = (base ++ r)%list.
Proof.
  revert p. induction base as [|a base IH]; intros p; cbn; [naive_solver|].
  destruct p as [|b p]; [done|]. case_decide as E; [subst; rewrite IH; naive_solver|naive_solver].
Qed.
Lemma path_starts_with_app base r : path_starts_with base (base ++ r)%list = true.
Proof. unfold path_starts_with. by rewrite (proj2 (path_strip_prefix_Some base _ r)). Qed.
Lemma path_pop_snoc p n : path_pop (p ++ [Normal n])%list = Some p.
Proof. unfold path_pop. rewrite rev_app_distr. cbn. by rewrite rev_involutive. Qed.

(** The chain below [mount]: every prefix of [names], longest first. *)
Definition chain (mount : path) (names : list string) : list path :=
  map (fun k => (mount ++ map Normal (take k names))%list) (rev (seq 0 (S (length names)))).
Lemma chain_snoc mount names n :
  chain mount (names ++ [n]) = (mount ++ map Normal (names ++ [n]))%list :: chain mount names.
Proof.
  unfold chain. rewrite length_app, Nat.add_1_r, (seq_S (S (length names))), rev_app_distr. cbn [rev app map].
  rewrite Nat.add_0_l, take_ge by (rewrite length_app; cbn; lia). f_equal.
  apply map_ext_in. intros k Hk. rewrite <- in_rev, in_seq in Hk. rewrite take_app_le by lia. done.
Qed.
Lemma ancestor_loop_chain fuel mount names :
  (length names < fuel)%nat -> ancestor_loop fuel mount (mount ++ map Normal names) = chain mount names.
Proof.
  revert fuel. induction names as [|n names IH] using rev_ind; intros fuel Hf;
    (destruct fuel as [|fuel]; [lia|]); cbn [ancestor_loop].
  - rewrite app_nil_r. rewrite <- (app_nil_r mount) at 2. rewrite path_starts_with_app, decide_True by done.
    unfold chain. cbn. by rewrite app_nil_r.
  - rewrite path_starts_with_app, chain_snoc. f_equal. rewrite decide_False.
    + rewrite map_app, app_assoc. cbn [map]. rewrite path_pop_snoc. apply IH. rewrite length_app in Hf. cbn in Hf. lia.
    + intros E. apply (f_equal length) in E. rewrite length_app, length_map, length_app in E. cbn in E. lia.
Qed.

(** A valid cgroup path is the root followed by names. *)
Lemma valid_relative_components p :
  valid_cgroup_relative p = true -> exists names, components p = RootDir :: map Normal names.
Proof.
  unfold valid_cgroup_relative. intros [->%String.eqb_eq|Hp]%orb_prop; [by exists []|].
  destruct (strip_prefix "/" p) as [rest|] eqn:E; [|done]. apply strip_prefix_Some in E as ->.
  exists (split_on slash rest). unfold components. change ("/" ++ rest) with (String slash rest).
  cbn [split_on]. rewrite (proj2 (Ascii.eqb_eq slash slash) eq_refl).
  destruct (split_on_cons slash rest) as (a & l & Es). rewrite Es in *. cbn [leading app]. f_equal.
  change (omap seg_component ("" :: a :: l)) with (omap seg_component (a :: l)).
  clear Es. induction (a :: l) as [|b l' IH]; [done|]. cbn in Hp. apply andb_prop in Hp as [Hb Hp].
  cbn. unfold seg_component at 1. bool_to_prop.
  rewrite !(proj2 (String.eqb_neq _ _)) by done. f_equal. by apply IH.
Qed.
Lemma min_by_depth_elem best l x :
  min_by_depth best l = Some x -> best = Some x \/ x ∈ l.
Proof.
  revert best. induction l as [|y l IH]; intros best; cbn; [by left|]. intros [H|H]%IH; [|set_solver].
  destruct best as [b|]; [destruct (b.1 <=? y.1)%nat; [by left|]|]; injection H as ->; set_solver.
Qed.
Lemma domain_of_mount_chain relative names m x :
  relative = RootDir :: map Normal names -> valid_absolute_path m.1 = true ->
  domain_of_mount relative m = Some x -> exists names' skipped,
    rd_current x.2 = (rd_mount_point x.2 ++ map Normal names')%list /\ names = (skipped ++ names')%list
    /\ (rd_ancestor_limits_complete x.2 = true -> skipped = []).
Proof.
  destruct m as [root mount]. intros -> Hroot. unfold domain_of_mount, cgroup_path. cbn in Hroot.
  intros (cur & (suffix & Hsuf%path_strip_prefix_Some & Hcur)%bind_Some & [= <-])%bind_Some. cbn.
  unfold path_join in Hcur. rewrite path_starts_with_app in Hcur. injection Hcur as <-.
  destruct root as [|[] rest]; try done. injection Hsuf as Hsuf.
  apply map_eq_app in Hsuf as (skipped & names' & -> & <- & <-). exists names', skipped.
  split_and!; [done|done|]. intros [= E]%bool_decide_eq_true_1. by apply map_eq_nil in E.
Qed.

(** The limits are read from the right places: the ancestors of a discovered
    cgroup are exactly the directories from its own up to the mount point, each
    the parent of the one before, none outside the mount; and when the domain
    claims that no ancestor is hidden, the chain spells the whole cgroup path. *)
Theorem ancestors_are_the_chain cgroup mountinfo d :
  from_proc_text cgroup mountinfo = Some d ->
  exists relative names skipped, parse_cgroup_v2_path cgroup = Some relative
  /\ components relative = RootDir :: map Normal (skipped ++ names)
  /\ rd_current d = (rd_mount_point d ++ map Normal names)%list
  /\ ancestors d = chain (rd_mount_point d) names
  /\ (rd_ancestor_limits_complete d = true -> skipped = []).
Proof.
  unfold from_proc_text. intros (relative & Hrel & Hd)%bind_Some.
  assert (exists names, components relative = RootDir :: map Normal names) as [names Hn].
  { unfold parse_cgroup_v2_path, find_map in Hrel. apply head_Some_elem_of, list_elem_of_omap in Hrel as (line & _ & Hl).
    unfold parse_cgroup_line in Hl. apply bind_Some in Hl as ([[h c] p] & _ & Hp).
    destruct (_ && _) eqn:E in Hp; [|done]. injection Hp as ->. apply andb_prop in E as [_ E].
    by apply valid_relative_components. }
  apply fmap_Some in Hd as ([k x] & Hm & ->). apply min_by_depth_elem in Hm as [Hm|Hm]; [done|].
  apply list_elem_of_omap in Hm as ([root mount] & Hin & Hx).
  assert (valid_absolute_path root = true) as Hroot.
  { unfold parse_cgroup2_mounts in Hin. apply list_elem_of_omap in Hin as (line & _ & Hl).
    unfold parse_mount_line in Hl. apply bind_Some in Hl as ([lhs rhs] & _ & Hl).
    repeat case_match; try done.
    apply bind_Some in Hl as (r & _ & (mp & _ & Hl)%bind_Some).
    destruct (_ && _) eqn:E in Hl; [|done]. injection Hl as <- _. by apply andb_prop in E as [E _]. }
  destruct (domain_of_mount_chain _ names (root, mount) (k, x) Hn Hroot Hx) as (names' & skipped & Hc & -> & Hs).
  exists relative, names', skipped. cbn [snd] in *. split_and!; [done|done|done| |done].
  unfold ancestors. rewrite Hc. apply ancestor_loop_chain. rewrite length_app, length_map. lia.
Qed.
Definition demo_mounts : string :=
  "29 23 0:26 / /sys/fs/cgroup rw shared:4 - cgroup2 cgroup2 rw
31 23 0:26 /user /mnt/sub\040tree rw - cgroup2 cgroup2 rw".
Lemma ancestors_are_the_chain_witness :
  exists d, from_proc_text "0::/user/app" demo_mounts = Some d /\ length (ancestors d) = 3%nat.
Proof.
  destruct (from_proc_text "0::/user/app" demo_mounts) as [d|] eqn:E; [|vm_compute in E; discriminate E].
  destruct (ancestors_are_the_chain "0::/user/app" demo_mounts d E) as (relative & names & skipped & _ & _ & _ & Ha & _).
  exists d. split; [reflexivity|]. vm_compute in E. injection E as <-. vm_compute. reflexivity.
Defined.

(** ** The snapshot *)

Section Snapshot.
Variable read : path -> option string.
Variable missing : path -> bool.

(** What one directory of the chain says. *)
Definition memory_of (p : path) : option (option Z) := read_memory_limit read (in_dir p "memory.max").
Definition cpu_of (p : path) : option (option CpuLimit) := read_cpu_limit read (in_dir p "cpu.max").
Definition usage_of (p : path) : option Z := read_u64_file read (in_dir p "memory.current").
Definition limits_of (chain : list path) : list Z := omap (fun p => default None (memory_of p)) chain.
Definition headroom_at (p : path) : option Z :=
  x ← default None (memory_of p); u ← usage_of p; Some (saturating_sub x u).
Definition cpu_limits_of (chain : list path) : list CpuLimit := omap (fun p => default None (cpu_of p)) chain.
(** The file can be parsed; only the mount root may lack it. *)
Definition known {A} (answer : path -> option A) (file : string) (mount p : path) : bool :=
  bool_decide (is_Some (answer p)) || bool_decide (p = mount) && missing (in_dir p file).
Definition usage_known (p : path) : bool :=
  negb (bool_decide (is_Some (default None (memory_of p)))) || bool_decide (is_Some (usage_of p)).
Definition least (m : Z) (l : list Z) : Prop := m ∈ l /\ forall x, x ∈ l -> m <= x.
Definition tighter (a b : CpuLimit) : Prop := quota_us a * period_us b <= quota_us b * period_us a.

Definition scan_step (mount : path) (l : Limits) (p : path) : Limits :=
  cpu_step read missing mount p (memory_step read missing mount p l).
Definition pick_cpu (c : option CpuLimit) (limit : CpuLimit) : option CpuLimit :=
  Some (match c with
        | Some current => if cpu_limit_is_tighter current limit then current else limit
        | None => limit
        end).
(** One round, field by field. *)
Lemma scan_step_fields mount l p :
  let l' := scan_step mount l p in
  lm_memory l' = fold_left lower (limits_of [p]) (lm_memory l)
  /\ lm_headroom l' = fold_left lower (omap headroom_at [p]) (lm_headroom l)
  /\ lm_memory_complete l' = lm_memory_complete l && known memory_of "memory.max" mount p
  /\ lm_headroom_complete l' = lm_headroom_complete l && usage_known p
  /\ lm_cpu l' = fold_left pick_cpu (cpu_limits_of [p]) (lm_cpu l)
  /\ lm_cpu_complete l' = lm_cpu_complete l && known cpu_of "cpu.max" mount p.
Proof.
  unfold scan_step, cpu_step, memory_step, limits_of, cpu_limits_of, headroom_at, known, usage_known.
  change (read_memory_limit read (in_dir p "memory.max")) with (memory_of p).
  change (read_u64_file read (in_dir p "memory.current")) with (usage_of p).
  change (read_cpu_limit read (in_dir p "cpu.max")) with (cpu_of p). cbn.
  destruct (memory_of p) as [[m|]|]; [destruct (usage_of p)| |destruct (bool_decide (p = mount) && missing (in_dir p "memory.max"))];
    (destruct (cpu_of p) as [[c|]|]; [| |destruct (bool_decide (p = mount) && missing (in_dir p "cpu.max"))]);
    cbn; rewrite ?andb_true_r, ?andb_false_r; done.
Qed.
Lemma scan_fields mount chain l :
  let l' := fold_left (scan_step mount) chain l in
  lm_memory l' = fold_left lower (limits_of chain) (lm_memory l)
  /\ lm_headroom l' = fold_left lower (omap headroom_at chain) (lm_headroom l)
  /\ lm_memory_complete l' = lm_memory_complete l && forallb (known memory_of "memory.max" mount) chain
  /\ lm_headroom_complete l' = lm_headroom_complete l && forallb usage_known chain
  /\ lm_cpu l' = fold_left pick_cpu (cpu_limits_of chain) (lm_cpu l)
  /\ lm_cpu_complete l' = lm_cpu_complete l && forallb (known cpu_of "cpu.max" mount) chain.
Proof.
  revert l. induction chain as [|p chain IH]; intros l; [cbn; by rewrite !andb_true_r|].
  cbn [fold_left forallb]. destruct (IH (scan_step mount l p)) as (-> & -> & -> & -> & -> & ->).
  destruct (scan_step_fields mount l p) as (-> & -> & -> & -> & -> & ->).
  change (p :: chain) with ([p] ++ chain)%list. unfold limits_of, cpu_limits_of.
  rewrite !omap_app, !fold_left_app, !andb_assoc. done.
Qed.
Lemma least_merge m x y l : least m (Z.min y x :: l) <-> least m (y :: x :: l).
Proof.
  unfold least. rewrite !elem_of_cons. split; intros [Hm Hle]; split.
  - destruct Hm as [->|?]; [destruct (Z.min_spec y x) as [[_ ->]|[_ ->]]; auto|auto].
  - intros z [->|[->|Hz]%elem_of_cons]%elem_of_cons; [..|apply Hle; by right];
      (specialize (Hle (Z.min y x) ltac:(by left)); lia).
  - pose proof (Hle y ltac:(by left)). pose proof (Hle x ltac:(right; by left)).
    destruct Hm as [->|[->|?]]; [left; lia|left; lia|by right].
  - intros z [->|Hz]%elem_of_cons; [|apply Hle; by repeat right].
    pose proof (Hle y ltac:(by left)). pose proof (Hle x ltac:(right; by left)). lia.
Qed.
Lemma lower_least l m0 m : fold_left lower l m0 = Some m <-> least m (option_list m0 ++ l).
Proof.
  revert m0. induction l as [|x l IH]; intros m0; cbn [fold_left].
  - rewrite app_nil_r. unfold least. destruct m0 as [y|]; cbn.
    + split; [|by intros [->%list_elem_of_singleton _]]. intros [= ->].
      split; [by left|by intros x ->%list_elem_of_singleton].
    + split; [done|intros [[]%not_elem_of_nil _]].
  - rewrite IH. unfold lower. destruct m0 as [y|]; [apply least_merge|done].
Qed.
Definition positive (x : CpuLimit) : Prop := 0 < quota_us x /\ 0 < period_us x.
Lemma tighter_trans a b c : positive a -> positive b -> positive c -> tighter a b -> tighter b c -> tighter a c.
Proof.
  unfold positive, tighter. intros [? ?] [? ?] [? ?] Hab Hbc.
  apply (Z.mul_le_mono_pos_r _ _ (period_us b)); [lia|].
  transitivity (quota_us b * period_us a * period_us c); nia.
Qed.
Lemma pick_tightest l c0 c :
  Forall positive (option_list c0 ++ l)%list -> fold_left pick_cpu l c0 = Some c ->
  c ∈ (option_list c0 ++ l)%list /\ forall x, x ∈ (option_list c0 ++ l)%list -> tighter c x.
Proof.
  revert c0. induction l as [|x l IH]; intros c0 Hpos; cbn [fold_left].
  { intros ->. cbn. split; [by left|]. intros x ->%list_elem_of_singleton. unfold tighter. lia. }
  destruct c0 as [y|]; [|apply (IH (Some x)); done]. cbn [option_list app] in *.
  apply Forall_cons in Hpos as [Hy [Hx Hl]%Forall_cons]. unfold pick_cpu at 2.
  assert (forall z, z ∈ [y; x] -> tighter z y -> tighter z x ->
    fold_left pick_cpu l (Some z) = Some c ->
    c ∈ y :: x :: l /\ forall w, w ∈ y :: x :: l -> tighter c w) as Hgo.
  { intros z Hz Hzy Hzx Hf. assert (positive z) as Hpz by (set_unfold; naive_solver).
    destruct (IH (Some z)) as [Hin Hle]; [by constructor|done|]. cbn [option_list app] in *.
    assert (positive c) as Hpc.
    { apply elem_of_cons in Hin as [->|Hin]; [done|]. rewrite Forall_forall in Hl. by apply Hl. }
    pose proof (Hle z ltac:(by left)) as Hcz. split.
    - apply elem_of_cons in Hin as [->|Hin]; [set_unfold; naive_solver|by repeat right].
    - intros w [->|[->|Hw]%elem_of_cons]%elem_of_cons; [by apply (tighter_trans c z y)|by apply (tighter_trans c z x)|]. apply Hle. by right. }
  unfold cpu_limit_is_tighter. destruct (Z.leb_spec (quota_us y * period_us x) (quota_us x * period_us y)).
  - apply Hgo; [by left|unfold tighter; lia|done].
  - apply Hgo; [by right; left|unfold tighter; lia..].
Qed.
Lemma cpu_limits_positive chain : Forall positive (cpu_limits_of chain).
Proof.
  apply Forall_forall. intros c (p & _ & Hc)%list_elem_of_omap. unfold cpu_of, read_cpu_limit, parse_cpu_limit in Hc.
  destruct (read _) as [text|]; [|done]. cbn in Hc. destruct (split_whitespace text) as [|q [|per [|]]]; try done.
  destruct (parse_unsigned u64_max per) as [pe|] eqn:Ep; [|done]. cbn in Hc. apply parse_unsigned_range in Ep.
  destruct (Z.eqb_spec pe 0); [done|]. destruct (String.eqb q "max"); [done|].
  destruct (parse_unsigned u64_max q) as [qu|]; [|done]. cbn in Hc. destruct (Z.ltb_spec 0 qu); [|done].
  cbn in Hc. injection Hc as <-. split; cbn; lia.
Qed.

(** A reported limit is the tightest of the whole ancestor chain.  The memory
    limit is reported exactly when the hierarchy is fully visible and every
    [memory.max] on the way up could be read (the mount root may lack it), and it
    is then the least of them; the headroom is the least [limit - usage], reported
    only when every limited ancestor's usage was readable too; a reported CPU
    quota is one of the chain's and no ancestor's quota per period is smaller. *)
Theorem snapshot_reports_tightest d :
  let s := snapshot read missing d in
  let chain := ancestors d in
  let memory_known := rd_ancestor_limits_complete d && forallb (known memory_of "memory.max" (rd_mount_point d)) chain in
  (forall m, rs_memory_limit_bytes s = Some m <-> memory_known = true /\ least m (limits_of chain))
  /\ (forall h, rs_memory_headroom_bytes s = Some h <->
        memory_known = true /\ forallb usage_known chain = true /\ least h (omap headroom_at chain))
  /\ (forall c, rs_cpu_limit s = Some c ->
        rd_ancestor_limits_complete d && forallb (known cpu_of "cpu.max" (rd_mount_point d)) chain = true
        /\ c ∈ cpu_limits_of chain /\ forall x, x ∈ cpu_limits_of chain -> tighter c x).
Proof.
  cbv zeta. unfold snapshot. cbn [rs_memory_limit_bytes rs_memory_headroom_bytes rs_cpu_limit].
  change (scan_limits read missing d) with (fold_left (scan_step (rd_mount_point d)) (ancestors d)
    {| lm_memory := None; lm_headroom := None; lm_memory_complete := rd_ancestor_limits_complete d;
       lm_headroom_complete := true; lm_cpu := None; lm_cpu_complete := rd_ancestor_limits_complete d |}).
  destruct (scan_fields (rd_mount_point d) (ancestors d)
    {| lm_memory := None; lm_headroom := None; lm_memory_complete := rd_ancestor_limits_complete d;
       lm_headroom_complete := true; lm_cpu := None; lm_cpu_complete := rd_ancestor_limits_complete d |})
    as (-> & -> & -> & -> & -> & ->).
  cbn [lm_memory lm_headroom lm_memory_complete lm_headroom_complete lm_cpu lm_cpu_complete].
  split_and!.
  - intros m. destruct (_ && _); [rewrite lower_least; naive_solver|naive_solver].
  - intros h. destruct (rd_ancestor_limits_complete d && _); cbn [andb]; [|naive_solver].
    destruct (forallb usage_known (ancestors d)); [rewrite lower_least; naive_solver|naive_solver].
  - intros c. destruct (_ && _); [|done]. intros Hc. split; [done|].
    apply (pick_tightest _ None); [apply cpu_limits_positive|done].
Qed.
End Snapshot.
(** The kernel's encoding of a mountinfo field: the four bytes that would break
    its line are written as octal escapes. *)
Definition mangle_byte (c : ascii) : string :=
  match c with
  | "009"%char => "\011" | "010"%char => "\012" | " "%char => "\040" | "\"%char => "\134"
  | c => String c ""
  end.
Fixpoint mangle (s : string) : string :=
  match s with "" => "" | String c s => mangle_byte c ++ mangle s end.
Lemma decode_mangle s : decode_bytes (mangle s) = Some s.
Proof.
  induction s as [|c s IH]; [done|]. cbn [mangle].
  assert (forall r, decode_bytes r = Some s -> decode_bytes (mangle_byte c ++ r) = Some (String c s)) as Hc.
  { intros r Hr. destruct c as [[] [] [] [] [] [] [] []]; cbn -[decode_bytes]; cbn; by rewrite Hr. }
  by apply Hc.
Qed.

(** ** Machine widths *)

Definition fits (max : Z) (o : option Z) : Prop := forall v, o = Some v -> 0 <= v <= max.
Definition cpu_fits (c : CpuLimit) : Prop :=
  1 <= quota_us c <= u64_max /\ 1 <= period_us c <= u64_max /\ 1 <= rounded_cpus c <= u32_max.
Definition events_fit (e : MemoryEvents) : Prop :=
  Forall (fun v => 0 <= v <= u64_max)
    [ev_low e; ev_high e; ev_max e; ev_oom e; ev_oom_kill e; ev_oom_group_kill e].
(** A [ResourceSnapshot] whose fields are values of the types the source declares. *)
Record snapshot_typed (s : ResourceSnapshot) : Prop := {
  typed_limit : fits u64_max (rs_memory_limit_bytes s);
  typed_cpu : forall c, rs_cpu_limit s = Some c -> cpu_fits c;
  typed_cpus : fits u32_max (rs_cpuset_cpus s);
  typed_current : fits u64_max (rs_memory_current_bytes s);
  typed_headroom : fits u64_max (rs_memory_headroom_bytes s);
  typed_events : forall e, rs_current_memory_events s = Some e -> events_fit e;
}.

Lemma parse_cpu_limit_fits text c : parse_cpu_limit text = Some (Some c) -> cpu_fits c.
Proof.
  unfold parse_cpu_limit. destruct (split_whitespace text) as [|q [|p [|]]]; try done.
  destruct (parse_unsigned u64_max p) as [pe|] eqn:Ep; [|done]. cbn. apply parse_unsigned_range in Ep.
  destruct (Z.eqb_spec pe 0); [done|]. destruct (String.eqb q "max"); [done|].
  destruct (parse_unsigned u64_max q) as [qu|] eqn:Eq; [|done]. cbn. apply parse_unsigned_range in Eq.
  destruct (Z.ltb_spec 0 qu); [|done]. intros [= <-]. unfold cpu_fits, rounded_cpus, div_ceil; cbn.
  assert (1 <= (qu + pe - 1) / pe) by (apply Z.div_le_lower_bound; lia). unfold u32_max. lia.
Qed.
Lemma set_event_fits k v e : 0 <= v <= u64_max -> events_fit e -> events_fit (set_event k v e).
Proof.
  unfold events_fit. rewrite !Forall_cons. intros Hv (?&?&?&?&?&?&?). cbn -[String.eqb].
  split_and!; [destruct (String.eqb _ _); lia..|constructor].
Qed.
Lemma event_lines_fit ls e found e' found' :
  events_fit e -> event_lines ls e found = Some (e', found') -> events_fit e'.
Proof.
  revert e found. induction ls as [|l ls IH]; intros e found He; cbn; [by intros [= <- _]|].
  destruct (String.eqb (trim l) ""); [by apply IH|].
  destruct (split_whitespace l) as [|k [|v [|]]]; try done.
  destruct (parse_unsigned u64_max v) as [n|] eqn:En; [|done]. cbn. apply parse_unsigned_range in En.
  by apply IH, set_event_fits.
Qed.

Definition limits_fit (l : Limits) : Prop :=
  fits u64_max (lm_memory l) /\ fits u64_max (lm_headroom l) /\ forall c, lm_cpu l = Some c -> cpu_fits c.
Lemma lower_fits a b : fits u64_max a -> 0 <= b <= u64_max -> fits u64_max (lower a b).
Proof. intros Ha Hb v [= <-]. destruct a as [a|]; [specialize (Ha _ eq_refl)|]; lia. Qed.
Section Typed.
Variable read : path -> option string.
Variable missing : path -> bool.

Lemma read_u64_file_fits p : fits u64_max (read_u64_file read p).
Proof. intros v. unfold read_u64_file. destruct (read p); [|done]. apply parse_unsigned_range. Qed.
Lemma memory_step_fits m p l : limits_fit l -> limits_fit (memory_step read missing m p l).
Proof.
  intros (L1 & L2 & L3). unfold memory_step, read_memory_limit.
  destruct (read (in_dir p "memory.max")) as [text|]; cbn [mbind option_bind]; [|by case_match].
  destruct (String.eqb (trim text) "max"); [done|].
  destruct (parse_unsigned u64_max (trim text)) as [v|] eqn:Ev; cbn; [|by case_match].
  apply parse_unsigned_range in Ev. split; [by apply lower_fits|]. split; [|done]. cbn.
  destruct (read_u64_file read _) as [c|] eqn:Ec; [|done].
  apply read_u64_file_fits in Ec. apply lower_fits; [done|]. unfold saturating_sub. lia.
Qed.
Lemma cpu_step_fits m p l : limits_fit l -> limits_fit (cpu_step read missing m p l).
Proof.
  intros (L1 & L2 & L3). unfold cpu_step, read_cpu_limit.
  destruct (read (in_dir p "cpu.max")) as [text|]; cbn [mbind option_bind]; [|by case_match].
  destruct (parse_cpu_limit text) as [[c|]|] eqn:Ec; [|done|by case_match].
  apply parse_cpu_limit_fits in Ec. split; [done|]. split; [done|]. cbn. intros x [= <-].
  destruct (lm_cpu l) as [y|]; [|done]. destruct (cpu_limit_is_tighter y c); auto.
Qed.

(** Whatever the kernel's files contain, a snapshot is well typed: every byte
    count and event counter is a [u64], the number of CPUs a [u32], and a reported
    quota and period are positive, so the rounded CPU count is at least one. *)
Theorem snapshot_well_typed domain : snapshot_typed (from_domain read missing domain).
Proof.
  destruct domain as [d|]; [|by split]. cbn [from_domain].
  assert (limits_fit (scan_limits read missing d)) as (L1 & L2 & L3).
  { unfold scan_limits. apply fold_left_inv; [by split|]. intros l p _ H. by apply cpu_step_fits, memory_step_fits. }
  split; cbn.
  - by destruct (lm_memory_complete _).
  - by destruct (lm_cpu_complete _).
  - intros v. destruct (read _) as [text|]; [|done]. cbn.
    destruct (parse_cpu_ranges text) as [rs|] eqn:Er; [|by unfold parse_cpuset_cpus; rewrite Er].
    rewrite (parse_cpuset_union _ _ Er). cbv zeta. destruct (Z.leb_spec (Z.of_nat (size (union_of (sort_by range_leb rs)))) u32_max); [|done].
    intros [= <-]. lia.
  - apply read_u64_file_fits.
  - by destruct (_ && _).
  - intros e. destruct (read _) as [text|]; [|done]. cbn. unfold parse_memory_events.
    destruct (event_lines _ _ _) as [[e' []]|] eqn:Ee; [|done|done]. cbn. intros [= <-].
    eapply event_lines_fit; [|exact Ee]. by repeat constructor.
Qed.
End Typed.
