(* ===== verification/Scheduler.v ===== *)
(** * The miss-path scheduler

    [src/scheduler.rs]: flights that coalesce compiles of one key, the pool of
    memory-weighted permit slots shared by compiles and tests, and the waits for
    both.  A lock attempt answers [Ok true] when it was taken, [Ok false] when
    another process holds it.  What the environment answers to the [n]-th attempt
    (locks, clock, cancellation) is a function of [n]; a loop is run for a number
    of rounds, and [None] means it is still waiting. *)

From S2P Require Import Prelude Strings Codec StorePolicy Evict Cgroup.
#[local] Open Scope string_scope.
#[local] Open Scope Z_scope.

Definition UNMEASURED_COMPILE_WEIGHT : Z := 1.
Definition UNMEASURED_LINK_WEIGHT : Z := 2.
Definition RSS_BYTES_PER_SLOT : Z := 512 * 1024 * 1024.

(** ** Flights *)

Record FlightIdentity := {
  fi_compiler : string;
  fi_crate_name : string;
  fi_output_kind : string;
  fi_cache_key : string;
}.
(** [FlightIdentity::rustc], [cc], [with_key] *)
Definition flight_rustc (crate_name : string) (crate_types : list string) (emits_link : bool)
    : FlightIdentity :=
  let types := dedup (sort_by String.leb crate_types) in
  let emit := if emits_link then "link" else "metadata" in
  {| fi_compiler := "rustc"; fi_crate_name := crate_name;
     fi_output_kind := if bool_decide (types = []) then emit else join_with "," types ++ "|" ++ emit;
     fi_cache_key := "" |}.
Definition flight_cc (source_name : string) : FlightIdentity :=
  {| fi_compiler := "cc"; fi_crate_name := source_name; fi_output_kind := "object"; fi_cache_key := "" |}.
Definition with_key (cache_key : string) (f : FlightIdentity) : FlightIdentity :=
  {| fi_compiler := fi_compiler f; fi_crate_name := fi_crate_name f;
     fi_output_kind := fi_output_kind f; fi_cache_key := cache_key |}.
(** The bytes [digest] hashes. *)
Definition nul : string := String "000" "".
Definition flight_preimage (f : FlightIdentity) : string :=
  fi_compiler f ++ nul ++ fi_crate_name f ++ nul ++ fi_output_kind f ++ nul ++ fi_cache_key f.
Definition flight_digest (blake3_hex : string -> string) (f : FlightIdentity) : string :=
  blake3_hex (flight_preimage f).

(** ** Weights *)

(** [slot_bytes] *)
Definition slot_bytes (memory : option Z) (pool_size : Z) : Z :=
  match memory with
  | Some memory => Z.max (memory / Z.max pool_size 1) RSS_BYTES_PER_SLOT
  | None => RSS_BYTES_PER_SLOT
  end.
(** [detected_memory] on Linux: the text of [/proc/meminfo] and the limit of the
    cgroup. *)
Definition detected_memory (meminfo : option string) (limit : option Z) : option Z :=
  match meminfo ≫= meminfo_total_bytes, limit with
  | Some total, Some limit => Some (Z.min total limit)
  | Some total, None => Some total
  | None, limit => limit
  end.
(** [weight_in_slots]; [clamp] panics when the maximum is below the minimum, which
    a pool of at least one slot rules out. *)
Definition weight_in_slots (rss_bytes pool_size slot_bytes : Z) : Z :=
  clamp 1 pool_size (Z.min (div_ceil rss_bytes slot_bytes) u32_max).
Definition weight_from_rss (memory : option Z) (rss_bytes pool_size : Z) : Z :=
  weight_in_slots rss_bytes pool_size (slot_bytes memory pool_size).
(** [read_weight]: the text of the weight file. *)
Definition read_weight (text : option string) : option Z :=
  t ← text; parse_unsigned u64_max (trim t).
(** [write_weight]: the text written. *)
Definition weight_text (rss : Z) : string := fmt_dec rss.
(** [rss_from_getrusage] and [rss_units_to_bytes], off macOS. *)
Definition rss_from_getrusage (rc ru_maxrss : Z) : option Z :=
  if negb (rc =? 0) then None
  else if ru_maxrss <=? 0 then None
  else Some (saturating_mul u64_max ru_maxrss 1024).
(** [weight_for] *)
Definition weight_for (memory : option Z) (recorded : option Z) (is_link : bool) (pool_size : Z) : Z :=
  match recorded with
  | Some rss => weight_from_rss memory rss pool_size
  | None => Z.min (if is_link then UNMEASURED_LINK_WEIGHT else UNMEASURED_COMPILE_WEIGHT) pool_size
  end.
(** ** Memory pressure ([scheduler/pressure.rs]) *)

Definition SAMPLE_FOR : Z := 250.
(** [sampled]: [last] is the thread's last reading. *)
Definition sampled (now : Z) (read : bool) (last : option (Z * bool)) : bool * option (Z * bool) :=
  match last with
  | Some (at_, pressured) =>
      if saturating_sub now at_ <? SAMPLE_FOR then (pressured, last) else (read, Some (now, read))
  | None => (read, Some (now, read))
  end.
(** [now]: the invocation's own switch, else the process's. *)
Definition pressure_now (invocation : option bool) (enabled : bool) (now : Z) (read : bool)
    (last : option (Z * bool)) : bool * option (Z * bool) :=
  if negb (default enabled invocation) then (false, last) else sampled now read last.
(** [pressured_from]: the readings of the two files. *)
Definition pressured_from (cgroup host : option bool) : bool :=
  match cgroup with Some b => b | None => default false host end.
(** [pressure::weight] *)
Definition pressure_weight (weight pool : Z) (pressured : bool) : Z := if pressured then pool else weight.
(** [test_floor] *)
Definition test_floor (memory : option Z) (recorded : option Z) (pool_size : Z) : Z :=
  match recorded with
  | Some rss => weight_in_slots rss u32_max (slot_bytes memory pool_size)
  | None => 1
  end.

(** ** Needs *)

(** [reserve_for], [test_need], [compile_need] *)
Definition reserve_for (pool : Z) : Z := Z.max (pool / 4) 1.
Definition test_need (want pool : Z) : Z := Z.min want (saturating_sub pool (reserve_for pool)).
Definition compile_need (weight pool : Z) (waited : bool) (tests_held : Z) : Z :=
  let need := clamp 1 pool weight in
  let reserve := reserve_for pool in
  if waited && (reserve <? need) then Z.min need (Z.max (saturating_sub pool tests_held) reserve)
  else need.
(** [slot_is_held]: what opening the file gave, then the shared try-lock. *)
Inductive OpenFile := Opened | OpenNotFound | OpenFailed.
Inductive TryLock := LockTaken | WouldBlock | LockError.
Definition slot_is_held (file : OpenFile) (lock : TryLock) : option bool :=
  match file with
  | OpenNotFound => Some false
  | OpenFailed => None
  | Opened => match lock with LockTaken => Some false | WouldBlock => Some true | LockError => None end
  end.
(** [fs::read_dir]; an entry is the probe of its file, [None] where it cannot be read. *)
Inductive ReadDir := Entries (probes : list (option bool)) | DirNotFound | DirFailed.
(** [tests_held] *)
Fixpoint count_markers (probes : list (option bool)) (held : Z) : Z :=
  match probes with
  | [] => held
  | Some true :: probes => count_markers probes (held + 1)
  | Some false :: probes => count_markers probes held
  | None :: _ => u32_max
  end.
Definition tests_held (dir : ReadDir) : Z :=
  match dir with Entries probes => count_markers probes 0 | DirNotFound => 0 | DirFailed => u32_max end.
(** [permits_in_use] *)
Fixpoint count_held (probes : list (option bool)) (held : Z) : option Z :=
  match probes with
  | [] => Some held
  | Some b :: probes => count_held probes (held + if (b : bool) then 1 else 0)
  | None :: _ => None
  end.
Definition permits_in_use (dir : ReadDir) (root_is_file : bool) : option Z :=
  match dir with
  | Entries probes => count_held probes 0
  | DirNotFound => if root_is_file then None else Some 0
  | DirFailed => None
  end.
(** [lease_covers]; [parent] and [canonicalize] are the standard library's. *)
Definition lease_covers (parent canonicalize : string -> option string) (held : string -> option bool)
    (lease : option string) (root : string) : bool :=
  match lease with
  | None => false
  | Some lease =>
      match parent lease with
      | None => false
      | Some dir =>
          match canonicalize dir, canonicalize (join root "tests") with
          | Some dir, Some tests => bool_decide (dir = tests) && bool_decide (held lease = Some true)
          | _, _ => false
          end
      end
  end.

(** ** Scans *)

Inductive Collect := CollectReady (slots : list Z) | CollectBusy (busy : list Z).
Section Scan.
Context {E : Type}.
(** [try_collect_slots]: the loop over the indices that are left.  On [Busy] and
    on an error the slots taken so far are dropped, which unlocks them. *)
Fixpoint collect (acquire : Z -> result E bool) (indices : list Z) (need : nat) (slots busy : list Z)
    : result E Collect :=
  match indices with
  | [] => Ok (CollectBusy busy)
  | index :: indices =>
      match acquire index with
      | Err e => Err e
      | Ok true =>
          let slots := (slots ++ [index])%list in
          if (length slots =? need)%nat then Ok (CollectReady slots)
          else collect acquire indices need slots busy
      | Ok false => collect acquire indices need slots (busy ++ [index])%list
      end
  end.
Definition try_collect_slots (acquire : Z -> result E bool) (lo hi : Z) (need : Z) : result E Collect :=
  collect acquire (seqZ lo (hi - lo)) (Z.to_nat need) [] [].
(** [take_free_slots] *)
Definition take_free_slots (acquire : Z -> result E bool) (lo hi : Z) : list Z :=
  List.filter (fun i => match acquire i with Ok true => true | _ => false end) (seqZ lo (hi - lo)).

Inductive WaitStep := StepReady (slots : list Z) | StepBusy (busy : list Z) | StepStop.
(** [collect_permits]; [expired] is [start.elapsed() >= wait_timeout]. *)
Definition collect_permits (acquire : Z -> result E bool) (lo hi need : Z) (expired : bool) : WaitStep :=
  match try_collect_slots acquire lo hi need with
  | Ok (CollectReady slots) => StepReady slots
  | Ok (CollectBusy busy) => if expired then StepStop else StepBusy busy
  | Err _ => StepStop
  end.

(** What one round of the wait meets. *)
Record Round := {
  rd_cancelled : bool;
  rd_first : Z -> result E bool;
  rd_first_expired : bool;
  rd_second : Z -> result E bool;
  rd_second_expired : bool;
}.
(** [wait_for_permit]: [Some None] runs without a permit. *)
Fixpoint wait_for_permit (rounds : nat) (env : nat -> Round) (n : nat) (lo hi : Z)
    (need : nat -> bool -> Z) (waited : bool) : option (option (list Z)) :=
  match rounds with
  | O => None
  | S rounds =>
      let r := env n in
      if rd_cancelled r then Some None else
      let asking := Z.max (need n waited) 1 in
      match collect_permits (rd_first r) lo hi asking (rd_first_expired r) with
      | StepReady slots => Some (Some slots)
      | StepStop => Some None
      | StepBusy [] => wait_for_permit rounds env (S n) lo hi need true
      | StepBusy _ =>
          match collect_permits (rd_second r) lo hi asking (rd_second_expired r) with
          | StepReady slots => Some (Some slots)
          | StepStop => Some None
          | StepBusy _ => wait_for_permit rounds env (S n) lo hi need true
          end
      end
  end.
(** [acquire_permit]: pressure and the slots tests hold are asked every round. *)
Definition acquire_permit (rounds : nat) (env : nat -> Round) (weight pool : Z)
    (pressured : nat -> bool) (held : nat -> Z) : option (option (list Z)) :=
  wait_for_permit rounds env 0 0 pool
    (fun n waited => compile_need (pressure_weight weight pool (pressured n)) pool waited (held n)) false.

(** [acquire_within] and [wait_for_lock]: what attempt [n] meets, and the clock
    since the start when the attempt is over and when the nap is taken. *)
Record Attempt := {
  at_cancelled : option E;
  at_lock : result E bool;
  at_elapsed : Z;
  at_nap_elapsed : Z;
}.
(** How long attempt [n] sleeps, in milliseconds. *)
Definition nap (env : nat -> Attempt) (timeout poll : Z) (n : nat) : Z :=
  Z.min (Z.min (lock_poll_interval (Z.of_nat n)) poll) (saturating_sub timeout (at_nap_elapsed (env n))).
Fixpoint acquire_within (rounds : nat) (env : nat -> Attempt) (n : nat) (timeout : Z)
    : option (result E bool) :=
  match rounds with
  | O => None
  | S rounds =>
      match at_cancelled (env n), at_lock (env n) with
      | Some e, _ => Some (Err e)
      | None, Err e => Some (Err e)
      | None, Ok true => Some (Ok true)
      | None, Ok false =>
          if timeout <=? at_elapsed (env n) then Some (Ok false)
          else acquire_within rounds env (S n) timeout
      end
  end.
(** [acquire_discovery]: one attempt, then the wait; the second component says
    whether there was one. *)
Definition acquire_discovery (rounds : nat) (first second : nat -> Attempt) (timeout : Z)
    : option (result E (bool * bool)) :=
  match acquire_within rounds first 0 0 with
  | None => None
  | Some (Err e) => Some (Err e)
  | Some (Ok true) => Some (Ok (true, false))
  | Some (Ok false) =>
      match acquire_within rounds second 0 timeout with
      | None => None
      | Some (Err e) => Some (Err e)
      | Some (Ok taken) => Some (Ok (taken, true))
      end
  end.
(** [join_discovery_flight]: whether the lock was taken, and [waited]. *)
Definition join_discovery_flight (rounds : nat) (first second : nat -> Attempt) (timeout : Z)
    : option (bool * bool) :=
  match acquire_discovery rounds first second timeout with
  | None => None
  | Some (Ok found) => Some found
  | Some (Err _) => Some (false, false)
  end.

Inductive TestWant := Fixed (slots : Z) | Elastic (floor : Z).
Record TestLease := { tl_slots : list Z; tl_marker : Z }.
Definition MARKER_WAIT : Z := 1000.
(** [lock_marker]: whether the marker was locked. *)
Definition lock_marker (rounds : nat) (env : nat -> Attempt) (wait_timeout : Z) : option bool :=
  match acquire_within rounds env 0 (Z.min MARKER_WAIT wait_timeout) with
  | None => None
  | Some (Ok taken) => Some taken
  | Some (Err _) => Some false
  end.
Fixpoint lock_markers (rounds : nat) (env : Z -> nat -> Attempt) (wait_timeout : Z) (slots : list Z)
    : option bool :=
  match slots with
  | [] => Some true
  | i :: slots =>
      match lock_marker rounds (env i) wait_timeout with
      | Some true => lock_markers rounds env wait_timeout slots
      | other => other
      end
  end.
(** [acquire_test_lease]: [free] are the locks the elastic pass meets, [markers i]
    the attempts at the marker of slot [i]. *)
Definition acquire_test_lease (rounds : nat) (env : nat -> Round) (pool : Z) (want : TestWant)
    (free : Z -> result E bool) (markers : Z -> nat -> Attempt) (wait_timeout : Z)
    : option (option TestLease) :=
  let '(floor, elastic) := match want with Fixed s => (s, false) | Elastic f => (f, true) end in
  let need := test_need floor pool in
  if need =? 0 then Some None else
  match wait_for_permit rounds env 0 (reserve_for pool) pool (fun _ _ => need) false with
  | None => None
  | Some None => Some None
  | Some (Some slots) =>
      let slots := (slots ++ if elastic then take_free_slots free (reserve_for pool) pool else [])%list in
      match lock_markers rounds markers wait_timeout slots with
      | None => None
      | Some false => Some None
      | Some true =>
          Some (match slots with
                | [] => None
                | s :: rest => Some {| tl_slots := slots; tl_marker := fold_left Z.min rest s |}
                end)
      end
  end.

Inductive FlightJoin := Owner | Waited | FailOpen.
(** [join_flight]: the first attempt, then the wait. *)
Definition join_flight (rounds : nat) (first : result E bool) (env : nat -> Attempt) (timeout : Z)
    : option FlightJoin :=
  match first with
  | Ok true => Some Owner
  | Ok false =>
      match acquire_within rounds env 0 timeout with
      | None => None
      | Some (Ok true) => Some Waited
      | Some (Ok false) | Some (Err _) => Some FailOpen
      end
  | Err _ => Some FailOpen
  end.
End Scan.
Arguments Round : clear implicits.
Arguments Attempt : clear implicits.

(** ** A miss *)

Record MissGuard := { mg_permit : option (list Z); mg_flight : bool; mg_weights : bool }.
Definition empty_guard : MissGuard := {| mg_permit := None; mg_flight := false; mg_weights := false |}.
(** [MissGuard::compiling] *)
Definition compiling (permit : option (list Z)) : MissGuard :=
  {| mg_permit := permit; mg_flight := true; mg_weights := true |}.
Inductive BeginMiss := CompileMiss (guard : MissGuard) | Recheck.
(** [Scheduler::open_with]: the pool, when the directories could be created. *)
Definition open_with (dirs_created : bool) (pool_size : Z) : option Z :=
  if dirs_created then Some (Z.max pool_size 1) else None.

Section Miss.
Context {E : Type}.
(** What a miss meets: the locks of its flight, whether a lease covers the
    process, its weight file, the machine's memory and the rounds of the wait. *)
Record MissEnv := {
  me_flight : result E bool;
  me_wait : nat -> Attempt E;
  me_timeout : Z;
  me_covered : bool;
  me_weight : option string;
  me_memory : option Z;
  me_rounds : nat -> Round E;
  me_pressured : nat -> bool;
  me_tests : nat -> ReadDir;
}.
Definition miss_permit (rounds : nat) (e : MissEnv) (pool : Z) (is_link : bool) : option (option (list Z)) :=
  if me_covered e then Some None
  else acquire_permit rounds (me_rounds e) (weight_for (me_memory e) (read_weight (me_weight e)) is_link pool)
         pool (me_pressured e) (fun n => tests_held (me_tests e n)).
(** [Scheduler::begin_miss] *)
Definition scheduler_begin_miss (rounds : nat) (e : MissEnv) (pool : Z) (is_link : bool) : option BeginMiss :=
  match join_flight rounds (me_flight e) (me_wait e) (me_timeout e) with
  | None => None
  | Some Owner =>
      match miss_permit rounds e pool is_link with
      | None => None
      | Some permit => Some (CompileMiss (compiling permit))
      end
  | Some Waited => Some Recheck
  | Some FailOpen => Some (CompileMiss empty_guard)
  end.
(** [begin_miss] *)
Definition begin_miss (rounds : nat) (e : MissEnv) (enabled dirs_created : bool) (pool_size : Z)
    (is_link : bool) : option BeginMiss :=
  if negb enabled then Some (CompileMiss empty_guard) else
  match open_with dirs_created pool_size with
  | Some pool => scheduler_begin_miss rounds e pool is_link
  | None => Some (CompileMiss empty_guard)
  end.
(** [Scheduler::keyless_compile] *)
Definition keyless_compile (rounds : nat) (e : MissEnv) (pool : Z) (is_link : bool) : option MissGuard :=
  match miss_permit rounds e pool is_link with
  | None => None
  | Some permit => Some {| mg_permit := permit; mg_flight := false; mg_weights := true |}
  end.
(** [begin_keyless_compile] *)
Definition begin_keyless_compile (rounds : nat) (e : MissEnv) (enabled dirs_created : bool) (pool_size : Z)
    (is_link : bool) : option MissGuard :=
  if negb enabled then Some empty_guard else
  match open_with dirs_created pool_size with
  | Some pool => keyless_compile rounds e pool is_link
  | None => Some empty_guard
  end.
End Miss.
Arguments MissEnv : clear implicits.

(** ** The shared pool

    Every process, one lock attempt at a time. *)

Inductive JobKind := CompileJob | TestJob.
Inductive Phase := Idle | Scanning (next : Z) | Running.
Record Job := { job_kind : JobKind; job_need : Z; job_held : list Z; job_phase : Phase }.
Record Pool := { slots_of : gmap Z nat; jobs : gmap nat Job }.

Definition range_low (pool : Z) (kind : JobKind) : Z :=
  match kind with CompileJob => 0 | TestJob => reserve_for pool end.
Definition set_job (p : nat) (j : Job) (s : Pool) : Pool :=
  {| slots_of := slots_of s; jobs := <[p := j]> (jobs s) |}.
Definition with_phase (need : Z) (held : list Z) (ph : Phase) (j : Job) : Job :=
  {| job_kind := job_kind j; job_need := need; job_held := held; job_phase := ph |}.
(** Unlocking everything a process holds: its drop, or the kernel when it dies. *)
Definition unlock (held : list Z) (m : gmap Z nat) : gmap Z nat := fold_left (fun m i => delete i m) held m.
(** One body of the loop of [try_collect_slots] by process [p]. *)
Definition try_slot (p : nat) (j : Job) (next : Z) (s : Pool) : Pool :=
  match slots_of s !! next with
  | Some _ => set_job p (with_phase (job_need j) (job_held j) (Scanning (next + 1)) j) s
  | None =>
      let held := (job_held j ++ [next])%list in
      {| slots_of := <[next := p]> (slots_of s);
         jobs := <[p := with_phase (job_need j) held
                    (if Z.of_nat (length held) =? job_need j then Running else Scanning (next + 1)) j]> (jobs s) |}
  end.
Definition end_scan (p : nat) (j : Job) (s : Pool) : Pool :=
  {| slots_of := unlock (job_held j) (slots_of s); jobs := <[p := with_phase (job_need j) [] Idle j]> (jobs s) |}.

Definition take_extra (p : nat) (j : Job) (i : Z) (s : Pool) : Pool :=
  {| slots_of := <[i := p]> (slots_of s);
     jobs := <[p := with_phase (job_need j) (job_held j ++ [i])%list Running j]> (jobs s) |}.
Definition leave (p : nat) (j : Job) (s : Pool) : Pool :=
  {| slots_of := unlock (job_held j) (slots_of s); jobs := delete p (jobs s) |}.

(** The steps of the pool: a process arrives, starts a scan with the need of its
    kind, tries the next slot, ends a scan it could not fill, takes one more free
    slot as an elastic test, and leaves (it is done, gave the wait up or died). *)
Inductive pool_step (pool : Z) : Pool -> Pool -> Prop :=
| pool_arrive s p kind :
    jobs s !! p = None ->
    pool_step pool s (set_job p {| job_kind := kind; job_need := 1; job_held := []; job_phase := Idle |} s)
| pool_start_compile s p j weight waited held :
    jobs s !! p = Some j -> job_kind j = CompileJob -> job_phase j = Idle ->
    pool_step pool s
      (set_job p (with_phase (Z.max (compile_need weight pool waited held) 1) [] (Scanning 0) j) s)
| pool_start_test s p j want :
    jobs s !! p = Some j -> job_kind j = TestJob -> job_phase j = Idle -> test_need want pool <> 0 ->
    pool_step pool s
      (set_job p (with_phase (Z.max (test_need want pool) 1) [] (Scanning (reserve_for pool)) j) s)
| pool_try s p j next :
    jobs s !! p = Some j -> job_phase j = Scanning next -> next < pool ->
    pool_step pool s (try_slot p j next s)
| pool_end_scan s p j next :
    jobs s !! p = Some j -> job_phase j = Scanning next -> pool <= next ->
    pool_step pool s (end_scan p j s)
| pool_elastic s p j i :
    jobs s !! p = Some j -> job_kind j = TestJob -> job_phase j = Running ->
    slots_of s !! i = None -> reserve_for pool <= i < pool ->
    pool_step pool s (take_extra p j i s)
| pool_leave s p j :
    jobs s !! p = Some j -> pool_step pool s (leave p j s).
Definition empty_pool : Pool := {| slots_of := ∅; jobs := ∅ |}.
Definition pool_reachable (pool : Z) (s : Pool) : Prop := rtc (pool_step pool) empty_pool s.

(** ** Sleeping until a release ([scheduler/permit_wait.rs], on Linux)

    [notify] bumps a shared 32-bit word and wakes its sleepers after the slots are
    unlocked; a waiter samples the word, scans once more and sleeps only while the
    word is unchanged.  One waiter is followed, which needs [wk_need] of the slots
    of its range; [wk_free] of them are unlocked and [wk_held] are held by others.
    [wk_pending] are the processes between the two halves of [Permit::drop],
    [wk_last] is how slots were last released, and [wk_bumps] counts the bumps
    since the sample.  The waiter can open the wake file. *)

(** How slots are unlocked: by [Permit::drop], which bumps the word if it can
    open the wake file; by the end of a [TestLease]; by a scan that gives back
    what is not enough ([try_collect_slots]); by the death of the holder. *)
Inductive Release := PermitDropped (opened : bool) | LeaseDropped | ScanGaveUp | HolderKilled.
Definition notifies (r : Release) : bool := match r with PermitDropped opened => opened | _ => false end.

Inductive Waiter := Awake | Sampled (seen : Z) | Parking (seen : Z) | Asleep (seen : Z) | Served.
Record Wake := {
  wk_word : Z;
  wk_need : nat;
  wk_free : nat;
  wk_held : nat;
  wk_pending : nat;
  wk_last : Release;
  wk_waiter : Waiter;
  wk_bumps : Z;
}.
#[export] Instance eta_Wake : Eta Wake := fun w =>
  Build_Wake (wk_word w) (wk_need w) (wk_free w) (wk_held w) (wk_pending w) (wk_last w) (wk_waiter w) (wk_bumps w).
#[local] Open Scope record_scope.
(** [linux::bump]: [fetch_add(1)], then [FUTEX_WAKE]. *)
Definition bump_word (w : Wake) : Wake :=
  w <| wk_word ::= fun x => (x + 1) mod 2 ^ 32 |> <| wk_pending ::= pred |>
    <| wk_waiter ::= fun x => match x with Asleep _ => Awake | x => x end |> <| wk_bumps ::= fun n => n + 1 |>.
(** [permit_wait::snapshot] *)
Definition sample_word (w : Wake) : Wake := w <| wk_waiter := Sampled (wk_word w) |> <| wk_bumps := 0 |>.
(** The second scan of [wait_for_permit]: it takes the slots, or gives back those it locked. *)
Definition scan_again (seen : Z) (w : Wake) : Wake :=
  if (wk_need w <=? wk_free w)%nat then w <| wk_free ::= fun n => (n - wk_need w)%nat |> <| wk_waiter := Served |>
  else w <| wk_waiter := Parking seen |>.
(** [linux::wait]: [FUTEX_WAIT] returns at once unless the word is [seen]. *)
Definition park (seen : Z) (w : Wake) : Wake := w <| wk_waiter := if wk_word w =? seen then Asleep seen else Awake |>.
(** Another process unlocks [k] slots, or locks them. *)
Definition let_go (r : Release) (k : nat) (w : Wake) : Wake :=
  w <| wk_free ::= fun n => (n + k)%nat |> <| wk_held ::= fun n => (n - k)%nat |>
    <| wk_pending ::= fun n => if notifies r then S n else n |> <| wk_last := r |>.
Definition retake (k : nat) (w : Wake) : Wake := w <| wk_free ::= fun n => (n - k)%nat |> <| wk_held ::= fun n => (n + k)%nat |>.
(** The slice elapses, or a signal arrives. *)
Definition wake_up (w : Wake) : Wake := w <| wk_waiter := Awake |>.
Inductive wake_step : Wake -> Wake -> Prop :=
| wake_bump w : (0 < wk_pending w)%nat -> wake_step w (bump_word w)
| wake_sample w : wk_waiter w = Awake -> wake_step w (sample_word w)
| wake_scan w seen : wk_waiter w = Sampled seen -> wake_step w (scan_again seen w)
| wake_park w seen : wk_waiter w = Parking seen -> wake_step w (park seen w)
| wake_release w r k : (k <= wk_held w)%nat -> wake_step w (let_go r k w)
| wake_take w k : (k <= wk_free w)%nat -> wake_step w (retake k w)
| wake_timeout w seen : wk_waiter w = Asleep seen -> wake_step w (wake_up w).
(** A process that begins to wait. *)
Definition wake_start (word : Z) (need free held : nat) : Wake :=
  {| wk_word := word; wk_need := need; wk_free := free; wk_held := held; wk_pending := 0; wk_last := PermitDropped true;
     wk_waiter := Awake; wk_bumps := 0 |}.
