(* ===== verification/SchedulerProofs.v ===== *)
(** * Proofs about the scheduler

    The scan takes the lowest free slots, the waits end, the weights of admitted
    compiles bound their memory, the pool is never over-committed, a compile that
    has waited cannot be starved by tests, and a sleeping waiter is woken. *)

From S2P Require Import Prelude Strings Codec StorePolicy Evict Cgroup Scheduler.
#[local] Open Scope string_scope.
#[local] Open Scope Z_scope.

(** ** Scans *)

Definition free_in {E} (acquire : Z -> result E bool) (i : Z) : bool :=
  match acquire i with Ok b => b | Err _ => false end.

Section Scans.
Context {E : Type} (f : Z -> bool).
#[local] Abbreviation acquire := (fun i => @Ok E bool (f i)).

Lemma collect_spec l need slots busy :
  (length slots < need)%nat ->
  collect acquire l need slots busy
  = Ok (if decide (need <= length slots + length (List.filter f l))%nat
        then CollectReady (take need (slots ++ List.filter f l)%list)
        else CollectBusy (busy ++ List.filter (fun i => negb (f i)) l)%list).
Proof.
  revert slots busy. induction l as [|i l IH]; intros slots busy H; cbn [collect List.filter].
  { rewrite decide_False by (cbn; lia). by rewrite app_nil_r. }
  destruct (f i) eqn:F; cbn [negb].
  - destruct (Nat.eqb_spec (length (slots ++ [i])) need) as [N|N].
    + rewrite decide_True by (rewrite length_app in N; cbn in *; lia).
      replace (slots ++ i :: List.filter f l)%list with ((slots ++ [i]) ++ List.filter f l)%list
        by (by rewrite <-app_assoc).
      by rewrite <-N, take_app_length.
    + rewrite length_app in N. cbn in N.
      rewrite IH by (rewrite length_app; cbn; lia). rewrite length_app. cbn [length].
      rewrite <-app_assoc. cbn.
      do 2 f_equal. apply decide_ext. lia.
  - rewrite IH by done. by rewrite <-app_assoc.
Qed.

(** A scan of the pool whose locks answer without error takes exactly the
    lowest [need] free slots of its range when there are that many, and otherwise
    keeps none and reports precisely the slots that were held. *)
Theorem scan_takes_lowest_free lo hi need :
  1 <= need ->
  try_collect_slots acquire lo hi need
  = Ok (if decide (need <= Z.of_nat (length (List.filter f (seqZ lo (hi - lo)))))
        then CollectReady (take (Z.to_nat need) (List.filter f (seqZ lo (hi - lo))))
        else CollectBusy (List.filter (fun i => negb (f i)) (seqZ lo (hi - lo)))).
Proof.
  intros H. unfold try_collect_slots. rewrite collect_spec by (cbn; lia). cbn [length app].
  f_equal. apply decide_ext. lia.
Qed.
End Scans.

(** A scan never returns anything but slots it locked, in ascending order. *)
Lemma collect_ready {E} (acquire : Z -> result E bool) l need slots busy r :
  collect acquire l need slots busy = Ok (CollectReady r) ->
  exists more, r = (slots ++ more)%list /\ length r = need /\ more `sublist_of` l /\
               Forall (fun i => acquire i = Ok true) more.
Proof.
  revert slots busy. induction l as [|i l IH]; intros slots busy; cbn [collect]; [done|].
  destruct (acquire i) as [[]|e] eqn:A; [|intros H|done].
  - destruct (Nat.eqb_spec (length (slots ++ [i])%list) need) as [N|N].
    + intros [= <-]. exists [i]. split; [done|]. split; [done|].
      split; [constructor; apply sublist_nil_l|by repeat constructor].
    + intros H. apply IH in H as (more & -> & L & S & F). exists (i :: more).
      rewrite <-app_assoc in *. split; [done|]. split; [done|]. split; [by constructor|by constructor].
  - apply IH in H as (more & -> & L & S & F). exists more. split; [done|]. split; [done|].
    split; [by constructor|done].
Qed.
Lemma seqZ_sublist_sorted lo n l : l `sublist_of` seqZ lo n -> StronglySorted Z.lt l.
Proof.
  intros S. revert S. unfold seqZ. generalize (Z.to_nat n). intros m.
  assert (G : StronglySorted Z.lt ((λ i : nat, Z.of_nat i + lo) <$> seq 0 m)).
  { generalize 0%nat. induction m as [|m IH]; intros k; cbn; constructor; [apply IH|].
    apply Forall_fmap, Forall_seq. intros x ?. cbn. lia. }
  revert l. induction G as [|x t G IH F]; intros l S.
  - apply sublist_nil_r in S as ->. constructor.
  - apply sublist_cons_r in S as [S|(l' & -> & S)]; [auto|]. constructor; [auto|].
    apply Forall_forall. intros y Hy. rewrite Forall_forall in F. apply F.
    by eapply sublist_subseteq.
Qed.
Lemma collect_permits_ready {E} (acquire : Z -> result E bool) lo hi need expired r :
  0 <= need -> collect_permits acquire lo hi need expired = StepReady r ->
  Z.of_nat (length r) = need /\ StronglySorted Z.lt r /\
  Forall (fun i => lo <= i < hi /\ acquire i = Ok true) r.
Proof.
  intros N. unfold collect_permits, try_collect_slots.
  destruct (collect _ _ _ _ _) as [[slots|busy]|e] eqn:C; [|by destruct expired|done].
  intros [= ->]. apply collect_ready in C as (more & -> & L & S & F). cbn in *.
  split; [lia|]. split; [by eapply seqZ_sublist_sorted|].
  rewrite Forall_forall in *. intros i Hi. split; [|by apply F].
  eapply sublist_subseteq in Hi; [|exact S]. apply elem_of_seqZ in Hi. lia.
Qed.

(** ** Waits *)

Section Waits.
Context {E : Type}.

(** What a wait may return: no permit, or the slots one scan of a round up to [n]
    locked, as many as that round asked for. *)
Definition permit_ok (env : nat -> Round E) (lo hi : Z) (need : nat -> bool -> Z) (n : nat) (r : option (list Z)) : Prop :=
  match r with
  | None => True
  | Some slots => exists k waited, (k <= n)%nat /\
      Z.of_nat (length slots) = Z.max (need k waited) 1 /\ StronglySorted Z.lt slots /\
      (Forall (fun i => lo <= i < hi /\ rd_first (env k) i = Ok true) slots \/
       Forall (fun i => lo <= i < hi /\ rd_second (env k) i = Ok true) slots)
  end.

Lemma wait_for_permit_from (env : nat -> Round E) lo hi need n :
  rd_first_expired (env n) = true ->
  forall m k w, (k <= n)%nat -> (n - k < m)%nat ->
  exists r, wait_for_permit m env k lo hi need w = Some r /\ permit_ok env lo hi need n r.
Proof.
  intros X. induction m as [|m IH]; intros k w Kn M; [lia|]. cbn [wait_for_permit].
  destruct (rd_cancelled (env k)); [by eexists|].
  destruct (collect_permits (rd_first (env k)) _ _ _ _) as [slots|busy|] eqn:C1; [| |by eexists].
  { apply collect_permits_ready in C1 as (?&?&?); [|lia]. eexists. split; [done|]. exists k, w; auto. }
  assert (k <> n).
  { intros ->. unfold collect_permits in C1. rewrite X in C1.
    by destruct (try_collect_slots _ _ _ _) as [[]|]. }
  destruct busy; [apply IH; lia|].
  destruct (collect_permits (rd_second (env k)) _ _ _ _) as [slots|busy'|] eqn:C2; [|apply IH; lia|by eexists].
  apply collect_permits_ready in C2 as (?&?&?); [|lia]. eexists. split; [done|]. exists k, w; auto.
Qed.
Lemma wait_for_permit_ok (env : nat -> Round E) lo hi need m :
  forall k w r, wait_for_permit m env k lo hi need w = Some r -> exists n, permit_ok env lo hi need n r.
Proof.
  induction m as [|m IH]; intros k w r; cbn [wait_for_permit]; [done|].
  destruct (rd_cancelled (env k)); [intros [= <-]; by exists 0%nat|].
  destruct (collect_permits (rd_first (env k)) _ _ _ _) as [slots|[|b busy]|] eqn:C1;
    [intros [= <-] | apply IH | | intros [= <-]; by exists 0%nat].
  { apply collect_permits_ready in C1 as (?&?&?); [|lia]. exists k, k, w; auto. }
  destruct (collect_permits (rd_second (env k)) _ _ _ _) as [slots|busy'|] eqn:C2;
    [intros [= <-] | apply IH | intros [= <-]; by exists 0%nat].
  apply collect_permits_ready in C2 as (?&?&?); [|lia]. exists k, k, w; auto.
Qed.

(** The wait for a permit ends: once the timeout has passed in some round the
    loop has returned, and it then either runs without a permit or holds as many
    slots of its range as a round asked for, none twice, all locked in one scan. *)
Theorem wait_for_permit_settles (env : nat -> Round E) lo hi need n rounds :
  (n < rounds)%nat -> rd_first_expired (env n) = true ->
  exists r, wait_for_permit rounds env 0 lo hi need false = Some r /\ permit_ok env lo hi need n r.
Proof. intros L X. apply wait_for_permit_from; [done|lia|lia]. Qed.

(** Waiting for a lock ends: if every nap the loop asks for is slept, a wait of
    [timeout] milliseconds has returned after at most [timeout + 1] attempts. *)
Theorem acquire_within_terminates (env : nat -> Attempt E) (timeout poll : Z) :
  0 <= timeout -> 1 <= poll -> 0 <= at_elapsed (env 0%nat) ->
  (forall n, at_elapsed (env n) <= at_nap_elapsed (env n) /\
             at_nap_elapsed (env n) + nap env timeout poll n <= at_elapsed (env (S n))) ->
  exists r, acquire_within (Z.to_nat timeout + 1) env 0 timeout = Some r.
Proof.
  intros T P Z0 Clock.
  assert (A : forall n, Z.min (Z.of_nat n) timeout <= at_elapsed (env n)).
  { induction n as [|n IH]; [lia|]. destruct (Clock n) as [C1 C2].
    unfold nap, saturating_sub, lock_poll_interval, BUILD_LOCK_POLL_INTERVAL in C2.
    assert (1 <= Z.shiftl 1 (Z.min (Z.of_nat n) 7)).
    { rewrite Z.shiftl_1_l. assert (0 < 2 ^ Z.min (Z.of_nat n) 7); [apply Z.pow_pos_nonneg; lia|lia]. }
    lia. }
  assert (G : forall m n, (n + m = Z.to_nat timeout + 1)%nat -> (0 < m)%nat ->
    exists r, acquire_within m env n timeout = Some r); [|apply (G _ 0%nat); lia].
  induction m as [|m IH]; intros n H M; [lia|]. cbn [acquire_within].
  destruct (at_cancelled (env n)); [by eexists|].
  destruct (at_lock (env n)) as [[]|]; [by eexists| |by eexists].
  destruct (Z.leb_spec timeout (at_elapsed (env n))) as [|Lt]; [by eexists|].
  specialize (A n). apply IH; lia.
Qed.

(** A marker that was locked, for every slot of the lease. *)
Lemma fold_min_spec l s :
  fold_left Z.min l s ∈ s :: l /\ Forall (fun i => fold_left Z.min l s <= i) (s :: l).
Proof.
  revert s. induction l as [|x l IH]; intros s; cbn [fold_left]; [split; [set_solver|by repeat constructor]|].
  destruct (IH (Z.min s x)) as [I F]. inversion F as [|? ? F1 F2]; subst. split.
  - apply elem_of_cons in I as [I|I]; [|set_solver]. rewrite I. destruct (Z.min_spec s x) as [[_ ->]|[_ ->]]; set_solver.
  - repeat constructor; [lia|lia|done].
Qed.
End Waits.

(** ** The pool *)

Lemma reserve_for_bounds pool : 1 <= pool -> 1 <= reserve_for pool <= pool.
Proof. unfold reserve_for. intros H. pose proof (Z.div_lt_upper_bound pool 4 (pool + 1)). lia. Qed.
Lemma compile_need_bounds weight pool waited held :
  1 <= pool -> 1 <= compile_need weight pool waited held <= pool.
Proof.
  intros H. pose proof (reserve_for_bounds pool H). unfold compile_need, clamp, saturating_sub.
  destruct (waited && _); lia.
Qed.
Lemma test_need_bound want pool : test_need want pool <= saturating_sub pool (reserve_for pool).
Proof. unfold test_need. lia. Qed.

Definition phase_ok (pool : Z) (j : Job) : Prop :=
  match job_phase j with
  | Idle => job_held j = []
  | Scanning next => range_low pool (job_kind j) <= next /\ Forall (fun i => i < next) (job_held j) /\
                     Z.of_nat (length (job_held j)) < job_need j
  | Running => job_need j <= Z.of_nat (length (job_held j)) /\
               (job_kind j = CompileJob -> Z.of_nat (length (job_held j)) = job_need j)
  end.
(** What holds of every process: its slots are its own, in the range of its kind,
    and as many as its phase says. *)
Record job_ok (pool : Z) (m : gmap Z nat) (p : nat) (j : Job) : Prop := {
  ok_nodup : NoDup (job_held j);
  ok_owner : Forall (fun i => m !! i = Some p /\ range_low pool (job_kind j) <= i < pool) (job_held j);
  ok_need : 1 <= job_need j;
  ok_phase : phase_ok pool j;
}.
Record pool_ok (pool : Z) (s : Pool) : Prop := {
  ok_jobs : map_Forall (job_ok pool (slots_of s)) (jobs s);
  ok_slots : map_Forall (fun i p => exists j, jobs s !! p = Some j /\ i ∈ job_held j) (slots_of s);
}.

Lemma lookup_unlock held (m : gmap Z nat) i :
  unlock held m !! i = if decide (i ∈ held) then None else m !! i.
Proof.
  unfold unlock. revert m. induction held as [|x held IH]; intros m; cbn [fold_left].
  - by rewrite decide_False by set_solver.
  - rewrite IH. destruct (decide (i ∈ held)) as [|N]; [by rewrite decide_True by set_solver|].
    destruct (decide (i = x)) as [->|].
    + by rewrite lookup_delete_eq, decide_True by set_solver.
    + by rewrite lookup_delete_ne, decide_False by set_solver.
Qed.
(** Another process keeps what it has while the slots it does not hold change. *)
Lemma job_ok_frame pool m m' p j :
  (forall i, m !! i = Some p -> m' !! i = Some p) -> job_ok pool m p j -> job_ok pool m' p j.
Proof.
  intros F []. split; [done| |done|done]. eapply Forall_impl; [done|]. cbn. intros i [? ?]. auto.
Qed.

Section Updates.
Context (pool : Z) (s : Pool) (Hs : pool_ok pool s) (p : nat) (j : Job) (Hj : jobs s !! p = Some j).

Lemma own_job : job_ok pool (slots_of s) p j.
Proof. by apply (ok_jobs _ _ Hs). Qed.
Lemma own_slot i : i ∈ job_held j -> slots_of s !! i = Some p.
Proof. destruct own_job as [_ O _ _]. rewrite Forall_forall in O. intros H. by apply O. Qed.
Lemma slot_own i : slots_of s !! i = Some p -> i ∈ job_held j.
Proof. intros H. destruct (ok_slots _ _ Hs _ _ H) as (j' & E & ?). by simplify_eq. Qed.

(** The process changes and keeps its slots. *)
Lemma pool_ok_same_slots j' :
  job_held j' = job_held j -> job_ok pool (slots_of s) p j' -> pool_ok pool (set_job p j' s).
Proof.
  intros E O. split; cbn.
  - apply map_Forall_insert_2; [done|apply (ok_jobs _ _ Hs)].
  - intros i q H. destruct (ok_slots _ _ Hs _ _ H) as (jq & Eq & I).
    destruct (decide (q = p)) as [->|]; [|exists jq; by rewrite lookup_insert_ne].
    exists j'. simplify_eq. by rewrite lookup_insert_eq, E.
Qed.
(** The process takes one more slot. *)
Lemma pool_ok_take i j' :
  slots_of s !! i = None -> job_held j' = (job_held j ++ [i])%list ->
  job_ok pool (<[i := p]> (slots_of s)) p j' ->
  pool_ok pool {| slots_of := <[i := p]> (slots_of s); jobs := <[p := j']> (jobs s) |}.
Proof.
  intros N E O. split; cbn.
  - apply map_Forall_insert_2; [done|]. intros q jq Hq.
    apply (job_ok_frame _ (slots_of s)); [|by apply (ok_jobs _ _ Hs)].
    intros k Hk. destruct (decide (k = i)) as [->|]; [congruence|]. by rewrite lookup_insert_ne.
  - intros k q. rewrite lookup_insert_Some. intros [[<- <-]|[Ne H]].
    { exists j'. rewrite lookup_insert_eq, E. set_solver. }
    destruct (ok_slots _ _ Hs _ _ H) as (jq & Eq & I).
    destruct (decide (q = p)) as [->|]; [|exists jq; by rewrite lookup_insert_ne].
    exists j'. simplify_eq. rewrite lookup_insert_eq, E. set_solver.
Qed.
(** The process lets go of all its slots. *)
Lemma unlocked_job_ok q jq :
  q <> p -> jobs s !! q = Some jq -> job_ok pool (unlock (job_held j) (slots_of s)) q jq.
Proof.
  intros Ne Hq. apply (job_ok_frame _ (slots_of s)); [|by apply (ok_jobs _ _ Hs)].
  intros i Hi. rewrite lookup_unlock. rewrite decide_False; [done|]. intros I%own_slot. congruence.
Qed.
Lemma unlocked_slot i q :
  unlock (job_held j) (slots_of s) !! i = Some q ->
  q <> p /\ exists jq, jobs s !! q = Some jq /\ i ∈ job_held jq.
Proof.
  rewrite lookup_unlock. destruct (decide (i ∈ job_held j)) as [|N]; [done|]. intros H.
  split; [intros ->; by apply N, slot_own|by apply (ok_slots _ _ Hs)].
Qed.
Lemma pool_ok_end_scan : pool_ok pool (end_scan p j s).
Proof.
  split; cbn.
  - intros q jq. rewrite lookup_insert_Some. intros [[<- <-]|[Ne Hq]]; [|by apply unlocked_job_ok].
    split; cbn; [constructor|constructor|apply own_job|done].
  - intros i q H. apply unlocked_slot in H as (Ne & jq & ? & ?). exists jq. by rewrite lookup_insert_ne.
Qed.
Lemma pool_ok_leave : pool_ok pool (leave p j s).
Proof.
  split; cbn.
  - intros q jq. rewrite lookup_delete_Some. intros [Ne Hq]. by apply unlocked_job_ok.
  - intros i q H. apply unlocked_slot in H as (Ne & jq & ? & ?). exists jq. by rewrite lookup_delete_ne.
Qed.
End Updates.

(** One more slot for a process that is sound. *)
Lemma job_ok_take pool (m : gmap Z nat) p j i need ph :
  job_ok pool m p j -> m !! i = None -> range_low pool (job_kind j) <= i < pool -> 1 <= need ->
  phase_ok pool (with_phase need (job_held j ++ [i])%list ph j) ->
  job_ok pool (<[i := p]> m) p (with_phase need (job_held j ++ [i])%list ph j).
Proof.
  intros [D O N P] F R Hn Hp. rewrite Forall_forall in O. split; cbn; [| |done|done].
  - apply NoDup_app. split; [done|]. split; [|apply NoDup_singleton].
    intros k Hk ->%list_elem_of_singleton. apply O in Hk. naive_solver congruence.
  - apply Forall_app. split; [|by repeat constructor; rewrite ?lookup_insert_eq; auto; lia].
    apply Forall_forall. intros k Hk. destruct (O k Hk) as [E ?]. split; [|done].
    by rewrite lookup_insert_ne by congruence.
Qed.
Lemma try_slot_ok pool s p j next :
  pool_ok pool s -> jobs s !! p = Some j -> job_phase j = Scanning next -> next < pool ->
  pool_ok pool (try_slot p j next s).
Proof.
  intros Hs Hj Ph L. pose proof (own_job _ _ Hs _ _ Hj) as O.
  pose proof (ok_phase _ _ _ _ O) as P. unfold phase_ok in P. rewrite Ph in P. destruct P as (P1 & P2 & P3).
  assert (P2' : Forall (fun i => i < next + 1) (job_held j)).
  { eapply Forall_impl; [exact P2|]. cbn. lia. }
  unfold try_slot. destruct (slots_of s !! next) as [q|] eqn:F.
  - eapply pool_ok_same_slots; [done|done|done|].
    destruct O. split; [done|done|done|]. cbn. unfold phase_ok; cbn. split; [lia|done].
  - apply pool_ok_take with j; [done|done|done|done|].
    apply job_ok_take; [done|done|lia|apply O|]. unfold phase_ok; cbn.
    destruct (Z.eqb_spec (Z.of_nat (length (job_held j ++ [next])%list)) (job_need j)) as [E|E].
    + lia.
    + rewrite length_app in *. cbn in *. split; [lia|]. split; [|lia].
      apply Forall_app. split; [done|]. repeat constructor. lia.
Qed.
Lemma pool_step_ok pool s s' : 1 <= pool -> pool_step pool s s' -> pool_ok pool s -> pool_ok pool s'.
Proof.
  intros Hp St Hs. destruct St as [s p kind N|s p j w b h Hj K Ph|s p j w Hj K Ph Nz|s p j next Hj Ph L
    |s p j next Hj Ph L|s p j i Hj K Ph F R|s p j Hj].
  - split; cbn.
    + apply map_Forall_insert_2; [|apply (ok_jobs _ _ Hs)]. by repeat constructor.
    + intros i q H. destruct (ok_slots _ _ Hs _ _ H) as (jq & Eq & I). exists jq.
      by rewrite lookup_insert_ne by congruence.
  - pose proof (own_job _ _ Hs _ _ Hj) as O. pose proof (ok_phase _ _ _ _ O) as P.
    unfold phase_ok in P. rewrite Ph in P. eapply pool_ok_same_slots; [done|done|done|].
    split; cbn; [constructor|constructor|lia|]. unfold phase_ok; cbn. rewrite K. cbn.
    split; [lia|]. split; [constructor|lia].
  - pose proof (own_job _ _ Hs _ _ Hj) as O. pose proof (ok_phase _ _ _ _ O) as P.
    unfold phase_ok in P. rewrite Ph in P. eapply pool_ok_same_slots; [done|done|done|].
    split; cbn; [constructor|constructor|lia|]. unfold phase_ok; cbn. rewrite K. cbn.
    split; [lia|]. split; [constructor|lia].
  - by eapply try_slot_ok.
  - by eapply pool_ok_end_scan.
  - pose proof (own_job _ _ Hs _ _ Hj) as O. pose proof (ok_phase _ _ _ _ O) as P.
    unfold phase_ok in P. rewrite Ph in P. apply pool_ok_take with j; [done|done|done|done|].
    apply job_ok_take; [done|done|by rewrite K|apply O|]. unfold phase_ok; cbn.
    rewrite K. split; [rewrite length_app; cbn; lia|done].
  - by eapply pool_ok_leave.
Qed.
Lemma pool_reachable_ok pool s : 1 <= pool -> pool_reachable pool s -> pool_ok pool s.
Proof.
  intros Hp R. assert (I : pool_ok pool empty_pool) by (split; apply map_Forall_empty).
  unfold pool_reachable in R. induction R as [|x y z St R IH]; [done|]. by apply IH, (pool_step_ok _ x).
Qed.

(** *** What the processes hold together *)

Definition held_by (sel : nat -> Job -> bool) (l : list (nat * Job)) : list Z :=
  l ≫= fun '(p, j) => if sel p j then job_held j else [].
Lemma held_by_sound pool s sel l :
  pool_ok pool s -> NoDup l.*1 -> (forall p j, (p, j) ∈ l -> jobs s !! p = Some j) ->
  NoDup (held_by sel l).
Proof.
  intros Hs. induction l as [|[p j] l IH]; intros D In; [constructor|].
  cbn in D. apply NoDup_cons in D as [Np D].
  change (NoDup ((if sel p j then job_held j else []) ++ held_by sel l)%list).
  assert (Hj : jobs s !! p = Some j) by (apply In; set_solver).
  apply NoDup_app. split; [|split; [|by apply IH; [|set_solver]]].
  { destruct (sel p j); [apply (own_job _ _ Hs _ _ Hj)|constructor]. }
  destruct (sel p j); [|by intros ? ?%elem_of_nil].
  intros i Hi Hb. apply list_elem_of_bind in Hb as ([q jq] & Hq & Hin).
  destruct (sel q jq); [|by apply elem_of_nil in Hq].
  apply (own_slot _ _ Hs _ _ Hj) in Hi. apply (own_slot _ _ Hs q jq) in Hq; [|apply In; set_solver].
  apply Np. assert (p = q) as -> by congruence. apply list_elem_of_fmap. by exists (q, jq).
Qed.
Lemma range_count (l : list Z) lo hi :
  lo <= hi -> NoDup l -> Forall (fun i => lo <= i < hi) l -> Z.of_nat (length l) <= hi - lo.
Proof.
  intros H D F. rewrite Forall_forall in F.
  assert (S : l ⊆+ seqZ lo (hi - lo)).
  { apply NoDup_submseteq; [done|]. intros i Hi. apply elem_of_seqZ. specialize (F _ Hi). lia. }
  apply submseteq_length in S. rewrite length_seqZ in S. lia.
Qed.
Definition slots_held (sel : nat -> Job -> bool) (s : Pool) : list Z := held_by sel (map_to_list (jobs s)).
Lemma slots_held_elem sel s i :
  i ∈ slots_held sel s <-> exists p j, jobs s !! p = Some j /\ sel p j = true /\ i ∈ job_held j.
Proof.
  unfold slots_held, held_by. rewrite list_elem_of_bind. split.
  - intros ([p j] & Hi & Hin). apply elem_of_map_to_list in Hin. destruct (sel p j) eqn:S; [|set_solver].
    by exists p, j.
  - intros (p & j & Hj & S & Hi). exists (p, j). rewrite S. by rewrite elem_of_map_to_list.
Qed.
Lemma slots_held_nodup pool s sel : pool_ok pool s -> NoDup (slots_held sel s).
Proof.
  intros Hs. eapply held_by_sound; [done|apply NoDup_fst_map_to_list|].
  intros p j. by rewrite elem_of_map_to_list.
Qed.
Definition is_test (p : nat) (j : Job) : bool := match job_kind j with TestJob => true | CompileJob => false end.
Definition everyone (p : nat) (j : Job) : bool := true.
Lemma slots_held_range pool s sel low :
  pool_ok pool s -> (forall p j, sel p j = true -> low <= range_low pool (job_kind j)) ->
  Forall (fun i => low <= i < pool) (slots_held sel s).
Proof.
  intros Hs L. apply Forall_forall. intros i (p & j & Hj & S & Hi)%slots_held_elem.
  pose proof (ok_owner _ _ _ _ (own_job _ _ Hs _ _ Hj)) as O. rewrite Forall_forall in O.
  specialize (O _ Hi). specialize (L _ _ S). lia.
Qed.
Lemma slots_held_tests pool s :
  1 <= pool -> pool_ok pool s -> Z.of_nat (length (slots_held is_test s)) <= pool - reserve_for pool.
Proof.
  intros Hp Hs. pose proof (reserve_for_bounds pool Hp). apply range_count; [lia|by eapply slots_held_nodup|].
  apply slots_held_range; [done|]. unfold is_test. intros p j. by destruct (job_kind j).
Qed.
Lemma slots_held_all pool s sel :
  1 <= pool -> pool_ok pool s -> Z.of_nat (length (slots_held sel s)) <= pool.
Proof.
  intros Hp Hs. pose proof (reserve_for_bounds pool Hp).
  assert (Z.of_nat (length (slots_held sel s)) <= pool - 0); [|lia].
  apply range_count; [lia|by eapply slots_held_nodup|].
  apply slots_held_range; [done|]. intros p j _. destruct (job_kind j); cbn; lia.
Qed.

(** C15. However scans, releases and deaths of processes interleave, the pool is never
    over-committed: no slot has two holders, all processes together hold at most
    [pool] slots, tests together leave the compile reserve alone, and a running
    compile holds exactly the slots it asked for. *)
Theorem pool_never_overcommitted pool s :
  1 <= pool -> pool_reachable pool s ->
  (forall p q jp jq i, jobs s !! p = Some jp -> jobs s !! q = Some jq ->
     i ∈ job_held jp -> i ∈ job_held jq -> p = q) /\
  Z.of_nat (length (slots_held everyone s)) <= pool /\
  Z.of_nat (length (slots_held is_test s)) <= pool - reserve_for pool /\
  (forall p j, jobs s !! p = Some j -> job_phase j = Running -> job_kind j = CompileJob ->
     Z.of_nat (length (job_held j)) = job_need j).
Proof.
  intros Hp R. apply pool_reachable_ok in R as Hs; [|done].
  split; [|split; [by apply slots_held_all|split; [by apply slots_held_tests|]]].
  - intros p q jp jq i Hjp Hjq Ip Iq. apply (own_slot _ _ Hs _ _ Hjp) in Ip.
    apply (own_slot _ _ Hs _ _ Hjq) in Iq. congruence.
  - intros p j Hj Ph K. pose proof (ok_phase _ _ _ _ (own_job _ _ Hs _ _ Hj)) as P.
    unfold phase_ok in P. rewrite Ph in P. by apply P.
Qed.

(** *** Progress *)

(** The steps process [p] takes by itself until its scan is over. *)
Fixpoint run_scan (fuel : nat) (pool : Z) (p : nat) (s : Pool) : Pool :=
  match fuel, jobs s !! p with
  | S fuel, Some j =>
      match job_phase j with
      | Scanning next => if next <? pool then run_scan fuel pool p (try_slot p j next s) else end_scan p j s
      | _ => s
      end
  | _, _ => s
  end.
Lemma run_scan_steps fuel pool p s : rtc (pool_step pool) s (run_scan fuel pool p s).
Proof.
  revert s. induction fuel as [|fuel IH]; intros s; cbn; [done|].
  destruct (jobs s !! p) as [j|] eqn:Hj; [|done]. destruct (job_phase j) as [|next|] eqn:Ph; [done| |done].
  destruct (Z.ltb_spec next pool).
  - eapply rtc_l; [by eapply pool_try|apply IH].
  - apply rtc_once. by eapply pool_end_scan.
Qed.
Definition unlocked (s : Pool) (i : Z) : bool := bool_decide (slots_of s !! i = None).
Definition free_from (pool next : Z) (s : Pool) : nat :=
  length (List.filter (unlocked s) (seqZ next (pool - next))).
Lemma free_from_cons pool next s :
  next < pool -> free_from pool next s = ((if unlocked s next then 1 else 0) + free_from pool (next + 1) s)%nat.
Proof.
  intros H. unfold free_from. rewrite seqZ_cons by lia.
  replace (Z.pred (pool - next)) with (pool - (next + 1)) by lia.
  replace (Z.succ next) with (next + 1) by lia. cbn. by destruct (unlocked s next).
Qed.
Lemma free_from_ext pool next s s' :
  (forall i, next <= i -> slots_of s' !! i = slots_of s !! i) -> free_from pool next s' = free_from pool next s.
Proof.
  intros E. unfold free_from. f_equal. apply List.filter_ext_in. intros i Hi.
  apply list_elem_of_In, elem_of_seqZ in Hi. unfold unlocked. by rewrite E by lia.
Qed.
Lemma run_scan_admits pool p fuel s j next :
  jobs s !! p = Some j -> job_phase j = Scanning next ->
  Z.of_nat (length (job_held j)) < job_need j ->
  job_need j <= Z.of_nat (length (job_held j)) + Z.of_nat (free_from pool next s) ->
  (Z.to_nat (pool - next) < fuel)%nat ->
  exists j', jobs (run_scan fuel pool p s) !! p = Some j' /\ job_phase j' = Running.
Proof.
  revert s j next. induction fuel as [|fuel IH]; intros s j next Hj Ph L N Fu; [lia|]. cbn [run_scan].
  rewrite Hj, Ph. destruct (Z.ltb_spec next pool) as [Lt|Ge].
  2:{ exfalso. unfold free_from in N. rewrite seqZ_nil in N by lia. cbn in N. lia. }
  rewrite free_from_cons in N by done. unfold try_slot, unlocked in *.
  destruct (slots_of s !! next) as [q|] eqn:F.
  - rewrite bool_decide_false in N by done.
    eapply IH; cbn; [by rewrite lookup_insert_eq|done|done|exact N|lia].
  - destruct (Z.eqb_spec (Z.of_nat (length (job_held j ++ [next])%list)) (job_need j)) as [E|E].
    + destruct fuel as [|fuel]; [lia|]. cbn [run_scan jobs]. rewrite lookup_insert_eq. cbn.
      rewrite lookup_insert_eq. by eexists.
    + rewrite length_app in E. cbn in E.
      eapply IH; [by apply lookup_insert_eq|done| | |lia]; cbn [job_held job_need with_phase];
        rewrite length_app; cbn [length]; [lia|]. rewrite (free_from_ext _ _ s) by (intros; cbn; by rewrite lookup_insert_ne by lia).
      rewrite bool_decide_true in N by done. lia.
Qed.
(** Slots that are locked while only tests hold any are the tests'. *)
Lemma free_when_tests_hold pool s :
  1 <= pool -> pool_ok pool s ->
  (forall q jq, jobs s !! q = Some jq -> job_held jq <> [] -> job_kind jq = TestJob) ->
  pool - Z.of_nat (length (slots_held is_test s)) <= Z.of_nat (free_from pool 0 s).
Proof.
  intros Hp Hs T. unfold free_from. rewrite Z.sub_0_r.
  pose proof (List.filter_length (unlocked s) (seqZ 0 pool)) as P. rewrite length_seqZ in P.
  assert (S : List.filter (fun i => negb (unlocked s i)) (seqZ 0 pool) ⊆+ slots_held is_test s).
  { apply NoDup_submseteq; [apply NoDup_ListNoDup, List.NoDup_filter, NoDup_ListNoDup, NoDup_seqZ|].
    intros i [_ U]%list_elem_of_In%filter_In. unfold unlocked in U.
    destruct (slots_of s !! i) as [q|] eqn:F; [|by rewrite bool_decide_true in U].
    destruct (ok_slots _ _ Hs _ _ F) as (j & Hj & Hi). apply slots_held_elem. exists q, j.
    split; [done|]. split; [|done]. unfold is_test. by rewrite (T q j Hj) by (by intros E; rewrite E in Hi; set_solver). }
  apply submseteq_length in S. lia.
Qed.

(** C31. Tests cannot starve a compile, however heavy.  Suppose only tests hold slots and
    the markers that the compile counts are at least as many as the slots tests hold
    (a test locks its markers after its slots, so a count taken in between can be
    lower).  Then a compile that has waited, whatever weight it was given, is
    admitted by its next scan, if nothing else runs during that scan. *)
Theorem waited_compile_admitted pool s p j weight dir :
  1 <= pool -> pool_reachable pool s ->
  jobs s !! p = Some j -> job_kind j = CompileJob -> job_phase j = Idle ->
  (forall q jq, jobs s !! q = Some jq -> job_held jq <> [] -> job_kind jq = TestJob) ->
  Z.of_nat (length (slots_held is_test s)) <= tests_held dir ->
  let need := Z.max (compile_need weight pool true (tests_held dir)) 1 in
  let started := set_job p (with_phase need [] (Scanning 0) j) s in
  exists s' j', s' = run_scan (Z.to_nat pool + 1) pool p started /\
    pool_reachable pool s' /\ jobs s' !! p = Some j' /\ job_phase j' = Running.
Proof.
  intros Hp R Hj K Ph T Held need started. apply pool_reachable_ok in R as Hs; [|done].
  pose proof (slots_held_tests _ _ Hp Hs) as Res. pose proof (free_when_tests_hold _ _ Hp Hs T) as Free.
  pose proof (reserve_for_bounds pool Hp) as Rb.
  assert (N : need <= Z.of_nat (free_from pool 0 started)).
  { change (free_from pool 0 started) with (free_from pool 0 s).
    unfold need, compile_need, saturating_sub, clamp. destruct (Z.ltb_spec (reserve_for pool) (Z.max 1 (Z.min pool weight)));
      cbn [andb]; lia. }
  destruct (run_scan_admits pool p (Z.to_nat pool + 1) started (with_phase need [] (Scanning 0) j) 0) as (j' & E & Run);
    [by apply lookup_insert_eq|done|cbn; unfold need; lia|cbn; lia|lia|].
  eexists _, j'. split; [done|]. split; [|done]. unfold pool_reachable.
  etransitivity; [exact R|]. eapply rtc_l; [by eapply pool_start_compile|apply run_scan_steps].
Qed.

(** ** Weights and memory *)

Lemma slot_bytes_bounds memory pool :
  1 <= pool -> RSS_BYTES_PER_SLOT <= slot_bytes memory pool /\
  pool * slot_bytes memory pool <= Z.max (default 0 memory) (pool * RSS_BYTES_PER_SLOT).
Proof.
  intros Hp. unfold slot_bytes. destruct memory as [m|]; cbn [default]; [|lia].
  rewrite (Z.max_l pool 1) by lia. split; [lia|].
  rewrite <-Z.mul_max_distr_nonneg_l by lia. pose proof (Z.mul_div_le m pool). unfold id. lia.
Qed.
Lemma weight_in_slots_bounds rss pool slot : 1 <= pool -> 1 <= weight_in_slots rss pool slot <= pool.
Proof. unfold weight_in_slots, clamp. lia. Qed.
Lemma weight_for_bounds memory recorded is_link pool :
  1 <= pool -> 1 <= weight_for memory recorded is_link pool <= pool.
Proof.
  intros H. unfold weight_for. destruct recorded as [rss|]; [by apply weight_in_slots_bounds|].
  unfold UNMEASURED_LINK_WEIGHT, UNMEASURED_COMPILE_WEIGHT. destruct is_link; lia.
Qed.
(** A weight that the pool does not clamp stands for the whole recorded RSS. *)
Lemma weight_covers memory pool rss :
  1 <= pool <= u32_max -> rss <= pool * slot_bytes memory pool ->
  rss <= weight_from_rss memory rss pool * slot_bytes memory pool.
Proof.
  intros Hp Hr. pose proof (slot_bytes_bounds memory pool ltac:(lia)) as [Hs _].
  unfold weight_from_rss, weight_in_slots, clamp, div_ceil. set (b := slot_bytes memory pool) in *.
  assert (B : 0 < b) by (unfold RSS_BYTES_PER_SLOT in Hs; lia).
  assert (D : rss <= (rss + b - 1) / b * b).
  { pose proof (Z.div_mod (rss + b - 1) b ltac:(lia)). pose proof (Z.mod_pos_bound (rss + b - 1) b B). lia. }
  assert (Q : (rss + b - 1) / b <= pool).
  { apply Z.lt_succ_r. apply Z.div_lt_upper_bound; lia. }
  etransitivity; [exact D|]. apply Z.mul_le_mono_nonneg_r; lia.
Qed.

Definition is_running (p : nat) (j : Job) : bool :=
  match job_phase j with Running => true | _ => false end.
(** The recorded memory of the running processes. *)
Definition running_rss (rss : nat -> Z) (l : list (nat * Job)) : Z :=
  fold_right (fun '(p, j) acc => (if is_running p j then rss p else 0) + acc) 0 l.
Lemma running_rss_le rss b l :
  (forall p j, (p, j) ∈ l -> is_running p j = true -> rss p <= Z.of_nat (length (job_held j)) * b) ->
  running_rss rss l <= Z.of_nat (length (held_by is_running l)) * b.
Proof.
  induction l as [|[p j] l IH]; intros H; [done|]. unfold running_rss in *. cbn [fold_right].
  change (held_by is_running ((p, j) :: l))
    with ((if is_running p j then job_held j else []) ++ held_by is_running l)%list.
  rewrite length_app. pose proof (IH ltac:(set_solver)). pose proof (H p j ltac:(set_solver)).
  destruct (is_running p j); cbn [length]; [|lia]. specialize (H1 eq_refl). lia.
Qed.

(** Admission by weight bounds memory: while every running process holds at
    least the slots its recorded peak RSS was weighed at, the recorded peaks of all
    running processes together fit the machine's memory, or half a gibibyte per
    slot where that is more. *)
Theorem admitted_memory_fits memory pool s (rss : nat -> Z) :
  1 <= pool <= u32_max -> pool_reachable pool s ->
  (forall p j, jobs s !! p = Some j -> job_phase j = Running ->
     rss p <= pool * slot_bytes memory pool /\ weight_from_rss memory (rss p) pool <= job_need j) ->
  running_rss rss (map_to_list (jobs s)) <= Z.max (default 0 memory) (pool * RSS_BYTES_PER_SLOT).
Proof.
  intros Hp R W. apply pool_reachable_ok in R as Hs; [|lia].
  pose proof (slot_bytes_bounds memory pool ltac:(lia)) as [Hb Hm].
  assert (B : 0 <= slot_bytes memory pool) by (unfold RSS_BYTES_PER_SLOT in Hb; lia).
  etransitivity; [apply (running_rss_le _ (slot_bytes memory pool))|].
  - intros p j Hin Run. apply elem_of_map_to_list in Hin. unfold is_running in Run.
    destruct (job_phase j) eqn:Ph; [done|done|]. destruct (W _ _ Hin Ph) as [W1 W2].
    pose proof (ok_phase _ _ _ _ (own_job _ _ Hs _ _ Hin)) as P. unfold phase_ok in P. rewrite Ph in P.
    etransitivity; [by apply weight_covers|]. apply Z.mul_le_mono_nonneg_r; lia.
  - etransitivity; [|exact Hm]. apply Z.mul_le_mono_nonneg_r; [done|].
    apply (slots_held_all pool s is_running ltac:(lia) Hs).
Qed.

(** ** Sleeping waiters *)

Definition will_be_told (w : Wake) : Prop :=
  (wk_free w < wk_need w)%nat \/ (0 < wk_pending w)%nat \/ notifies (wk_last w) = false.
Definition wake_inv (w : Wake) : Prop :=
  0 <= wk_word w < 2 ^ 32 /\ 0 <= wk_bumps w /\
  match wk_waiter w with
  | Awake | Served => True
  | Sampled seen => 0 <= seen < 2 ^ 32 /\ wk_word w = (seen + wk_bumps w) mod 2 ^ 32
  | Parking seen => 0 <= seen < 2 ^ 32 /\ wk_word w = (seen + wk_bumps w) mod 2 ^ 32 /\
                    (wk_bumps w = 0 -> will_be_told w)
  | Asleep seen => will_be_told w \/ 2 ^ 32 <= wk_bumps w
  end.
Lemma bumped_word seen b : (((seen + b) mod 2 ^ 32) + 1) mod 2 ^ 32 = (seen + (b + 1)) mod 2 ^ 32.
Proof. rewrite Zplus_mod_idemp_l. f_equal. lia. Qed.
Lemma unbumped_word seen b :
  0 <= seen < 2 ^ 32 -> 0 <= b -> (seen + b) mod 2 ^ 32 = seen -> b = 0 \/ 2 ^ 32 <= b.
Proof.
  intros Hs Hb E. destruct (Z_lt_le_dec b (2 ^ 32)) as [L|]; [left|by right].
  destruct (Z_lt_le_dec (seen + b) (2 ^ 32)) as [L'|G]; [rewrite Z.mod_small in E by lia; lia|].
  replace (seen + b) with ((seen + b - 2 ^ 32) + 1 * 2 ^ 32) in E by lia.
  rewrite Z.mod_add, Z.mod_small in E by lia. lia.
Qed.
(** A release is announced or is one that publishes nothing. *)
Lemma told_let_go r k w : will_be_told (let_go r k w).
Proof. unfold will_be_told. cbn. destruct (notifies r) eqn:E; [right; left; lia|by right; right]. Qed.
Lemma told_retake k w : will_be_told w -> will_be_told (retake k w).
Proof. unfold will_be_told. cbn. intros [?|?]; [left; lia|by right]. Qed.
Lemma wake_step_inv w w' : wake_step w w' -> wake_inv w -> wake_inv w'.
Proof.
  intros St (W & B & I). destruct St as [w Pn|w A|w seen S|w seen P|w r k L|w k L|w seen A]; unfold wake_inv.
  - cbn -[Z.pow Z.modulo]. split; [by apply Z.mod_pos_bound|]. split; [lia|].
    destruct (wk_waiter w) as [|seen|seen|seen|]; [done| | |done|done].
    + destruct I as [? ->]. by rewrite bumped_word.
    + destruct I as (? & -> & ?). rewrite bumped_word. split; [done|]. split; [done|]. lia.
  - cbn -[Z.pow Z.modulo]. split; [done|]. split; [done|]. split; [done|].
    by rewrite Z.add_0_r, Z.mod_small.
  - rewrite S in I. unfold scan_again. destruct (Nat.leb_spec (wk_need w) (wk_free w)); cbn -[Z.pow Z.modulo]; [done|].
    split; [done|]. split; [done|]. destruct I. split; [done|]. split; [done|]. intros _. by left.
  - rewrite P in I. cbn -[Z.pow Z.modulo]. split; [done|]. split; [done|]. destruct I as (Hs & E & T).
    destruct (Z.eqb_spec (wk_word w) seen) as [Eq|]; [|done].
    destruct (unbumped_word seen (wk_bumps w)) as [Z0|]; [done|done|congruence| |by right].
    left. by apply T.
  - pose proof (told_let_go r k w) as T. cbn -[Z.pow Z.modulo will_be_told let_go].
    split; [done|]. split; [done|]. cbn [let_go]. destruct (wk_waiter w) eqn:E; cbn -[Z.pow Z.modulo will_be_told]; rewrite E; naive_solver.
  - pose proof (told_retake k w) as T. cbn -[Z.pow Z.modulo will_be_told retake].
    split; [done|]. split; [done|]. destruct (wk_waiter w) eqn:E; cbn -[Z.pow Z.modulo will_be_told]; rewrite E; naive_solver.
  - by cbn -[Z.pow Z.modulo].
Qed.

(** C36. No wake-up is lost: whenever a waiter sleeps on the shared word while the
    slots it needs are free, a process that dropped its permit is still about to
    bump the word and wake it; the exceptions are that slots were last released in
    a way that publishes nothing (the end of a test lease, a scan that gave back
    its locks, a killed holder, a wake file that cannot be opened) and 2^32 bumps
    since the sample, which the time slice covers. *)
Theorem no_lost_wakeup word need free held w seen :
  0 <= word < 2 ^ 32 -> rtc wake_step (wake_start word need free held) w ->
  wk_waiter w = Asleep seen -> (wk_need w <= wk_free w)%nat ->
  (0 < wk_pending w)%nat \/ notifies (wk_last w) = false \/ 2 ^ 32 <= wk_bumps w.
Proof.
  intros Hw R A L. assert (I : wake_inv w).
  { assert (I0 : wake_inv (wake_start word need free held)) by (unfold wake_inv; cbn -[Z.pow]; lia).
    revert I0. clear A L. induction R as [|x y z St R IH]; [done|]. intros I. by apply IH, (wake_step_inv x). }
  destruct I as (_ & _ & I). rewrite A in I. unfold will_be_told in I. destruct I as [[?|I]|?]; [lia|naive_solver|by right; right].
Qed.
