(* ===== verification/FlightProofs.v ===== *)
(** * Proofs about flights, weight files and test leases *)

From S2P Require Import Prelude Strings Codec StorePolicy Evict Cgroup Scheduler SchedulerProofs.
#[local] Open Scope string_scope.
#[local] Open Scope Z_scope.

(** ** Flights *)

Lemma elem_of_dedup x l : x ∈ dedup l <-> x ∈ l.
Proof.
  induction l as [|a [|b l] IH]; [done|done|]. cbn [dedup].
  destruct (String.eqb_spec a b) as [->|]; [rewrite IH; set_solver|]. rewrite !elem_of_cons in *. rewrite IH. done.
Qed.
Definition str_le (a b : string) : Prop := String.leb a b = true.
#[local] Instance str_le_trans : Transitive str_le.
Proof. intros ???. apply string_leb_trans. Qed.
Lemma dedup_sorted l : StronglySorted str_le l -> StronglySorted str_le (dedup l) /\ NoDup (dedup l).
Proof.
  induction l as [|a [|b l] IH]; intros S; [by repeat constructor|split; [done|apply NoDup_singleton]|].
  apply StronglySorted_inv in S as [S F]. specialize (IH S) as [I1 I2]. cbn [dedup].
  destruct (String.eqb_spec a b) as [->|N]; [done|].
  assert (F' : Forall (str_le a) (dedup (b :: l))).
  { apply Forall_forall. intros x Hx. rewrite elem_of_dedup in Hx. rewrite Forall_forall in F. exact (F x Hx). }
  split; [by constructor|]. constructor; [|done]. intros Ha. apply (elem_of_dedup a (b :: l)) in Ha. apply N.
  rewrite Forall_forall in F. apply string_leb_antisym; [apply F; set_solver|].
  apply elem_of_cons in Ha as [->|Ha]; [apply string_leb_refl|].
  apply StronglySorted_inv in S as [_ G]. rewrite Forall_forall in G. by apply G.
Qed.
Lemma sort_strings_sorted l : StronglySorted str_le (sort_by String.leb l).
Proof.
  apply Sorted_StronglySorted; [exact str_le_trans|]. apply sort_by_sorted. apply string_leb_total.
Qed.
(** Sorting and deduplicating forgets order and repetition, nothing else. *)
Lemma canonical_types_eq l1 l2 :
  (forall x, x ∈ l1 <-> x ∈ l2) -> dedup (sort_by String.leb l1) = dedup (sort_by String.leb l2).
Proof.
  intros H. destruct (dedup_sorted _ (sort_strings_sorted l1)) as [S1 D1].
  destruct (dedup_sorted _ (sort_strings_sorted l2)) as [S2 D2].
  assert (P : dedup (sort_by String.leb l1) ≡ₚ dedup (sort_by String.leb l2)).
  { apply NoDup_Permutation; [done|done|]. intros x. by rewrite !elem_of_dedup, !sort_by_perm. }
  rewrite <-(sort_by_sorted_id _ _ (StronglySorted_Sorted S1)), <-(sort_by_sorted_id _ _ (StronglySorted_Sorted S2)).
  apply sort_by_perm_eq; eauto using string_leb_total, string_leb_trans, string_leb_antisym.
Qed.

Definition nul_free (s : string) : bool := all_bytes (fun a => negb (Ascii.eqb a "000")) s.
Lemma nul_field_inj a1 a2 r1 r2 :
  nul_free a1 = true -> nul_free a2 = true -> a1 ++ nul ++ r1 = a2 ++ nul ++ r2 -> a1 = a2 /\ r1 = r2.
Proof.
  intros H1 H2 E. change (a1 ++ String "000" r1 = a2 ++ String "000" r2) in E.
  pose proof (split_once_app _ _ r1 H1) as S1. rewrite E, (split_once_app _ _ r2 H2) in S1. by simplify_eq.
Qed.
Definition identity_ok (f : FlightIdentity) : Prop :=
  nul_free (fi_compiler f) = true /\ nul_free (fi_crate_name f) = true /\ nul_free (fi_output_kind f) = true.
Lemma flight_preimage_inj f g :
  identity_ok f -> identity_ok g -> flight_preimage f = flight_preimage g -> f = g.
Proof.
  destruct f, g. unfold identity_ok, flight_preimage. cbn. intros (?&?&?) (?&?&?) E.
  apply nul_field_inj in E as [-> E]; [|done|done]. apply nul_field_inj in E as [-> E]; [|done|done].
  apply nul_field_inj in E as [-> ->]; done.
Qed.

(** Two compiles join the same flight exactly when they are the same compile:
    unless the digest collides, equal digests mean the same compiler, name, output
    kind and cache key; and the order and repetition in which a command line names
    its crate types do not split a flight. *)
Theorem flights_are_identities (blake3_hex : string -> string) f g name types types' link key :
  identity_ok f -> identity_ok g ->
  (blake3_hex (flight_preimage f) = blake3_hex (flight_preimage g) -> flight_preimage f = flight_preimage g) ->
  (forall x, x ∈ types <-> x ∈ types') ->
  (flight_digest blake3_hex f = flight_digest blake3_hex g <-> f = g) /\
  flight_digest blake3_hex (with_key key (flight_rustc name types link))
  = flight_digest blake3_hex (with_key key (flight_rustc name types' link)).
Proof.
  intros Hf Hg Coll Ht. split.
  - split; [|by intros ->]. intros E. by apply flight_preimage_inj, Coll.
  - unfold flight_rustc. by rewrite (canonical_types_eq _ _ Ht).
Qed.

(** ** Weight files *)

Lemma chars_digits s :
  all_bytes is_ascii_digit s = true ->
  unchars (chars s) = s /\ Forall (fun c => char_ws c = false) (chars s).
Proof.
  induction s as [|a s IH]; cbn [all_bytes]; [done|]. intros [Ha Hs]%andb_prop.
  destruct (IH Hs) as [U F]. unfold is_ascii_digit, between in Ha. bool_to_prop.
  cbn [chars]. rewrite (proj2 (Z.ltb_lt (byte_val a) 128)) by lia. split.
  - unfold unchars in *. cbn. by rewrite U.
  - constructor; [|done]. unfold char_ws, is_whitespace, between. cbn [fst].
    repeat match goal with
    | |- context [?x <=? ?y] => destruct (Z.leb_spec x y); try lia
    | |- context [?x =? ?y] => destruct (Z.eqb_spec x y); try lia
    end; done.
Qed.
Lemma drop_while_none {A} (p : A -> bool) l : Forall (fun c => p c = false) l -> drop_while p l = l.
Proof. destruct 1 as [|x l H]; cbn; [done|]. by rewrite H. Qed.
Lemma trim_digits s : all_bytes is_ascii_digit s = true -> trim s = s.
Proof.
  intros H. destruct (chars_digits s H) as [U F]. unfold trim. rewrite (drop_while_none _ (chars s)) by done.
  rewrite drop_while_none by (by apply Forall_rev). by rewrite rev_involutive.
Qed.
Lemma drop_zeros_spec s :
  all_bytes is_ascii_digit s = true ->
  all_bytes is_ascii_digit (drop_zeros s) = true /\ parse_digits 0 (drop_zeros s) = parse_digits 0 s /\
  (s <> "" -> drop_zeros s <> "").
Proof.
  induction s as [|c s IH]; [done|]. intros H. destruct s as [|d s]; [done|].
  cbn [drop_zeros]. destruct (Ascii.eqb_spec c "0") as [->|]; [|done].
  cbn [all_bytes] in H. apply andb_prop in H as [_ H]. destruct (IH H) as (I1 & I2 & I3).
  split; [exact I1|]. split; [|by auto]. etransitivity; [exact I2|done].
Qed.
(** What [write_weight] wrote is what [read_weight] reads. *)
Lemma weight_round_trip rss : 0 <= rss <= u64_max -> read_weight (Some (weight_text rss)) = Some rss.
Proof.
  intros H. unfold read_weight, weight_text, fmt_dec. cbn [mbind option_bind].
  destruct (drop_zeros_spec (fmt_padded 20 rss) (fmt_padded_digits _ _)) as (D & P & N).
  rewrite trim_digits by done. apply parse_unsigned_digits; [|done| |lia].
  - apply N. intros E. pose proof (slen_fmt_padded 20 rss) as L. rewrite E in L. done.
  - rewrite P. apply parse_fmt_padded. unfold u64_max in H. lia.
Qed.
Lemma rss_from_getrusage_range rc m r : rss_from_getrusage rc m = Some r -> 0 <= r <= u64_max.
Proof.
  unfold rss_from_getrusage, saturating_mul, u64_max. destruct (negb _); [done|].
  destruct (Z.leb_spec m 0); [done|]. intros [= <-]. lia.
Qed.

(** ** Test leases *)

Section Lease.
Context {E : Type}.

Lemma lock_markers_all rounds (env : Z -> nat -> Attempt E) wait slots :
  lock_markers rounds env wait slots = Some true ->
  Forall (fun i => acquire_within rounds (env i) 0 (Z.min MARKER_WAIT wait) = Some (Ok true)) slots.
Proof.
  induction slots as [|i slots IH]; cbn [lock_markers]; [constructor|]. unfold lock_marker.
  destruct (acquire_within _ _ _ _) as [[[]|]|] eqn:A; try done. intros H. constructor; auto.
Qed.
Lemma take_free_slots_spec (free : Z -> result E bool) lo hi i :
  i ∈ take_free_slots free lo hi -> lo <= i < hi /\ free i = Ok true.
Proof.
  intros [Hi F]%list_elem_of_In%filter_In. apply list_elem_of_In, elem_of_seqZ in Hi.
  split; [lia|]. by destruct (free i) as [[]|].
Qed.
Definition floor_of (want : TestWant) : Z := match want with Fixed s => s | Elastic f => f end.

(** A test lease holds only slots above the compile reserve, at least as many as
    the test needs and, for a fixed want, exactly that many; the marker of every
    slot is locked, and the one its children inherit is the lowest. *)
Theorem test_lease_sound rounds (env : nat -> Round E) pool want free markers wait lease :
  acquire_test_lease rounds env pool want free markers wait = Some (Some lease) ->
  Forall (fun i => reserve_for pool <= i < pool) (tl_slots lease) /\
  test_need (floor_of want) pool <= Z.of_nat (length (tl_slots lease)) /\
  (forall n, want = Fixed n -> 1 <= test_need n pool -> Z.of_nat (length (tl_slots lease)) = test_need n pool) /\
  Forall (fun i => acquire_within rounds (markers i) 0 (Z.min MARKER_WAIT wait) = Some (Ok true)) (tl_slots lease) /\
  tl_marker lease ∈ tl_slots lease /\ Forall (fun i => tl_marker lease <= i) (tl_slots lease).
Proof.
  unfold acquire_test_lease.
  destruct (match want with Fixed s => (s, false) | Elastic f => (f, true) end) as [fl elastic] eqn:W.
  assert (Fl : floor_of want = fl /\ (forall n, want = Fixed n -> elastic = false /\ fl = n))
    by (destruct want; naive_solver). destruct Fl as [-> Fx].
  destruct (test_need fl pool =? 0); [done|].
  destruct (wait_for_permit _ _ _ _ _ _ _) as [[slots|]|] eqn:P; [|done|done].
  apply wait_for_permit_ok in P as (n & k & w & _ & L & _ & R). cbn beta in L. set (extra := if elastic then _ else _).
  destruct (lock_markers _ _ _ _) as [[]|] eqn:M; [|done|done]. apply lock_markers_all in M.
  assert (R1 : Forall (fun i => reserve_for pool <= i < pool) slots)
    by (destruct R as [R|R]; eapply Forall_impl; [exact R| |exact R|]; cbn; tauto).
  assert (R2 : Forall (fun i => reserve_for pool <= i < pool) extra).
  { subst extra. destruct elastic; [|constructor]. apply Forall_forall. intros i Hi. by apply take_free_slots_spec in Hi as [? _]. }
  destruct (slots ++ extra)%list as [|s rest] eqn:Eq; [done|]. intros [= <-]. cbn [tl_slots tl_marker].
  pose proof (f_equal length Eq) as Len. rewrite length_app in Len.
  split; [rewrite <-Eq; by apply Forall_app|]. split; [lia|]. split; [|split; [done|apply fold_min_spec]].
  intros m Hm Hn. destruct (Fx m Hm) as [-> ->]. subst extra. cbn [length] in *. lia.
Qed.
End Lease.

(** ** Misses *)

Section Misses.
Context {E : Type}.

Lemma acquire_permit_slots rounds (env : nat -> Round E) weight pool pressured held slots :
  1 <= pool -> acquire_permit rounds env weight pool pressured held = Some (Some slots) ->
  1 <= Z.of_nat (length slots) <= pool /\ NoDup slots /\ Forall (fun i => 0 <= i < pool) slots.
Proof.
  intros Hp H. unfold acquire_permit in H. apply wait_for_permit_ok in H as (n & k & w & _ & L & S & R).
  cbn beta in L. pose proof (compile_need_bounds (pressure_weight weight pool (pressured k)) pool w (held k) Hp).
  split; [lia|]. split.
  - clear - S. induction S as [|x l S IH F]; constructor; [|done]. rewrite Forall_forall in F.
    intros Hx. specialize (F _ Hx). lia.
  - destruct R as [R|R]; (eapply Forall_impl; [exact R|]); cbn; tauto.
Qed.

(** What a miss may be told, on every path: with the scheduler off or unusable,
    and whenever its locks fail or time out, it compiles at once holding nothing;
    it is sent back to the store only after a wait for another owner of its flight;
    and a compile that owns its flight has either no permit or between one slot and
    the whole pool, none twice, and never any under a test's lease. *)
Theorem begin_miss_outcomes rounds (e : MissEnv E) enabled dirs pool_size is_link r :
  begin_miss rounds e enabled dirs pool_size is_link = Some r ->
  match r with
  | Recheck => enabled = true /\ dirs = true /\ me_flight e = Ok false /\
               acquire_within rounds (me_wait e) 0 (me_timeout e) = Some (Ok true)
  | CompileMiss g =>
      (g = empty_guard /\ ~ (enabled = true /\ dirs = true /\ me_flight e = Ok true)) \/
      (me_flight e = Ok true /\ mg_flight g = true /\ mg_weights g = true /\
       match mg_permit g with
       | None => True
       | Some slots => me_covered e = false /\ 1 <= Z.of_nat (length slots) <= Z.max pool_size 1 /\
                       NoDup slots /\ Forall (fun i => 0 <= i < Z.max pool_size 1) slots
       end)
  end.
Proof.
  unfold begin_miss, open_with. destruct enabled; cbn [negb]; [|intros [= <-]; left; naive_solver].
  destruct dirs; [|intros [= <-]; left; naive_solver].
  unfold scheduler_begin_miss, join_flight.
  destruct (me_flight e) as [[]|err] eqn:F; [| |intros [= <-]; left; naive_solver].
  - destruct (miss_permit _ _ _ _) as [permit|] eqn:M; [|done]. intros [= <-]. right. cbn.
    split; [done|]. split; [done|]. split; [done|]. destruct permit as [slots|]; [|done].
    unfold miss_permit in M. destruct (me_covered e); [done|]. split; [done|].
    by eapply acquire_permit_slots; [lia|].
  - destruct (acquire_within _ _ _ _) as [[[]|]|] eqn:A; [| | |done];
      intros [= <-]; [done|left; naive_solver..].
Qed.
End Misses.
