(* ===== verification/SchedulerWitness.v ===== *)
(** * Instances of the scheduler's theorems

    Each hypothesis is met by a concrete pool, schedule or digest. *)

From S2P Require Import Prelude Strings Codec StorePolicy Evict Cgroup Scheduler SchedulerProofs FlightProofs.
#[local] Open Scope string_scope.
#[local] Open Scope Z_scope.

Lemma scan_takes_lowest_free_witness :
  try_collect_slots (E := unit) (fun i => Ok (negb (i =? 1))) 0 4 2 = Ok (CollectReady [0; 2]).
Proof. exact (scan_takes_lowest_free (fun i => negb (i =? 1)) 0 4 2 ltac:(lia)). Defined.

(** Slot 0 is held until the third round, when the timeout has passed too. *)
Definition demo_round (n : nat) : Round unit :=
  {| rd_cancelled := false; rd_first := fun i => Ok (negb (i =? 0) || (2 <=? Z.of_nat n));
     rd_first_expired := 2 <=? Z.of_nat n; rd_second := fun i => Ok (negb (i =? 0));
     rd_second_expired := false |}.
Lemma wait_for_permit_settles_witness :
  exists r, wait_for_permit 3 demo_round 0 0 3 (fun _ _ => 3) false = Some r /\
            permit_ok demo_round 0 3 (fun _ _ => 3) 2 r.
Proof. apply (wait_for_permit_settles demo_round 0 3 (fun _ _ => 3) 2 3); [lia|reflexivity]. Defined.

(** A lock that stays held, on a clock that runs 100 ms per attempt. *)
Definition demo_attempt (n : nat) : Attempt unit :=
  {| at_cancelled := None; at_lock := Ok false; at_elapsed := 100 * Z.of_nat n;
     at_nap_elapsed := 100 * Z.of_nat n |}.
Lemma acquire_within_terminates_witness :
  exists r, acquire_within (Z.to_nat 1000 + 1) demo_attempt 0 1000 = Some r.
Proof.
  apply (acquire_within_terminates demo_attempt 1000 10); [lia|lia|cbn; lia|].
  intros n. unfold nap. cbn [demo_attempt at_elapsed at_nap_elapsed]. lia.
Defined.

(** A pool of four slots: test 7 runs on slots 1 to 3, compile 9 is idle. *)
Definition demo_pool : Pool :=
  {| slots_of := <[3 := 7%nat]> (<[2 := 7%nat]> {[1 := 7%nat]});
     jobs := <[9%nat := {| job_kind := CompileJob; job_need := 1; job_held := []; job_phase := Idle |}]>
               {[7%nat := {| job_kind := TestJob; job_need := 3; job_held := [1; 2; 3]; job_phase := Running |}]} |}.
Lemma demo_pool_reachable : pool_reachable 4 demo_pool.
Proof.
  eapply rtc_l; [apply (pool_arrive 4 _ 7 TestJob); reflexivity|].
  eapply rtc_l; [apply (pool_start_test 4 _ 7 {| job_kind := TestJob; job_need := 1; job_held := []; job_phase := Idle |} 3); try reflexivity; done|].
  eapply rtc_l; [eapply (pool_try 4 _ 7); reflexivity|].
  eapply rtc_l; [eapply (pool_try 4 _ 7); reflexivity|].
  eapply rtc_l; [eapply (pool_try 4 _ 7); reflexivity|].
  eapply rtc_l; [apply (pool_arrive 4 _ 9 CompileJob); reflexivity|].
  match goal with |- rtc _ ?a ?b => replace a with b by (vm_compute; reflexivity) end. apply rtc_refl.
Qed.

Lemma pool_never_overcommitted_witness : Z.of_nat (length (slots_held is_test demo_pool)) <= 4 - reserve_for 4.
Proof.
  exact (proj1 (proj2 (proj2 (pool_never_overcommitted 4 demo_pool ltac:(lia) demo_pool_reachable)))).
Defined.
Definition demo_compile : Job :=
  {| job_kind := CompileJob; job_need := 1; job_held := []; job_phase := Idle |}.
Lemma demo_only_tests q jq : jobs demo_pool !! q = Some jq -> job_held jq <> [] -> job_kind jq = TestJob.
Proof.
  unfold demo_pool; cbn [jobs]. rewrite lookup_insert_Some, lookup_singleton_Some. naive_solver.
Qed.
Lemma waited_compile_admitted_witness :
  let dir := Entries [Some true; Some true; Some true] in
  let need := Z.max (compile_need 4 4 true (tests_held dir)) 1 in
  exists s' j', s' = run_scan (Z.to_nat 4 + 1) 4 9 (set_job 9 (with_phase need [] (Scanning 0) demo_compile) demo_pool) /\
    pool_reachable 4 s' /\ jobs s' !! 9%nat = Some j' /\ job_phase j' = Running.
Proof.
  exact (waited_compile_admitted 4 demo_pool 9 demo_compile 4 (Entries [Some true; Some true; Some true])
    ltac:(lia) demo_pool_reachable eq_refl eq_refl eq_refl demo_only_tests ltac:(by vm_compute)).
Defined.
(** Eight gibibytes and a test that once peaked at six of them. *)
Lemma admitted_memory_fits_witness :
  running_rss (fun _ => 6 * 2 ^ 30) (map_to_list (jobs demo_pool)) <= Z.max (8 * 2 ^ 30) (4 * RSS_BYTES_PER_SLOT).
Proof.
  apply (admitted_memory_fits (Some (8 * 2 ^ 30)) 4 demo_pool (fun _ => 6 * 2 ^ 30) ltac:(by vm_compute) demo_pool_reachable).
  intros p j. unfold demo_pool; cbn [jobs]. rewrite lookup_insert_Some, lookup_singleton_Some.
  intros [[<- <-]|[_ [<- <-]]]; [done|]. intros _. by vm_compute.
Defined.

(** A compile of two slots sleeps; a holder of two has unlocked and not yet bumped. *)
Definition demo_wake : Wake :=
  {| wk_word := 7; wk_need := 2; wk_free := 3; wk_held := 1; wk_pending := 1; wk_last := PermitDropped true; wk_waiter := Asleep 7;
     wk_bumps := 0 |}.
Lemma demo_wake_reachable : rtc wake_step (wake_start 7 2 1 3) demo_wake.
Proof.
  eapply rtc_l; [by apply wake_sample|]. eapply rtc_l; [by eapply (wake_scan _ 7)|].
  eapply rtc_l; [by eapply (wake_park _ 7)|]. eapply rtc_l; [apply (wake_release _ (PermitDropped true) 2); cbn; lia|]. apply rtc_refl.
Qed.
Lemma no_lost_wakeup_witness : (0 < wk_pending demo_wake)%nat \/ notifies (wk_last demo_wake) = false \/ 2 ^ 32 <= wk_bumps demo_wake.
Proof. exact (no_lost_wakeup 7 2 1 3 demo_wake 7 ltac:(lia) demo_wake_reachable eq_refl ltac:(cbn; lia)). Defined.

Definition demo_flight (key : string) : FlightIdentity := with_key key (flight_rustc "serde" ["lib"; "rlib"] true).
Lemma flights_are_identities_witness :
  (flight_digest toy_hex (demo_flight "k1") = flight_digest toy_hex (demo_flight "k2") <-> demo_flight "k1" = demo_flight "k2") /\
  flight_digest toy_hex (with_key "k" (flight_rustc "serde" ["lib"; "rlib"] true))
  = flight_digest toy_hex (with_key "k" (flight_rustc "serde" ["rlib"; "lib"; "rlib"] true)).
Proof.
  apply (flights_are_identities toy_hex (demo_flight "k1") (demo_flight "k2") "serde" ["lib"; "rlib"] ["rlib"; "lib"; "rlib"] true "k");
    [by vm_compute|by vm_compute| |set_solver].
  intros E. exfalso.
  assert (N : String.eqb (toy_hex (flight_preimage (demo_flight "k1"))) (toy_hex (flight_preimage (demo_flight "k2"))) = false)
    by (vm_compute; reflexivity).
  rewrite E, String.eqb_refl in N. discriminate.
Defined.

Definition demo_free_round (n : nat) : Round unit :=
  {| rd_cancelled := false; rd_first := fun _ => Ok true; rd_first_expired := false;
     rd_second := fun _ => Ok true; rd_second_expired := false |}.
Definition demo_marker (i : Z) (n : nat) : Attempt unit :=
  {| at_cancelled := None; at_lock := Ok true; at_elapsed := 0; at_nap_elapsed := 0 |}.
Lemma test_lease_sound_witness : 2 <= Z.of_nat (length [1; 2]).
Proof.
  exact (proj1 (proj2 (test_lease_sound 1 demo_free_round 4 (Fixed 2) (fun _ => Ok false) demo_marker 1000
    {| tl_slots := [1; 2]; tl_marker := 1 |} eq_refl))).
Defined.

(** A compile that owns its flight takes the two slots its recorded gibibyte needs. *)
Definition demo_miss : MissEnv unit :=
  {| me_flight := Ok true; me_wait := demo_attempt; me_timeout := 1000; me_covered := false;
     me_weight := Some "1073741824"; me_memory := None; me_rounds := demo_free_round;
     me_pressured := fun _ => false; me_tests := fun _ => DirNotFound |}.
Lemma begin_miss_outcomes_witness :
  (compiling (Some [0; 1]) = empty_guard /\ ~ (true = true /\ true = true /\ me_flight demo_miss = Ok true)) \/
  (me_flight demo_miss = Ok true /\ true = true /\ true = true /\
   (me_covered demo_miss = false /\ 1 <= Z.of_nat (length [0; 1]) <= Z.max 4 1 /\
    NoDup [0; 1] /\ Forall (fun i => 0 <= i < Z.max 4 1) [0; 1])).
Proof.
  exact (begin_miss_outcomes 1 demo_miss true true 4 false (CompileMiss (compiling (Some [0; 1]))) eq_refl).
Defined.
