(* ===== verification/Bytes.v ===== *)
(** * Reading untrusted bytes

    What the binary readers share: slices and little-endian numbers of byte
    strings, and computations that stop.  A reader refuses its input
    ([Refused], an [ensure!], [bail!], [context] or [None] of the source); an index
    or slice out of bounds is [Panic]; a loop that is run for a number of rounds
    and has not finished is [OutOfFuel].  [safe m P] rules the last two out. *)

From S2P Require Import Prelude Strings.
#[local] Open Scope string_scope.
#[local] Open Scope Z_scope.

Inductive ReadError := Refused (why : string) | Panic | OutOfFuel.
Definition require (b : bool) (why : string) : result ReadError unit := ensure b (Refused why).
Definition or_panic {A} (o : option A) : result ReadError A := with_context o Panic.
Definition or_refuse {A} (o : option A) (why : string) : result ReadError A := with_context o (Refused why).


(** [as_chunks::<n>().0]: the whole chunks, without the remainder. *)
Fixpoint chunks_from (count n : nat) (s : string) : list string :=
  match count with O => [] | S count => stake n s :: chunks_from count n (sdrop n s) end.
Definition chunks (n : nat) (s : string) : list string := chunks_from (String.length s / n) n s.
Definition words (s : string) : list Z := map from_le_bytes (chunks 4 s).


(** ** Computations that do not panic

    [safe m P]: [m] ends, without a panic, and refuses its input or returns a
    value that satisfies [P]. *)

Definition safe {A} (m : result ReadError A) (P : A -> Prop) : Prop :=
  match m with Ok a => P a | Err (Refused _) => True | Err _ => False end.

Lemma safe_bind {A B} (m : result ReadError A) (k : A -> result ReadError B) (P : B -> Prop) :
  safe m (fun a => safe (k a) P) -> safe (m ≫= k) P.
Proof. by destruct m as [|[]]. Qed.
Lemma safe_mono {A} (m : result ReadError A) (P Q : A -> Prop) :
  safe m P -> (forall a, m = Ok a -> P a -> Q a) -> safe m Q.
Proof. destruct m as [a|[]]; cbn; auto. Qed.
Lemma safe_no_panic {A} (m : result ReadError A) P : safe m P -> m <> Err Panic.
Proof. destruct m as [|[]]; cbn; congruence. Qed.
Lemma safe_Ok {A} (m : result ReadError A) P a : safe m P -> m = Ok a -> P a.
Proof. by intros H ->. Qed.
Lemma safe_require b why (P : unit -> Prop) : (b = true -> P tt) -> safe (require b why) P.
Proof. unfold require, ensure. destruct b; cbn; auto. Qed.
Lemma safe_or_refuse {A} (o : option A) why (P : A -> Prop) :
  (forall a, o = Some a -> P a) -> safe (or_refuse o why) P.
Proof. unfold or_refuse, with_context. destruct o; cbn; auto. Qed.
Lemma safe_slice s a b (P : string -> Prop) :
  0 <= a <= b -> b <= slen s -> (forall t, slice s a b = Some t -> slen t = b - a -> P t) ->
  safe (or_panic (slice s a b)) P.
Proof.
  intros H1 H2 HP. destruct (slice_Some s a b) as [t E]; [lia..|]. rewrite E. cbn.
  apply HP; [done|]. by eapply slice_len.
Qed.
Lemma from_le_bytes_bounds s : 0 <= from_le_bytes s < 256 ^ slen s.
Proof.
  induction s as [|c s IH]; [done|]. unfold slen in *. cbn [from_le_bytes String.length].
  rewrite Nat2Z.inj_succ, Z.pow_succ_r by lia. pose proof (byte_val_bound c). lia.
Qed.
Definition u32 (v : Z) : Prop := 0 <= v <= u32_max.
Lemma safe_fold {S A} (f : S -> A -> result ReadError S) (I : list A -> S -> Prop) (P : S -> Prop) l s :
  I l s -> (forall a l s, I (a :: l) s -> safe (f s a) (I l)) -> (forall s, I [] s -> P s) ->
  safe (try_fold f s l) P.
Proof.
  intros H0 Hs HP. revert s H0. induction l as [|a l IH]; intros s H0; cbn [try_fold]; [cbn; auto|].
  apply safe_bind. eapply safe_mono; [by apply Hs|]. auto.
Qed.

(** ** Chunks *)

Lemma chunks_from_len count n s c :
  (count * n <= String.length s)%nat -> c ∈ chunks_from count n s -> slen c = Z.of_nat n.
Proof.
  revert s. induction count as [|count IH]; intros s L; cbn; [by intros ?%elem_of_nil|].
  rewrite elem_of_cons. intros [->|H].
  - rewrite slen_stake. unfold slen. lia.
  - eapply IH; [|exact H]. pose proof (slen_sdrop n s) as D. unfold slen in D. lia.
Qed.
Lemma chunks_len n s c : (0 < n)%nat -> c ∈ chunks n s -> slen c = Z.of_nat n.
Proof.
  intros Hn. apply chunks_from_len. rewrite Nat.mul_comm. apply Nat.Div0.mul_div_le.
Qed.
Lemma length_chunks_from count n s : length (chunks_from count n s) = count.
Proof. revert s. induction count as [|count IH]; intros s; cbn; [done|]. by rewrite IH. Qed.
Lemma length_words s : Z.of_nat (length (words s)) = slen s / 4.
Proof.
  unfold words, chunks. rewrite length_map, length_chunks_from. unfold slen.
  by rewrite Nat2Z.inj_div.
Qed.
Lemma words_u32 s v : v ∈ words s -> u32 v.
Proof.
  intros (c & -> & Hc)%list_elem_of_fmap. apply chunks_len in Hc; [|lia].
  pose proof (from_le_bytes_bounds c) as B. rewrite Hc in B. unfold u32, u32_max. cbn in B. lia.
Qed.

Lemma div_ceil_covers a b : 0 < b -> a <= div_ceil a b * b.
Proof.
  intros B. unfold div_ceil. pose proof (Z.div_mod (a + b - 1) b ltac:(lia)).
  pose proof (Z.mod_pos_bound (a + b - 1) b B). lia.
Qed.
Lemma div_ceil_pos a b : 0 < a -> 0 < b -> 0 < div_ceil a b.
Proof. intros. unfold div_ceil. apply Z.div_str_pos. lia. Qed.

(** ** Readers of [Option]-valued code

    [None] carries no message; an index that the source computes with plain
    arithmetic panics when it overflows ([uadd]). *)

Definition or_none {A} (o : option A) : result ReadError A := or_refuse o "unsupported".
Definition accept (b : bool) : result ReadError unit := require b "unsupported".
Definition reject {A} : result ReadError A := Err (Refused "unsupported").
(** [bytes.get(a..b)?] and [bytes.get(a..)?] *)
Definition get_range (s : string) (a b : Z) : result ReadError string := or_none (slice s a b).
Definition get_from (s : string) (a : Z) : result ReadError string := get_range s a (slen s).
(** [bytes.get(i)] *)
Definition byte_at (s : string) (i : Z) : option ascii := if 0 <=? i then String.get (Z.to_nat i) s else None.
(** [iter().position(p)], [iter().rposition(p)] *)
Fixpoint position (p : ascii -> bool) (s : string) : option Z :=
  match s with
  | "" => None
  | String c s => if p c then Some 0 else i ← position p s; Some (i + 1)
  end.
Fixpoint rposition (p : ascii -> bool) (s : string) : option Z :=
  match s with
  | "" => None
  | String c s => match rposition p s with Some i => Some (i + 1) | None => if p c then Some 0 else None end
  end.
Definition is_byte (n : Z) (c : ascii) : bool := byte_val c =? n.
Fixpoint reverse_bytes (s : string) : string :=
  match s with "" => "" | String c s => reverse_bytes s ++ String c "" end.
(** [uN::from_be_bytes] *)
Definition from_be_bytes (s : string) : Z := from_le_bytes (reverse_bytes s).

(** [m.is_some()], a panic of [m] included. *)
Definition is_accepted {A} (m : result ReadError A) : result ReadError bool :=
  match m with Ok _ => Ok true | Err (Refused _) => Ok false | Err e => Err e end.

(** A [while] loop, run for at most [fuel] rounds. *)
Fixpoint while_loop {S} (fuel : nat) (cond : S -> bool) (body : S -> result ReadError S) (s : S)
    : result ReadError S :=
  match fuel with
  | O => Err OutOfFuel
  | Datatypes.S fuel => if cond s then s' ← body s; while_loop fuel cond body s' else Ok s
  end.

(** [eq_ignore_ascii_case] *)
Definition same_ignoring_case (a b : string) : bool :=
  String.eqb (to_ascii_lowercase a) (to_ascii_lowercase b).

Section Checked.
Context `{Usize}.
Definition cadd (a b : Z) : result ReadError Z := or_none (checked_add usize_max a b).
Definition cmul (a b : Z) : result ReadError Z := or_none (checked_mul usize_max a b).
Definition uadd (a b : Z) : result ReadError Z := or_panic (checked_add usize_max a b).
Definition to_usize (a : Z) : result ReadError Z := or_none (usize_try_from a).
End Checked.

(** ** Rules for the readers *)

Lemma slice_spec s a b t :
  slice s a b = Some t <->
  0 <= a <= b /\ b <= slen s /\ t = stake (Z.to_nat (b - a)) (sdrop (Z.to_nat a) s).
Proof.
  unfold slice. destruct ((0 <=? a) && (a <=? b) && (b <=? slen s)) eqn:E.
  - apply andb_prop in E as [[? ?]%andb_prop ?]. bool_to_prop. split; [intros [= <-]|intros (_ & _ & ->)]; auto.
  - split; [done|]. intros (? & ? & _). rewrite !andb_false_iff in E. destruct E as [[E|E]|E]; bool_to_prop; lia.
Qed.
Lemma safe_or_none {A} (o : option A) (P : A -> Prop) : (forall a, o = Some a -> P a) -> safe (or_none o) P.
Proof. apply safe_or_refuse. Qed.
Lemma safe_accept b (P : unit -> Prop) : (b = true -> P tt) -> safe (accept b) P.
Proof. apply safe_require. Qed.
Lemma safe_get_range s a b (P : string -> Prop) :
  (forall t, slice s a b = Some t -> 0 <= a <= b -> b <= slen s -> slen t = b - a -> P t) -> safe (get_range s a b) P.
Proof.
  intros HP. apply safe_or_none. intros t Ht. pose proof Ht as (? & ? & _)%slice_spec.
  apply HP; [done..|]. by eapply slice_len.
Qed.
Lemma safe_get_from s a (P : string -> Prop) :
  (forall t, slice s a (slen s) = Some t -> 0 <= a <= slen s -> slen t = slen s - a -> P t) ->
  safe (get_from s a) P.
Proof. intros HP. apply safe_get_range. auto. Qed.
Lemma position_Some p s i : position p s = Some i -> 0 <= i < slen s.
Proof.
  revert i. induction s as [|c s IH]; intros i; cbn; [done|]. destruct (p c).
  - intros [= <-]. unfold slen. cbn. lia.
  - intros (j & Hj & [= <-])%bind_Some. specialize (IH j Hj). unfold slen in *. cbn. lia.
Qed.
Lemma rposition_Some p s i : rposition p s = Some i -> 0 <= i < slen s.
Proof.
  revert i. induction s as [|c s IH]; intros i; cbn; [done|].
  destruct (rposition p s) as [j|].
  - intros [= <-]. specialize (IH j eq_refl). unfold slen in *. cbn. lia.
  - destruct (p c); [|done]. intros [= <-]. unfold slen. cbn. lia.
Qed.
Lemma safe_position p s (P : Z -> Prop) :
  (forall i, position p s = Some i -> 0 <= i < slen s -> P i) -> safe (or_none (position p s)) P.
Proof. intros HP. apply safe_or_none. intros i Hi. apply HP; [done|]. by eapply position_Some. Qed.
Lemma default_position_bounds p s : 0 <= default (slen s) (position p s) <= slen s.
Proof.
  destruct (position p s) as [i|] eqn:E; cbn; [apply position_Some in E; lia|]. pose proof (slen_nonneg s). lia.
Qed.
Lemma rposition_bounds p s : 0 <= match rposition p s with Some i => i + 1 | None => 0 end <= slen s.
Proof.
  destruct (rposition p s) as [i|] eqn:E; [apply rposition_Some in E; lia|]. pose proof (slen_nonneg s). lia.
Qed.
Lemma byte_at_Some s i : 0 <= i < slen s -> exists c, byte_at s i = Some c.
Proof.
  unfold byte_at, slen. intros [L U]. rewrite (proj2 (Z.leb_le 0 i)) by lia.
  assert (Z.to_nat i < String.length s)%nat as B by lia. clear L U. revert B. generalize (Z.to_nat i). clear i.
  induction s as [|c s IH]; intros n B; cbn in *; [lia|]. destruct n; cbn; [eauto|]. apply IH. lia.
Qed.
Lemma byte_at_lt s i c : byte_at s i = Some c -> 0 <= i < slen s.
Proof.
  unfold byte_at. destruct (Z.leb_spec 0 i); [|done]. intros E. split; [done|].
  assert (forall n, String.get n s = Some c -> (n < String.length s)%nat) as Hl.
  { clear. induction s as [|d s IH]; intros n; cbn; [by destruct n|]. destruct n; [lia|]. intros ?%IH. lia. }
  apply Hl in E. unfold slen. lia.
Qed.
Lemma safe_while {S} (I : S -> Prop) (measure : S -> Z) cond body fuel (s : S) (P : S -> Prop) :
  I s -> 0 <= measure s < Z.of_nat fuel ->
  (forall s, I s -> cond s = true -> safe (body s) (fun s' => I s' /\ 0 <= measure s' < measure s)) ->
  (forall s, I s -> cond s = false -> P s) -> safe (while_loop fuel cond body s) P.
Proof.
  intros Hs Hm Hstep HP. revert s Hs Hm. induction fuel as [|fuel IH]; intros s Hs Hm; [lia|].
  cbn [while_loop]. destruct (cond s) eqn:E; [|by apply HP].
  apply safe_bind. eapply safe_mono; [by apply Hstep|]. cbn beta. intros s' _ [Hs' Hm']. apply IH; [done|]. lia.
Qed.
(** A property of the loop's variables that holds at its start and every round keeps. *)
Lemma while_inv {S} (I : S -> Prop) cond body fuel (s s' : S) :
  while_loop fuel cond body s = Ok s' -> I s ->
  (forall s s', I s -> cond s = true -> body s = Ok s' -> I s') -> I s' /\ cond s' = false.
Proof.
  intros H Hs Hstep. revert s H Hs. induction fuel as [|fuel IH]; intros s; cbn [while_loop]; [done|].
  destruct (cond s) eqn:E.
  - intros (s1 & H1 & H2)%bind_Ok Hs. eapply IH; [exact H2|]. by eapply Hstep.
  - intros [= <-] Hs. done.
Qed.
Lemma safe_accepted {A} (m : result ReadError A) (P : bool -> Prop) :
  safe m (fun _ => P true) -> P false -> safe (is_accepted m) P.
Proof. destruct m as [|[]]; cbn; auto. Qed.
Lemma safe_fmap {A B} (f : A -> B) (m : result ReadError A) (P : B -> Prop) :
  safe m (fun a => P (f a)) -> safe (f <$> m) P.
Proof. destruct m as [|[]]; cbn; auto. Qed.

Section CheckedRules.
Context `{Usize}.
Lemma safe_cadd a b (P : Z -> Prop) : (a + b <= usize_max -> P (a + b)) -> safe (cadd a b) P.
Proof. intros HP. apply safe_or_none. unfold checked_add. intros v. case_match; [|done]. intros [= <-]. bool_to_prop. auto. Qed.
Lemma safe_cmul a b (P : Z -> Prop) : (a * b <= usize_max -> P (a * b)) -> safe (cmul a b) P.
Proof. intros HP. apply safe_or_none. unfold checked_mul. intros v. case_match; [|done]. intros [= <-]. bool_to_prop. auto. Qed.
Lemma safe_to_usize a (P : Z -> Prop) : (a <= usize_max -> P a) -> safe (to_usize a) P.
Proof. intros HP. apply safe_or_none. unfold usize_try_from. intros v. case_match; [|done]. intros [= <-]. bool_to_prop. auto. Qed.
Lemma safe_uadd a b (P : Z -> Prop) : a + b <= usize_max -> P (a + b) -> safe (uadd a b) P.
Proof. intros L HP. unfold uadd, checked_add. by rewrite (proj2 (Z.leb_le _ _) L). Qed.
Lemma safe_umul a b (P : Z -> Prop) : a * b <= usize_max -> P (a * b) -> safe (or_panic (checked_mul usize_max a b)) P.
Proof. intros L HP. unfold checked_mul. by rewrite (proj2 (Z.leb_le _ _) L). Qed.
End CheckedRules.

(** One step of a reader. *)
Ltac read_step :=
  cbn beta;
  match goal with
  | |- safe (_ ≫= _) _ => apply safe_bind
  | |- safe (_ <$> _) _ => apply safe_fmap
  | |- safe (require _ _) _ => apply safe_require; intros ?; try bool_to_prop
  | |- safe (accept _) _ => apply safe_accept; intros ?; try bool_to_prop
  | |- safe (or_refuse _ _) _ => apply safe_or_refuse; intros ? ?
  | |- safe (or_none (position _ _)) _ => apply safe_position; intros ? ? ?
  | |- safe (or_none _) _ => apply safe_or_none; intros ? ?
  | |- safe (get_range _ _ _) _ => apply safe_get_range; intros ? ? ? ? ?
  | |- safe (get_from _ _) _ => apply safe_get_from; intros ? ? ? ?
  | |- safe (cadd _ _) _ => apply safe_cadd; intros ?
  | |- safe (cmul _ _) _ => apply safe_cmul; intros ?
  | |- safe (to_usize _) _ => apply safe_to_usize; intros ?
  | |- safe (uadd _ _) _ => apply safe_uadd; [lia|]
  | |- safe (or_panic (slice _ _ _)) _ => apply safe_slice; [lia|lia|intros ? ? ?]
  | |- safe (let _ := _ in _) _ => cbv zeta
  | |- safe (if ?b then _ else _) _ => destruct b eqn:?
  | |- safe (match ?p with pair _ _ => _ end) _ => destruct p
  | |- safe (match ?o with Some _ => _ | None => _ end) _ => destruct o eqn:?
  | |- safe (Ok _) _ => cbn [safe]
  | |- safe (Err (Refused _)) _ => exact I
  | |- safe reject _ => exact I
  end.

(** Decompose a run of a reader that returned a value. *)
Ltac inv_read :=
  unfold cadd, uadd, get_from, get_range, accept, require, or_none, or_refuse, or_panic in *; inv_result.

(** ** Sequences of records

    Records that follow one another, from one offset to another. *)
Inductive layout {M} (at_ : Z -> M -> Z -> Prop) : Z -> list M -> Z -> Prop :=
| layout_nil pos : layout at_ pos [] pos
| layout_cons pos m next l end_ : at_ pos m next -> layout at_ next l end_ -> layout at_ pos (m :: l) end_.
Lemma layout_snoc {M} (at_ : Z -> M -> Z -> Prop) pos l mid m end_ :
  layout at_ pos l mid -> at_ mid m end_ -> layout at_ pos (l ++ [m]) end_.
Proof. induction 1; cbn; eauto using @layout_nil, @layout_cons. Qed.
Lemma layout_unique {M} (at_ : Z -> M -> Z -> Prop) pos l l' end_ :
  (forall pos m next, at_ pos m next -> pos < next) ->
  (forall pos m next m' next', at_ pos m next -> at_ pos m' next' -> m = m' /\ next = next') ->
  layout at_ pos l end_ -> layout at_ pos l' end_ -> l = l'.
Proof.
  intros Hlt Hdet H. revert l'.
  assert (forall p l e, layout at_ p l e -> p <= e) as Hle.
  { induction 1 as [|p m n l0 e Ha _ IH]; [lia|]. apply Hlt in Ha. lia. }
  induction H as [p|p m n l e Ha Hl IH]; intros l' H'; inversion H' as [|p' m' n' l0 e' Ha' Hl']; subst; [done| | |].
  - apply Hlt in Ha'. apply Hle in Hl'. lia.
  - apply Hlt in Ha. apply Hle in Hl. lia.
  - destruct (Hdet _ _ _ _ _ Ha Ha') as [-> ->]. f_equal. by apply IH.
Qed.
