(* ===== verification/PePdb.v ===== *)
(** * Executables and their program databases

    [src/pe_pdb.rs]: whether a Windows executable and the [.pdb] stored with it
    belong together.  A file is its bytes; both readers look at untrusted bytes, so
    every index and slice of the source that would panic out of bounds is the error
    [Panic] here.  An offset is a sum or product of 32-bit values and stays far
    below [2 ^ 64]. *)

From S2P Require Import Prelude Strings Codec Bytes Cgroup.
#[local] Open Scope string_scope.
#[local] Open Scope Z_scope.

Definition DEBUG_TYPE_CODEVIEW : Z := 2.
Definition DEBUG_DATA_DIRECTORY : Z := 6.
Definition DEBUG_ENTRY_SIZE : Z := 28.
Definition SECTION_HEADER_SIZE : Z := 40.
Definition MSF_MAGIC : string :=
  "Microsoft C/C++ MSF 7.00" ++ String "013" (String "010" (String "026" "DS"))
  ++ String "000" (String "000" (String "000" "")).
Definition PDB_INFO_STREAM : Z := 1.
Definition DBI_STREAM : Z := 3.
Definition MAX_DIRECTORY_BYTES : Z := Z.shiftl 64 20.
Definition MAX_INFO_STREAM_BYTES : Z := Z.shiftl 1 20.
Definition MAX_CODEVIEW_BYTES : Z := 4096.
Definition MAX_DEBUG_ENTRIES : Z := 4096.

Record CodeViewRecord := { cv_guid : string; cv_age : Z; cv_pdb_path : string }.
Record PdbIdentity := { pdb_guid : string; pdb_info_age : Z; pdb_dbi_age : Z }.
Inductive ExecutableDebug := OtherFormat | NoCodeView | CodeView (record : CodeViewRecord).
Inductive Pairing := SelfContained | Paired (pdb_store_name : string).

(** ** Bounded reads *)

(** [Reader::check_range] and [Reader::read_at] *)
Definition check_range (file : string) (offset len : Z) : result ReadError unit :=
  require ((offset <=? slen file) && (len <=? slen file - offset)) "exceeds file size".
Definition read_at (file : string) (offset len : Z) : result ReadError string :=
  check_range file offset len;;
  or_refuse (slice file offset (offset + len)) "reading bytes at offset".
Definition u16_at (bytes : string) (at_ : Z) : result ReadError Z :=
  b ← or_panic (slice bytes at_ (at_ + 2)); Ok (from_le_bytes b).
Definition u32_at (bytes : string) (at_ : Z) : result ReadError Z :=
  b ← or_panic (slice bytes at_ (at_ + 4)); Ok (from_le_bytes b).

(** ** The executable's record *)

(** One section of the loop of [file_offset_for_rva]. *)
Definition section_step (start end_ : Z) (location : option Z) (section : string)
    : result ReadError (option Z) :=
  address ← u32_at section 12;
  raw_size ← u32_at section 16;
  virtual_size ← u32_at section 8;
  let span := Z.max virtual_size raw_size in
  if (end_ <=? address) || (address + span <=? start) then Ok location else
  require ((address <=? start) && (end_ <=? address + raw_size))
    "PE debug data is not fully file-backed in an overlapping section";;
  require (negb (bool_decide (is_Some location))) "PE debug data has ambiguous RVA mappings";;
  pointer ← u32_at section 20;
  Ok (Some (pointer + start - address)).
Definition file_offset_for_rva (rva size headers : Z) (table : string) : result ReadError Z :=
  require (negb (rva =? 0)) "PE debug data has no mapped RVA (file-only layout is unsupported)";;
  let start := rva in
  let end_ := start + size in
  location ← (if rva <? headers
              then require (end_ <=? headers) "PE debug data crosses the headers";; Ok (Some start)
              else Ok None);
  location ← try_fold (section_step start end_) location (chunks (Z.to_nat SECTION_HEADER_SIZE) table);
  or_refuse location "PE debug data has no file-backed RVA mapping".

(** The CodeView record of one debug directory entry. *)
Definition parse_record (file entry : string) (headers : Z) (table : string) : result ReadError CodeViewRecord :=
  size ← u32_at entry 16;
  require ((25 <=? size) && (size <=? MAX_CODEVIEW_BYTES)) "CodeView record of size bytes";;
  rva ← u32_at entry 20;
  record_offset ← file_offset_for_rva rva size headers table;
  pointer ← u32_at entry 24;
  require (record_offset =? pointer) "CodeView RVA and raw pointer select different data";;
  record ← read_at file record_offset size;
  magic ← or_panic (slice record 0 4);
  require (String.eqb magic "RSDS") "CodeView record is not RSDS";;
  guid ← or_panic (slice record 4 20);
  name ← or_panic (slice record 24 (slen record));
  '(pdb_path, _) ← or_refuse (split_once "000" name) "CodeView path is not NUL-terminated";
  require (valid_utf8 pdb_path) "CodeView .pdb path is not UTF-8";;
  age ← u32_at record 20;
  Ok {| cv_guid := guid; cv_age := age; cv_pdb_path := pdb_path |}.
Definition debug_entry (file : string) (debug_offset headers : Z) (table : string)
    (found : option CodeViewRecord) (index : Z) : result ReadError (option CodeViewRecord) :=
  entry ← read_at file (debug_offset + index * DEBUG_ENTRY_SIZE) DEBUG_ENTRY_SIZE;
  type ← u32_at entry 12;
  if negb (type =? DEBUG_TYPE_CODEVIEW) then Ok found else
  require (negb (bool_decide (is_Some found))) "PE has multiple CodeView records";;
  record ← parse_record file entry headers table;
  Ok (Some record).
(** The end of [read_codeview], once the debug directory is located. *)
Definition read_debug_directory (file optional : string) (pe sections optional_size debug_rva debug_size : Z)
    : result ReadError ExecutableDebug :=
  require ((debug_size mod DEBUG_ENTRY_SIZE =? 0) && (debug_size / DEBUG_ENTRY_SIZE <=? MAX_DEBUG_ENTRIES))
    "PE debug directory has an invalid or excessive entry count";;
  table ← read_at file (pe + 24 + optional_size) (sections * SECTION_HEADER_SIZE);
  headers ← u32_at optional 60;
  debug_offset ← file_offset_for_rva debug_rva debug_size headers table;
  check_range file debug_offset debug_size;;
  found ← try_fold (debug_entry file debug_offset headers table) None
            (seqZ 0 (debug_size / DEBUG_ENTRY_SIZE));
  Ok (match found with Some record => CodeView record | None => NoCodeView end).
(** [read_codeview] *)
Definition read_codeview (file : string) : result ReadError ExecutableDebug :=
  mz ← read_at file 0 2;
  if negb (String.eqb mz "MZ") then Ok OtherFormat else
  dos ← read_at file 0 64;
  pe ← u32_at dos 60;
  coff ← read_at file pe 24;
  signature ← or_panic (slice coff 0 4);
  require (String.eqb signature ("PE" ++ String "000" (String "000" "")))
    "not a PE file (no PE signature)";;
  sections ← u16_at coff 6;
  optional_size ← u16_at coff 20;
  optional ← read_at file (pe + 24) optional_size;
  require (2 <=? slen optional) "PE optional header is missing";;
  magic ← u16_at optional 0;
  '(count_at, dirs_at) ← (if magic =? 0x10b then Ok (92, 96)
                          else if magic =? 0x20b then Ok (108, 112)
                          else Err (Refused "unknown PE optional header magic"));
  require (count_at + 4 <=? slen optional) "PE optional header is truncated";;
  count ← u32_at optional count_at;
  if count <=? DEBUG_DATA_DIRECTORY then Ok NoCodeView else
  let entry := dirs_at + 8 * DEBUG_DATA_DIRECTORY in
  require (entry + 8 <=? slen optional) "PE data directories are truncated";;
  debug_rva ← u32_at optional entry;
  debug_size ← u32_at optional (entry + 4);
  if (debug_rva =? 0) && (debug_size =? 0) then Ok NoCodeView else
  require (negb (debug_rva =? 0) && negb (debug_size =? 0)) "incomplete PE debug directory location";;
  read_debug_directory file optional pe sections optional_size debug_rva debug_size.

(** ** The program database *)

(** [u64::is_power_of_two], [u32::count_ones] and [32 - leading_zeros]. *)
Definition is_power_of_two (z : Z) : bool := (0 <? z) && (Z.land z (z - 1) =? 0).
Fixpoint pos_ones (p : positive) : Z :=
  match p with xH => 1 | xO p => pos_ones p | xI p => 1 + pos_ones p end.
Definition count_ones (z : Z) : Z := match z with Zpos p => pos_ones p | _ => 0 end.
Definition bit_length (z : Z) : Z := if z =? 0 then 0 else Z.log2 z + 1.

(** A stream's bytes from its blocks: one block of the two gathering loops. *)
Definition gather_step (file : string) (block_size total : Z) (acc : string) (block : Z)
    : result ReadError string :=
  if total <? slen acc then Err Panic else
  bytes ← read_at file (block * block_size) (Z.min (total - slen acc) block_size);
  Ok (acc ++ bytes).
Definition directory_step (file : string) (blocks block_size total : Z) (acc : string) (block : Z)
    : result ReadError string :=
  require (block <? blocks) "MSF directory block is outside the declared blocks";;
  gather_step file block_size total acc block.

(** The closure [stream_blocks]. *)
Definition size_of (directory : string) (index : Z) : result ReadError Z :=
  size ← u32_at directory (4 + 4 * index);
  Ok (if size =? u32_max then 0 else size).
Definition add_blocks (directory : string) (block_size : Z) (acc index : Z) : result ReadError Z :=
  size ← size_of directory index;
  Ok (acc + div_ceil size block_size).
Definition stream_blocks (directory : string) (streams blocks block_size stream : Z)
    : result ReadError (Z * string) :=
  require (stream <? streams) "PDB stream is missing";;
  size ← size_of directory stream;
  require (negb (size =? 0)) "PDB stream is empty";;
  require (negb (stream =? PDB_INFO_STREAM) || (size <=? MAX_INFO_STREAM_BYTES))
    "PDB Info stream exceeds the supported admission size";;
  blocks_before ← try_fold (add_blocks directory block_size) 0 (seqZ 0 stream);
  let at_ := 4 + 4 * streams + 4 * blocks_before in
  let length := 4 * div_ceil size block_size in
  ids ← or_refuse (slice directory at_ (at_ + length)) "MSF stream directory is truncated";
  require (forallb (fun id => id <? blocks) (words ids)) "PDB stream points outside the declared blocks";;
  Ok (size, ids).

(** *** The feature tail of the Info stream ([check_pdb_info_features]) *)

(** [take], [number] and [bitmap]: the value and the bytes that are left. *)
Definition take_bytes (bytes : string) (length : Z) : result ReadError (string * string) :=
  if length <=? slen bytes
  then Ok (stake (Z.to_nat length) bytes, sdrop (Z.to_nat length) bytes)
  else Err (Refused "truncated PDB Info named-stream map").
Definition number (bytes : string) : result ReadError (Z * string) :=
  '(value, rest) ← take_bytes bytes 4;
  n ← u32_at value 0;
  Ok (n, rest).
Definition bitmap `{Usize} (bytes : string) : result ReadError (string * string) :=
  '(n, rest) ← number bytes;
  length ← or_refuse (checked_mul usize_max n 4) "PDB Info bitmap length overflow";
  take_bytes rest length.
(** [iter().rposition(|b| b == 0)] *)
Fixpoint rposition_nul (s : string) : option Z :=
  match s with
  | "" => None
  | String c s =>
      match rposition_nul s with
      | Some i => Some (i + 1)
      | None => if Ascii.eqb c "000" then Some 0 else None
      end
  end.
Definition word_fits (capacity : Z) (p : nat * Z) : bool :=
  (p.2 =? 0) || (Z.of_nat p.1 * 32 + bit_length p.2 <=? capacity).
Definition bitmap_fits (capacity : Z) (map_ : string) : bool :=
  forallb (word_fits capacity) (imap pair (words map_)).
Definition present_count (present : string) : Z := foldr Z.add 0 (map count_ones (words present)).
Definition disjoint_words (p : Z * Z) : bool := Z.land p.1 p.2 =? 0.
Fixpoint skip_names (entries : nat) (last : option Z) (bytes : string) : result ReadError string :=
  match entries with
  | O => Ok bytes
  | S entries =>
      '(name, bytes) ← number bytes;
      require (match last with Some end_ => name <=? end_ | None => false end)
        "PDB Info map names an invalid string";;
      '(_, bytes) ← number bytes;
      skip_names entries last bytes
  end.
Definition feature_ok (feature : Z) : result ReadError unit :=
  if feature =? 0x494e494d then Err (Refused "FASTLINK PDB needs the original object and library files")
  else require ((feature =? 20091201) || (feature =? 20140508) || (feature =? 0x4d544f4e))
         "unsupported PDB Info feature".
Definition check_pdb_info_features `{Usize} (info : string) : result ReadError unit :=
  bytes ← or_refuse (slice info 28 (slen info)) "truncated PDB Info header";
  '(string_bytes, bytes) ← number bytes;
  '(names, bytes) ← take_bytes bytes string_bytes;
  let last_terminator := rposition_nul names in
  '(entries, bytes) ← number bytes;
  '(capacity, bytes) ← number bytes;
  require (negb (capacity =? 0) && (entries <=? capacity * 2 / 3 + 1)) "invalid PDB Info map capacity";;
  '(present, bytes) ← bitmap bytes;
  '(deleted, bytes) ← bitmap bytes;
  require (bitmap_fits capacity present && bitmap_fits capacity deleted)
    "PDB Info bitmap exceeds its map capacity";;
  require (present_count present =? entries) "PDB Info present count does not match its map size";;
  require (forallb disjoint_words (zip (words present) (words deleted)))
    "PDB Info present and deleted maps overlap";;
  bytes ← skip_names (Z.to_nat entries) last_terminator bytes;
  '(_, bytes) ← number bytes;
  require (slen bytes mod 4 =? 0) "PDB Info feature tail is truncated";;
  try_fold (fun _ feature => feature_ok feature) tt (words bytes).

(** *** The identity ([read_pdb_identity]) *)

Record Msf := { msf_block_size : Z; msf_blocks : Z; msf_directory : string; msf_streams : Z }.
(** The superblock and the stream directory. *)
Definition read_directory (file : string) : result ReadError Msf :=
  superblock ← read_at file 0 56;
  magic ← or_panic (slice superblock 0 32);
  require (String.eqb magic MSF_MAGIC) "not an MSF 7.0 program database";;
  block_size ← u32_at superblock 32;
  require (is_power_of_two block_size && ((512 <=? block_size) && (block_size <=? 65536))) "MSF block size";;
  blocks ← u32_at superblock 40;
  require (negb (blocks =? 0)) "MSF has no blocks";;
  check_range file 0 (blocks * block_size);;
  directory_bytes ← u32_at superblock 44;
  require ((4 <=? directory_bytes) && (directory_bytes <=? MAX_DIRECTORY_BYTES)) "MSF stream directory of bytes";;
  block_map ← u32_at superblock 52;
  require (block_map <? blocks) "MSF block map is outside the declared blocks";;
  let directory_blocks := div_ceil directory_bytes block_size in
  require (directory_blocks * 4 <=? block_size) "MSF stream directory spans too many blocks";;
  map_ ← read_at file (block_map * block_size) (directory_blocks * 4);
  directory ← try_fold (directory_step file blocks block_size directory_bytes) "" (words map_);
  streams ← u32_at directory 0;
  if slen directory <? 4 then Err Panic else
  require (streams <=? (slen directory - 4) / 4) "MSF stream directory is truncated";;
  Ok {| msf_block_size := block_size; msf_blocks := blocks; msf_directory := directory; msf_streams := streams |}.
Definition info_version_ok (v : Z) : bool :=
  (v =? 20000404) || (v =? 20030901) || (v =? 20091201) || (v =? 20140508).
(** The bytes of the Info stream. *)
Definition read_info `{Usize} (file : string) (m : Msf) : result ReadError string :=
  '(info_size, info_blocks) ←
    stream_blocks (msf_directory m) (msf_streams m) (msf_blocks m) (msf_block_size m) PDB_INFO_STREAM;
  require (28 <=? info_size) "the PDB information stream is truncated";;
  info ← try_fold (gather_step file (msf_block_size m) info_size) "" (words info_blocks);
  version ← u32_at info 0;
  require (info_version_ok version) "unsupported PDB Info stream version";;
  check_pdb_info_features info;;
  Ok info.
Definition read_dbi (file : string) (m : Msf) : result ReadError string :=
  '(dbi_size, dbi_blocks) ←
    stream_blocks (msf_directory m) (msf_streams m) (msf_blocks m) (msf_block_size m) DBI_STREAM;
  require (64 <=? dbi_size) "the PDB DBI header is truncated";;
  first ← u32_at dbi_blocks 0;
  dbi ← read_at file (first * msf_block_size m) 64;
  signature ← u32_at dbi 0;
  version ← u32_at dbi 4;
  require ((signature =? u32_max) && ((version =? 19990903) || (version =? 20091201)))
    "unsupported PDB DBI header";;
  Ok dbi.
Definition read_pdb_identity `{Usize} (file : string) : result ReadError PdbIdentity :=
  m ← read_directory file;
  info ← read_info file m;
  guid ← or_panic (slice info 12 28);
  dbi ← read_dbi file m;
  info_age ← u32_at info 8;
  dbi_age ← u32_at dbi 8;
  Ok {| pdb_guid := guid; pdb_info_age := info_age; pdb_dbi_age := dbi_age |}.

(** [PdbIdentity::matches] *)
Definition matches (p : PdbIdentity) (record : CodeViewRecord) : bool :=
  String.eqb (pdb_guid p) (cv_guid record) && (cv_age record <=? pdb_info_age p)
  && ((pdb_dbi_age p =? 0) || (pdb_dbi_age p =? cv_age record)).

(** ** Outputs *)

(** [str::rsplit_once('.')], [Path::extension] and [Path::with_extension]. *)
Fixpoint rsplit_dot (s : string) : option (string * string) :=
  match s with
  | "" => None
  | String c s =>
      match rsplit_dot s with
      | Some (before, after) => Some (String c before, after)
      | None => if Ascii.eqb c "." then Some ("", s) else None
      end
  end.
Definition name_extension (n : string) : option string :=
  match rsplit_dot n with Some ("", _) | None => None | Some (_, ext) => Some ext end.
Definition name_stem (n : string) : string :=
  match rsplit_dot n with Some ("", _) | None => n | Some (stem, _) => stem end.
Definition path_extension (p : path) : option string :=
  match last p with Some (Normal n) => name_extension n | _ => None end.
Definition with_extension (p : path) (ext : string) : path :=
  match last p, path_pop p with
  | Some (Normal n), Some up => (up ++ [Normal (name_stem n ++ "." ++ ext)])%list
  | _, _ => p
  end.

(** [is_windows_executable_name], [is_bare_file_name] *)
Definition is_windows_executable_name (name : string) : bool :=
  match path_extension (components name) with Some ext => same_ignoring_case ext "exe" | None => false end.
Definition is_bare_file_name (name : string) : bool :=
  negb (String.eqb name "")
  && all_bytes (fun c => negb (Ascii.eqb c "\" || Ascii.eqb c "/" || Ascii.eqb c ":")) name
  && negb (String.eqb name ".") && negb (String.eqb name "..").

(** [classify_by_filename] of [compiler/mod.rs]. *)
Inductive ArtifactKind :=
| Library | DynamicLibrary | Metadata | Object | DepInfo | Executable | WasmModule | DebugSidecar
| DebugBundle | OtherKind (tag : string).
Definition classify_by_filename (name : string) : ArtifactKind :=
  if strip_suffix ".dsym.tar" name is Some _ then DebugBundle else
  let ext := default "" (path_extension (components name)) in
  let any_of l := existsb (String.eqb ext) l in
  if any_of ["rlib"] then Library
  else if any_of ["rmeta"] then Metadata
  else if any_of ["d"; "pp"] then DepInfo
  else if any_of ["o"; "obj"] then Object
  else if any_of ["dylib"; "so"; "dll"] then DynamicLibrary
  else if any_of ["wasm"] then WasmModule
  else if any_of ["dwo"; "pdb"; "dSYM"] then DebugSidecar
  else if any_of ["exe"] then Executable
  else if any_of [""] then OtherKind "extensionless"
  else OtherKind "unknown-ext".
Definition may_be_executable (name : string) : bool :=
  match classify_by_filename name with
  | Executable | WasmModule => true
  | OtherKind tag => String.eqb tag "extensionless"
  | _ => false
  end.
(** [executable_output_name]; [output] is the file name of the [-o] path, [Some
    None] when it has none that is Unicode. *)
Definition executable_output_name (linked_executable : bool) (output : option (option string))
    (names : list string) : result ReadError (option string) :=
  if negb linked_executable then Ok None else
  match output with
  | Some file_name =>
      name ← or_refuse file_name "executable output has no Unicode filename";
      require (existsb (String.eqb name) names) "executable output is missing";;
      Ok (Some name)
  | None =>
      match List.filter may_be_executable names with
      | [] => Err (Refused "cannot identify the linked executable output")
      | [name] => Ok (Some name)
      | _ => Err (Refused "ambiguous linked executable outputs")
      end
  end.

Section Outputs.
Context `{Usize}.
(** The file system: what a file holds when it can be read, whether a path exists
    or is a file, and [fs::canonicalize]. *)
Variable contents : path -> option string.
Variable exists_ : path -> bool.
Variable is_file : path -> bool.
Variable canonicalize : path -> option path.

Definition open_file (p : path) : result ReadError string := or_refuse (contents p) "open".
Definition codeview_of (p : path) : result ReadError ExecutableDebug :=
  file ← open_file p; read_codeview file.
Definition identity_of (p : path) : result ReadError PdbIdentity :=
  file ← open_file p; read_pdb_identity file.
Definition canonical_parent (p : path) : result ReadError path :=
  up ← or_refuse (path_pop p) "output has no parent";
  or_refuse (canonicalize up) "canonicalize".
(** [check_executable] *)
Definition check_executable (exe : path) (outputs : list (path * string)) (compiler_outputs : bool)
    : result ReadError (option Pairing) :=
  debug ← codeview_of exe;
  match debug with
  | OtherFormat => Ok None
  | debug =>
      require (negb compiler_outputs || negb (exists_ (with_extension exe "ilk")))
        "was linked incrementally (an .ilk lies beside it)";;
      match debug with
      | CodeView record =>
          require (is_bare_file_name (cv_pdb_path record)) "names its .pdb by path, not by file name";;
          match List.filter (fun o => same_ignoring_case o.2 (cv_pdb_path record)) outputs with
          | [] => Err (Refused "names a .pdb which is not among the outputs stored with it")
          | [(pdb, pdb_name)] =>
              (if compiler_outputs && negb (bool_decide (path_pop pdb = path_pop exe))
               then a ← canonical_parent pdb; b ← canonical_parent exe;
                    require (bool_decide (a = b)) "is not beside the executable"
               else Ok tt);;
              identity ← identity_of pdb;
              require (matches identity record) "does not match (GUID or age differ)";;
              Ok (Some (Paired pdb_name))
          | _ => Err (Refused "has ambiguous outputs")
          end
      | _ => Ok (Some SelfContained)
      end
  end.
(** [check_outputs_in], with [check_outputs] and [check_cached_outputs]. *)
Definition is_selected (executable_name : option string) (name : string) : bool :=
  is_windows_executable_name name || bool_decide (executable_name = Some name).
Definition check_step (outputs : list (path * string)) (executable_name : option string)
    (compiler_outputs : bool) (found : list Pairing) (o : path * string) : result ReadError (list Pairing) :=
  if negb (is_selected executable_name o.2) then Ok found else
  checked ← check_executable o.1 outputs compiler_outputs;
  Ok (match checked with Some p => (found ++ [p])%list | None => found end).
Definition check_outputs_in (outputs : list (path * string)) (executable_name : option string)
    (compiler_outputs : bool) : result ReadError (list Pairing) :=
  try_fold (check_step outputs executable_name compiler_outputs) [] outputs.
Definition check_outputs (outputs : list (path * string)) (executable_name : option string)
    : result ReadError (list Pairing) := check_outputs_in outputs executable_name true.
Definition check_cached_outputs (outputs : list (path * string)) (executable_name : option string)
    : result ReadError (list Pairing) := check_outputs_in outputs executable_name false.

(** [add_named_pdbs] *)
Definition named_step (files : list (path * string)) (executable_name : option string)
    (named : list (path * string)) (o : path * string) : list (path * string) :=
  if negb (is_selected executable_name o.2) then named else
  match codeview_of o.1 with
  | Ok (CodeView record) =>
      if negb (is_bare_file_name (cv_pdb_path record))
         || existsb (fun f => same_ignoring_case f.2 (cv_pdb_path record)) (files ++ named)%list
      then named
      else match path_pop o.1 with
           | None => named
           | Some dir =>
               let pdb := path_join dir (components (cv_pdb_path record)) in
               if is_file pdb then (named ++ [(pdb, cv_pdb_path record)])%list else named
           end
  | _ => named
  end.
Definition add_named_pdbs (files : list (path * string)) (executable_name : option string)
    : list (path * string) :=
  (files ++ fold_left (named_step files executable_name) files [])%list.
End Outputs.
