(* ===== verification/PePdbProofs.v ===== *)
(** * Proofs about executables and program databases

    Neither reader panics on any bytes; an accepted debug record lies where both of
    its addresses say, through exactly one mapping; and a stored pair matches.
    A concrete executable and its program database close the file. *)

From S2P Require Import Prelude Strings Codec Cgroup Bytes PePdb.
#[local] Open Scope string_scope.
#[local] Open Scope Z_scope.

Lemma safe_u32_at s a (P : Z -> Prop) :
  0 <= a -> a + 4 <= slen s ->
  (forall v, u32 v -> (exists b, slice s a (a + 4) = Some b /\ v = from_le_bytes b) -> P v) ->
  safe (u32_at s a) P.
Proof.
  intros H1 H2 HP. unfold u32_at. apply safe_bind, safe_slice; [lia..|]. intros t Ht L. cbn.
  apply HP; [|by exists t]. pose proof (from_le_bytes_bounds t) as B. rewrite L in B.
  unfold u32, u32_max. replace (256 ^ (a + 4 - a)) with (2 ^ 32) in B; [lia|].
  replace (a + 4 - a) with 4 by lia. done.
Qed.
Lemma safe_u16_at s a (P : Z -> Prop) :
  0 <= a -> a + 2 <= slen s -> (forall v, 0 <= v <= u16_max -> P v) -> safe (u16_at s a) P.
Proof.
  intros H1 H2 HP. unfold u16_at. apply safe_bind, safe_slice; [lia..|]. intros t Ht L. cbn.
  apply HP. pose proof (from_le_bytes_bounds t) as B. rewrite L in B.
  replace (a + 2 - a) with 2 in B by lia. unfold u16_max. lia.
Qed.
Lemma safe_check_range file offset len (P : unit -> Prop) :
  (offset <= slen file -> len <= slen file - offset -> P tt) -> safe (check_range file offset len) P.
Proof. intros HP. apply safe_require. intros [? ?]%andb_prop. bool_to_prop. auto. Qed.
Lemma safe_read_at file offset len (P : string -> Prop) :
  (forall s, slice file offset (offset + len) = Some s -> slen s = len -> P s) -> safe (read_at file offset len) P.
Proof.
  intros HP. unfold read_at. apply safe_bind, safe_check_range. intros _ _.
  apply safe_or_refuse. intros s Hs. apply HP; [done|]. apply slice_len in Hs. lia.
Qed.
(** One step of a reader. *)
Ltac safe_step :=
  cbn beta;
  match goal with
  | |- safe (read_at _ _ _) _ => apply safe_read_at; intros ? ? ?
  | |- safe (check_range _ _ _) _ => apply safe_check_range; intros ? ?
  | |- safe (u32_at _ _) _ => apply safe_u32_at; [lia|lia|intros ? ? ?]
  | |- safe (u16_at _ _) _ => apply safe_u16_at; [lia|lia|intros ? ?]
  | |- _ => read_step
  end.
Ltac safe_steps := repeat safe_step.

(** ** The executable *)

Lemma file_offset_safe rva size headers table :
  safe (file_offset_for_rva rva size headers table) (fun _ => True).
Proof.
  unfold file_offset_for_rva. do 3 safe_step.
  apply (safe_mono _ (fun _ => True)); [by safe_steps|]. intros location _ _. safe_step.
  apply (safe_fold _ (fun l _ => Forall (fun c => slen c = 40) l)).
  - apply Forall_forall. intros c Hc. by apply chunks_len in Hc; [|unfold SECTION_HEADER_SIZE; lia].
  - intros c l s [Hc Hl]%Forall_cons. unfold section_step. by safe_steps.
  - intros s _. by safe_steps.
Qed.
Lemma parse_record_safe file entry headers table :
  slen entry = 28 -> safe (parse_record file entry headers table) (fun _ => True).
Proof.
  intros L. unfold parse_record. do 7 safe_step.
  apply (safe_mono _ (fun _ => True)); [apply file_offset_safe|]. intros off _ _.
  by safe_steps.
Qed.
Lemma read_debug_directory_safe file optional pe sections optional_size rva size :
  64 <= slen optional ->
  safe (read_debug_directory file optional pe sections optional_size rva size) (fun _ => True).
Proof.
  intros L. unfold read_debug_directory. do 7 safe_step.
  apply (safe_mono _ (fun _ => True)); [apply file_offset_safe|]. intros off _ _. do 3 safe_step.
  apply (safe_fold _ (fun _ _ => True)); [done| |by intros; safe_steps].
  intros index l found _. unfold debug_entry, DEBUG_ENTRY_SIZE. do 6 safe_step; [done|]. do 2 safe_step.
  apply (safe_mono _ (fun _ => True)); [by apply parse_record_safe|]. by intros; safe_steps.
Qed.
Lemma read_codeview_safe file : safe (read_codeview file) (fun _ => True).
Proof.
  unfold read_codeview. do 3 safe_step; [done|]. do 21 safe_step.
  apply (safe_mono _ (fun p => p = (92, 96) \/ p = (108, 112))).
  { safe_steps; auto. }
  intros [count_at dirs_at] _ Hd. unfold DEBUG_DATA_DIRECTORY.
  assert (92 <= count_at <= 108 /\ 0 <= dirs_at) by (destruct Hd; simplify_eq; lia).
  do 5 safe_step; [done|]. do 6 safe_step. safe_step; [done|]. do 2 safe_step.
  apply read_debug_directory_safe. lia.
Qed.

(** ** The program database *)

Section Pdb.
Context `{Usize}.

(** What is left to gather fits the blocks that are left. *)
Definition gathering (block_size total : Z) (l : list Z) (acc : string) : Prop :=
  slen acc <= total /\ total - slen acc <= block_size * Z.of_nat (length l).
Lemma gather_step_safe file block_size total b l acc :
  0 < block_size -> gathering block_size total (b :: l) acc ->
  safe (gather_step file block_size total acc b) (gathering block_size total l).
Proof.
  intros B [G1 G2]. unfold gather_step. destruct (Z.ltb_spec total (slen acc)); [lia|]. do 3 safe_step.
  unfold gathering. rewrite slen_app. cbn [length] in G2. lia.
Qed.
Lemma gather_fold_safe block_size total (f : string -> Z -> result ReadError string) l (P : string -> Prop) :
  0 < block_size -> 0 <= total <= block_size * Z.of_nat (length l) ->
  (forall acc b l, gathering block_size total (b :: l) acc -> safe (f acc b) (gathering block_size total l)) ->
  (forall s, slen s = total -> P s) -> safe (try_fold f "" l) P.
Proof.
  intros B T Hf HP. apply (safe_fold _ (gathering block_size total)).
  - unfold gathering. change (slen "") with 0. lia.
  - intros. by apply Hf.
  - intros s [? ?]. apply HP. cbn in *. pose proof (slen_nonneg s). lia.
Qed.

Record msf_ok (m : Msf) : Prop := {
  ok_block_size : 512 <= msf_block_size m;
  ok_streams : 0 <= msf_streams m /\ 4 + 4 * msf_streams m <= slen (msf_directory m);
}.
Lemma read_directory_safe file : safe (read_directory file) msf_ok.
Proof.
  unfold read_directory. do 29 safe_step.
  match goal with |- safe (try_fold (directory_step _ _ ?bs ?total) _ (words ?m)) _ =>
    apply (gather_fold_safe bs total); [lia| | |];
    [pose proof (div_ceil_covers total bs ltac:(lia));
     match goal with L : slen m = _ |- _ => rewrite length_words, L, Z.div_mul by lia end; lia|..]
  end.
  - intros acc b l G. unfold directory_step. do 2 safe_step. apply gather_step_safe; [lia|done].
  - intros directory L. do 2 safe_step. destruct (Z.ltb_spec (slen directory) 4); [lia|]. do 3 safe_step.
    match goal with Hs : _ <= (slen directory - 4) / 4, Hu : u32 ?n |- msf_ok {| msf_streams := ?n |} =>
      destruct Hu; assert (4 * n <= slen directory - 4)
        by (pose proof (Z.mul_div_le (slen directory - 4) 4 ltac:(lia)); lia) end.
    split; cbn; lia.
Qed.

Lemma size_of_safe directory streams index (P : Z -> Prop) :
  4 + 4 * streams <= slen directory -> 0 <= index < streams -> (forall n, u32 n -> P n) ->
  safe (size_of directory index) P.
Proof.
  intros L Hi HP. unfold size_of. do 3 safe_step. apply HP. unfold u32, u32_max in *.
  by destruct (_ =? _).
Qed.
Lemma stream_blocks_safe m stream (P : Z * string -> Prop) :
  msf_ok m -> 0 <= stream ->
  (forall size ids, 0 < size -> slen ids = 4 * div_ceil size (msf_block_size m) -> P (size, ids)) ->
  safe (stream_blocks (msf_directory m) (msf_streams m) (msf_blocks m) (msf_block_size m) stream) P.
Proof.
  intros [B [S0 L]] Hs HP. unfold stream_blocks. do 3 safe_step.
  apply (size_of_safe _ (msf_streams m)); [done|lia|]. intros size Hz. do 5 safe_step.
  apply (safe_fold _ (fun l _ => Forall (fun i => 0 <= i < msf_streams m) l)).
  - apply Forall_forall. intros i Hi%elem_of_seqZ. lia.
  - intros i l acc [Hi Hl]%Forall_cons. unfold add_blocks. safe_step.
    apply (size_of_safe _ (msf_streams m)); [done|lia|]. intros n _. by safe_steps.
  - intros before _. safe_steps. apply HP; [destruct Hz; lia|].
    match goal with Hsl : slice _ _ _ = Some _ |- _ => apply slice_len in Hsl; lia end.
Qed.

Lemma take_bytes_safe bytes n (P : string * string -> Prop) :
  0 <= n -> (forall v rest, slen v = n -> P (v, rest)) -> safe (take_bytes bytes n) P.
Proof.
  intros Hn HP. unfold take_bytes. destruct (Z.leb_spec n (slen bytes)); cbn; [|done].
  apply HP. rewrite slen_stake. lia.
Qed.
Lemma number_safe bytes (P : Z * string -> Prop) :
  (forall n rest, u32 n -> P (n, rest)) -> safe (number bytes) P.
Proof.
  intros HP. unfold number. safe_step. apply take_bytes_safe; [lia|]. intros v rest L. safe_steps. auto.
Qed.
Lemma bitmap_safe bytes (P : string * string -> Prop) :
  (forall v rest, P (v, rest)) -> safe (bitmap bytes) P.
Proof.
  intros HP. unfold bitmap. safe_step. apply number_safe. intros n rest [Hn _]. do 2 safe_step.
  apply take_bytes_safe; [|auto]. unfold checked_mul in *. case_match; simplify_eq. lia.
Qed.
Lemma skip_names_safe entries last_ bytes : safe (skip_names entries last_ bytes) (fun _ => True).
Proof.
  revert bytes. induction entries as [|entries IH]; intros bytes; cbn [skip_names]; [done|].
  safe_step. apply number_safe. intros n rest _. do 3 safe_step. apply number_safe. intros. apply IH.
Qed.
Lemma check_pdb_info_features_safe info : safe (check_pdb_info_features info) (fun _ => True).
Proof.
  unfold check_pdb_info_features. do 3 safe_step. apply number_safe. intros sb r1 [? _]. safe_step.
  apply take_bytes_safe; [done|]. intros names r2 _. safe_step. apply number_safe. intros entries r3 _. safe_step.
  apply number_safe. intros capacity r4 _. do 3 safe_step. apply bitmap_safe. intros present r5. safe_step.
  apply bitmap_safe. intros deleted r6. do 7 safe_step.
  eapply safe_mono; [apply skip_names_safe|]. intros r7 _ _. safe_step. apply number_safe. intros n r8 _.
  do 2 safe_step. apply (safe_fold _ (fun _ _ => True)); [done| |done].
  intros f l [] _. unfold feature_ok. by safe_steps.
Qed.
Lemma read_info_safe file m : msf_ok m -> safe (read_info file m) (fun info => 28 <= slen info).
Proof.
  intros Hm. unfold read_info. safe_step. apply stream_blocks_safe; [done|done|]. intros size ids Hs L.
  do 3 safe_step. pose proof (ok_block_size _ Hm).
  apply (gather_fold_safe (msf_block_size m) size); [lia| | |].
  - pose proof (div_ceil_covers size (msf_block_size m) ltac:(lia)).
    rewrite length_words, L, (Z.mul_comm 4), Z.div_mul by lia. lia.
  - intros. apply gather_step_safe; [lia|done].
  - intros info Li. do 5 safe_step. eapply safe_mono; [apply check_pdb_info_features_safe|]. intros _ _ _. cbn. lia.
Qed.
Lemma read_dbi_safe file m : msf_ok m -> safe (read_dbi file m) (fun dbi => slen dbi = 64).
Proof.
  intros Hm. unfold read_dbi. safe_step. apply stream_blocks_safe; [done|done|]. intros size ids Hs L.
  pose proof (ok_block_size _ Hm). pose proof (div_ceil_pos size (msf_block_size m) Hs ltac:(lia)).
  by safe_steps.
Qed.
Lemma read_pdb_identity_safe file : safe (read_pdb_identity file) (fun _ => True).
Proof.
  unfold read_pdb_identity. safe_step. eapply safe_mono; [apply read_directory_safe|]. intros m _ Hm. safe_step.
  eapply safe_mono; [by apply read_info_safe|]. intros info _ Hi. cbn beta in Hi. do 3 safe_step.
  eapply safe_mono; [by apply read_dbi_safe|]. intros dbi _ Hd. cbn beta in Hd. by safe_steps.
Qed.

(** The readers of executables and program databases never panic, whatever bytes
    they are given: every index and slice they take is in bounds. *)
Theorem pe_readers_never_panic file :
  read_codeview file <> Err Panic /\ read_pdb_identity file <> Err Panic.
Proof.
  split; eapply safe_no_panic; [apply read_codeview_safe|apply read_pdb_identity_safe].
Qed.
End Pdb.

(** ** Where debug data lies *)

(** A declared location: its virtual extent, its file-backed part and its file offset. *)
Record Region := { rg_address : Z; rg_span : Z; rg_raw : Z; rg_pointer : Z }.
Definition field (section : string) (a : nat) : Z := from_le_bytes (stake 4 (sdrop a section)).
Definition section_region (section : string) : Region :=
  {| rg_address := field section 12; rg_span := Z.max (field section 8) (field section 16);
     rg_raw := field section 16; rg_pointer := field section 20 |}.
Definition header_region (headers : Z) : Region :=
  {| rg_address := 0; rg_span := headers; rg_raw := headers; rg_pointer := 0 |}.
Definition touches (start end_ : Z) (r : Region) : bool :=
  (rg_address r <? end_) && (start <? rg_address r + rg_span r).
Definition backs (start end_ : Z) (r : Region) : Prop :=
  rg_address r <= start /\ end_ <= rg_address r + rg_raw r.
(** The locations an extent touches: the headers it starts in, and the sections. *)
Definition locations (rva size headers : Z) (table : string) : list Region :=
  ((if rva <? headers then [header_region headers] else [])
   ++ List.filter (touches rva (rva + size)) (map section_region (chunks 40 table)))%list.

Lemma u32_at_field s a : (a + 4 <= String.length s)%nat -> u32_at s (Z.of_nat a) = Ok (field s a).
Proof.
  intros L. unfold u32_at, slice, slen.
  rewrite !(proj2 (Z.leb_le _ _)) by lia. cbn -[stake Z.to_nat]. unfold field. do 3 f_equal; [lia|].
  by rewrite Nat2Z.id.
Qed.
Lemma section_step_spec start end_ location section :
  slen section = 40 ->
  section_step start end_ location section
  = let r := section_region section in
    if negb (touches start end_ r) then Ok location
    else if negb ((rg_address r <=? start) && (end_ <=? rg_address r + rg_raw r))
    then Err (Refused "PE debug data is not fully file-backed in an overlapping section")
    else if bool_decide (is_Some location) then Err (Refused "PE debug data has ambiguous RVA mappings")
    else Ok (Some (rg_pointer r + start - rg_address r)).
Proof.
  intros L. unfold slen in L. unfold section_step.
  rewrite (u32_at_field section 12 ltac:(lia) : u32_at section 12 = Ok _).
  rewrite (u32_at_field section 16 ltac:(lia) : u32_at section 16 = Ok _).
  rewrite (u32_at_field section 8 ltac:(lia) : u32_at section 8 = Ok _).
  rewrite (u32_at_field section 20 ltac:(lia) : u32_at section 20 = Ok _). cbn -[bool_decide field]. unfold touches. cbn -[bool_decide field].
  rewrite !Z.ltb_antisym, !negb_andb, !negb_involutive.
  destruct ((end_ <=? field section 12) || _); [done|]. unfold require, ensure.
  destruct (_ <=? start), (end_ <=? _); cbn [andb orb negb]; try done. by destruct (bool_decide _).
Qed.
Lemma section_fold_spec start end_ location l off :
  Forall (fun c => slen c = 40) l ->
  let hit := List.filter (touches start end_) (map section_region l) in
  try_fold (section_step start end_) location l = Ok (Some off) <->
  (location = Some off /\ hit = []) \/
  (location = None /\ exists r, hit = [r] /\ backs start end_ r /\ off = rg_pointer r + start - rg_address r).
Proof.
  intros F. revert location. induction F as [|c l Hc F IH]; intros location; cbn [try_fold map List.filter].
  { naive_solver. }
  rewrite section_step_spec by done. cbv zeta. set (r := section_region c) in *. clearbody r.
  destruct (touches start end_ r) eqn:T; cbn [negb]; [|apply IH].
  destruct ((rg_address r <=? start) && _) eqn:B; cbn [negb].
  - destruct location as [o|]; [rewrite bool_decide_true by eauto|rewrite bool_decide_false by (by intros [])].
    { cbn. split; [done|]. by intros [[_ ?]|[? _]]. }
    cbn. rewrite IH. bool_to_prop. split.
    + intros [[[= <-] ->]|[? _]]; [|done]. right. split; [done|]. exists r. by repeat split.
    + intros [[? _]|(_ & r' & [= <- ->] & _ & ->)]; [done|]. by left.
  - cbn. split; [done|]. intros [[? ?]|(_ & r' & [= <- _] & [? ?] & _)]; [done|]. lia.
Qed.

(** C40. A debug extent is read through exactly one declared location: the address
    translation succeeds precisely when one location (the headers or one section)
    is touched at all, and that one backs the whole extent with file bytes; the
    offset is then the location's own, and no second mapping could name other bytes. *)
Theorem rva_mapping_unique rva size headers table off :
  u32 rva ->
  (file_offset_for_rva rva size headers table = Ok off <->
  rva <> 0 /\ exists r, locations rva size headers table = [r] /\ backs rva (rva + size) r /\
                        off = rg_pointer r + rva - rg_address r).
Proof.
  intros [U _]. assert (F : Forall (fun c => slen c = 40) (chunks 40 table)).
  { apply Forall_forall. intros c Hc. by apply chunks_len in Hc; [|lia]. }
  unfold file_offset_for_rva, locations, require, ensure.
  change (Z.to_nat SECTION_HEADER_SIZE) with 40%nat.
  destruct (Z.eqb_spec rva 0) as [->|Nz]; cbn [negb]; [split; [done|naive_solver]|].
  assert (Sp : forall location, (try_fold (section_step rva (rva + size)) location (chunks 40 table)
                 ≫= fun o => or_refuse o "PE debug data has no file-backed RVA mapping") = Ok off <->
               try_fold (section_step rva (rva + size)) location (chunks 40 table) = Ok (Some off)).
  { intros location. rewrite bind_Ok. unfold or_refuse. setoid_rewrite with_context_Ok. naive_solver. }
  destruct (Z.ltb_spec rva headers) as [L|G]; [destruct (Z.leb_spec (rva + size) headers) as [E|E]|];
    cbn [app]; [etransitivity; [exact (Sp (Some rva))|]| |etransitivity; [exact (Sp None)|]];
    [rewrite (section_fold_spec _ _ _ _ _ F) | |rewrite (section_fold_spec _ _ _ _ _ F)].
  - split.
    + intros [[[= ->] ->]|[? _]]; [|done]. split; [done|]. eexists. split; [done|]. unfold backs; cbn. lia.
    + intros (_ & r & [= <- ->] & _ & ->). cbn. left. split; [f_equal; lia|done].
  - split; [done|]. intros (_ & r & [= <- _] & [_ B] & _). cbn in B. lia.
  - naive_solver.
Qed.

(** ** What a record says *)

(** The bytes of a CodeView record: magic, GUID, age and NUL-terminated path. *)
Definition record_bytes (r : CodeViewRecord) (record : string) : Prop :=
  exists age rest, record = "RSDS" ++ cv_guid r ++ age ++ cv_pdb_path r ++ String "000" rest /\
    slen (cv_guid r) = 16 /\ slen age = 4 /\ cv_age r = from_le_bytes age.
Lemma parse_record_bytes file entry headers table r :
  parse_record file entry headers table = Ok r ->
  exists off size record, slice file off (off + size) = Some record /\ record_bytes r record /\
    valid_utf8 (cv_pdb_path r) = true /\ all_bytes (fun x => negb (Ascii.eqb x "000")) (cv_pdb_path r) = true.
Proof.
  unfold parse_record, require, or_panic, or_refuse. intros E. inv_result.
  repeat match goal with H : context [match ?p with pair _ _ => _ end] |- _ => destruct p end. inv_result.
  unfold u32_at, read_at, or_panic, or_refuse in *. inv_result. bool_to_prop. subst.
  match goal with H : split_once _ _ = Some _ |- _ => apply split_once_Some in H as [-> Nf] end.
  do 3 eexists. split; [eassumption|]. split; [|by split].
  match goal with
  | H1 : slice ?rec 0 4 = Some _, H2 : slice ?rec 4 20 = Some ?g, H3 : slice ?rec 20 (20 + 4) = Some ?a,
    H4 : slice ?rec 24 (slen ?rec) = Some _ |- _ =>
      pose proof (slice_len _ _ _ _ H2); pose proof (slice_len _ _ _ _ H3);
      exists a;
      pose proof (slice_app _ _ _ _ _ _ H1 (slice_app _ _ _ _ _ _ H2 (slice_app _ _ _ _ _ _ H3 H4))) as Full
  end.
  rewrite slice_full in Full. injection Full as Full. eexists. cbn [cv_guid cv_pdb_path cv_age].
  split; [exact Full|]. by repeat split; lia.
Qed.

Lemma read_debug_directory_found file optional pe sections optional_size rva size r :
  read_debug_directory file optional pe sections optional_size rva size = Ok (CodeView r) ->
  exists entry headers table, parse_record file entry headers table = Ok r.
Proof.
  unfold read_debug_directory, require. intros E. inv_result.
  match goal with H : match ?found with Some _ => _ | None => _ end = CodeView r |- _ =>
    destruct found as [r'|]; [injection H as ->|discriminate] end.
  match goal with H : try_fold (debug_entry ?f ?o ?h ?t) None _ = Ok (Some r) |- _ =>
    revert H; generalize (seqZ 0 (size / DEBUG_ENTRY_SIZE)); intros l H;
    refine (try_fold_ind (debug_entry f o h t)
      (fun _ found => forall r, found = Some r -> exists e h t, parse_record f e h t = Ok r) None _ _ l _ H r eq_refl) end.
  - done.
  - intros _ i found found' IH St r0 ->. unfold debug_entry, require in St. inv_result.
    destruct (negb _); [inv_result; by apply IH|]. inv_result. eauto.
Qed.

(** An accepted CodeView record is what the file holds: some extent of the file
    consists of the RSDS magic, the reported 16-byte GUID, the reported age in
    little-endian order and the reported path with its terminator, and the path is
    UTF-8 without NUL bytes. *)
Theorem codeview_record_genuine file r :
  read_codeview file = Ok (CodeView r) ->
  exists off size record, slice file off (off + size) = Some record /\ record_bytes r record /\
    valid_utf8 (cv_pdb_path r) = true /\ all_bytes (fun x => negb (Ascii.eqb x "000")) (cv_pdb_path r) = true.
Proof.
  unfold read_codeview. intros E. apply bind_Ok in E as (mz & _ & E).
  destruct (negb _); [done|]. unfold require, or_panic in E. inv_result.
  repeat match goal with
  | H : context [match ?p with pair _ _ => _ end] |- _ => destruct p
  | H : (if ?b then _ else _) = Ok _ |- _ => destruct b; [try done|]
  | _ => progress inv_result
  end.
  all: match goal with H : read_debug_directory _ _ _ _ _ _ _ = Ok _ |- _ =>
    apply read_debug_directory_found in H as (? & ? & ? & H); by apply parse_record_bytes in H end.
Qed.

(** ** Stored pairs *)

Section Pairs.
Context `{Usize} (contents : path -> option string) (exists_ : path -> bool) (canonicalize : path -> option path).

(** What admission promises about one executable output. *)
Definition pair_ok (outputs : list (path * string)) (exe : path) : Prop :=
  match codeview_of contents exe with
  | Err _ => False
  | Ok OtherFormat | Ok NoCodeView => True
  | Ok (CodeView r) =>
      is_bare_file_name (cv_pdb_path r) = true /\
      exists pdb name id,
        List.filter (fun o => same_ignoring_case o.2 (cv_pdb_path r)) outputs = [(pdb, name)] /\
        identity_of contents pdb = Ok id /\ pdb_guid id = cv_guid r /\ cv_age r <= pdb_info_age id /\
        (pdb_dbi_age id = 0 \/ pdb_dbi_age id = cv_age r)
  end.
Lemma matches_spec id r :
  matches id r = true <->
  pdb_guid id = cv_guid r /\ cv_age r <= pdb_info_age id /\ (pdb_dbi_age id = 0 \/ pdb_dbi_age id = cv_age r).
Proof.
  unfold matches. rewrite !andb_true_iff, orb_true_iff, String.eqb_eq, Z.leb_le, !Z.eqb_eq. tauto.
Qed.
Lemma check_executable_ok exe outputs compiler p :
  check_executable contents exists_ canonicalize exe outputs compiler = Ok p -> pair_ok outputs exe.
Proof.
  unfold check_executable, pair_ok, require. intros E. apply bind_Ok in E as (debug & -> & E).
  destruct debug as [| |r]; [done|done|]. inv_result. split; [done|].
  destruct (List.filter _ outputs) as [|[pdb name] [|]] eqn:Fl; [done| |done].
  inv_result. match goal with M : matches _ _ = true |- _ => apply matches_spec in M as (? & ? & ?) end. by exists pdb, name, x0.
Qed.
Lemma check_fold_ok outputs n compiler l found0 found :
  try_fold (check_step contents exists_ canonicalize outputs n compiler) found0 l = Ok found ->
  forall o, o ∈ l -> is_selected n o.2 = true ->
  exists p, check_executable contents exists_ canonicalize o.1 outputs compiler = Ok p.
Proof.
  revert found0. induction l as [|a l IH]; intros found0 E o; [by intros ?%elem_of_nil|].
  cbn in E. apply bind_Ok in E as (found1 & E1 & E2). rewrite elem_of_cons. intros [->|Hin] S; [|by eapply IH].
  unfold check_step in E1. rewrite S in E1. cbn in E1. apply bind_Ok in E1 as (p & -> & _). by exists p.
Qed.

(** C19. Nothing mismatched is stored or served: when the outputs of a unit pass the
    check, every selected executable could be read, and one that names a program
    database names it by bare file name, exactly one output carries that name, and
    that database has the same GUID and acceptable ages. *)
Theorem stored_pairs_match outputs n compiler found :
  check_outputs_in contents exists_ canonicalize outputs n compiler = Ok found ->
  forall o, o ∈ outputs -> is_selected n o.2 = true -> pair_ok outputs o.1.
Proof.
  intros E o Hin S. destruct (check_fold_ok _ _ _ _ _ _ E o Hin S) as [p Hp]. by eapply check_executable_ok.
Qed.
End Pairs.

Section Served.
Context `{Usize} (contents contents' : path -> option string) (exists_ exists_' : path -> bool).
Context (canonicalize canonicalize' : path -> option path) (blob : path -> path).

Definition stored_as (o : path * string) : path * string := (blob o.1, o.2).
Lemma filter_stored f outputs :
  (forall o, f (stored_as o) = f o) ->
  List.filter f (map stored_as outputs) = map stored_as (List.filter f outputs).
Proof.
  intros Hf. induction outputs as [|o l IH]; [done|]. cbn [map List.filter]. rewrite Hf, IH. by destruct (f o).
Qed.
Lemma check_executable_served outputs exe p :
  contents' (blob exe) = contents exe -> (forall o, o ∈ outputs -> contents' (blob o.1) = contents o.1) ->
  check_executable contents exists_ canonicalize exe outputs true = Ok p ->
  check_executable contents' exists_' canonicalize' (blob exe) (map stored_as outputs) false = Ok p.
Proof.
  intros He Ho. unfold check_executable, codeview_of, open_file. rewrite He. intros E.
  apply bind_Ok in E as (debug & -> & E). cbn [mbind result_bind]. destruct debug as [| |r]; [done| |].
  - unfold require in *. inv_result. done.
  - unfold require in *. inv_result. match goal with B : is_bare_file_name _ = true |- _ => rewrite B end.
    rewrite filter_stored by done.
    destruct (List.filter _ outputs) as [|[pdb name] [|]] eqn:Fl; [done| |done].
    cbn [map stored_as fst snd]. inv_result.
    assert (Hp : contents' (blob pdb) = contents pdb).
    { apply (Ho (pdb, name)). assert (In (pdb, name) (List.filter _ outputs)) as [? _]%filter_In
        by (rewrite Fl; by left). by apply list_elem_of_In. }
    unfold identity_of, open_file in *. rewrite Hp.
    match goal with I : (or_refuse (contents pdb) _ ≫= _) = Ok _ |- _ => rewrite I end. cbn.
    by match goal with M : matches _ _ = true |- _ => rewrite M end.
Qed.

(** What was admitted is served: if the outputs a compile left pass the check,
    then the blobs stored for them, wherever they lie, pass the check that precedes
    a restore, with the same findings. *)
Theorem admitted_pairs_are_served outputs n found :
  (forall o, o ∈ outputs -> contents' (blob o.1) = contents o.1) ->
  check_outputs contents exists_ canonicalize outputs n = Ok found ->
  check_cached_outputs contents' exists_' canonicalize' (map stored_as outputs) n = Ok found.
Proof.
  intros Ho. unfold check_outputs, check_cached_outputs, check_outputs_in.
  assert (G : forall l found0, (forall o, o ∈ l -> o ∈ outputs) ->
    try_fold (check_step contents exists_ canonicalize outputs n true) found0 l = Ok found ->
    try_fold (check_step contents' exists_' canonicalize' (map stored_as outputs) n false) found0 (map stored_as l) = Ok found);
    [|by apply G].
  induction l as [|o l IH]; intros found0 Hl; [done|]. cbn [map try_fold]. intros (found1 & E1 & E2)%bind_Ok.
  apply bind_Ok. exists found1. split; [|apply IH; [set_solver|done]].
  unfold check_step in *. change (stored_as o).2 with o.2. destruct (negb _); [done|].
  apply bind_Ok in E1 as (p & E1 & E3). apply bind_Ok. exists p. split; [|done].
  apply check_executable_served; [apply Ho, Hl; set_solver|done|done].
Qed.
End Served.

(** ** A concrete executable and its program database

    The smallest PE image with a CodeView record and an MSF container it matches,
    as bytes; the theorems about them applied to it. *)

Fixpoint zeros (n : nat) : string := match n with O => "" | S n => String "000" (zeros n) end.
Definition le (n : nat) (z : Z) : string := to_le_bytes n z.
Definition to_block (s : string) : string := s ++ zeros (512 - String.length s).

Definition demo_guid : string := "0123456789abcdef".
Definition demo_cv : string := "RSDS" ++ demo_guid ++ le 4 3 ++ "app.pdb" ++ zeros 1.
Definition demo_section : string :=
  zeros 8 ++ le 4 64 ++ le 4 4096 ++ le 4 64 ++ le 4 280 ++ zeros 16.
Definition demo_exe : string :=
  "MZ" ++ zeros 58 ++ le 4 64
  ++ "PE" ++ zeros 2 ++ zeros 2 ++ le 2 1 ++ zeros 12 ++ le 2 152 ++ zeros 2
  ++ le 2 0x10b ++ zeros 58 ++ le 4 280 ++ zeros 28 ++ le 4 7 ++ zeros 48 ++ le 4 4096 ++ le 4 28
  ++ demo_section
  ++ zeros 12 ++ le 4 2 ++ le 4 32 ++ le 4 4124 ++ le 4 308 ++ demo_cv ++ zeros 4.
Definition demo_info : string :=
  le 4 20000404 ++ zeros 4 ++ le 4 3 ++ demo_guid ++ le 4 0 ++ le 4 0 ++ le 4 1 ++ le 4 0 ++ le 4 0 ++ le 4 0.
Definition demo_dbi : string := le 4 u32_max ++ le 4 19990903 ++ le 4 3 ++ zeros 52.
Definition demo_directory : string :=
  le 4 4 ++ le 4 0 ++ le 4 (slen demo_info) ++ le 4 0 ++ le 4 64 ++ le 4 4 ++ le 4 5.
Definition demo_pdb : string :=
  to_block (MSF_MAGIC ++ le 4 512 ++ le 4 1 ++ le 4 6 ++ le 4 (slen demo_directory) ++ le 4 0 ++ le 4 2)
  ++ zeros 512 ++ to_block (le 4 3) ++ to_block demo_directory ++ to_block demo_info ++ to_block demo_dbi.

Definition demo_record : CodeViewRecord := {| cv_guid := demo_guid; cv_age := 3; cv_pdb_path := "app.pdb" |}.
Lemma demo_codeview : read_codeview demo_exe = Ok (CodeView demo_record).
Proof. vm_compute. reflexivity. Qed.
Lemma demo_identity :
  read_pdb_identity demo_pdb = Ok {| pdb_guid := demo_guid; pdb_info_age := 3; pdb_dbi_age := 3 |}.
Proof. vm_compute. reflexivity. Qed.

Definition demo_dir (n : string) : path := [RootDir; Normal "t"; Normal n].
Definition demo_contents (p : path) : option string :=
  if decide (p = demo_dir "app.exe") then Some demo_exe
  else if decide (p = demo_dir "app.pdb") then Some demo_pdb else None.
Definition demo_outputs : list (path * string) :=
  [(demo_dir "app.exe", "app.exe"); (demo_dir "app.pdb", "app.pdb")].
Lemma demo_checked :
  check_outputs demo_contents (fun _ => false) Some demo_outputs None = Ok [Paired "app.pdb"].
Proof. vm_compute. reflexivity. Qed.

Lemma demo_checked_in :
  check_outputs_in demo_contents (fun _ => false) Some demo_outputs None true = Ok [Paired "app.pdb"].
Proof. vm_compute. reflexivity. Qed.

Lemma rva_mapping_unique_witness :
  file_offset_for_rva 4096 28 280 demo_section = Ok 280 <->
  4096 <> 0 /\ exists r, locations 4096 28 280 demo_section = [r] /\ backs 4096 (4096 + 28) r /\
                         280 = rg_pointer r + 4096 - rg_address r.
Proof. apply (rva_mapping_unique 4096 28 280 demo_section 280). by vm_compute. Defined.
Lemma codeview_record_genuine_witness :
  exists off size record, slice demo_exe off (off + size) = Some record /\ record_bytes demo_record record /\
    valid_utf8 "app.pdb" = true /\ all_bytes (fun x => negb (Ascii.eqb x "000")) "app.pdb" = true.
Proof. exact (codeview_record_genuine demo_exe demo_record demo_codeview). Defined.
Lemma stored_pairs_match_witness : pair_ok demo_contents demo_outputs (demo_dir "app.exe").
Proof.
  exact (stored_pairs_match demo_contents (fun _ => false) Some demo_outputs None true [Paired "app.pdb"]
           demo_checked_in (demo_dir "app.exe", "app.exe") (list_elem_of_here _ _) eq_refl).
Defined.
(** The blobs lie elsewhere, under their digests. *)
Definition demo_blob (p : path) : path := ([RootDir; Normal "blobs"] ++ drop 1 p)%list.
Definition demo_blobs (p : path) : option string :=
  if decide (p = demo_blob (demo_dir "app.exe")) then Some demo_exe
  else if decide (p = demo_blob (demo_dir "app.pdb")) then Some demo_pdb else None.
Lemma admitted_pairs_are_served_witness :
  check_cached_outputs demo_blobs (fun _ => true) (fun _ => None) (map (stored_as demo_blob) demo_outputs) None
  = Ok [Paired "app.pdb"].
Proof.
  refine (admitted_pairs_are_served demo_contents demo_blobs (fun _ => false) (fun _ => true) Some (fun _ => None)
           demo_blob demo_outputs None [Paired "app.pdb"] _ demo_checked).
  intros o [->|[->|[]%elem_of_nil]%elem_of_cons]%elem_of_cons; reflexivity.
Defined.
