(* ===== verification/ObjectGates.v ===== *)
(** * Object file gates

    The readers of [src/native_archive.rs] that decide whether an archive member is an
    object whose bytes alone determine what a linker makes of it: ELF relocatable
    objects, Mach-O objects and the closed COFF subset.  A gate accepts an input
    ([Some(_)], here [Ok]) or falls back ([None], here [Refused]); an index or slice
    that the source does not check is [Panic] when it is out of bounds. *)

From S2P Require Import Prelude Strings Codec Bytes Regions.
#[local] Open Scope string_scope.
#[local] Open Scope Z_scope.

Definition MH_OBJECT : Z := 0x1.
Definition LC_SEGMENT : Z := 0x1.
Definition LC_SYMTAB : Z := 0x2.
Definition LC_DYSYMTAB : Z := 0xb.
Definition LC_SEGMENT_64 : Z := 0x19.
Definition LC_UUID : Z := 0x1b.
Definition LC_VERSION_MIN_MACOSX : Z := 0x24.
Definition LC_VERSION_MIN_IPHONEOS : Z := 0x25.
Definition LC_DATA_IN_CODE : Z := 0x29.
Definition LC_SOURCE_VERSION : Z := 0x2a.
Definition LC_LINKER_OPTION : Z := 0x2d.
Definition LC_LINKER_OPTIMIZATION_HINT : Z := 0x2e.
Definition LC_VERSION_MIN_TVOS : Z := 0x2f.
Definition LC_VERSION_MIN_WATCHOS : Z := 0x30.
Definition LC_BUILD_VERSION : Z := 0x32.
Definition N_STAB : Z := 0xe0.
Definition N_TYPE : Z := 0x0e.
Definition N_SECT : Z := 0x0e.
Definition S_ZEROFILL : Z := 0x1.
Definition S_GB_ZEROFILL : Z := 0xc.
Definition S_THREAD_LOCAL_ZEROFILL : Z := 0x12.
Definition SECTION_TYPE : Z := 0xff.
Definition S_ATTR_DEBUG : Z := 0x02000000.
Definition SHT_LLVM_OFFLOADING : Z := 0x6fff4c0b.
Definition SHT_LLVM_LTO : Z := 0x6fff4c0c.
Definition MAX_RUNTIME_NAME_BYTES : Z := 256.
Definition SHORT_IMPORT_SIGNATURE : string := String "000" (String "000" (String "255" (String "255" ""))).

Inductive MachEndian := Little | Big.
#[global] Instance MachEndian_eq_dec : EqDecision MachEndian.
Proof. solve_decision. Defined.

Section Gates.
Context `{Usize}.

(** ** Numbers *)

(** [MachEndian::u16], [u32] and [u64] *)
Definition endian_uint (n : Z) (e : MachEndian) (bytes : string) (offset : Z) : result ReadError Z :=
  end_ ← cadd offset n;
  raw ← get_range bytes offset end_;
  Ok (match e with Little => from_le_bytes raw | Big => from_be_bytes raw end).
Definition endian_u16 := endian_uint 2.
Definition endian_u32 := endian_uint 4.
Definition endian_u64 := endian_uint 8.
(** [usize::try_from(endian.u32(..)?).ok()?] *)
Definition usize_u32 (e : MachEndian) (bytes : string) (offset : Z) : result ReadError Z :=
  v ← endian_u32 e bytes offset; to_usize v.
Definition usize_u64 (e : MachEndian) (bytes : string) (offset : Z) : result ReadError Z :=
  v ← endian_u64 e bytes offset; to_usize v.
Definition byte_value (bytes : string) (i : Z) : result ReadError Z := byte_val <$> or_none (byte_at bytes i).

(** [validate_counted_region] *)
Definition validate_counted_region (bytes : string) (offset count entry_size commands_end : Z)
    : result ReadError unit :=
  if count =? 0 then Ok tt else
  size ← or_none (checked_mul u64_max count entry_size);
  or_none (checked_file_region (slen bytes) offset size commands_end);;
  Ok tt.

(** ** ELF *)

(** [elf_machine_shape_is_supported] *)
Definition elf_machine_shape_is_supported (machine class : Z) (e : MachEndian) : bool :=
  let big := bool_decide (e = Big) in
  let little := bool_decide (e = Little) in
  if machine =? 2 then (class =? 1) && big
  else if machine =? 3 then (class =? 1) && little
  else if machine =? 8 then (class =? 1) || (class =? 2)
  else if (machine =? 20) || (machine =? 40) || (machine =? 42) then class =? 1
  else if (machine =? 21) || (machine =? 50) || (machine =? 183) || (machine =? 247) then class =? 2
  else if machine =? 22 then (class =? 2) && big
  else if machine =? 43 then (class =? 2) && big
  else if (machine =? 62) || (machine =? 258) then (class =? 2) && little
  else if machine =? 243 then ((class =? 1) || (class =? 2)) && little
  else false.
(** [elf_section_layout_is_supported] *)
Definition elf_section_layout_is_supported (header_len section_offset section_count names_index : Z) : bool :=
  negb (names_index =? 0) && (names_index <? section_count) && (header_len <=? section_offset).

(** The section table an ELF header describes. *)
Record ElfLayout := { el_header_len : Z; el_section_len : Z; el_section_offset : Z; el_section_count : Z;
  el_names_index : Z }.
Definition elf_layout (bytes : string) (e : MachEndian) (class : Z) : result ReadError ElfLayout :=
  if class =? 1 then
    a ← endian_u16 e bytes 40; (if negb (a =? 52) then reject else b ← endian_u16 e bytes 46; accept (b =? 40));;
    o ← usize_u32 e bytes 32; c ← endian_u16 e bytes 48; n ← endian_u16 e bytes 50;
    Ok {| el_header_len := 52; el_section_len := 40; el_section_offset := o; el_section_count := c;
          el_names_index := n |}
  else if class =? 2 then
    a ← endian_u16 e bytes 52; (if negb (a =? 64) then reject else b ← endian_u16 e bytes 58; accept (b =? 64));;
    o ← usize_u64 e bytes 40; c ← endian_u16 e bytes 60; n ← endian_u16 e bytes 62;
    Ok {| el_header_len := 64; el_section_len := 64; el_section_offset := o; el_section_count := c;
          el_names_index := n |}
  else reject.
(** The closure [section] of the parser. *)
Definition elf_section (bytes : string) (l : ElfLayout) (index : Z) : result ReadError string :=
  k ← cmul (el_section_len l) index;
  start ← cadd (el_section_offset l) k;
  end_ ← cadd start (el_section_len l);
  get_range bytes start end_.
(** The file extent of a section, at the offsets its class has. *)
Definition elf_extent (e : MachEndian) (class : Z) (header : string) : result ReadError (Z * Z) :=
  if class =? 1
  then o ← usize_u32 e header 16; l ← usize_u32 e header 20; Ok (o, l)
  else o ← usize_u64 e header 24; l ← usize_u64 e header 32; Ok (o, l).
Definition lto_section_name (name : string) : bool :=
  starts_with ".gnu.lto_" name || starts_with ".gnu.offload_lto_" name
  || String.eqb name ".llvmbc" || String.eqb name ".llvmcmd"
  || starts_with ".llvm.lto" name || starts_with ".llvm.offloading" name.
(** One section of the last loop. *)
Definition elf_section_step (bytes names : string) (e : MachEndian) (class : Z) (l : ElfLayout)
    (_ : unit) (index : Z) : result ReadError unit :=
  header ← elf_section bytes l index;
  section_type ← endian_u32 e header 4;
  accept (negb ((section_type =? SHT_LLVM_OFFLOADING) || (section_type =? SHT_LLVM_LTO)));;
  name_offset ← usize_u32 e header 0;
  raw_name ← get_from names name_offset;
  name_end ← or_none (position (is_byte 0) raw_name);
  name ← or_panic (slice raw_name 0 name_end);
  accept (negb (lto_section_name name));;
  if section_type =? 8 then Ok tt else
  '(start, len) ← elf_extent e class header;
  end_ ← cadd start len;
  get_range bytes start end_;;
  Ok tt.
(** [parse_known_elf_relocatable_object] *)
Definition parse_known_elf_relocatable_object (bytes : string) : result ReadError unit :=
  magic ← get_range bytes 0 4;
  (if negb (String.eqb magic (String "127" "ELF")) then reject
   else version ← byte_value bytes 6; accept (version =? 1));;
  data ← byte_value bytes 5;
  e ← (if data =? 1 then Ok Little else if data =? 2 then Ok Big else reject);
  class ← byte_value bytes 4;
  type ← endian_u16 e bytes 16;
  (if negb (type =? 1) then reject else v ← endian_u32 e bytes 20; accept (v =? 1));;
  machine ← endian_u16 e bytes 18;
  accept (elf_machine_shape_is_supported machine class e);;
  l ← elf_layout bytes e class;
  accept (elf_section_layout_is_supported (el_header_len l) (el_section_offset l) (el_section_count l)
            (el_names_index l));;
  table_bytes ← cmul (el_section_len l) (el_section_count l);
  table_end ← cadd (el_section_offset l) table_bytes;
  get_range bytes (el_section_offset l) table_end;;
  names_header ← elf_section bytes l (el_names_index l);
  names_type ← endian_u32 e names_header 4;
  accept (names_type =? 3);;
  '(names_offset, names_len) ← elf_extent e class names_header;
  names_end ← cadd names_offset names_len;
  names ← get_range bytes names_offset names_end;
  accept (bool_decide (byte_at names 0 = Some "000"%char));;
  try_fold (elf_section_step bytes names e class l) tt (seqZ 0 (el_section_count l)).
(** [is_known_elf_relocatable_object] *)
Definition is_known_elf_relocatable_object (bytes : string) : result ReadError bool :=
  is_accepted (parse_known_elf_relocatable_object bytes).

(** ** Mach-O *)

Definition MAGIC_32_LE : string := String "206" (String "250" (String "237" (String "254" ""))).
Definition MAGIC_32_BE : string := String "254" (String "237" (String "250" (String "206" ""))).
Definition MAGIC_64_LE : string := String "207" (String "250" (String "237" (String "254" ""))).
Definition MAGIC_64_BE : string := String "254" (String "237" (String "250" (String "207" ""))).
(** [has_macho_magic] *)
Definition has_macho_magic (bytes : string) : bool :=
  match slice bytes 0 4 with
  | None => false
  | Some magic => String.eqb magic MAGIC_32_LE || String.eqb magic MAGIC_32_BE
                  || String.eqb magic MAGIC_64_LE || String.eqb magic MAGIC_64_BE
  end.

Record MachSymtab := { ms_symoff : Z; ms_nsyms : Z; ms_stroff : Z; ms_strsize : Z }.

(** [macho_fixed_name] *)
Definition macho_fixed_name (field : string) : result ReadError string :=
  accept (slen field =? 16);;
  let end_ := default (slen field) (position (is_byte 0) field) in
  rest ← or_panic (slice field end_ (slen field));
  accept (all_bytes (is_byte 0) rest);;
  or_panic (slice field 0 end_).
Definition is_macho_lto_segment (name : string) : bool :=
  String.eqb name "__LLVM" || String.eqb name "__GNU_LTO" || String.eqb name "__GNU_OFFLD_LTO".
Definition macho_segment_is_portable (name : string) : bool := negb (is_macho_lto_segment name).
Definition macho_section_is_dwarf (section_segment section_name : string) (flags : Z) : bool :=
  String.eqb section_segment "__DWARF" && negb (Z.land flags S_ATTR_DEBUG =? 0)
  && (starts_with "__debug_" section_name || starts_with "__apple_" section_name).
Definition macho_section_is_portable (section_segment section_name : string) (flags : Z) : bool :=
  if macho_section_is_dwarf section_segment section_name flags then true else
  let compact_unwind := String.eqb section_segment "__LD" && String.eqb section_name "__compact_unwind" in
  ((Z.land flags S_ATTR_DEBUG =? 0) || compact_unwind)
  && negb (String.eqb section_segment "__DWARF")
  && negb (starts_with "__debug_" section_name)
  && negb (starts_with "__zdebug_" section_name)
  && negb (is_macho_lto_segment section_segment)
  && negb (String.eqb section_name "__bitcode")
  && negb (String.eqb section_name "__bundle").
Definition is_macho_zerofill (flags : Z) : bool :=
  let t := Z.land flags SECTION_TYPE in
  (t =? S_ZEROFILL) || (t =? S_GB_ZEROFILL) || (t =? S_THREAD_LOCAL_ZEROFILL).
Definition range_is_within (inner outer : Z * Z) : bool := (outer.1 <=? inner.1) && (inner.2 <=? outer.2).
Definition macho_command_table_is_plausible (ncmds sizeofcmds : Z) : bool :=
  negb (ncmds =? 0)
  && match checked_mul usize_max ncmds 8 with Some minimum_size => minimum_size <=? sizeofcmds | None => false end.
Definition macho_command_size_is_valid (command_size alignment : Z) : bool :=
  (8 <=? command_size) && (command_size mod alignment =? 0).
Definition macho_segment_width (command : Z) (object_is_64 : bool) : option bool :=
  if (command =? LC_SEGMENT) && negb object_is_64 then Some false
  else if (command =? LC_SEGMENT_64) && object_is_64 then Some true else None.
Definition macho_commands_are_complete (command_offset commands_end : Z) (saw_segment : bool) : bool :=
  (command_offset =? commands_end) && saw_segment.
Definition macho_symbol_section_is_valid (symbol_type section section_count : Z) : bool :=
  negb (Z.land symbol_type N_TYPE =? N_SECT) || (negb (section =? 0) && (section <=? section_count)).
Definition macho_symbol_name_is_valid (strings : string) (string_index : Z) : bool :=
  (string_index =? 0)
  || match slice strings string_index (slen strings) with
     | Some name => negb (all_bytes (fun c => negb (is_byte 0 c)) name)
     | None => false
     end.

(** The fields of a section header that [validate_macho_segment] reads. *)
Record MachSection := { sec_size : Z; sec_offset : Z; sec_reloff : Z; sec_nreloc : Z; sec_flags : Z }.
Definition macho_section (e : MachEndian) (is_64 : bool) (section : string) : result ReadError MachSection :=
  if is_64 then
    size ← endian_u64 e section 40; offset ← endian_u32 e section 48; reloff ← endian_u32 e section 56;
    nreloc ← endian_u32 e section 60; flags ← endian_u32 e section 64;
    Ok {| sec_size := size; sec_offset := offset; sec_reloff := reloff; sec_nreloc := nreloc; sec_flags := flags |}
  else
    size ← endian_u32 e section 36; offset ← endian_u32 e section 40; reloff ← endian_u32 e section 48;
    nreloc ← endian_u32 e section 52; flags ← endian_u32 e section 56;
    Ok {| sec_size := size; sec_offset := offset; sec_reloff := reloff; sec_nreloc := nreloc; sec_flags := flags |}.
(** One section of the loop of [validate_macho_segment]. *)
Definition macho_section_step (bytes command : string) (e : MachEndian) (is_64 : bool)
    (base_size section_size commands_end : Z) (segment_range : option (Z * Z)) (has_dwarf : bool) (index : Z)
    : result ReadError bool :=
  k ← cmul index section_size;
  start ← cadd base_size k;
  end_ ← cadd start section_size;
  section ← get_range command start end_;
  name_field ← get_range section 0 16;
  section_name ← macho_fixed_name name_field;
  segment_field ← get_range section 16 32;
  section_segment ← macho_fixed_name segment_field;
  s ← macho_section e is_64 section;
  accept (macho_section_is_portable section_segment section_name (sec_flags s));;
  let has_dwarf := if macho_section_is_dwarf section_segment section_name (sec_flags s) then true else has_dwarf in
  (if negb (is_macho_zerofill (sec_flags s)) && negb (sec_size s =? 0) then
     section_range ← or_none (checked_file_region (slen bytes) (sec_offset s) (sec_size s) commands_end);
     match segment_range with
     | Some outer => accept (range_is_within section_range outer)
     | None => Ok tt
     end
   else Ok tt);;
  (if negb (sec_nreloc s =? 0) then
     relocation_bytes ← or_none (checked_mul u64_max (sec_nreloc s) 8);
     or_none (checked_file_region (slen bytes) (sec_reloff s) relocation_bytes commands_end);; Ok tt
   else Ok tt);;
  Ok has_dwarf.
(** [validate_macho_segment] *)
Definition validate_macho_segment (bytes command : string) (e : MachEndian) (is_64 : bool) (commands_end : Z)
    : result ReadError (Z * bool) :=
  '(base_size, section_size, fileoff, filesize, nsects) ←
    (if is_64 then
       fileoff ← endian_u64 e command 40; filesize ← endian_u64 e command 48; nsects ← endian_u32 e command 64;
       Ok (72, 80, fileoff, filesize, nsects)
     else
       fileoff ← endian_u32 e command 32; filesize ← endian_u32 e command 36; nsects ← endian_u32 e command 48;
       Ok (56, 68, fileoff, filesize, nsects));
  count ← to_usize nsects;
  section_bytes ← cmul count section_size;
  len ← cadd base_size section_bytes;
  accept (slen command =? len);;
  field ← get_range command 8 24;
  segment_name ← macho_fixed_name field;
  accept (macho_segment_is_portable segment_name);;
  segment_range ← (if filesize =? 0 then Ok None
                   else Some <$> or_none (checked_file_region (slen bytes) fileoff filesize 0));
  has_dwarf ← try_fold (macho_section_step bytes command e is_64 base_size section_size commands_end segment_range)
                false (seqZ 0 count);
  Ok (nsects, has_dwarf).

(** One symbol of the loop of [validate_macho_symtab]. *)
Definition macho_symbol_step (bytes strings : string) (e : MachEndian) (symbols_start entry_size section_count : Z)
    (_ : unit) (index : Z) : result ReadError unit :=
  k ← cmul index entry_size;
  start ← cadd symbols_start k;
  end_ ← cadd start entry_size;
  symbol ← get_range bytes start end_;
  string_index ← usize_u32 e symbol 0;
  symbol_type ← byte_value symbol 4;
  accept (Z.land symbol_type N_STAB =? 0);;
  section ← byte_value symbol 5;
  accept (macho_symbol_section_is_valid symbol_type section section_count);;
  accept (macho_symbol_name_is_valid strings string_index).
(** [validate_macho_symtab] *)
Definition validate_macho_symtab (bytes : string) (e : MachEndian) (is_64 : bool) (commands_end section_count : Z)
    (symtab : MachSymtab) : result ReadError unit :=
  let entry_size := if is_64 then 16 else 12 in
  symbols_size ← or_none (checked_mul u64_max (ms_nsyms symtab) entry_size);
  '(symbols_start, _) ← or_none (checked_file_region (slen bytes) (ms_symoff symtab) symbols_size commands_end);
  '(strings_start, strings_end) ←
    or_none (checked_file_region (slen bytes) (ms_stroff symtab) (ms_strsize symtab) commands_end);
  strings ← get_range bytes strings_start strings_end;
  accept (bool_decide (byte_at strings 0 = Some "000"%char));;
  nsyms ← to_usize (ms_nsyms symtab);
  try_fold (macho_symbol_step bytes strings e symbols_start entry_size section_count) tt (seqZ 0 nsyms).

(** [validate_macho_dysymtab]; the array has eighteen fields. *)
Definition symbol_range_step (fields : list Z) (symbol_count : Z) (_ : unit) (i : nat) : result ReadError unit :=
  end_ ← or_none (checked_add u32_max (nth i fields 0) (nth (S i) fields 0));
  accept (end_ <=? symbol_count).
Definition validate_macho_dysymtab (bytes : string) (is_64 : bool) (commands_end symbol_count : Z) (fields : list Z)
    : result ReadError unit :=
  try_fold (symbol_range_step fields symbol_count) tt [0; 2; 4]%nat;;
  let region i size := validate_counted_region bytes (nth i fields 0) (nth (S i) fields 0) size commands_end in
  region 6%nat 8;; region 8%nat (if is_64 then 56 else 52);; region 10%nat 4;; region 12%nat 4;;
  region 14%nat 8;; region 16%nat 8.

(** [validate_build_version], [validate_linkedit_data] *)
Definition validate_build_version (command : string) (e : MachEndian) : result ReadError unit :=
  ntools ← usize_u32 e command 20;
  tools_size ← cmul ntools 8;
  len ← cadd 24 tools_size;
  accept (slen command =? len).
Definition validate_linkedit_data (bytes command : string) (e : MachEndian) (commands_end : Z)
    : result ReadError unit :=
  accept (slen command =? 16);;
  offset ← endian_u32 e command 8;
  size ← endian_u32 e command 12;
  or_none (checked_file_region (slen bytes) offset size commands_end);;
  Ok tt.
(** [validate_linker_option] *)
Definition linker_option_step (rest : string) (_ : Z) : result ReadError string :=
  end_ ← or_none (position (is_byte 0) rest);
  accept (negb (end_ =? 0));;
  next ← uadd end_ 1;
  get_from rest next.
Definition validate_linker_option (command : string) (e : MachEndian) : result ReadError unit :=
  header ← get_range command 0 12;
  count ← usize_u32 e header 8;
  rest ← get_from command 12;
  rest ← try_fold linker_option_step rest (seqZ 0 count);
  accept (all_bytes (is_byte 0) rest).

(** The variables of the load command loop. *)
Record MachState := { mo_offset : Z; mo_sections : Z; mo_segment : bool; mo_dwarf : bool;
  mo_symtab : option MachSymtab; mo_dysymtab : option (list Z) }.
Definition at_offset (offset : Z) (m : MachState) : MachState :=
  {| mo_offset := offset; mo_sections := mo_sections m; mo_segment := mo_segment m; mo_dwarf := mo_dwarf m;
     mo_symtab := mo_symtab m; mo_dysymtab := mo_dysymtab m |}.
(** The [match cmd] of the loop. *)
Definition macho_command (bytes command : string) (e : MachEndian) (is_64 : bool) (commands_end cmd : Z)
    (m : MachState) : result ReadError MachState :=
  if (cmd =? LC_SEGMENT) || (cmd =? LC_SEGMENT_64) then
    segment_is_64 ← or_none (macho_segment_width cmd is_64);
    '(nsects, dwarf) ← validate_macho_segment bytes command e segment_is_64 commands_end;
    sections ← or_none (checked_add u32_max (mo_sections m) nsects);
    Ok {| mo_offset := mo_offset m; mo_sections := sections; mo_segment := true;
          mo_dwarf := if dwarf : bool then true else mo_dwarf m; mo_symtab := mo_symtab m; mo_dysymtab := mo_dysymtab m |}
  else if cmd =? LC_SYMTAB then
    accept (negb (bool_decide (is_Some (mo_symtab m))));;
    accept (slen command =? 24);;
    symoff ← endian_u32 e command 8; nsyms ← endian_u32 e command 12;
    stroff ← endian_u32 e command 16; strsize ← endian_u32 e command 20;
    Ok {| mo_offset := mo_offset m; mo_sections := mo_sections m; mo_segment := mo_segment m;
          mo_dwarf := mo_dwarf m; mo_dysymtab := mo_dysymtab m;
          mo_symtab := Some {| ms_symoff := symoff; ms_nsyms := nsyms; ms_stroff := stroff; ms_strsize := strsize |} |}
  else if cmd =? LC_DYSYMTAB then
    accept (negb (bool_decide (is_Some (mo_dysymtab m))));;
    accept (slen command =? 80);;
    fields ← mapM (fun raw => endian_u32 e raw 0) (chunks 4 (sdrop 8 command));
    Ok {| mo_offset := mo_offset m; mo_sections := mo_sections m; mo_segment := mo_segment m;
          mo_dwarf := mo_dwarf m; mo_symtab := mo_symtab m; mo_dysymtab := Some fields |}
  else if cmd =? LC_BUILD_VERSION then validate_build_version command e;; Ok m
  else if (cmd =? LC_VERSION_MIN_MACOSX) || (cmd =? LC_VERSION_MIN_IPHONEOS)
          || (cmd =? LC_VERSION_MIN_TVOS) || (cmd =? LC_VERSION_MIN_WATCHOS)
  then accept (slen command =? 16);; Ok m
  else if (cmd =? LC_DATA_IN_CODE) || (cmd =? LC_LINKER_OPTIMIZATION_HINT) then
    validate_linkedit_data bytes command e commands_end;;
    (if cmd =? LC_DATA_IN_CODE then v ← endian_u32 e command 12; accept (v mod 8 =? 0) else Ok tt);;
    Ok m
  else if cmd =? LC_LINKER_OPTION then validate_linker_option command e;; Ok m
  else if cmd =? LC_SOURCE_VERSION then accept (slen command =? 16);; Ok m
  else if cmd =? LC_UUID then accept (slen command =? 24);; Ok m
  else reject.
(** One round of the loop. *)
Definition macho_command_step (bytes : string) (e : MachEndian) (is_64 : bool) (commands_end : Z)
    (m : MachState) (_ : Z) : result ReadError MachState :=
  let command_alignment := if is_64 then 8 else 4 in
  cmd ← endian_u32 e bytes (mo_offset m);
  size_at ← uadd (mo_offset m) 4;
  cmdsize ← usize_u32 e bytes size_at;
  accept (macho_command_size_is_valid cmdsize command_alignment);;
  command_end ← cadd (mo_offset m) cmdsize;
  accept (command_end <=? commands_end);;
  command ← or_panic (slice bytes (mo_offset m) command_end);
  m ← macho_command bytes command e is_64 commands_end cmd m;
  Ok (at_offset command_end m).
(** The magic numbers, in the order of the [match]. *)
Definition macho_shape (magic : string) : option (MachEndian * bool) :=
  if String.eqb magic MAGIC_32_LE then Some (Little, false)
  else if String.eqb magic MAGIC_32_BE then Some (Big, false)
  else if String.eqb magic MAGIC_64_LE then Some (Little, true)
  else if String.eqb magic MAGIC_64_BE then Some (Big, true) else None.
Definition macho_known_cpu (cpu_type : Z) (is_64 : bool) : bool :=
  if (cpu_type =? 7) || (cpu_type =? 12) || (cpu_type =? 18) then negb is_64
  else if (cpu_type =? 0x01000007) || (cpu_type =? 0x0100000c) || (cpu_type =? 0x01000012) then is_64
  else false.
(** [parse_known_no_debug_macho_object] *)
Definition parse_known_no_debug_macho_object (bytes : string) : result ReadError bool :=
  magic ← get_range bytes 0 4;
  '(e, is_64) ← or_none (macho_shape magic);
  let header_len := if is_64 : bool then 32 else 28 in
  get_range bytes 0 header_len;;
  cpu_type ← endian_u32 e bytes 4;
  (if negb (macho_known_cpu cpu_type is_64) then reject
   else filetype ← endian_u32 e bytes 12; accept (filetype =? MH_OBJECT));;
  ncmds ← usize_u32 e bytes 16;
  sizeofcmds ← usize_u32 e bytes 20;
  commands_end ← cadd header_len sizeofcmds;
  get_range bytes header_len commands_end;;
  accept (macho_command_table_is_plausible ncmds sizeofcmds);;
  m ← try_fold (macho_command_step bytes e is_64 commands_end)
        {| mo_offset := header_len; mo_sections := 0; mo_segment := false; mo_dwarf := false;
           mo_symtab := None; mo_dysymtab := None |} (seqZ 0 ncmds);
  accept (macho_commands_are_complete (mo_offset m) commands_end (mo_segment m));;
  symtab ← or_none (mo_symtab m);
  validate_macho_symtab bytes e is_64 commands_end (mo_sections m) symtab;;
  (match mo_dysymtab m with
   | Some fields => validate_macho_dysymtab bytes is_64 commands_end (ms_nsyms symtab) fields
   | None => Ok tt
   end);;
  Ok (mo_dwarf m).
End Gates.
