(* ===== verification/GateSound.v ===== *)
(** * What the object gates let through

    An accepted ELF object has no LTO or offload section and only sections in the
    file; an accepted Mach-O object is tiled by its load commands, has only portable
    sections and no STABS symbol, and is reported as carrying DWARF exactly when one of
    its sections is DWARF.  No gate panics, whatever bytes it is given. *)

From S2P Require Import Prelude Strings Codec Regions Bytes ObjectGates.
#[local] Open Scope string_scope.
#[local] Open Scope Z_scope.

(** ** Proofs about the object gates

    No gate panics, whatever bytes it is given; what a gate accepts has none of the
    sections or symbols it is there to keep out. *)

Section Gates.
Context `{Usize}.

(** ** The gates end without a panic *)

Lemma reverse_bytes_len s : slen (reverse_bytes s) = slen s.
Proof. induction s as [|c s IH]; [done|]. cbn. rewrite slen_app, IH. unfold slen. cbn. lia. Qed.
Lemma safe_endian n e bytes offset (P : Z -> Prop) :
  (forall v, 0 <= v < 256 ^ n -> 0 <= offset -> offset + n <= slen bytes -> offset + n <= usize_max ->
     endian_uint n e bytes offset = Ok v -> P v) ->
  safe (endian_uint n e bytes offset) P.
Proof.
  intros HP. apply (safe_mono _ (fun v => 0 <= v < 256 ^ n /\ 0 <= offset /\ offset + n <= slen bytes
                                          /\ offset + n <= usize_max)).
  - unfold endian_uint. apply safe_bind, safe_cadd. intros L. apply safe_bind, safe_get_range.
    intros t _ ? ? Lt. cbn. replace (offset + n - offset) with n in Lt by lia.
    pose proof (from_le_bytes_bounds t) as B1. pose proof (from_le_bytes_bounds (reverse_bytes t)) as B2.
    rewrite reverse_bytes_len in B2. rewrite Lt in B1, B2. unfold from_be_bytes. destruct e; lia.
  - intros v Hv (? & ? & ? & ?). by apply HP.
Qed.
Lemma safe_byte_value bytes i (P : Z -> Prop) :
  (forall v, 0 <= v < 256 -> byte_value bytes i = Ok v -> P v) -> safe (byte_value bytes i) P.
Proof.
  intros HP. apply (safe_mono _ (fun v => 0 <= v < 256)); [|by intros; apply HP].
  unfold byte_value. do 2 read_step. apply byte_val_bound.
Qed.
End Gates.

(** One step of a gate. *)
Ltac gate_step :=
  cbn beta;
  match goal with
  | |- safe (usize_u32 _ _ _) _ => apply safe_bind
  | |- safe (usize_u64 _ _ _) _ => apply safe_bind
  | |- safe (endian_u16 _ _ _) _ => apply (safe_endian 2); intros ? ? ? ? ? ?
  | |- safe (endian_u32 _ _ _) _ => apply (safe_endian 4); intros ? ? ? ? ? ?
  | |- safe (endian_u64 _ _ _) _ => apply (safe_endian 8); intros ? ? ? ? ? ?
  | |- safe (byte_value _ _) _ => apply safe_byte_value; intros ? ? ?
  | |- _ => read_step
  end.

(** Components known to be safe are steps too. *)
Create HintDb gates.
Ltac gate_steps :=
  repeat first [ gate_step | eapply safe_mono; [by eauto 3 with gates nocore|intros ? ? ?] ]; try done.

Section Settled.
Context `{Usize}.
#[local] Abbreviation any := (fun _ => True).

Lemma validate_counted_region_safe bytes o c n k : safe (validate_counted_region bytes o c n k) any.
Proof. unfold validate_counted_region. by gate_steps. Qed.
Lemma elf_layout_safe bytes e class : safe (elf_layout bytes e class) any.
Proof. unfold elf_layout. by gate_steps. Qed.
Lemma elf_section_safe bytes l i : safe (elf_section bytes l i) any.
Proof. unfold elf_section. by gate_steps. Qed.
Lemma elf_extent_safe e class header : safe (elf_extent e class header) any.
Proof. unfold elf_extent. by gate_steps. Qed.
#[local] Hint Resolve validate_counted_region_safe elf_layout_safe elf_section_safe elf_extent_safe : gates.
Lemma elf_section_step_safe bytes names e class l u i : safe (elf_section_step bytes names e class l u i) any.
Proof. unfold elf_section_step. by gate_steps. Qed.
Lemma safe_loop {S A} (f : S -> A -> result ReadError S) s l :
  (forall s a, safe (f s a) any) -> safe (try_fold f s l) any.
Proof. intros Hf. by apply (safe_fold _ (fun _ _ => True)). Qed.
Lemma elf_safe bytes : safe (parse_known_elf_relocatable_object bytes) any.
Proof.
  unfold parse_known_elf_relocatable_object. gate_steps.
  all: apply safe_loop; intros; apply elf_section_step_safe.
Qed.
#[local] Hint Resolve elf_safe : gates.

Lemma macho_fixed_name_safe field : safe (macho_fixed_name field) any.
Proof.
  unfold macho_fixed_name. gate_step. gate_step. pose proof (default_position_bounds (is_byte 0) field).
  by gate_steps.
Qed.
#[local] Hint Resolve macho_fixed_name_safe : gates.
Lemma macho_section_safe e is_64 section : safe (macho_section e is_64 section) any.
Proof. unfold macho_section. by gate_steps. Qed.
#[local] Hint Resolve macho_section_safe : gates.
Lemma macho_section_step_safe bytes command e is_64 b n k r d i :
  safe (macho_section_step bytes command e is_64 b n k r d i) any.
Proof. unfold macho_section_step. by gate_steps. Qed.
Lemma validate_macho_segment_safe bytes command e is_64 k : safe (validate_macho_segment bytes command e is_64 k) any.
Proof.
  unfold validate_macho_segment. gate_steps.
  all: eapply safe_mono; [apply safe_loop; intros; apply macho_section_step_safe|by intros; gate_steps].
Qed.
Lemma macho_symbol_step_safe bytes strings e a b c u i : safe (macho_symbol_step bytes strings e a b c u i) any.
Proof. unfold macho_symbol_step. by gate_steps. Qed.
Lemma validate_macho_symtab_safe bytes e is_64 k c t : safe (validate_macho_symtab bytes e is_64 k c t) any.
Proof.
  unfold validate_macho_symtab. gate_steps. all: apply safe_loop; intros; apply macho_symbol_step_safe.
Qed.
Lemma validate_macho_dysymtab_safe bytes is_64 k c fields : safe (validate_macho_dysymtab bytes is_64 k c fields) any.
Proof.
  unfold validate_macho_dysymtab. gate_step. eapply safe_mono; [|by intros; gate_steps].
  apply safe_loop. intros. unfold symbol_range_step. by gate_steps.
Qed.
Lemma validate_build_version_safe command e : safe (validate_build_version command e) any.
Proof. unfold validate_build_version. by gate_steps. Qed.
Lemma validate_linkedit_data_safe bytes command e k : safe (validate_linkedit_data bytes command e k) any.
Proof. unfold validate_linkedit_data. by gate_steps. Qed.
Lemma validate_linker_option_safe command e : slen command <= usize_max -> safe (validate_linker_option command e) any.
Proof.
  intros L. unfold validate_linker_option. gate_steps.
  apply (safe_fold _ (fun _ rest => slen rest <= usize_max)); [lia| |by intros; gate_steps].
  intros a l rest Hr. unfold linker_option_step. gate_steps. lia.
Qed.
#[local] Hint Resolve validate_macho_segment_safe validate_macho_symtab_safe validate_macho_dysymtab_safe
  validate_build_version_safe validate_linkedit_data_safe validate_linker_option_safe : gates.
Lemma safe_mapM {A B} (f : A -> result ReadError B) l : (forall a, safe (f a) any) -> safe (mapM f l) any.
Proof.
  intros Hf. induction l as [|a l IH]; [done|]. cbn [mapM]. apply safe_bind. eapply safe_mono; [apply Hf|].
  intros b _ _. apply safe_bind. by eapply safe_mono; [exact IH|].
Qed.
Lemma macho_command_safe bytes command e is_64 k cmd m :
  slen command <= usize_max -> safe (macho_command bytes command e is_64 k cmd m) any.
Proof.
  intros L. unfold macho_command. gate_steps.
  all: eapply safe_mono; [apply safe_mapM; intros; by gate_steps|by intros; gate_steps].
Qed.
Lemma macho_command_step_safe bytes e is_64 k m i :
  k <= slen bytes -> safe (macho_command_step bytes e is_64 k m i) any.
Proof.
  intros L. unfold macho_command_step. gate_steps.
  eapply safe_mono; [apply macho_command_safe; lia|by intros; gate_steps].
Qed.
Lemma macho_safe bytes : safe (parse_known_no_debug_macho_object bytes) any.
Proof.
  unfold parse_known_no_debug_macho_object. gate_steps.
  all: eapply safe_mono; [apply safe_loop; intros; apply macho_command_step_safe; lia|by intros; gate_steps].
Qed.
End Settled.
#[export] Hint Resolve validate_counted_region_safe elf_safe macho_safe : gates.

Lemma try_fold_unit {E A} (f : unit -> A -> result E unit) l u a :
  try_fold f tt l = Ok u -> a ∈ l -> f tt a = Ok tt.
Proof.
  induction l as [|b l IH]; cbn; [by intros _ ?%elem_of_nil|]. intros ([] & Hb & Hl)%bind_Ok [->|Ha]%elem_of_cons; auto.
Qed.

Section Width.
Context `{Usize}.
Lemma cadd_Ok a b c : cadd a b = Ok c -> c = a + b.
Proof. intros E. inv_read. by apply checked_add_Some in E as [-> _]. Qed.
Lemma cmul_Ok a b c : cmul a b = Ok c -> c = a * b.
Proof. unfold cmul, checked_mul. intros E. inv_read. destruct (_ <=? _); [by injection E as <-|done]. Qed.
Lemma to_usize_Ok a b : to_usize a = Ok b -> b = a.
Proof. unfold to_usize, usize_try_from. intros E. inv_read. destruct (_ <=? _); [by injection E as <-|done]. Qed.
End Width.

Section Elf.
Context `{Usize}.

(** The name of a section, NUL-terminated in the string table. *)
Definition elf_section_name (e : MachEndian) (names header : string) : option string :=
  offset ← ok (usize_u32 e header 0);
  raw ← slice names offset (slen names);
  end_ ← position (is_byte 0) raw;
  slice raw 0 end_.
(** [names] is the string table of section names. *)
Definition elf_names (bytes : string) (e : MachEndian) (class : Z) (l : ElfLayout) (names : string) : Prop :=
  exists header o len, elf_section bytes l (el_names_index l) = Ok header
    /\ elf_extent e class header = Ok (o, len) /\ slice bytes o (o + len) = Some names.
(** A section whose bytes mean to a linker what they say. *)
Definition plain_section (bytes names : string) (e : MachEndian) (class : Z) (header : string) : Prop :=
  exists type name,
    endian_u32 e header 4 = Ok type /\ elf_section_name e names header = Some name
    /\ type <> SHT_LLVM_OFFLOADING /\ type <> SHT_LLVM_LTO /\ lto_section_name name = false
    /\ (type = 8 \/ exists start len, elf_extent e class header = Ok (start, len) /\ start + len <= slen bytes).
Lemma elf_section_step_Ok bytes names e class l i :
  elf_section_step bytes names e class l tt i = Ok tt ->
  exists header, elf_section bytes l i = Ok header /\ plain_section bytes names e class header.
Proof.
  unfold elf_section_step.
  intros (header & Hh & (type & Ht & (u & Ha & (o & Ho & (raw & Hr & E)%bind_Ok)%bind_Ok)%bind_Ok)%bind_Ok)%bind_Ok.
  apply bind_Ok in E as (k & Hk & (name & Hn & (v & Hl & E)%bind_Ok)%bind_Ok).
  exists header. split; [done|]. exists type, name. inv_read.
  apply negb_true_iff, orb_false_elim in Ha as [Ha1 Ha2]. apply negb_true_iff in Hl. bool_to_prop.
  split; [done|]. split; [by unfold elf_section_name; rewrite Ho; cbn; rewrite Hr; cbn; rewrite Hk|].
  split; [done|]. split; [done|]. split; [done|].
  destruct (Z.eqb_spec type 8); [by left|]. right.
  apply bind_Ok in E as ([start len] & He & (end_ & Hend & (x & Hx & _)%bind_Ok)%bind_Ok).
  exists start, len. split; [done|]. inv_read. apply checked_add_Some in Hend as [-> _].
  apply slice_spec in Hx as (_ & Hx & _). done.
Qed.

(** An ELF member that is accepted is a relocatable object with a section table in
    the file, in which no section is an LTO or offload carrier, by type or by name, and
    every section with file contents lies in the file. *)
Theorem elf_gate_sound bytes :
  is_known_elf_relocatable_object bytes = Ok true ->
  exists e class l names,
    byte_value bytes 5 = Ok (match e with Little => 1 | Big => 2 end) /\ byte_value bytes 4 = Ok class
    /\ endian_u16 e bytes 16 = Ok 1 /\ elf_layout bytes e class = Ok l /\ 0 < el_section_count l
    /\ elf_names bytes e class l names
    /\ forall i, 0 <= i < el_section_count l ->
       exists header, elf_section bytes l i = Ok header /\ plain_section bytes names e class header.
Proof.
  unfold is_known_elf_relocatable_object, is_accepted.
  destruct (parse_known_elf_relocatable_object bytes) as [[]|[]] eqn:E; try done. intros _.
  unfold parse_known_elf_relocatable_object in E.
  apply bind_Ok in E as (? & _ & (? & _ & (data & H5 & (e & He & (class & H4 & E)%bind_Ok)%bind_Ok)%bind_Ok)%bind_Ok).
  apply bind_Ok in E as (type & Ht & (u & Hu & (? & _ & (? & _ & (l & Hl & E)%bind_Ok)%bind_Ok)%bind_Ok)%bind_Ok).
  apply bind_Ok in E as (? & Hs & (? & _ & (? & _ & (? & _ & E)%bind_Ok)%bind_Ok)%bind_Ok).
  apply bind_Ok in E as (nh & Hnh & (? & _ & (? & _ & ([o len] & Hex & (ne & Hne & E)%bind_Ok)%bind_Ok)%bind_Ok)%bind_Ok).
  apply bind_Ok in E as (names & Hns & (? & _ & E)%bind_Ok).
  exists e, class, l, names. destruct (Z.eqb_spec type 1) as [->|]; [|done].
  inv_read. apply checked_add_Some in Hne as [-> _].
  unfold elf_section_layout_is_supported in Hs. apply andb_prop in Hs as [[? ?]%andb_prop _]. bool_to_prop.
  split. { rewrite H5. destruct (Z.eqb_spec data 1) as [->|]; [by injection He as <-|].
           destruct (Z.eqb_spec data 2) as [->|]; [by injection He as <-|done]. }
  split; [done|]. split; [done|]. split; [done|].
  assert (forall n e o v, endian_uint n e bytes o = Ok v -> 0 <= v) as Hpos.
  { intros n e0 at_ v Hv. eapply (safe_Ok _ (fun v => 0 <= v)) in Hv; [done|]. apply safe_endian. lia. }
  assert (0 <= el_names_index l).
  { unfold elf_layout in Hl. repeat case_match; inv_read; try done; cbn; by eapply Hpos. }
  split; [lia|]. split; [by exists nh, o, len|]. intros i Hi. apply elf_section_step_Ok. eapply try_fold_unit; [exact E|]. apply elem_of_seqZ. lia.
Qed.
End Elf.

(** ** Mach-O *)

Section Macho.
Context `{Usize}.

(** A load command with its number, at its place in the table. *)
Definition command_at (bytes : string) (e : MachEndian) (pos : Z) (c : Z * string) (next : Z) : Prop :=
  endian_u32 e bytes pos = Ok c.1 /\ slice bytes pos next = Some c.2 /\ usize_u32 e bytes (pos + 4) = Ok (next - pos).
Definition is_segment (cmd : Z) : bool := (cmd =? LC_SEGMENT) || (cmd =? LC_SEGMENT_64).
(** The section at an index of a segment: its segment, its name and its flags. *)
Definition section_at (e : MachEndian) (is_64 : bool) (command : string) (i : Z) : result ReadError (string * string * Z) :=
  let size := if is_64 then 80 else 68 in
  let start := (if is_64 then 72 else 56) + i * size in
  section ← get_range command start (start + size);
  nf ← get_range section 0 16;
  name ← macho_fixed_name nf;
  sf ← get_range section 16 32;
  segment ← macho_fixed_name sf;
  s ← macho_section e is_64 section;
  Ok (segment, name, sec_flags s).
Definition section_count_of (e : MachEndian) (is_64 : bool) (command : string) : result ReadError Z :=
  endian_u32 e command (if is_64 then 64 else 48).
(** The sections of a segment: all are portable, and [d] tells whether one is DWARF. *)
Definition sections_ok (e : MachEndian) (is_64 : bool) (command : string) (d : bool) : Prop :=
  exists sections, (n ← section_count_of e is_64 command; mapM (section_at e is_64 command) (seqZ 0 n)) = Ok sections
    /\ Forall (fun s => macho_section_is_portable s.1.1 s.1.2 s.2 = true) sections
    /\ d = existsb (fun s => macho_section_is_dwarf s.1.1 s.1.2 s.2) sections.
Lemma macho_section_step_Ok bytes command e (is_64 : bool) k r d d' i :
  macho_section_step bytes command e is_64 (if is_64 then 72 else 56) (if is_64 then 80 else 68) k r d i = Ok d' ->
  exists s, section_at e is_64 command i = Ok s
    /\ macho_section_is_portable s.1.1 s.1.2 s.2 = true /\ d' = macho_section_is_dwarf s.1.1 s.1.2 s.2 || d.
Proof.
  unfold macho_section_step.
  intros (? & Hk & (? & Ha & (? & Hb & (section & Hs & (nf & Hnf & E)%bind_Ok)%bind_Ok)%bind_Ok)%bind_Ok)%bind_Ok.
  apply bind_Ok in E as (name & Hn & (sf & Hsf & (segment & Hsg & (s & Hms & (u & Hp & E)%bind_Ok)%bind_Ok)%bind_Ok)%bind_Ok).
  apply bind_Ok in E as (? & _ & (? & _ & [= <-])%bind_Ok).
  exists (segment, name, sec_flags s). unfold section_at. cbv zeta.
  apply cmul_Ok in Hk as ->. apply cadd_Ok in Ha as ->. apply cadd_Ok in Hb as ->.
  rewrite Hs. cbn [mbind result_bind]. rewrite Hnf. cbn [mbind result_bind]. rewrite Hn. cbn [mbind result_bind].
  rewrite Hsf. cbn [mbind result_bind]. rewrite Hsg. cbn [mbind result_bind]. rewrite Hms. cbn [mbind result_bind].
  inv_read. cbn [fst snd]. by destruct (macho_section_is_dwarf segment name _).
Qed.
Lemma macho_sections_Ok bytes command e (is_64 : bool) k r l d d' :
  try_fold (macho_section_step bytes command e is_64 (if is_64 then 72 else 56) (if is_64 then 80 else 68) k r) d l = Ok d' ->
  exists sections, mapM (section_at e is_64 command) l = Ok sections
    /\ Forall (fun s => macho_section_is_portable s.1.1 s.1.2 s.2 = true) sections
    /\ d' = existsb (fun s => macho_section_is_dwarf s.1.1 s.1.2 s.2) sections || d.
Proof.
  revert d. induction l as [|i l IH]; intros d; cbn [try_fold mapM]; [intros [= <-]; by exists []|].
  intros (d1 & (s & Hs & Hp & ->)%macho_section_step_Ok & (ss & Hss & Hf & ->)%IH)%bind_Ok.
  exists (s :: ss). rewrite Hs. cbn [mbind result_bind]. rewrite Hss. split; [done|]. split; [by constructor|]. cbn.
  rewrite orb_assoc. f_equal. apply orb_comm.
Qed.
Lemma validate_macho_segment_Ok bytes command e is_64 k n d :
  validate_macho_segment bytes command e is_64 k = Ok (n, d) -> sections_ok e is_64 command d.
Proof.
  unfold validate_macho_segment. intros ([[[[b z] fo] fs] ns] & Hf & E)%bind_Ok.
  apply bind_Ok in E as (count & Hc & (? & _ & (? & _ & (? & _ & (? & _ & E)%bind_Ok)%bind_Ok)%bind_Ok)%bind_Ok).
  apply bind_Ok in E as (? & _ & (? & _ & (r & _ & (d' & Hd & [= <- <-])%bind_Ok)%bind_Ok)%bind_Ok).
  assert (b = (if is_64 then 72 else 56) /\ z = (if is_64 then 80 else 68) /\ section_count_of e is_64 command = Ok ns)
    as (-> & -> & Hn).
  { unfold section_count_of. destruct is_64; inv_result; simplify_eq; done. }
  apply to_usize_Ok in Hc as ->. apply macho_sections_Ok in Hd as (ss & Hm & Hp & ->).
  exists ss. rewrite Hn. cbn. split; [done|]. split; [done|]. by rewrite orb_false_r.
Qed.
Lemma sections_ok_unique e is_64 command d d' : sections_ok e is_64 command d -> sections_ok e is_64 command d' -> d = d'.
Proof. intros (s1 & E1 & _ & ->) (s2 & E2 & _ & ->). congruence. Qed.

(** The symbol table a command announces. *)
Definition symtab_of (e : MachEndian) (command : string) (t : MachSymtab) : Prop :=
  endian_u32 e command 8 = Ok (ms_symoff t) /\ endian_u32 e command 12 = Ok (ms_nsyms t).
(** What the load commands read so far say, when [m] is the state of the loop. *)
Record commands_read (bytes : string) (e : MachEndian) (is_64 : bool) (start : Z) (cmds : list (Z * string)) (m : MachState)
    : Prop := {
  cr_layout : layout (command_at bytes e) start cmds (mo_offset m);
  cr_sections : forall c, c ∈ cmds -> is_segment c.1 = true -> exists d, sections_ok e is_64 c.2 d;
  cr_dwarf : mo_dwarf m = true <-> exists c, c ∈ cmds /\ is_segment c.1 = true /\ sections_ok e is_64 c.2 true;
  cr_symtab : forall t, mo_symtab m = Some t -> exists c, c ∈ cmds /\ c.1 = LC_SYMTAB /\ symtab_of e c.2 t;
}.
(** One command, whatever it is. *)
Lemma macho_command_Ok bytes command e is_64 k cmd m m' :
  macho_command bytes command e is_64 k cmd m = Ok m' ->
  mo_offset m' = mo_offset m
  /\ (exists d, (is_segment cmd = true -> sections_ok e is_64 command d) /\ (is_segment cmd = false -> d = false)
                /\ mo_dwarf m' = d || mo_dwarf m)
  /\ (mo_symtab m' = mo_symtab m \/ cmd = LC_SYMTAB /\ exists t, mo_symtab m' = Some t /\ symtab_of e command t).
Proof.
  unfold macho_command, is_segment. destruct ((cmd =? LC_SEGMENT) || (cmd =? LC_SEGMENT_64)) eqn:Es.
  - intros (w & Hw & ([n d] & Hv & (? & _ & [= <-])%bind_Ok)%bind_Ok)%bind_Ok. split; [done|]. split; [|by left].
    exists d. split; [|split; [done|by destruct d]]. intros _.
    assert (w = is_64) as ->; [|by eapply validate_macho_segment_Ok].
    unfold macho_segment_width in Hw. inv_read.
    destruct is_64, (cmd =? LC_SEGMENT), (cmd =? LC_SEGMENT_64); cbn in Hw; congruence.
  - destruct (Z.eqb_spec cmd LC_SYMTAB) as [->|_].
    { intros (? & _ & (? & _ & (o & Ho & (n & Hn & (? & _ & (? & _ & [= <-])%bind_Ok)%bind_Ok)%bind_Ok)%bind_Ok)%bind_Ok)%bind_Ok.
      split; [done|]. split; [by exists false|]. right. split; [done|]. eexists. split; [done|]. done. }
    assert (forall u : result ReadError unit, (u;; Ok m) = Ok m' -> m' = m) as Hsame.
    { intros u (? & _ & [= <-])%bind_Ok. done. }
    intros E. assert (m' = m \/ mo_offset m' = mo_offset m /\ mo_dwarf m' = mo_dwarf m /\ mo_symtab m' = mo_symtab m) as Hm.
    { repeat case_match; try discriminate E; try (left; eapply Hsame; exact E); [right|left].
      - apply bind_Ok in E as (? & _ & (? & _ & (? & _ & [= <-])%bind_Ok)%bind_Ok). done.
      - apply bind_Ok in E as (? & _ & (? & _ & [= <-])%bind_Ok). done. }
    destruct Hm as [->|(-> & -> & ->)]; (split; [done|]; split; [by exists false|by left]).
Qed.
Lemma commands_read_step bytes e is_64 k start cmds m m' i :
  commands_read bytes e is_64 start cmds m -> macho_command_step bytes e is_64 k m i = Ok m' ->
  exists c, commands_read bytes e is_64 start (cmds ++ [c]) m'.
Proof.
  intros [Hl Hs Hd Ht] (cmd & Hc & (? & Hz & (size & Hsz & (? & _ & (end_ & He & E)%bind_Ok)%bind_Ok)%bind_Ok)%bind_Ok)%bind_Ok.
  apply bind_Ok in E as (? & _ & (command & Hcm & (m1 & Hm & [= <-])%bind_Ok)%bind_Ok).
  exists (cmd, command). destruct (macho_command_Ok _ _ _ _ _ _ _ _ Hm) as (Ho & (d & Hd1 & Hd2 & Hd3) & Hsy).
  inv_read. apply checked_add_Some in He as [-> _]. apply checked_add_Some in Hz as [-> _].
  split; cbn [at_offset mo_offset mo_dwarf mo_symtab].
  - eapply layout_snoc; [done|]. split; [done|]. split; [done|]. rewrite Hsz. f_equal. cbn. lia.
  - intros c [Hin|[->|[]%elem_of_nil]%elem_of_cons]%elem_of_app; [by apply Hs|]. eauto.
  - rewrite Hd3. split.
    + destruct d; cbn; [|intros (c & Hin & Hc1)%Hd; exists c; split; [set_solver|done]]. intros _.
      exists (cmd, command). split; [set_solver|]. destruct (is_segment cmd) eqn:E; [|by specialize (Hd2 eq_refl)]. auto.
    + intros (c & [Hin|[->|[]%elem_of_nil]%elem_of_cons]%elem_of_app & Hsg & Hok).
      * rewrite (proj2 Hd) by eauto. apply orb_true_r.
      * by rewrite <- (sections_ok_unique _ _ _ _ _ Hok (Hd1 Hsg)).
  - intros t Et. destruct Hsy as [Eq|(-> & t' & Eq & Hst)]; rewrite Eq in Et.
    + destruct (Ht t Et) as (c & Hin & Hc1). exists c. split; [set_solver|done].
    + simplify_eq. eexists. split; [apply elem_of_app; right; apply list_elem_of_here|]. done.
Qed.
Lemma commands_read_loop bytes e is_64 k start l m cmds m' :
  commands_read bytes e is_64 start cmds m -> try_fold (macho_command_step bytes e is_64 k) m l = Ok m' ->
  exists cmds', commands_read bytes e is_64 start cmds' m' /\ length cmds' = (length cmds + length l)%nat.
Proof.
  revert m cmds. induction l as [|i l IH]; intros m cmds Hr; cbn [try_fold]; [intros [= <-]; exists cmds; split; [done|cbn; lia]|].
  intros (m1 & Hm & Hl)%bind_Ok. destruct (commands_read_step _ _ _ _ _ _ _ _ _ Hr Hm) as (c & Hr').
  destruct (IH _ _ Hr' Hl) as (cmds' & Hc & Hn). exists cmds'. split; [done|].
  rewrite Hn, length_app. cbn. lia.
Qed.

(** The type byte of a symbol. *)
Definition symbol_type (bytes : string) (is_64 : bool) (t : MachSymtab) (i : Z) : result ReadError Z :=
  let size := if is_64 then 16 else 12 in
  symbol ← get_range bytes (ms_symoff t + i * size) (ms_symoff t + i * size + size);
  byte_value symbol 4.
Lemma region_start len o size least a b : checked_file_region len o size least = Some (a, b) -> a = o.
Proof.
  unfold checked_file_region, usize_try_from. destruct (o <=? usize_max); cbn; [|done].
  destruct (size <=? usize_max); cbn; [|done]. destruct (_ && _); [done|].
  intros (x & _ & E)%bind_Some. destruct (len <? x); [done|]. by injection E.
Qed.
Lemma validate_macho_symtab_Ok bytes e is_64 k n t i :
  validate_macho_symtab bytes e is_64 k n t = Ok tt -> 0 <= i < ms_nsyms t ->
  exists type, symbol_type bytes is_64 t i = Ok type /\ Z.land type N_STAB = 0.
Proof.
  intros (? & _ & ([a b] & Hr & ([? ?] & _ & (strings & _ & (? & _ & (count & Hc & E)%bind_Ok)%bind_Ok)%bind_Ok)%bind_Ok)%bind_Ok)%bind_Ok Hi.
  apply to_usize_Ok in Hc as ->. eapply (try_fold_unit _ _ _ i) in E; [|apply elem_of_seqZ; lia].
  apply bind_Ok in E as (? & Hk%cmul_Ok & (? & Ha%cadd_Ok & (? & Hb%cadd_Ok & (symbol & Hs & E)%bind_Ok)%bind_Ok)%bind_Ok).
  apply bind_Ok in E as (? & _ & (type & Ht & (? & Hst & _)%bind_Ok)%bind_Ok). subst.
  unfold symbol_type. inv_read. apply region_start in Hr as ->. exists type. rewrite Hs. cbn. by apply Z.eqb_eq in Hst.
Qed.

(** A Mach-O member that is accepted is tiled by its load commands, every section of
    its segments is portable (no bitcode, LTO or misplaced debug section), no symbol is
    a STABS entry, and it is reported as carrying DWARF exactly when one of its sections is
    DWARF. *)
Theorem macho_gate_sound bytes dwarf :
  parse_known_no_debug_macho_object bytes = Ok dwarf ->
  exists e (is_64 : bool) cmds end_ t,
    (magic ← slice bytes 0 4; macho_shape magic) = Some (e, is_64)
    /\ usize_u32 e bytes 16 = Ok (Z.of_nat (length cmds))
    /\ usize_u32 e bytes 20 = Ok (end_ - (if is_64 then 32 else 28))
    /\ layout (command_at bytes e) (if is_64 then 32 else 28) cmds end_
    /\ (forall c, c ∈ cmds -> is_segment c.1 = true -> exists d, sections_ok e is_64 c.2 d)
    /\ (dwarf = true <-> exists c, c ∈ cmds /\ is_segment c.1 = true /\ sections_ok e is_64 c.2 true)
    /\ (exists c, c ∈ cmds /\ c.1 = LC_SYMTAB /\ symtab_of e c.2 t)
    /\ forall i, 0 <= i < ms_nsyms t -> exists type, symbol_type bytes is_64 t i = Ok type /\ Z.land type N_STAB = 0.
Proof.
  intros (magic & Hg & ([e is_64] & Hsh & (? & _ & (? & _ & (? & _ & E)%bind_Ok)%bind_Ok)%bind_Ok)%bind_Ok)%bind_Ok.
  apply bind_Ok in E as (ncmds & Hn & (sizeofcmds & Hz & (end_ & He%cadd_Ok & (? & _ & (? & Hpl & E)%bind_Ok)%bind_Ok)%bind_Ok)%bind_Ok).
  apply bind_Ok in E as (m & Hm & (? & Hcp & (t & Ht & (? & Hst & (? & _ & [= <-])%bind_Ok)%bind_Ok)%bind_Ok)%bind_Ok).
  assert (0 <= ncmds) as Hn0.
  { eapply (safe_Ok _ (fun v => 0 <= v)) in Hn; [done|]. gate_steps; lia. }
  eapply (commands_read_loop _ _ _ _ (if is_64 then 32 else 28) _ _ []) in Hm as (cmds & [Hl Hs Hd Hy] & Hlen).
  2: { split; cbn; [constructor|by intros c ?%elem_of_nil| |done]. split; [done|by intros (c & ?%elem_of_nil & _)]. }
  inv_read. apply andb_prop in Hcp as [Heq _]. bool_to_prop. rewrite length_seqZ in Hlen. cbn in Hlen.
  exists e, is_64, cmds, end_, t. rewrite Hg. cbn [mbind option_bind].
  split; [done|]. split; [rewrite Hn; f_equal; lia|]. split; [rewrite Hz; f_equal; lia|].
  split; [by rewrite <- Heq|]. split; [done|]. split; [done|]. split; [by apply Hy|].
  intros i Hi. by eapply validate_macho_symtab_Ok.
Qed.
End Macho.
