(* ===== verification/Archive.v ===== *)
(** * Native archives

    [src/native_archive.rs]: the structural identity of GNU and BSD [ar] archives, the
    closed check of Windows runtime archives, and the member listing.  An archive is
    its bytes.  The digest of an identity is [blake3] of the bytes the source feeds
    its hasher, in order.  Counters of members are bounded by the number of bytes and
    kept unbounded; offsets are checked at the width of [usize]. *)

From S2P Require Import Prelude Strings Codec Bytes Regions ObjectGates.
#[local] Open Scope string_scope.
#[local] Open Scope Z_scope.

Definition AR_MAGIC : string := "!<arch>" ++ String newline "".
Definition THIN_MAGIC : string := "!<thin>" ++ String newline "".
Definition AR_HEADER_LEN : Z := 60.
(** A tag with its terminating NUL. *)
Definition tag (s : string) : string := s ++ String "000" "".
Definition GNU_DOMAIN : string := tag "kache.native-ar.gnu.member-identity.v2".
Definition BSD_DOMAIN : string := tag "kache.native-ar.bsd.member-identity.v2".
Definition HEADER_END : string := "`" ++ String newline "".

Record ArchiveIdentity := { digest : string; macho_dwarf_members : bool }.
Record ArchiveMember := { am_name : string; am_short_import : bool }.
Inductive Member := SymbolTable | LongNameTable | Object.
#[global] Instance Member_eq_dec : EqDecision Member.
Proof. solve_decision. Defined.
Inductive ArTimestamp := Decimal (t : Z) | Blank.
Inductive RuntimeArchiveIndex := Gnu32 | CoffSecond.

(** [str::trim_end] *)
Definition trim_end (s : string) : string := unchars (rev (drop_while char_ws (rev (chars s)))).
(** [u64::to_le_bytes] of a length or number *)
Definition le64 (v : Z) : string := to_le_bytes 8 v.

Section Archive.
Context `{Usize}.
Variable blake3_hex : string -> string.

(** ** Header fields *)

(** [ar_name] *)
Definition ar_name (field : string) : result ReadError string :=
  let end_ := match rposition (fun c => negb (is_byte 32 c)) field with Some i => i + 1 | None => 0 end in
  name ← or_panic (slice field 0 end_);
  accept (valid_utf8 name);;
  Ok name.
(** [parse_ar_decimal] *)
Definition parse_ar_decimal (field : string) : result ReadError Z :=
  accept (valid_utf8 field);;
  let s := trim_end field in
  accept (negb (String.eqb s "") && all_bytes is_ascii_digit s);;
  or_none (parse_unsigned usize_max s).
(** [parse_ar_timestamp] *)
Definition parse_ar_timestamp (field : string) : result ReadError ArTimestamp :=
  if all_bytes (is_byte 32) field then Ok Blank else Decimal <$> parse_ar_decimal field.
(** [classify] *)
Definition classify (name : string) : Member :=
  if String.eqb name "/" || String.eqb name "/SYM64/" then SymbolTable
  else if String.eqb name "//" then LongNameTable else Object.
(** [is_bsd_symdef] *)
Definition is_bsd_symdef (name : string) : bool :=
  String.eqb name "__.SYMDEF" || String.eqb name "__.SYMDEF SORTED"
  || String.eqb name "__.SYMDEF_64" || String.eqb name "__.SYMDEF_64 SORTED".

(** The header at [pos], once its terminator is checked, and the data it announces. *)
Definition read_header (bytes : string) (pos : Z) : result ReadError string :=
  end_ ← cadd pos AR_HEADER_LEN;
  header ← get_range bytes pos end_;
  terminator ← or_panic (slice header 58 60);
  accept (String.eqb terminator HEADER_END);;
  Ok header.
Definition read_data (bytes : string) (pos size : Z) : result ReadError (string * Z) :=
  data_start ← uadd pos AR_HEADER_LEN;
  data_end ← cadd data_start size;
  data ← get_range bytes data_start data_end;
  Ok (data, data_end).
(** The object gate both arms apply to a member: whether it carries DWARF. *)
Definition object_gate (data : string) : result ReadError bool :=
  if has_macho_magic data then parse_known_no_debug_macho_object data
  else elf ← is_known_elf_relocatable_object data; if elf : bool then Ok false else reject.

(** ** GNU archives *)

(** The variables of the loop; [g_hashed] is what was fed to the hasher. *)
Record GnuState := { g_pos : Z; g_index : Z; g_symtab : bool; g_longnames : option string; g_objects : Z;
  g_dwarf : bool; g_hashed : string }.
(** The kind of a member, fed to the hasher with its date. *)
Definition hash_mtime (mtime : ArTimestamp) (kind : Member) : result ReadError string :=
  match mtime with
  | Decimal t => Ok (tag "mtime" ++ le64 t)
  | Blank => if bool_decide (kind = LongNameTable) then Ok (tag "mtime-blank") else reject
  end.

(** [entry.windows(2).position(|bytes| bytes == b"/\n")] *)
Fixpoint find_terminator (s : string) : option Z :=
  match s with
  | String a (String b _ as s) =>
      if Ascii.eqb a "/" && Ascii.eqb b newline then Some 0 else i ← find_terminator s; Some (i + 1)
  | _ => None
  end.
(** The check of an object's name field. *)
Definition gnu_name_ok (name : string) (longnames : option string) : result ReadError unit :=
  match strip_prefix "/" name with
  | Some offset =>
      table ← or_none longnames;
      offset ← parse_ar_decimal offset;
      accept ((offset =? 0) || bool_decide (byte_at table (offset - 1) = Some newline));;
      entry ← get_from table offset;
      terminator ← or_none (find_terminator entry);
      accept (negb (terminator =? 0))
  | None => accept (ends_with "/" name)
  end.
(** The [match kind] of the loop. *)
Definition gnu_member (name data stamp : string) (s : GnuState) : result ReadError GnuState :=
  match classify name with
  | SymbolTable =>
      accept (negb (g_symtab s || negb (g_index s =? 0)));;
      let t := if String.eqb name "/SYM64/" then tag "symtab64" else tag "symtab32" in
      Ok {| g_pos := g_pos s; g_index := g_index s; g_symtab := true; g_longnames := g_longnames s;
            g_objects := g_objects s; g_dwarf := g_dwarf s; g_hashed := g_hashed s ++ stamp ++ t ++ len_prefix data |}
  | LongNameTable =>
      let allowed := if g_symtab s then 1 else 0 in
      accept (g_index s =? allowed);;
      Ok {| g_pos := g_pos s; g_index := g_index s; g_symtab := g_symtab s; g_longnames := Some data;
            g_objects := g_objects s; g_dwarf := g_dwarf s;
            g_hashed := g_hashed s ++ stamp ++ tag "longnames" ++ len_prefix data |}
  | Object =>
      gnu_name_ok name (g_longnames s);;
      dwarf ← object_gate data;
      Ok {| g_pos := g_pos s; g_index := g_index s; g_symtab := g_symtab s; g_longnames := g_longnames s;
            g_objects := g_objects s + 1; g_dwarf := if dwarf : bool then true else g_dwarf s;
            g_hashed := g_hashed s ++ stamp ++ tag "member" ++ len_prefix name ++ len_prefix data |}
  end.
Definition gnu_advance (pos : Z) (s : GnuState) : GnuState :=
  {| g_pos := pos; g_index := g_index s + 1; g_symtab := g_symtab s; g_longnames := g_longnames s;
     g_objects := g_objects s; g_dwarf := g_dwarf s; g_hashed := g_hashed s |}.
(** One round of the loop. *)
Definition gnu_step (bytes : string) (s : GnuState) : result ReadError GnuState :=
  header ← read_header bytes (g_pos s);
  name_field ← or_panic (slice header 0 16);
  name ← ar_name name_field;
  mtime_field ← or_panic (slice header 16 28);
  mtime ← parse_ar_timestamp mtime_field;
  size_field ← or_panic (slice header 48 58);
  size ← parse_ar_decimal size_field;
  '(data, data_end) ← read_data bytes (g_pos s) size;
  accept (negb (starts_with "#1/" name || String.eqb name "__.SYMDEF" || String.eqb name "__.SYMDEF SORTED"
                || String.eqb name "__.SYMDEF_64"));;
  stamp ← hash_mtime mtime (classify name);
  s ← gnu_member name data stamp s;
  next ← cadd data_end (Z.land size 1);
  Ok (gnu_advance next s).
Definition gnu_start : GnuState :=
  {| g_pos := slen AR_MAGIC; g_index := 0; g_symtab := false; g_longnames := None; g_objects := 0;
     g_dwarf := false; g_hashed := GNU_DOMAIN |}.
(** The loop of [gnu_archive_identity] with the checks around it; every round advances. *)
Definition gnu_scan (bytes : string) : result ReadError GnuState :=
  accept (starts_with AR_MAGIC bytes);;
  s ← while_loop (S (String.length bytes)) (fun s => g_pos s <? slen bytes) (gnu_step bytes) gnu_start;
  accept (g_pos s =? slen bytes);;
  accept (negb (g_objects s =? 0));;
  Ok s.
(** [gnu_archive_identity] *)
Definition gnu_archive_identity (bytes : string) : result ReadError ArchiveIdentity :=
  s ← gnu_scan bytes;
  Ok {| digest := "gnu-ar-v2:" ++ blake3_hex (g_hashed s); macho_dwarf_members := g_dwarf s |}.

(** ** BSD archives *)

Record BsdState := { b_pos : Z; b_index : Z; b_symdef : bool; b_objects : Z; b_dwarf : bool; b_hashed : string }.
(** The name of a member, its stored bytes, how many of them precede the content,
    and the encoding. *)
Definition bsd_name (field header data : string) : result ReadError (string * string * Z * string) :=
  match strip_prefix "#1/" field with
  | Some digits =>
      n ← parse_ar_decimal digits;
      raw ← get_range data 0 n;
      let end_ := match rposition (fun c => negb (is_byte 0 c)) raw with Some i => i + 1 | None => 0 end in
      name ← or_panic (slice raw 0 end_);
      accept (valid_utf8 name);;
      Ok (name, raw, n, tag "inline")
  | None =>
      stored ← or_panic (slice header 0 16);
      Ok (field, stored, 0, tag "short")
  end.
Definition bsd_member (name content stamp : string) (inline_len : Z) (s : BsdState)
    : result ReadError BsdState :=
  if is_bsd_symdef name then
    accept (negb (b_symdef s || negb (b_index s =? 0)));;
    Ok {| b_pos := b_pos s; b_index := b_index s; b_symdef := true; b_objects := b_objects s; b_dwarf := b_dwarf s;
          b_hashed := b_hashed s ++ stamp ++ tag "symdef" ++ len_prefix name ++ le64 inline_len ++ len_prefix content |}
  else
    dwarf ← object_gate content;
    Ok {| b_pos := b_pos s; b_index := b_index s; b_symdef := b_symdef s; b_objects := b_objects s + 1;
          b_dwarf := if dwarf : bool then true else b_dwarf s;
          b_hashed := b_hashed s ++ stamp ++ tag "member" ++ le64 inline_len ++ len_prefix content |}.
Definition bsd_advance (pos : Z) (s : BsdState) : BsdState :=
  {| b_pos := pos; b_index := b_index s + 1; b_symdef := b_symdef s; b_objects := b_objects s;
     b_dwarf := b_dwarf s; b_hashed := b_hashed s |}.
Definition bsd_step (bytes : string) (s : BsdState) : result ReadError BsdState :=
  header ← read_header bytes (b_pos s);
  name_field ← or_panic (slice header 0 16);
  field ← ar_name name_field;
  mtime_field ← or_panic (slice header 16 28);
  mtime ← parse_ar_decimal mtime_field;
  size_field ← or_panic (slice header 48 58);
  size ← parse_ar_decimal size_field;
  '(data, data_end) ← read_data bytes (b_pos s) size;
  accept (negb (starts_with "/" field || ends_with "/" field));;
  '(name, stored_name, inline_len, name_encoding) ← bsd_name field header data;
  content ← or_panic (slice data inline_len (slen data));
  let stamp := tag "name" ++ name_encoding ++ len_prefix stored_name ++ le64 mtime in
  s ← bsd_member name content stamp inline_len s;
  next ← cadd data_end (Z.land size 1);
  Ok (bsd_advance next s).
Definition bsd_start : BsdState :=
  {| b_pos := slen AR_MAGIC; b_index := 0; b_symdef := false; b_objects := 0; b_dwarf := false;
     b_hashed := BSD_DOMAIN |}.
Definition bsd_scan (bytes : string) : result ReadError BsdState :=
  accept (starts_with AR_MAGIC bytes);;
  s ← while_loop (S (String.length bytes)) (fun s => b_pos s <? slen bytes) (bsd_step bytes) bsd_start;
  accept (b_pos s =? slen bytes);;
  accept (negb (b_objects s =? 0));;
  Ok s.
(** [bsd_archive_identity] *)
Definition bsd_archive_identity (bytes : string) : result ReadError ArchiveIdentity :=
  s ← bsd_scan bytes;
  Ok {| digest := "bsd-ar-v2:" ++ blake3_hex (b_hashed s); macho_dwarf_members := b_dwarf s |}.
(** [portable_static_archive_identity]: the BSD arm is tried when the GNU arm falls back. *)
Definition portable_static_archive_identity (bytes : string) : result ReadError ArchiveIdentity :=
  match gnu_archive_identity bytes with
  | Err (Refused _) => bsd_archive_identity bytes
  | r => r
  end.

(** ** Windows runtime archives *)

(** [runtime_archive_name] *)
Definition name_end (c : ascii) : bool := is_byte 0 c || is_byte 10 c.
Definition utf8 (s : string) : result ReadError string := accept (valid_utf8 s);; Ok s.
Definition runtime_archive_name (bytes : string) : result ReadError string :=
  let limit := MAX_RUNTIME_NAME_BYTES in
  match position name_end (stake (Z.to_nat (limit + 1)) bytes) with
  | None =>
      if bool_decide (slice bytes limit (limit + 2) = Some ("/" ++ String newline ""))
      then name ← get_range bytes 0 limit; utf8 name
      else reject
  | Some end_ =>
      last ← or_panic (byte_at bytes end_);
      prefix ← get_range bytes 0 end_;
      name ← (if is_byte 10 last then or_none (strip_suffix "/" prefix) else Ok prefix);
      accept (negb (String.eqb name ""));;
      utf8 name
  end.
(** [split_inclusive] at a predicate: every piece keeps its separator. *)
Fixpoint split_inclusive (p : ascii -> bool) (s : string) : list string :=
  match s with
  | "" => []
  | String c s =>
      if p c then String c "" :: split_inclusive p s
      else match split_inclusive p s with
           | [] => [String c ""]
           | t :: l => String c t :: l
           end
  end.
(** [validate_runtime_longnames] *)
Fixpoint check_longnames (entries : list string) : result ReadError unit :=
  match entries with
  | [] => Ok tt
  | entry :: entries =>
      if String.eqb entry (String "000" "") then accept (forallb (String.eqb (String "000" "")) entries)
      else runtime_archive_name entry;; check_longnames entries
  end.
Definition validate_runtime_longnames (bytes : string) : result ReadError unit :=
  check_longnames (split_inclusive name_end bytes).
(** [runtime_longname] *)
Definition runtime_longname (table offset : string) : result ReadError string :=
  offset ← parse_ar_decimal offset;
  accept ((offset =? 0) || match byte_at table (offset - 1) with Some c => name_end c | None => false end);;
  rest ← get_from table offset;
  runtime_archive_name rest.

(** [runtime_index_names] *)
Definition index_name_step (bytes : string) (_ : Z) : result ReadError string :=
  end_ ← or_none (position (is_byte 0) bytes);
  accept (negb (end_ =? 0));;
  next ← cadd end_ 1;
  get_from bytes next.
Definition runtime_index_names (bytes : string) (count : Z) : result ReadError unit :=
  rest ← try_fold index_name_step bytes (seqZ 0 count);
  accept (all_bytes (is_byte 0) rest).
(** [validate_runtime_archive_index]; [objects] is ascending, so that the binary search
    of the source is membership. *)
Definition symbol_index_step (bytes : string) (e : MachEndian) (objects : list Z) (_ : unit) (index : Z)
    : result ReadError unit :=
  k ← or_panic (checked_mul usize_max index 4);
  at_ ← uadd 4 k;
  offset ← usize_u32 e bytes at_;
  accept (bool_decide (offset ∈ objects)).
Definition member_step (bytes : string) (indices count : Z) (_ : unit) (index : Z) : result ReadError unit :=
  k ← or_panic (checked_mul usize_max index 2);
  at_ ← uadd indices k;
  member ← endian_u16 Little bytes at_;
  accept (negb ((member =? 0) || (count <? member))).
Definition validate_runtime_archive_index (kind : RuntimeArchiveIndex) (bytes : string) (objects : list Z)
    : result ReadError unit :=
  match kind with
  | Gnu32 =>
      count ← usize_u32 Big bytes 0;
      k ← cmul count 4;
      names ← cadd 4 k;
      get_range bytes 0 names;;
      try_fold (symbol_index_step bytes Big objects) tt (seqZ 0 count);;
      rest ← get_from bytes names;
      runtime_index_names rest count
  | CoffSecond =>
      count ← usize_u32 Little bytes 0;
      k ← cmul count 4;
      symbols ← cadd 4 k;
      symbol_count ← usize_u32 Little bytes symbols;
      indices ← cadd symbols 4;
      k ← cmul symbol_count 2;
      names ← cadd indices k;
      get_range bytes 0 names;;
      try_fold (symbol_index_step bytes Little objects) tt (seqZ 0 count);;
      try_fold (member_step bytes indices count) tt (seqZ 0 symbol_count);;
      rest ← get_from bytes names;
      runtime_index_names rest symbol_count
  end.

(** [supported_runtime_coff_machine] *)
Definition supported_runtime_coff_machine (machine : Z) : bool :=
  (machine =? 0x014c) || (machine =? 0x8664) || (machine =? 0x01c4) || (machine =? 0xaa64).
(** A COFF short import object. *)
Definition validate_short_import (bytes header : string) : result ReadError unit :=
  version ← endian_u16 Little header 4;
  (if negb (version =? 0) then reject
   else machine ← endian_u16 Little header 6; accept (supported_runtime_coff_machine machine));;
  flags ← endian_u16 Little header 18;
  accept ((Z.land flags (Z.lnot 0x1f) =? 0) && (Z.land flags 3 <=? 2) && (Z.land (Z.shiftr flags 2) 7 <=? 3));;
  size ← usize_u32 Little header 12;
  end_ ← cadd 20 size;
  accept (end_ =? slen bytes);;
  strings ← get_range bytes 20 end_;
  strings ← try_fold index_name_step strings [0; 1];
  accept (String.eqb strings "").
(** The string table of a COFF object. *)
Definition coff_strings (bytes : string) (sections_end symbols symbol_count : Z) : result ReadError (option string) :=
  if symbols =? 0 then accept (symbol_count =? 0);; Ok None
  else
    accept (sections_end <=? symbols);;
    k ← cmul symbol_count 18;
    start ← cadd symbols k;
    size ← usize_u32 Little bytes start;
    accept (4 <=? size);;
    end_ ← cadd start size;
    Some <$> get_range bytes start end_.
(** The name of a section, through the string table for [/N]. *)
Definition coff_section_name (section : string) (strings : option string) : result ReadError string :=
  raw_name ← or_panic (slice section 0 8);
  let end_ := default 8 (position (is_byte 0) raw_name) in
  padding ← or_panic (slice raw_name end_ (slen raw_name));
  accept (all_bytes (is_byte 0) padding);;
  name ← or_panic (slice raw_name 0 end_);
  match strip_prefix "/" name with
  | Some offset =>
      offset ← parse_ar_decimal offset;
      accept (4 <=? offset);;
      table ← or_none strings;
      name ← get_from table offset;
      end_ ← or_none (position (is_byte 0) (stake (Z.to_nat (MAX_RUNTIME_NAME_BYTES + 1)) name));
      get_range name 0 end_
  | None => Ok name
  end.
(** The section names the closed subset leaves out. *)
Definition unsupported_coff_name (name : string) : bool :=
  same_ignoring_case name ".drectve" || same_ignoring_case name ".debug$T"
  || same_ignoring_case name ".debug$P".
Definition coff_section_step (bytes : string) (strings : option string) (sections_end : Z) (_ : unit) (section : string)
    : result ReadError unit :=
  name ← coff_section_name section strings;
  accept (negb (String.eqb name "" || unsupported_coff_name name));;
  flags ← endian_u32 Little section 36;
  accept (Z.land flags 0x01000000 =? 0);;
  size ← endian_u32 Little section 16;
  offset ← endian_u32 Little section 20;
  (if negb (size =? 0) && negb ((offset =? 0) && negb (Z.land flags 0x80 =? 0))
   then or_none (checked_file_region (slen bytes) offset size sections_end);; Ok tt
   else Ok tt);;
  relocations ← endian_u32 Little section 24;
  relocation_count ← endian_u16 Little section 32;
  validate_counted_region bytes relocations relocation_count 10 sections_end;;
  lines ← endian_u32 Little section 28;
  line_count ← endian_u16 Little section 34;
  validate_counted_region bytes lines line_count 6 sections_end.
(** [validate_closed_coff_member] *)
Definition validate_closed_coff_member (bytes : string) : result ReadError unit :=
  header ← get_range bytes 0 20;
  if starts_with SHORT_IMPORT_SIGNATURE header then validate_short_import bytes header else
  machine ← endian_u16 Little header 0;
  (if negb (supported_runtime_coff_machine machine) then reject
   else optional ← endian_u16 Little header 16;
        if negb (optional =? 0) then reject
        else flags ← endian_u16 Little header 18; accept (Z.land flags (Z.lnot 0x030c) =? 0));;
  section_count ← endian_u16 Little header 2;
  k ← cmul section_count 40;
  sections_end ← cadd 20 k;
  get_range bytes 0 sections_end;;
  accept (negb (section_count =? 0));;
  symbols ← usize_u32 Little header 8;
  symbol_count ← usize_u32 Little header 12;
  strings ← coff_strings bytes sections_end symbols symbol_count;
  table ← get_range bytes 20 sections_end;
  try_fold (coff_section_step bytes strings sections_end) tt (chunks 40 table).

(** The variables of the loop of [validate_closed_windows_runtime_archive]. *)
Record RuntimeState := { r_pos : Z; r_objects : list Z; r_indexes : list (RuntimeArchiveIndex * string);
  r_longnames : option string }.
(** The branches on the name field. *)
Definition runtime_member (field data : string) (s : RuntimeState) : result ReadError RuntimeState :=
  if String.eqb field "//" then
    accept (negb (bool_decide (is_Some (r_longnames s)) || negb (bool_decide (r_objects s = []))));;
    validate_runtime_longnames data;;
    Ok {| r_pos := r_pos s; r_objects := r_objects s; r_indexes := r_indexes s; r_longnames := Some data |}
  else if String.eqb field "/" then
    accept (negb (negb (bool_decide (r_objects s = [])) || bool_decide (is_Some (r_longnames s))));;
    kind ← (match r_indexes s with [] => Ok Gnu32 | [_] => Ok CoffSecond | _ => reject end);
    Ok {| r_pos := r_pos s; r_objects := r_objects s; r_indexes := r_indexes s ++ [(kind, data)];
          r_longnames := r_longnames s |}
  else
    accept (negb (starts_with "#1/" field));;
    name ← (match strip_prefix "/" field with
            | Some offset => table ← or_none (r_longnames s); runtime_longname table offset
            | None => Ok (default field (strip_suffix "/" field))
            end);
    accept (negb (String.eqb name "" || is_bsd_symdef name));;
    validate_closed_coff_member data;;
    Ok {| r_pos := r_pos s; r_objects := r_objects s ++ [r_pos s]; r_indexes := r_indexes s;
          r_longnames := r_longnames s |}.
Definition runtime_advance (pos : Z) (s : RuntimeState) : RuntimeState :=
  {| r_pos := pos; r_objects := r_objects s; r_indexes := r_indexes s; r_longnames := r_longnames s |}.
Definition runtime_step (bytes : string) (s : RuntimeState) : result ReadError RuntimeState :=
  header_end ← cadd (r_pos s) AR_HEADER_LEN;
  header ← get_range bytes (r_pos s) header_end;
  terminator ← get_range header 58 60;
  accept (String.eqb terminator HEADER_END);;
  name_field ← or_panic (slice header 0 16);
  field ← ar_name name_field;
  size_field ← or_panic (slice header 48 58);
  size ← parse_ar_decimal size_field;
  start ← cadd (r_pos s) AR_HEADER_LEN;
  end_ ← cadd start size;
  data ← get_range bytes start end_;
  s ← runtime_member field data s;
  pos ← (if Z.land size 1 =? 0 then Ok end_
         else accept (match byte_at bytes end_ with Some c => name_end c | None => false end);; cadd end_ 1);
  Ok (runtime_advance pos s).
Definition runtime_start : RuntimeState :=
  {| r_pos := slen AR_MAGIC; r_objects := []; r_indexes := []; r_longnames := None |}.
Definition check_index (objects : list Z) (_ : unit) (index : RuntimeArchiveIndex * string) : result ReadError unit :=
  validate_runtime_archive_index index.1 index.2 objects.
(** [validate_closed_windows_runtime_archive] *)
Definition validate_closed_windows_runtime_archive (bytes : string) : result ReadError unit :=
  or_none (strip_prefix AR_MAGIC bytes);;
  s ← while_loop (S (String.length bytes)) (fun s => r_pos s <? slen bytes) (runtime_step bytes) runtime_start;
  accept (negb (bool_decide (r_objects s = [])));;
  try_fold (check_index (r_objects s)) tt (r_indexes s).

(** ** Listing members *)

(** [has_archive_magic], of the bytes of a file that could be opened. *)
Definition has_archive_magic (bytes : string) : bool :=
  match slice bytes 0 8 with
  | Some magic => String.eqb magic AR_MAGIC || String.eqb magic THIN_MAGIC
  | None => false
  end.
(** [gnu_long_name] *)
Definition gnu_long_name (table : option string) (offset : string) : result ReadError string :=
  table ← or_none table;
  offset ← parse_ar_decimal offset;
  entry ← get_from table offset;
  let end_ := default (slen entry) (position name_end entry) in
  name ← or_panic (slice entry 0 end_);
  accept (valid_utf8 name);;
  Ok (default name (strip_suffix "/" name)).
(** The name of a member, the data bytes it took, and the long-name table after it. *)
Definition listed_name (bytes field : string) (data_start size : Z) (longnames : option string)
    : result ReadError (string * Z * option string) :=
  if String.eqb field "//" then
    table ← get_range bytes data_start (data_start + size); Ok (field, size, Some table)
  else match strip_prefix "#1/" field with
  | Some count =>
      count ← parse_ar_decimal count;
      accept (count <=? size);;
      raw ← get_range bytes data_start (data_start + count);
      let end_ := match rposition (fun c => negb (is_byte 0 c)) raw with Some i => i + 1 | None => 0 end in
      name ← or_panic (slice raw 0 end_);
      name ← utf8 name;
      Ok (name, count, longnames)
  | None =>
      if String.eqb field "/" || String.eqb field "/SYM64/" then Ok (field, size, longnames)
      else match strip_prefix "/" field with
      | Some offset => name ← gnu_long_name longnames offset; Ok (name, 0, longnames)
      | None => Ok (default field (strip_suffix "/" field), 0, longnames)
      end
  end.
Record ListState := { l_pos : Z; l_members : list ArchiveMember; l_longnames : option string }.
Definition list_step (bytes : string) (s : ListState) : result ReadError ListState :=
  header ← get_range bytes (l_pos s) (l_pos s + AR_HEADER_LEN);
  name_field ← or_panic (slice header 0 16);
  field ← ar_name name_field;
  terminator ← or_panic (slice header 58 60);
  accept (String.eqb terminator HEADER_END);;
  size_field ← or_panic (slice header 48 58);
  size ← parse_ar_decimal size_field;
  let data_start := l_pos s + AR_HEADER_LEN in
  data_end ← or_none (checked_add u64_max data_start size);
  accept (data_end <=? slen bytes);;
  '(name, consumed, longnames) ← listed_name bytes field data_start size (l_longnames s);
  short_import ← (if consumed + 4 <=? size
                  then head ← get_range bytes (data_start + consumed) (data_start + consumed + 4);
                       Ok (String.eqb head SHORT_IMPORT_SIGNATURE)
                  else Ok false);
  Ok {| l_pos := data_end + Z.land size 1;
        l_members := l_members s ++ [{| am_name := name; am_short_import := short_import |}];
        l_longnames := longnames |}.
(** [members] and [member_names], of the bytes of a file that could be opened. *)
Definition members (bytes : string) : result ReadError (list ArchiveMember) :=
  magic ← get_range bytes 0 (slen AR_MAGIC);
  accept (String.eqb magic AR_MAGIC);;
  s ← while_loop (S (String.length bytes)) (fun s => l_pos s <? slen bytes) (list_step bytes)
        {| l_pos := slen AR_MAGIC; l_members := []; l_longnames := None |};
  Ok (l_members s).
Definition member_names (bytes : string) : result ReadError (list string) := map am_name <$> members bytes.
End Archive.
