(* ===== verification/ArchiveIdentity.v ===== *)
(** * What an archive identity commits to

    The members of an archive as a linker sees them, the frames the identity hashes
    for them, and that the hashed bytes determine the members. *)

From S2P Require Import Prelude Strings Codec Bytes Regions ObjectGates GateSound Archive ArchiveProofs.
#[local] Open Scope string_scope.
#[local] Open Scope Z_scope.

(** ** Prefix codes *)

Lemma prefix_code_inj {A} (f : A -> string) (P : A -> Prop) l1 l2 :
  (forall x y r1 r2, P x -> P y -> f x ++ r1 = f y ++ r2 -> x = y /\ r1 = r2) ->
  (forall x, P x -> f x <> "") ->
  Forall P l1 -> Forall P l2 -> concat_str (map f l1) = concat_str (map f l2) -> l1 = l2.
Proof.
  intros Hf Hne H1. revert l2. induction H1 as [|x l1 Hx H1 IH]; intros l2 H2; destruct H2 as [|y l2 Hy H2]; cbn.
  - done.
  - intros E. destruct (f y) eqn:Ey; [by destruct (Hne y Hy)|done].
  - intros E. destruct (f x) eqn:Ex; [by destruct (Hne x Hx)|done].
  - intros E. apply Hf in E as [-> E]; [|done..]. f_equal. by apply IH.
Qed.
Lemma le64_inj a b r1 r2 : 0 <= a <= u64_max -> 0 <= b <= u64_max -> le64 a ++ r1 = le64 b ++ r2 -> a = b /\ r1 = r2.
Proof.
  unfold le64, u64_max. intros Ha Hb E.
  apply string_app_inj in E as [E1 E2]; [|by rewrite !slen_to_le_bytes].
  split; [|done]. apply to_le_bytes_inj in E1; [done|simpl; lia..].
Qed.

(** Tags without NUL are a prefix code. *)
Definition plain (s : string) : bool := all_bytes (fun c => negb (is_byte 0 c)) s.
Lemma tag_inj a b r1 r2 : plain a = true -> plain b = true -> tag a ++ r1 = tag b ++ r2 -> a = b /\ r1 = r2.
Proof.
  unfold tag. revert b. induction a as [|c a IH]; intros [|d b]; cbn; intros Pa Pb E.
  - by injection E as ->.
  - injection E as <- E. done.
  - injection E as -> E. done.
  - injection E as -> E. apply andb_prop in Pa as [_ Pa], Pb as [_ Pb]. by destruct (IH b Pa Pb E) as [-> ->].
Qed.
Ltac same_tag E :=
  rewrite <- ?string_app_assoc in E;
  apply tag_inj in E as [?E E]; [|reflexivity..]; try discriminate.

(** ** Members *)

(** A member of a GNU archive: its name field without padding, its date and its data. *)
Record GnuMember := { gm_name : string; gm_mtime : ArTimestamp; gm_data : string }.
(** A member of a BSD archive: whether the name precedes the content, the stored bytes
    of the name, its date and its content. *)
Record BsdMember := { bm_inline : bool; bm_stored : string; bm_mtime : Z; bm_content : string }.
Inductive ParsedArchive := GnuArchive (ms : list GnuMember) | BsdArchive (ms : list BsdMember).

Definition mtime_frame (t : ArTimestamp) : string :=
  match t with Decimal t => tag "mtime" ++ le64 t | Blank => tag "mtime-blank" end.
Definition gnu_frame (m : GnuMember) : string :=
  mtime_frame (gm_mtime m) ++
  match classify (gm_name m) with
  | SymbolTable => (if String.eqb (gm_name m) "/SYM64/" then tag "symtab64" else tag "symtab32") ++ len_prefix (gm_data m)
  | LongNameTable => tag "longnames" ++ len_prefix (gm_data m)
  | Object => tag "member" ++ len_prefix (gm_name m) ++ len_prefix (gm_data m)
  end.
Definition trim_right (n : Z) (s : string) : string :=
  stake (Z.to_nat (match rposition (fun c => negb (is_byte n c)) s with Some i => i + 1 | None => 0 end)) s.
(** The name: inline names are padded with NUL, short ones with spaces. *)
Definition bm_name (m : BsdMember) : string := trim_right (if bm_inline m then 0 else 32) (bm_stored m).
Definition bm_inline_len (m : BsdMember) : Z := if bm_inline m then slen (bm_stored m) else 0.
Definition bsd_frame (m : BsdMember) : string :=
  (tag "name" ++ tag (if bm_inline m then "inline" else "short") ++ len_prefix (bm_stored m) ++ le64 (bm_mtime m)) ++
  if is_bsd_symdef (bm_name m)
  then tag "symdef" ++ len_prefix (bm_name m) ++ le64 (bm_inline_len m) ++ len_prefix (bm_content m)
  else tag "member" ++ le64 (bm_inline_len m) ++ len_prefix (bm_content m).

Definition mtime_ok (t : ArTimestamp) : Prop := match t with Decimal t => 0 <= t <= u64_max | Blank => True end.
Definition gnu_ok (m : GnuMember) : Prop :=
  mtime_ok (gm_mtime m) /\ slen (gm_name m) <= u64_max /\ slen (gm_data m) <= u64_max.
Definition bsd_ok (m : BsdMember) : Prop :=
  0 <= bm_mtime m <= u64_max /\ slen (bm_stored m) <= u64_max /\ slen (bm_content m) <= u64_max.

Lemma mtime_frame_inj t1 t2 r1 r2 :
  mtime_ok t1 -> mtime_ok t2 -> mtime_frame t1 ++ r1 = mtime_frame t2 ++ r2 -> t1 = t2 /\ r1 = r2.
Proof.
  unfold mtime_frame. intros H1 H2 E. destruct t1 as [t1|], t2 as [t2|]; same_tag E; [|done].
  apply le64_inj in E as [-> ->]; done.
Qed.
Lemma classify_spec name :
  match classify name with
  | SymbolTable => name = "/SYM64/" \/ name = "/"
  | LongNameTable => name = "//"
  | Object => True
  end.
Proof.
  unfold classify. destruct (String.eqb_spec name "/"); [by right|]. destruct (String.eqb_spec name "/SYM64/"); [by left|].
  by destruct (String.eqb_spec name "//").
Qed.
Lemma gnu_frame_inj m1 m2 r1 r2 :
  gnu_ok m1 -> gnu_ok m2 -> gnu_frame m1 ++ r1 = gnu_frame m2 ++ r2 -> m1 = m2 /\ r1 = r2.
Proof.
  destruct m1 as [n1 t1 d1], m2 as [n2 t2 d2]. unfold gnu_frame, gnu_ok. cbn [gm_name gm_mtime gm_data].
  intros (T1 & N1 & D1) (T2 & N2 & D2). rewrite <- !string_app_assoc. intros E.
  apply mtime_frame_inj in E as [-> E]; [|done..].
  pose proof (classify_spec n1) as C1. pose proof (classify_spec n2) as C2.
  destruct (classify n1), (classify n2).
  all: try (destruct C1 as [-> | ->]); try (destruct C2 as [-> | ->]); try subst n1; try subst n2;
    cbn [String.eqb Ascii.eqb Bool.eqb] in E; same_tag E.
  all: repeat (apply len_prefix_inj in E as [? E]; [|done..]); by subst.
Qed.

Lemma bsd_frame_inj m1 m2 r1 r2 :
  bsd_ok m1 -> bsd_ok m2 -> bsd_frame m1 ++ r1 = bsd_frame m2 ++ r2 -> m1 = m2 /\ r1 = r2.
Proof.
  destruct m1 as [i1 n1 t1 d1], m2 as [i2 n2 t2 d2]. unfold bsd_frame, bsd_ok. cbn [bm_stored bm_mtime bm_content bm_inline].
  intros (T1 & N1 & D1) (T2 & N2 & D2). rewrite <- !string_app_assoc. intros E. same_tag E.
  apply tag_inj in E as [Ei E]; [|by destruct i1|by destruct i2].
  assert (i1 = i2) as -> by (destruct i1, i2; done). clear Ei.
  apply len_prefix_inj in E as [-> E]; [|done..]. apply le64_inj in E as [-> E]; [|done..].
  unfold bm_name, bm_inline_len in E. cbn [bm_stored bm_inline] in E.
  set (name := trim_right _ n2) in E. set (n := if i2 then _ else _) in E. clearbody name n.
  destruct (is_bsd_symdef name); same_tag E.
  - apply string_app_inj in E as [_ E]; [|done]. apply string_app_inj in E as [_ E]; [|done].
    by apply len_prefix_inj in E as [-> ->].
  - apply string_app_inj in E as [_ E]; [|done]. by apply len_prefix_inj in E as [-> ->].
Qed.

(** ** Layout *)

Section Identity.
Context `{Usize} (blake3_hex : string -> string).

(** The fields of the header at [pos], and the data it announces. *)
Record header_at (bytes : string) (pos : Z) (header name_field date_field : string) (size : Z) (data : string) : Prop := {
  ha_header : slice bytes pos (pos + 60) = Some header;
  ha_name : slice header 0 16 = Some name_field;
  ha_date : slice header 16 28 = Some date_field;
  ha_size : exists size_field, slice header 48 58 = Some size_field /\ parse_ar_decimal size_field = Ok size;
  ha_end : slice header 58 60 = Some HEADER_END;
  ha_data : slice bytes (pos + 60) (pos + 60 + size) = Some data;
}.
Definition next_header (pos size : Z) : Z := pos + 60 + size + Z.land size 1.
Definition gnu_at (bytes : string) (pos : Z) (m : GnuMember) (next : Z) : Prop :=
  exists header name_field date_field size,
    header_at bytes pos header name_field date_field size (gm_data m)
    /\ ar_name name_field = Ok (gm_name m) /\ parse_ar_timestamp date_field = Ok (gm_mtime m)
    /\ next = next_header pos size.
Definition bsd_at (bytes : string) (pos : Z) (m : BsdMember) (next : Z) : Prop :=
  exists header name_field date_field size data field,
    header_at bytes pos header name_field date_field size data
    /\ ar_name name_field = Ok field /\ parse_ar_decimal date_field = Ok (bm_mtime m)
    /\ next = next_header pos size
    /\ match strip_prefix "#1/" field with
       | Some digits => bm_inline m = true /\ parse_ar_decimal digits = Ok (slen (bm_stored m))
                        /\ data = bm_stored m ++ bm_content m
       | None => bm_inline m = false /\ bm_stored m = name_field /\ bm_content m = data
       end.
Lemma header_at_unique bytes pos h1 h2 n1 n2 t1 t2 z1 z2 d1 d2 :
  header_at bytes pos h1 n1 t1 z1 d1 -> header_at bytes pos h2 n2 t2 z2 d2 ->
  n1 = n2 /\ t1 = t2 /\ z1 = z2 /\ d1 = d2.
Proof. intros [? ? ? (? & ? & ?) ? ?] [? ? ? (? & ? & ?) ? ?]. repeat split; congruence. Qed.
Lemma gnu_at_unique bytes pos m next m' next' :
  gnu_at bytes pos m next -> gnu_at bytes pos m' next' -> m = m' /\ next = next'.
Proof.
  intros (? & ? & ? & ? & A1 & ? & ? & ->) (? & ? & ? & ? & A2 & ? & ? & ->).
  destruct (header_at_unique _ _ _ _ _ _ _ _ _ _ _ _ A1 A2) as (-> & -> & -> & Ed).
  destruct m, m'; cbn in *. split; congruence.
Qed.
Lemma bsd_at_unique bytes pos m next m' next' :
  bsd_at bytes pos m next -> bsd_at bytes pos m' next' -> m = m' /\ next = next'.
Proof.
  intros (? & ? & ? & ? & ? & f1 & A1 & N1 & ? & -> & M1) (? & ? & ? & ? & ? & f2 & A2 & N2 & ? & -> & M2).
  destruct (header_at_unique _ _ _ _ _ _ _ _ _ _ _ _ A1 A2) as (-> & -> & -> & ->).
  rewrite N1 in N2. injection N2 as ->. split; [|done].
  destruct m, m'. cbn [bm_inline bm_stored bm_mtime bm_content] in *. assert (bm_mtime0 = bm_mtime1) as -> by congruence.
  destruct (strip_prefix "#1/" f2); [|by destruct M1 as (-> & -> & ->), M2 as (-> & -> & ->)].
  destruct M1 as (-> & L1 & ->), M2 as (-> & L2 & E). rewrite L1 in L2. injection L2 as L2.
  by destruct (string_app_inj _ _ _ _ L2 E) as [-> ->].
Qed.

(** ** The loops read layouts *)

Lemma read_header_Ok bytes pos h :
  read_header bytes pos = Ok h -> slice bytes pos (pos + 60) = Some h /\ slice h 58 60 = Some HEADER_END.
Proof.
  unfold read_header, AR_HEADER_LEN. intros (e & He & (t & Ht & (z & Hz & (u & Hu & Eh)%bind_Ok)%bind_Ok)%bind_Ok)%bind_Ok.
  inv_read. apply String.eqb_eq in Hu as ->. by apply checked_add_Some in He as [-> _].
Qed.
Lemma read_data_Ok bytes pos size d e :
  read_data bytes pos size = Ok (d, e) -> slice bytes (pos + 60) (pos + 60 + size) = Some d /\ e = pos + 60 + size.
Proof.
  unfold read_data, AR_HEADER_LEN. intros (a & Ha & (b & Hb & (t & Ht & [= -> ->])%bind_Ok)%bind_Ok)%bind_Ok.
  inv_read. apply checked_add_Some in Ha as [-> _]. by apply checked_add_Some in Hb as [-> _].
Qed.
Lemma ar_name_Ok field name : ar_name field = Ok name -> name = trim_right 32 field /\ slen name <= slen field.
Proof.
  unfold ar_name. cbv zeta. intros (n & Hn & (u & _ & [= ->])%bind_Ok)%bind_Ok. inv_read. apply slice_spec in Hn as (? & ? & ->).
  unfold trim_right. rewrite Z.sub_0_r. split; [done|]. rewrite slen_stake. lia.
Qed.
Lemma parse_ar_decimal_Ok field v : parse_ar_decimal field = Ok v -> 0 <= v <= u64_max.
Proof.
  intros E. eapply safe_Ok in E; [|apply parse_ar_decimal_safe]. cbn in E. pose proof usize_max_bound. lia.
Qed.
Lemma parse_ar_timestamp_Ok field t : parse_ar_timestamp field = Ok t -> mtime_ok t.
Proof.
  unfold parse_ar_timestamp. destruct (all_bytes _ field); [by intros [= <-]|].
  destruct (parse_ar_decimal field) as [v|] eqn:E; cbn; [|done]. intros [= <-]. by eapply parse_ar_decimal_Ok.
Qed.
Definition gnu_dwarf (m : GnuMember) : bool :=
  match classify (gm_name m), object_gate (gm_data m) with Object, Ok true => true | _, _ => false end.
Definition bsd_dwarf (m : BsdMember) : bool :=
  match object_gate (bm_content m) with Ok true => negb (is_bsd_symdef (bm_name m)) | _ => false end.
Lemma gnu_member_Ok name data t stamp s s' :
  hash_mtime t (classify name) = Ok stamp -> gnu_member name data stamp s = Ok s' ->
  let m := {| gm_name := name; gm_mtime := t; gm_data := data |} in
  g_hashed s' = g_hashed s ++ gnu_frame m /\ g_dwarf s' = gnu_dwarf m || g_dwarf s.
Proof.
  intros Ht E. cbv zeta. unfold gnu_frame, gnu_dwarf. cbn [gm_name gm_mtime gm_data].
  assert (mtime_frame t = stamp) as ->.
  { destruct t; cbn in Ht; [by injection Ht|]. destruct (bool_decide _); [by injection Ht|done]. }
  unfold gnu_member in E. destruct (classify name).
  - inv_read. done.
  - inv_read. done.
  - apply bind_Ok in E as (? & _ & (b & Hb & [= <-])%bind_Ok). rewrite Hb. cbn. by destruct b.
Qed.
Lemma gnu_step_Ok bytes s s' :
  gnu_step bytes s = Ok s' ->
  exists m, gnu_at bytes (g_pos s) m (g_pos s') /\ gnu_ok m /\
    g_hashed s' = g_hashed s ++ gnu_frame m /\ g_dwarf s' = gnu_dwarf m || g_dwarf s.
Proof.
  unfold gnu_step. intros (h & [Hh He]%read_header_Ok & (nf & Hnf & (name & Hn & (tf & Htf & (t & Ht & E)%bind_Ok)%bind_Ok)%bind_Ok)%bind_Ok)%bind_Ok.
  apply bind_Ok in E as (sf & Hsf & (size & Hs & ([data end_] & [Hd ->]%read_data_Ok & E)%bind_Ok)%bind_Ok).
  apply bind_Ok in E as (? & _ & (stamp & Hst & (s1 & Hm & (next & Hne & [= <-])%bind_Ok)%bind_Ok)%bind_Ok).
  exists {| gm_name := name; gm_mtime := t; gm_data := data |}. cbn [g_pos gnu_advance g_hashed g_dwarf].
  inv_read. apply checked_add_Some in Hne as [-> _].
  split; [|split].
  - exists h, nf, tf, size. split; [|done]. split; eauto.
  - split; [by eapply parse_ar_timestamp_Ok|]. cbn. apply ar_name_Ok in Hn as [_ Hn]. apply slice_len in Hnf.
    apply parse_ar_decimal_Ok in Hs. apply slice_len in Hd. unfold u64_max in *. lia.
  - by eapply gnu_member_Ok.
Qed.
Lemma slice_split s n a b : slice s 0 n = Some a -> slice s n (slen s) = Some b -> s = a ++ b.
Proof.
  intros (H1 & H2 & ->)%slice_spec (H3 & _ & ->)%slice_spec. rewrite Z.sub_0_r.
  assert (stake (Z.to_nat (slen s - n)) (sdrop (Z.to_nat n) s) = sdrop (Z.to_nat n) s) as ->;
    [|by rewrite stake_sdrop].
  set (t := sdrop _ s). rewrite <- (string_app_nil_r t) at 1.
  assert (Z.to_nat (slen s - n) = String.length t) as ->; [|apply stake_app].
  pose proof (slen_sdrop (Z.to_nat n) s) as L. fold t in L. unfold slen in *. lia.
Qed.
(** The member a [bsd_name] makes of a header and its data. *)
Lemma bsd_name_Ok field header nf data t name stored n enc content :
  slice header 0 16 = Some nf -> ar_name nf = Ok field -> bsd_name field header data = Ok (name, stored, n, enc) ->
  slice data n (slen data) = Some content ->
  let m := {| bm_inline := bool_decide (is_Some (strip_prefix "#1/" field)); bm_stored := stored; bm_mtime := t;
              bm_content := content |} in
  name = bm_name m /\ n = bm_inline_len m /\ enc = tag (if bm_inline m then "inline" else "short")
  /\ slen stored <= Z.max 16 (slen data) /\ slen content <= slen data
  /\ match strip_prefix "#1/" field with
     | Some digits => bm_inline m = true /\ parse_ar_decimal digits = Ok (slen stored) /\ data = stored ++ content
     | None => bm_inline m = false /\ stored = nf /\ content = data
     end.
Proof.
  intros Hnf Hn E Hc. unfold bm_name, bm_inline_len. cbn [bm_inline bm_stored].
  pose proof (slice_len _ _ _ _ Hc) as Lc. pose proof Hc as (Bc & _ & _)%slice_spec.
  unfold bsd_name in E. destruct (strip_prefix "#1/" field) as [digits|] eqn:Ed; cbn [bool_decide is_Some_dec].
  - apply bind_Ok in E as (k & Hk & (raw & Hr & (nm & Hnm & (u & _ & [= <- <- <- <-])%bind_Ok)%bind_Ok)%bind_Ok).
    inv_read. pose proof (slice_len _ _ _ _ Hr) as Lr. pose proof (slice_split _ _ _ _ Hr Hc) as Es.
    cbn. rewrite Z.sub_0_r in Lr. rewrite Lr.
    apply slice_spec in Hnm as (_ & _ & ->). unfold trim_right. rewrite Z.sub_0_r. repeat split; auto; lia.
  - apply bind_Ok in E as (k & Hk & [= <- <- <- <-]). inv_read. cbn.
    assert (k = nf) as -> by congruence. apply ar_name_Ok in Hn as [-> _]. apply slice_len in Hnf.
    assert (content = data) as -> by (rewrite slice_full in Hc; congruence). repeat split; auto; lia.
Qed.
Lemma bsd_member_Ok m stamp s s' :
  bsd_member (bm_name m) (bm_content m) stamp (bm_inline_len m) s = Ok s' ->
  stamp = tag "name" ++ tag (if bm_inline m then "inline" else "short") ++ len_prefix (bm_stored m) ++ le64 (bm_mtime m) ->
  b_hashed s' = b_hashed s ++ bsd_frame m /\ b_dwarf s' = bsd_dwarf m || b_dwarf s.
Proof.
  intros E ->. unfold bsd_frame, bsd_dwarf. unfold bsd_member in E. destruct (is_bsd_symdef (bm_name m)).
  - apply bind_Ok in E as (? & _ & [= <-]). cbn. split; [done|]. by destruct (object_gate _) as [[]|].
  - apply bind_Ok in E as (b & Hb & [= <-]). cbn. rewrite Hb. by destruct b.
Qed.
Lemma bsd_step_Ok bytes s s' :
  bsd_step bytes s = Ok s' ->
  exists m, bsd_at bytes (b_pos s) m (b_pos s') /\ bsd_ok m /\
    b_hashed s' = b_hashed s ++ bsd_frame m /\ b_dwarf s' = bsd_dwarf m || b_dwarf s.
Proof.
  unfold bsd_step. intros (h & [Hh He]%read_header_Ok & (nf & Hnf & (field & Hn & (tf & Htf & (t & Ht & E)%bind_Ok)%bind_Ok)%bind_Ok)%bind_Ok)%bind_Ok.
  apply bind_Ok in E as (sf & Hsf & (size & Hs & ([data end_] & [Hd ->]%read_data_Ok & E)%bind_Ok)%bind_Ok).
  apply bind_Ok in E as (? & _ & ([[[name stored] n] enc] & Hb & (content & Hc & E)%bind_Ok)%bind_Ok).
  apply bind_Ok in E as (s1 & Hm & (next & Hne & [= <-])%bind_Ok).
  inv_read. apply checked_add_Some in Hne as [-> _].
  destruct (bsd_name_Ok _ _ _ _ t _ _ _ _ _ Hnf Hn Hb Hc) as (-> & -> & -> & L1 & L2 & Hf).
  match type of Hm with bsd_member (bm_name ?m) _ _ _ _ = _ => exists m end.
  apply parse_ar_decimal_Ok in Hs as Bs. apply parse_ar_decimal_Ok in Ht as Bt. apply slice_len in Hd as Ld.
  cbn [b_pos bsd_advance b_hashed b_dwarf]. split; [|split].
  - exists h, nf, tf, size, data, field. split; [split; eauto|]. repeat split; auto.
  - unfold bsd_ok. cbn. unfold u64_max in *. lia.
  - by eapply bsd_member_Ok.
Qed.

(** ** Archives *)

(** [bytes] is read as [a] by the arm that accepts it. *)
Definition reads_as (bytes : string) (a : ParsedArchive) : Prop :=
  match a with
  | GnuArchive ms => is_ok (gnu_scan bytes) = true /\ layout (gnu_at bytes) 8 ms (slen bytes)
  | BsdArchive ms => is_ok (gnu_scan bytes) = false /\ is_ok (bsd_scan bytes) = true
                     /\ layout (bsd_at bytes) 8 ms (slen bytes)
  end.
(** The bytes that are hashed for an archive. *)
Definition hashed_bytes (bytes : string) : string :=
  match gnu_scan bytes, bsd_scan bytes with
  | Ok s, _ => g_hashed s
  | _, Ok s => b_hashed s
  | _, _ => ""
  end.
Definition frames (a : ParsedArchive) : string :=
  match a with
  | GnuArchive ms => GNU_DOMAIN ++ concat_str (map gnu_frame ms)
  | BsdArchive ms => BSD_DOMAIN ++ concat_str (map bsd_frame ms)
  end.
Definition scheme (a : ParsedArchive) : string :=
  match a with GnuArchive _ => "gnu-ar-v2:" | BsdArchive _ => "bsd-ar-v2:" end.
Definition has_dwarf (a : ParsedArchive) : bool :=
  match a with GnuArchive ms => existsb gnu_dwarf ms | BsdArchive ms => existsb bsd_dwarf ms end.
Definition members_ok (a : ParsedArchive) : Prop :=
  match a with GnuArchive ms => Forall gnu_ok ms | BsdArchive ms => Forall bsd_ok ms end.

(** What a loop over members has read when it stands at [pos]. *)
Definition has_read {M} (at_ : Z -> M -> Z -> Prop) (ok : M -> Prop) (frame : M -> string) (dwarf : M -> bool)
    (domain : string) (pos : Z) (hashed : string) (d : bool) : Prop :=
  exists ms, layout at_ 8 ms pos /\ Forall ok ms /\ hashed = domain ++ concat_str (map frame ms) /\ d = existsb dwarf ms.
Lemma has_read_start {M} (at_ : Z -> M -> Z -> Prop) ok frame dwarf domain :
  has_read at_ ok frame dwarf domain 8 domain false.
Proof. exists []. split; [constructor|]. by rewrite string_app_nil_r. Qed.
Lemma has_read_step {M} (at_ : Z -> M -> Z -> Prop) (ok : M -> Prop) frame dwarf domain pos hashed d m next hashed' d' :
  has_read at_ ok frame dwarf domain pos hashed d ->
  at_ pos m next /\ ok m /\ hashed' = hashed ++ frame m /\ d' = dwarf m || d ->
  has_read at_ ok frame dwarf domain next hashed' d'.
Proof.
  intros (ms & Hl & Ho & -> & ->) (Ha & Hm & -> & ->). exists (ms ++ [m])%list. split; [by eapply layout_snoc|].
  split; [by apply Forall_app; auto|]. rewrite map_app, concat_str_app, existsb_app. cbn.
  rewrite string_app_nil_r, <- string_app_assoc, orb_false_r. split; [done|]. apply orb_comm.
Qed.
Lemma gnu_scan_Ok bytes s :
  gnu_scan bytes = Ok s ->
  has_read (gnu_at bytes) gnu_ok gnu_frame gnu_dwarf GNU_DOMAIN (slen bytes) (g_hashed s) (g_dwarf s).
Proof.
  unfold gnu_scan. intros (? & _ & (s1 & Hw & (? & Hp & (? & _ & [= <-])%bind_Ok)%bind_Ok)%bind_Ok)%bind_Ok.
  inv_read. apply Z.eqb_eq in Hp. rewrite <- Hp.
  refine (proj1 (while_inv (fun s => has_read _ _ _ _ _ (g_pos s) (g_hashed s) (g_dwarf s)) _ _ _ _ _ Hw _ _)).
  - apply has_read_start.
  - intros s0 s' Hr _ (m & Hm)%gnu_step_Ok. by eapply has_read_step.
Qed.
Lemma bsd_scan_Ok bytes s :
  bsd_scan bytes = Ok s ->
  has_read (bsd_at bytes) bsd_ok bsd_frame bsd_dwarf BSD_DOMAIN (slen bytes) (b_hashed s) (b_dwarf s).
Proof.
  unfold bsd_scan. intros (? & _ & (s1 & Hw & (? & Hp & (? & _ & [= <-])%bind_Ok)%bind_Ok)%bind_Ok)%bind_Ok.
  inv_read. apply Z.eqb_eq in Hp. rewrite <- Hp.
  refine (proj1 (while_inv (fun s => has_read _ _ _ _ _ (b_pos s) (b_hashed s) (b_dwarf s)) _ _ _ _ _ Hw _ _)).
  - apply has_read_start.
  - intros s0 s' Hr _ (m & Hm)%bsd_step_Ok. by eapply has_read_step.
Qed.
(** An accepted archive is read as members, whose frames are what is hashed. *)
Lemma identity_reads bytes i :
  portable_static_archive_identity blake3_hex bytes = Ok i ->
  exists a, reads_as bytes a /\ members_ok a /\ hashed_bytes bytes = frames a
    /\ digest i = scheme a ++ blake3_hex (hashed_bytes bytes) /\ macho_dwarf_members i = has_dwarf a.
Proof.
  unfold portable_static_archive_identity, gnu_archive_identity, bsd_archive_identity, hashed_bytes, reads_as.
  destruct (gnu_scan bytes) as [s|[]] eqn:Eg; [|cbn|done..].
  - intros [= <-]. destruct (gnu_scan_Ok _ _ Eg) as (ms & Hl & Ho & Hh & Hd). exists (GnuArchive ms). auto.
  - destruct (bsd_scan bytes) as [s|] eqn:Eb; [|done]. intros [= <-].
    destruct (bsd_scan_Ok _ _ Eb) as (ms & Hl & Ho & Hh & Hd). exists (BsdArchive ms). auto.
Qed.
Lemma next_header_lt pos size h nf df bytes data : header_at bytes pos h nf df size data -> pos < next_header pos size.
Proof.
  intros [_ _ _ (f & _ & Hs%parse_ar_decimal_Ok) _ _]. unfold next_header. pose proof (land_1_bounds size). lia.
Qed.
Lemma reads_as_unique bytes a a' : reads_as bytes a -> reads_as bytes a' -> a = a'.
Proof.
  destruct a as [ms|ms], a' as [ms'|ms']; cbn; intros Ha Ha'; [|naive_solver congruence..|].
  - f_equal. destruct Ha as [_ Ha], Ha' as [_ Ha']. revert Ha Ha'. apply layout_unique.
    + intros p m n (h & nf & df & size & Hh & _ & _ & ->). by eapply next_header_lt.
    + intros p m n m' n'. apply gnu_at_unique.
  - f_equal. destruct Ha as (_ & _ & Ha), Ha' as (_ & _ & Ha'). revert Ha Ha'. apply layout_unique.
    + intros p m n (h & nf & df & size & d & f & Hh & _ & _ & -> & _). by eapply next_header_lt.
    + intros p m n m' n'. apply bsd_at_unique.
Qed.
Lemma frames_inj a1 a2 : members_ok a1 -> members_ok a2 -> frames a1 = frames a2 -> a1 = a2.
Proof.
  destruct a1 as [m1|m1], a2 as [m2|m2]; cbn [members_ok frames]; intros H1 H2 E;
    unfold GNU_DOMAIN, BSD_DOMAIN in E; same_tag E; f_equal; revert H1 H2 E; apply prefix_code_inj.
  - apply gnu_frame_inj.
  - intros [n t d] _. unfold gnu_frame. by destruct t.
  - apply bsd_frame_inj.
  - intros [i n t d] _. done.
Qed.

(** C10. The identity of an archive is exactly its members.  Two archives that have an
    identity get the same digest if and only if the same arm reads them as the same
    sequence of members, with the same names, dates, contents and order (short of a
    collision between the bytes hashed for the two); the flag for Mach-O members with
    DWARF is then the same. *)
Theorem archive_identity_exact bytes1 bytes2 i1 i2 :
  portable_static_archive_identity blake3_hex bytes1 = Ok i1 ->
  portable_static_archive_identity blake3_hex bytes2 = Ok i2 ->
  (blake3_hex (hashed_bytes bytes1) = blake3_hex (hashed_bytes bytes2) ->
   hashed_bytes bytes1 = hashed_bytes bytes2) ->
  (digest i1 = digest i2 <-> exists a, reads_as bytes1 a /\ reads_as bytes2 a)
  /\ (digest i1 = digest i2 -> macho_dwarf_members i1 = macho_dwarf_members i2).
Proof.
  intros (a1 & R1 & O1 & F1 & D1 & W1)%identity_reads (a2 & R2 & O2 & F2 & D2 & W2)%identity_reads Hc.
  assert (digest i1 = digest i2 -> a1 = a2) as Hd.
  { rewrite D1, D2. intros [_ E]%string_app_inj; [|by destruct a1, a2].
    apply Hc in E. apply frames_inj; [done..|]. by rewrite <- F1, <- F2. }
  split; [split|].
  - intros ->%Hd. eauto.
  - intros (a & Ra1 & Ra2). rewrite D1, D2, F1, F2.
    by rewrite (reads_as_unique _ _ _ R1 Ra1), (reads_as_unique _ _ _ R2 Ra2).
  - intros E%Hd. by rewrite W1, W2, E.
Qed.
End Identity.
