(* ===== verification/ClosedArchive.v ===== *)
(** * Closed Windows runtime archives

    What [validate_closed_windows_runtime_archive] accepts: an archive that its members
    tile exactly, in which every symbol index points only at members that were checked
    to bring no directive or type input from outside. *)

From S2P Require Import Prelude Strings Codec Bytes Regions ObjectGates GateSound Archive ArchiveProofs ArchiveIdentity.
#[local] Open Scope string_scope.
#[local] Open Scope Z_scope.

Section Closed.
Context `{Usize}.

(** ** Names in bytes *)

Definition nul_free (s : string) : Prop := all_bytes (fun c => negb (is_byte 0 c)) s = true.
Lemma position_split p s i :
  position p s = Some i ->
  exists a c b, s = a ++ String c b /\ p c = true /\ all_bytes (fun c => negb (p c)) a = true /\ i = slen a.
Proof.
  revert i. induction s as [|c s IH]; intros i; cbn; [done|]. destruct (p c) eqn:E.
  - intros [= <-]. by exists "", c, s.
  - intros (k & (a & x & b & -> & Hx & Ha & ->)%IH & [= <-])%bind_Some. exists (String c a), x, b. cbn. rewrite E, Ha.
    split_and!; try done. unfold slen. cbn. lia.
Qed.
Lemma position_None p s : position p s = None -> all_bytes (fun c => negb (p c)) s = true.
Proof.
  induction s as [|c s IH]; cbn; [done|]. destruct (p c); [done|]. destruct (position p s); [done|]. by intros; apply IH.
Qed.
Lemma slice_before a c b t : slice (a ++ String c b) 0 (slen a) = Some t -> t = a.
Proof. rewrite slice_prefix. by intros [= <-]. Qed.
Lemma slice_after a c b t : slice (a ++ String c b) (slen a + 1) (slen (a ++ String c b)) = Some t -> t = b.
Proof.
  change (a ++ String c b) with (a ++ (String c "" ++ b)). rewrite string_app_assoc. intros Ht.
  assert (slice ((a ++ String c "") ++ b) (slen (a ++ String c "") + 0) (slen (a ++ String c "") + slen b) = Some t) as E.
  { rewrite <- Ht. rewrite !slen_app. f_equal; change (slen (String c "")) with 1; lia. }
  rewrite slice_shift, slice_full in E by (pose proof (slen_nonneg b); lia). by injection E.
Qed.

(** A little-endian number in the file. *)
Definition le_field (n : Z) (bytes : string) (offset v : Z) : Prop :=
  exists raw, slice bytes offset (offset + n) = Some raw /\ v = from_le_bytes raw.
Lemma endian_le n bytes offset v : endian_uint n Little bytes offset = Ok v -> le_field n bytes offset v.
Proof. intros (? & ->%cadd_Ok & (raw & Hr & [= <-])%bind_Ok)%bind_Ok. inv_read. by exists raw. Qed.
Lemma usize_le bytes offset v : usize_u32 Little bytes offset = Ok v -> le_field 4 bytes offset v.
Proof.
  intros (x & Hx%endian_le & Hv)%bind_Ok. unfold to_usize, usize_try_from in Hv. inv_read. destruct (x <=? usize_max); [|done].
  by injection Hv as ->.
Qed.

(** ** Members *)

Definition supported_machines : list Z := [0x014c; 0x8664; 0x01c4; 0xaa64].
(** A short import object: a header of version 0, which a bigobj does not have, then
    the symbol and the library, each ended by a NUL, and nothing else. *)
Definition short_import (data : string) : Prop :=
  exists header machine flags symbol n1 library n2,
    data = header ++ symbol ++ String n1 (library ++ String n2 "") /\ slen header = 20
    /\ starts_with SHORT_IMPORT_SIGNATURE header = true /\ le_field 2 header 4 0
    /\ le_field 2 header 6 machine /\ machine ∈ supported_machines
    /\ le_field 4 header 12 (slen data - 20)
    /\ le_field 2 header 18 flags /\ Z.land flags (Z.lnot 0x1f) = 0 /\ Z.land flags 3 <= 2 /\ Z.land (Z.shiftr flags 2) 7 <= 3
    /\ byte_val n1 = 0 /\ byte_val n2 = 0 /\ symbol <> "" /\ nul_free symbol /\ library <> "" /\ nul_free library.

(** The string table follows the symbols, of 18 bytes each, and starts with its size. *)
Definition string_table (data : string) (sections_end symbols symbol_count : Z) (strings : option string) : Prop :=
  match strings with
  | None => symbols = 0 /\ symbol_count = 0
  | Some table =>
      symbols <> 0 /\ sections_end <= symbols /\ 4 <= slen table
      /\ le_field 4 data (symbols + symbol_count * 18) (slen table)
      /\ slice data (symbols + symbol_count * 18) (symbols + symbol_count * 18 + slen table) = Some table
  end.
(** The name of a section: eight bytes filled up with NULs, or a slash and the
    decimal offset of the name in the string table. *)
Definition section_named (strings : option string) (section name : string) : Prop :=
  exists raw padding, slice section 0 8 = Some (raw ++ padding) /\ nul_free raw /\ all_bytes (is_byte 0) padding = true
  /\ (starts_with "/" raw = false /\ name = raw
      \/ exists digits offset table nul rest, raw = "/" ++ digits /\ parse_ar_decimal digits = Ok offset /\ 4 <= offset
         /\ strings = Some table /\ slice table offset (slen table) = Some (name ++ String nul rest)
         /\ byte_val nul = 0 /\ nul_free name).
(** [count] entries of [size] bytes between the section table and the end of the file. *)
Definition entries_in_file (data : string) (sections_end offset count size : Z) : Prop :=
  count = 0 \/ sections_end <= offset /\ offset + count * size <= slen data.
Definition closed_section (data : string) (sections_end : Z) (strings : option string) (section : string) : Prop :=
  (exists name, section_named strings section name /\ name <> ""
     /\ to_ascii_lowercase name ∉ [".drectve"; ".debug$t"; ".debug$p"])
  /\ (exists flags size offset, le_field 4 section 36 flags /\ le_field 4 section 16 size /\ le_field 4 section 20 offset
       /\ Z.land flags 0x01000000 = 0
       /\ (offset = 0 /\ Z.land flags 0x80 <> 0 \/ entries_in_file data sections_end offset size 1))
  /\ (exists offset count, le_field 4 section 24 offset /\ le_field 2 section 32 count /\ entries_in_file data sections_end offset count 10)
  /\ (exists offset count, le_field 4 section 28 offset /\ le_field 2 section 34 count /\ entries_in_file data sections_end offset count 6).
Definition closed_coff (data : string) : Prop :=
  exists header machine flags count symbols symbol_count table strings,
    slice data 0 20 = Some header /\ starts_with SHORT_IMPORT_SIGNATURE header = false
    /\ le_field 2 header 0 machine /\ machine ∈ supported_machines
    /\ le_field 2 header 16 0 /\ le_field 2 header 18 flags /\ Z.land flags (Z.lnot 0x030c) = 0
    /\ le_field 2 header 2 count /\ count <> 0 /\ slice data 20 (20 + count * 40) = Some table
    /\ le_field 4 header 8 symbols /\ le_field 4 header 12 symbol_count
    /\ string_table data (20 + count * 40) symbols symbol_count strings
    /\ forall section, section ∈ chunks 40 table -> closed_section data (20 + count * 40) strings section.
(** What a checked member is. *)
Definition closed_object (data : string) : Prop := short_import data \/ closed_coff data.

Lemma supported_machine m : supported_runtime_coff_machine m = true -> m ∈ supported_machines.
Proof. unfold supported_runtime_coff_machine, supported_machines. intros E.
  rewrite !orb_true_iff, !Z.eqb_eq in E. rewrite !elem_of_cons. tauto. Qed.
Lemma index_name_step_Ok bytes i rest :
  index_name_step bytes i = Ok rest -> exists name nul, bytes = name ++ String nul rest /\ byte_val nul = 0 /\ name <> "" /\ nul_free name.
Proof.
  intros (e & He & (? & Hz & (next & Hn%cadd_Ok & Hr)%bind_Ok)%bind_Ok)%bind_Ok. subst next. inv_read.
  apply position_split in He as (name & nul & b & -> & Hnul & Hfree & ->). apply slice_after in Hr as ->.
  exists name, nul. split_and!; [done|by apply Z.eqb_eq| |done]. by intros ->.
Qed.
Lemma validate_short_import_Ok data header :
  slice data 0 20 = Some header -> starts_with SHORT_IMPORT_SIGNATURE header = true ->
  validate_short_import data header = Ok tt -> short_import data.
Proof.
  intros Hh Hsig (version & Hv%endian_le & (? & Hm & E)%bind_Ok)%bind_Ok.
  destruct (Z.eqb_spec version 0) as [->|]; [|done]. cbn [negb] in Hm. apply bind_Ok in Hm as (machine & Hm%endian_le & Hs).
  apply bind_Ok in E as (flags & Hf%endian_le & (? & Hfl & (size & Hsz%usize_le & (end_ & He%cadd_Ok & E)%bind_Ok)%bind_Ok)%bind_Ok).
  apply bind_Ok in E as (? & Hend & (strings & Hst & (rest & Hfold & Hrest)%bind_Ok)%bind_Ok).
  cbn [try_fold] in Hfold. apply bind_Ok in Hfold as (s1 & (symbol & n1 & -> & Hn1 & Hne1 & Hf1)%index_name_step_Ok & Hfold).
  apply bind_Ok in Hfold as (s2 & (library & n2 & -> & Hn2 & Hne2 & Hf2)%index_name_step_Ok & [= ->]).
  subst end_. inv_read. apply Z.eqb_eq in Hend. apply String.eqb_eq in Hrest as ->.
  rewrite Hend in Hst. pose proof (slice_split _ _ _ _ Hh Hst) as Hd. pose proof (slice_len _ _ _ _ Hh) as Lh.
  exists header, machine, flags, symbol, n1, library, n2. bool_to_prop. split_and!; try done; try lia.
  - by apply supported_machine.
  - replace (slen data - 20) with size by lia. done.
Qed.
Lemma coff_strings_Ok data sections_end symbols symbol_count strings :
  coff_strings data sections_end symbols symbol_count = Ok strings -> string_table data sections_end symbols symbol_count strings.
Proof.
  unfold coff_strings. destruct (Z.eqb_spec symbols 0) as [->|Hn].
  - intros (? & Hc & [= <-])%bind_Ok. inv_read. by apply Z.eqb_eq in Hc.
  - intros (? & Hs & (? & ->%cmul_Ok & (? & ->%cadd_Ok & (size & Hz%usize_le & E)%bind_Ok)%bind_Ok)%bind_Ok)%bind_Ok.
    apply bind_Ok in E as (? & H4 & (? & ->%cadd_Ok & Ht)%bind_Ok). inv_read. bool_to_prop.
    destruct (slice data _ _) as [table|] eqn:Et; [|done]. injection Ht as <-. cbn.
    assert (slen table = size) as <- by (apply slice_len in Et; lia). done.
Qed.
Lemma coff_section_name_Ok section strings name :
  coff_section_name section strings = Ok name -> section_named strings section name.
Proof.
  intros (field & Hf & (padding & Hp & (? & Ha & (raw & Hr & E)%bind_Ok)%bind_Ok)%bind_Ok)%bind_Ok. inv_read.
  assert (field = raw ++ padding) as -> by exact (slice_split _ _ _ _ Hr Hp).
  assert (nul_free raw) as Hfree.
  { unfold nul_free. destruct (position (is_byte 0) (raw ++ padding)) as [i|] eqn:Ep; cbn [default] in Hr.
    - apply position_split in Ep as (a & c & b & Es & _ & Hn & ->). rewrite Es in Hr. by apply slice_before in Hr as ->.
    - apply position_None in Ep. rewrite all_bytes_app, andb_true_iff in Ep. apply Ep. }
  exists raw, padding. split_and!; [done..|]. destruct (strip_prefix "/" raw) as [digits|] eqn:Es.
  - right. apply strip_prefix_Some in Es.
    apply bind_Ok in E as (offset & Ho & (? & H4 & (table & Ht & (long & Hl & (n & Hn & Hname)%bind_Ok)%bind_Ok)%bind_Ok)%bind_Ok).
    inv_read. apply position_split in Hn as (a & c & b & Ea & Hc & Hfa & ->).
    set (k := Z.to_nat _) in Ea. rewrite <- (stake_sdrop k long), Ea, <- string_app_assoc in Hl, Hname.
    apply slice_before in Hname as ->. bool_to_prop. apply Z.eqb_eq in Hc.
    by exists digits, offset, table, c, (b ++ sdrop k long).
  - left. injection E as <-. split; [|done]. unfold starts_with. by rewrite Es.
Qed.
Lemma region_bounds len offset size least r :
  checked_file_region len offset size least = Some r -> size = 0 \/ least <= offset /\ offset + size <= len.
Proof.
  unfold checked_file_region, usize_try_from, checked_add. repeat (case_match || cbn); try done; intros; bool_to_prop; lia.
Qed.
Lemma validate_counted_region_Ok data offset count size sections_end u :
  0 < size -> validate_counted_region data offset count size sections_end = Ok u -> entries_in_file data sections_end offset count size.
Proof.
  unfold validate_counted_region, entries_in_file. intros Hs. destruct (Z.eqb_spec count 0) as [|Hn]; [by left|].
  intros (? & Hm & (r & Hr & _)%bind_Ok)%bind_Ok. inv_read. unfold checked_mul in Hm. destruct (_ <=? _); [|done].
  injection Hm as <-. apply region_bounds in Hr. nia.
Qed.
Lemma coff_section_step_Ok data strings sections_end u section :
  coff_section_step data strings sections_end u section = Ok tt -> closed_section data sections_end strings section.
Proof.
  intros (name & Hn%coff_section_name_Ok & (? & Hne & (flags & Hf%endian_le & (? & Hlink & E)%bind_Ok)%bind_Ok)%bind_Ok)%bind_Ok.
  apply bind_Ok in E as (size & Hs%endian_le & (offset & Ho%endian_le & (? & Hreg & E)%bind_Ok)%bind_Ok).
  apply bind_Ok in E as (ro & Hro%endian_le & (rc & Hrc%endian_le & ([] & Hrr & E)%bind_Ok)%bind_Ok).
  apply bind_Ok in E as (lo & Hlo%endian_le & (lc & Hlc%endian_le & Hll)%bind_Ok). inv_read.
  apply negb_true_iff, orb_false_iff in Hne as [Hne Hun]. apply String.eqb_neq in Hne. apply Z.eqb_eq in Hlink.
  split_and!.
  - exists name. split_and!; [done..|]. unfold unsupported_coff_name, same_ignoring_case in Hun. cbn in Hun.
    rewrite !orb_false_iff, !String.eqb_neq in Hun. set_solver.
  - exists flags, size, offset. split_and!; [done..|]. unfold entries_in_file.
    destruct (Z.eqb_spec size 0) as [->|]; [by right; left|]. destruct (Z.eqb_spec offset 0) as [->|]; cbn in Hreg.
    + destruct (Z.eqb_spec (Z.land flags 0x80) 0); cbn in Hreg; [|by left].
      apply bind_Ok in Hreg as (r & Hr & _). inv_read. apply region_bounds in Hr. right. lia.
    + apply bind_Ok in Hreg as (r & Hr & _). inv_read. apply region_bounds in Hr. right. lia.
  - exists ro, rc. split_and!; [done..|]. by eapply validate_counted_region_Ok.
  - exists lo, lc. split_and!; [done..|]. by eapply validate_counted_region_Ok.
Qed.
Lemma validate_closed_coff_member_Ok data : validate_closed_coff_member data = Ok tt -> closed_object data.
Proof.
  intros (header & Hh & E)%bind_Ok. inv_read. destruct (starts_with SHORT_IMPORT_SIGNATURE header) eqn:Esig.
  { left. by eapply validate_short_import_Ok. }
  right. apply bind_Ok in E as (machine & Hm%endian_le & (? & Hsup & (count & Hc%endian_le & E)%bind_Ok)%bind_Ok).
  apply bind_Ok in E as (? & ->%cmul_Ok & (? & ->%cadd_Ok & (? & _ & (? & Hn & E)%bind_Ok)%bind_Ok)%bind_Ok).
  apply bind_Ok in E as (symbols & Hsy%usize_le & (symbol_count & Hsc%usize_le & (strings & Hst%coff_strings_Ok & E)%bind_Ok)%bind_Ok).
  apply bind_Ok in E as (table & Ht & Hfold). inv_read. apply negb_true_iff, Z.eqb_neq in Hn.
  destruct (supported_runtime_coff_machine machine) eqn:Em; [|done]. cbn [negb] in Hsup.
  apply bind_Ok in Hsup as (optional & Hopt%endian_le & Hsup). destruct (Z.eqb_spec optional 0) as [->|]; [|done]. cbn [negb] in Hsup.
  apply bind_Ok in Hsup as (flags & Hf%endian_le & Hfl). inv_read. apply Z.eqb_eq in Hfl.
  exists header, machine, flags, count, symbols, symbol_count, table, strings. split_and!; try done.
  - by apply supported_machine.
  - intros section Hin. eapply coff_section_step_Ok, try_fold_unit; done.
Qed.
(** A member at its place. *)
Record RuntimeMember := { rm_pos : Z; rm_field : string; rm_data : string }.
Definition runtime_at (bytes : string) (pos : Z) (m : RuntimeMember) (next : Z) : Prop :=
  rm_pos m = pos /\ exists header name_field date_field size,
    header_at bytes pos header name_field date_field size (rm_data m)
    /\ ar_name name_field = Ok (rm_field m) /\ next = next_header pos size.
Definition is_object (m : RuntimeMember) : bool := negb (String.eqb (rm_field m) "/" || String.eqb (rm_field m) "//").
Definition is_index (m : RuntimeMember) : bool := String.eqb (rm_field m) "/".
(** The symbol indexes, with the format of each. *)
Definition indexes_of (ms : list RuntimeMember) : list (RuntimeArchiveIndex * string) :=
  zip [Gnu32; CoffSecond] (map rm_data (List.filter is_index ms)).
(** An offset that an index gives for a symbol. *)
Definition index_names (kind : RuntimeArchiveIndex) (data : string) (offset : Z) : Prop :=
  let e := match kind with Gnu32 => Big | CoffSecond => Little end in
  exists count i, usize_u32 e data 0 = Ok count /\ 0 <= i < count /\ usize_u32 e data (4 + i * 4) = Ok offset.
Lemma validate_runtime_archive_index_Ok kind data objects offset :
  validate_runtime_archive_index kind data objects = Ok tt -> index_names kind data offset -> offset ∈ objects.
Proof.
  assert (forall e i, symbol_index_step data e objects tt i = Ok tt -> usize_u32 e data (4 + i * 4) = Ok offset -> offset ∈ objects) as Hi.
  { intros e i (? & Hk & (? & Ha & (o & Ho & Hin)%bind_Ok)%bind_Ok)%bind_Ok Hr. inv_read.
    apply checked_add_Some in Ha as [-> _]. unfold checked_mul in Hk. destruct (_ <=? _); [|done]. injection Hk as <-.
    rewrite Ho in Hr. injection Hr as ->. by apply bool_decide_eq_true in Hin. }
  intros E (count & i & Hc & Hr & Ho). destruct kind; cbn in Hc, Ho, E; rewrite Hc in E; cbn [mbind result_bind] in E.
  - apply bind_Ok in E as (? & _ & (? & _ & (? & _ & ([] & Hf & _)%bind_Ok)%bind_Ok)%bind_Ok).
    eapply Hi; [|exact Ho]. eapply try_fold_unit; [exact Hf|]. apply elem_of_seqZ. lia.
  - apply bind_Ok in E as (? & _ & (? & _ & (? & _ & (? & _ & E)%bind_Ok)%bind_Ok)%bind_Ok).
    apply bind_Ok in E as (? & _ & (? & _ & (? & _ & ([] & Hf & _)%bind_Ok)%bind_Ok)%bind_Ok).
    eapply Hi; [|exact Ho]. eapply try_fold_unit; [exact Hf|]. apply elem_of_seqZ. lia.
Qed.

(** ** The loop *)

Record runtime_read (bytes : string) (ms : list RuntimeMember) (s : RuntimeState) : Prop := {
  rr_layout : layout (runtime_at bytes) 8 ms (r_pos s);
  rr_end : r_pos s <= slen bytes;
  rr_objects : r_objects s = map rm_pos (List.filter is_object ms);
  rr_closed : forall m, m ∈ ms -> is_object m = true -> closed_object (rm_data m);
  rr_count : (length (List.filter is_index ms) <= 2)%nat;
  rr_indexes : r_indexes s = indexes_of ms;
}.
Lemma runtime_member_Ok field data s s' pos :
  runtime_member field data s = Ok s' ->
  let m := {| rm_pos := pos; rm_field := field; rm_data := data |} in
  r_pos s' = r_pos s
  /\ (is_object m = true -> closed_object data)
  /\ r_objects s' = (r_objects s ++ if is_object m then [r_pos s] else [])%list
  /\ (if is_index m then exists kind, r_indexes s' = (r_indexes s ++ [(kind, data)])%list
         /\ nth_error [Gnu32; CoffSecond] (length (r_indexes s)) = Some kind
      else r_indexes s' = r_indexes s).
Proof.
  unfold runtime_member, is_object, is_index. cbn [rm_field]. intros E.
  destruct (String.eqb_spec field "//") as [->|Hn2].
  - apply bind_Ok in E as (? & _ & (? & _ & [= <-])%bind_Ok). cbn. by rewrite app_nil_r.
  - destruct (String.eqb_spec field "/") as [->|Hn1].
    + apply bind_Ok in E as (? & _ & (kind & Hk & [= <-])%bind_Ok). cbn. rewrite app_nil_r.
      split; [done|]. split; [done|]. split; [done|]. exists kind. split; [done|].
      destruct (r_indexes s) as [|? [|? ?]]; cbn in *; first [congruence|discriminate Hk].
    + apply bind_Ok in E as (? & _ & (? & _ & (? & _ & ([] & Hv & [= <-])%bind_Ok)%bind_Ok)%bind_Ok).
      cbn. split; [done|]. split; [|done]. intros _. by apply validate_closed_coff_member_Ok.
Qed.
Lemma runtime_step_Ok bytes s s' :
  runtime_step bytes s = Ok s' ->
  exists m s1, runtime_at bytes (r_pos s) m (r_pos s') /\ r_pos s' <= slen bytes
    /\ runtime_member (rm_field m) (rm_data m) s = Ok s1 /\ s' = runtime_advance (r_pos s') s1.
Proof.
  unfold runtime_step, AR_HEADER_LEN.
  intros (? & He%cadd_Ok & (h & Hh & (z & Hz & (? & Hu & (nf & Hnf & E)%bind_Ok)%bind_Ok)%bind_Ok)%bind_Ok)%bind_Ok.
  apply bind_Ok in E as (field & Hf & (sf & Hsf & (size & Hs & (? & Ha%cadd_Ok & (? & Hb%cadd_Ok & E)%bind_Ok)%bind_Ok)%bind_Ok)%bind_Ok).
  apply bind_Ok in E as (data & Hd & (s1 & Hm & (pos & Hp & [= <-])%bind_Ok)%bind_Ok).
  exists {| rm_pos := r_pos s; rm_field := field; rm_data := data |}, s1. cbn [rm_field rm_data runtime_advance r_pos].
  subst. inv_read. pose proof (slice_len _ _ _ _ Hh) as Lh. destruct (slice_Some h 16 28) as [df Hdf]; [lia..|].
  apply String.eqb_eq in Hu as ->. pose proof (land_1_bounds size).
  assert (pos = next_header (r_pos s) size /\ pos <= slen bytes) as [-> Hle].
  { unfold next_header. destruct (Z.eqb_spec (Z.land size 1) 0) as [Ez|Ez].
    - injection Hp as <-. apply slice_spec in Hd as (_ & ? & _). lia.
    - apply bind_Ok in Hp as (? & Hc & Hp). inv_read. apply checked_add_Some in Hp as [-> _].
      destruct (byte_at bytes _) as [c|] eqn:Eb; [|done]. apply byte_at_lt in Eb. lia. }
  split; [|done]. split; [done|]. exists h, nf, df, size. split; [|done]. split; eauto.
Qed.
Lemma indexes_of_snoc ms m kind :
  is_index m = true -> nth_error [Gnu32; CoffSecond] (length (indexes_of ms)) = Some kind ->
  (length (List.filter is_index ms) <= 2)%nat ->
  indexes_of (ms ++ [m]) = (indexes_of ms ++ [(kind, rm_data m)])%list
  /\ (length (List.filter is_index (ms ++ [m])) <= 2)%nat.
Proof.
  intros Hi Hk Hl. unfold indexes_of in *. rewrite List.filter_app. cbn [List.filter]. rewrite Hi, map_app, length_app.
  destruct (List.filter is_index ms) as [|a [|b [|c l]]]; cbn in *; [| | |lia]; simplify_eq; auto.
Qed.
Lemma runtime_read_step bytes ms s s' :
  runtime_read bytes ms s -> runtime_step bytes s = Ok s' -> exists m, runtime_read bytes (ms ++ [m]) s'.
Proof.
  intros [Hl He Ho Hc Hn Hx] (m & s1 & Ha & Hle & Hm & Hs)%runtime_step_Ok. exists m. rewrite Hs.
  pose proof Ha as [Hp _]. destruct m as [p field data]. cbn in Hp. subst p.
  destruct (runtime_member_Ok _ _ _ _ (r_pos s) Hm) as (_ & Hc1 & Ho1 & Hx1).
  cbn [rm_pos rm_field rm_data] in *. set (m := {| rm_pos := r_pos s; rm_field := field; rm_data := data |}) in *.
  split; cbn [runtime_advance r_pos r_objects r_indexes].
  - by eapply layout_snoc.
  - done.
  - rewrite List.filter_app, map_app, <- Ho, Ho1. f_equal. cbn [List.filter]. by destruct (is_object m).
  - intros m' [Hin|[->|[]%elem_of_nil]%elem_of_cons]%elem_of_app Hob; auto.
  - destruct (is_index m) eqn:Ei.
    + destruct Hx1 as (kind & _ & Hk). rewrite Hx in Hk. by apply (indexes_of_snoc ms m kind).
    + rewrite List.filter_app, length_app. cbn [List.filter]. rewrite Ei. cbn. lia.
  - destruct (is_index m) eqn:Ei.
    + destruct Hx1 as (kind & -> & Hk). rewrite Hx in *. symmetry. by apply (indexes_of_snoc ms m kind).
    + rewrite Hx1, Hx. unfold indexes_of. rewrite List.filter_app, map_app. cbn [List.filter]. rewrite Ei.
      cbn [map]. by rewrite app_nil_r.
Qed.

(** C30. A runtime archive that passes the closed check is tiled exactly by its members; it
    has an object, and every offset that a symbol index names is the header of one of its
    objects. Every object is a short import of version 0 (no bigobj) for a supported
    machine that is its two names and nothing else, or a COFF object for a supported machine, with no
    optional header and whose sections, each under the name the eight bytes or the file's
    own string table give it, are not directive or type-input sections in any letter case,
    have no extended relocations and keep contents, relocations and line numbers in the file. *)
Theorem closed_archive_sound bytes :
  validate_closed_windows_runtime_archive bytes = Ok tt ->
  exists ms, layout (runtime_at bytes) 8 ms (slen bytes)
    /\ List.filter is_object ms <> []
    /\ (forall m, m ∈ ms -> is_object m = true -> closed_object (rm_data m))
    /\ (length (List.filter is_index ms) <= 2)%nat
    /\ (forall kind data offset, (kind, data) ∈ indexes_of ms -> index_names kind data offset ->
          exists m, m ∈ ms /\ is_object m = true /\ rm_pos m = offset).
Proof.
  intros (rest & Hrest & (s & Hw & (? & Hne & Hi)%bind_Ok)%bind_Ok)%bind_Ok.
  assert (8 <= slen bytes) as L8.
  { inv_read. apply strip_prefix_Some in Hrest as ->. rewrite slen_app. pose proof (slen_nonneg rest).
    change (slen AR_MAGIC) with 8. lia. }
  eapply (while_inv (fun s => exists ms, runtime_read bytes ms s)) in Hw as [(ms & [Hl He Ho Hc Hn Hx]) Hend].
  2: { exists []. split; [constructor|exact L8|done|by intros m ?%elem_of_nil|cbn; lia|done]. }
  2: { intros s0 s' (ms & Hr) _ Hs. destruct (runtime_read_step _ _ _ _ Hr Hs) as (m & Hm). eauto. }
  exists ms. apply Z.ltb_ge in Hend. assert (r_pos s = slen bytes) as E by lia. rewrite E in Hl.
  inv_read. apply negb_true_iff, bool_decide_eq_false in Hne.
  split; [done|]. split; [intros Hf; apply Hne; by rewrite Ho, Hf|]. split; [done|]. split; [done|].
  intros kind data offset Hk Hin. rewrite <- Hx in Hk. eapply try_fold_unit in Hi; [|exact Hk].
  eapply validate_runtime_archive_index_Ok in Hi; [|exact Hin]. rewrite Ho in Hi.
  apply list_elem_of_fmap in Hi as (m & -> & Hm). apply list_elem_of_In, List.filter_In in Hm as [Hm Hb].
  exists m. split; [by apply list_elem_of_In|done].
Qed.
End Closed.
