(* ===== verification/ArchiveWitness.v ===== *)
(** * Concrete archives and objects

    The smallest ELF, Mach-O and COFF objects the gates accept, archives of them, and
    the theorems about archives applied to these. *)

From S2P Require Import Prelude Strings Codec Bytes ObjectGates GateSound Archive ArchiveIdentity ClosedArchive.
#[local] Open Scope string_scope.
#[local] Open Scope Z_scope.
#[local] Instance demo_width : Usize := usize64.

Fixpoint fill (c : ascii) (n : nat) : string := match n with O => "" | S n => String c (fill c n) end.
Definition nuls (n : nat) : string := fill "000" n.
Definition u16le (z : Z) : string := to_le_bytes 2 z.
Definition u32le (z : Z) : string := to_le_bytes 4 z.
Definition u64le (z : Z) : string := to_le_bytes 8 z.
Definition pad (n : nat) (s : string) : string := s ++ fill " " (n - String.length s).
Definition fixed (s : string) : string := s ++ nuls (16 - String.length s).
(** A member with its header. *)
Definition member (name uid data : string) : string :=
  pad 16 name ++ pad 12 "0" ++ pad 6 uid ++ pad 6 "0" ++ pad 8 "644" ++ pad 10 (fmt_dec (slen data)) ++ HEADER_END
  ++ data ++ (if Z.land (slen data) 1 =? 0 then "" else String newline "").

(** ** ELF *)

Definition demo_elf : string :=
  String "127" "ELF" ++ String "002" (String "001" (String "001" "")) ++ nuls 9
  ++ u16le 1 ++ u16le 62 ++ u32le 1 ++ nuls 16 ++ u64le 64 ++ u32le 0 ++ u16le 64 ++ nuls 4 ++ u16le 64 ++ u16le 2 ++ u16le 1
  ++ nuls 64
  ++ u32le 1 ++ u32le 3 ++ nuls 16 ++ u64le 192 ++ u64le 11 ++ nuls 24
  ++ nuls 1 ++ ".shstrtab" ++ nuls 1.
Lemma demo_elf_accepted : is_known_elf_relocatable_object demo_elf = Ok true.
Proof. vm_compute. reflexivity. Qed.
Lemma elf_gate_sound_witness :
  exists e class l names,
    byte_value demo_elf 5 = Ok (match e with Little => 1 | Big => 2 end) /\ byte_value demo_elf 4 = Ok class
    /\ endian_u16 e demo_elf 16 = Ok 1 /\ elf_layout demo_elf e class = Ok l /\ 0 < el_section_count l
    /\ elf_names demo_elf e class l names
    /\ forall i, 0 <= i < el_section_count l ->
       exists header, elf_section demo_elf l i = Ok header /\ plain_section demo_elf names e class header.
Proof. exact (elf_gate_sound demo_elf demo_elf_accepted). Defined.

(** ** Mach-O *)

(** A DWARF section without contents, and one symbol. *)
Definition demo_macho : string :=
  MAGIC_64_LE ++ u32le 0x01000007 ++ u32le 3 ++ u32le 1 ++ u32le 2 ++ u32le 176 ++ nuls 8
  ++ u32le LC_SEGMENT_64 ++ u32le 152 ++ nuls 16 ++ nuls 32 ++ nuls 8 ++ u32le 1 ++ nuls 4
  ++ fixed "__debug_info" ++ fixed "__DWARF" ++ nuls 32 ++ u32le S_ATTR_DEBUG ++ nuls 12
  ++ u32le LC_SYMTAB ++ u32le 24 ++ u32le 208 ++ u32le 1 ++ u32le 224 ++ u32le 4
  ++ u32le 1 ++ String "001" "" ++ nuls 11
  ++ nuls 1 ++ "f" ++ nuls 2.
Lemma demo_macho_accepted : parse_known_no_debug_macho_object demo_macho = Ok true.
Proof. vm_compute. reflexivity. Qed.
Lemma macho_gate_sound_witness :
  exists e (is_64 : bool) cmds end_ t,
    (magic ← slice demo_macho 0 4; macho_shape magic) = Some (e, is_64)
    /\ usize_u32 e demo_macho 16 = Ok (Z.of_nat (length cmds))
    /\ usize_u32 e demo_macho 20 = Ok (end_ - (if is_64 then 32 else 28))
    /\ layout (command_at demo_macho e) (if is_64 then 32 else 28) cmds end_
    /\ (forall c, c ∈ cmds -> is_segment c.1 = true -> exists d, sections_ok e is_64 c.2 d)
    /\ (true = true <-> exists c, c ∈ cmds /\ is_segment c.1 = true /\ sections_ok e is_64 c.2 true)
    /\ (exists c, c ∈ cmds /\ c.1 = LC_SYMTAB /\ symtab_of e c.2 t)
    /\ forall i, 0 <= i < ms_nsyms t -> exists type, symbol_type demo_macho is_64 t i = Ok type /\ Z.land type N_STAB = 0.
Proof. exact (macho_gate_sound demo_macho true demo_macho_accepted). Defined.

(** ** Identities *)

(** Two archives of the same members that other users made. *)
Definition demo_archive (uid : string) : string := AR_MAGIC ++ member "a.o/" uid demo_elf ++ member "b.o/" uid demo_macho.
Definition demo_id (uid : string) : result ReadError ArchiveIdentity :=
  portable_static_archive_identity toy_hex (demo_archive uid).
Definition demo_identity_0 : ArchiveIdentity := Eval vm_compute in
  match demo_id "0" with Ok i => i | Err _ => {| digest := ""; macho_dwarf_members := false |} end.
Lemma demo_archive_0 : portable_static_archive_identity toy_hex (demo_archive "0") = Ok demo_identity_0.
Proof. vm_compute. reflexivity. Qed.
Lemma demo_archive_1 : portable_static_archive_identity toy_hex (demo_archive "501") = Ok demo_identity_0.
Proof. vm_compute. reflexivity. Qed.
Lemma demo_archives_hash_alike : hashed_bytes (demo_archive "0") = hashed_bytes (demo_archive "501").
Proof. vm_compute. reflexivity. Qed.
Lemma archive_identity_exact_witness :
  (digest demo_identity_0 = digest demo_identity_0 <->
   exists a, reads_as (demo_archive "0") a /\ reads_as (demo_archive "501") a)
  /\ (digest demo_identity_0 = digest demo_identity_0 ->
      macho_dwarf_members demo_identity_0 = macho_dwarf_members demo_identity_0).
Proof.
  exact (archive_identity_exact toy_hex (demo_archive "0") (demo_archive "501") demo_identity_0 demo_identity_0
           demo_archive_0 demo_archive_1 (fun _ => demo_archives_hash_alike)).
Defined.

(** ** Closed archives *)

Definition demo_coff : string :=
  u16le 0x8664 ++ u16le 1 ++ nuls 16
  ++ ".text" ++ nuls 3 ++ nuls 32.
Definition demo_index : string := reverse_bytes (u32le 1) ++ reverse_bytes (u32le 78) ++ "f" ++ nuls 1.
Definition demo_runtime : string := AR_MAGIC ++ member "/" "0" demo_index ++ member "a.obj/" "0" demo_coff.
Lemma demo_runtime_closed : validate_closed_windows_runtime_archive demo_runtime = Ok tt.
Proof. vm_compute. reflexivity. Qed.
Lemma closed_archive_sound_witness :
  exists ms, layout (runtime_at demo_runtime) 8 ms (slen demo_runtime)
    /\ List.filter is_object ms <> []
    /\ (forall m, m ∈ ms -> is_object m = true -> closed_object (rm_data m))
    /\ (length (List.filter is_index ms) <= 2)%nat
    /\ (forall kind data offset, (kind, data) ∈ indexes_of ms -> index_names kind data offset ->
          exists m, m ∈ ms /\ is_object m = true /\ rm_pos m = offset).
Proof. exact (closed_archive_sound demo_runtime demo_runtime_closed). Defined.
