(* ===== verification/Remote.v ===== *)
(** * The remote: who may write, and the object transport

    [crates/kache-config/src/policy.rs] (CI policy), the prefix functions of
    [crates/kache-config/src/config.rs], and [src/remote_backend.rs]: the
    [RemoteBackend] trait as a class, its implementation over an OpenDAL operator,
    and the wrapper a pull request job gets.  A backend works on a world of type
    [W]; an operation that can change the remote returns the new world.  The
    operator itself ([opendal::Operator]) is third-party code: a record of
    functions.  Timings and log messages are left out. *)

From S2P Require Import Prelude Strings Format StorePolicy.
#[local] Open Scope string_scope.
#[local] Open Scope Z_scope.

(** ** Remote prefixes ([config.rs]) *)

Inductive TransportError :=
| PrefixBackslash
| PrefixDots
| NestedPrefix
| NonCanonicalKey (operation key : string)
| OutsideRoot (key : string)
| TooLarge (key : string)
| LengthOverflow
| Truncated (key : string)
| ListTimeout
| ListDuplicate (path : string)
| ListLimits
| Transport (operation key : string).
Abbreviation rres := (result TransportError).


(** [normalize_remote_prefix] *)
Definition normalize_remote_prefix (prefix : string) : rres string :=
  let trimmed := trim prefix in
  ensure (negb (contains_byte backslash trimmed)) PrefixBackslash;;
  segments ← try_fold (fun segments segment =>
      if String.eqb segment "" then Ok segments
      else if String.eqb segment "." || String.eqb segment ".." then Err PrefixDots
      else Ok (segments ++ [segment])%list)
    [] (split_on slash trimmed);
  Ok (join_with "/" segments).


(** The closure [nested] of [pull_request_prefix_for]. *)
Definition nested (outer inner : string) : bool :=
  String.eqb outer "" || String.eqb inner outer || starts_with (outer ++ "/") inner.
(** [pull_request_prefix_for] *)
Definition pull_request_prefix_for (base configured : string) : rres (option string) :=
  let configured := trim configured in
  if String.eqb configured "" then Ok None else
  prefix ← normalize_remote_prefix configured;
  ensure (negb (String.eqb prefix "") && negb (nested base prefix) && negb (nested prefix base))
    NestedPrefix;;
  Ok (Some prefix).

(** ** Who may write ([policy.rs]) *)

Section Policy.
Context (get_env : string -> option string).

(** [env_truthy] *)
Definition env_truthy (value : option string) : bool :=
  match value with
  | Some value =>
      let value := to_ascii_lowercase value in
      String.eqb value "1" || String.eqb value "true" || String.eqb value "yes"
  | None => false
  end.
(** [display_env] *)
Definition display_env (value : option string) : string :=
  match value with
  | Some value => if String.eqb value "" then "unknown" else value
  | None => "unknown"
  end.
Definition env_is (value : option string) (expected : string) : bool := bool_decide (value = Some expected).
(** [value.is_none_or(|value| value.is_empty())] *)
Definition none_or_empty (value : option string) : bool :=
  match value with Some value => String.eqb value "" | None => true end.

(** [is_trusted_github_writer] *)
Definition is_trusted_github_writer : bool :=
  env_is (get_env "GITHUB_EVENT_NAME") "push"
  && env_is (get_env "GITHUB_REF_TYPE") "branch"
  && env_truthy (get_env "GITHUB_REF_PROTECTED").
(** [is_trusted_gitlab_writer] *)
Definition is_trusted_gitlab_writer : bool :=
  env_is (get_env "CI_PIPELINE_SOURCE") "push"
  && none_or_empty (get_env "CI_COMMIT_TAG")
  && none_or_empty (get_env "CI_MERGE_REQUEST_IID")
  && env_truthy (get_env "CI_COMMIT_REF_PROTECTED").
(** [github_forced_readonly]; the value is the reason. *)
Definition github_forced_readonly : option string :=
  if is_trusted_github_writer then None else
  let event := display_env (get_env "GITHUB_EVENT_NAME") in
  let ref_type := display_env (get_env "GITHUB_REF_TYPE") in
  Some ("GitHub Actions " ++ event ++ " (" ++ ref_type ++ ") is not a protected-branch push").
(** [gitlab_forced_readonly] *)
Definition gitlab_forced_readonly : option string :=
  if is_trusted_gitlab_writer then None else
  Some ("GitLab CI " ++ display_env (get_env "CI_PIPELINE_SOURCE")
        ++ " is not a protected-branch push").
(** [forced_remote_readonly_with] *)
Definition forced_remote_readonly_with : option string :=
  if env_truthy (get_env "GITHUB_ACTIONS") then github_forced_readonly
  else if env_truthy (get_env "GITLAB_CI") then gitlab_forced_readonly
  else None.
(** [pull_request_job_with] *)
Definition pull_request_job_with : bool :=
  if env_truthy (get_env "GITHUB_ACTIONS") then
    env_is (get_env "GITHUB_EVENT_NAME") "pull_request"
  else if env_truthy (get_env "GITLAB_CI") then
    env_is (get_env "CI_PIPELINE_SOURCE") "merge_request_event"
  else false.
(** [running_in_ci_with] *)
Definition running_in_ci_with : bool :=
  existsb (fun name => env_truthy (get_env name)) ["GITHUB_ACTIONS"; "GITLAB_CI"; "CI"].

(** What [Config::load] settles about writing to the remote: [enabled] is the
    configured [remote_readonly], [remote] the remote's prefix and whether it is
    an OCI registry, [configured] the pull request prefix of the environment or
    the file. *)
Record RemoteAccess := { remote_readonly : bool; pull_request_prefix : option string }.
Definition remote_access (enabled : bool) (remote : option (string * bool)) (configured : option string)
    : RemoteAccess :=
  let readonly := enabled || if forced_remote_readonly_with is Some _ then true else false in
  let pull_request :=
    if pull_request_job_with then
      '(prefix, oci) ← remote;
      if oci : bool then None else
      configured ← configured;
      match pull_request_prefix_for prefix configured with
      | Ok prefix => prefix
      | Err _ => None
      end
    else None in
  {| remote_readonly := if pull_request is Some _ then if enabled then readonly else false else readonly;
     pull_request_prefix := pull_request |}.
End Policy.

(** ** The transport interface ([trait RemoteBackend]) *)

Inductive PutIfAbsentResult := Created | AlreadyExists | CreateUnsupported.
Inductive ConditionalPut := Stored | Conflict | ReplaceUnsupported.

Class RemoteBackend (W : Type) := {
  b_head : W -> string -> rres bool;
  b_get : W -> string -> option Z -> rres (option string);
  (** The sink before and after, and the number of bytes delivered. *)
  b_get_into : W -> string -> option Z -> string -> string * rres (option Z);
  b_get_versioned : W -> string -> option Z -> rres (option (string * option string));
  b_put_if_match : W -> string -> string -> option string -> W * rres ConditionalPut;
  b_put : W -> string -> string -> W * rres unit;
  b_put_if_absent : W -> string -> string -> W * rres PutIfAbsentResult;
  b_list : W -> string -> rres (list string);
}.

(** ** The OpenDAL backend *)

Inductive ErrorKind :=
| EkNotFound | EkPermissionDenied | EkUnsupported | EkConditionNotMatch | EkAlreadyExists
| EkConflict | EkUnexpected | EkOther.
#[export] Instance ErrorKind_eq_dec : EqDecision ErrorKind.
Proof. solve_decision. Defined.
(** [opendal::Error]: its kind, [message()] and rendering. *)
Record OpError := { oe_kind : ErrorKind; oe_message : string; oe_display : string }.
Abbreviation ores := (result OpError).

Inductive WriteCondition := Always | IfNotExists | IfMatch (tag : string).
(** What one read of an object meets, in order: opening the reader and the
    stream, the stream's metadata (length and tag), a [stat] for transports that
    have none, and the chunks. *)
Record Reading := {
  rd_open : ores unit;
  rd_metadata : ores (Z * option string);
  rd_stat : ores Z;
  rd_chunks : list (ores string);
}.
(** One answer of the lister: an entry and whether it is a file, an error, or no
    answer in time. *)
Inductive Listed := ListedEntry (path : string) (is_file : bool) | ListedError (e : OpError) | ListedLate.

Record Operator (W : Type) := {
  op_stat : W -> string -> ores bool;
  op_read : W -> string -> Reading;
  op_write : W -> string -> string -> WriteCondition -> W * ores unit;
  op_list : W -> string -> list Listed;
  write_with_if_not_exists : bool;
  write_with_if_match : bool;
}.
Arguments op_stat {W}. Arguments op_read {W}. Arguments op_write {W}. Arguments op_list {W}.
Arguments write_with_if_not_exists {W}. Arguments write_with_if_match {W}.

Definition LIST_MAX_ENTRIES : Z := 1000000.
Definition LIST_MAX_KEY_BYTES : Z := 256 * 1024 * 1024.

Definition in_quotes (s : string) : string := String dquote (s ++ String dquote "").

(** [lacks_conditional_writes] *)
Definition lacks_conditional_writes (e : OpError) : bool :=
  contains (in_quotes "NotImplemented") (oe_message e) || contains "status: 501" (oe_display e).
(** [credentials_rejected] *)
Definition credentials_rejected (e : OpError) : bool :=
  existsb (fun code => contains (in_quotes code) (oe_message e))
    ["InvalidAccessKeyId"; "SignatureDoesNotMatch"; "ExpiredToken"; "InvalidToken";
     "TokenRefreshRequired"; "RequestTimeTooSkewed"; "InvalidSecurity"].
(** [classify_create_error] *)
Definition classify_create_error (e : OpError) : option PutIfAbsentResult :=
  match oe_kind e with
  | EkConditionNotMatch | EkAlreadyExists | EkConflict => Some AlreadyExists
  | EkUnsupported => Some CreateUnsupported
  | EkUnexpected => if lacks_conditional_writes e then Some CreateUnsupported else None
  | _ => None
  end.
(** [classify_conditional_error] *)
Definition classify_conditional_error (e : OpError) (replacing : bool) : option ConditionalPut :=
  match oe_kind e with
  | EkConditionNotMatch | EkAlreadyExists | EkConflict => Some Conflict
  | EkNotFound => if replacing then Some Conflict else None
  | EkUnsupported => Some ReplaceUnsupported
  | EkUnexpected => if lacks_conditional_writes e then Some ReplaceUnsupported else None
  | _ => None
  end.
(** [verify_complete_body] *)
Definition verify_complete_body (key : string) (advertised : option Z) (read : Z) : rres unit :=
  match advertised with
  | Some advertised => ensure (read =? advertised) (Truncated key)
  | None => Ok tt
  end.

Section OpenDal.
Context {W : Type} (operator : Operator W).
(** [filesystem]: the backend writes real paths; [contained w key] is the
    outcome of resolving the path's nearest existing ancestor against the root. *)
Context (filesystem : bool) (contained : W -> string -> bool) (refusal_may_be_absence : bool).

(** [refusal_means_absent] *)
Definition refusal_means_absent (e : OpError) : bool :=
  negb (filesystem || negb refusal_may_be_absence
        || negb (bool_decide (oe_kind e = EkPermissionDenied)) || credentials_rejected e).

(** [verify_write_containment] *)
Definition verify_write_containment (w : W) (key : string) : rres unit :=
  if filesystem then ensure (contained w key) (OutsideRoot key) else Ok tt.

(** [validate_key] *)
Definition validate_key (operation key : string) (list_prefix : bool) : rres unit :=
  let original := key in
  let key :=
    if list_prefix && negb (String.eqb key "")
    then match strip_suffix "/" key with Some key => key | None => key end
    else key in
  let valid_empty := list_prefix && String.eqb original "" in
  let canonical := valid_empty
    || (negb (String.eqb key "")
        && negb (starts_with "/" original)
        && negb (contains_byte backslash key)
        && negb (existsb (fun c => is_control c.1) (chars key))
        && negb (filesystem && contains_byte ":" key)
        && negb (filesystem && existsb (fun segment => ends_with "." segment || ends_with " " segment)
                                 (split_on slash key))
        && forallb (fun segment => negb (String.eqb segment "") && negb (String.eqb segment ".")
                                   && negb (String.eqb segment ".."))
             (split_on slash key)) in
  ensure canonical (NonCanonicalKey operation original).

(** The body loop of [read_into]: bytes already read, and the sink. *)
Fixpoint read_body (key : string) (max_bytes : option Z) (chunks : list (ores string))
    (length : Z) (destination : string) : string * rres (option Z) :=
  match chunks with
  | [] => (destination, Ok (Some length))
  | Err e :: _ =>
      if bool_decide (oe_kind e = EkNotFound) && (length =? 0) then (destination, Ok None)
      else (destination, Err (Transport "reading body of" key))
  | Ok chunk :: chunks =>
      match checked_add u64_max length (slen chunk) with
      | None => (destination, Err LengthOverflow)
      | Some length =>
          if (match max_bytes with Some max => max <? length | None => false end) : bool
          then (destination, Err (TooLarge key))
          else read_body key max_bytes chunks length (destination ++ chunk)
      end
  end.
(** The advertised length and the tag, or an absent object. *)
Definition read_advertised (key : string) (r : Reading) : rres (option (option Z * option string)) :=
  match rd_metadata r with
  | Ok (length, etag) => Ok (Some (Some length, etag))
  | Err e =>
      if bool_decide (oe_kind e = EkNotFound) then Ok None
      else if refusal_means_absent e then Ok None
      else if bool_decide (oe_kind e = EkUnsupported) then
        match rd_stat r with
        | Ok length => Ok (Some (Some length, None))
        | Err e =>
            if bool_decide (oe_kind e = EkNotFound) then Ok None else Err (Transport "STAT" key)
        end
      else Err (Transport "GET" key)
  end.
(** [read_into], into a sink that accepts every write. *)
Definition read_into (w : W) (key : string) (max_bytes : option Z) (destination : string)
    : string * rres (option (Z * option string)) :=
  let r := op_read operator w key in
  match (validate_key "GET" key false;;
         match rd_open r with
         | Ok _ => read_advertised key r
         | Err _ => Err (Transport "GET" key)
         end) with
  | Err e => (destination, Err e)
  | Ok None => (destination, Ok None)
  | Ok (Some (advertised, etag)) =>
      if (match max_bytes, advertised with Some max, Some length => max <? length | _, _ => false end) : bool
      then (destination, Err (TooLarge key))
      else
        match read_body key max_bytes (rd_chunks r) 0 destination with
        | (destination, Err e) => (destination, Err e)
        | (destination, Ok None) => (destination, Ok None)
        | (destination, Ok (Some length)) =>
            match verify_complete_body key advertised length with
            | Err e => (destination, Err e)
            | Ok _ => (destination, Ok (Some (length, etag)))
            end
        end
  end.

Definition opendal_get_versioned (w : W) (key : string) (max_bytes : option Z)
    : rres (option (string * option string)) :=
  validate_key "GET" key false;;
  match read_into w key max_bytes "" with
  | (_, Err e) => Err e
  | (_, Ok None) => Ok None
  | (body, Ok (Some (_, etag))) => Ok (Some (body, etag))
  end.
Definition opendal_head (w : W) (key : string) : rres bool :=
  validate_key "HEAD" key false;;
  match op_stat operator w key with
  | Ok is_file => Ok is_file
  | Err e =>
      if bool_decide (oe_kind e = EkNotFound) || refusal_means_absent e then Ok false
      else Err (Transport "HEAD" key)
  end.
(** The guard of every write. *)
Definition may_write (operation : string) (w : W) (key : string) : rres unit :=
  validate_key operation key false;;
  verify_write_containment w key.
Definition opendal_put_if_match (w : W) (key body : string) (expected : option string)
    : W * rres ConditionalPut :=
  match may_write "PUT" w key with
  | Err e => (w, Err e)
  | Ok _ =>
      let supported := match expected with
        | Some _ => write_with_if_match operator
        | None => write_with_if_not_exists operator
        end in
      if negb supported then (w, Ok ReplaceUnsupported) else
      let condition := match expected with Some tag => IfMatch tag | None => IfNotExists end in
      match op_write operator w key body condition with
      | (w, Ok _) => (w, Ok Stored)
      | (w, Err e) =>
          (w, match classify_conditional_error e (if expected is Some _ then true else false) with
              | Some outcome => Ok outcome
              | None => Err (Transport "PUT" key)
              end)
      end
  end.
Definition opendal_put (w : W) (key body : string) : W * rres unit :=
  match may_write "PUT" w key with
  | Err e => (w, Err e)
  | Ok _ =>
      match op_write operator w key body Always with
      | (w, Ok _) => (w, Ok tt)
      | (w, Err _) => (w, Err (Transport "PUT" key))
      end
  end.
Definition opendal_put_if_absent (w : W) (key body : string) : W * rres PutIfAbsentResult :=
  match may_write "CREATE" w key with
  | Err e => (w, Err e)
  | Ok _ =>
      if negb (write_with_if_not_exists operator) then (w, Ok CreateUnsupported) else
      match op_write operator w key body IfNotExists with
      | (w, Ok _) => (w, Ok Created)
      | (w, Err e) =>
          (w, match classify_create_error e with
              | Some outcome => Ok outcome
              | None => Err (Transport "CREATE" key)
              end)
      end
  end.

(** The loop of [list]: what was seen, its weight, and the files so far. *)
Record Listing := { ls_seen : list string; ls_key_bytes : Z; ls_entries : list string }.
Fixpoint list_loop (prefix : string) (ls : Listing) (answers : list Listed) : rres (list string) :=
  match answers with
  | [] => Ok (ls_entries ls)
  | ListedLate :: _ => Err ListTimeout
  | ListedError e :: _ =>
      if bool_decide (oe_kind e = EkNotFound) then Ok [] else Err (Transport "LIST" prefix)
  | ListedEntry path is_file :: answers =>
      if bool_decide (path ∈ ls_seen ls) then Err (ListDuplicate path) else
      let seen := path :: ls_seen ls in
      let key_bytes := saturating_add u64_max (ls_key_bytes ls) (slen path * 2) in
      if (LIST_MAX_ENTRIES <? Z.of_nat (length seen)) || (LIST_MAX_KEY_BYTES <? key_bytes)
      then Err ListLimits
      else list_loop prefix
             {| ls_seen := seen; ls_key_bytes := key_bytes;
                ls_entries := if is_file then (ls_entries ls ++ [path])%list else ls_entries ls |}
             answers
  end.
Definition opendal_list (w : W) (prefix : string) : rres (list string) :=
  validate_key "LIST" prefix true;;
  list_loop prefix {| ls_seen := []; ls_key_bytes := 0; ls_entries := [] |} (op_list operator w prefix).

#[export] Instance opendal_backend : RemoteBackend W := {|
  b_head := opendal_head;
  b_get w key max_bytes :=
    (validate_key "GET" key false;;
     match read_into w key max_bytes "" with
     | (_, Err e) => Err e
     | (_, Ok None) => Ok None
     | (body, Ok (Some _)) => Ok (Some body)
     end);
  b_get_into w key max_bytes destination :=
    match read_into w key max_bytes destination with
    | (destination, Err e) => (destination, Err e)
    | (destination, Ok None) => (destination, Ok None)
    | (destination, Ok (Some (length, _))) => (destination, Ok (Some length))
    end;
  b_get_versioned := opendal_get_versioned;
  b_put_if_match := opendal_put_if_match;
  b_put := opendal_put;
  b_put_if_absent := opendal_put_if_absent;
  b_list := opendal_list;
|}.
End OpenDal.

(** ** The pull request view ([PullRequestBackend]) *)

Section PullRequest.
Context {W : Type} (inner : RemoteBackend W) (base pull_request : string).

Definition moved (from to key : string) : string :=
  let rest := match strip_prefix from key with
    | Some rest => match strip_prefix "/" rest with Some rest => rest | None => key end
    | None => key
    end in
  join_remote_key to rest.
(** [pull_request_key] and [base_key] *)
Definition pull_request_key (key : string) : string := moved base pull_request key.
Definition base_key (key : string) : string := moved pull_request base key.

Definition pull_request_head (w : W) (key : string) : rres bool :=
  found ← b_head w key;
  if found : bool then Ok true else b_head w (pull_request_key key).
Definition pull_request_get (w : W) (key : string) (max_bytes : option Z) : rres (option string) :=
  object ← b_get w key max_bytes;
  match object with
  | Some object => Ok (Some object)
  | None => b_get w (pull_request_key key) max_bytes
  end.
Definition pull_request_get_into (w : W) (key : string) (max_bytes : option Z) (destination : string)
    : string * rres (option Z) :=
  match b_get_into w key max_bytes destination with
  | (destination, Err e) => (destination, Err e)
  | (destination, Ok (Some transfer)) => (destination, Ok (Some transfer))
  | (destination, Ok None) => b_get_into w (pull_request_key key) max_bytes destination
  end.
Definition pull_request_list (w : W) (prefix : string) : rres (list string) :=
  keys ← b_list w prefix;
  pull_request ← b_list w (pull_request_key prefix);
  Ok (dedup (sort_by String.leb (keys ++ map base_key pull_request)%list)).

Definition pull_request_backend : RemoteBackend W := {|
  b_head := pull_request_head;
  b_get := pull_request_get;
  b_get_into := pull_request_get_into;
  b_get_versioned w key max_bytes := b_get_versioned w (pull_request_key key) max_bytes;
  b_put_if_match w key body expected := b_put_if_match w (pull_request_key key) body expected;
  b_put w key body := b_put w (pull_request_key key) body;
  b_put_if_absent w key body := b_put_if_absent w (pull_request_key key) body;
  b_list := pull_request_list;
|}.
End PullRequest.

(** [create_backend_for] *)
Definition create_backend_for {W} (backend : RemoteBackend W) (prefix : string)
    (pull_request_prefix : option string) : RemoteBackend W :=
  match pull_request_prefix with
  | Some pull_request => pull_request_backend backend prefix pull_request
  | None => backend
  end.
