(* ===== verification/RemoteLayout.v ===== *)
(** * Entries on the remote

    [src/remote_layout.rs]: the object keys of an entry, uploading it as a pack
    and a manifest that are never rewritten, listing what the remote holds, and
    the extraction of a downloaded pack behind its integrity gate.

    The zstd and tar readers are third-party: an archive is the list of what the
    tar iterator yields.  A directory below the extraction root is a tree from
    the path's names to a directory or a file's bytes, on a case-sensitive
    file system.  Clock readings are arguments, one per check of the deadline. *)

From S2P Require Import Prelude Strings Codec Format StoreIndex Store Remote.
#[local] Open Scope string_scope.
#[local] Open Scope Z_scope.

Definition V3_ROOT : string := "v3".
Definition V3_MANIFESTS : string := "manifests".
Definition V3_PACKS : string := "packs".
Definition V3_PREDICTIONS : string := "predictions".
Definition V3_MANIFEST_VERSION : Z := 3.
Definition MAX_EXTRACTED_BYTES : Z := 8 * 1024 * 1024 * 1024.
Definition MAX_COMPRESSED_BYTES : Z := 8 * 1024 * 1024 * 1024.

(** ** Object keys *)

(** [v3_manifest_key], [v3_pack_key] *)
Definition v3_manifest_key (prefix cache_key crate_name : string) : string :=
  join_remote_key prefix
    (V3_ROOT ++ "/" ++ V3_MANIFESTS ++ "/" ++ crate_name ++ "/" ++ cache_key ++ ".json").
Definition v3_pack_key (prefix cache_key crate_name : string) : string :=
  join_remote_key prefix
    (V3_ROOT ++ "/" ++ V3_PACKS ++ "/" ++ crate_name ++ "/" ++ cache_key ++ ".tar.zst").


(** The closure of [list_keys_observed]. *)
Definition parse_manifest_key (manifest_prefix key : string) : option (string * string) :=
  stripped ← strip_prefix manifest_prefix key;
  without_ext ← strip_suffix ".json" stripped;
  '(crate_name, cache_key) ← rsplit_once slash without_ext;
  if is_valid_cache_key cache_key && is_valid_crate_name crate_name
  then Some (cache_key, crate_name) else None.
(** The closure of [list_keys_for_crates_observed]. *)
Definition parse_crate_manifest_key (manifest_prefix crate_name key : string) : option (string * string) :=
  stripped ← strip_prefix manifest_prefix key;
  cache_key ← strip_suffix ".json" stripped;
  if is_valid_cache_key cache_key then Some (cache_key, crate_name) else None.
(** [Iterator::collect] into a [HashMap], and [HashMap::extend]. *)
Definition extend_keys (m : gmap string string) (l : list (string * string)) : gmap string string :=
  fold_left (fun m p => <[p.1 := p.2]> m) l m.

(** ** Uploading and listing *)

Record V3Manifest := {
  vm_version : Z;
  vm_cache_key : string;
  vm_crate_name : string;
  vm_pack_key : string;
  vm_pack_bytes : Z;
  vm_original_bytes : Z;
  vm_file_count : Z;
}.

Inductive LayoutError :=
| DeadlineElapsed (stage : string)
| UploadMetaUnreadable
| UploadMetaUnparseable
| PackInputMissing (name : string)
| EntryNotFound
| RemoteFailed (e : TransportError).
Abbreviation lres := (result LayoutError).
Definition remote_failed {A} (r : rres A) : lres A :=
  match r with Ok a => Ok a | Err e => Err (RemoteFailed e) end.

(** [deadline_io_check] *)
Definition elapsed (deadline : option Z) (now : Z) : bool :=
  match deadline with Some at_ => at_ <=? now | None => false end.
Definition deadline_io_check (deadline : option Z) (now : Z) (stage : string) : lres unit :=
  ensure (negb (elapsed deadline now)) (DeadlineElapsed stage).

Section Layout.
Context {W : Type} `{backend : RemoteBackend W} (prefix : string).

(** [exists_entry] *)
Definition exists_entry (w : W) (cache_key crate_name : string) : rres bool :=
  b_head w (v3_manifest_key prefix cache_key crate_name).

(** [put_immutable] *)
Definition put_immutable (w : W) (key body : string) : W * rres unit :=
  match b_put_if_absent w key body with
  | (w, Ok Created) | (w, Ok AlreadyExists) => (w, Ok tt)
  | (w, Ok CreateUnsupported) => b_put w key body
  | (w, Err e) => (w, Err e)
  end.

(** [list_keys_observed] *)
Definition list_keys (w : W) : rres (gmap string string) :=
  let manifest_prefix := join_remote_key prefix (V3_ROOT ++ "/" ++ V3_MANIFESTS ++ "/") in
  objects ← b_list w manifest_prefix;
  Ok (extend_keys ∅ (omap (parse_manifest_key manifest_prefix) objects)).
(** [list_keys_for_crates_observed] *)
Definition list_keys_for_crates (w : W) (crate_names : list string) : rres (gmap string string) :=
  try_fold (fun keys crate_name =>
      let manifest_prefix :=
        join_remote_key prefix (V3_ROOT ++ "/" ++ V3_MANIFESTS ++ "/" ++ crate_name ++ "/") in
      objects ← b_list w manifest_prefix;
      Ok (extend_keys keys (omap (parse_crate_manifest_key manifest_prefix crate_name) objects)))
    ∅ crate_names.

(** [create_entry_pack_zstd_until]: what is handed to the tar builder, and
    [pack] its compressed archive. *)
Context (pack : list (string * string) -> string) `{!JsonCodec EntryMeta} `{!RustValue V3Manifest}
  `{!JsonCodec V3Manifest}.
Definition pack_members (st : Store) (key : string) (meta : EntryMeta) : lres (list (string * string)) :=
  content ← with_context (read_meta st key) (PackInputMissing "meta.json");
  try_fold (fun members f =>
      bytes ← with_context (blob_files st !! hash f) (PackInputMissing (name f));
      Ok (members ++ [(name f, bytes)])%list)
    [("meta.json", content)] (files meta).

(** [upload_entry_until]; the clock is read before packing, after it, after the
    pack was put and after the manifest was put. *)
Record UploadClock := { uc_start : Z; uc_packed : Z; uc_pack_put : Z; uc_manifest_put : Z }.
Definition prepare_upload (deadline : option Z) (clock : UploadClock) (st : Store)
    (cache_key crate_name : string) : lres (string * string) :=
  deadline_io_check deadline (uc_start clock) "upload preparation";;
  meta_content ← with_context (read_meta st cache_key) UploadMetaUnreadable;
  ensure (valid_utf8 meta_content) UploadMetaUnreadable;;
  meta ← with_context (from_slice meta_content) UploadMetaUnparseable;
  members ← pack_members st cache_key meta;
  deadline_io_check deadline (uc_packed clock) "upload compression";;
  let packed := pack members in
  let manifest := {|
    vm_version := V3_MANIFEST_VERSION; vm_cache_key := cache_key; vm_crate_name := crate_name;
    vm_pack_key := v3_pack_key prefix cache_key crate_name; vm_pack_bytes := slen packed;
    vm_original_bytes := as_u64 (sum_sizes (files meta) + slen meta_content);
    vm_file_count := Z.of_nat (length (files meta)) |} in
  Ok (packed, to_vec manifest).
Definition upload_entry (deadline : option Z) (clock : UploadClock) (st : Store) (w : W)
    (cache_key crate_name : string) : W * lres unit :=
  match prepare_upload deadline clock st cache_key crate_name with
  | Err e => (w, Err e)
  | Ok (packed, manifest_body) =>
      match put_immutable w (v3_pack_key prefix cache_key crate_name) packed with
      | (w, Err e) => (w, Err (RemoteFailed e))
      | (w, Ok _) =>
          match deadline_io_check deadline (uc_pack_put clock) "pack PUT" with
          | Err e => (w, Err e)
          | Ok _ =>
              match put_immutable w (v3_manifest_key prefix cache_key crate_name) manifest_body with
              | (w, Err e) => (w, Err (RemoteFailed e))
              | (w, Ok _) => (w, deadline_io_check deadline (uc_manifest_put clock) "manifest PUT")
              end
          end
      end
  end.
End Layout.

(** ** Extraction *)

(** [tar::EntryType] as the code distinguishes it, and one entry of the
    iterator; [te_broken]: reading or writing the body fails part way. *)
Inductive EntryType := TarRegular | TarSymlink | TarHardLink | TarDirectory | TarOther.
#[export] Instance EntryType_eq_dec : EqDecision EntryType.
Proof. solve_decision. Defined.
Record TarEntry := {
  te_path : string;
  te_type : EntryType;
  te_size : Z;
  te_body : string;
  te_broken : bool;
}.
(** An item of [archive.entries()] and the clock when the loop reaches it. *)
Inductive TarItem := TarOk (entry : TarEntry) | TarErr.
Abbreviation Archive := (list (Z * TarItem)).

(** Names below the root: [None] is a directory. *)
Abbreviation Tree := (gmap (list string) (option string)).
Definition tree_file (t : Tree) (path : list string) : option string := mjoin (t !! path).

Inductive ExtractError :=
| ExtractDeadline (stage : string)
| ArchiveUnreadable
| BombGuard
| AbsolutePath (path : string)
| PathTraversal (path : string)
| LinkRejected (path : string)
| UnpackFailed (path : string)
| CreateFailed (path : string)
| CopyFailed (path : string)
| DownloadedMetaUnreadable
| DownloadedMetaUnparseable
| IncompatibleSchema
| EntryBindingMismatch
| MissingMetaDigest
| MetaDigestMismatch
| DeclaredHashMalformed (name : string)
| DeclaredNameUnsafe (name : string)
| DeclaredMismatch (name : string)
| DeclaredMissing (name : string)
| PublishFailed
| InvalidBinding.
Abbreviation eres := (result ExtractError).

#[export] Instance Component_countable : Countable Component :=
  inj_countable'
    (fun c => match c with
       | RootDir => inl 0%nat | CurDir => inl 1%nat | ParentDir => inl 2%nat | Normal n => inr n end)
    (fun s => match s with
       | inl 0%nat => RootDir | inl 1%nat => CurDir | inl _ => ParentDir | inr n => Normal n end)
    ltac:(by intros []).

(** [is_rooted_path] *)
Definition is_rooted_path (path : string) : bool :=
  is_absolute path || match components path with RootDir :: _ => true | _ => false end.
(** The names a relative path reaches. *)
Definition path_names (path : string) : list string :=
  omap (fun c => match c with Normal n => Some n | _ => None end) (components path).
(** [open(2)] refuses to create a file through a trailing [/] or [/.]. *)
Definition names_a_file (path : string) : bool :=
  match last (split_on slash path) with
  | Some segment => negb (String.eqb segment "" || String.eqb segment ".")
  | None => false
  end.
(** The non-empty prefixes of a path, shortest first. *)
Definition path_ancestors (path : list string) : list (list string) :=
  map (fun n => take n path) (seq 1 (length path)).
(** [fs::create_dir_all] *)
Definition create_dir_all (t : Tree) (path : list string) : option Tree :=
  fold_left (fun t p =>
      t ← t;
      match t !! p with
      | Some (Some _) => None
      | Some None => Some t
      | None => Some (<[p := None]> t)
      end)
    (path_ancestors path) (Some t).
(** [File::create] followed by the copy. *)
Definition write_file (t : Tree) (path : list string) (bytes : string) : option Tree :=
  match path, t !! path with
  | [], _ | _, Some None => None
  | _, _ => Some (<[path := Some bytes]> t)
  end.

Record Extraction := {
  ex_tree : Tree;
  ex_total : Z;
  ex_hashes : gmap (list Component) string;
}.
Definition extract_start : Extraction := {| ex_tree := ∅; ex_total := 0; ex_hashes := ∅ |}.

Record ExpectedEntryBinding := {
  xb_cache_key : string;
  xb_crate_name : string;
  xb_meta_digest : option string;
}.
Record ExtractedEntry := { xe_original_bytes : Z; xe_meta : EntryMeta }.

(** What publishing the extracted directory meets: the clock before an existing
    directory is removed and at the end, whether the rename works, and after how
    many files a copy instead of it stops. *)
Record Publication := {
  pb_replacing : Z;
  pb_end : Z;
  pb_rename : bool;
  pb_copy_stops : option nat;
}.

Section Extract.
Context (blake3_hex : string -> string) `{!JsonCodec EntryMeta}.
(** [Entry::unpack] on a directory entry. *)
Context (unpack_dir : Tree -> list string -> option Tree).
Context (deadline : option Z).

Definition check_deadline (now : Z) (stage : string) : eres unit :=
  ensure (negb (elapsed deadline now)) (ExtractDeadline stage).

(** The body of the loop in [extract_entry_pack_until]. *)
Definition extract_item (ex : Extraction) (item : Z * TarItem) : eres Extraction :=
  check_deadline item.1 "tar extraction";;
  match item.2 with
  | TarErr => Err ArchiveUnreadable
  | TarOk entry =>
      let total := saturating_add u64_max (ex_total ex) (te_size entry) in
      let path := te_path entry in
      ensure (total <=? MAX_EXTRACTED_BYTES) BombGuard;;
      ensure (negb (is_rooted_path path)) (AbsolutePath path);;
      ensure (negb (bool_decide (ParentDir ∈ components path))) (PathTraversal path);;
      ensure (match te_type entry with TarSymlink | TarHardLink => false | _ => true end) (LinkRejected path);;
      match te_type entry with
      | TarDirectory =>
          t ← with_context (unpack_dir (ex_tree ex) (path_names path)) (UnpackFailed path);
          Ok {| ex_tree := t; ex_total := total; ex_hashes := ex_hashes ex |}
      | _ =>
          let dest := path_names path in
          t ← with_context (create_dir_all (ex_tree ex) (take (length dest - 1) dest)) (CreateFailed path);
          ensure (names_a_file path) (CreateFailed path);;
          t ← with_context (write_file t dest (te_body entry)) (CreateFailed path);
          ensure (negb (te_broken entry)) (CopyFailed path);;
          Ok {| ex_tree := t; ex_total := total;
                ex_hashes := <[components path := blake3_hex (te_body entry)]> (ex_hashes ex) |}
      end
  end.

(** The binding checks against what the caller asked for. *)
Definition check_binding (ex : Extraction) (meta : EntryMeta) (expected : ExpectedEntryBinding) : eres unit :=
  ensure (String.eqb (cache_key meta) (xb_cache_key expected)
          && String.eqb (crate_name meta) (xb_crate_name expected)) EntryBindingMismatch;;
  match xb_meta_digest expected with
  | None => Ok tt
  | Some meta_digest =>
      actual ← with_context (ex_hashes ex !! components "meta.json") MissingMetaDigest;
      ensure (String.eqb actual meta_digest) MetaDigestMismatch
  end.
Definition check_expected (ex : Extraction) (meta : EntryMeta) (expected : option ExpectedEntryBinding) : eres unit :=
  match expected with Some expected => check_binding ex meta expected | None => Ok tt end.
Definition check_declared (f : CachedFile) : eres unit :=
  ensure (is_blob_hash (hash f)) (DeclaredHashMalformed (name f));;
  ensure (is_safe_artifact_name (name f)) (DeclaredNameUnsafe (name f)).
Definition check_content (ex : Extraction) (f : CachedFile) : eres unit :=
  match ex_hashes ex !! components (name f) with
  | Some actual => ensure (String.eqb actual (hash f)) (DeclaredMismatch (name f))
  | None => Err (DeclaredMissing (name f))
  end.
(** The integrity gate. *)
Definition integrity_gate (ex : Extraction) (now : Z) (expected : option ExpectedEntryBinding)
    : eres EntryMeta :=
  check_deadline now "integrity validation";;
  content ← with_context (tree_file (ex_tree ex) ["meta.json"]) DownloadedMetaUnreadable;
  ensure (valid_utf8 content) DownloadedMetaUnreadable;;
  meta ← with_context (from_slice content) DownloadedMetaUnparseable;
  ensure (key_schema meta =? CACHE_KEY_VERSION) IncompatibleSchema;;
  check_expected ex meta expected;;
  try_fold (fun _ f => check_declared f) tt (files meta);;
  try_fold (fun _ f => check_content ex f) tt (files meta);;
  Ok meta.

(** [copy_dir_all_until], stopping after [n] files. *)
Definition copied (t : Tree) (n : option nat) : Tree :=
  match n with
  | None => t
  | Some n => list_to_map (take n (map_to_list t))
  end.
(** Publishing: the directory afterwards and the outcome. *)
Definition publish_tree (pub : Publication) (dest : option Tree) (t : Tree) : option Tree * eres unit :=
  match (if dest is Some _ then check_deadline (pb_replacing pub) "entry publication" else Ok tt) with
  | Err e => (dest, Err e)
  | Ok _ =>
      if pb_rename pub then (Some t, check_deadline (pb_end pub) "entry publication")
      else
        (Some (copied t (pb_copy_stops pub)),
         match pb_copy_stops pub with
         | Some _ => Err PublishFailed
         | None => check_deadline (pb_end pub) "entry publication"
         end)
  end.

(** [extract_entry_pack_until]: the entry directory afterwards and the
    outcome. *)
Definition extract_entry_pack_until (start checked : Z) (pub : Publication) (dest : option Tree)
    (archive : Archive) (expected : option ExpectedEntryBinding) : option Tree * eres ExtractedEntry :=
  match (check_deadline start "extraction setup";;
         ex ← try_fold extract_item extract_start archive;
         meta ← integrity_gate ex checked expected;
         Ok (ex, meta)) with
  | Err e => (dest, Err e)
  | Ok (ex, meta) =>
      match publish_tree pub dest (ex_tree ex) with
      | (dest, Err e) => (dest, Err e)
      | (dest, Ok _) => (dest, Ok {| xe_original_bytes := ex_total ex; xe_meta := meta |})
      end
  end.

(** [extract_verified_prefetch_entry], on the archive the payload decodes to. *)
Definition extract_verified_prefetch_entry (start checked : Z) (pub : Publication) (dest : option Tree)
    (key crate_name meta_digest : string) (archive : Archive) : option Tree * eres (string * EntryMeta) :=
  if negb (is_valid_cache_key key) || negb (is_valid_crate_name crate_name)
     || negb (is_valid_cache_key meta_digest)
  then (dest, Err InvalidBinding)
  else
    match extract_entry_pack_until start checked pub dest archive
            (Some {| xb_cache_key := key; xb_crate_name := crate_name;
                     xb_meta_digest := Some meta_digest |}) with
    | (dest, Err e) => (dest, Err e)
    | (dest, Ok extracted) => (dest, Ok (key, xe_meta extracted))
    end.
End Extract.

(** ** Downloading *)

Inductive DownloadError := DownloadLayout (e : LayoutError) | DownloadExtract (e : ExtractError).
(** [download_entry_observed]; [unpack] is the decompressed archive of the
    object's bytes. *)
Record DownloadClock := { dc_setup : Z; dc_start : Z; dc_checked : Z; dc_publication : Publication }.
Definition download_entry {W} `{RemoteBackend W} (blake3_hex : string -> string)
    `{!JsonCodec EntryMeta} (unpack_dir : Tree -> list string -> option Tree)
    (unpack : string -> Archive) (prefix : string) (deadline : option Z) (clock : DownloadClock)
    (w : W) (cache_key crate_name : string) (dest : option Tree)
    : option Tree * result DownloadError ExtractedEntry :=
  match deadline_io_check deadline (dc_setup clock) "download setup" with
  | Err e => (dest, Err (DownloadLayout e))
  | Ok _ =>
      match b_get_into w (v3_pack_key prefix cache_key crate_name) (Some MAX_COMPRESSED_BYTES) "" with
      | (_, Err e) => (dest, Err (DownloadLayout (RemoteFailed e)))
      | (_, Ok None) => (dest, Err (DownloadLayout EntryNotFound))
      | (spool, Ok (Some _)) =>
          match extract_entry_pack_until blake3_hex unpack_dir deadline (dc_start clock)
                  (dc_checked clock) (dc_publication clock) dest (unpack spool)
                  (Some {| xb_cache_key := cache_key; xb_crate_name := crate_name;
                           xb_meta_digest := None |}) with
          | (dest, Err e) => (dest, Err (DownloadExtract e))
          | (dest, Ok extracted) => (dest, Ok extracted)
          end
      end
  end.
