(* ===== verification/RemoteProofs.v ===== *)
(** * The remote is shared safely

    What a job may do to the objects of others: the pull request prefix isolates
    its writes, uploads never rewrite an object and never list an entry before its
    pack is there, listing reports exactly the uploaded manifests, and a download
    never delivers more than its cap.  The theorems are about any backend that
    keeps the promises of [ObjectStore]; the OpenDAL backend does when its
    operator behaves as documented. *)

From S2P Require Import Prelude Strings Codec Format StoreIndex Store Remote RemoteLayout.
#[local] Open Scope string_scope.
#[local] Open Scope Z_scope.

(** ** Prefixes *)

Lemma app_compare s1 s2 t1 t2 :
  s1 ++ t1 = s2 ++ t2 -> (exists u, s2 = s1 ++ u) \/ (exists u, s1 = s2 ++ u).
Proof.
  revert s2. induction s1 as [|a s1 IH]; intros s2 E; [left; by exists s2|].
  destruct s2 as [|b s2]; [right; by exists (String a s1)|]. cbn in E. injection E as -> E.
  destruct (IH _ E) as [[u ->]|[u ->]]; [left|right]; by exists u.
Qed.
Lemma starts_with_app p s : starts_with p s = true <-> exists t, s = p ++ t.
Proof.
  unfold starts_with. split.
  - destruct (strip_prefix p s) as [t|] eqn:E; [|done]. apply strip_prefix_Some in E. eauto.
  - intros [t ->]. by rewrite strip_prefix_app.
Qed.
Lemma snoc_slash_inj a b : a ++ "/" = b ++ "/" -> a = b.
Proof.
  intros E. pose proof (f_equal (strip_suffix "/") E) as Es.
  rewrite !(proj2 (strip_suffix_Some _ _ _) eq_refl) in Es. by simplify_eq.
Qed.
(** A key under [prefix]. *)
Definition key_under (prefix key : string) : bool := String.eqb key prefix || starts_with (prefix ++ "/") key.

Lemma suffix_slash p b c u : b ++ "/" = p ++ String c u -> exists t, String c u = t ++ "/".
Proof.
  revert b. induction p as [|d p IH]; intros b E; [by exists b|].
  destruct b as [|e b]; cbn in E; [by destruct p|]. injection E as -> E. by apply (IH b).
Qed.
(** A directory path that ends inside another: the shorter one contains it. *)
Lemma dir_prefix_nested a b u : b ++ "/" = (a ++ "/") ++ u -> nested a b = true.
Proof.
  intros E. unfold nested. destruct u as [|c u].
  - rewrite string_app_nil_r in E. apply snoc_slash_inj in E as ->. by rewrite String.eqb_refl, orb_true_r.
  - destruct (suffix_slash _ _ _ _ E) as [t Et].
    rewrite Et, string_app_assoc in E. apply snoc_slash_inj in E as ->.
    rewrite (proj2 (starts_with_app _ _)) by (by exists t). by rewrite orb_true_r.
Qed.
Lemma disjoint_prefixes base pr rest :
  nested base pr = false -> nested pr base = false -> key_under base (pr ++ "/" ++ rest) = false.
Proof.
  intros H1 H2. unfold key_under. apply orb_false_iff. split.
  - apply String.eqb_neq. intros E. unfold nested in H2. bool_to_prop.
    rewrite <- E in *. assert (starts_with (pr ++ "/") (pr ++ "/" ++ rest) = true) as Hs; [|congruence].
    apply starts_with_app. exists rest. by rewrite string_app_assoc.
  - destruct (starts_with _ _) eqn:Hs; [|done]. apply starts_with_app in Hs as [t E].
    rewrite string_app_assoc in E. destruct (app_compare _ _ _ _ E) as [[u Eu]|[u Eu]];
      apply dir_prefix_nested in Eu; congruence.
Qed.

(** ** What a backend promises *)

(** [objects] is what the remote holds.  A failed plain write may have landed,
    and so may a failed creation of an absent object; a refused one changed
    nothing. *)
Class ObjectStore (W : Type) `{RemoteBackend W} := {
  objects : W -> gmap string string;
  put_law : forall w key body w' r, b_put w key body = (w', r) ->
    match r with
    | Ok _ => objects w' = <[key := body]> (objects w)
    | Err _ => objects w' = objects w \/ objects w' = <[key := body]> (objects w)
    end;
  create_law : forall w key body w' r, b_put_if_absent w key body = (w', r) ->
    match r with
    | Ok Created => objects w !! key = None /\ objects w' = <[key := body]> (objects w)
    | Ok AlreadyExists => is_Some (objects w !! key) /\ objects w' = objects w
    | Ok CreateUnsupported => objects w' = objects w
    | Err _ => objects w' = objects w
               \/ objects w !! key = None /\ objects w' = <[key := body]> (objects w)
    end;
  replace_law : forall w key body expected w' r, b_put_if_match w key body expected = (w', r) ->
    objects w' = objects w \/ objects w' = <[key := body]> (objects w);
}.

(** The writes a client can make. *)
Inductive RemoteWrite :=
| WritePut (key body : string)
| WriteCreate (key body : string)
| WriteReplace (key body : string) (expected : option string).
Definition run_write {W} (backend : RemoteBackend W) (w : W) (op : RemoteWrite) : W :=
  match op with
  | WritePut key body => (b_put w key body).1
  | WriteCreate key body => (b_put_if_absent w key body).1
  | WriteReplace key body expected => (b_put_if_match w key body expected).1
  end.

Section Isolation.
Context {W : Type} (inner : RemoteBackend W) `{!ObjectStore W}.

Lemma put_frame w key body k :
  k <> key -> objects (b_put w key body).1 !! k = objects w !! k.
Proof.
  intros Hk. destruct (b_put w key body) as [w' r] eqn:E. apply put_law in E. cbn.
  destruct r; [|destruct E as [E|E]]; rewrite E; by rewrite ?lookup_insert_ne.
Qed.
Lemma create_frame w key body k :
  k <> key -> objects (b_put_if_absent w key body).1 !! k = objects w !! k.
Proof.
  intros Hk. destruct (b_put_if_absent w key body) as [w' r] eqn:E. apply create_law in E. cbn.
  destruct r as [[]|]; destruct_and?; destruct_or?; destruct_and?;
    match goal with E : objects w' = _ |- _ => rewrite E end; by rewrite ?lookup_insert_ne.
Qed.
Lemma replace_frame w key body expected k :
  k <> key -> objects (b_put_if_match w key body expected).1 !! k = objects w !! k.
Proof.
  intros Hk. destruct (b_put_if_match w key body expected) as [w' r] eqn:E. apply replace_law in E. cbn.
  destruct E as [E|E]; rewrite E; by rewrite ?lookup_insert_ne.
Qed.

Lemma pull_request_key_prefixed base pr key :
  pr <> "" -> exists rest, pull_request_key base pr key = pr ++ "/" ++ rest.
Proof.
  intros Hpr. unfold pull_request_key, moved, join_remote_key.
  apply String.eqb_neq in Hpr. rewrite Hpr. by eexists.
Qed.
Lemma pull_request_prefix_disjoint base configured pr :
  pull_request_prefix_for base configured = Ok (Some pr) ->
  pr <> "" /\ nested base pr = false /\ nested pr base = false.
Proof.
  unfold pull_request_prefix_for. case_match; [done|]. intros Hp. inv_result. simplify_eq.
  bool_to_prop. done.
Qed.
Lemma pull_request_write_frame base pr op w k :
  pr <> "" -> nested base pr = false -> nested pr base = false -> key_under base k = true ->
  objects (run_write (pull_request_backend inner base pr) w op) !! k = objects w !! k.
Proof.
  intros Hpr H1 H2 Hk.
  assert (forall key, k <> pull_request_key base pr key) as Hne.
  { intros key ->. destruct (pull_request_key_prefixed base pr key Hpr) as [rest E].
    rewrite E, disjoint_prefixes in Hk by done. done. }
  destruct op; cbn; auto using put_frame, create_frame, replace_frame.
Qed.

Lemma forced_access get_env enabled base oci configured acc :
  remote_access get_env enabled (Some (base, oci)) configured = acc ->
  is_Some (forced_remote_readonly_with get_env) -> remote_readonly acc = false ->
  exists c pr, pull_request_prefix acc = Some pr /\ pull_request_prefix_for base c = Ok (Some pr).
Proof.
  intros <- [reason Hf]. unfold remote_access. rewrite Hf. cbn. rewrite orb_true_r.
  destruct (pull_request_job_with get_env); [|done]. destruct oci; cbn; [done|].
  destruct configured as [c|]; cbn; [|done].
  destruct (pull_request_prefix_for base c) as [[pr|]|] eqn:E; try done. intros _. by exists c, pr.
Qed.

(** C13. Untrusted CI cannot touch the objects trusted builds read.  When the CI
    policy forces a job read-only, kache either keeps it read-only or gives it a
    backend through which no sequence of writes, whatever their keys and however
    they end, changes any object under the base prefix. *)
Theorem untrusted_ci_leaves_base get_env enabled base oci configured acc w ops key :
  remote_access get_env enabled (Some (base, oci)) configured = acc ->
  is_Some (forced_remote_readonly_with get_env) ->
  key_under base key = true ->
  remote_readonly acc = true \/
  objects (fold_left (run_write (create_backend_for inner base (pull_request_prefix acc))) ops w) !! key
    = objects w !! key.
Proof.
  intros Ha Hf Hk. destruct (remote_readonly acc) eqn:Hro; [by left|]. right.
  destruct (forced_access _ _ _ _ _ _ Ha Hf Hro) as (c & pr & -> & Hp). cbn.
  destruct (pull_request_prefix_disjoint _ _ _ Hp) as (Hpr & H1 & H2).
  apply (fold_left_inv _ (fun w' => objects w' !! key = objects w !! key)); [done|].
  intros w' op _ Hw. by rewrite pull_request_write_frame.
Qed.
End Isolation.

(** ** The OpenDAL backend keeps the promises *)

(** A failure that is a refusal: the condition did not hold, or the store does
    not implement it. *)
Definition refused (e : OpError) : bool :=
  match oe_kind e with
  | EkConditionNotMatch | EkAlreadyExists | EkConflict | EkUnsupported => true
  | EkUnexpected => lacks_conditional_writes e
  | _ => false
  end.
Section OpenDalLaws.
Context {W : Type} (operator : Operator W).
Context (filesystem : bool) (contained : W -> string -> bool) (refusal_may_be_absence : bool).
(** Documented behaviour of the operator's writes. *)
Context (stored : W -> gmap string string).
Context (write_ok : forall w key body c w',
  op_write operator w key body c = (w', Ok tt) ->
  stored w' = <[key := body]> (stored w) /\ (c = IfNotExists -> stored w !! key = None)).
Context (write_err : forall w key body c w' e,
  op_write operator w key body c = (w', Err e) ->
  stored w' = stored w
  \/ refused e = false /\ stored w' = <[key := body]> (stored w)
     /\ (c = IfNotExists -> stored w !! key = None)).
Context (write_exists : forall w key body w' e,
  op_write operator w key body IfNotExists = (w', Err e) ->
  oe_kind e = EkConditionNotMatch \/ oe_kind e = EkAlreadyExists \/ oe_kind e = EkConflict ->
  is_Some (stored w !! key)).

#[local] Existing Instance opendal_backend.
#[local] Instance opendal : RemoteBackend W :=
  opendal_backend operator filesystem contained refusal_may_be_absence.

Lemma create_refused e outcome :
  classify_create_error e = Some outcome ->
  refused e = true /\ (outcome = AlreadyExists ->
    oe_kind e = EkConditionNotMatch \/ oe_kind e = EkAlreadyExists \/ oe_kind e = EkConflict)
  /\ outcome <> Created.
Proof.
  unfold classify_create_error, refused. destruct (oe_kind e) eqn:Ek; try (intros [= <-]; by eauto).
  all: try done. destruct (lacks_conditional_writes e); [|done]. intros [= <-]. done.
Qed.
#[export] Program Instance opendal_object_store : ObjectStore W := {| objects := stored |}.
Next Obligation.
  intros w key body w' r. cbn. unfold opendal_put. destruct (may_write _ _ _ _ _); [|intros [= <- <-]; by left].
  destruct (op_write _ _ _ _ _) as [w1 [[]|e]] eqn:Ew; intros [= <- <-].
  - by apply write_ok in Ew as [].
  - apply write_err in Ew as [?|(_ & ? & _)]; auto.
Qed.
Next Obligation.
  intros w key body w' r. cbn. unfold opendal_put_if_absent.
  destruct (may_write _ _ _ _ _); [|intros [= <- <-]; by left].
  destruct (write_with_if_not_exists operator); cbn [negb]; [|by intros [= <- <-]].
  destruct (op_write _ _ _ _ _) as [w1 [[]|e]] eqn:Ew; intros [= <- <-].
  - apply write_ok in Ew as [Hs Hn]. auto.
  - pose proof (write_err _ _ _ _ _ _ Ew) as He.
    destruct (classify_create_error e) as [outcome|] eqn:Ec; [|naive_solver].
    apply create_refused in Ec as (Hr & Hx & Hc). destruct He as [He|[Hf _]]; [|congruence].
    destruct outcome; [done| |done]. split; [|done]. eapply write_exists; eauto.
Qed.
Next Obligation.
  intros w key body expected w' r. cbn. unfold opendal_put_if_match.
  destruct (may_write _ _ _ _ _); [|intros [= <- <-]; by left]. case_match; [intros [= <- <-]; by left|].
  destruct (op_write _ _ _ _ _) as [w1 [[]|e]] eqn:Ew; intros [= <- <-].
  - right. by apply write_ok in Ew as [].
  - apply write_err in Ew as [?|(_ & ? & _)]; auto.
Qed.
End OpenDalLaws.

(** ** Reading an object *)

Section Reading.
Context {W : Type} (operator : Operator W) (filesystem refusal_may_be_absence : bool).

Lemma read_body_spec key max chunks length destination destination' r :
  0 <= length <= max -> read_body key (Some max) chunks length destination = (destination', r) ->
  exists body, destination' = destination ++ body /\ length + slen body <= max /\
    (r = Ok None -> body = "" /\ length = 0) /\
    (forall n, r = Ok (Some n) -> n = length + slen body /\ Forall2 (fun c s => c = Ok s) chunks (omap ok chunks)
       /\ body = concat_str (omap ok chunks)).
Proof.
  revert length destination. induction chunks as [|[chunk|e] chunks IH]; intros length destination Hl; cbn.
  - intros [= <- <-]. exists "". rewrite string_app_nil_r. change (slen "") with 0. split_and!; [done|lia|done|].
    intros n [= <-]. split_and!; [lia|constructor|done].
  - assert (forall e, (destination, Err (A:=option Z) e) = (destination', r) -> exists body,
      destination' = destination ++ body /\ length + slen body <= max /\ (r = Ok None -> body = "" /\ length = 0) /\
      forall n, r = Ok (Some n) -> n = length + slen body /\
        Forall2 (fun c s => c = Ok s) (Ok chunk :: chunks) (chunk :: omap ok chunks) /\
        body = chunk ++ concat_str (omap ok chunks)) as Herr.
    { intros e [= <- <-]. exists "". rewrite string_app_nil_r. change (slen "") with 0. by split_and!; [|lia|..]. }
    destruct (checked_add _ _ _) as [length'|] eqn:Ec; [|apply Herr]. apply checked_add_Some in Ec as [-> _].
    destruct (max <? _) eqn:Em; [apply Herr|]. clear Herr.
    bool_to_prop. pose proof (slen_nonneg chunk). intros Hr. apply IH in Hr as (body & -> & Hb & Hn & Ho); [|lia].
    exists (chunk ++ body). rewrite string_app_assoc, slen_app. split_and!; [done|lia| |].
    + intros Hr. destruct (Hn Hr) as [-> ?]. assert (slen chunk = 0) as ->%slen_0 by lia. split; [done|lia].
    + intros n Hr. destruct (Ho n Hr) as (-> & Hf & ->). split_and!; [lia|by constructor|done].
  - case_match; intros [= <- <-]; exists ""; rewrite string_app_nil_r; change (slen "") with 0;
      (split_and!; [done|lia| |done]).
    + bool_to_prop. intros _. split; [done|lia].
    + done.
Qed.

(** C37. A read of a remote object is bounded and never mistakes a partial object
    for a whole one.  However the transport behaves, at most the caller's cap is
    appended to the sink; "absent" is answered only with the sink untouched; and
    success means every chunk arrived, in order, with exactly the advertised
    length. *)
Theorem remote_read_bounded w key max destination destination' r :
  0 <= max ->
  read_into operator filesystem refusal_may_be_absence w key (Some max) destination = (destination', r) ->
  exists body, destination' = destination ++ body /\ slen body <= max /\
    (r = Ok None -> body = "") /\
    (forall n tag, r = Ok (Some (n, tag)) ->
       n = slen body /\
       Forall2 (fun c s => c = Ok s) (rd_chunks (op_read operator w key))
         (omap ok (rd_chunks (op_read operator w key))) /\
       body = concat_str (omap ok (rd_chunks (op_read operator w key))) /\
       (rd_metadata (op_read operator w key) = Ok (n, tag) \/ rd_stat (op_read operator w key) = Ok n)).
Proof.
  intros Hm. unfold read_into. set (rd := op_read operator w key).
  assert (forall e, (destination, Err (A:=option (Z * option string)) e) = (destination', r) ->
    exists body, destination' = destination ++ body /\ slen body <= max /\ (r = Ok None -> body = "") /\
    forall n tag, r = Ok (Some (n, tag)) -> n = slen body /\
       Forall2 (fun c s => c = Ok s) (rd_chunks rd) (omap ok (rd_chunks rd)) /\
       body = concat_str (omap ok (rd_chunks rd)) /\ (rd_metadata rd = Ok (n, tag) \/ rd_stat rd = Ok n)) as Herr.
  { intros e [= <- <-]. exists "". rewrite string_app_nil_r. by split_and!. }
  destruct (_ ≫= _) as [[[advertised etag]|]|e] eqn:Ea; [| |apply Herr].
  2: { intros [= <- <-]. exists "". rewrite string_app_nil_r. by split_and!. }
  match goal with |- (if ?b then _ else _) = _ -> _ => destruct b end; [apply Herr|]. destruct (read_body _ _ _ _ _) as [d1 r1] eqn:Eb.
  apply read_body_spec in Eb as (body & -> & Hb & Hn & Ho); [|lia].
  destruct r1 as [[n|]|e]; [| |intros [= <- <-]; by exists body; split_and!; [|lia|..]].
  2: { intros [= <- <-]. exists body. split_and!; [done|lia| |done]. intros _. by apply Hn. }
  destruct (Ho n eq_refl) as (-> & Hf & ->).
  destruct (verify_complete_body key advertised _) as [[]|e] eqn:Ev; intros [= <- <-];
    eexists; (split_and!; [done|lia|done|]); [|done].
  intros n tag [= <- <-]. split_and!; [done|done|done|]. clear Herr Ho Hn.
  apply bind_Ok in Ea as (_ & _ & Hopen). destruct (rd_open rd) as [|]; [|done].
  unfold read_advertised in Hopen. destruct (rd_metadata rd) as [[len tag']|e].
  - simplify_eq. cbn in Ev. inv_result. bool_to_prop. left. congruence.
  - repeat case_match; simplify_eq. cbn in Ev. inv_result. bool_to_prop. right. congruence.
Qed.
End Reading.
