(* ===== verification/UploadProofs.v ===== *)
(** * Uploads and listings

    Any number of machines upload entries at once, each as a pack and then a
    manifest.  No interleaving lists an entry whose pack is missing, and on a
    remote that can write create-only no object is ever replaced. *)

From S2P Require Import Prelude Strings Codec Format StoreIndex Store Remote RemoteLayout RemoteProofs.
#[local] Open Scope string_scope.
#[local] Open Scope Z_scope.

(** ** Object keys *)

Lemma join_remote_key_inj prefix a b : join_remote_key prefix a = join_remote_key prefix b -> a = b.
Proof.
  unfold join_remote_key. case_match; [done|]. rewrite !string_app_assoc. intros E.
  by apply string_app_inj in E as [_ ?].
Qed.
Lemma app_suffix_inj a b s : a ++ s = b ++ s -> a = b.
Proof.
  intros E. pose proof (f_equal (strip_suffix s) E) as Es.
  rewrite !(proj2 (strip_suffix_Some _ _ _) eq_refl) in Es. by simplify_eq.
Qed.
Lemma manifest_pack_distinct prefix k c k' c' :
  v3_manifest_key prefix k c <> v3_pack_key prefix k' c'.
Proof. intros E. by apply join_remote_key_inj in E. Qed.
Lemma app_prefix_inj p a b : p ++ a = p ++ b -> a = b.
Proof. intros E. by apply string_app_inj in E as [_ ?]. Qed.
Lemma manifest_key_spelling prefix k c :
  v3_manifest_key prefix k c = join_remote_key prefix ("v3/manifests/" ++ ((c ++ "/" ++ k) ++ ".json")).
Proof. unfold v3_manifest_key. by rewrite <- !string_app_assoc. Qed.
Lemma pack_key_spelling prefix k c :
  v3_pack_key prefix k c = join_remote_key prefix ("v3/packs/" ++ ((c ++ "/" ++ k) ++ ".tar.zst")).
Proof. unfold v3_pack_key. by rewrite <- !string_app_assoc. Qed.
(** Whatever the names, a manifest and a pack of the same spelling go
    together. *)
Lemma manifest_key_same prefix k c k' c' :
  v3_manifest_key prefix k c = v3_manifest_key prefix k' c' ->
  v3_pack_key prefix k c = v3_pack_key prefix k' c'.
Proof.
  rewrite !manifest_key_spelling, !pack_key_spelling.
  intros E%join_remote_key_inj%app_prefix_inj%app_suffix_inj. by rewrite E.
Qed.

Lemma all_bytes_no_slash p s :
  (forall b, p b = true -> byte_val b <> 47) -> all_bytes p s = true ->
  all_bytes (fun b => negb (Ascii.eqb b slash)) s = true.
Proof. intros Hp. apply all_bytes_impl. intros b Hb. by apply byte_ne_slash, Hp. Qed.
Lemma cache_key_no_slash k :
  is_valid_cache_key k = true -> all_bytes (fun b => negb (Ascii.eqb b slash)) k = true.
Proof.
  unfold is_valid_cache_key. intros Hk. bool_to_prop. eapply all_bytes_no_slash; [|done].
  cbn. unfold is_ascii_digit, between. intros b. lia.
Qed.

Abbreviation manifest_prefix prefix := (join_remote_key prefix (V3_ROOT ++ "/" ++ V3_MANIFESTS ++ "/")).
Lemma manifest_key_under prefix k c :
  v3_manifest_key prefix k c = manifest_prefix prefix ++ ((c ++ String slash k) ++ ".json").
Proof. by rewrite manifest_key_spelling, join_remote_key_app. Qed.

(** Listing reads back what an upload wrote, and nothing else. *)
Lemma parse_manifest_key_exact prefix key k c :
  parse_manifest_key (manifest_prefix prefix) key = Some (k, c) <->
  key = v3_manifest_key prefix k c /\ is_valid_cache_key k = true /\ is_valid_crate_name c = true.
Proof.
  unfold parse_manifest_key. split.
  - intros (s1 & H1%strip_prefix_Some & (s2 & H2%strip_suffix_Some & ([c' k'] & H3%rsplit_once_Some & H4)%bind_Some)
      %bind_Some)%bind_Some.
    case_match; [|done]. simplify_eq. bool_to_prop. by rewrite manifest_key_under.
  - intros (-> & Hk & Hc). rewrite manifest_key_under, strip_prefix_app. cbn [mbind option_bind].
    rewrite (proj2 (strip_suffix_Some _ _ _) eq_refl). cbn [mbind option_bind].
    rewrite rsplit_once_app by (by apply cache_key_no_slash). cbn [mbind option_bind]. by rewrite Hk, Hc.
Qed.

Lemma extend_keys_sound l m k c : extend_keys m l !! k = Some c -> (k, c) ∈ l \/ m !! k = Some c.
Proof.
  unfold extend_keys. revert m. induction l as [|[k' c'] l IH]; intros m; cbn [fold_left fst snd]; [by right|].
  intros [Hin|Hm]%IH; [left; by right|]. apply lookup_insert_Some in Hm as [[-> ->]|[_ Hm]]; [|by right].
  left. by left.
Qed.
Lemma extend_keys_complete l m k :
  is_Some (m !! k) \/ (exists c, (k, c) ∈ l) -> is_Some (extend_keys m l !! k).
Proof.
  unfold extend_keys. revert m. induction l as [|[k' c'] l IH]; intros m; cbn [fold_left fst snd].
  { intros [?|[c []%not_elem_of_nil]]; done. }
  intros Hor. apply IH. cbn. destruct (decide (k' = k)) as [->|Hne]; [left; by rewrite lookup_insert_eq|].
  rewrite lookup_insert_ne by done. destruct Hor as [?|[c [[= -> ->]|Hc]%elem_of_cons]]; [by left|done|right; eauto].
Qed.

(** ** Concurrent uploads *)

(** How far one upload is. *)
Inductive UploadPhase := PackPending | ManifestPending | Finished.
Record Uploader := { up_key : string; up_crate : string; up_pack : string; up_manifest : string; up_phase : UploadPhase }.
Definition set_phase (p : UploadPhase) (u : Uploader) : Uploader :=
  {| up_key := up_key u; up_crate := up_crate u; up_pack := up_pack u; up_manifest := up_manifest u;
     up_phase := p |}.

Section Uploads.
Context {W : Type} (backend : RemoteBackend W) `{!ObjectStore W} (prefix : string).

(** One request of some uploader, or an uploader that starts or gives up (a
    deadline, a crash) between its requests. *)
Inductive upload_step : W * gmap nat Uploader -> W * gmap nat Uploader -> Prop :=
| up_start w us i u :
    us !! i = None -> up_phase u = PackPending -> upload_step (w, us) (w, <[i := u]> us)
| up_put_pack w us i u w' r :
    us !! i = Some u -> up_phase u = PackPending ->
    put_immutable w (v3_pack_key prefix (up_key u) (up_crate u)) (up_pack u) = (w', r) ->
    upload_step (w, us) (w', <[i := set_phase (if is_ok r then ManifestPending else Finished) u]> us)
| up_put_manifest w us i u w' r :
    us !! i = Some u -> up_phase u = ManifestPending ->
    put_immutable w (v3_manifest_key prefix (up_key u) (up_crate u)) (up_manifest u) = (w', r) ->
    upload_step (w, us) (w', <[i := set_phase Finished u]> us)
| up_stop w us i u :
    us !! i = Some u -> upload_step (w, us) (w, <[i := set_phase Finished u]> us).

Lemma put_immutable_spec w key body w' r :
  put_immutable w key body = (w', r) ->
  (objects w' = objects w \/ objects w' = <[key := body]> (objects w)) /\
  (is_ok r = true -> is_Some (objects w' !! key)).
Proof.
  unfold put_immutable. destruct (b_put_if_absent w key body) as [w1 r1] eqn:Ec. apply create_law in Ec.
  destruct r1 as [[]|e].
  - intros [= <- <-]. destruct Ec as [_ ->]. rewrite lookup_insert_eq. split; [by right|eauto].
  - intros [= <- <-]. destruct Ec as [? ->]. split; [by left|done].
  - intros Hp. apply put_law in Hp. rewrite Ec in Hp. destruct r as [[]|e]; [|split; [done|by intros]].
    rewrite Hp, lookup_insert_eq. split; [by right|eauto].
  - intros [= <- <-]. split; [|done]. naive_solver.
Qed.
(** Where creation is supported, an object that is there stays as it is. *)
Lemma put_immutable_keeps w key body w' r :
  (forall w', b_put_if_absent w key body <> (w', Ok CreateUnsupported)) ->
  put_immutable w key body = (w', r) -> objects w ⊆ objects w'.
Proof.
  intros Hs. unfold put_immutable. destruct (b_put_if_absent w key body) as [w1 r1] eqn:Ec.
  pose proof (create_law _ _ _ _ _ Ec) as Hc. destruct r1 as [[]|e].
  - intros [= <- <-]. destruct Hc as [Hn ->]. by apply insert_subseteq.
  - intros [= <- <-]. by destruct Hc as [_ ->].
  - by destruct (Hs w1).
  - intros [= <- <-]. destruct Hc as [->|[Hn ->]]; [done|]. by apply insert_subseteq.
Qed.

(** Every manifest has its pack, and so has every uploader about to write one. *)
Record paired (c : W * gmap nat Uploader) : Prop := {
  paired_manifest : forall k n, is_Some (objects c.1 !! v3_manifest_key prefix k n) ->
    is_Some (objects c.1 !! v3_pack_key prefix k n);
  paired_pending : forall i u, c.2 !! i = Some u -> up_phase u = ManifestPending ->
    is_Some (objects c.1 !! v3_pack_key prefix (up_key u) (up_crate u));
}.
Lemma upload_step_paired c c' : upload_step c c' -> paired c -> paired c'.
Proof.
  intros Hs [Hm Hp]. destruct Hs as [w us i u Hi Hph|w us i u w' r Hi Hph Hput|w us i u w' r Hi Hph Hput|w us i u Hi];
    cbn in *.
  - split; cbn; [done|]. intros j v [[<- <-]|[_ Hj]]%lookup_insert_Some; [congruence|eauto].
  - apply put_immutable_spec in Hput as [Hw Hok].
    assert (forall k n, is_Some (objects w !! v3_pack_key prefix k n) -> is_Some (objects w' !! v3_pack_key prefix k n))
      as Hmono by (intros k n Hk; destruct Hw as [->| ->]; [done|]; apply lookup_insert_is_Some'; by right).
    split; cbn.
    + intros k n Hk. apply Hmono, Hm. destruct Hw as [E|E]; rewrite E in Hk; [done|].
      rewrite lookup_insert_ne in Hk; [done|]. intros Eq. by apply (manifest_pack_distinct _ _ _ _ _ (eq_sym Eq)).
    + intros j v [[<- <-]|[_ Hj]]%lookup_insert_Some; cbn; [|eauto]. destruct (is_ok r); [auto|done].
  - apply put_immutable_spec in Hput as [Hw _].
    assert (forall k n, is_Some (objects w !! v3_pack_key prefix k n) -> is_Some (objects w' !! v3_pack_key prefix k n))
      as Hmono by (intros k n Hk; destruct Hw as [->| ->]; [done|]; apply lookup_insert_is_Some'; by right).
    split; cbn.
    + intros k n Hk. destruct (decide (v3_manifest_key prefix k n = v3_manifest_key prefix (up_key u) (up_crate u)))
        as [E|Hne]; [rewrite (manifest_key_same _ _ _ _ _ E); eauto|].
      apply Hmono, Hm. destruct Hw as [E|E]; rewrite E in Hk; [done|]. by rewrite lookup_insert_ne in Hk.
    + intros j v [[<- <-]|[_ Hj]]%lookup_insert_Some; cbn; [done|eauto].
  - split; cbn; [done|]. intros j v [[<- <-]|[_ Hj]]%lookup_insert_Some; [done|eauto].
Qed.
Lemma upload_run_paired c c' : rtc upload_step c c' -> paired c -> paired c'.
Proof. intros Hr. induction Hr; eauto using upload_step_paired. Qed.

(** [upload_entry] is a run of these steps. *)
Context (pack : list (string * string) -> string) `{!JsonCodec EntryMeta} `{!RustValue V3Manifest}
  `{!JsonCodec V3Manifest}.
Lemma upload_entry_run deadline clock st w key crate_name w' r us i :
  us !! i = None ->
  upload_entry prefix pack deadline clock st w key crate_name = (w', r) ->
  exists us', rtc upload_step (w, us) (w', us').
Proof.
  intros Hi. unfold upload_entry.
  destruct (prepare_upload _ _ _ _ _ _ _) as [[packed manifest]|e]; [|intros [= <- <-]; eexists; reflexivity].
  set (u := {| up_key := key; up_crate := crate_name; up_pack := packed; up_manifest := manifest;
               up_phase := PackPending |}).
  destruct (put_immutable w (v3_pack_key prefix key crate_name) packed) as [w1 r1] eqn:E1.
  assert (rtc upload_step (w, us)
    (w1, <[i := set_phase (if is_ok r1 then ManifestPending else Finished) u]> (<[i := u]> us))) as Hrun.
  { eapply rtc_l; [by apply (up_start w us i u)|]. apply rtc_once. eapply up_put_pack; [by rewrite lookup_insert_eq|done|done]. }
  destruct r1 as [[]|e]; [|intros [= <- <-]; by eexists].
  destruct (deadline_io_check _ (uc_pack_put clock) _) as [[]|e]; [|intros [= <- <-]; by eexists].
  destruct (put_immutable w1 (v3_manifest_key prefix key crate_name) manifest) as [w2 r2] eqn:E2.
  assert (exists us', rtc upload_step (w, us) (w2, us')) as Hdone.
  { eexists. eapply rtc_r; [exact Hrun|]. eapply (up_put_manifest w1 _ i (set_phase ManifestPending u));
      [by rewrite lookup_insert_eq|done|done]. }
  by destruct r2; intros [= <- <-].
Qed.

(** Documented: the file keys under a prefix. *)
Definition list_law : Prop := forall w p l, b_list w p = Ok l ->
  forall key, key ∈ l <-> is_Some (objects w !! key) /\ starts_with p key = true.

(** C24. What the remote lists can be fetched.  From an empty remote, in every
    interleaving of uploads by any number of machines, some of which stop half
    way, the keys listed are exactly those whose manifest was uploaded, and each
    of them has its pack. *)
Theorem listed_entries_have_packs w0 w us m :
  list_law -> objects w0 = ∅ -> rtc upload_step (w0, ∅) (w, us) -> list_keys prefix w = Ok m ->
  (forall key c, m !! key = Some c ->
     is_valid_cache_key key = true /\ is_valid_crate_name c = true /\
     is_Some (objects w !! v3_manifest_key prefix key c) /\ is_Some (objects w !! v3_pack_key prefix key c)) /\
  (forall key c, is_valid_cache_key key = true -> is_valid_crate_name c = true ->
     is_Some (objects w !! v3_manifest_key prefix key c) -> is_Some (m !! key)).
Proof.
  intros Hlist H0 Hrun. unfold list_keys. intros Hm. inv_result. rename select (b_list _ _ = _) into Hl.
  pose proof (Hlist _ _ _ Hl) as Hkeys.
  assert (paired (w, us)) as [Hpair _].
  { eapply upload_run_paired; [exact Hrun|]. split; cbn; [intros k c; by rewrite H0, lookup_empty; intros []|done]. }
  split.
  - intros key c [Hin|?]%extend_keys_sound; [|by rewrite lookup_empty in *].
    apply list_elem_of_omap in Hin as (o & Ho & Hp%parse_manifest_key_exact).
    destruct Hp as (-> & Hk & Hc). apply Hkeys in Ho as [Ho _]. split_and!; auto.
  - intros key c Hk Hc Ho. apply extend_keys_complete. right. exists c. apply list_elem_of_omap.
    exists (v3_manifest_key prefix key c). split; [|by apply parse_manifest_key_exact].
    apply Hkeys. split; [done|]. rewrite manifest_key_under. apply starts_with_app. by eexists.
Qed.

Lemma upload_run_keeps c c' :
  (forall w key body w', b_put_if_absent w key body <> (w', Ok CreateUnsupported)) ->
  rtc upload_step c c' -> objects c.1 ⊆ objects c'.1.
Proof.
  intros Hs Hr. induction Hr as [|c1 c2 c3 Hstep Hr IH]; [done|].
  etrans; [|exact IH]. destruct Hstep; cbn; try done; eapply put_immutable_keeps; eauto.
Qed.
(** Uploaded objects are immutable: on a remote that supports create-only
    writes, no interleaving of uploads replaces or removes an object. *)
Theorem uploads_never_rewrite w us w' us' :
  (forall w key body w', b_put_if_absent w key body <> (w', Ok CreateUnsupported)) ->
  rtc upload_step (w, us) (w', us') -> objects w ⊆ objects w'.
Proof. apply upload_run_keeps. Qed.
End Uploads.
