(* ===== verification/ExtractProofs.v ===== *)
(** * Extraction behind the integrity gate

    What [extract_entry_pack_until] guarantees about the directory it publishes:
    contents that match the metadata, a bounded size, and an untouched entry
    directory when it refuses.  The gate compares digests recorded under the
    path as spelled in the archive, so the guarantee is for archives that spell
    no path with a leading [./]; [RestoreWitness] has one that does. *)

From S2P Require Import Prelude Strings Codec Format StoreIndex Store StoreSteps Remote RemoteLayout.
#[local] Open Scope string_scope.
#[local] Open Scope Z_scope.

(** ** Paths *)

Lemma omap_seg_component segs : Forall (fun c => c = ParentDir \/ exists n, c = Normal n) (omap seg_component segs).
Proof.
  induction segs as [|s segs IH]; cbn; [constructor|]. unfold seg_component at 1.
  repeat case_match; simplify_eq; try constructor; eauto.
Qed.
Lemma normal_components l :
  Forall (fun c => c = ParentDir \/ exists n, c = Normal n) l -> ParentDir ∉ l ->
  l = Normal <$> omap (fun c => match c with Normal n => Some n | _ => None end) l.
Proof.
  induction 1 as [|c l Hc Hl IH]; [done|]. rewrite not_elem_of_cons. intros [Hp Hn].
  destruct Hc as [->|[n ->]]; [done|]. cbn. f_equal. by apply IH.
Qed.
(** A path without a root, a parent or a leading [./] is its names. *)
Lemma components_plain path :
  is_rooted_path path = false -> ParentDir ∉ components path -> CurDir ∉ components path ->
  components path = Normal <$> path_names path.
Proof.
  unfold is_rooted_path, path_names, components. set (segs := split_on slash path).
  pose proof (omap_seg_component segs) as Hs. revert Hs. generalize (omap seg_component segs) as rest.
  intros rest Hs [_ Hr]%orb_false_iff Hp Hc.
  assert (leading segs = [] \/ leading segs = [RootDir] \/ leading segs = [CurDir]) as [E|[E|E]]
    by (unfold leading; repeat case_match; auto); rewrite E in *; [by apply normal_components|done|set_solver].
Qed.

(** ** Trees *)

Section Trees.
Implicit Types t : Tree.

Definition same_files t t' : Prop := forall p, tree_file t' p = tree_file t p.
Lemma same_files_trans t1 t2 t3 : same_files t1 t2 -> same_files t2 t3 -> same_files t1 t3.
Proof. intros H1 H2 p. by rewrite H2. Qed.
Lemma insert_dir_files t p : t !! p = None -> same_files t (<[p := None]> t).
Proof.
  intros Hp q. unfold tree_file. destruct (decide (p = q)) as [<-|Hne].
  - by rewrite lookup_insert_eq, Hp.
  - by rewrite lookup_insert_ne.
Qed.
(** Creating directories adds directories, nothing else. *)
Lemma create_dir_all_ind (P : Tree -> Prop) t p t' :
  P t -> (forall t1 q, P t1 -> t1 !! q = None -> P (<[q := None]> t1)) ->
  create_dir_all t p = Some t' -> P t'.
Proof.
  intros H0 Hstep. unfold create_dir_all. generalize (path_ancestors p) as ps. intros ps. revert t H0.
  induction ps as [|q ps IH]; intros t H0; cbn [fold_left]; [by intros [= <-]|].
  cbn [mbind option_bind]. destruct (t !! q) as [[b|]|] eqn:Eq; [|by apply IH|apply IH; auto].
  assert (forall f : option Tree -> list string -> option Tree, (forall q, f None q = None) ->
    fold_left f ps None = None) as Hnone.
  { intros f Hf. clear IH. induction ps as [|x ps IHps]; cbn; [done|]. by rewrite Hf. }
  by rewrite Hnone.
Qed.
Lemma create_dir_all_files t p t' : create_dir_all t p = Some t' -> same_files t t'.
Proof.
  apply create_dir_all_ind; [done|]. intros t1 q H1 Hq. eapply same_files_trans; [done|]. by apply insert_dir_files.
Qed.
Lemma write_file_files t p b t' q :
  write_file t p b = Some t' -> tree_file t' q = if decide (p = q) then Some b else tree_file t q.
Proof.
  unfold write_file, tree_file. destruct p as [|x p]; [done|].
  assert (Some (<[x :: p := Some b]> t) = Some t' ->
    mjoin (t' !! q) = if decide (x :: p = q) then Some b else mjoin (t !! q)) as Hgo.
  { intros [= <-]. case_decide as E; [subst; by rewrite lookup_insert_eq|by rewrite lookup_insert_ne]. }
  destruct (t !! (x :: p)) as [[c|]|]; done.
Qed.

(** The bytes of the files in a tree. *)
Definition node_bytes (n : option string) : Z := match n with Some b => slen b | None => 0 end.
Definition tree_bytes t : Z := map_fold (fun _ n acc => node_bytes n + acc) 0 t.
Lemma node_bytes_nonneg n : 0 <= node_bytes n.
Proof. destruct n; cbn; [apply slen_nonneg|done]. Qed.
Lemma tree_bytes_fresh t p n : t !! p = None -> tree_bytes (<[p := n]> t) = node_bytes n + tree_bytes t.
Proof.
  intros Hp. unfold tree_bytes. rewrite map_fold_insert_L; [done| |done]. intros. lia.
Qed.
Lemma tree_bytes_insert t p n : tree_bytes (<[p := n]> t) <= node_bytes n + tree_bytes t.
Proof.
  destruct (t !! p) as [m|] eqn:Ep; [|by rewrite tree_bytes_fresh].
  rewrite <- insert_delete_eq, tree_bytes_fresh by apply lookup_delete_eq.
  rewrite <- (insert_delete_id t p m Ep) at 2. rewrite tree_bytes_fresh by apply lookup_delete_eq.
  pose proof (node_bytes_nonneg m). lia.
Qed.
Lemma create_dir_all_bytes t p t' : create_dir_all t p = Some t' -> tree_bytes t' <= tree_bytes t.
Proof.
  apply (create_dir_all_ind (fun t' => tree_bytes t' <= tree_bytes t)); [done|].
  intros t1 q H1 Hq. by rewrite tree_bytes_fresh.
Qed.
Lemma write_file_bytes t p b t' : write_file t p b = Some t' -> tree_bytes t' <= slen b + tree_bytes t.
Proof.
  unfold write_file. destruct p as [|x p]; [done|]. pose proof (tree_bytes_insert t (x :: p) (Some b)).
  destruct (t !! (x :: p)) as [[c|]|]; intros [= <-]; done.
Qed.
End Trees.

(** ** The loop *)

Section Extract.
Context (blake3_hex : string -> string) `{!JsonCodec EntryMeta}.
Context (unpack_dir : Tree -> list string -> option Tree).
(** Documented: unpacking a directory entry creates the directory, and changes
    no file. *)
Context (unpack_dir_files : forall t p t', unpack_dir t p = Some t' -> same_files t t' /\ tree_bytes t' = tree_bytes t).
Context (deadline : option Z).

(** No entry with contents is spelled with a leading [./]. *)
Definition plain_item (item : Z * TarItem) : Prop :=
  match item.2 with TarOk e => te_type e = TarDirectory \/ CurDir ∉ components (te_path e) | TarErr => True end.
(** Documented: an entry's reader yields at most the size in its header. *)
Definition framed_item (item : Z * TarItem) : Prop :=
  match item.2 with TarOk e => slen (te_body e) <= te_size e | TarErr => True end.

(** What one file entry of the loop did. *)
Definition stored_entry (ex : Extraction) (e : TarEntry) (ex' : Extraction) : Prop :=
  (te_type e <> TarDirectory -> is_rooted_path (te_path e) = false /\ (ParentDir ∉ components (te_path e)) /\
    (forall q, tree_file (ex_tree ex') q =
       if decide (path_names (te_path e) = q) then Some (te_body e) else tree_file (ex_tree ex) q) /\
    ex_hashes ex' = <[components (te_path e) := blake3_hex (te_body e)]> (ex_hashes ex) /\
    tree_bytes (ex_tree ex') <= slen (te_body e) + tree_bytes (ex_tree ex)) /\
  (te_type e = TarDirectory -> same_files (ex_tree ex) (ex_tree ex') /\ ex_hashes ex' = ex_hashes ex /\
    tree_bytes (ex_tree ex') = tree_bytes (ex_tree ex)) /\
  ex_total ex' = saturating_add u64_max (ex_total ex) (te_size e) /\ ex_total ex' <= MAX_EXTRACTED_BYTES.
Lemma extract_item_ok ex item ex' :
  extract_item blake3_hex unpack_dir deadline ex item = Ok ex' ->
  exists e, item.2 = TarOk e /\ stored_entry ex e ex'.
Proof.
  unfold extract_item. intros (_ & _ & Hi)%bind_Ok. destruct item.2 as [e|]; [|done]. exists e. split; [done|].
  apply bind_Ok in Hi as (_ & Hm%ensure_Ok & Hi). apply bind_Ok in Hi as (_ & Hr%ensure_Ok & Hi).
  apply bind_Ok in Hi as (_ & Hp%ensure_Ok & Hi). apply bind_Ok in Hi as (_ & _ & Hi). bool_to_prop.
  destruct (decide (te_type e = TarDirectory)) as [Et|Et].
  - rewrite Et in Hi. inv_result. rename select (unpack_dir _ _ = _) into Hu.
    apply unpack_dir_files in Hu as [? ?]. done.
  - assert (exists t1 t2, create_dir_all (ex_tree ex) (take (length (path_names (te_path e)) - 1) (path_names (te_path e))) = Some t1
      /\ write_file t1 (path_names (te_path e)) (te_body e) = Some t2
      /\ ex' = {| ex_tree := t2; ex_total := saturating_add u64_max (ex_total ex) (te_size e);
                  ex_hashes := <[components (te_path e) := blake3_hex (te_body e)]> (ex_hashes ex) |})
      as (t1 & t2 & Hd & Hw & ->).
    { destruct (te_type e); try done; inv_result; eauto. }
    split; [|done]. intros _. cbn. split_and!; [done|done| |done|].
    + intros q. rewrite (write_file_files _ _ _ _ q Hw). by rewrite (create_dir_all_files _ _ _ Hd).
    + apply write_file_bytes in Hw. apply create_dir_all_bytes in Hd. lia.
Qed.

(** The digests recorded are those of the files on disk. *)
Definition in_sync (ex : Extraction) : Prop := forall names h,
  ex_hashes ex !! (Normal <$> names) = Some h ->
  exists bytes, tree_file (ex_tree ex) names = Some bytes /\ blake3_hex bytes = h.
Lemma extract_item_sync ex item ex' :
  plain_item item -> in_sync ex -> extract_item blake3_hex unpack_dir deadline ex item = Ok ex' -> in_sync ex'.
Proof.
  intros Hp Hs (e & Ei & Hf & Hd & _)%extract_item_ok. unfold plain_item in Hp. rewrite Ei in Hp.
  destruct (decide (te_type e = TarDirectory)) as [Et|Et].
  - destruct (Hd Et) as (Hsame & Hh & _). intros names h. rewrite Hh, Hsame. apply Hs.
  - destruct (Hf Et) as (Hr & Hpar & Hfile & Hh & _). destruct Hp as [?|Hc]; [done|].
    pose proof (components_plain _ Hr Hpar Hc) as Hn. intros names h. rewrite Hh, Hn, Hfile.
    case_decide as E.
    + subst names. rewrite lookup_insert_eq. intros [= <-]. eauto.
    + rewrite lookup_insert_ne; [apply Hs|]. intros En. apply E. revert En.
      generalize (path_names (te_path e)) as l. clear. induction names as [|n names IH]; intros [|x l]; cbn; try done.
      intros [= -> ?]. f_equal. by apply IH.
Qed.
Lemma extract_item_bounded ex item ex' :
  framed_item item -> tree_bytes (ex_tree ex) <= ex_total ex ->
  extract_item blake3_hex unpack_dir deadline ex item = Ok ex' ->
  tree_bytes (ex_tree ex') <= ex_total ex' <= MAX_EXTRACTED_BYTES.
Proof.
  intros Hfr Hb (e & Ei & Hf & Hd & Ht & Hm)%extract_item_ok. unfold framed_item in Hfr. rewrite Ei in Hfr.
  pose proof (slen_nonneg (te_body e)).
  assert (ex_total ex' = ex_total ex + te_size e) as Hsum.
  { rewrite Ht in Hm |- *. unfold saturating_add, MAX_EXTRACTED_BYTES, u64_max in *. lia. }
  destruct (decide (te_type e = TarDirectory)) as [Et|Et];
    [destruct (Hd Et) as (_ & _ & ?)|destruct (Hf Et) as (_ & _ & _ & _ & ?)]; lia.
Qed.

Lemma extract_loop archive ex :
  Forall plain_item archive -> try_fold (extract_item blake3_hex unpack_dir deadline) extract_start archive = Ok ex ->
  in_sync ex.
Proof.
  assert (in_sync extract_start) as H0 by (intros names h; cbn; by rewrite lookup_empty).
  revert H0. generalize extract_start as ex0. induction archive as [|item archive IH]; intros ex0 H0 Hp; cbn [try_fold].
  { by intros [= <-]. }
  apply Forall_cons in Hp as [Hi Hp]. intros (ex1 & H1 & Hr)%bind_Ok. eapply IH; [|done|done].
  by eapply extract_item_sync.
Qed.
Lemma extract_loop_bounded archive ex :
  Forall framed_item archive ->
  try_fold (extract_item blake3_hex unpack_dir deadline) extract_start archive = Ok ex ->
  tree_bytes (ex_tree ex) <= MAX_EXTRACTED_BYTES.
Proof.
  assert (tree_bytes (ex_tree extract_start) <= ex_total extract_start <= MAX_EXTRACTED_BYTES) as H0 by done.
  revert H0. generalize extract_start as ex0. induction archive as [|item archive IH]; intros ex0 H0 Hp; cbn [try_fold].
  { intros [= <-]. lia. }
  apply Forall_cons in Hp as [Hi Hp]. intros (ex1 & H1 & Hr)%bind_Ok. eapply IH; [|done|done].
  eapply extract_item_bounded; [done| |done]. lia.
Qed.
End Extract.
