(* ===== verification/Prefetch.v ===== *)
(** * Restoring entries into the store

    Where the daemon ([src/daemon.rs]) joins the transport to the store: an
    extracted directory becomes the entry's directory, a single download is
    imported by itself, and the entries of prefetch packs are claimed, extracted
    and imported as one batch. *)

From S2P Require Import Prelude Strings Codec Format StoreIndex StorePolicy Store Remote RemoteLayout.
#[local] Open Scope string_scope.
#[local] Open Scope Z_scope.

(** ** Entry directories *)

Definition dir_files (key : string) (t : Tree) : gmap (string * list string) string :=
  kmap (pair key) (omap id t).
(** The store after the directory of [key] was replaced. *)
Definition set_entry_dir (key : string) (dir : option Tree) (st : Store) : Store :=
  let others := remove_dir key (entry_files st) in
  set_entry_files (match dir with Some t => dir_files key t ∪ others | None => others end) st.
(** A directory with a file in it. *)
Definition entry_dir_in_use (key : string) (st : Store) : bool :=
  negb (bool_decide (filter (fun file => file.1.1 = key) (entry_files st) = ∅)).

Section Restore.
Context (blake3_hex : string -> string) `{!JsonCodec EntryMeta} `{ArtifactPolicy} (cfg : Config).
Context (unpack_dir : Tree -> list string -> option Tree).

(** One entry of a decoded prefetch pack: its descriptor, the archive its payload
    decodes to, the clock, and how the file system answers; [pe_empty_dir]: the
    entry's directory exists without a file in it. *)
Record PackedEntry := {
  pe_cache_key : string;
  pe_crate_name : string;
  pe_meta_digest : string;
  pe_archive : Archive;
  pe_start : Z;
  pe_checked : Z;
  pe_publication : Publication;
  pe_empty_dir : bool;
}.
(** The batch so far; a claim on a key is held for as long as its entry is in
    the batch. *)
Record Batch := { bt_store : Store; bt_verified : list VerifiedRestoredEntry }.

(** [try_claim_packed_download] *)
Definition try_claim_packed_download (b : Batch) (e : PackedEntry) : bool :=
  negb (entry_dir_in_use (pe_cache_key e) (bt_store b) || pe_empty_dir e)
  && negb (bool_decide (pe_cache_key e ∈ map vre_cache_key (bt_verified b))).
(** The loop body of the daemon's packed prefetch; it sets no deadline. *)
Definition prefetch_entry (b : Batch) (e : PackedEntry) : Batch :=
  if negb (try_claim_packed_download b e) then b else
  match extract_verified_prefetch_entry blake3_hex unpack_dir None (pe_start e) (pe_checked e)
          (pe_publication e) None (pe_cache_key e) (pe_crate_name e) (pe_meta_digest e) (pe_archive e) with
  | (dir, Ok (key, meta)) =>
      {| bt_store := set_entry_dir key dir (bt_store b);
         bt_verified := bt_verified b ++ [{| vre_cache_key := key; vre_meta := meta |}] |}
  | (dir, Err _) =>
      {| bt_store := set_entry_dir (pe_cache_key e) dir (bt_store b); bt_verified := bt_verified b |}
  end.
(** [discard_uncommitted_packed_entries]: it stops at the first error. *)
Fixpoint discard_uncommitted_packed_entries (st : Store) (es : list VerifiedRestoredEntry) : Store :=
  match es with
  | [] => st
  | e :: es =>
      match discard_uncommitted_restored_entry cfg st (vre_cache_key e) with
      | Ok st => discard_uncommitted_packed_entries st es
      | Err _ => st
      end
  end.
(** The packed prefetch: extract every entry, import the batch, clean up when the
    import fails. *)
Definition packed_prefetch (now : Z) (st : Store) (es : list PackedEntry)
    : list VerifiedRestoredEntry * (Store * result StoreError Z) :=
  let b := fold_left prefetch_entry es {| bt_store := st; bt_verified := [] |} in
  (bt_verified b,
   if bool_decide (bt_verified b = []) then (bt_store b, Ok 0) else
   match import_verified_restored_entries blake3_hex cfg now (bt_store b) (bt_verified b) with
   | (st, Ok n) => (st, Ok n)
   | (st, Err err) => (discard_uncommitted_packed_entries st (bt_verified b), Err err)
   end).

(** A single download: fetch, extract into the entry's directory, import. *)
Definition restore_entry {W} `{RemoteBackend W} (unpack : string -> Archive) (prefix : string)
    (deadline : option Z) (clock : DownloadClock) (w : W) (now : Z) (st : Store)
    (cache_key crate_name : string) (dest : option Tree)
    : Store * result DownloadError (result StoreError unit) :=
  match download_entry blake3_hex unpack_dir unpack prefix deadline clock w cache_key crate_name dest with
  | (dest, Err e) => (set_entry_dir cache_key dest st, Err e)
  | (dest, Ok _) =>
      let '(st, r) := import_restored_entry blake3_hex cfg now (set_entry_dir cache_key dest st) cache_key in
      (st, Ok r)
  end.
End Restore.
