(* ===== verification/RestoreProofs.v ===== *)
(** * Restored entries

    The integrity gate, the clean refusal, and the prefetch path end to end:
    claims, extraction and the batch import together keep the store's invariants
    and its content addressing. *)

From S2P Require Import Prelude Strings Codec Format StoreIndex StoreIndexProofs StorePolicy Store StoreSteps.
From S2P Require Import StoreProofs StoreRefinement Remote RemoteLayout ExtractProofs Prefetch.
#[local] Open Scope string_scope.
#[local] Open Scope Z_scope.

(** ** The gate *)

Section Gate.
Context (blake3_hex : string -> string) `{!JsonCodec EntryMeta}.
Context (unpack_dir : Tree -> list string -> option Tree).
Context (unpack_dir_files : forall t p t', unpack_dir t p = Some t' -> same_files t t' /\ tree_bytes t' = tree_bytes t).
Context (deadline : option Z).

Lemma try_fold_each {E A} (f : A -> result E unit) l u :
  try_fold (fun _ x => f x) u l = Ok tt -> forall x, x ∈ l -> f x = Ok tt.
Proof.
  revert u. induction l as [|y l IH]; intros u; cbn [try_fold]; [intros _ x []%not_elem_of_nil|].
  intros (v & Hy & Hr)%bind_Ok x [->|Hx]%elem_of_cons; [by destruct v|eauto].
Qed.
Lemma safe_name_path n : is_safe_artifact_name n = true -> components n = Normal <$> path_names n.
Proof. intros [x Hx]%safe_name_components. unfold path_names. by rewrite Hx. Qed.

(** What a directory that passed the gate holds. *)
Record passed (expected : option ExpectedEntryBinding) (t : Tree) (meta : EntryMeta) : Prop := {
  passed_meta : exists content, tree_file t ["meta.json"] = Some content /\ from_slice content = Some meta /\
    (forall x digest, expected = Some x -> xb_meta_digest x = Some digest -> blake3_hex content = digest);
  passed_schema : key_schema meta = CACHE_KEY_VERSION;
  passed_binding : forall x, expected = Some x -> cache_key meta = xb_cache_key x /\ crate_name meta = xb_crate_name x;
  passed_files : forall f, f ∈ files meta ->
    is_blob_hash (hash f) = true /\ is_safe_artifact_name (name f) = true /\
    exists bytes, tree_file t (path_names (name f)) = Some bytes /\ blake3_hex bytes = hash f;
}.
Lemma integrity_gate_passed ex now expected meta :
  in_sync blake3_hex ex -> integrity_gate deadline ex now expected = Ok meta -> passed expected (ex_tree ex) meta.
Proof.
  intros Hs. unfold integrity_gate. intros Hg. inv_result. bool_to_prop.
  rename select (check_expected _ _ _ = _) into Hx.
  rename select (tree_file _ _ = Some _) into Hc. rename select (from_slice _ = Some _) into Hm.
  split; [|done| |].
  - eexists. split_and!; [done..|]. intros b digest -> Hd. cbn in Hx. unfold check_binding in Hx. rewrite Hd in Hx. inv_result.
    rename select (ex_hashes ex !! _ = Some _) into Hh.
    destruct (Hs ["meta.json"] _ Hh) as (bytes & Hb & <-). bool_to_prop. congruence.
  - intros b ->. cbn in Hx. unfold check_binding in Hx. inv_result. by bool_to_prop.
  - intros f Hf. rename select (try_fold (fun _ f => check_declared f) _ _ = _) into Hdecl.
    rename select (try_fold (fun _ f => check_content ex f) _ _ = _) into Hcont.
    apply try_fold_each with (x := f) in Hdecl; [|done]. apply try_fold_each with (x := f) in Hcont; [|done].
    unfold check_declared in Hdecl. inv_result. split_and!; [done..|]. unfold check_content in Hcont.
    rewrite safe_name_path in Hcont by done. destruct (ex_hashes ex !! _) as [actual|] eqn:Eh; [|done].
    inv_result. bool_to_prop. subst. by apply Hs.
Qed.
Lemma publish_tree_ok pub dest t dest' :
  publish_tree deadline pub dest t = (dest', Ok tt) -> dest' = Some t.
Proof.
  unfold publish_tree. case_match; [|done]. destruct (pb_rename pub); [by intros [= <- _]|].
  destruct (pb_copy_stops pub); [done|]. by intros [= <- _].
Qed.

(** C20. What passes the integrity gate is what the metadata says.  When
    extraction succeeds on an archive without [./] spellings, the published
    directory holds a [meta.json] that parses to the returned metadata, of the
    current key schema, for the requested key and crate and with the announced
    digest; every artifact it declares is there under a safe name with bytes that
    hash to its content address; and the files together stay within the
    extraction cap. *)
Theorem extraction_sound start checked pub dest archive expected dest' x :
  Forall plain_item archive -> Forall framed_item archive ->
  extract_entry_pack_until blake3_hex unpack_dir deadline start checked pub dest archive expected
    = (dest', Ok x) ->
  exists t, dest' = Some t /\ passed expected t (xe_meta x) /\ tree_bytes t <= MAX_EXTRACTED_BYTES.
Proof.
  intros Hp Hf. unfold extract_entry_pack_until.
  destruct (_ ≫= _) as [[ex meta]|e] eqn:Hrun; [|done].
  destruct (publish_tree _ _ _ _) as [d [[]|e]] eqn:Hpub; [|done]. intros [= <- <-].
  apply publish_tree_ok in Hpub as ->. inv_result. exists (ex_tree ex). cbn. split_and!; [done| |].
  - eapply integrity_gate_passed; [|done]. by eapply extract_loop.
  - by eapply extract_loop_bounded.
Qed.

(** The errors that can be raised once publication has begun. *)
Definition publication_error (e : ExtractError) : Prop :=
  e = PublishFailed \/ e = ExtractDeadline "entry publication".
(** A refused download leaves the entry as it was: whenever extraction fails,
    the entry's directory is unchanged, unless everything was verified and the
    failure is the publication's own (the rename and the copy failed, or the
    deadline passed at that very point). *)
Theorem refused_extraction_keeps_entry start checked pub dest archive expected dest' e :
  extract_entry_pack_until blake3_hex unpack_dir deadline start checked pub dest archive expected
    = (dest', Err e) ->
  dest' = dest \/ publication_error e.
Proof.
  unfold extract_entry_pack_until. destruct (_ ≫= _) as [[ex meta]|e0] eqn:Hrun; [|by intros [= <- _]; left].
  destruct (publish_tree _ _ _ _) as [d [[]|e1]] eqn:Hpub; [done|]. intros [= <- <-].
  unfold publish_tree, check_deadline in Hpub. right. unfold publication_error.
  repeat (case_match; simplify_eq; auto); unfold ensure in *; repeat (case_match; simplify_eq; auto).
Qed.
End Gate.

(** ** Entry directories *)

Lemma lookup_dir_files key t k p :
  dir_files key t !! (k, p) = if decide (k = key) then tree_file t p else None.
Proof.
  unfold dir_files, tree_file. case_decide as E.
  - subst k. assert (Inj eq eq (pair key : list string -> string * list string)) by (by intros ?? [= ->]).
    rewrite lookup_kmap by apply _. rewrite lookup_omap. by destruct (t !! p) as [[|]|].
  - apply lookup_kmap_None; [by intros ?? [= ->]|]. intros q [= -> ->]. done.
Qed.
Lemma lookup_set_entry_dir key dir st k p :
  entry_files (set_entry_dir key dir st) !! (k, p) =
  if decide (k = key) then dir ≫= fun t => tree_file t p else entry_files st !! (k, p).
Proof.
  unfold set_entry_dir. cbn. pose proof (lookup_remove_dir key (entry_files st) k p) as Hr.
  destruct dir as [t|]; [|by rewrite Hr]. pose proof (lookup_dir_files key t k p) as Hd. case_decide.
  - cbn. destruct (tree_file t p) eqn:E; [by apply lookup_union_Some_l|]. by rewrite lookup_union_r.
  - by rewrite lookup_union_r, Hr.
Qed.
Lemma unused_dir key st p : entry_dir_in_use key st = false -> entry_files st !! (key, p) = None.
Proof.
  unfold entry_dir_in_use. intros Hu. bool_to_prop. destruct (entry_files st !! (key, p)) eqn:E; [|done].
  assert (filter (fun file => file.1.1 = key) (entry_files st) !! (key, p) = Some s) as Hf
    by (by apply map_lookup_filter_Some). by rewrite Hu, lookup_empty in Hf.
Qed.

Section Prefetch.
Context (blake3_hex : string -> string) `{!JsonCodec EntryMeta} `{ArtifactPolicy} (cfg : Config).
Context (unpack_dir : Tree -> list string -> option Tree).
Context (unpack_dir_files : forall t p t', unpack_dir t p = Some t' -> same_files t t' /\ tree_bytes t' = tree_bytes t).

(** A pack entry spelled plainly, whose metadata does not list [meta.json] as an
    artifact. *)
Definition extracts (e : PackedEntry) : option Tree * result ExtractError (string * EntryMeta) :=
  extract_verified_prefetch_entry blake3_hex unpack_dir None (pe_start e) (pe_checked e)
    (pe_publication e) None (pe_cache_key e) (pe_crate_name e) (pe_meta_digest e) (pe_archive e).
Record plain_entry (e : PackedEntry) : Prop := {
  plain_items : Forall plain_item (pe_archive e);
  plain_framed : Forall framed_item (pe_archive e);
  plain_no_meta : forall dir key meta, extracts e = (dir, Ok (key, meta)) -> no_meta_artifact (files meta);
}.

Lemma extracted_vouched e dir key meta st :
  plain_entry e -> extracts e = (dir, Ok (key, meta)) ->
  key = pe_cache_key e /\ vouched blake3_hex (set_entry_dir key dir st) {| vre_cache_key := key; vre_meta := meta |}.
Proof.
  intros [Hp Hf Hn] Hx. pose proof (Hn _ _ _ Hx) as Hnm. unfold extracts, extract_verified_prefetch_entry in Hx.
  case_match; [done|]. destruct (extract_entry_pack_until _ _ _ _ _ _ _ _ _) as [d [x|err]] eqn:Ex; [|done].
  injection Hx as <- <- <-. split; [done|]. split; [done|].
  unfold extract_entry_pack_until in Ex. destruct (_ ≫= _) as [[ex m]|err] eqn:Hrun; [|done].
  destruct (publish_tree _ _ _ _) as [d' [[]|err]] eqn:Hpub; [|done]. injection Ex as <- <-.
  apply publish_tree_ok in Hpub as ->. inv_result.
  rename select (integrity_gate _ _ _ _ = _) into Hg. rename select (try_fold _ _ _ = _) into Hl.
  apply (integrity_gate_passed blake3_hex) in Hg as [_ _ _ Hfiles]; [|by eapply extract_loop].
  intros f bytes Hin. unfold artifact_path. rewrite lookup_set_entry_dir, decide_True by done. cbn.
  destruct (Hfiles f Hin) as (_ & _ & b & Hb & Hh). fold (path_names (name f)). rewrite Hb. by intros [= <-].
Qed.

Record batch_ok (st : Store) (b : Batch) : Prop := {
  bo_inv : store_inv (bt_store b);
  bo_blobs : blob_files (bt_store b) = blob_files st;
  bo_vouched : Forall (vouched blake3_hex (bt_store b)) (bt_verified b);
}.
(** An entry directory is only replaced when no row relies on it. *)
Lemma set_unused_dir_inv key dir st :
  store_inv st -> entry_dir_in_use key st = false -> store_inv (set_entry_dir key dir st).
Proof.
  intros Hinv Hu. apply (inv_files st); [done|done| |done]. intros k [row Hrow]. unfold meta_path.
  rewrite lookup_set_entry_dir. case_decide as E; [|done]. subst k. exfalso.
  destruct (inv_meta _ Hinv _ _ Hrow) as (m & Hs & _). unfold stored_meta, read_meta, meta_path in Hs.
  by rewrite unused_dir in Hs.
Qed.
Lemma vouched_other key dir st e :
  vre_cache_key e <> key -> vouched blake3_hex st e -> vouched blake3_hex (set_entry_dir key dir st) e.
Proof.
  intros Hne [Hn Hv]. split; [done|]. intros f bytes Hf. unfold artifact_path.
  rewrite lookup_set_entry_dir, decide_False by done. by apply Hv.
Qed.
Lemma prefetch_entry_ok st b e :
  plain_entry e -> batch_ok st b -> batch_ok st (prefetch_entry blake3_hex unpack_dir b e).
Proof.
  intros He [Hinv Hb Hv]. unfold prefetch_entry. fold (extracts e).
  destruct (try_claim_packed_download b e) eqn:Hc; cbn [negb]; [|by split].
  unfold try_claim_packed_download in Hc. bool_to_prop. rename select (_ ∉ _) into Hnew.
  assert (forall dir, Forall (vouched blake3_hex (set_entry_dir (pe_cache_key e) dir (bt_store b))) (bt_verified b)) as Hold.
  { intros dir. apply Forall_forall. intros x Hx. apply vouched_other; [|by eapply Forall_forall in Hv].
    intros E. apply Hnew. rewrite <- E. apply list_elem_of_fmap. eauto. }
  destruct (extracts e) as [dir [[key meta]|err]] eqn:Ex; [|split; cbn; auto using set_unused_dir_inv].
  destruct (extracted_vouched _ _ _ _ (bt_store b) He Ex) as [-> Hvx].
  split; cbn; auto using set_unused_dir_inv. apply Forall_app. split; [auto|by constructor].
Qed.

(** Flushing and cleaning up after the commit. *)
Lemma finish_strict_keeps st key st' r :
  store_inv st -> finish_strict_durability blake3_hex cfg st key = (st', r) ->
  store_inv st' /\ entry_files st' = entry_files st /\ blob_files st' = blob_files st /\
  dom (entries (db st')) = dom (entries (db st)).
Proof.
  intros Hinv. unfold finish_strict_durability. destruct (durable_writes cfg); [|by intros [= <- _]].
  destruct (flush_entry_durability _ _ _ _) as [[st1 b]|e] eqn:Hf; intros [= <- _]; [|done].
  split; [by eapply flush_inv|]. unfold flush_entry_durability in Hf. inv_result.
  destruct (entries (db st) !! key) as [row|] eqn:Ek; [|by simplify_eq].
  case_match; simplify_eq; [|done]. split_and!; [done..|]. cbn. rewrite dom_insert_L.
  apply elem_of_dom_2 in Ek. set_solver.
Qed.
Lemma finish_batch_keeps es st st' r :
  Forall (fun e => no_meta_artifact (files (vre_meta e))) es -> store_inv st ->
  finish_batch blake3_hex cfg st es = (st', r) ->
  store_inv st' /\ (forall k, entry_files st' !! meta_path k = entry_files st !! meta_path k) /\
  blob_files st' = blob_files st /\ dom (entries (db st')) = dom (entries (db st)).
Proof.
  intros Hn. revert st. induction Hn as [|e es He Hn IH]; intros st Hinv; cbn [finish_batch]; [by intros [= <- _]|].
  assert (forall k, entry_files (remove_artifacts (vre_cache_key e) (files (vre_meta e)) st) !! meta_path k
    = entry_files st !! meta_path k) as Hm by (intros k; by apply no_meta_delete).
  assert (store_inv (remove_artifacts (vre_cache_key e) (files (vre_meta e)) st)) as Hinv1 by (by apply (inv_files st)).
  destruct (finish_strict_durability _ _ _ _) as [st1 r1] eqn:Ef.
  apply finish_strict_keeps in Ef as (Hinv2 & Hf2 & Hb2 & Hd2); [|done].
  assert (forall k, entry_files st1 !! meta_path k = entry_files st !! meta_path k) as Hm1 by (intros k; by rewrite Hf2).
  destruct r1 as [[]|err]; [|by intros [= <- _]].
  intros Hr. apply IH in Hr as (Hi & Hm3 & Hb3 & Hd3); [|done].
  split_and!; [done|intros k; by rewrite Hm3|by rewrite Hb3, Hb2|by rewrite Hd3, Hd2].
Qed.

(** A batch that was committed has a row for every entry. *)
Lemma import_entries_rows now es st n st' n' :
  Forall (fun e => no_meta_artifact (files (vre_meta e))) es ->
  Forall (fun e => stored_meta st (vre_cache_key e) = Some (vre_meta e)) es -> store_inv st ->
  import_verified_entries blake3_hex now st n es = (st', Ok n') ->
  forall e, e ∈ es -> is_Some (entries (db st') !! vre_cache_key e).
Proof.
  intros Hn. revert st n. induction Hn as [|e es He Hn IH]; intros st n Hs Hinv; cbn [import_verified_entries].
  { intros _ e []%not_elem_of_nil. }
  apply Forall_cons in Hs as [Hs Hss]. destruct (import_verified_entry _ _ _ _) as [st1 [n1|err]] eqn:E1; [|done].
  pose proof (import_entry_inv _ _ _ _ _ _ He Hs Hinv E1) as [Hinv1 Hx1].
  assert (Forall (fun e => stored_meta st1 (vre_cache_key e) = Some (vre_meta e)) es) as Hss1.
  { eapply Forall_impl; [exact Hss|]. cbn. intros y <-. apply stored_meta_frame, Hx1. }
  intros Hr e' [->|Hin]%elem_of_cons; [|by eapply IH].
  assert (is_Some (entries (db st1) !! vre_cache_key e)) as [row Hrow].
  { unfold import_verified_entry in E1. rewrite index_settled in E1 by done.
    destruct (move_verified_blobs _ _ _) as [st2 [[]|]] eqn:Hmv; [|done].
    apply move_verified_blobs_spec in Hmv as (Hdb & _); [|done]. cbn in Hdb.
    destruct (entries (db st) !! vre_cache_key e) as [row|] eqn:Er; injection E1 as <- _.
    - rewrite Hdb, Er. eauto.
    - cbn. rewrite lookup_insert_eq. eauto. }
  destruct (import_entries_inv _ _ _ _ _ _ _ Hn Hss1 Hinv1 Hr) as [_ Hx2].
  exists row. by eapply lookup_weaken, (ext_rows _ _ Hx2).
Qed.
Lemma discard_keeps st es :
  store_inv st -> store_inv (discard_uncommitted_packed_entries cfg st es)
  /\ blob_files (discard_uncommitted_packed_entries cfg st es) = blob_files st.
Proof.
  revert st. induction es as [|e es IH]; intros st Hinv; cbn; [done|].
  destruct (discard_uncommitted_restored_entry cfg st (vre_cache_key e)) as [st1|] eqn:Ed; [|done].
  pose proof (discard_inv _ _ _ _ Hinv Ed) as Hinv1. destruct (IH st1 Hinv1) as [Hi Hb]. split; [done|].
  rewrite Hb. unfold discard_uncommitted_restored_entry in Ed. inv_result. by case_match.
Qed.

(** The whole batch import keeps what the steps keep. *)
Lemma import_verified_keeps now st es st' r :
  Forall (vouched blake3_hex st) es -> store_inv st -> addressed blake3_hex (blob_files st) ->
  import_verified_restored_entries blake3_hex cfg now st es = (st', r) ->
  store_inv st' /\ addressed blake3_hex (blob_files st') /\
  (forall n, r = Ok n -> forall e, e ∈ es ->
     is_Some (entries (db st') !! vre_cache_key e) /\ stored_meta st' (vre_cache_key e) = Some (vre_meta e)).
Proof.
  intros Hv Hinv Ha. unfold import_verified_restored_entries.
  destruct (import_preflight cfg st es) as [[]|e] eqn:Hp; [|by intros [= <- <-]].
  destruct (import_batch _ _ _ _) as [st1 r1] eqn:Hb.
  destruct (import_batch_inv _ _ _ _ _ _ _ Hv Hp Hinv Hb) as [Hinv1 Hx1].
  pose proof (import_batch_addressed _ _ _ _ _ _ Hv Hb Ha) as Ha1.
  destruct r1 as [n|e]; [|by intros [= <- <-]].
  assert (Forall (fun e => no_meta_artifact (files (vre_meta e))) es) as Hn
    by (eapply Forall_impl; [exact Hv|by intros ? []]).
  assert (Forall (fun e => stored_meta st (vre_cache_key e) = Some (vre_meta e)) es) as Hs.
  { unfold import_preflight in Hp. inv_result. by eapply preflight_stored. }
  assert (forall e, e ∈ es -> is_Some (entries (db st1) !! vre_cache_key e)) as Hrows.
  { unfold import_batch in Hb. destruct (import_verified_entries _ _ _ _ _) as [st2 [n2|]] eqn:E2; [|done].
    injection Hb as <- _. by eapply import_entries_rows. }
  destruct (finish_batch _ _ _ _) as [st2 r2] eqn:Hf.
  apply finish_batch_keeps in Hf as (Hinv2 & Hm2 & Hb2 & Hd2); [|done..].
  destruct r2 as [[]|e]; intros [= <- <-]; rewrite Hb2; (split_and!; [done..|]); [|done].
  intros n' _ e He. split.
  - apply elem_of_dom. rewrite Hd2. by apply elem_of_dom, Hrows.
  - rewrite (stored_meta_frame st st2); [by eapply Forall_forall in Hs|]. rewrite Hm2. apply Hx1.
Qed.

(** C14. Prefetching a pack keeps the store sound, end to end, when its entries are plain
    ([plain_entry]: no archive spells a member path with [./], no member is longer
    than its header says, and no metadata lists an artifact called [meta.json]).
    From a store whose invariant holds and whose blobs are content-addressed,
    claiming, extracting and batch-importing such entries (each of which may be
    refused, already present, or fail while it is published, and the import itself
    may fail) leads to such a store again; and when the import succeeds, every entry
    of the batch is a hit with its own metadata, and every blob it names carries
    the bytes its address is the digest of. *)
Theorem packed_prefetch_sound now st es verified st' r :
  store_inv st -> addressed blake3_hex (blob_files st) -> Forall plain_entry es ->
  packed_prefetch blake3_hex cfg unpack_dir now st es = (verified, (st', r)) ->
  store_inv st' /\ addressed blake3_hex (blob_files st') /\
  (forall n, r = Ok n -> forall e, e ∈ verified ->
     contains_key st' (vre_cache_key e) = true /\ stored_meta st' (vre_cache_key e) = Some (vre_meta e) /\
     forall f, f ∈ files (vre_meta e) -> exists bytes,
       blob_files st' !! hash f = Some bytes /\ blake3_hex bytes = hash f).
Proof.
  intros Hinv Ha Hes. unfold packed_prefetch.
  set (b := fold_left _ es _).
  assert (batch_ok st b) as [Hi Hb Hv].
  { apply (fold_left_inv _ (batch_ok st)); [by split; cbn|].
    intros b0 e He. apply prefetch_entry_ok. by eapply Forall_forall in Hes. }
  intros [= <- Hr]. rewrite <- Hb in Ha. case_bool_decide as Ev.
  { injection Hr as <- <-. split_and!; [done..|]. intros n _ e. rewrite Ev. by intros []%not_elem_of_nil. }
  destruct (import_verified_restored_entries _ _ _ _ _) as [st1 r1] eqn:Eimp.
  apply import_verified_keeps in Eimp as (Hi1 & Ha1 & Hok); [|done..].
  destruct r1 as [n|e]; injection Hr as <- <-.
  2: { destruct (discard_keeps st1 (bt_verified b) Hi1) as [Hd Hbd]. rewrite Hbd. done. }
  split_and!; [done..|]. intros n' [= <-] e He. destruct (Hok n eq_refl e He) as [[row Hrow] Hs].
  pose proof (inv_row_files _ _ _ Hi1 Hrow) as (m & Hm & Hfiles). rewrite Hs in Hm. injection Hm as <-.
  split_and!; [|done|].
  - unfold contains_key. rewrite Hrow, (inv_committed _ Hi1 _ _ Hrow).
    unfold stored_meta in Hs. by destruct (read_meta st1 (vre_cache_key e)).
  - intros f Hf. destruct (Hfiles f Hf) as [[bytes Hbytes] _]. eauto.
Qed.
End Prefetch.
