(* ===== verification/RoundTrip.v ===== *)
(** * From one store to another

    What one machine uploads, another restores: the upload, the remote, the
    download, the extraction and the import composed. *)

From S2P Require Import Prelude Strings Codec Format StoreIndex StoreIndexProofs StorePolicy Store StoreSteps.
From S2P Require Import StoreProofs Remote RemoteLayout RemoteProofs UploadProofs ExtractProofs Prefetch RestoreProofs.
#[local] Open Scope string_scope.
#[local] Open Scope Z_scope.

(** ** Extraction of what was packed *)

(** A member as the tar reader yields it. *)
Definition member_item (m : string * string) : TarItem :=
  TarOk {| te_path := m.1; te_type := TarRegular; te_size := slen m.2; te_body := m.2; te_broken := false |}.
(** A name of one component that can be created as a file. *)
Definition file_name (n : string) : Prop := (exists x, components n = [Normal x]) /\ names_a_file n = true.

Section Members.
Context (blake3_hex : string -> string) (unpack_dir : Tree -> list string -> option Tree).

Definition total_bytes (members : list (string * string)) : Z := fold_right (fun m acc => slen m.2 + acc) 0 members.
Definition with_member (ex : Extraction) (m : string * string) : Extraction :=
  {| ex_tree := <[path_names m.1 := Some m.2]> (ex_tree ex); ex_total := ex_total ex + slen m.2;
     ex_hashes := <[components m.1 := blake3_hex m.2]> (ex_hashes ex) |}.
Definition only_files (t : Tree) : Prop := forall p, t !! p <> Some None.

Lemma total_bytes_nonneg members : 0 <= total_bytes members.
Proof.
  induction members as [|m ms IH]; [done|]. cbn [total_bytes fold_right]. fold (total_bytes ms).
  pose proof (slen_nonneg m.2). lia.
Qed.
Lemma extract_member ex now m :
  file_name m.1 -> only_files (ex_tree ex) -> 0 <= ex_total ex ->
  ex_total ex + slen m.2 <= MAX_EXTRACTED_BYTES ->
  extract_item blake3_hex unpack_dir None ex (now, member_item m) = Ok (with_member ex m).
Proof.
  intros [[x Hx] Hf] Hfiles H0 Hm. unfold extract_item. cbn [fst snd member_item check_deadline elapsed negb].
  unfold check_deadline. cbn [elapsed negb ensure mbind result_bind te_size te_path te_type te_body te_broken].
  unfold is_rooted_path, is_absolute, starts_with.
  assert (strip_prefix "/" m.1 = None) as ->.
  { destruct (strip_prefix "/" m.1) as [r|] eqn:E; [|done]. apply strip_prefix_Some in E.
    rewrite E in Hx. unfold components in Hx. cbn in Hx. by destruct (split_on slash r). }
  rewrite Hx, Hf. assert (path_names m.1 = [x]) as Hn by (unfold path_names; by rewrite Hx).
  assert (saturating_add u64_max (ex_total ex) (slen m.2) = ex_total ex + slen m.2) as ->.
  { unfold saturating_add, MAX_EXTRACTED_BYTES, u64_max in *. lia. }
  rewrite (proj2 (Z.leb_le _ _) Hm), bool_decide_eq_false_2 by set_solver. cbn [orb negb ensure mbind result_bind].
  rewrite Hn. cbn [length Nat.sub take create_dir_all path_ancestors map seq fold_left with_context mbind result_bind].
  unfold write_file, with_member. rewrite Hn, Hx. destruct (ex_tree ex !! [x]) as [[b|]|] eqn:Et; try done.
  by destruct (Hfiles [x]).
Qed.
Lemma with_member_files ex m : only_files (ex_tree ex) -> only_files (ex_tree (with_member ex m)).
Proof. intros Hf p. cbn. intros [[_ ?]|[_ Hp]]%lookup_insert_Some; [done|by apply (Hf p)]. Qed.
Lemma extract_members archive members ex :
  map snd archive = map member_item members -> Forall (fun m => file_name m.1) members ->
  only_files (ex_tree ex) -> 0 <= ex_total ex -> ex_total ex + total_bytes members <= MAX_EXTRACTED_BYTES ->
  try_fold (extract_item blake3_hex unpack_dir None) ex archive = Ok (fold_left with_member members ex).
Proof.
  revert archive ex. induction members as [|m members IH]; intros [|[now item] archive] ex; cbn [map]; try done.
  intros [= -> Ha] [Hn Hns]%Forall_cons Hf H0 Ht. cbn [total_bytes fold_right] in Ht.
  pose proof (total_bytes_nonneg members). pose proof (slen_nonneg m.2). fold (total_bytes members) in Ht.
  cbn [try_fold fold_left]. rewrite extract_member by (done || lia). cbn [mbind result_bind].
  apply IH; [done..|by apply with_member_files| |]; cbn; lia.
Qed.
(** With distinct names every member is there at the end. *)
Lemma members_present members ex m :
  NoDup (map (fun m => path_names m.1) members) -> Forall (fun m => file_name m.1) members -> m ∈ members ->
  tree_file (ex_tree (fold_left with_member members ex)) (path_names m.1) = Some m.2 /\
  ex_hashes (fold_left with_member members ex) !! components m.1 = Some (blake3_hex m.2).
Proof.
  revert ex. induction members as [|m' members IH]; intros ex; cbn [map fold_left]; [intros _ _ []%not_elem_of_nil|].
  intros [Hnew Hnd]%NoDup_cons [Hn Hns]%Forall_cons [->|Hin]%elem_of_cons; [|by apply IH].
  assert (forall ex, Forall (fun m => file_name m.1) members ->
    path_names m'.1 ∉ map (fun m => path_names m.1) members ->
    tree_file (ex_tree (fold_left with_member members ex)) (path_names m'.1) = tree_file (ex_tree ex) (path_names m'.1) /\
    ex_hashes (fold_left with_member members ex) !! components m'.1 = ex_hashes ex !! components m'.1) as Hframe.
  { clear -Hn. intros ex Hns. revert ex. induction Hns as [|y members Hy Hns IH]; intros ex; cbn [map fold_left]; [done|].
    intros [Hne Hno]%not_elem_of_cons. destruct (IH (with_member ex y) Hno) as [-> ->]. unfold tree_file. cbn.
    destruct Hn as [[x Hx] _], Hy as [[z Hz] _]. unfold path_names in *. rewrite Hx, Hz in *. cbn in *.
    rewrite !lookup_insert_ne by congruence. done. }
  destruct (Hframe (with_member ex m') Hns Hnew) as [-> ->]. unfold tree_file. cbn.
  by rewrite !lookup_insert_eq.
Qed.
End Members.

(** ** Importing what was extracted *)

(** Two blob directories that agree on what both hold. *)
Definition agree (bf src : gmap string string) : Prop :=
  forall h b b', bf !! h = Some b -> src !! h = Some b' -> b = b'.

Section Importing.
Context (blake3_hex : string -> string) `{!JsonCodec EntryMeta} `{ArtifactPolicy} (cfg : Config).

Lemma move_restored key fs st src :
  (forall f, f ∈ fs -> exists b, src !! hash f = Some b /\ entry_files st !! artifact_path key (name f) = Some b) ->
  NoDup (map (fun f => path_names (name f)) fs) -> agree (blob_files st) src ->
  exists st', move_verified_blobs key fs st = (st', Ok tt) /\ db st' = db st /\ agree (blob_files st') src /\
    (forall f, f ∈ fs -> blob_files st' !! hash f = src !! hash f) /\
    blob_files st ⊆ blob_files st' /\
    (forall k p, k <> key \/ p ∉ map (fun f => path_names (name f)) fs ->
       entry_files st' !! (k, p) = entry_files st !! (k, p)).
Proof.
  revert st. induction fs as [|f fs IH]; intros st Hfs Hnd Hag; cbn [move_verified_blobs].
  { exists st. split_and!; try done. intros f []%not_elem_of_nil. }
  destruct (Hfs f) as (b & Hb & Hart); [by left|]. cbn [map] in Hnd. apply NoDup_cons in Hnd as [Hnew Hnd].
  unfold move_verified_blob. destruct (blob_files st !! hash f) as [b0|] eqn:Eb.
  - destruct (IH st) as (st' & Hm & Hdb & Hag' & Hbf & Hsub & Hfr); [|done|done|].
    { intros g Hg. apply Hfs. by right. }
    exists st'. split_and!; try done.
    + intros g [->|Hg]%elem_of_cons; [|auto]. rewrite (lookup_weaken _ _ _ _ Eb Hsub), Hb. f_equal. by eapply Hag.
    + intros k p Hkp. apply Hfr. destruct Hkp as [?|Hp]; [by left|]. right. set_solver.
  - rewrite Hart. set (st1 := {| db := _ |}).
    destruct (IH st1) as (st' & Hm & Hdb & Hag' & Hbf & Hsub & Hfr); [| done| |].
    { intros g Hg. destruct (Hfs g) as (bg & Hbg & Hag'); [by right|]. exists bg. split; [done|].
      cbn. rewrite lookup_delete_ne; [done|]. intros E. apply Hnew. injection E as E.
      apply list_elem_of_fmap. exists g. split; [exact E|done]. }
    { intros h x y. cbn. intros [[<- <-]|[_ Hx]]%lookup_insert_Some Hy; [congruence|by eapply Hag]. }
    assert (blob_files st ⊆ blob_files st1) as Hs1 by (cbn; by apply insert_subseteq).
    exists st'. split_and!; try done.
    + intros g [->|Hg]%elem_of_cons; [|auto]. rewrite Hb. eapply lookup_weaken; [|exact Hsub]. cbn. apply lookup_insert_eq.
    + by etrans.
    + intros k p Hkp. rewrite Hfr by (destruct Hkp; [by left|right; set_solver]). cbn. apply lookup_delete_ne.
      intros [= <- <-]. destruct Hkp as [?|Hp]; [done|]. set_solver.
Qed.

(** The directory of a downloaded entry, whose artifacts are [src]'s blobs. *)
Record downloaded (st : Store) (key content : string) (meta : EntryMeta) (src : gmap string string) : Prop := {
  dl_meta : entry_files st !! meta_path key = Some content;
  dl_parse : from_slice content = Some meta;
  dl_key : cache_key meta = key;
  dl_files : forall f, f ∈ files meta ->
    is_blob_hash (hash f) = true /\ is_safe_artifact_name (name f) = true /\
    exists b, src !! hash f = Some b /\ entry_files st !! artifact_path key (name f) = Some b /\
      slen b = size f /\ blake3_hex b = hash f;
  dl_names : NoDup (["meta.json"] :: map (fun f => path_names (name f)) (files meta));
}.
Lemma downloaded_check st key content meta src :
  read_only cfg = false -> downloaded st key content meta src -> import_check blake3_hex cfg st key = Ok meta.
Proof.
  intros Hro [Hm Hp Hk Hf _]. unfold import_check, refuse_write, read_meta. rewrite Hro, Hm. cbn [with_context mbind result_bind].
  rewrite Hp. cbn [with_context mbind result_bind].
  assert (forall fs, (forall f, f ∈ fs -> f ∈ files meta) ->
    try_fold (fun _ f => check_restored_file blake3_hex st key f) tt fs = Ok tt) as Hall; [|by rewrite Hall].
  induction fs as [|f fs IH]; intros Hin; [done|]. cbn [try_fold].
  destruct (Hf f) as (H1 & H2 & b & _ & Ha & Hs & Hh); [apply Hin; by left|].
  unfold check_restored_file. rewrite H1, H2, Ha. cbn [ensure with_context mbind result_bind].
  rewrite Hs, Z.eqb_refl, Hh, String.eqb_refl. cbn. apply IH. intros g Hg. apply Hin. by right.
Qed.
Lemma delete_artifacts_lookup (key k : string) (p : list string) (fs : list CachedFile)
    (m : gmap (string * list string) string) :
  delete_artifacts key fs m !! (k, p) =
  if bool_decide (k = key /\ p ∈ map (fun f => path_names (name f)) fs) then None else m !! (k, p).
Proof.
  unfold delete_artifacts. revert m. induction fs as [|f fs IH]; intros m; cbn [fold_left map].
  { rewrite bool_decide_eq_false_2; [done|]. by intros [_ ?%not_elem_of_nil]. }
  rewrite IH. destruct (decide (k = key /\ p = path_names (name f))) as [[-> ->]|Hne].
  - rewrite (bool_decide_eq_true_2 (_ /\ _ ∈ _ :: _)) by (split; [done|by left]).
    change (key, path_names (name f)) with (artifact_path key (name f)). rewrite lookup_delete_eq. by case_match.
  - rewrite lookup_delete_ne by (intros [= <- <-]; by apply Hne).
    erewrite bool_decide_ext; [reflexivity|]. rewrite elem_of_cons. naive_solver.
Qed.

(** A promoted publication is not pending. *)
Lemma finish_strict_ready st key row :
  read_only cfg = false -> entries (db st) !! key = Some row -> er_committed row = true ->
  flush_ready blake3_hex st key row = true ->
  exists st', finish_strict_durability blake3_hex cfg st key = (st', Ok tt) /\
    entry_files st' = entry_files st /\ blob_files st' = blob_files st /\
    exists row', entries (db st') !! key = Some row' /\ er_committed row' = true.
Proof.
  intros Hro Hrow Hc Hfl. unfold finish_strict_durability. destruct (durable_writes cfg).
  - unfold flush_entry_durability, refuse_write. rewrite Hro. cbn [mbind result_bind]. rewrite Hrow, Hfl.
    eexists. cbn [set_db db set_entries entries]. rewrite lookup_insert_eq. cbn [set_durable er_committed er_durable].
    rewrite Hc. split; [reflexivity|]. split_and!; [done..|]. cbn. rewrite lookup_insert_eq. by eexists.
  - eexists. split_and!; [done..|]. eauto.
Qed.
Lemma downloaded_flush st key content meta src row :
  downloaded st key content meta src -> forall st',
  entry_files st' !! meta_path key = Some content ->
  (forall f, f ∈ files meta -> blob_files st' !! hash f = src !! hash f) ->
  er_committed row = true -> er_durable row = false ->
  er_content_hash row = compute_content_hash blake3_hex (files meta) ->
  flush_ready blake3_hex st' key row = true.
Proof.
  intros [Hm Hp Hk Hf _] st' Hm' Hb Hc Hd Hh. unfold flush_ready, read_meta. rewrite Hm'. cbn [mbind option_bind].
  rewrite Hp, Hc, Hd, Hh, Hk, !String.eqb_refl. cbn [negb andb]. rewrite !andb_true_iff, !forallb_forall.
  split_and!; intros f Hin%list_elem_of_In; destruct (Hf f Hin) as (H1 & H2 & b & Hs & _ & Hsz & Hx); [done| |].
  - apply forallb_forall. intros g Hg%list_elem_of_In. destruct (String.eqb_spec (hash f) (hash g)) as [E|]; [|done].
    destruct (Hf g Hg) as (_ & _ & b' & Hs' & _ & Hsz' & _). cbn. apply Z.eqb_eq. rewrite E in Hs. congruence.
  - unfold validate_blob_metadata, blob_matches. rewrite (Hb f Hin), Hs, Hsz, Hx, Z.eqb_refl, String.eqb_refl. done.
Qed.

(** Importing a downloaded entry succeeds and the entry is then a hit. *)
Lemma import_downloaded_hit now st key content meta src :
  read_only cfg = false -> downloaded st key content meta src -> agree (blob_files st) src ->
  exists st', import_restored_entry blake3_hex cfg now st key = (st', Ok tt) /\
    (forall f, f ∈ files meta -> blob_files st' !! hash f = src !! hash f) /\
    forall retainer on_disk now' sample, exists st'',
      get blake3_hex cfg retainer on_disk now' sample st' key = (st'', Ok (Some meta)).
Proof.
  intros Hro Hd Hag. pose proof (downloaded_check _ _ _ _ _ Hro Hd) as Hck.
  pose proof Hd as [Hm Hp Hk Hf Hnd]. apply NoDup_cons in Hnd as [Hmeta Hnd].
  destruct (move_restored key (files meta) st src) as (st1 & Hmv & Hdb & Hag1 & Hbf & Hsub & Hfr); [|done|done|].
  { intros f Hin. destruct (Hf f Hin) as (_ & _ & b & ? & ? & _). eauto. }
  unfold import_restored_entry, import_downloaded_entry, refuse_write. rewrite Hro, Hck.
  unfold import_commit. rewrite Hmv.
  set (row := published_row blake3_hex now meta (sum_sizes (files meta)) (Some now)).
  set (st2 := set_db _ st1).
  assert (entry_files (remove_artifacts key (files meta) st2) !! meta_path key = Some content) as Hm2.
  { cbn. unfold meta_path. rewrite delete_artifacts_lookup, bool_decide_eq_false_2 by (by intros [_ ?]).
    rewrite Hfr by (by right). done. }
  destruct (finish_strict_ready (remove_artifacts key (files meta) st2) key row) as (st3 & Hfin & He3 & Hb3 & Hrow3);
    [done|by cbn; rewrite lookup_insert_eq|done| |].
  { by eapply (downloaded_flush _ _ _ _ _ row Hd). }
  rewrite Hfin. exists st3. rewrite Hb3. split_and!; [done|done|].
  intros retainer on_disk now' sample. destruct Hrow3 as (row' & Hr3 & Hc3).
  eexists. apply get_hits; [done| | | |].
  - unfold contains_key, read_meta. by rewrite He3, Hm2, Hr3, Hc3.
  - unfold stored_meta, read_meta. rewrite He3, Hm2. done.
  - apply not_true_iff_false. intros (f & Hin%list_elem_of_In & Ha)%existsb_exists. unfold artifact_exists in Ha.
    rewrite He3 in Ha. cbn in Ha. unfold artifact_path in Ha. fold (path_names (name f)) in Ha.
    rewrite delete_artifacts_lookup, bool_decide_eq_true_2 in Ha; [done|]. split; [done|].
    apply list_elem_of_fmap. eauto.
  - apply forallb_forall. intros f Hin%list_elem_of_In. unfold blob_ok, validate_blob_metadata, blob_matches.
    rewrite Hb3. cbn [remove_artifacts set_entry_files blob_files st2 set_db]. rewrite (Hbf f Hin).
    destruct (Hf f Hin) as (_ & _ & b & -> & _ & Hsz & Hx). by rewrite Hsz, Hx, Z.eqb_refl, String.eqb_refl, orb_true_r.
Qed.
End Importing.

(** ** The round trip *)

Lemma try_fold_passes {E A} (check : A -> result E unit) (l : list A) :
  (forall x, x ∈ l -> check x = Ok tt) -> try_fold (fun _ x => check x) tt l = Ok tt.
Proof.
  induction l as [|x l IH]; intros Hl; [done|]. cbn [try_fold]. rewrite Hl by (by left). cbn [mbind result_bind].
  apply IH. intros y Hy. apply Hl. by right.
Qed.

Section RoundTrip.
Context (blake3_hex : string -> string) `{!JsonCodec EntryMeta} `{ArtifactPolicy} (cfg : Config).
Context (unpack_dir : Tree -> list string -> option Tree).
Context {W : Type} (backend : RemoteBackend W) `{!ObjectStore W} (prefix : string).
Context `{!RustValue V3Manifest} `{!JsonCodec V3Manifest}.
(** Documented: the tar and zstd readers yield what the writers were given. *)
Context (pack : list (string * string) -> string) (unpack : string -> Archive).
Context (unpack_pack : forall members, Forall (fun m => file_name m.1) members ->
  map snd (unpack (pack members)) = map member_item members).
(** A key under which a stored object within the cap is delivered as it is. *)
Definition delivers (key : string) : Prop := forall w body,
  objects w !! key = Some body -> slen body <= MAX_COMPRESSED_BYTES ->
  b_get_into w key (Some MAX_COMPRESSED_BYTES) "" = (body, Ok (Some (slen body))).

(** An entry of a store that travels: current schema, filed under its own key and
    crate, blobs that match the metadata, and artifact names that are distinct
    plain file names. *)
Record uploadable (st : Store) (key crate content : string) (meta : EntryMeta) : Prop := {
  ul_content : read_meta st key = Some content;
  ul_utf8 : valid_utf8 content = true;
  ul_parse : from_slice content = Some meta;
  ul_schema : key_schema meta = CACHE_KEY_VERSION;
  ul_key : cache_key meta = key;
  ul_crate : crate_name meta = crate;
  ul_files : forall f, f ∈ files meta -> is_blob_hash (hash f) = true /\ file_name (name f) /\
    exists bytes, blob_files st !! hash f = Some bytes /\ slen bytes = size f /\ blake3_hex bytes = hash f;
  ul_names : NoDup (["meta.json"] :: map (fun f => path_names (name f)) (files meta));
}.
Definition upload_members (st : Store) (content : string) (meta : EntryMeta) : list (string * string) :=
  ("meta.json", content) :: map (fun f => (name f, default "" (blob_files st !! hash f))) (files meta).

Lemma pack_members_ok st key crate content meta :
  uploadable st key crate content meta -> pack_members st key meta = Ok (upload_members st content meta).
Proof.
  intros [Hc _ _ _ _ _ Hf _]. unfold pack_members, upload_members. rewrite Hc. cbn [with_context mbind result_bind].
  assert (forall fs acc, (forall f, f ∈ fs -> f ∈ files meta) ->
    try_fold (fun members f => bytes ← with_context (blob_files st !! hash f) (PackInputMissing (name f));
      Ok (members ++ [(name f, bytes)])%list) acc fs
    = Ok (acc ++ map (fun f => (name f, default "" (blob_files st !! hash f))) fs)%list) as Hall; [|by rewrite Hall].
  induction fs as [|f fs IH]; intros acc Hin; cbn [try_fold map]; [by rewrite app_nil_r|].
  destruct (Hf f) as (_ & _ & b & -> & _); [apply Hin; by left|]. cbn [with_context mbind result_bind default].
  rewrite IH by (intros g Hg; apply Hin; by right). by rewrite <- app_assoc.
Qed.
Lemma members_named st key crate content meta :
  uploadable st key crate content meta -> Forall (fun m => file_name m.1) (upload_members st content meta).
Proof.
  intros [_ _ _ _ _ _ Hf _]. constructor; [split; [by eexists|done]|]. apply Forall_forall.
  intros m (f & -> & Hin)%list_elem_of_fmap. by apply (Hf f Hin).
Qed.
Lemma members_distinct st key crate content meta :
  uploadable st key crate content meta -> NoDup (map (fun m => path_names m.1) (upload_members st content meta)).
Proof. intros Hu. pose proof (ul_names _ _ _ _ _ Hu) as Hn. cbn. by rewrite map_map. Qed.

(** Extraction publishes the uploaded members. *)
Lemma extract_uploaded st key crate content meta archive start checked pub :
  uploadable st key crate content meta -> total_bytes (upload_members st content meta) <= MAX_EXTRACTED_BYTES ->
  map snd archive = map member_item (upload_members st content meta) -> pb_rename pub = true ->
  exists t x, extract_entry_pack_until blake3_hex unpack_dir None start checked pub None archive
      (Some {| xb_cache_key := key; xb_crate_name := crate; xb_meta_digest := None |}) = (Some t, Ok x) /\
    forall m, m ∈ upload_members st content meta -> tree_file t (path_names m.1) = Some m.2.
Proof.
  intros Hu Ht Ha Hr. pose proof (members_named _ _ _ _ _ Hu) as Hnamed.
  pose proof (members_distinct _ _ _ _ _ Hu) as Hnd. destruct Hu as [Hc Hutf Hparse Hsch Hk Hcr Hf _].
  unfold extract_entry_pack_until. unfold check_deadline at 1. cbn [elapsed negb ensure mbind result_bind].
  rewrite (extract_members blake3_hex unpack_dir archive (upload_members st content meta));
    [|done|done|by intros p; cbn; rewrite lookup_empty|done|done]. cbn [mbind result_bind].
  set (ex := fold_left _ _ _).
  assert (forall m, m ∈ upload_members st content meta -> tree_file (ex_tree ex) (path_names m.1) = Some m.2 /\
    ex_hashes ex !! components m.1 = Some (blake3_hex m.2)) as Hm by (intros m; by apply members_present).
  assert (integrity_gate None ex checked
    (Some {| xb_cache_key := key; xb_crate_name := crate; xb_meta_digest := None |}) = Ok meta) as ->.
  { unfold integrity_gate, check_deadline. cbn [elapsed negb ensure mbind result_bind].
    destruct (Hm ("meta.json", content)) as [Hmeta _]; [by left|].
    change (path_names ("meta.json", content).1) with ["meta.json"] in Hmeta. rewrite Hmeta. cbn [snd with_context mbind result_bind].
    rewrite Hutf. cbn [ensure mbind result_bind]. rewrite Hparse. cbn [with_context mbind result_bind].
    rewrite Hsch. cbn [Z.eqb CACHE_KEY_VERSION Pos.eqb ensure mbind result_bind check_expected].
    unfold check_binding. cbn [xb_cache_key xb_crate_name xb_meta_digest]. rewrite Hk, Hcr, !String.eqb_refl.
    cbn [andb ensure mbind result_bind].
    assert (forall f, f ∈ files meta -> check_declared f = Ok tt /\ check_content ex f = Ok tt) as Hall.
    { intros f Hin. destruct (Hf f Hin) as (Hbh & [Hsafe _] & b & Hb & _ & Hx).
      unfold check_declared, check_content. rewrite Hbh, (proj2 (safe_name_components _) Hsafe).
      destruct (Hm (name f, b)) as [_ Hh]; [right; apply list_elem_of_fmap; exists f; by rewrite Hb|].
      cbn [fst snd] in Hh. by rewrite Hh, Hx, String.eqb_refl. }
    rewrite !try_fold_passes by (intros f Hin; by apply Hall). done. }
  cbn [mbind result_bind]. unfold publish_tree. rewrite Hr. unfold check_deadline. cbn [elapsed negb ensure].
  do 2 eexists. split; [done|]. intros m Hin. by apply Hm.
Qed.
(** A finished upload left its pack on the remote. *)
Context (create_only : forall w key body w', b_put_if_absent w key body <> (w', Ok CreateUnsupported)).
Lemma put_immutable_fresh w key body w' :
  objects w !! key = None -> put_immutable w key body = (w', Ok tt) -> objects w' !! key = Some body.
Proof.
  intros Hn Hp. pose proof (put_immutable_spec _ _ _ _ _ _ Hp) as [[E|E] Hs].
  - destruct (Hs eq_refl) as [b Hb]. by rewrite E, Hn in Hb.
  - by rewrite E, lookup_insert_eq.
Qed.
Lemma upload_leaves_pack deadline clock st w key crate content meta w' :
  uploadable st key crate content meta -> objects w !! v3_pack_key prefix key crate = None ->
  upload_entry prefix pack deadline clock st w key crate = (w', Ok tt) ->
  objects w' !! v3_pack_key prefix key crate = Some (pack (upload_members st content meta)).
Proof.
  intros Hu Hn. unfold upload_entry, prepare_upload. rewrite (ul_content _ _ _ _ _ Hu).
  destruct (deadline_io_check deadline (uc_start clock) _) as [[]|]; [|done]. cbn [with_context mbind result_bind].
  rewrite (ul_utf8 _ _ _ _ _ Hu), (ul_parse _ _ _ _ _ Hu). cbn [ensure with_context mbind result_bind].
  rewrite (pack_members_ok _ _ _ _ _ Hu). cbn [mbind result_bind].
  destruct (deadline_io_check deadline (uc_packed clock) _) as [[]|]; [|done]. cbn [mbind result_bind].
  destruct (put_immutable w _ _) as [w1 [[]|]] eqn:E1; [|done]. apply put_immutable_fresh in E1; [|done].
  destruct (deadline_io_check deadline (uc_pack_put clock) _) as [[]|]; [|done].
  destruct (put_immutable w1 _ _) as [w2 r2] eqn:E2. destruct r2; [|done].
  intros [= <- _]. eapply lookup_weaken; [exact E1|]. by eapply put_immutable_keeps.
Qed.

(** What is fetched lands in the entry's directory. *)
Lemma dir_downloaded st key crate content meta t local :
  uploadable st key crate content meta ->
  (forall m, m ∈ upload_members st content meta -> tree_file t (path_names m.1) = Some m.2) ->
  downloaded blake3_hex (set_entry_dir key (Some t) local) key content meta (blob_files st).
Proof.
  intros Hu Ht. destruct Hu as [Hc _ Hp _ Hk _ Hf Hnd]. split; try done.
  - unfold meta_path. rewrite lookup_set_entry_dir, decide_True by done. cbn. apply (Ht ("meta.json", content)). by left.
  - intros f Hin. destruct (Hf f Hin) as (Hbh & [Hsafe _] & b & Hb & Hs & Hx).
    split_and!; [done|by apply safe_name_components|]. exists b. split_and!; [done| |done|done].
    unfold artifact_path. rewrite lookup_set_entry_dir, decide_True by done. cbn. fold (path_names (name f)).
    apply (Ht (name f, b)). right. apply list_elem_of_fmap. exists f. by rewrite Hb.
Qed.

(** C3. The remote round trip.  An entry uploaded to a create-only remote by one
    machine can be restored by another one, whatever uploads happen in between:
    the download passes every gate, the import commits it, a lookup of the key
    is then a hit with the uploader's metadata, and every artifact's blob is the
    uploader's. *)
Theorem remote_round_trip upload_deadline upload_clock st w key crate content meta w1 us w2 us' local now clock :
  uploadable st key crate content meta ->
  total_bytes (upload_members st content meta) <= MAX_EXTRACTED_BYTES ->
  slen (pack (upload_members st content meta)) <= MAX_COMPRESSED_BYTES ->
  delivers (v3_pack_key prefix key crate) -> objects w !! v3_pack_key prefix key crate = None ->
  upload_entry prefix pack upload_deadline upload_clock st w key crate = (w1, Ok tt) ->
  rtc (upload_step backend prefix) (w1, us) (w2, us') ->
  read_only cfg = false -> agree (blob_files local) (blob_files st) -> pb_rename (dc_publication clock) = true ->
  exists local', restore_entry blake3_hex cfg unpack_dir unpack prefix None clock w2 now local key crate None
      = (local', Ok (Ok tt)) /\
    (forall f, f ∈ files meta -> blob_files local' !! hash f = blob_files st !! hash f) /\
    forall retainer on_disk now' sample, exists local'',
      get blake3_hex cfg retainer on_disk now' sample local' key = (local'', Ok (Some meta)).
Proof.
  intros Hu Ht Hsz Hdel Hn Hup Hrun Hro Hag Hre.
  assert (objects w2 !! v3_pack_key prefix key crate = Some (pack (upload_members st content meta))) as Hobj.
  { eapply lookup_weaken; [by eapply upload_leaves_pack|]. by apply (upload_run_keeps _ _ _ _ create_only Hrun). }
  unfold restore_entry, download_entry. unfold deadline_io_check. cbn [elapsed negb ensure].
  rewrite (Hdel _ _ Hobj Hsz).
  destruct (extract_uploaded st key crate content meta (unpack (pack (upload_members st content meta)))
    (dc_start clock) (dc_checked clock) (dc_publication clock)) as (t & x & -> & Hfiles);
    [done|done|by eapply unpack_pack, members_named|done|].
  pose proof (dir_downloaded st key crate content meta t local Hu Hfiles) as Hd.
  destruct (import_downloaded_hit blake3_hex cfg now (set_entry_dir key (Some t) local) key content meta (blob_files st))
    as (local' & -> & Hbf & Hhit); [done|done|done|].
  by exists local'.
Qed.
End RoundTrip.
