(* ===== verification/RestoreWitness.v ===== *)
(** * A concrete remote

    The remote's theorems at concrete inputs: an in-memory operator behind the
    modelled OpenDAL backend, and archives that are restored, refused, and
    wrongly accepted. *)

From S2P Require Import Prelude Strings Codec Format StoreIndex StoreIndexProofs StorePolicy Store StoreSteps.
From S2P Require Import StoreProofs StoreWitness Remote RemoteLayout RemoteProofs UploadProofs ExtractProofs.
From S2P Require Import Prefetch RestoreProofs RoundTrip.
#[local] Open Scope string_scope.
#[local] Open Scope Z_scope.

(** ** An in-memory object store *)

Abbreviation Mem := (gmap string string).
Definition mem_error (kind : ErrorKind) : OpError := {| oe_kind := kind; oe_message := ""; oe_display := "" |}.
Definition mem_read (w : Mem) (key : string) : Reading :=
  match w !! key with
  | Some body => {| rd_open := Ok tt; rd_metadata := Ok (slen body, None); rd_stat := Ok (slen body);
                    rd_chunks := [Ok body] |}
  | None => {| rd_open := Ok tt; rd_metadata := Err (mem_error EkNotFound); rd_stat := Err (mem_error EkNotFound);
               rd_chunks := [] |}
  end.
Definition mem_write (w : Mem) (key body : string) (c : WriteCondition) : Mem * ores unit :=
  match c, w !! key with
  | IfNotExists, Some _ => (w, Err (mem_error EkConditionNotMatch))
  | IfMatch _, _ => (w, Err (mem_error EkUnsupported))
  | _, _ => (<[key := body]> w, Ok tt)
  end.
Definition mem_operator : Operator Mem := {|
  op_stat w key := match w !! key with Some _ => Ok true | None => Err (mem_error EkNotFound) end;
  op_read := mem_read;
  op_write := mem_write;
  op_list w prefix := map (fun key => ListedEntry key true) (elements (filter (fun key => starts_with prefix key = true) (dom w)));
  write_with_if_not_exists := true;
  write_with_if_match := false;
|}.
#[local] Instance mem_backend : RemoteBackend Mem := opendal_backend mem_operator false (fun _ _ => true) false.
#[local] Program Instance mem_store : ObjectStore Mem := opendal_object_store mem_operator false (fun _ _ => true) false id _ _ _.
Next Obligation.
  intros w key body c w'. cbn. unfold mem_write. destruct c, (w !! key) eqn:E; intros [= <-]; done.
Qed.
Next Obligation.
  intros w key body c w' e. cbn. unfold mem_write. destruct c, (w !! key) eqn:E; intros [= <- <-]; by left.
Qed.
Next Obligation. intros w key body w' e. cbn. unfold mem_write. destruct (w !! key); [by eexists|done]. Qed.

Lemma mem_create_only (w : Mem) key body w' : b_put_if_absent w key body <> (w', Ok CreateUnsupported).
Proof.
  cbn. unfold opendal_put_if_absent. destruct (may_write _ _ _ _ _); [|done]. cbn. unfold mem_write.
  by destruct (w !! key).
Qed.
Lemma mem_delivers key :
  validate_key false "GET" key false = Ok tt -> delivers mem_backend key.
Proof.
  intros Hk w body Ho Hm. pose proof (slen_nonneg body). cbn in Ho. unfold id in Ho. cbn. unfold read_into.
  rewrite Hk. cbn [op_read mem_operator]. unfold mem_read. rewrite Ho.
  cbn [mbind result_bind rd_open rd_metadata read_advertised rd_chunks read_body]. unfold checked_add.
  rewrite (proj2 (Z.ltb_ge _ _)), (proj2 (Z.leb_le _ _)) by (unfold MAX_COMPRESSED_BYTES, u64_max in *; lia).
  rewrite (proj2 (Z.ltb_ge _ _)) by lia. cbn [verify_complete_body String.append]. by rewrite Z.eqb_refl.
Qed.
Lemma mem_list_loop prefix keys ls l :
  list_loop prefix ls (map (fun key => ListedEntry key true) keys) = Ok l -> l = (ls_entries ls ++ keys)%list.
Proof.
  revert ls. induction keys as [|k keys IH]; intros ls; cbn [map list_loop]; [intros [= <-]; by rewrite app_nil_r|].
  case_bool_decide; [done|]. case_match; [done|]. intros ->%IH. cbn. by rewrite <- app_assoc.
Qed.
Lemma mem_list_law : list_law mem_backend.
Proof.
  intros w p l. cbn. unfold opendal_list. intros Hl. inv_result. rename select (list_loop _ _ _ = _) into Hl.
  apply mem_list_loop in Hl as ->. intros key. cbn. rewrite elem_of_elements, elem_of_filter, elem_of_dom. tauto.
Qed.

(** ** Stand-ins for the archive and the manifest formats *)

#[local] Instance serial_V3Manifest : Serial V3Manifest.
Proof.
  refine {| serialize r := quote_fields [serialize (vm_version r); serialize (vm_cache_key r);
      serialize (vm_crate_name r); serialize (vm_pack_key r); serialize (vm_pack_bytes r);
      serialize (vm_original_bytes r); serialize (vm_file_count r)];
    deserialize s := match fields s with
      | [a; b; c; d; e; f; g] =>
        a ← deserialize a; b ← deserialize b; c ← deserialize c; d ← deserialize d;
        e ← deserialize e; f ← deserialize f; g ← deserialize g;
        Some (Build_V3Manifest a b c d e f g)
      | _ => None end |}.
  solve_serial.
Defined.
#[local] Instance rust_V3Manifest : RustValue V3Manifest := fun m =>
  u32_ok (vm_version m) && well_typed (vm_cache_key m) && well_typed (vm_crate_name m)
  && well_typed (vm_pack_key m) && u64_ok (vm_pack_bytes m) && u64_ok (vm_original_bytes m)
  && u64_ok (vm_file_count m).
#[local] Instance toy_manifest_codec : JsonCodec V3Manifest := serial_codec V3Manifest.

Fixpoint pairs (l : list string) : list (string * string) :=
  match l with a :: b :: l => (a, b) :: pairs l | _ => [] end.
Definition toy_pack (members : list (string * string)) : string :=
  quote_fields (members ≫= fun m => [m.1; m.2]).
Definition toy_unpack (s : string) : Archive := map (fun m => (0, member_item m)) (pairs (fields s)).
Lemma toy_unpack_pack members : map snd (toy_unpack (toy_pack members)) = map member_item members.
Proof.
  unfold toy_unpack, toy_pack. rewrite fields_quote_fields, map_map. cbn [snd]. f_equal.
  induction members as [|[a b] members IH]; cbn; [done|]. by rewrite IH.
Qed.
Lemma create_dirs_law t p t' : create_dir_all t p = Some t' -> same_files t t' /\ tree_bytes t' = tree_bytes t.
Proof.
  intros Hd. split; [by eapply create_dir_all_files|]. revert Hd.
  apply (create_dir_all_ind (fun t' => tree_bytes t' = tree_bytes t)); [done|].
  intros t1 q Ht Hq. by rewrite tree_bytes_fresh.
Qed.

(** ** An entry that travels *)

Definition content1 : string := default "" (read_meta run3 key1).
Definition no_entry : EntryMeta := Build_EntryMeta "" 0 "" [] [] "" "" [] "" "" 0 [].
Definition meta1 : EntryMeta := default no_entry (from_slice content1).
Definition file_ok (st : Store) (f : CachedFile) : bool :=
  is_blob_hash (hash f) && match components (name f) with [Normal _] => names_a_file (name f) | _ => false end
  && match blob_files st !! hash f with
     | Some b => (slen b =? size f) && String.eqb (toy_hex b) (hash f)
     | None => false
     end.
Lemma files_ok st fs :
  forallb (file_ok st) fs = true -> forall f, f ∈ fs -> is_blob_hash (hash f) = true /\ file_name (name f) /\
  exists bytes, blob_files st !! hash f = Some bytes /\ slen bytes = size f /\ toy_hex bytes = hash f.
Proof.
  intros Hall f Hin%list_elem_of_In. apply (proj1 (forallb_forall _ _) Hall) in Hin.
  unfold file_ok in Hin. bool_to_prop. unfold file_name. destruct (components (name f)) as [|[] []]; try done.
  destruct (blob_files st !! hash f); [|done]. bool_to_prop. split_and!; eauto.
Qed.
Lemma meta1_uploadable : uploadable toy_hex run3 key1 "foo" content1 meta1.
Proof.
  split; [vm_compute; reflexivity..| |].
  - apply files_ok. vm_compute. reflexivity.
  - apply (bool_decide_eq_true_1 (NoDup _)). vm_compute. reflexivity.
Qed.

Definition upload_clock : UploadClock := {| uc_start := 0; uc_packed := 1; uc_pack_put := 2; uc_manifest_put := 3 |}.
Definition publication : Publication :=
  {| pb_replacing := 0; pb_end := 0; pb_rename := true; pb_copy_stops := None |}.
Definition download_clock : DownloadClock :=
  {| dc_setup := 0; dc_start := 0; dc_checked := 0; dc_publication := publication |}.
Definition remote1 : Mem := (upload_entry "team" toy_pack (Some 10) upload_clock run3 (∅ : Mem) key1 "foo").1.

Lemma outcome_ok {A E B} (p : A * result E B) b : p.2 = Ok b -> p = (p.1, Ok b).
Proof. intros <-. apply surjective_pairing. Qed.
Lemma outcome_err {A E B} (p : A * result E B) e : p.2 = Err e -> p = (p.1, Err e).
Proof. intros <-. apply surjective_pairing. Qed.
Lemma remote1_uploaded :
  upload_entry "team" toy_pack (Some 10) upload_clock run3 (∅ : Mem) key1 "foo" = (remote1, Ok tt).
Proof. apply outcome_ok. vm_compute. reflexivity. Qed.
Lemma agree_empty src : agree ∅ src.
Proof. intros h b b'. by rewrite lookup_empty. Qed.
Lemma remote_round_trip_witness : exists local',
  restore_entry toy_hex demo_cfg create_dir_all toy_unpack "team" None download_clock remote1 5 empty_store key1 "foo" None
    = (local', Ok (Ok tt)) /\
  (forall f, f ∈ files meta1 -> blob_files local' !! hash f = blob_files run3 !! hash f) /\
  forall retainer on_disk now' sample, exists local'',
    get toy_hex demo_cfg retainer on_disk now' sample local' key1 = (local'', Ok (Some meta1)).
Proof.
  apply (remote_round_trip toy_hex demo_cfg create_dir_all mem_backend "team" toy_pack toy_unpack
    (fun m _ => toy_unpack_pack m) mem_create_only (Some 10) upload_clock run3 ∅ key1 "foo" content1 meta1
    remote1 ∅ remote1 ∅ empty_store 5 download_clock).
  - exact meta1_uploadable.
  - apply Z.leb_le. vm_compute. reflexivity.
  - apply Z.leb_le. vm_compute. reflexivity.
  - apply mem_delivers. vm_compute. reflexivity.
  - exact (lookup_empty (M:=gmap string) _).
  - exact remote1_uploaded.
  - apply rtc_refl.
  - reflexivity.
  - apply agree_empty.
  - reflexivity.
Defined.

(** ** The other theorems of the remote *)

Definition fork_env (name : string) : option string :=
  if String.eqb name "GITHUB_ACTIONS" then Some "true"
  else if String.eqb name "GITHUB_EVENT_NAME" then Some "pull_request" else None.
Definition fork_writes : list RemoteWrite :=
  [WritePut "team/v3/packs/foo/k.tar.zst" "evil"; WriteReplace "team/v3/packs/foo/k.tar.zst" "evil" None].
Definition trusted_remote : Mem := {["team/v3/packs/foo/k.tar.zst" := "good"]}.
Definition fork_access : RemoteAccess := remote_access fork_env false (Some ("team", false)) (Some "pr/7").
Lemma untrusted_ci_leaves_base_witness :
  remote_readonly fork_access = false /\
  objects (fold_left (run_write (create_backend_for mem_backend "team" (pull_request_prefix fork_access)))
             fork_writes trusted_remote) !! "team/v3/packs/foo/k.tar.zst" = Some "good".
Proof.
  assert (remote_readonly fork_access = false) as Hro by (vm_compute; reflexivity). split; [exact Hro|].
  destruct (untrusted_ci_leaves_base mem_backend fork_env false "team" false (Some "pr/7") fork_access trusted_remote
    fork_writes "team/v3/packs/foo/k.tar.zst") as [Hr|Hr].
  - reflexivity.
  - vm_compute. by eexists.
  - vm_compute. reflexivity.
  - congruence.
  - rewrite Hr. vm_compute. reflexivity.
Defined.

Lemma remote_read_bounded_witness : exists body,
  (read_into mem_operator false false trusted_remote "team/v3/packs/foo/k.tar.zst" (Some 4) "").1 = "" ++ body
  /\ slen body <= 4 /\ body = "good".
Proof.
  destruct (remote_read_bounded mem_operator false false trusted_remote "team/v3/packs/foo/k.tar.zst" 4 "" "good"
    (Ok (Some (4, None)))) as (body & Hb & Hlen & _ & Hok); [lia|vm_compute; reflexivity|].
  exists body. destruct (Hok _ _ eq_refl) as (_ & _ & -> & _). split_and!; vm_compute; [reflexivity|done|reflexivity].
Defined.

Definition uploader1 : Uploader := {| up_key := key1; up_crate := "foo"; up_pack := "pack"; up_manifest := "{}";
  up_phase := PackPending |}.
Definition remote_a : Mem := (put_immutable (∅ : Mem) (v3_pack_key "team" key1 "foo") "pack").1.
Definition remote_b : Mem := (put_immutable remote_a (v3_manifest_key "team" key1 "foo") "{}").1.
Definition listed1 : gmap string string := default ∅ (ok (list_keys "team" remote_b)).
Lemma listed1_ok : list_keys "team" remote_b = Ok listed1.
Proof.
  assert (is_ok (list_keys "team" remote_b) = true) by (vm_compute; reflexivity).
  unfold listed1. by destruct (list_keys _ _).
Qed.
Lemma upload_run_demo : exists us, rtc (upload_step mem_backend "team") ((∅ : Mem), ∅) (remote_b, us).
Proof.
  eexists. eapply rtc_l; [by apply (up_start mem_backend "team" ∅ ∅ 0 uploader1)|].
  eapply rtc_l; [eapply (up_put_pack mem_backend "team" ∅ _ 0 uploader1 remote_a (Ok tt));
    [apply lookup_insert_eq|done|apply outcome_ok; by vm_compute]|].
  eapply rtc_l; [eapply (up_put_manifest mem_backend "team" remote_a _ 0 _ remote_b (Ok tt));
    [apply lookup_insert_eq|done|apply outcome_ok; by vm_compute]|]. apply rtc_refl.
Qed.
Lemma listed_entries_have_packs_witness : is_Some (objects remote_b !! v3_pack_key "team" key1 "foo").
Proof.
  destruct upload_run_demo as [us Hrun].
  destruct (listed_entries_have_packs mem_backend "team" ∅ remote_b us listed1) as [Hl _].
  - exact mem_list_law.
  - reflexivity.
  - exact Hrun.
  - exact listed1_ok.
  - destruct (Hl key1 "foo") as (_ & _ & _ & Hp); [vm_compute; reflexivity|]. exact Hp.
Defined.
Lemma uploads_never_rewrite_witness : exists us, rtc (upload_step mem_backend "team") ((∅ : Mem), ∅) (remote_b, us)
  /\ objects (∅ : Mem) ⊆ objects remote_b.
Proof.
  destruct upload_run_demo as [us Hrun]. exists us. split; [exact Hrun|].
  exact (uploads_never_rewrite mem_backend "team" ∅ ∅ remote_b us mem_create_only Hrun).
Defined.

(** ** Extraction *)

Definition archive1 : Archive := toy_unpack (toy_pack (upload_members run3 content1 meta1)).
Definition binding1 : ExpectedEntryBinding :=
  {| xb_cache_key := key1; xb_crate_name := "foo"; xb_meta_digest := Some (toy_hex content1) |}.
Abbreviation extracted1 :=
  (extract_entry_pack_until toy_hex create_dir_all None 0 0 publication None archive1 (Some binding1)).
Definition plain_itemb (item : Z * TarItem) : bool :=
  match item.2 with
  | TarOk e => bool_decide (CurDir ∉ components (te_path e)) && (slen (te_body e) <=? te_size e)
  | TarErr => true
  end.
Lemma plain_archive archive :
  forallb plain_itemb archive = true -> Forall plain_item archive /\ Forall framed_item archive.
Proof.
  intros Ha. rewrite !Forall_forall. split; intros item Hin%list_elem_of_In; apply (proj1 (forallb_forall _ _) Ha) in Hin;
    unfold plain_itemb, plain_item, framed_item in *; case_match; try done; bool_to_prop; auto.
Qed.
Lemma archive1_plain : Forall plain_item archive1 /\ Forall framed_item archive1.
Proof. apply plain_archive. vm_compute. reflexivity. Qed.
Definition no_extraction : ExtractedEntry := {| xe_original_bytes := 0; xe_meta := no_entry |}.
Definition x1 : ExtractedEntry := default no_extraction (ok extracted1.2).
Lemma extracted1_ok : extracted1 = (extracted1.1, Ok x1).
Proof.
  assert (is_ok extracted1.2 = true) as Hok by (vm_compute; reflexivity). unfold x1. revert Hok.
  generalize extracted1. by intros [d []].
Qed.
Lemma extraction_sound_witness : exists t, extracted1.1 = Some t /\
  passed toy_hex (Some binding1) t (xe_meta x1) /\ tree_bytes t <= MAX_EXTRACTED_BYTES.
Proof.
  exact (extraction_sound toy_hex create_dir_all create_dirs_law None 0 0 publication None archive1 (Some binding1) extracted1.1 x1
    (proj1 archive1_plain) (proj2 archive1_plain) extracted1_ok).
Defined.

(** A truncated artifact is refused and the directory stays. *)
Definition bad_archive : Archive :=
  toy_unpack (toy_pack (("meta.json", content1) :: map (fun f => (name f, "")) (files meta1))).
Definition old_dir : option Tree := Some {[["meta.json"] := Some "old"]}.
Abbreviation refusal1 :=
  (extract_entry_pack_until toy_hex create_dir_all None 0 0 publication old_dir bad_archive (Some binding1)).
Lemma refusal1_err : refusal1 = (refusal1.1, Err (DeclaredMismatch "libfoo.rlib")).
Proof. apply outcome_err. vm_compute. reflexivity. Qed.
Lemma refused_extraction_keeps_entry_witness : refusal1.1 = old_dir.
Proof.
  destruct (refused_extraction_keeps_entry toy_hex create_dir_all None 0 0 publication old_dir bad_archive (Some binding1)
    refusal1.1 (DeclaredMismatch "libfoo.rlib") refusal1_err) as [E|[E|E]]; [exact E|discriminate..].
Defined.

(** ** Packed prefetch *)

Definition packed1 (archive : Archive) : PackedEntry :=
  {| pe_cache_key := key1; pe_crate_name := "foo"; pe_meta_digest := toy_hex content1; pe_archive := archive;
     pe_start := 0; pe_checked := 0; pe_publication := publication; pe_empty_dir := false |}.
Abbreviation prefetched archive := (packed_prefetch toy_hex demo_cfg create_dir_all 7 empty_store [packed1 archive]).
Lemma prefetched_count (p : list VerifiedRestoredEntry * (Store * result StoreError Z)) n :
  p.2.2 = Ok n -> p = (p.1, (p.2.1, Ok n)).
Proof. destruct p as [v [st r]]. by intros [= ->]. Qed.
Lemma packed1_plain : plain_entry toy_hex create_dir_all (packed1 archive1).
Proof.
  split; [apply archive1_plain..|]. intros dir key meta Hx.
  assert (fmap (fun x : string * EntryMeta => map name (files x.2)) (ok (extracts toy_hex create_dir_all (packed1 archive1)).2)
    = Some ["libfoo.rlib"; "foo.d"]) as Hf by (vm_compute; reflexivity).
  rewrite Hx in Hf. cbn in Hf. injection Hf as Hf.
  apply Forall_forall. intros f Hin key0.
  assert (name f ∈ ["libfoo.rlib"; "foo.d"]) as Hn by (rewrite <- Hf; by apply list_elem_of_fmap_2).
  apply elem_of_cons in Hn as [->|[->|[]%not_elem_of_nil]%elem_of_cons]; vm_compute; discriminate.
Qed.
Lemma packed_prefetch_sound_witness : contains_key (prefetched archive1).2.1 key1 = true.
Proof.
  destruct (packed_prefetch_sound toy_hex demo_cfg create_dir_all create_dirs_law 7 empty_store [packed1 archive1]
    (prefetched archive1).1 (prefetched archive1).2.1 (Ok 1)) as (_ & _ & Hok).
  - exact empty_inv.
  - intros h bytes. cbn. rewrite lookup_empty. discriminate.
  - apply Forall_singleton. exact packed1_plain.
  - apply prefetched_count. vm_compute. reflexivity.
  - destruct (Hok 1 eq_refl {| vre_cache_key := key1; vre_meta := meta1 |}) as (Hc & _); [|exact Hc].
    vm_compute. left.
Defined.

(** A member spelled a second time with a leading [./] is written over the first
    one, while the gate still looks at the first one's digest. *)
Definition respelled_archive : Archive :=
  (archive1 ++ [(0, member_item ("./libfoo.rlib", "evil bytes"))])%list.
Definition durability_cfg (deferred : bool) : Config :=
  {| read_only := false; deferred_durability := deferred; gc_evict_shared := false;
     verify_restores := VrOff; max_diagnostics_bytes := None; max_size := 4; upload_spool_max_jobs := 2 |}.
Abbreviation respelled deferred :=
  (packed_prefetch toy_hex (durability_cfg deferred) create_dir_all 7 empty_store [packed1 respelled_archive]).
(** The extraction gate can be passed with other bytes than it checked: an
    archive that repeats an artifact under a [./] spelling is accepted and the
    packed prefetch leaves a blob whose content does not have the digest it is
    stored under.  With deferred durability the import reports success; otherwise
    the publication is reported as pending, and the blob stays all the same. *)
Example respelled_member_poisons_blob deferred :
  exists verified st' r,
    packed_prefetch toy_hex (durability_cfg deferred) create_dir_all 7 empty_store [packed1 respelled_archive]
      = (verified, (st', r)) /\
    r = (if deferred then Ok 1 else Err StillPending) /\ contains_key st' key1 = true /\
    ~ addressed toy_hex (blob_files st').
Proof.
  exists (respelled deferred).1, (respelled deferred).2.1, (respelled deferred).2.2. split_and!.
  - generalize (respelled deferred). by intros [v [st r]].
  - destruct deferred; vm_compute; reflexivity.
  - destruct deferred; vm_compute; reflexivity.
  - intros Ha. assert (blob_files (respelled deferred).2.1 !! toy_hex "rlib bytes" = Some "evil bytes")
      as Hb by (destruct deferred; vm_compute; reflexivity).
    apply Ha in Hb. vm_compute in Hb. discriminate.
Qed.
