(* ===== verification/CargoLayout.v ===== *)
(** * Cargo's directory layouts

    [src/cargo_layout.rs]: recognising a unit's directory in the layout before
    Cargo 1.100 and in the per-unit layout since.  A path is its list of
    components, which is what [Path] equality, [parent], [file_name],
    [starts_with] and [strip_prefix] work on. *)

From S2P Require Import Prelude Strings.
#[local] Open Scope string_scope.
#[local] Open Scope Z_scope.

(** ** Paths *)

Abbreviation Path := (list Component).

(** [Path::parent], [Path::file_name], [Path::file_stem] *)
Definition parent (p : Path) : option Path :=
  match last p with
  | None | Some RootDir => None
  | Some _ => Some (take (length p - 1) p)
  end.
Definition path_file_name (p : Path) : option string :=
  match last p with Some (Normal n) => Some n | _ => None end.
Definition file_stem (p : Path) : option string :=
  n ← path_file_name p;
  Some (match rsplit_once "." n with
        | Some ("", _) | None => n
        | Some (stem, _) => stem
        end).
(** [Path::strip_prefix] and [Path::starts_with] *)
Fixpoint strip_path (base p : Path) : option Path :=
  match base, p with
  | [], _ => Some p
  | a :: base, b :: p => if decide (a = b) then strip_path base p else None
  | _ :: _, [] => None
  end.
Definition path_starts_with (p base : Path) : bool := if strip_path base p is Some _ then true else false.
(** [Path::iter] *)
Definition os_str (c : Component) : string :=
  match c with RootDir => "/" | CurDir => "." | ParentDir => ".." | Normal n => n end.
(** [Path::ancestors().nth] *)
Fixpoint nth_ancestor (n : nat) (p : Path) : option Path :=
  match n with
  | O => Some p
  | S n => p ← parent p; nth_ancestor n p
  end.

(** [Path::is_absolute] and [Path::join] *)
Definition is_absolute_path (p : Path) : bool := if p is RootDir :: _ then true else false.
Definition join_path (base p : Path) : Path :=
  match p with
  | RootDir :: _ => p
  | CurDir :: rest => if bool_decide (base = []) then p else (base ++ rest)%list
  | _ => (base ++ p)%list
  end.

(** ** Units *)

Record CargoUnit := { cu_profile : Path; cu_package : string; cu_hash : string }.
Definition legacy_name (u : CargoUnit) : string := cu_package u ++ "-" ++ cu_hash u.

Definition is_unit_hash (h : string) : bool := (slen h =? 16) && all_bytes is_ascii_hexdigit h.
Definition legacy_unit_package (name : string) : option string :=
  '(package, h) ← rsplit_once "-" name;
  if negb (String.eqb package "") && is_unit_hash h then Some package else None.

(** [a? == b], then [k] *)
Definition named (p : Path) (n : string) : option unit :=
  f ← path_file_name p;
  if String.eqb f n then Some tt else None.

Definition per_unit_out_dir (dir : Path) : option CargoUnit :=
  named dir "out" ≫= fun _ =>
  hash_dir ← parent dir;
  package_dir ← parent hash_dir;
  build ← parent package_dir;
  named build "build" ≫= fun _ =>
  h ← path_file_name hash_dir;
  package ← path_file_name package_dir;
  if is_unit_hash h && negb (String.eqb package "")
  then profile ← parent build; Some {| cu_profile := profile; cu_package := package; cu_hash := h |}
  else None.

Definition is_build_script_dir (dir : Path) : bool :=
  bool_decide (parent dir ≫= path_file_name = Some "build")
  || (if per_unit_out_dir dir is Some _ then true else false).
Definition build_script_dir_profile (dir : Path) : option Path :=
  match per_unit_out_dir dir with
  | Some unit => Some (cu_profile unit)
  | None => build ← parent dir; named build "build" ≫= fun _ => parent build
  end.
Definition out_dir_profile (out_dir : Path) : option Path :=
  match per_unit_out_dir out_dir with
  | Some unit => Some (cu_profile unit)
  | None => p ← parent out_dir; build ← parent p; named build "build" ≫= fun _ => parent build
  end.
Definition out_dir_unit_name (out_dir : Path) (pkg : string) : option string :=
  match per_unit_out_dir out_dir with
  | Some unit => if String.eqb (cu_package unit) pkg then Some (legacy_name unit) else None
  | None =>
      named out_dir "out" ≫= fun _ =>
      unit ← parent out_dir;
      up ← parent unit;
      named up "build" ≫= fun _ =>
      name ← path_file_name unit;
      rest ← strip_prefix pkg name;
      h ← strip_prefix "-" rest;
      if is_unit_hash h then Some name else None
  end.
(** The file as the path of its directory and its name. *)
Definition build_script_stdout (out_dir : Path) : option Path :=
  unit ← parent out_dir;
  Some (if per_unit_out_dir out_dir is Some _
        then (unit ++ [Normal "run"; Normal "stdout"])%list else (unit ++ [Normal "output"])%list).

(** The loop of [profile_dir]; [None] inside: no directory of Cargo's. *)
Fixpoint find_profile (cursors : list Path) : option Path :=
  match cursors with
  | [] => None
  | cursor :: cursors =>
      name ← path_file_name cursor;
      if String.eqb name "deps" || String.eqb name "examples" || String.eqb name "build"
      then parent cursor else find_profile cursors
  end.
Definition profile_dir (out_dir : Path) : option Path :=
  match per_unit_out_dir out_dir with
  | Some unit => Some (cu_profile unit)
  | None => find_profile (out_dir :: option_list (parent out_dir))
  end.
Definition deps_profile (out_dir : Path) : option Path :=
  match per_unit_out_dir out_dir with
  | Some unit => Some (cu_profile unit)
  | None => named out_dir "deps" ≫= fun _ => parent out_dir
  end.

(** [Iterator::position] *)
Fixpoint position {A} (p : A -> bool) (l : list A) : option nat :=
  match l with
  | [] => None
  | a :: l => if p a then Some O else n ← position p l; Some (S n)
  end.
Definition unit_out_dir_under (target dir : Path) : option (Path * string) :=
  rel ← strip_path target dir;
  let comps := map os_str rel in
  build ← position (String.eqb "build") comps;
  if negb (bool_decide (build = 1%nat) || bool_decide (build = 2%nat)) then None else
  first ← comps !! (build + 1)%nat;
  '(package, out) ← match legacy_unit_package first with
    | Some package => Some (package, (build + 2)%nat)
    | None =>
        h ← comps !! (build + 2)%nat;
        if String.eqb first "" || negb (is_unit_hash h) then None else Some (first, (build + 3)%nat)
    end;
  name ← comps !! out;
  if negb (String.eqb name "out") then None else
  unit_out ← nth_ancestor (length comps - (out + 1)) dir;
  Some (unit_out, package).

Definition is_cargo_unit_dir (out_dir : Path) : bool :=
  bool_decide (path_file_name out_dir = Some "deps") || bool_decide (path_file_name out_dir = Some "examples")
  || is_build_script_dir out_dir || (if out_dir_profile out_dir is Some _ then true else false).

(** ** The recognisers agree *)

Lemma last_snoc_comp (p : Path) c : last (p ++ [c])%list = Some c.
Proof. apply last_snoc. Qed.
Lemma parent_snoc (p : Path) n : parent (p ++ [Normal n])%list = Some p.
Proof.
  unfold parent. rewrite last_snoc. rewrite length_app. cbn [length].
  replace (length p + 1 - 1)%nat with (length p) by lia. by rewrite take_app_length.
Qed.
Lemma file_name_snoc (p : Path) n : path_file_name (p ++ [Normal n])%list = Some n.
Proof. unfold path_file_name. by rewrite last_snoc. Qed.
Lemma named_snoc (p : Path) n m : named (p ++ [Normal n])%list m = if String.eqb n m then Some tt else None.
Proof. unfold named. by rewrite file_name_snoc. Qed.
Lemma nth_ancestor_names (p : Path) names :
  nth_ancestor (length names) (p ++ map Normal names)%list = Some p.
Proof.
  induction names as [|n names IH] using rev_ind; cbn [map nth_ancestor length]; [by rewrite app_nil_r|].
  rewrite length_app, map_app. cbn [map length]. rewrite Nat.add_1_r, app_assoc. cbn [nth_ancestor].
  rewrite parent_snoc. exact IH.
Qed.
Lemma strip_path_app base p : strip_path base (base ++ p)%list = Some p.
Proof. induction base as [|c base IH]; cbn; [done|]. by rewrite decide_True. Qed.
Lemma components_start_with_app base p : path_starts_with (base ++ p)%list base = true.
Proof. unfold path_starts_with. by rewrite strip_path_app. Qed.

Lemma index_of_Some {A} (p : A -> bool) l n :
  position p l = Some n ->
  exists pre a post, l = (pre ++ a :: post)%list /\ length pre = n /\ p a = true /\ forall b, b ∈ pre -> p b = false.
Proof.
  revert n. induction l as [|a l IH]; intros n; cbn [position]; [done|]. destruct (p a) eqn:Ea.
  - intros [= <-]. exists [], a, l. split_and!; [done..|]. by intros b []%not_elem_of_nil.
  - intros (m & Hm & [= <-])%bind_Some. destruct (IH _ Hm) as (pre & b & post & -> & Hl & Hb & Hpre).
    exists (a :: pre), b, post. split_and!; [done|cbn; lia|done|]. intros c [->|Hc]%elem_of_cons; auto.
Qed.
Lemma unit_hash_no_dash h : is_unit_hash h = true -> rsplit_once "-" h = None.
Proof.
  unfold is_unit_hash. intros Hh. bool_to_prop. apply rsplit_once_none. eapply all_bytes_impl; [|done].
  intros b Hb. destruct (Ascii.eqb_spec b "-") as [->|]; [discriminate Hb|done].
Qed.
Lemma os_str_names names : map os_str (map Normal names) = names.
Proof. rewrite map_map. apply map_id. Qed.

Lemma out_of_tail (target : Path) names n out (P : Path -> Prop) front tail :
  nth_ancestor n (target ++ map Normal names)%list = Some out ->
  P (target ++ map Normal front)%list -> names = (front ++ tail)%list -> n = length tail ->
  (exists tail, (target ++ map Normal names = out ++ map Normal tail)%list) /\ P out.
Proof.
  intros Ha HP -> ->. rewrite map_app, app_assoc in Ha |- *. rewrite nth_ancestor_names in Ha. injection Ha as <-. eauto.
Qed.
(** The shapes of a unit's [out] directory in the two layouts. *)
Definition unit_shape (profile : Path) (pkg h : string) (out : Path) : Prop :=
  out = (profile ++ [Normal "build"; Normal (pkg ++ "-" ++ h); Normal "out"])%list \/
  out = (profile ++ [Normal "build"; Normal pkg; Normal h; Normal "out"])%list.
Lemma unit_out_dir_shape target names out pkg :
  unit_out_dir_under target (target ++ map Normal names)%list = Some (out, pkg) ->
  exists pre q post h, (names = pre ++ [q; "build"] ++ post)%list /\ q <> "build" /\ is_unit_hash h = true /\ pkg <> "" /\
    let profile := (target ++ map Normal (pre ++ [q]))%list in
    (exists tail, (target ++ map Normal names = out ++ map Normal tail)%list) /\
    unit_shape profile pkg h out.
Proof.
  unfold unit_out_dir_under. rewrite strip_path_app. cbn [mbind option_bind]. rewrite os_str_names.
  destruct (position _ names) as [b|] eqn:Ep; cbn [mbind option_bind]; [|done].
  apply index_of_Some in Ep as (pre & a & post & -> & Hb & Ea & Hpre). apply String.eqb_eq in Ea as <-.
  destruct (negb _) eqn:Hb12; [done|]. intros (first & Hfirst & ([package o] & Hpo & Hrest)%bind_Some)%bind_Some.
  destruct pre as [|q pre _] using rev_ind; [cbn in Hb; subst b; done|].
  assert (q <> "build") as Hq.
  { intros ->. specialize (Hpre "build"). rewrite String.eqb_refl in Hpre. by discriminate Hpre; set_solver. }
  rewrite lookup_app_r in Hfirst by lia. replace (b + 1 - length (pre ++ [q]))%nat with 1%nat in Hfirst by lia.
  destruct post as [|first' post]; [done|]. cbn in Hfirst. injection Hfirst as ->.
  apply bind_Some in Hrest as (name & Hname & Hrest). destruct (String.eqb_spec name "out") as [->|]; [|done].
  cbn [negb] in Hrest. apply bind_Some in Hrest as (unit_out & Hanc & [= -> ->]).
  destruct (legacy_unit_package first) as [package'|] eqn:El.
  - injection Hpo as -> <-. unfold legacy_unit_package in El. apply bind_Some in El as ([pk h] & Hr & El).
    destruct (negb _ && _) eqn:Eh; [|done]. injection El as ->. bool_to_prop. apply rsplit_once_Some in Hr as ->.
    rewrite lookup_app_r in Hname by lia. replace (b + 2 - length (pre ++ [q]))%nat with 2%nat in Hname by lia.
    destruct post as [|o' tail]; [done|]. cbn in Hname. injection Hname as ->.
    exists pre, q, ((pkg ++ "-" ++ h)%string :: "out" :: tail), h.
    split; [by rewrite <- app_assoc|]. do 3 (split; [done|]).
    apply (out_of_tail _ _ _ _ (unit_shape _ pkg h) ((pre ++ [q]) ++ ["build"; (pkg ++ "-" ++ h)%string; "out"])%list tail Hanc).
    + left. by rewrite !map_app, !app_assoc.
    + by rewrite <- !app_assoc.
    + rewrite !length_app in *. cbn in *. lia.
  - apply bind_Some in Hpo as (h & Hh & Hpo). destruct (String.eqb_spec first ""); [done|].
    destruct (is_unit_hash h) eqn:Eh; [|done]. injection Hpo as -> <-.
    rewrite lookup_app_r in Hh, Hname by lia.
    replace (b + 2 - length (pre ++ [q]))%nat with 2%nat in Hh by lia.
    replace (b + 3 - length (pre ++ [q]))%nat with 3%nat in Hname by lia.
    destruct post as [|h' [|o' tail]]; [done..|]. cbn in Hname, Hh. injection Hname as ->. injection Hh as ->.
    exists pre, q, (pkg :: h :: "out" :: tail), h.
    split; [by rewrite <- app_assoc|]. do 3 (split; [done|]).
    apply (out_of_tail _ _ _ _ (unit_shape _ pkg h) ((pre ++ [q]) ++ ["build"; pkg; h; "out"])%list tail Hanc).
    + right. by rewrite !map_app, !app_assoc.
    + by rewrite <- !app_assoc.
    + rewrite !length_app in *. cbn in *. lia.
Qed.

(** One step up from the end of a list of names. *)
Lemma snoc3 (p : Path) a b c : (p ++ [a; b; c] = ((p ++ [a]) ++ [b]) ++ [c])%list.
Proof. by rewrite <- !app_assoc. Qed.
Lemma snoc4 (p : Path) a b c d : (p ++ [a; b; c; d] = (((p ++ [a]) ++ [b]) ++ [c]) ++ [d])%list.
Proof. by rewrite <- !app_assoc. Qed.
Lemma names_snoc (p : Path) l q : (p ++ map Normal (l ++ [q]) = (p ++ map Normal l) ++ [Normal q])%list.
Proof. by rewrite map_app, app_assoc. Qed.
Ltac snoc_step :=
  rewrite ?snoc3, ?snoc4;
  (rewrite named_snoc || rewrite parent_snoc || rewrite file_name_snoc); rewrite ?String.eqb_refl;
  cbn [mbind option_bind].
Lemma per_unit_out_dir_exact profile pkg h :
  is_unit_hash h = true -> pkg <> "" ->
  per_unit_out_dir (profile ++ [Normal "build"; Normal pkg; Normal h; Normal "out"])%list =
  Some {| cu_profile := profile; cu_package := pkg; cu_hash := h |}.
Proof.
  intros Hh Hp%String.eqb_neq. unfold per_unit_out_dir. repeat snoc_step. by rewrite Hh, Hp.
Qed.
Lemma per_unit_out_dir_legacy base q n :
  q <> "build" ->
  per_unit_out_dir ((base ++ [Normal q]) ++ [Normal "build"; Normal n; Normal "out"])%list = None.
Proof.
  intros Hq%String.eqb_neq. unfold per_unit_out_dir. repeat snoc_step. by rewrite Hq.
Qed.

(** The recognisers of Cargo's directories agree.  A unit directory found
    below the target directory, in either layout, is an ancestor of the path
    it was found from, is one of Cargo's unit directories whose profile lies
    below the target directory, and has the name [<pkg>-<hash>] for the package
    it was attributed to. *)
Theorem unit_dirs_agree target names out pkg :
  unit_out_dir_under target (target ++ map Normal names)%list = Some (out, pkg) ->
  path_starts_with (target ++ map Normal names)%list out = true /\
  is_cargo_unit_dir out = true /\
  (exists profile, out_dir_profile out = Some profile /\ path_starts_with profile target = true) /\
  (exists h, is_unit_hash h = true /\ out_dir_unit_name out pkg = Some (pkg ++ "-" ++ h)).
Proof.
  intros (pre & q & post & h & -> & Hq & Hh & Hp & [tail Ht] & Hout)%unit_out_dir_shape.
  split; [rewrite Ht; apply components_start_with_app|].
  assert (out_dir_profile out = Some (target ++ map Normal (pre ++ [q]))%list) as Hprof.
  { unfold out_dir_profile. destruct Hout as [->| ->]; [|by rewrite per_unit_out_dir_exact].
    rewrite names_snoc, per_unit_out_dir_legacy by done. by repeat snoc_step. }
  split_and!.
  - unfold is_cargo_unit_dir. rewrite Hprof. by rewrite !orb_true_r.
  - eexists. split; [exact Hprof|]. apply components_start_with_app.
  - exists h. split; [done|]. unfold out_dir_unit_name. destruct Hout as [->| ->].
    + rewrite names_snoc, per_unit_out_dir_legacy by done. repeat snoc_step.
      by rewrite strip_prefix_app; cbn; rewrite Hh.
    + rewrite per_unit_out_dir_exact by done. cbn. by rewrite String.eqb_refl.
Qed.
