(* ===== verification/RustcArgs.v ===== *)
(** * Rustc command lines

    [src/args.rs]: response files, the parser of a rustc command line, and what
    the rest of the program asks of a parsed one.  The file system and the
    caller's environment are parameters. *)

From S2P Require Import Prelude Strings Codec StorePolicy PePdb CargoLayout.
#[local] Open Scope string_scope.
#[local] Open Scope Z_scope.
#[local] Open Scope record_scope.

(** ** Flag tables *)

Definition DIAGNOSTIC_VALUE_FLAGS : list string :=
  ["--error-format"; "--json"; "--color"; "--diagnostic-width"].
Definition IGNORED_VALUE_FLAGS : list string := ["--print"; "--explain"].
Definition IGNORED_ATTACHED_PREFIXES : list string := ["--print="; "--explain="].
Definition OUTCOME_AFFECTING_VALUE_FLAGS : list string :=
  ["-W"; "--warn"; "-A"; "--allow"; "-D"; "--deny"; "-F"; "--forbid"; "--force-warn"; "--cap-lints"; "--check-cfg"].
Definition OUTCOME_LINT_ATTACHED_PREFIXES : list string :=
  ["--warn="; "--allow="; "--deny="; "--forbid="; "--force-warn="; "--cap-lints="; "--check-cfg=";
   "-W"; "-A"; "-D"; "-F"].
Definition IGNORED_BOOL_FLAGS : list string := ["-v"; "--verbose"; "-V"; "--version"; "-h"; "--help"].
(** [slice.contains(&s)] *)
Definition one_of (l : list string) (s : string) : bool := existsb (String.eqb s) l.

Definition format_crate_output_stem (crate_name extra_filename : string) : string := crate_name ++ extra_filename.
Definition unit_id_from_extra_filename (extra_filename : string) : option string :=
  let id := default extra_filename (strip_prefix "-" extra_filename) in
  if String.eqb id "" then None else Some id.
Definition unit_id_from_artifact_path (path : Path) : option string :=
  stem ← file_stem path;
  '(_, suffix) ← rsplit_once "-" stem;
  if (8 <=? slen suffix) && all_bytes is_ascii_hexdigit suffix then Some suffix else None.

(** ** The caller *)

(** [InvocationEnv], [var_os] and [var(..).ok()]; a name given twice has its
    last value. *)
Record Invocation := {
  inv_vars : list (string * string);
  inv_cwd : option string;
  inv_home : option string;
  inv_temp : string;
}.
Definition inv_var_os (env : Invocation) (name : string) : option string :=
  snd <$> head (List.filter (fun kv => String.eqb kv.1 name) (rev (inv_vars env))).
Definition inv_var (env : Invocation) (name : string) : option string :=
  v ← inv_var_os env name;
  if valid_utf8 v then Some v else None.
(** [InvocationEnv::resolve], for a path as it is spelled and for its
    components. *)
Definition resolve (env : Invocation) (path : string) : option string :=
  if is_absolute path then Some path else
  cwd ← inv_cwd env;
  if is_absolute cwd then Some (join cwd path) else None.
Definition resolve_path (env : Invocation) (path : Path) : option Path :=
  if is_absolute_path path then Some path else
  cwd ← inv_cwd env;
  if is_absolute cwd then Some (join_path (components cwd) path) else None.

(** ** Response files *)

Inductive RustcArgfileState := NoArgfile | ArgfileExpanded | ArgfileUnsupported.
#[export] Instance RustcArgfileState_eq_dec : EqDecision RustcArgfileState.
Proof. solve_decision. Defined.
Inductive ArgfileError := ShellArgfile | NoWorkingDirectory | UnreadableArgfile (path : string) | LineBreak.
Record RustcArgfileExpander := {
  ax_shell_argfiles : bool;
  ax_next_is_unstable_option : bool;
  ax_expanded : list string;
}.
#[export] Instance eta_expander : Eta RustcArgfileExpander := fun x =>
  {| ax_shell_argfiles := ax_shell_argfiles x; ax_next_is_unstable_option := ax_next_is_unstable_option x;
     ax_expanded := ax_expanded x |}.
Definition is_shell_argfiles_option (option : string) : bool :=
  String.eqb option "shell-argfiles" || starts_with "shell-argfiles=" option.
(** [RustcArgfileExpander::push] *)
Definition push_arg (x : RustcArgfileExpander) (arg : string) : RustcArgfileExpander :=
  let x :=
    if ax_next_is_unstable_option x then
      (if is_shell_argfiles_option arg then x <| ax_shell_argfiles := true |> else x)
        <| ax_next_is_unstable_option := false |>
    else match strip_prefix "-Z" arg with
    | Some option =>
        if String.eqb option "" then x <| ax_next_is_unstable_option := true |>
        else if is_shell_argfiles_option option then x <| ax_shell_argfiles := true |>
        else x
    | None => x
    end in
  x <| ax_expanded ::= fun l => (l ++ [arg])%list |>.
Definition has_line_break (arg : string) : bool := contains_byte newline arg || contains_byte carriage_return arg.

Section Argfiles.
Context (env : Invocation) (read_to_string : string -> option string).

Definition expand_arg (x : RustcArgfileExpander) (arg : string) : result ArgfileError RustcArgfileExpander :=
  match strip_prefix "@" arg with
  | None => Ok (push_arg x arg)
  | Some path =>
      ensure (negb (ax_shell_argfiles x && starts_with "shell:" path)) ShellArgfile;;
      resolved ← with_context (resolve env path) NoWorkingDirectory;
      contents ← with_context (read_to_string resolved) (UnreadableArgfile path);
      Ok (fold_left push_arg (lines contents) x)
  end.
Definition expand_rustc_argfiles (args : list string) : result ArgfileError (option (list string)) :=
  if negb (existsb (starts_with "@") args) then Ok None else
  x ← try_fold expand_arg
        {| ax_shell_argfiles := false; ax_next_is_unstable_option := false; ax_expanded := [] |} args;
  ensure (negb (existsb has_line_break (ax_expanded x))) LineBreak;;
  Ok (Some (ax_expanded x)).
End Argfiles.

(** ** Parsed arguments *)

Record ExternDep := { ext_name : string; ext_path : option string }.
Record RustcArgs := {
  ra_rustc : string;
  ra_crate_name : option string;
  ra_crate_types : list string;
  ra_output : option string;
  ra_out_dir : option string;
  ra_emit : list string;
  ra_dep_info_output : option string;
  ra_explicit_emit_output : bool;
  ra_source_file : option string;
  ra_externs : list ExternDep;
  ra_target : option string;
  ra_edition : option string;
  ra_codegen_opts : list (string * option string);
  ra_features : list string;
  ra_cfgs : list string;
  ra_extra_filename : option string;
  ra_incremental : option string;
  ra_sysroot : option string;
  ra_link_search : list string;
  ra_link_libs : list string;
  ra_unstable_flags : list string;
  ra_frontend_jobs : list string;
  ra_remap_path_prefixes : list string;
  ra_inner_rustc : option string;
  ra_all_args : list string;
  ra_raw_args : option (list string);
  ra_argfile_state : RustcArgfileState;
  ra_residual_args : list string;
  ra_outcome_lint_flags : list string;
  ra_diagnostic_flags : list string;
  ra_diagnostic_arg_indices : list nat;
  ra_is_test : bool;
  ra_is_primary : bool;
  ra_path_normalize_disabled : bool;
  ra_path_normalization_root : option Path;
}.
#[export] Instance eta_args : Eta RustcArgs := fun r => {|
  ra_rustc := ra_rustc r; ra_crate_name := ra_crate_name r; ra_crate_types := ra_crate_types r;
  ra_output := ra_output r; ra_out_dir := ra_out_dir r; ra_emit := ra_emit r;
  ra_dep_info_output := ra_dep_info_output r; ra_explicit_emit_output := ra_explicit_emit_output r;
  ra_source_file := ra_source_file r; ra_externs := ra_externs r; ra_target := ra_target r;
  ra_edition := ra_edition r; ra_codegen_opts := ra_codegen_opts r; ra_features := ra_features r;
  ra_cfgs := ra_cfgs r; ra_extra_filename := ra_extra_filename r; ra_incremental := ra_incremental r;
  ra_sysroot := ra_sysroot r; ra_link_search := ra_link_search r; ra_link_libs := ra_link_libs r;
  ra_unstable_flags := ra_unstable_flags r; ra_frontend_jobs := ra_frontend_jobs r;
  ra_remap_path_prefixes := ra_remap_path_prefixes r; ra_inner_rustc := ra_inner_rustc r;
  ra_all_args := ra_all_args r; ra_raw_args := ra_raw_args r; ra_argfile_state := ra_argfile_state r;
  ra_residual_args := ra_residual_args r; ra_outcome_lint_flags := ra_outcome_lint_flags r;
  ra_diagnostic_flags := ra_diagnostic_flags r; ra_diagnostic_arg_indices := ra_diagnostic_arg_indices r;
  ra_is_test := ra_is_test r; ra_is_primary := ra_is_primary r;
  ra_path_normalize_disabled := ra_path_normalize_disabled r;
  ra_path_normalization_root := ra_path_normalization_root r |}.

(** ** Values *)

(** [parse_emit_value] *)
Definition parse_emit_part (p : RustcArgs) (part : string) : RustcArgs :=
  let destination := split_once "=" part in
  let '(kind, output) := default (part, "") destination in
  let p := p <| ra_emit ::= fun l => (l ++ [kind])%list |>
             <| ra_explicit_emit_output ::= fun b => b || (if destination is Some _ then true else false) |> in
  if String.eqb kind "dep-info" && negb (String.eqb output "")
  then p <| ra_dep_info_output := Some output |> else p.
Definition parse_emit_value (value : string) (p : RustcArgs) : RustcArgs :=
  fold_left parse_emit_part (split_on "," value) p.

Definition parse_extern (s : string) : ExternDep :=
  let s := match strip_prefix "priv:" s with
    | Some r => r
    | None => default s (strip_prefix "noprelude:" s)
    end in
  match split_once "=" s with
  | Some (name, path) => {| ext_name := name; ext_path := Some path |}
  | None => {| ext_name := s; ext_path := None |}
  end.
Definition parse_feature_cfg (s : string) : option string :=
  s ← strip_prefix ("feature=" ++ String dquote "") s;
  strip_suffix (String dquote "") s.
Definition parse_codegen_opt (s : string) : string * option string :=
  match split_once "=" s with
  | Some (key, value) => (key, Some value)
  | None => (s, None)
  end.
Definition record_codegen_opt (value : string) (p : RustcArgs) : RustcArgs :=
  let '(key, value) := parse_codegen_opt value in
  let p := if String.eqb key "extra-filename" then p <| ra_extra_filename := value |> else p in
  let p := if String.eqb key "incremental" then p <| ra_incremental := value |> else p in
  p <| ra_codegen_opts ::= fun l => (l ++ [(key, value)])%list |>.
Definition record_cfg (value : string) (p : RustcArgs) : RustcArgs :=
  let p := p <| ra_cfgs ::= fun l => (l ++ [value])%list |> in
  match parse_feature_cfg value with
  | Some feat => p <| ra_features ::= fun l => (l ++ [feat])%list |>
  | None => p
  end.
Definition record_extern (value : string) (p : RustcArgs) : RustcArgs :=
  p <| ra_externs ::= fun l => (l ++ [parse_extern value])%list |>.

(** ** The parser *)

Record Parsing := { pg_args : RustcArgs; pg_is_query : bool }.
#[export] Instance eta_parsing : Eta Parsing := fun r => {| pg_args := pg_args r; pg_is_query := pg_is_query r |}.
(** An arm that moves on to the next token for its value, and one that does not. *)
Definition take_value (value : option string) (f : string -> RustcArgs -> RustcArgs) (st : Parsing) : Parsing * bool :=
  (match value with Some v => st <| pg_args ::= f v |> | None => st end, true).
Definition set_value (f : RustcArgs -> RustcArgs) (st : Parsing) : Parsing * bool := (st <| pg_args ::= f |>, true).
Definition attached (f : RustcArgs -> RustcArgs) (st : Parsing) : Parsing * bool := (st <| pg_args ::= f |>, false).
Definition query (skip : bool) (st : Parsing) : Parsing * bool := (st <| pg_is_query := true |>, skip).
(** [arg.starts_with(flag) && arg.len() > flag.len()], and what follows. *)
Definition attached_value (flag arg : string) : option string :=
  match strip_prefix flag arg with
  | Some v => if String.eqb v "" then None else Some v
  | None => None
  end.

Section Parser.
Context (path_exists : string -> bool).

(** The arms of the loop in their order: the flags with values, up to [--cfg=] *)
Definition parse_unit_flag (arg : string) (next : option string) (st : Parsing) : option (Parsing * bool) :=
  if String.eqb arg "--crate-name" then Some (set_value (fun p => p <| ra_crate_name := next |>) st)
  else if String.eqb arg "--crate-type" then
    Some (take_value next (fun v p => p <| ra_crate_types ::= fun l => (l ++ [v])%list |>) st)
  else if String.eqb arg "-o" then Some (set_value (fun p => p <| ra_output := next |>) st)
  else if String.eqb arg "--out-dir" then Some (set_value (fun p => p <| ra_out_dir := next |>) st)
  else if String.eqb arg "--emit" then Some (take_value next parse_emit_value st)
  else if String.eqb arg "--target" then Some (set_value (fun p => p <| ra_target := next |>) st)
  else if String.eqb arg "--edition" then Some (set_value (fun p => p <| ra_edition := next |>) st)
  else if String.eqb arg "--extern" then Some (take_value next record_extern st)
  else if String.eqb arg "--cfg" then Some (take_value next record_cfg st)
  else if strip_prefix "--emit=" arg is Some val then Some (attached (parse_emit_value val) st)
  else if String.eqb arg "--test" then Some (attached (fun p => p <| ra_is_test := true |>) st)
  else if strip_prefix "--crate-type=" arg is Some val then
    Some (attached (fun p => p <| ra_crate_types ::= fun l => (l ++ [val])%list |>) st)
  else if strip_prefix "--crate-name=" arg is Some val then
    Some (attached (fun p => p <| ra_crate_name := Some val |>) st)
  else if strip_prefix "--target=" arg is Some val then Some (attached (fun p => p <| ra_target := Some val |>) st)
  else if strip_prefix "--edition=" arg is Some val then Some (attached (fun p => p <| ra_edition := Some val |>) st)
  else if strip_prefix "--extern=" arg is Some val then Some (attached (record_extern val) st)
  else if strip_prefix "--cfg=" arg is Some val then Some (attached (record_cfg val) st)
  else None.
(** from [-C] to [--remap-path-prefix=] *)
Definition parse_codegen_flag (arg : string) (next : option string) (st : Parsing) : option (Parsing * bool) :=
  if String.eqb arg "-C" || String.eqb arg "--codegen" then Some (take_value next record_codegen_opt st)
  else if attached_value "-C" arg is Some val then Some (attached (record_codegen_opt val) st)
  else if strip_prefix "--codegen=" arg is Some val then Some (attached (record_codegen_opt val) st)
  else if String.eqb arg "-O" then
    Some (attached (fun p => p <| ra_codegen_opts ::= fun l => (l ++ [("opt-level", Some "3")])%list |>) st)
  else if String.eqb arg "-g" then
    Some (attached (fun p => p <| ra_codegen_opts ::= fun l => (l ++ [("debuginfo", Some "2")])%list |>) st)
  else if String.eqb arg "--sysroot" then Some (set_value (fun p => p <| ra_sysroot := next |>) st)
  else if strip_prefix "--sysroot=" arg is Some val then Some (attached (fun p => p <| ra_sysroot := Some val |>) st)
  else if String.eqb arg "-L" then
    Some (take_value next (fun v p => p <| ra_link_search ::= fun l => (l ++ [v])%list |>) st)
  else if attached_value "-L" arg is Some val then
    Some (attached (fun p => p <| ra_link_search ::= fun l => (l ++ [val])%list |>) st)
  else if String.eqb arg "-l" then
    Some (take_value next (fun v p => p <| ra_link_libs ::= fun l => (l ++ [v])%list |>) st)
  else if attached_value "-l" arg is Some val then
    Some (attached (fun p => p <| ra_link_libs ::= fun l => (l ++ [val])%list |>) st)
  else if String.eqb arg "--jobs-frontend" then
    Some (set_value (fun p => p <| ra_frontend_jobs ::= fun l => (l ++ [default "" next])%list |>) st)
  else if strip_prefix "--jobs-frontend=" arg is Some val then
    Some (attached (fun p => p <| ra_frontend_jobs ::= fun l => (l ++ [val])%list |>) st)
  else if String.eqb arg "-Z" then
    Some (take_value next (fun v p => p <| ra_unstable_flags ::= fun l => (l ++ [v])%list |>) st)
  else if attached_value "-Z" arg is Some val then
    Some (attached (fun p => p <| ra_unstable_flags ::= fun l => (l ++ [val])%list |>) st)
  else if String.eqb arg "--remap-path-prefix" then
    Some (take_value next (fun v p => p <| ra_remap_path_prefixes ::= fun l => (l ++ [v])%list |>) st)
  else if strip_prefix "--remap-path-prefix=" arg is Some val then
    Some (attached (fun p => p <| ra_remap_path_prefixes ::= fun l => (l ++ [val])%list |>) st)
  else None.
(** queries, lints and diagnostics; [i] is the token's position. *)
Definition parse_lint_flag (i : nat) (arg : string) (next : option string) (st : Parsing) : option (Parsing * bool) :=
  if String.eqb arg "--print" || String.eqb arg "--explain" then Some (query true st)
  else if starts_with "--print=" arg || starts_with "--explain=" arg then Some (query false st)
  else if one_of ["-V"; "--version"; "-h"; "--help"; "-vV"] arg then Some (query false st)
  else if one_of OUTCOME_AFFECTING_VALUE_FLAGS arg then
    Some (set_value (fun p => p <| ra_outcome_lint_flags ::= fun l => (l ++ arg :: option_list next)%list |>) st)
  else if existsb (fun p => starts_with p arg) OUTCOME_LINT_ATTACHED_PREFIXES then
    Some (attached (fun p => p <| ra_outcome_lint_flags ::= fun l => (l ++ [arg])%list |>) st)
  else if one_of DIAGNOSTIC_VALUE_FLAGS arg then
    Some (match next with
          | Some value => set_value (fun p =>
              p <| ra_diagnostic_arg_indices ::= fun l => (l ++ [i; i + 1])%nat%list |>
                <| ra_diagnostic_flags ::= fun l => (l ++ [(arg ++ "=" ++ value)%string])%list |>) st
          | None => attached (fun p =>
              p <| ra_diagnostic_arg_indices ::= fun l => (l ++ [i])%list |>
                <| ra_diagnostic_flags ::= fun l => (l ++ [arg])%list |>) st
          end)
  else if (if split_once "=" arg is Some (flag, _) then one_of DIAGNOSTIC_VALUE_FLAGS flag else false) then
    Some (attached (fun p =>
      p <| ra_diagnostic_arg_indices ::= fun l => (l ++ [i])%list |>
        <| ra_diagnostic_flags ::= fun l => (l ++ [arg])%list |>) st)
  else if one_of IGNORED_VALUE_FLAGS arg then Some (st, true)
  else if one_of IGNORED_BOOL_FLAGS arg then Some (st, false)
  else if existsb (fun p => starts_with p arg) IGNORED_ATTACHED_PREFIXES then Some (st, false)
  else None.
(** the source file, and what is left. *)
Definition parse_rest (arg : string) (st : Parsing) : Parsing * bool :=
  if negb (starts_with "-" arg) && (if ra_source_file (pg_args st) is Some _ then false else true)
     && (ends_with ".rs" arg || path_exists arg)
  then attached (fun p => p <| ra_source_file := Some arg |>) st
  else attached (fun p => p <| ra_residual_args ::= fun l => (l ++ [arg])%list |>) st.
Definition parse_arg (i : nat) (arg : string) (next : option string) (st : Parsing) : Parsing * bool :=
  match parse_unit_flag arg next st with
  | Some r => r
  | None =>
      match parse_codegen_flag arg next st with
      | Some r => r
      | None => default (parse_rest arg st) (parse_lint_flag i arg next st)
      end
  end.
(** The loop over the tokens from position [i]. *)
Fixpoint parse_args (i : nat) (args : list string) (st : Parsing) : Parsing :=
  match args with
  | [] => st
  | arg :: rest =>
      match parse_arg i arg (head rest) st, rest with
      | (st, true), _ :: rest => parse_args (i + 2) rest st
      | (st, _), rest => parse_args (i + 1) rest st
      end
  end.
End Parser.

(** ** Recognising the compiler ([compiler/mod.rs], [compiler/rustc.rs]) *)

Definition command_basename (arg0 : string) : option string :=
  let tail := default arg0 (snd <$> rsplit_once "/" arg0) in
  let name := default tail (snd <$> rsplit_once backslash tail) in
  if String.eqb name "" then None else Some name.
Definition strip_windows_exe_suffix (name : string) : string :=
  if (4 <=? slen name) && eq_ignore_ascii_case (substring (Z.to_nat (slen name - 4)) 4 name) ".exe"
  then substring 0 (Z.to_nat (slen name - 4)) name else name.
(** [RustcCompiler::recognizes] *)
Definition recognizes (args : list string) : bool :=
  match head args ≫= command_basename with
  | Some name =>
      let name := strip_windows_exe_suffix name in
      String.eqb name "rustc" || starts_with "rustc" name || String.eqb name "clippy-driver"
  | None => false
  end.
Definition is_clippy_driver (program : string) : bool :=
  match command_basename program with
  | Some name => String.eqb (strip_windows_exe_suffix name) "clippy-driver"
  | None => false
  end.
Definition is_clippy_chain (p : RustcArgs) : bool :=
  (if ra_inner_rustc p is Some _ then true else false) && is_clippy_driver (ra_rustc p).
(** [parse_rustc_normalize_toggle] *)
Definition parse_rustc_normalize_toggle (value : option string) : bool :=
  match value with
  | Some v => negb (one_of ["0"; "false"; "off"; "no"] (to_ascii_lowercase (trim v)))
  | None => true
  end.

(** ** Paths of a parsed command line *)

Section Paths.
Context (env : Invocation) (is_file : Path -> bool) (canonicalize : Path -> option Path).

(** The search of [target_dir_from_args] from the parent of [-o] upwards, over
    the reversed components. *)
Fixpoint find_output_dir (r : list Component) : option (list Component) :=
  match r with
  | [] => None
  | Normal n :: r' => if String.eqb n "deps" || String.eqb n "build" then Some r else find_output_dir r'
  | RootDir :: _ => None
  | _ :: r' => find_output_dir r'
  end.
Definition target_dir_from_args (p : RustcArgs) : option Path :=
  let up dir := if ra_target p is Some _ then parent dir else Some dir in
  match ra_out_dir p with
  | Some od =>
      profile ← match per_unit_out_dir (components od) with
        | Some unit => Some (cu_profile unit)
        | None => parent (components od)
        end;
      dir ← parent profile;
      up dir
  | None =>
      out ← ra_output p;
      dir ← parent (components out);
      found ← find_output_dir (rev dir);
      q ← parent (rev found);
      q ← parent q;
      up q
  end.
Definition target_dir (p : RustcArgs) : option Path := dir ← target_dir_from_args p; resolve_path env dir.
Definition workspace_root (p : RustcArgs) : option Path := dir ← target_dir p; parent dir.
Definition verified_workspace_root (p : RustcArgs) (cwd : Path) : option Path :=
  target ← target_dir_from_args p;
  candidate ← parent target;
  let candidate := if is_absolute_path candidate then candidate else join_path cwd candidate in
  if negb (is_file (join_path candidate [Normal "Cargo.toml"])) then None else
  canonical_candidate ← canonicalize candidate;
  canonical_cwd ← canonicalize cwd;
  if path_starts_with canonical_cwd canonical_candidate then Some candidate else None.
Definition select_path_normalization_root (p : RustcArgs) (cwd : Path) : Path :=
  default cwd (verified_workspace_root p cwd).
End Paths.

(** [RustcArgs::parse_for] *)
Definition empty_args (rustc : string) (inner_rustc : option string) (all_args : list string)
    (raw_args : option (list string)) (argfile_state : RustcArgfileState) (normalize_disabled : bool) : RustcArgs := {|
  ra_rustc := rustc; ra_crate_name := None; ra_crate_types := []; ra_output := None; ra_out_dir := None;
  ra_emit := []; ra_dep_info_output := None; ra_explicit_emit_output := false; ra_source_file := None;
  ra_externs := []; ra_target := None; ra_edition := None; ra_codegen_opts := []; ra_features := []; ra_cfgs := [];
  ra_extra_filename := None; ra_incremental := None; ra_sysroot := None; ra_link_search := []; ra_link_libs := [];
  ra_unstable_flags := []; ra_frontend_jobs := []; ra_remap_path_prefixes := []; ra_inner_rustc := inner_rustc;
  ra_all_args := all_args; ra_raw_args := raw_args; ra_argfile_state := argfile_state; ra_residual_args := [];
  ra_outcome_lint_flags := []; ra_diagnostic_flags := []; ra_diagnostic_arg_indices := []; ra_is_test := false;
  ra_is_primary := false; ra_path_normalize_disabled := normalize_disabled; ra_path_normalization_root := None;
|}.
(** The file system as the parser sees it. *)
Record Disk := {
  disk_exists : string -> bool;
  disk_read_to_string : string -> option string;
  disk_is_file : Path -> bool;
  disk_canonicalize : Path -> option Path;
}.
Definition is_some {A} (o : option A) : bool := if o is Some _ then true else false.
(** What follows the loop. *)
Definition finish_parse (env : Invocation) (disk : Disk) (st : Parsing) : RustcArgs :=
  let parsed := (pg_args st) <| ra_features ::= sort_by String.leb |> in
  let parsed := parsed <| ra_is_primary :=
    negb (pg_is_query st) && is_some (ra_crate_name parsed) && is_some (ra_source_file parsed) |> in
  parsed <| ra_path_normalization_root :=
    (fun cwd => select_path_normalization_root (disk_is_file disk) (disk_canonicalize disk) parsed (components cwd))
      <$> inv_cwd env |>.
Definition split_wrapper (args : list string) : option string * list string :=
  match args with
  | _ :: ((inner :: ((_ :: _) as rest)) as tail) => if recognizes tail then (Some inner, rest) else (None, tail)
  | _ :: tail => (None, tail)
  | [] => (None, [])
  end.
Definition parse_for (env : Invocation) (disk : Disk) (args : list string) : option RustcArgs :=
  match args with
  | rustc :: _ :: _ =>
      let '(inner_rustc, rustc_args) := split_wrapper args in
      let '(parse_argv, raw_args, argfile_state) :=
        match expand_rustc_argfiles env (disk_read_to_string disk) rustc_args with
        | Ok (Some expanded) => (expanded, Some rustc_args, ArgfileExpanded)
        | Ok None => (rustc_args, None, NoArgfile)
        | Err _ => (rustc_args, None, ArgfileUnsupported)
        end in
      let parsed := empty_args rustc inner_rustc parse_argv raw_args argfile_state
        (negb (parse_rustc_normalize_toggle (inv_var env "KACHE_RUSTC_PATH_NORMALIZE"))) in
      Some (finish_parse env disk
        (parse_args (disk_exists disk) 0 parse_argv {| pg_args := parsed; pg_is_query := false |}))
  | _ => None
  end.

(** ** What the program asks of a parsed command line *)

(** The last value of [-Z codegen-backend=]. *)
Definition last_backend (unstable_flags : list string) : option string :=
  head (omap (strip_prefix "codegen-backend=") (rev unstable_flags)).
Definition codegen_backend_dylib (unstable_flags : list string) : option string :=
  backend ← last_backend unstable_flags;
  if contains_byte "." backend then Some backend else None.
Definition codegen_backend_name (unstable_flags : list string) : option string :=
  backend ← last_backend unstable_flags;
  if negb (contains_byte "." backend) && negb (one_of [""; "llvm"; "dummy"] backend) then Some backend else None.
(** Off Windows. *)
Definition codegen_backend_is_keyable (backend : string) : bool := contains_byte "/" backend.

(** [args_without_diagnostic_presentation] *)
Definition args_without_diagnostic_presentation (p : RustcArgs) : list string :=
  omap (fun ia => if bool_decide (ia.1 ∈ ra_diagnostic_arg_indices p) then None else Some ia.2)
    (imap pair (ra_all_args p)).
(** [lints_silenced]; [cap]: the value of the one [--cap-lints] seen. *)
Definition allows (cap : option string) : bool := bool_decide (cap = Some "allow").
Fixpoint lints_silenced_from (cap : option string) (flags : list string) : bool :=
  match flags with
  | [] => allows cap
  | flag :: rest =>
      if String.eqb flag "--force-warn" || starts_with "--force-warn=" flag then false
      else if String.eqb flag "--cap-lints" then
        if is_some cap then false
        else match rest with [] => allows None | v :: rest => lints_silenced_from (Some v) rest end
      else match strip_prefix "--cap-lints=" flag with
      | Some v => if is_some cap then false else lints_silenced_from (Some v) rest
      | None =>
          if one_of OUTCOME_AFFECTING_VALUE_FLAGS flag
          then match rest with [] => allows cap | _ :: rest => lints_silenced_from cap rest end
          else lints_silenced_from cap rest
      end
  end.
Definition lints_silenced (p : RustcArgs) : bool := lints_silenced_from None (ra_outcome_lint_flags p).
(** [cache_key_diagnostic_flags] *)
Definition is_width_flag (flag : string) : bool :=
  String.eqb flag "--diagnostic-width" || starts_with "--diagnostic-width=" flag.
Definition valid_width (flag : string) : bool :=
  match strip_prefix "--diagnostic-width=" flag ≫= parse_unsigned 65535 with
  | Some columns => 0 <? columns
  | None => false
  end.
Definition cache_key_diagnostic_flags (p : RustcArgs) : list string :=
  let widths := filter (fun flag => is_width_flag flag = true) (ra_diagnostic_flags p) in
  let omit_width := match widths with
    | [flag] => valid_width flag && lints_silenced p
    | _ => false
    end in
  filter (fun flag => (negb omit_width || negb (starts_with "--diagnostic-width=" flag)) = true) (ra_diagnostic_flags p).
Definition cargo_capped_lints (p : RustcArgs) : bool :=
  let flags := ra_outcome_lint_flags p in
  existsb (String.eqb "--cap-lints=allow") flags
  || existsb (fun pair => String.eqb pair.1 "--cap-lints" && String.eqb pair.2 "allow") (zip flags (tail flags)).

Definition raw_args (p : RustcArgs) : list string := default (ra_all_args p) (ra_raw_args p).
Definition has_expanded_argfiles (p : RustcArgs) : bool := bool_decide (ra_argfile_state p = ArgfileExpanded).
Definition argfile_expansion_failed (p : RustcArgs) : bool := bool_decide (ra_argfile_state p = ArgfileUnsupported).

(** [classify_crate_type] and [ArtifactKind::link_strategy] *)
Inductive LinkStrategy := LinkHardlink | LinkWritableCopy | LinkCopy | LinkExecutableHardlink.
#[export] Instance LinkStrategy_eq_dec : EqDecision LinkStrategy.
Proof. solve_decision. Defined.
Definition classify_crate_type (crate_type : string) : ArtifactKind :=
  if String.eqb crate_type "bin" then Executable
  else if one_of ["dylib"; "cdylib"; "proc-macro"] crate_type then DynamicLibrary
  else if one_of ["lib"; "rlib"; "staticlib"] crate_type then Library
  else OtherKind "unknown-crate-type".
Definition link_strategy (kind : ArtifactKind) : LinkStrategy :=
  match kind with
  | Executable | DynamicLibrary | WasmModule => LinkCopy
  | Metadata => LinkWritableCopy
  | _ => LinkHardlink
  end.
Definition is_executable_output (p : RustcArgs) : bool :=
  ra_is_test p
  || existsb (fun t => bool_decide (link_strategy (classify_crate_type t) = LinkCopy)) (ra_crate_types p).
Definition is_user_facing_executable (p : RustcArgs) : bool :=
  ra_is_test p || bool_decide (ra_crate_types p = []) || existsb (String.eqb "bin") (ra_crate_types p).

Definition is_build_script_probe (env : Invocation) (p : RustcArgs) (build_script_out_dir : option string) : bool :=
  match build_script_out_dir ≫= (fun dir => resolve_path env (components dir)) with
  | None => false
  | Some build_dir =>
      let metadata_only := negb (bool_decide (ra_emit p = [])) && negb (existsb (String.eqb "link") (ra_emit p)) in
      let under path := match path ≫= (fun path => resolve_path env (components path)) with
        | Some path => path_starts_with path build_dir
        | None => false
        end in
      metadata_only && (under (ra_out_dir p) || under (ra_source_file p))
  end.
Definition output_stem (p : RustcArgs) : option string :=
  name ← ra_crate_name p;
  Some (format_crate_output_stem name (default "" (ra_extra_filename p))).
(** [reports_artifacts]: the flags and the values so far. *)
Fixpoint reports_artifacts_from (json_errors artifacts : bool) (args : list string) : bool :=
  match args with
  | [] => json_errors && artifacts
  | arg :: rest =>
      let '(flag, value) := match split_once "=" arg with
        | Some (flag, value) => (flag, Some value)
        | None => (arg, None)
        end in
      let value := match value with Some v => Some v | None => head rest end in
      if String.eqb flag "--error-format"
      then reports_artifacts_from (bool_decide (value = Some "json")) artifacts rest
      else if String.eqb flag "--json"
      then reports_artifacts_from json_errors
             (artifacts || match value with Some v => existsb (String.eqb "artifacts") (split_on "," v) | None => false end)
             rest
      else reports_artifacts_from json_errors artifacts rest
  end.
Definition reports_artifacts (p : RustcArgs) : bool := reports_artifacts_from false false (ra_all_args p).
Definition dep_info_path (env : Invocation) (p : RustcArgs) : option Path :=
  if negb (existsb (String.eqb "dep-info") (ra_emit p)) then None else
  if is_some (ra_dep_info_output p) then None else
  if is_some (ra_output p) then None else
  name ← ra_crate_name p;
  let file_name := format_crate_output_stem name (default "" (ra_extra_filename p)) ++ ".d" in
  dir ← ra_out_dir p;
  resolve_path env (components (join dir file_name)).
Definition checksum_freshness_enabled (p : RustcArgs) : bool :=
  existsb (starts_with "checksum-hash-algorithm") (ra_unstable_flags p).
Definition unit_id (p : RustcArgs) : option string := e ← ra_extra_filename p; unit_id_from_extra_filename e.
Definition has_coverage_instrumentation (p : RustcArgs) : bool :=
  existsb (fun kv => String.eqb kv.1 "instrument-coverage") (ra_codegen_opts p).
Definition is_trybuild_unit (p : RustcArgs) : bool := existsb (String.eqb "trybuild") (ra_cfgs p).
Definition skip_path_remap (p : RustcArgs) : bool :=
  has_coverage_instrumentation p || ra_path_normalize_disabled p || is_trybuild_unit p.
Definition get_codegen_opt (p : RustcArgs) (key : string) : option string :=
  kv ← head (filter (fun kv => kv.1 = key) (rev (ra_codegen_opts p)));
  kv.2.
Definition debuginfo_enabled (p : RustcArgs) : bool :=
  match get_codegen_opt p "debuginfo" with
  | None => false
  | Some v => negb (String.eqb v "0") && negb (String.eqb v "none")
  end.
Definition emits_link (p : RustcArgs) : bool :=
  bool_decide (ra_emit p = []) || existsb (String.eqb "link") (ra_emit p).
(** [has_crate_type] *)
Definition has_crate_type (p : RustcArgs) (matches : string -> bool) : bool :=
  existsb (fun kind => matches (trim kind)) (ra_crate_types p ≫= split_on ",").
Definition invokes_linker (p : RustcArgs) : bool :=
  emits_link p
  && (bool_decide (ra_crate_types p = []) || has_crate_type p (one_of ["bin"; "dylib"; "cdylib"; "proc-macro"])).
Definition links_native_closure (p : RustcArgs) : bool :=
  invokes_linker p || (emits_link p && has_crate_type p (String.eqb "staticlib")).
Definition emits_rlib (p : RustcArgs) : bool := emits_link p && has_crate_type p (one_of ["lib"; "rlib"]).
