(* ===== verification/RustcPolicy.v ===== *)
(** * What is done with a rustc command line

    [src/compiler/rustc.rs]: the invocations that are refused.
    [src/compile.rs]: the arguments the compiler is started with, their response
    file, and the incremental flags that are taken out or redirected. *)

From S2P Require Import Prelude Strings StorePolicy PePdb CargoLayout RustcArgs.
#[local] Open Scope string_scope.
#[local] Open Scope Z_scope.

(** ** Refusals *)

Inductive RefuseReason := NotPrimary | Unsupported (detail : string).

Definition COMPILER_BUNDLED_WASM_TARGETS : list string :=
  ["wasm32-unknown-unknown"; "wasm32-wasi"; "wasm32-wasip1"; "wasm32-wasip1-threads"; "wasm32-wasip2";
   "wasm32v1-none"; "wasm64-unknown-unknown"].
Definition is_compiler_bundled_wasm_target (target : string) : bool := one_of COMPILER_BUNDLED_WASM_TARGETS target.
Definition is_custom_target_spec (target : string) : bool :=
  contains_byte "/" target || contains_byte backslash target || ends_with ".json" target.
(** [str::split] on several separators. *)
Definition split_on_any (seps : list ascii) (s : string) : list string :=
  fold_left (fun parts c => parts ≫= split_on c) seps [s].
Definition is_wasm_triple (target : string) : bool :=
  existsb (starts_with "wasm") (split_on_any ["-"%char; "."%char; "/"%char; backslash] target).
Definition link_self_contained_disabled (p : RustcArgs) : bool :=
  match get_codegen_opt p "link-self-contained" with
  | None => false
  | Some v => negb (one_of ["y"; "yes"; "on"; "true"] v)
  end.
Definition wasm_link_refusal (p : RustcArgs) : option string :=
  if negb (is_executable_output p) || negb (emits_link p) then None else
  target ← ra_target p;
  if is_custom_target_spec target && is_wasm_triple target then Some "wasm custom target spec — not yet"
  else if is_compiler_bundled_wasm_target target then
    if link_self_contained_disabled p then Some "wasm link-self-contained disabled — not yet" else None
  else if is_wasm_triple target then Some "wasm target uses an external toolchain — not yet"
  else None.
Definition wants_source_dump (p : RustcArgs) : bool :=
  existsb (fun a => String.eqb a "--pretty" || String.eqb a "--unpretty" || starts_with "--pretty=" a
                    || starts_with "--unpretty=" a) (ra_all_args p)
  || existsb (fun z => String.eqb z "unpretty" || starts_with "unpretty=" z) (ra_unstable_flags p).
(** [rustc_refuse_reasons] *)
Definition rustc_refuse_reasons (env : Invocation) (p : RustcArgs) (build_script_out_dir : option string)
    : list RefuseReason :=
  ((if negb (ra_is_primary p) then [NotPrimary] else [])
   ++ (if is_build_script_probe env p build_script_out_dir then [Unsupported "rustc build-script probe — not yet"] else [])
   ++ (if argfile_expansion_failed p
       then [Unsupported "rustc response file could not be safely expanded — not yet supported"] else [])
   ++ (if ra_explicit_emit_output p then [Unsupported "rustc explicit --emit output path — not cacheable"] else [])
   ++ (if wants_source_dump p then [Unsupported "rustc --pretty/--unpretty source dump — not cacheable"] else [])
   ++ (if wasm_link_refusal p is Some reason then [Unsupported reason] else []))%list.

(** [RustcCompiler::classify_output] *)
Definition classify_output (p : RustcArgs) (name : string) : ArtifactKind :=
  let kind := classify_by_filename name in
  let is_output := match ra_output p ≫= (fun path => path_file_name (components path)) with
    | Some output => String.eqb output name
    | None => false
    end in
  match kind with
  | WasmModule => kind
  | _ =>
      if is_user_facing_executable p && emits_link p && is_output then Executable else
      match kind with
      | OtherKind tag =>
          if String.eqb tag "extensionless"
             && (ra_is_test p
                 || existsb (fun t => match classify_crate_type t with Executable => true | _ => false end)
                      (ra_crate_types p))
          then Executable else OtherKind "rustc:unknown"
      | kind => kind
      end
  end.
Definition crate_type_produces_metadata (crate_type : string) : bool :=
  negb (one_of ["bin"; "cdylib"; "staticlib"] crate_type).

(** ** The arguments of the compiler *)

(** [RustcResponseFile::new_in]: what is written. *)
Definition response_file (args : list string) : result ArgfileError string :=
  try_fold (fun contents arg =>
      ensure (negb (has_line_break arg)) LineBreak;;
      Ok (contents ++ arg ++ String newline "")) "" args.

Definition WINDOWS_COMMAND_LINE_LIMIT : Z := 32767.
(** [needs_response_file] *)
Definition needs_response_file (cargo_used_one : bool) (line_bound : Z) (limit : option Z) : bool :=
  cargo_used_one || match limit with Some limit => limit <? line_bound | None => false end.

(** [strip_incremental_flags] *)
Fixpoint strip_incremental_flags (args : list string) : list string :=
  match args with
  | [] => []
  | arg :: rest =>
      if starts_with "-Cincremental=" arg || starts_with "--codegen=incremental=" arg
      then strip_incremental_flags rest
      else match rest with
      | next :: rest' =>
          if (String.eqb arg "-C" || String.eqb arg "--codegen") && starts_with "incremental=" next
          then strip_incremental_flags rest' else arg :: strip_incremental_flags rest
      | [] => [arg]
      end
  end.
(** [isolate_incremental_flags]; [isolated] is the path with [.kache-preserved]
    appended to its file name, if it has one. *)
Fixpoint isolate_incremental_flags (isolated : string -> option string) (args : list string) : option (list string) :=
  match args with
  | [] => Some []
  | arg :: rest =>
      match strip_prefix "-Cincremental=" arg with
      | Some path =>
          path ← isolated path;
          rest ← isolate_incremental_flags isolated rest;
          Some (("-Cincremental=" ++ path) :: rest)
      | None =>
          let other :=
            match strip_prefix "--codegen=incremental=" arg with
            | Some path =>
                path ← isolated path;
                rest ← isolate_incremental_flags isolated rest;
                Some (("--codegen=incremental=" ++ path) :: rest)
            | None => rest ← isolate_incremental_flags isolated rest; Some (arg :: rest)
            end in
          match rest with
          | next :: rest' =>
              if String.eqb arg "-C" || String.eqb arg "--codegen" then
                match strip_prefix "incremental=" next with
                | Some path =>
                    path ← isolated path;
                    rest ← isolate_incremental_flags isolated rest';
                    Some (arg :: ("incremental=" ++ path) :: rest)
                | None => other
                end
              else other
          | [] => other
          end
      end
  end.
