(* ===== verification/RustcArgsProofs.v ===== *)
(** * The rustc command line is read the way it is meant

    Response files are transparent, spellings are equivalent, and taking out the
    presentation flags or the incremental flags takes out nothing else. *)

From S2P Require Import Prelude Strings StorePolicy PePdb PePdbProofs CargoLayout RustcArgs RustcPolicy.
#[local] Open Scope string_scope.
#[local] Open Scope Z_scope.
#[local] Open Scope record_scope.

(** ** Response files *)

Abbreviation line s := (s ++ String newline "").
Definition no_byte (c : ascii) (s : string) : Prop := all_bytes (fun b => negb (Ascii.eqb b c)) s = true.
Lemma contains_byte_false c s : contains_byte c s = false <-> no_byte c s.
Proof. unfold contains_byte, no_byte. by rewrite negb_false_iff. Qed.

Lemma split_on_line c s rest : no_byte c s -> split_on c (s ++ String c rest) = s :: split_on c rest.
Proof. intros Hs. by rewrite split_on_app, split_on_none. Qed.
Lemma strip_cr_plain s : no_byte carriage_return s -> strip_cr s = s.
Proof.
  unfold strip_cr, no_byte. intros Hs. destruct (strip_suffix _ s) as [r|] eqn:E; [|done].
  apply strip_suffix_Some in E as ->. rewrite all_bytes_app in Hs. bool_to_prop. done.
Qed.
Lemma lines_unlines args :
  Forall (fun arg => has_line_break arg = false) args ->
  lines (concat_str (map (fun arg => line arg) args)) = args.
Proof.
  intros Hall. unfold lines.
  assert (split_on newline (concat_str (map (fun arg => line arg) args)) = (args ++ [""])%list) as ->.
  { induction Hall as [|arg args Ha _ IH]; [done|]. cbn [map concat_str]. rewrite <- string_app_assoc.
    unfold has_line_break in Ha. apply orb_false_iff in Ha as [Ha%contains_byte_false _].
    change (String newline "" ++ concat_str (map (fun arg => line arg) args))
      with (String newline (concat_str (map (fun arg => line arg) args))).
    rewrite split_on_line by done. by rewrite IH. }
  assert (strip_crs (args ++ [""])%list = (args ++ [""])%list) as ->.
  { induction Hall as [|arg args Ha _ IH]; [done|]. unfold has_line_break in Ha.
    apply orb_false_iff in Ha as [_ Ha%contains_byte_false]. cbn [app strip_crs].
    destruct args as [|b args]; cbn [app] in *; rewrite strip_cr_plain by done; by rewrite ?IH. }
  induction Hall as [|arg args _ _ IH]; [done|]. cbn [app drop_last_empty]. destruct args; [done|]. cbn [app] in *. by rewrite IH.
Qed.

Lemma response_lines args acc contents :
  try_fold (fun contents arg =>
      ensure (negb (has_line_break arg)) LineBreak;;
      Ok (contents ++ arg ++ String newline "")) acc args = Ok contents ->
  contents = acc ++ concat_str (map (fun arg => line arg) args) /\
  Forall (fun arg => has_line_break arg = false) args.
Proof.
  revert acc. induction args as [|arg args IH]; intros acc; cbn [try_fold map concat_str].
  - intros [= <-]. by rewrite string_app_nil_r.
  - intros (c & Hc & Hr)%bind_Ok. inv_result. apply IH in Hr as [-> Hall]. bool_to_prop.
    rewrite <- !string_app_assoc. split; [done|]. by constructor.
Qed.
Lemma response_file_Ok args contents :
  response_file args = Ok contents ->
  contents = concat_str (map (fun arg => line arg) args) /\ Forall (fun arg => has_line_break arg = false) args.
Proof. apply response_lines. Qed.

(** What one argument expands to. *)
Definition expansion (env : Invocation) (read_to_string : string -> option string) (arg : string)
    : option (list string) :=
  match strip_prefix "@" arg with
  | None => Some [arg]
  | Some path => resolved ← resolve env path; lines <$> read_to_string resolved
  end.
Lemma push_expanded x arg : ax_expanded (push_arg x arg) = (ax_expanded x ++ [arg])%list.
Proof. unfold push_arg. repeat case_match; done. Qed.
Lemma push_all_expanded l x : ax_expanded (fold_left push_arg l x) = (ax_expanded x ++ l)%list.
Proof.
  revert x. induction l as [|a l IH]; intros x; cbn [fold_left]; [by rewrite app_nil_r|].
  rewrite IH, push_expanded. by rewrite <- app_assoc.
Qed.
Lemma expand_args_spec env rd args x x' :
  try_fold (expand_arg env rd) x args = Ok x' ->
  exists parts, mapM (expansion env rd) args = Some parts /\ ax_expanded x' = (ax_expanded x ++ concat parts)%list.
Proof.
  revert x. induction args as [|arg args IH]; intros x; cbn [try_fold mapM].
  { intros [= <-]. exists []. split; [done|]. cbn. by rewrite app_nil_r. }
  intros (x1 & H1 & Hr)%bind_Ok. apply IH in Hr as (parts & Hp & Hx).
  assert (exists l, expansion env rd arg = Some l /\ ax_expanded x1 = (ax_expanded x ++ l)%list) as (l & Hl & Hx1).
  { unfold expand_arg in H1. unfold expansion. destruct (strip_prefix "@" arg) as [path|].
    - inv_result. rename select (resolve env path = _) into Hres. rename select (rd _ = _) into Hrd.
      rewrite Hres. cbn. rewrite Hrd. eexists. split; [done|]. by rewrite push_all_expanded.
    - injection H1 as <-. eexists. split; [done|]. by rewrite push_expanded. }
  exists (l :: parts). rewrite Hl. cbn [mbind option_bind]. rewrite Hp. split; [done|]. rewrite Hx, Hx1. cbn. by rewrite app_assoc.
Qed.

(** Response files are transparent.  When an argument list with response
    files expands, every [@file] argument is replaced by the lines of the file
    it names and every other argument is kept, in order; and a list that kache
    writes to a response file of its own comes out unchanged when the compiler
    reads it. *)
Theorem response_files_transparent env rd args out path contents :
  expand_rustc_argfiles env rd args = Ok (Some out) ->
  (exists parts, mapM (expansion env rd) args = Some parts /\ out = concat parts) /\
  Forall (fun arg => has_line_break arg = false) out /\
  (response_file out = Ok contents -> rd path = Some contents -> is_absolute path = true ->
   expand_rustc_argfiles env rd ["@" ++ path] = Ok (Some out)).
Proof.
  unfold expand_rustc_argfiles at 1. destruct (negb _) eqn:Eat; [done|]. intros Hx. inv_result.
  rename select (try_fold _ _ _ = _) into Hrun. apply expand_args_spec in Hrun as (parts & Hp & Hx).
  rename select (negb (existsb has_line_break _) = true) into Hlb. apply negb_true_iff in Hlb.
  assert (Forall (fun arg => has_line_break arg = false) (ax_expanded x)) as Hall.
  { apply Forall_forall. intros arg Hin. destruct (has_line_break arg) eqn:E; [|done].
    rewrite <- Hlb. symmetry. apply existsb_exists. exists arg. split; [by apply list_elem_of_In|done]. }
  split_and!; [by exists parts|done|]. intros [-> _]%response_file_Ok Hrd Habs.
  unfold expand_rustc_argfiles. cbn [existsb negb]. change (starts_with "@" ("@" ++ path)) with true.
  cbn [orb negb try_fold]. unfold expand_arg. change (strip_prefix "@" ("@" ++ path)) with (Some path).
  cbn [ax_shell_argfiles andb negb ensure mbind result_bind]. unfold resolve. rewrite Habs.
  cbn [with_context mbind result_bind]. rewrite Hrd. cbn [with_context mbind result_bind].
  rewrite lines_unlines, push_all_expanded by done. cbn [ax_expanded app]. by rewrite Hlb.
Qed.

(** ** One token *)

(** The changes a token other than a presentation flag makes. *)
Inductive edit : (RustcArgs -> RustcArgs) -> Prop :=
| ed_none : edit (fun p => p)
| ed_crate_name v : edit (fun p => p <| ra_crate_name := v |>)
| ed_crate_type v : edit (fun p => p <| ra_crate_types ::= fun l => (l ++ [v])%list |>)
| ed_output v : edit (fun p => p <| ra_output := v |>)
| ed_out_dir v : edit (fun p => p <| ra_out_dir := v |>)
| ed_emit v : edit (parse_emit_value v)
| ed_target v : edit (fun p => p <| ra_target := v |>)
| ed_edition v : edit (fun p => p <| ra_edition := v |>)
| ed_extern v : edit (record_extern v)
| ed_cfg v : edit (record_cfg v)
| ed_test : edit (fun p => p <| ra_is_test := true |>)
| ed_codegen v : edit (record_codegen_opt v)
| ed_sysroot v : edit (fun p => p <| ra_sysroot := v |>)
| ed_link_search v : edit (fun p => p <| ra_link_search ::= fun l => (l ++ [v])%list |>)
| ed_link_lib v : edit (fun p => p <| ra_link_libs ::= fun l => (l ++ [v])%list |>)
| ed_jobs v : edit (fun p => p <| ra_frontend_jobs ::= fun l => (l ++ [v])%list |>)
| ed_unstable v : edit (fun p => p <| ra_unstable_flags ::= fun l => (l ++ [v])%list |>)
| ed_remap v : edit (fun p => p <| ra_remap_path_prefixes ::= fun l => (l ++ [v])%list |>)
| ed_lint v : edit (fun p => p <| ra_outcome_lint_flags ::= fun l => (l ++ v)%list |>)
| ed_source v : edit (fun p => p <| ra_source_file := Some v |>)
| ed_residual v : edit (fun p => p <| ra_residual_args ::= fun l => (l ++ [v])%list |>).
(** A presentation flag at position [i], with or without a value of its own. *)
Definition present (i : nat) (own : bool) (flag : string) (p : RustcArgs) : RustcArgs :=
  p <| ra_diagnostic_arg_indices ::= fun l => (l ++ i :: if own then [i + 1] else [])%nat%list |>
    <| ra_diagnostic_flags ::= fun l => (l ++ [flag])%list |>.

(** What a token does to the record, whether it marks a query, and whether it
    takes the next token. *)
Inductive action :=
| Edits (f : RustcArgs -> RustcArgs) (q takes : bool)
| Presents (own : bool) (flag : string).
Definition act (i : nat) (a : action) (st : Parsing) : Parsing * bool :=
  match a with
  | Edits f q takes => ({| pg_args := f (pg_args st); pg_is_query := q || pg_is_query st |}, takes)
  | Presents own flag => ({| pg_args := present i own flag (pg_args st); pg_is_query := pg_is_query st |}, own)
  end.
(** An arm of the parser: its action depends on the next token only when it
    takes it. *)
Record arm (r : nat -> option string -> Parsing -> Parsing * bool) (g : option string -> action) : Prop := {
  arm_act : forall i next st, r i next st = act i (g next) st;
  arm_edit : forall next f q takes, g next = Edits f q takes -> edit f;
  arm_own : forall flag, g None <> Presents true flag;
  arm_stable : forall next next' f q, g next = Edits f q false -> g next' = g next;
}.
Definition is_arm r : Prop := exists g, arm r g.
Ltac solve_arm g :=
  exists g; split;
  [ intros i [v|] [args q]; reflexivity
  | intros [v|] f' q' t'; cbn; intros Hg; injection Hg; intros; subst; auto using ed_none
  | intros flag; cbn; discriminate
  | intros [v|] [w|] f' q'; cbn; congruence ].
Lemma arm_take f : (forall v, edit (f v)) -> is_arm (fun _ next st => take_value next f st).
Proof. intros Hf. solve_arm (fun next => match next with Some v => Edits (f v) false true | None => Edits (fun p => p) false true end). Qed.
Lemma arm_set f : (forall v, edit (f v)) -> is_arm (fun _ next st => set_value (f next) st).
Proof. intros Hf. solve_arm (fun next => Edits (f next) false true). Qed.
Lemma arm_attached f : edit f -> is_arm (fun _ _ st => attached f st).
Proof. intros Hf. solve_arm (fun _ : option string => Edits f false false). Qed.
Lemma arm_query skip : is_arm (fun _ _ st => query skip st).
Proof. solve_arm (fun _ : option string => Edits (fun p => p) true skip). Qed.
Lemma arm_skip takes : is_arm (fun _ _ st => (st, takes)).
Proof. solve_arm (fun _ : option string => Edits (fun p => p) false takes). Qed.
Lemma arm_presents arg : is_arm (fun i next st =>
  match next with
  | Some value => set_value (fun p =>
      p <| ra_diagnostic_arg_indices ::= fun l => (l ++ [i; i + 1])%nat%list |>
        <| ra_diagnostic_flags ::= fun l => (l ++ [(arg ++ "=" ++ value)%string])%list |>) st
  | None => attached (fun p =>
      p <| ra_diagnostic_arg_indices ::= fun l => (l ++ [i])%list |>
        <| ra_diagnostic_flags ::= fun l => (l ++ [arg])%list |>) st
  end).
Proof.
  exists (fun next => match next with Some v => Presents true (arg ++ "=" ++ v) | None => Presents false arg end).
  split; try done; [by intros i [v|] [args q]|by intros [v|]|by intros [v|]].
Qed.
Lemma arm_presents_attached arg : is_arm (fun i _ st => attached (fun p =>
      p <| ra_diagnostic_arg_indices ::= fun l => (l ++ [i])%list |>
        <| ra_diagnostic_flags ::= fun l => (l ++ [arg])%list |>) st).
Proof. by exists (fun _ => Presents false arg); split; [intros i [v|] [args q]| | |]. Qed.

Definition shaped (F : nat -> option string -> Parsing -> option (Parsing * bool)) : Prop :=
  (forall i next st, F i next st = None) \/ exists r, is_arm r /\ forall i next st, F i next st = Some (r i next st).
Ltac is_edit := first [apply ed_codegen|apply ed_emit|apply ed_extern|apply ed_cfg|constructor].
Ltac is_an_arm := first
  [ apply arm_take; intros; is_edit | refine (arm_set (fun _ => _) _); intros; is_edit
  | apply arm_attached; is_edit | apply arm_query | apply arm_skip
  | apply arm_presents | apply arm_presents_attached
  | apply (arm_attached (record_codegen_opt "opt-level=3")); is_edit
  | apply (arm_attached (record_codegen_opt "debuginfo=2")); is_edit ].
Ltac shapes := first [left; reflexivity | right; eexists; split; [|intros i next st; reflexivity]; is_an_arm].
Ltac conditions :=
  repeat match goal with
  | |- context [if ?b then _ else _] => lazymatch b with context [if _ then _ else _] => fail | _ => destruct b end
  | |- context [match strip_prefix ?s ?arg with _ => _ end] => destruct (strip_prefix s arg)
  | |- context [match attached_value ?s ?arg with _ => _ end] => destruct (attached_value s arg)
  end.
Lemma parse_unit_flag_shape arg : shaped (fun _ => parse_unit_flag arg).
Proof. unfold shaped, parse_unit_flag. conditions. all: shapes. Qed.
Lemma parse_codegen_flag_shape arg : shaped (fun _ => parse_codegen_flag arg).
Proof. unfold shaped, parse_codegen_flag. conditions. all: shapes. Qed.
Lemma parse_lint_flag_shape arg : shaped (fun i => parse_lint_flag i arg).
Proof. unfold shaped, parse_lint_flag. conditions. all: shapes. Qed.
Section Tokens.
Context (path_exists : string -> bool).
Abbreviation parse_arg := (parse_arg path_exists).
Abbreviation parse_args := (parse_args path_exists).

Definition has_source (st : Parsing) : bool := is_some (ra_source_file (pg_args st)).
Lemma parse_rest_arm arg src : exists r, is_arm r /\
  forall i next st, has_source st = src -> parse_rest path_exists arg st = r i next st.
Proof.
  destruct (negb (starts_with "-" arg) && negb src && (ends_with ".rs" arg || path_exists arg)) eqn:E;
    [exists (fun _ _ => attached (fun p => p <| ra_source_file := Some arg |>))
    |exists (fun _ _ => attached (fun p => p <| ra_residual_args ::= fun l => (l ++ [arg])%list |>))];
    (split; [apply arm_attached; is_edit|]); intros i next st <-; unfold parse_rest, has_source, is_some in *;
    by destruct (ra_source_file _); cbn [negb] in E; rewrite E.
Qed.
Lemma parse_arg_arm arg src : exists g r, arm r g /\
  forall i next st, has_source st = src -> parse_arg i arg next st = act i (g next) st.
Proof.
  unfold parse_arg. destruct (parse_unit_flag_shape arg) as [Hu|(r & [g Hr] & Hu)].
  2: { exists g, r. split; [done|]. intros i next st _. by rewrite (Hu i), (arm_act _ _ Hr). }
  destruct (parse_codegen_flag_shape arg) as [Hc|(r & [g Hr] & Hc)].
  2: { exists g, r. split; [done|]. intros i next st _. by rewrite (Hu i), (Hc i), (arm_act _ _ Hr). }
  destruct (parse_lint_flag_shape arg) as [Hl|(r & [g Hr] & Hl)].
  2: { exists g, r. split; [done|]. intros i next st _. by rewrite (Hu i), (Hc i), Hl, (arm_act _ _ Hr). }
  destruct (parse_rest_arm arg src) as (r & [g Hr] & Hrest).
  exists g, r. split; [done|]. intros i next st Hs. rewrite (Hu i), (Hc i), Hl. cbn [default].
  by rewrite (Hrest i next), (arm_act _ _ Hr).
Qed.

(** ** Views

    A view forgets some fields; the parser respects it when what it keeps of a
    changed record depends only on what it keeps of the record. *)
Context {V : Type} (view : RustcArgs -> V).
Definition respects (f : RustcArgs -> RustcArgs) : Prop := forall p q, view p = view q -> view (f p) = view (f q).
Class View := {
  view_edit : forall f, edit f -> respects f;
  view_present : forall i own flag p, view (present i own flag p) = view p;
  view_source : forall p q, view p = view q -> ra_source_file p = ra_source_file q;
}.
Context `{!View}.
Definition same (s t : Parsing) : Prop := view (pg_args s) = view (pg_args t) /\ pg_is_query s = pg_is_query t.
#[export] Instance same_equiv : Equivalence same.
Proof. split; [by split|by intros ?? [? ?]|intros ??? [? ?] [? ?]; split; congruence]. Qed.
Lemma same_source s t : same s t -> has_source s = has_source t.
Proof. intros [Hv _]. unfold has_source. by rewrite (view_source _ _ Hv). Qed.
Lemma edit_same f q s t : edit f -> same s t ->
  same {| pg_args := f (pg_args s); pg_is_query := q || pg_is_query s |}
       {| pg_args := f (pg_args t); pg_is_query := q || pg_is_query t |}.
Proof. intros Hf [Hv Hq]. split; cbn; [by eapply view_edit|by rewrite Hq]. Qed.
Lemma act_same r g next i j s t :
  arm r g -> same s t -> same (act i (g next) s).1 (act j (g next) t).1.
Proof.
  intros Hr [Hv Hq]. destruct (g next) as [f q takes|own flag] eqn:Eg; split; cbn in *; [|congruence| |done].
  - eapply view_edit; [by eapply arm_edit|done].
  - by rewrite !view_present.
Qed.
Lemma act_takes i j a s t : (act i a s).2 = (act j a t).2.
Proof. by destruct a. Qed.
(** The parser does not see what the view forgets, nor where it starts. *)
Lemma parse_args_same args i j s t : same s t -> same (parse_args i args s) (parse_args j args t).
Proof.
  remember (length args) as n eqn:Hn. assert (length args <= n)%nat as Hl by lia. clear Hn.
  revert args Hl i j s t. induction n as [|n IH]; intros [|arg rest] Hl i j s t Hst; cbn in Hl |- *; try (done || lia).
  destruct (parse_arg_arm arg (has_source s)) as (g & r & Hr & Hact).
  rewrite (Hact i), (Hact j) by (done || by rewrite (same_source _ _ Hst)).
  pose proof (act_same r g (head rest) i j s t Hr Hst) as Hs. pose proof (act_takes i j (g (head rest)) s t) as Ht.
  destruct (act i _ s) as [s' c], (act j _ t) as [t' d]. cbn in Hs, Ht. subst d.
  destruct c, rest as [|next rest]; cbn in Hl; apply IH; (done || cbn; lia).
Qed.
End Tokens.

(** ** Presentation flags *)

Definition unpresented (p : RustcArgs) : RustcArgs :=
  p <| ra_diagnostic_flags := [] |> <| ra_diagnostic_arg_indices := [] |> <| ra_all_args := [] |>.
Lemma emit_parts_commute (view : RustcArgs -> RustcArgs) l p :
  (forall p part, view (parse_emit_part p part) = parse_emit_part (view p) part) ->
  view (fold_left parse_emit_part l p) = fold_left parse_emit_part l (view p).
Proof. intros Hv. revert p. induction l as [|part l IH]; intros p; cbn; [done|]. by rewrite IH, Hv. Qed.
Lemma edit_unpresented f p : edit f -> unpresented (f p) = f (unpresented p).
Proof.
  destruct 1; try reflexivity.
  - unfold parse_emit_value. apply emit_parts_commute. intros q part. unfold parse_emit_part.
    destruct (default _ _) as [kind out]. repeat case_match; reflexivity.
  - unfold record_cfg. case_match; reflexivity.
  - unfold record_codegen_opt. destruct (parse_codegen_opt v). repeat case_match; reflexivity.
Qed.
#[export] Instance unpresented_view : View unpresented.
Proof.
  split.
  - intros f Hf p q Hpq. by rewrite !edit_unpresented, Hpq.
  - reflexivity.
  - intros p q Hpq. exact (f_equal ra_source_file Hpq).
Qed.
Definition presentation (p : RustcArgs) : list string * list nat := (ra_diagnostic_flags p, ra_diagnostic_arg_indices p).
Lemma edit_presentation f p : edit f -> presentation (f p) = presentation p.
Proof.
  destruct 1; try reflexivity.
  - unfold parse_emit_value. revert p. induction (split_on "," v) as [|part l IH]; intros p; cbn; [done|]. rewrite IH.
    unfold parse_emit_part. destruct (default _ _) as [kind out]. repeat case_match; reflexivity.
  - unfold record_cfg. case_match; reflexivity.
  - unfold record_codegen_opt. destruct (parse_codegen_opt v). repeat case_match; reflexivity.
Qed.

(** The tokens from position [i] whose positions are not in [l]. *)
Fixpoint kept_from (i : nat) (l : list nat) (args : list string) : list string :=
  match args with
  | [] => []
  | arg :: rest => if decide (i ∈ l) then kept_from (i + 1) l rest else arg :: kept_from (i + 1) l rest
  end.
Lemma kept_imap l args k :
  omap (fun ia => if bool_decide (ia.1 ∈ l) then None else Some ia.2) (imap (fun n => pair (k + n)%nat) args)
  = kept_from k l args.
Proof.
  revert k. induction args as [|arg args IH]; intros k; [done|].
  rewrite imap_cons. cbn [omap list_omap kept_from fst snd]. rewrite Nat.add_0_r.
  rewrite (imap_ext _ (fun n => pair (k + 1 + n)%nat)) by (intros; cbn; f_equal; lia). rewrite IH.
  by case_bool_decide; case_decide.
Qed.
Lemma args_without_kept p : args_without_diagnostic_presentation p = kept_from 0 (ra_diagnostic_arg_indices p) (ra_all_args p).
Proof. exact (kept_imap (ra_diagnostic_arg_indices p) (ra_all_args p) 0). Qed.
Lemma kept_from_ext i l l' args :
  (forall k, (i <= k)%nat -> k ∈ l <-> k ∈ l') -> kept_from i l args = kept_from i l' args.
Proof.
  revert i. induction args as [|arg args IH]; intros i Hl; cbn; [done|]. rewrite (IH (i + 1)%nat) by (intros; apply Hl; lia).
  pose proof (Hl i ltac:(lia)) as Hi. destruct (decide (i ∈ l)), (decide (i ∈ l')); (done || tauto).
Qed.

Section Presentation.
Context (path_exists : string -> bool).
Abbreviation parse_args := (parse_args path_exists).
Abbreviation same := (same unpresented).

(** What the parser records as presentation flags from position [i] on, and
    what it would do without them. *)
Record kept_spec (args : list string) (i : nat) (st : Parsing) (l : list nat) : Prop := {
  ks_indices : ra_diagnostic_arg_indices (pg_args (parse_args i args st)) = (ra_diagnostic_arg_indices (pg_args st) ++ l)%list;
  ks_after : forall k, k ∈ l -> (i <= k)%nat;
  ks_parse : forall j t, same st t ->
    same (parse_args i args st) (parse_args j (kept_from i l args) t) /\
    presentation (pg_args (parse_args j (kept_from i l args) t)) = presentation (pg_args t);
}.
Lemma kept_from_skip k i l arg rest :
  (forall k, k ∈ l -> (i <= k)%nat) -> (k < i)%nat -> kept_from k l (arg :: rest) = arg :: kept_from (k + 1) l rest.
Proof. intros Hl Hk. cbn. rewrite decide_False; [done|]. intros Hin%Hl. lia. Qed.
Lemma kept_nil i st : kept_spec [] i st [].
Proof. split; [by rewrite app_nil_r|by intros k []%not_elem_of_nil|done]. Qed.

(** A token that is kept, alone or with the next one. *)
Lemma kept_one arg rest i st st' f q l :
  edit f -> st' = {| pg_args := f (pg_args st); pg_is_query := q || pg_is_query st |} ->
  kept_spec rest (i + 1) st' l ->
  (forall j next t, has_source t = has_source st -> RustcArgs.parse_arg path_exists j arg next t
     = ({| pg_args := f (pg_args t); pg_is_query := q || pg_is_query t |}, false)) ->
  kept_spec (arg :: rest) i st l.
Proof.
  intros Hf -> [Hi Ha Hp] Hact. pose proof (f_equal snd (edit_presentation f (pg_args st) Hf)) as Hind. cbn in Hind.
  split.
  - cbn [RustcArgs.parse_args]. rewrite Hact by done. by rewrite Hi; cbn; rewrite Hind.
  - intros k Hk%Ha. lia.
  - intros j t Hst. rewrite (kept_from_skip i (i + 1)) by (done || lia). cbn [RustcArgs.parse_args].
    rewrite !Hact by (done || by rewrite (same_source _ _ _ Hst)).
    destruct (Hp (j + 1)%nat {| pg_args := f (pg_args t); pg_is_query := q || pg_is_query t |}) as [H1 H2].
    { exact (edit_same unpresented f q st t Hf Hst). }
    split; [done|]. rewrite H2. apply (edit_presentation f (pg_args t) Hf).
Qed.
Lemma kept_two arg next rest i st st' f q l :
  edit f -> st' = {| pg_args := f (pg_args st); pg_is_query := q || pg_is_query st |} ->
  kept_spec rest (i + 2) st' l ->
  (forall j t, has_source t = has_source st -> RustcArgs.parse_arg path_exists j arg (Some next) t
     = ({| pg_args := f (pg_args t); pg_is_query := q || pg_is_query t |}, true)) ->
  kept_spec (arg :: next :: rest) i st l.
Proof.
  intros Hf -> [Hi Ha Hp] Hact. pose proof (f_equal snd (edit_presentation f (pg_args st) Hf)) as Hind. cbn in Hind.
  split.
  - cbn [RustcArgs.parse_args head]. rewrite Hact by done. by rewrite Hi; cbn; rewrite Hind.
  - intros k Hk%Ha. lia.
  - intros j t Hst. rewrite !(kept_from_skip _ (i + 2)) by (done || lia). cbn [RustcArgs.parse_args head].
    rewrite !Hact by (done || by rewrite (same_source _ _ _ Hst)).
    replace (i + 1 + 1)%nat with (i + 2)%nat by lia.
    destruct (Hp (j + 2)%nat {| pg_args := f (pg_args t); pg_is_query := q || pg_is_query t |}) as [H1 H2].
    { exact (edit_same unpresented f q st t Hf Hst). }
    split; [done|]. rewrite H2. apply (edit_presentation f (pg_args t) Hf).
Qed.
Lemma kept_last arg i st f q :
  edit f ->
  (forall j t, has_source t = has_source st -> RustcArgs.parse_arg path_exists j arg None t
     = ({| pg_args := f (pg_args t); pg_is_query := q || pg_is_query t |}, true)) ->
  kept_spec [arg] i st [].
Proof.
  intros Hf Hact. split.
  - cbn [RustcArgs.parse_args head]. rewrite Hact, app_nil_r by done. apply (f_equal snd (edit_presentation f (pg_args st) Hf)).
  - by intros k []%not_elem_of_nil.
  - intros j t Hst. cbn [kept_from]. rewrite decide_False by apply not_elem_of_nil. cbn [RustcArgs.parse_args head].
    rewrite !Hact by (done || by rewrite (same_source _ _ _ Hst)).
    split; [exact (edit_same unpresented f q st t Hf Hst)|apply (edit_presentation f (pg_args t) Hf)].
Qed.
(** A presentation flag is dropped, with the value it takes. *)
Lemma kept_drop arg rest i st l (own : bool) flag :
  let width := if own then 2%nat else 1%nat in
  let st' := {| pg_args := present i own flag (pg_args st); pg_is_query := pg_is_query st |} in
  (own = true -> rest <> []) ->
  RustcArgs.parse_arg path_exists i arg (head rest) st = (st', own) ->
  kept_spec (drop (width - 1) rest) (i + width) st' l ->
  kept_spec (arg :: rest) i st ((i :: if own then [(i + 1)%nat] else []) ++ l)%list.
Proof.
  intros width st' Hown Harg [Hi Ha Hp].
  assert (parse_args i (arg :: rest) st = parse_args (i + width) (drop (width - 1) rest) st') as Hstep.
  { cbn [RustcArgs.parse_args]. rewrite Harg. subst width. destruct own, rest; done || by destruct (Hown eq_refl). }
  split.
  - rewrite Hstep, Hi. subst st'. cbn. by rewrite <- app_assoc.
  - intros k [Hk|Hk%Ha]%elem_of_app; [|lia]. destruct own; set_unfold; lia.
  - intros j t Hst. rewrite Hstep.
    assert (kept_from i ((i :: if own then [(i + 1)%nat] else []) ++ l)%list (arg :: rest)
            = kept_from (i + width) l (drop (width - 1) rest)) as ->.
    { subst width. destruct own; cbn [kept_from app]; rewrite decide_True by set_solver.
      - destruct rest as [|next rest]; [by destruct (Hown eq_refl)|]. cbn [kept_from drop Nat.sub].
        rewrite decide_True by set_solver. replace (i + 1 + 1)%nat with (i + 2)%nat by lia.
        apply kept_from_ext. intros k Hk. set_unfold. split; [|tauto]. intros [?|[?|?]]; (done || lia).
      - apply kept_from_ext. intros k Hk. set_unfold. split; [|tauto]. intros [?|?]; (done || lia). }
    apply Hp. destruct Hst as [Hv Hq]. split; [|done]. subst st'. cbn [pg_args]. by rewrite (view_present unpresented).
Qed.
Lemma parse_args_kept n : forall args i st, (length args <= n)%nat -> exists l, kept_spec args i st l.
Proof.
  induction n as [|n IH]; intros [|arg rest] i st Hn; cbn in Hn; try lia; try (exists []; apply kept_nil).
  destruct (parse_arg_arm path_exists arg (has_source st)) as (g & r & Hr & Hact).
  destruct (g (head rest)) as [f q takes|own flag] eqn:Eg.
  - pose proof (arm_edit _ _ Hr _ _ _ _ Eg) as Hf.
    set (st' := {| pg_args := f (pg_args st); pg_is_query := q || pg_is_query st |}).
    destruct takes.
    + destruct rest as [|next rest]; cbn [head] in *.
      * exists []. eapply kept_last; [done|]. intros j t Ht. rewrite Hact by done. by rewrite Eg.
      * destruct (IH rest (i + 2)%nat st') as [l Hl]; [cbn in Hn; lia|]. exists l.
        eapply kept_two; [done|done|done|]. intros j t Ht. rewrite Hact by done. by rewrite Eg.
    + destruct (IH rest (i + 1)%nat st') as [l Hl]; [lia|]. exists l.
      eapply kept_one; [done|done|done|]. intros j next t Ht. rewrite Hact by done.
      by rewrite (arm_stable _ _ Hr _ next _ _ Eg), Eg.
  - destruct (IH (drop ((if own then 2 else 1) - 1) rest) (i + if own then 2 else 1)%nat
      {| pg_args := present i own flag (pg_args st); pg_is_query := pg_is_query st |}) as [l Hl];
      [rewrite length_drop; lia|].
    eexists. apply (kept_drop _ _ _ _ l own flag); [|by rewrite Hact, Eg|done].
    intros -> ->. by apply (arm_own _ _ Hr flag).
Qed.
End Presentation.

(** The command line the parser works on is not changed by the loop. *)
Definition invoked (p : RustcArgs) :=
  (ra_rustc p, ra_inner_rustc p, ra_all_args p, ra_raw_args p, ra_argfile_state p, ra_path_normalize_disabled p).
Lemma edit_invoked f p : edit f -> invoked (f p) = invoked p.
Proof.
  destruct 1; try reflexivity.
  - unfold parse_emit_value. revert p. induction (split_on "," v) as [|part l IH]; intros p; cbn [fold_left]; [done|]. rewrite IH.
    unfold parse_emit_part. destruct (default _ _) as [kind out]. repeat case_match; reflexivity.
  - unfold record_cfg. case_match; reflexivity.
  - unfold record_codegen_opt. destruct (parse_codegen_opt v). repeat case_match; reflexivity.
Qed.
Lemma parse_args_invoked path_exists n : forall args i st, (length args <= n)%nat ->
  invoked (pg_args (parse_args path_exists i args st)) = invoked (pg_args st).
Proof.
  induction n as [|n IH]; intros [|arg rest] i st Hn; cbn in Hn |- *; try (done || lia).
  destruct (parse_arg_arm path_exists arg (has_source st)) as (g & r & Hr & Hact). rewrite Hact by done.
  assert (invoked (pg_args (act i (g (head rest)) st).1) = invoked (pg_args st)) as Hi.
  { destruct (g (head rest)) eqn:Eg; [|done]. apply edit_invoked. by eapply arm_edit. }
  destruct (act _ _ _) as [st' c]. cbn in Hi. destruct c, rest as [|next rest]; rewrite IH; (done || cbn in Hn |- *; lia).
Qed.

Lemma finish_parse_same env disk s t :
  same unpresented s t -> unpresented (finish_parse env disk s) = unpresented (finish_parse env disk t).
Proof.
  intros [Hv Hq]. destruct s as [[] q], t as [[] q']. cbn in Hv, Hq. injection Hv. intros. subst. reflexivity.
Qed.
Lemma presentation_recorded p q :
  unpresented p = unpresented q -> ra_diagnostic_flags q = [] -> ra_diagnostic_arg_indices q = [] ->
  q = p <| ra_diagnostic_flags := [] |> <| ra_diagnostic_arg_indices := [] |> <| ra_all_args := ra_all_args q |>.
Proof. destruct p, q. cbn. intros Hv -> ->. injection Hv. intros. subst. reflexivity. Qed.
Lemma reparse_kept env disk argv init t :
  let st := parse_args (disk_exists disk) 0 argv init in
  let kept := kept_from 0 (ra_diagnostic_arg_indices (pg_args st)) argv in
  presentation (pg_args init) = ([], []) -> presentation (pg_args t) = ([], []) ->
  same unpresented init t -> ra_all_args (pg_args t) = kept ->
  finish_parse env disk (parse_args (disk_exists disk) 0 kept t)
  = (finish_parse env disk st) <| ra_diagnostic_flags := [] |> <| ra_diagnostic_arg_indices := [] |> <| ra_all_args := kept |>.
Proof.
  intros st kept [= _ Hind] Ht Hsame Hall.
  destruct (parse_args_kept (disk_exists disk) _ argv 0 init ltac:(done)) as [l [Hi _ Hp]].
  rewrite Hind in Hi. cbn [app] in Hi. destruct (Hp 0%nat t Hsame) as [Hs Hpr]. rewrite <- Hi, Ht in *. injection Hpr. intros Hq Hf.
  pose proof (parse_args_invoked (disk_exists disk) _ kept 0 t ltac:(done)) as Hinv. injection Hinv. intros _ _ _ Ha _ _.
  rewrite Hall in Ha. etrans; [apply (presentation_recorded (finish_parse env disk st)); [by apply finish_parse_same|done..]|].
  change (ra_all_args (finish_parse env disk ?s)) with (ra_all_args (pg_args s)). by rewrite Ha.
Qed.
Lemma restart p kept rustc inner argv raw state disabled :
  invoked p = (rustc, inner, argv, raw, state, disabled) ->
  ra_all_args p = argv /\
  empty_args (ra_rustc p) (ra_inner_rustc p) kept (ra_raw_args p) (ra_argfile_state p) (ra_path_normalize_disabled p)
  = empty_args rustc inner kept raw state disabled.
Proof. by intros [= -> -> -> -> -> ->]. Qed.
(** C25. The arguments without diagnostic presentation parse to the same command
    line: dropping the recorded positions removes the presentation flags with
    their values, no operand of another flag, and changes no other field. *)
Theorem presentation_stripped_exact env disk args p :
  parse_for env disk args = Some p ->
  let kept := args_without_diagnostic_presentation p in
  let start := empty_args (ra_rustc p) (ra_inner_rustc p) kept (ra_raw_args p) (ra_argfile_state p) (ra_path_normalize_disabled p) in
  finish_parse env disk (parse_args (disk_exists disk) 0 kept {| pg_args := start; pg_is_query := false |})
  = p <| ra_diagnostic_flags := [] |> <| ra_diagnostic_arg_indices := [] |> <| ra_all_args := kept |>.
Proof.
  unfold parse_for. destruct args as [|rustc [|a args]]; [done..|].
  destruct (split_wrapper _) as [inner rustc_args], (match expand_rustc_argfiles _ _ _ with Ok _ => _ | Err _ => _ end) as [[argv raw] state].
  set (disabled := negb _). set (init := {| pg_args := empty_args rustc inner argv raw state disabled; pg_is_query := false |}).
  intros [= <-]. pose proof (parse_args_invoked (disk_exists disk) _ argv 0 init ltac:(done)) as Hinv.
  rewrite args_without_kept. set (p := finish_parse env disk (parse_args (disk_exists disk) 0 argv init)).
  destruct (restart p (kept_from 0 (ra_diagnostic_arg_indices p) (ra_all_args p)) _ _ _ _ _ _ Hinv) as [Ha ->]. rewrite Ha.
  by apply (reparse_kept env disk argv init).
Qed.

(** ** Spellings of one argument *)

Definition JOINED_FLAGS : list string :=
  ["--crate-name"; "--crate-type"; "--emit"; "--target"; "--edition"; "--extern"; "--cfg"; "--codegen"; "--sysroot";
   "--jobs-frontend"; "--remap-path-prefix"].
Definition ATTACHED_FLAGS : list string := ["-C"; "-L"; "-l"; "-Z"].
(** Two ways to write one argument. *)
Inductive respelled : list string -> list string -> Prop :=
| rs_joined flag v : flag ∈ JOINED_FLAGS -> respelled [flag; v] [(flag ++ "=" ++ v)%string]
| rs_attached flag v : flag ∈ ATTACHED_FLAGS -> v <> "" -> respelled [flag; v] [(flag ++ v)%string]
| rs_codegen v : respelled ["--codegen"; v] ["-C"; v]
| rs_optimize : respelled ["-O"] ["-C"; "opt-level=3"]
| rs_debug : respelled ["-g"] ["-C"; "debuginfo=2"].
(** Command lines that differ in the spelling of arguments: the tokens between
    them are groups the parser reads whole, whatever follows. *)
Definition whole (path_exists : string -> bool) (seg : list string) : Prop :=
  forall i rest st, parse_args path_exists i (seg ++ rest) st = parse_args path_exists (i + length seg) rest (parse_args path_exists i seg st).
Inductive same_line (path_exists : string -> bool) : list string -> list string -> Prop :=
| sl_nil : same_line path_exists [] []
| sl_same seg l l' : whole path_exists seg -> same_line path_exists l l' -> same_line path_exists (seg ++ l) (seg ++ l')
| sl_respelled a b l l' : respelled a b -> same_line path_exists l l' -> same_line path_exists (a ++ l) (b ++ l').
Lemma respelled_step path_exists a b st : respelled a b -> exists st', forall i l,
  parse_args path_exists i (a ++ l) st = parse_args path_exists (i + length a) l st' /\
  parse_args path_exists i (b ++ l) st = parse_args path_exists (i + length b) l st'.
Proof.
  intros Hr. exists (parse_args path_exists 0 b st). intros i l. destruct Hr as [flag v Hin|flag v Hin Hv| | |]; [| |split; reflexivity..].
  - unfold JOINED_FLAGS in Hin. repeat (apply elem_of_cons in Hin as [->|Hin]; [split; reflexivity|]). by apply not_elem_of_nil in Hin.
  - destruct v as [|c v]; [done|].
    unfold ATTACHED_FLAGS in Hin. repeat (apply elem_of_cons in Hin as [->|Hin]; [split; reflexivity|]). by apply not_elem_of_nil in Hin.
Qed.
(** C26. The spellings of [respelled] do not matter.  A flag of [JOINED_FLAGS] with its value
    apart or after [=]; [-C], [-L], [-l] or [-Z] with its value apart or attached;
    [--codegen v] or [-C v]; [-O] or [-C opt-level=3]; [-g] or [-C debuginfo=2]:
    command lines that differ only in these, between groups of arguments that the
    parser reads whole, parse to the same record, up to the positions of
    presentation flags, and are queries alike. *)
Theorem spellings_equivalent path_exists a b i j st :
  same_line path_exists a b -> same unpresented (parse_args path_exists i a st) (parse_args path_exists j b st).
Proof.
  intros Hab.
  enough (forall s t, same unpresented s t -> same unpresented (parse_args path_exists i a s) (parse_args path_exists j b t)) as H
    by by apply H.
  revert i j. induction Hab as [|seg l l' Hseg _ IH|a b l l' Hr _ IH]; intros i j s t Hst; [done|..].
  - rewrite !Hseg. apply IH, (parse_args_same path_exists unpresented), Hst.
  - etrans; [apply (parse_args_same path_exists unpresented (a ++ l) i i s t Hst)|].
    destruct (respelled_step path_exists a b t Hr) as [st' Hst']. rewrite (proj1 (Hst' _ _)), (proj2 (Hst' _ _)). by apply IH.
Qed.
