(* ===== verification/PathNormalizer.v ===== *)
(** * Path normalisation

    [src/path_normalizer.rs] with the path forms of
    [crates/kache-fs/src/paths.rs]: the ordered rules that replace the
    machine-local prefixes of a build by stable tokens in cache-key inputs, and
    that become the [--remap-path-prefix] flags of the compilation.  Paths are
    kept as they are spelled.  Unicode normalisation ([unicode_normalization])
    and the file system are parameters; the platform is Linux. *)

From S2P Require Import Prelude Strings Codec StorePolicy CargoLayout RustcArgs.
#[local] Open Scope string_scope.
#[local] Open Scope Z_scope.

(** ** Strings *)

(** [OsStr::to_string_lossy]: the maximal invalid sequences become U+FFFD. *)
Definition REPLACEMENT : string := String "239" (String "191" (String "189" "")).
Fixpoint to_string_lossy (s : string) : string :=
  match s with
  | "" => ""
  | String a s1 =>
      let b0 := byte_val a in
      if b0 <? 128 then String a (to_string_lossy s1)
      else if between 194 223 b0 then
        match s1 with
        | String b s2 =>
            if continuation b then String a (String b (to_string_lossy s2)) else REPLACEMENT ++ to_string_lossy s1
        | "" => REPLACEMENT
        end
      else if between 224 239 b0 then
        match s1 with
        | String b s2 =>
            if between (if b0 =? 224 then 160 else 128) (if b0 =? 237 then 159 else 191) (byte_val b) then
              match s2 with
              | String c s3 =>
                  if continuation c then String a (String b (String c (to_string_lossy s3)))
                  else REPLACEMENT ++ to_string_lossy s2
              | "" => REPLACEMENT
              end
            else REPLACEMENT ++ to_string_lossy s1
        | "" => REPLACEMENT
        end
      else if between 240 244 b0 then
        match s1 with
        | String b s2 =>
            if between (if b0 =? 240 then 144 else 128) (if b0 =? 244 then 143 else 191) (byte_val b) then
              match s2 with
              | String c s3 =>
                  if continuation c then
                    match s3 with
                    | String d s4 =>
                        if continuation d then String a (String b (String c (String d (to_string_lossy s4))))
                        else REPLACEMENT ++ to_string_lossy s3
                    | "" => REPLACEMENT
                    end
                  else REPLACEMENT ++ to_string_lossy s2
              | "" => REPLACEMENT
              end
            else REPLACEMENT ++ to_string_lossy s1
        | "" => REPLACEMENT
        end
      else REPLACEMENT ++ to_string_lossy s1
  end.
(** [OsStr::to_str] *)
Definition to_str (s : string) : option string := if valid_utf8 s then Some s else None.
(** [str::replace] of a byte *)
Fixpoint replace_byte (from to : ascii) (s : string) : string :=
  match s with
  | "" => ""
  | String c s => String (if Ascii.eqb c from then to else c) (replace_byte from to s)
  end.
(** [is_ascii_alphabetic] *)
Definition is_ascii_alphabetic (c : ascii) : bool := is_ascii_uppercase c || is_ascii_lowercase c.
(** Leftmost, non-overlapping occurrences of [from] where [ok], told what is
    before and what is after, are replaced by [to]; [skip] bytes are inside an
    occurrence. *)
Fixpoint replace_where (ok : string -> string -> bool) (from to before : string) (skip : nat) (s : string) : string :=
  match s with
  | "" => ""
  | String c s' =>
      let next := replace_where ok from to (before ++ String c "") in
      match skip with
      | S skip => next skip s'
      | O =>
          match strip_prefix from s with
          | Some after => if ok before after then to ++ next (String.length from - 1)%nat s' else String c (next O s')
          | None => String c (next O s')
          end
      end
  end.
(** [str::replace], for a non-empty pattern. *)
Definition replace_str (s from to : string) : string := replace_where (fun _ _ => true) from to "" 0 s.
Fixpoint trim_end_byte (c : ascii) (s : string) : string :=
  match s with
  | "" => ""
  | String a s =>
      match trim_end_byte c s with
      | "" => if Ascii.eqb a c then "" else String a ""
      | t => String a t
      end
  end.

(** ** Path forms *)

Definition bs (s : string) : string := replace_byte "|" backslash s.
Definition strip_verbatim_prefix (s : string) : string :=
  match strip_prefix (bs "||?|UNC|") s with
  | Some unc => bs "||" ++ unc
  | None => default s (strip_prefix (bs "||?|") s)
  end.
Definition is_separator (c : ascii) : bool := Ascii.eqb c slash || Ascii.eqb c backslash.
Definition is_filesystem_root_prefix (value : string) : bool :=
  let value := strip_verbatim_prefix value in
  if String.eqb value "/" then true
  else if (match value with
           | String a (String b (String c "")) => is_ascii_alphabetic a && Ascii.eqb b ":" && is_separator c
           | _ => false
           end) then true
  else match strip_prefix "//" (replace_byte backslash slash value) with
       | None => false
       | Some unc =>
           match split_on slash (trim_end_byte slash unc) with
           | [server; share] => negb (String.eqb server "") && negb (String.eqb share "")
           | _ => false
           end
       end.

(** [PathBuf] of components *)
Definition push_component (p : string) (c : Component) : string := join p (os_str c).
Definition path_of (p : Path) : string := fold_left push_component p "".
(** [std::path::absolute] of an absolute path: no repeated separators and no
    [.], except that exactly two leading slashes and a trailing one stay. *)
Definition absolute (path : string) : string :=
  let cs := components path in
  let normalized :=
    if starts_with "//" path && negb (starts_with "///" path)
    then fold_left push_component (tail cs) "//"
    else path_of cs in
  if ends_with "/" path then (if ends_with "/" normalized then normalized else normalized ++ "/") else normalized.

(** ** Rules *)

Record Rule := { rl_prefix : string; rl_key_sentinel : string; rl_source_sentinel : string; rl_flag_target : string }.
Record ConfiguredSourceRoot := {
  csr_root : string; csr_key_sentinel : string; csr_depinfo_sentinel : string; csr_priority : Z
}.
Record ConfiguredSourceRootGroup := {
  cg_restore_root : string; cg_aliases : list string; cg_key_sentinel : string; cg_depinfo_sentinel : string
}.
Record PathNormalizer := {
  pn_rules : list Rule;
  pn_configured_base_dir_count : nat;
  pn_configured_source_root_groups : list ConfiguredSourceRootGroup;
  pn_source_restore_roots : list (string * string);
  pn_path_only_env_vars : list string;
}.

Definition configured_base_dir_sentinel (index : nat) : string := "<BASE_DIR_" ++ fmt_dec (Z.of_nat index) ++ ">".
Definition configured_base_dir_target (index : nat) : string := "/kache/base-dir-" ++ fmt_dec (Z.of_nat index).
(** 64-bit [usize] *)
Definition configured_base_dir_index (sentinel : string) : option Z :=
  rest ← strip_prefix "<BASE_DIR_" sentinel;
  digits ← strip_suffix ">" rest;
  parse_unsigned u64_max digits.
Definition depinfo_base_dir (index : string) : string := "__kache_base_dir_" ++ index ++ "__/".
(** The match of [depinfo_sentinel_for_source]. *)
Definition DEPINFO_SENTINELS : list (string * string) :=
  [("<CWD>", "__kache_cwd__/"); ("<WORKSPACE>", "__kache_workspace__/"); ("<TARGET>", "__kache_target_rule__/");
   ("<CARGO_HOME>", "__kache_cargo_home__/"); ("<BASE_DIR>", "__kache_base_dir__/");
   ("<RUSTUP_HOME>", "__kache_rustup_home__/"); ("<HOME>", "__kache_home__/"); ("<APPDATA>", "__kache_appdata__/");
   ("<LOCALAPPDATA>", "__kache_localappdata__/"); ("<PROGRAMFILES>", "__kache_programfiles__/");
   ("<TMPDIR>", "__kache_tmpdir__/")].
Definition assoc {A} (l : list (string * A)) (k : string) : option A :=
  snd <$> head (List.filter (fun kv => String.eqb kv.1 k) l).
Definition depinfo_sentinel_for_source (source_sentinel : string) : option string :=
  match configured_base_dir_index source_sentinel with
  | Some index => Some (depinfo_base_dir (fmt_dec index))
  | None => assoc DEPINFO_SENTINELS source_sentinel
  end.

Definition workspace_flag_target : string := "/proc/self/cwd".
(** [trim_matches(['<', '>'])] *)
Fixpoint trim_angles_start (s : string) : string :=
  match s with
  | String c s' => if Ascii.eqb c "<" || Ascii.eqb c ">" then trim_angles_start s' else s
  | "" => ""
  end.
Definition rev_string (s : string) : string := string_of_list_ascii (rev (list_ascii_of_string s)).
Definition trim_angles (s : string) : string := rev_string (trim_angles_start (rev_string (trim_angles_start s))).
Definition FLAG_TARGETS : list (string * string) :=
  [("<WORKSPACE>", workspace_flag_target); ("<BASE_DIR>", "/kache/base-dir"); ("<TARGET>", "/kache/target");
   ("<CARGO_HOME>", "/kache/.cargo"); ("<RUSTUP_HOME>", "/kache/rustup"); ("<HOME>", "/kache/home");
   ("<APPDATA>", "/kache/appdata"); ("<LOCALAPPDATA>", "/kache/localappdata");
   ("<PROGRAMFILES>", "/kache/programfiles"); ("<TMPDIR>", "/kache/tmp")].
Definition flag_target_for (key_sentinel : string) : string :=
  match assoc FLAG_TARGETS key_sentinel with
  | Some target => target
  | None => "/kache/" ++ to_ascii_lowercase (trim_angles key_sentinel)
  end.

Definition flag_emit_rank (key_sentinel : string) : Z :=
  if is_some (configured_base_dir_index key_sentinel) then 8
  else if String.eqb key_sentinel "<TMPDIR>" then 0
  else if one_of ["<HOME>"; "<APPDATA>"; "<LOCALAPPDATA>"; "<PROGRAMFILES>"] key_sentinel then 1
  else if String.eqb key_sentinel "<RUSTUP_HOME>" then 2
  else if String.eqb key_sentinel "<TARGET>" then 3
  else if String.eqb key_sentinel "<WORKSPACE>" then 4
  else if String.eqb key_sentinel "<BASE_DIR>" then 5
  else if String.eqb key_sentinel "<CARGO_HOME>" then 6
  else if String.eqb key_sentinel "<RUST_SRC>" then 7
  else 4.

(** ** Windows shapes of a prefix *)

Definition is_windows_absolute_path (path : string) : bool :=
  (match path with
   | String a (String b (String c _)) => is_ascii_alphabetic a && Ascii.eqb b ":" && is_separator c
   | _ => false
   end) || starts_with "//" path || starts_with (bs "||") path.
Definition is_native_configured_path (path : string) : bool := starts_with "/" path && negb (is_windows_absolute_path path).
Definition lowercase_drive_letter (s : string) : option string :=
  match s with
  | String a (String b rest) =>
      if Ascii.eqb b ":" && is_ascii_uppercase a then Some (to_ascii_lowercase (String a "") ++ String b rest) else None
  | _ => None
  end.
Definition push_slash_and_case_variants (prefix sentinel source_sentinel flag_target : string) : list Rule :=
  let rule p := {| rl_prefix := p; rl_key_sentinel := sentinel; rl_source_sentinel := source_sentinel; rl_flag_target := flag_target |} in
  let fs := replace_byte backslash slash prefix in
  let bsl := replace_byte slash backslash prefix in
  let lc := lowercase_drive_letter prefix in
  let cross form :=
    match lowercase_drive_letter form with
    | Some form_lc =>
        if negb (String.eqb form_lc form) && negb (bool_decide (Some form_lc = lc)) then [rule form_lc] else []
    | None => []
    end in
  ((if String.eqb fs prefix then [] else [rule fs])
   ++ (if String.eqb bsl prefix then [] else [rule bsl])
   ++ (match lc with Some l => if String.eqb l prefix then [] else [rule l] | None => [] end)
   ++ cross fs ++ cross bsl)%list.
(** Keep-first deduplication by prefix. *)
Fixpoint retain_new (seen : list string) (rules : list Rule) : list Rule :=
  match rules with
  | [] => []
  | r :: rules =>
      if bool_decide (rl_prefix r ∈ seen) then retain_new seen rules else r :: retain_new (rl_prefix r :: seen) rules
  end.
Definition insert_at {A} (n : nat) (new l : list A) : list A := (take n l ++ new ++ drop n l)%list.
(** Off Windows a rule has no variants. *)
Definition push_rule_with_variants_target_and_source (prefix : option string) (sentinel source_sentinel flag_target : string)
    : list Rule :=
  match prefix with
  | Some p =>
      if String.eqb p "" then []
      else [{| rl_prefix := p; rl_key_sentinel := sentinel; rl_source_sentinel := source_sentinel; rl_flag_target := flag_target |}]
  | None => []
  end.
Definition push_rule_with_variants_target (prefix : option string) (sentinel flag_target : string) : list Rule :=
  push_rule_with_variants_target_and_source prefix sentinel sentinel flag_target.
Definition push_rule_with_variants (prefix : option string) (sentinel : string) : list Rule :=
  push_rule_with_variants_target prefix sentinel (flag_target_for sentinel).
Definition push_rule_with_variants_source (prefix : option string) (sentinel source_sentinel : string) : list Rule :=
  push_rule_with_variants_target_and_source prefix sentinel source_sentinel (flag_target_for sentinel).

(** ** Matching *)

(** [ch.is_whitespace()] or a delimiter, for the last character of the text
    before an occurrence. *)
Definition is_left_delimiter (c : Z * string) : bool :=
  is_whitespace c.1 || (c.1 =? 31)
  || existsb (fun d => String.eqb c.2 (String d "")) ["="%char; ":"%char; ";"%char; ","%char; dquote; "'"%char; "("%char; "["%char; "{"%char; "@"%char].
Definition ends_token (before : string) : bool :=
  ends_with "-I" before || ends_with "-L" before || ends_with "-F" before || ends_with "-B" before
  || (if last (chars before) is Some c then is_left_delimiter c else false).
Definition follows_windows_drive_prefix (before : string) : bool :=
  let n := String.length before in
  if (n <? 2)%nat then false
  else match String.get (n - 1) before, String.get (n - 2) before with
       | Some colon, Some drive =>
           if negb (Ascii.eqb colon ":") || negb (is_ascii_alphabetic drive) then false
           else let lead := stake (n - 2) before in String.eqb lead "" || ends_token lead
       | _, _ => false
       end.
(** The occurrence of [prefix] between [before] and [after]. *)
Definition configured_prefix_boundaries_match (prefix before after : string) : bool :=
  let windows := is_windows_absolute_path prefix in
  if negb windows && follows_windows_drive_prefix before then false
  else
    let left := String.eqb before "" || ends_token before in
    let prefix_has_trailing_separator := ends_with "/" prefix || (windows && ends_with (String backslash "") prefix) in
    let right := String.eqb after "" || prefix_has_trailing_separator
      || (match after with
          | String ch _ => Ascii.eqb ch slash || (windows && Ascii.eqb ch backslash)
          | "" => false
          end) in
    left && right.
Definition replace_configured_path_prefix (input prefix replacement : string) : string :=
  replace_where (configured_prefix_boundaries_match prefix) prefix replacement "" 0 input.

(** [Iterator::max_by_key]: the last of the greatest. *)
Definition max_by_key {A} (leb : A -> A -> bool) (l : list A) : option A :=
  fold_left (fun best x =>
    match best with
    | Some b => Some (if leb b x then x else b)
    | None => Some x
    end) l None.
(** The order of [remap_args] and [source_rule_for_path]: semantic rank, then
    the length of the prefix. *)
Definition remap_leb (a b : Rule) : bool :=
  let ra := flag_emit_rank (rl_key_sentinel a) in
  let rb := flag_emit_rank (rl_key_sentinel b) in
  (ra <? rb) || ((ra =? rb) && (slen (rl_prefix a) <=? slen (rl_prefix b))).
Definition has_prefix (r : Rule) : bool := negb (String.eqb (rl_prefix r) "").
Definition owns_source (input : string) (r : Rule) : bool :=
  match strip_prefix (rl_prefix r) input with
  | Some after => configured_prefix_boundaries_match (rl_prefix r) "" after
  | None => false
  end.
Definition source_rule_for_path (rules : list Rule) (path : string) : option Rule :=
  input ← to_str path;
  max_by_key remap_leb (List.filter (owns_source input) (List.filter has_prefix rules)).
Definition source_path_identity (rules : list Rule) (path : string) : option string :=
  input ← to_str path;
  winner ← source_rule_for_path rules path;
  _ ← depinfo_sentinel_for_source (rl_source_sentinel winner);
  remainder ← strip_prefix (rl_prefix winner) input;
  let remainder :=
    match strip_prefix "/" remainder with
    | Some r => r
    | None => default remainder (strip_prefix (String backslash "") remainder)
    end in
  Some (if String.eqb remainder "" then rl_source_sentinel winner else rl_source_sentinel winner ++ "/" ++ remainder).
Definition remap_order (rules : list Rule) : list Rule := sort_by remap_leb (List.filter has_prefix rules).
Definition remap_args (rules : list Rule) : list string :=
  map (fun r => "--remap-path-prefix=" ++ rl_prefix r ++ "=" ++ rl_flag_target r) (remap_order rules).
Definition raw_prefixes (n : PathNormalizer) : list string :=
  List.filter (fun p => negb (String.eqb p "")) (map rl_prefix (pn_rules n)).

(** ** Construction *)

Section Normalizer.
Context (nfc : string -> string) (canonicalize : string -> option string) (path_exists : string -> bool).

Definition apply_rule (out : string) (rule : Rule) : string :=
  if String.eqb (rl_prefix rule) "" then out
  else if is_some (configured_base_dir_index (rl_key_sentinel rule))
  then replace_configured_path_prefix out (rl_prefix rule) (rl_key_sentinel rule)
  else replace_str out (rl_prefix rule) (rl_key_sentinel rule).
Definition normalize (n : PathNormalizer) (s : string) : string := fold_left apply_rule (pn_rules n) (nfc s).

Definition canonical_form (canon : string) : option string :=
  let s := nfc (strip_verbatim_prefix (to_string_lossy canon)) in
  if String.eqb s "" then None else Some s.
Definition canonical_string (path : string) : option string := canon ← canonicalize path; canonical_form canon.
(** [dedup], of at most three spellings *)
Definition os_path_spellings (path : string) : list string :=
  match to_str path with
  | Some raw =>
      if String.eqb raw "" then [] else
      let normalized := nfc raw in
      dedup (List.filter (fun s => negb (is_filesystem_root_prefix s)) [raw; normalized; strip_verbatim_prefix normalized])
  | None => []
  end.
Definition longest_first (a b : string) : bool := slen b <=? slen a.
(** Of an absolute path; the second component is pushed to
    [source_restore_roots]. *)
Definition push_path_rule_aliases (path sentinel source_sentinel : string) : list Rule * (string * string) :=
  let lexical := absolute path in
  let spellings := os_path_spellings lexical in
  let spellings :=
    match canonicalize path with
    | Some canonical =>
        if bool_decide (components canonical = components lexical) then spellings
        else (spellings ++ os_path_spellings canonical)%list
    | None => spellings
    end in
  let spellings := dedup (sort_by longest_first spellings) in
  (flat_map (fun prefix => push_rule_with_variants_source (Some prefix) sentinel source_sentinel) spellings,
   (source_sentinel, lexical)).
Definition push_legacy_base_dir_rules (base_dir : option string) : list Rule * list (string * string) :=
  match base_dir with
  | Some path =>
      if String.eqb path "" then ([], []) else
      match to_str (absolute path) with
      | Some prefix =>
          if is_filesystem_root_prefix prefix then ([], [])
          else let '(rules, root) := push_path_rule_aliases path "<BASE_DIR>" "<BASE_DIR>" in (rules, [root])
      | None => ([], [])
      end
  | None => ([], [])
  end.
(** One optional source root. *)
Definition source_root (path : option string) (sentinel source_sentinel : string) : list Rule * list (string * string) :=
  match path with
  | Some path => let '(rules, root) := push_path_rule_aliases path sentinel source_sentinel in (rules, [root])
  | None => ([], [])
  end.
Definition only_absolute (path : string) : option string := if is_absolute path then Some path else None.
Definition from_invocation (workspace_root : option string) (env : Invocation) : PathNormalizer :=
  let resolve path := resolve env path ≫= only_absolute in
  let var name := inv_var_os env name ≫= resolve in
  let home_default name dir :=
    match inv_var_os env name with
    | Some v => resolve v
    | None => home ← inv_home env; resolve (join home dir)
    end in
  let canonical path := path ≫= canonical_string in
  let '(base, base_root) := push_legacy_base_dir_rules
    (v ← inv_var_os env "KACHE_BASE_DIR"; if String.eqb v "" then None else resolve v) in
  let '(cwd, cwd_root) := source_root (inv_cwd env ≫= only_absolute) "<WORKSPACE>" "<CWD>" in
  let '(ws, ws_root) := source_root (workspace_root ≫= resolve) "<WORKSPACE>" "<WORKSPACE>" in
  let '(target, target_root) := source_root (var "CARGO_TARGET_DIR") "<TARGET>" "<TARGET>" in
  let rules := (base ++ cwd ++ ws ++ target
    ++ push_rule_with_variants (canonical (home_default "CARGO_HOME" ".cargo")) "<CARGO_HOME>"
    ++ push_rule_with_variants (canonical (home_default "RUSTUP_HOME" ".rustup")) "<RUSTUP_HOME>"
    ++ push_rule_with_variants (canonical (inv_home env ≫= resolve)) "<HOME>"
    ++ flat_map (fun ks => push_rule_with_variants (canonical (var ks.1)) ks.2)
         [("APPDATA", "<APPDATA>"); ("LOCALAPPDATA", "<LOCALAPPDATA>"); ("PROGRAMFILES", "<PROGRAMFILES>")]
    ++ push_rule_with_variants (canonical (resolve (inv_temp env))) "<TMPDIR>")%list in
  {| pn_rules := retain_new [] rules; pn_configured_base_dir_count := 0; pn_configured_source_root_groups := [];
     pn_source_restore_roots := (base_root ++ cwd_root ++ ws_root ++ target_root)%list; pn_path_only_env_vars := [] |}.
Definition with_path_only_env_vars (n : PathNormalizer) (vars : list string) : PathNormalizer :=
  {| pn_rules := pn_rules n; pn_configured_base_dir_count := pn_configured_base_dir_count n;
     pn_configured_source_root_groups := pn_configured_source_root_groups n;
     pn_source_restore_roots := pn_source_restore_roots n; pn_path_only_env_vars := vars |}.
Definition with_target_dir (n : PathNormalizer) (target_dir : option string) : PathNormalizer :=
  match target_dir with
  | None => n
  | Some target_dir =>
      let '(target_rules, root) := push_path_rule_aliases target_dir "<TARGET>" "<TARGET>" in
      let target_rank := flag_emit_rank "<TARGET>" in
      let at_ := default (length (pn_rules n))
        (position (fun rule => flag_emit_rank (rl_key_sentinel rule) <? target_rank) (pn_rules n)) in
      {| pn_rules := retain_new [] (insert_at at_ target_rules (pn_rules n));
         pn_configured_base_dir_count := pn_configured_base_dir_count n;
         pn_configured_source_root_groups := pn_configured_source_root_groups n;
         pn_source_restore_roots := (pn_source_restore_roots n ++ [root])%list;
         pn_path_only_env_vars := pn_path_only_env_vars n |}
  end.

(** Longest prefix first, then by prefix and sentinel. *)
Definition rule_leb (a b : Rule) : bool :=
  (slen (rl_prefix b) <? slen (rl_prefix a))
  || ((slen (rl_prefix a) =? slen (rl_prefix b))
      && pair_leb (rl_prefix a, rl_key_sentinel a) (rl_prefix b, rl_key_sentinel b)).
(** [short_path_name] is [None] off Windows. *)
Definition push_configured_base_dir_rule (prefix : string) (index : nat) : list Rule :=
  let sentinel := configured_base_dir_sentinel index in
  let target := configured_base_dir_target index in
  if String.eqb prefix "" then []
  else {| rl_prefix := prefix; rl_key_sentinel := sentinel; rl_source_sentinel := sentinel; rl_flag_target := target |}
       :: (if is_windows_absolute_path prefix then push_slash_and_case_variants prefix sentinel sentinel target else []).
Definition configured_base_dir_rules (base_dirs : list string) : list string * list Rule :=
  let configured := List.filter (fun p => negb (is_filesystem_root_prefix p)) (dedup (sort_by String.leb base_dirs)) in
  let indexed := imap pair configured in
  let lexical_rules := flat_map (fun ip => push_configured_base_dir_rule (nfc ip.2) ip.1) indexed in
  let reserved_lexical := map rl_prefix lexical_rules in
  let alias_rules := flat_map (fun ip =>
    if negb (is_native_configured_path ip.2) then []
    else match canonicalize ip.2 with
    | None => []
    | Some canonical => flat_map (fun c =>
        if String.eqb c (nfc ip.2) then []
        else List.filter (fun rule => negb (bool_decide (rl_prefix rule ∈ reserved_lexical)))
               (push_configured_base_dir_rule c ip.1)) (os_path_spellings canonical)
    end) indexed in
  (configured, retain_new [] (sort_by rule_leb (lexical_rules ++ alias_rules)%list)).
Definition configured_base_dir_prefix_maps (base_dirs : list string) : list (string * string) :=
  map (fun rule => (rl_prefix rule, rl_flag_target rule)) (configured_base_dir_rules base_dirs).2.

Definition source_root_group (rules : list Rule) (ip : nat * string) : option ConfiguredSourceRootGroup :=
  let '(index, lexical) := ip in
  if negb (path_exists lexical) then None else
  let key_sentinel := configured_base_dir_sentinel index in
  winner ← source_rule_for_path rules lexical;
  if negb (String.eqb (rl_key_sentinel winner) key_sentinel) then None else
  Some {| cg_restore_root := lexical;
          cg_aliases := List.filter path_exists (map rl_prefix (List.filter (fun rule =>
            String.eqb (rl_key_sentinel rule) key_sentinel && is_native_configured_path (rl_prefix rule)
            && negb (String.eqb (rl_prefix rule) lexical)) rules));
          cg_key_sentinel := key_sentinel;
          cg_depinfo_sentinel := depinfo_base_dir (fmt_dec (Z.of_nat index)) |}.
Definition with_base_dirs (n : PathNormalizer) (base_dirs : list string) : PathNormalizer :=
  let '(configured, extra_rules) := configured_base_dir_rules base_dirs in
  let legacy_prefixes := map rl_prefix (List.filter (fun rule => String.eqb (rl_key_sentinel rule) "<BASE_DIR>") (pn_rules n)) in
  let extra_rules := List.filter (fun rule => negb (bool_decide (rl_prefix rule ∈ legacy_prefixes))) extra_rules in
  let rules := retain_new [] (sort_by rule_leb extra_rules ++ pn_rules n)%list in
  {| pn_rules := rules; pn_configured_base_dir_count := length configured;
     pn_configured_source_root_groups := omap (source_root_group rules) (imap pair configured);
     pn_source_restore_roots := pn_source_restore_roots n; pn_path_only_env_vars := pn_path_only_env_vars n |}.
Definition with_rust_src_rule (n : PathNormalizer) (sysroot commit_hash : option string) : PathNormalizer :=
  match sysroot, commit_hash with
  | Some sysroot, Some hash =>
      match canonical_string (join (join (join (join sysroot "lib") "rustlib") "src") "rust") with
      | None => n
      | Some prefix =>
          let rust_src_rules := push_rule_with_variants_target (Some prefix) "<RUST_SRC>" ("/rustc/" ++ hash) in
          let at_ := default (length (pn_rules n))
            (position (fun rule => negb (is_some (configured_base_dir_index (rl_key_sentinel rule)))) (pn_rules n)) in
          {| pn_rules := retain_new [] (insert_at at_ rust_src_rules (pn_rules n));
             pn_configured_base_dir_count := pn_configured_base_dir_count n;
             pn_configured_source_root_groups := pn_configured_source_root_groups n;
             pn_source_restore_roots := pn_source_restore_roots n; pn_path_only_env_vars := pn_path_only_env_vars n |}
      end
  | _, _ => n
  end.

(** ** Source roots of dep-info files *)

Definition SOURCE_SENTINELS : list string := map fst DEPINFO_SENTINELS.
Definition owned_by (n : PathNormalizer) (source_sentinel path : string) : bool :=
  if source_rule_for_path (pn_rules n) path is Some winner
  then String.eqb (rl_source_sentinel winner) source_sentinel else false.
Definition automatic_group (n : PathNormalizer) (source_sentinel : string) : option ConfiguredSourceRootGroup :=
  let owned := map rl_prefix (List.filter (fun rule =>
    String.eqb (rl_source_sentinel rule) source_sentinel && is_native_configured_path (rl_prefix rule)
    && path_exists (rl_prefix rule)) (pn_rules n)) in
  let designated := root ← assoc (pn_source_restore_roots n) source_sentinel;
                    if owned_by n source_sentinel root then Some root else None in
  restore_root ← (match designated with
                  | Some root => Some root
                  | None => head (List.filter (owned_by n source_sentinel) owned)
                  end);
  winner ← source_rule_for_path (pn_rules n) restore_root;
  depinfo ← depinfo_sentinel_for_source source_sentinel;
  Some {| cg_restore_root := restore_root;
          cg_aliases := List.filter (fun p => owned_by n source_sentinel p && negb (String.eqb p restore_root)) owned;
          cg_key_sentinel := rl_key_sentinel winner; cg_depinfo_sentinel := depinfo |}.
Definition group_roots (g : ConfiguredSourceRootGroup) : list string := cg_restore_root g :: cg_aliases g.
Definition group_longest (g : ConfiguredSourceRootGroup) : Z := fold_left Z.max (map slen (group_roots g)) 0.
(** [Reverse((rank, longest))] *)
Definition group_leb (a b : ConfiguredSourceRootGroup) : bool :=
  let ra := flag_emit_rank (cg_key_sentinel a) in
  let rb := flag_emit_rank (cg_key_sentinel b) in
  (rb <? ra) || ((ra =? rb) && (group_longest b <=? group_longest a)).
Definition depinfo_source_roots (n : PathNormalizer) : list ConfiguredSourceRoot :=
  let groups := sort_by group_leb (pn_configured_source_root_groups n ++ omap (automatic_group n) SOURCE_SENTINELS)%list in
  flat_map (fun g => map (fun root =>
    {| csr_root := root; csr_key_sentinel := cg_key_sentinel g; csr_depinfo_sentinel := cg_depinfo_sentinel g;
       csr_priority := flag_emit_rank (cg_key_sentinel g) |}) (group_roots g)) groups.
End Normalizer.
