(* ===== verification/PathNormalizerProofs.v ===== *)
(** * Properties of path normalisation

    The rule that names a source in the key is the rule whose flag rustc applies
    to it, so that equal source identities are equal embedded paths on any two
    machines; normalised text holds no automatic prefix; the order of the
    configured directories does not matter. *)

From S2P Require Import Prelude Strings Codec StorePolicy FlightProofs CargoLayout RustcArgs PathNormalizer.
#[local] Open Scope string_scope.
#[local] Open Scope Z_scope.

(** ** Sorting and the greatest element *)

Section Greatest.
Context {A : Type} (leb : A -> A -> bool).
Hypothesis leb_total : forall x y, leb x y = true \/ leb y x = true.
Hypothesis leb_trans : forall x y z, leb x y = true -> leb y z = true -> leb x z = true.
Abbreviation le := (fun x y => leb x y = true).

Lemma sort_by_strong l : StronglySorted le (sort_by leb l).
Proof. apply Sorted_StronglySorted; [exact leb_trans|]. by apply sort_by_sorted. Qed.
Lemma filter_insert_by P x l : StronglySorted le l ->
  List.filter P (insert_by leb x l) = if P x : bool then insert_by leb x (List.filter P l) else List.filter P l.
Proof.
  induction 1 as [|y l Hs IH Hy]; cbn; [by destruct (P x)|].
  destruct (leb x y) eqn:Exy; cbn.
  - destruct (P x); [|done]. destruct (P y); cbn; [by rewrite Exy|].
    destruct (List.filter P l) as [|z l'] eqn:Ef; cbn; [done|].
    assert (z ∈ l) as Hz. { apply list_elem_of_In, (proj1 (filter_In P z l)). rewrite Ef. by left. }
    rewrite Forall_forall in Hy. by rewrite (leb_trans _ _ _ Exy (Hy z Hz)).
  - rewrite IH. destruct (P x), (P y); cbn; try done. by rewrite Exy.
Qed.
Lemma filter_sort_by P l : List.filter P (sort_by leb l) = sort_by leb (List.filter P l).
Proof.
  induction l as [|x l IH]; cbn; [done|]. rewrite filter_insert_by by apply sort_by_strong.
  rewrite IH. by destruct (P x).
Qed.
Lemma last_insert_by x l m : StronglySorted le l -> last l = Some m ->
  last (insert_by leb x l) = Some (if leb x m then m else x).
Proof.
  induction 1 as [|y l Hs IH Hy]; [done|]. intros Hl. cbn. destruct (leb x y) eqn:Exy.
  - rewrite last_cons, Hl. f_equal. destruct (leb x m) eqn:Exm; [done|].
    assert (le y m) as Hym.
    { rewrite last_cons in Hl. destruct (last l) as [z|] eqn:El; injection Hl as <-.
      - rewrite Forall_forall in Hy. apply Hy. by apply last_Some_elem_of in El.
      - by destruct (leb_total y y). }
    by rewrite (leb_trans _ _ _ Exy Hym) in Exm.
  - rewrite last_cons in Hl |- *. destruct (last l) as [z|] eqn:El; injection Hl as ->.
    + by rewrite IH.
    + destruct l as [|a l]; cbn; [by rewrite Exy|]. by rewrite last_cons in El; destruct (last l).
Qed.
Lemma max_fold_sort l b :
  fold_left (fun best x => match best with Some b => Some (if leb b x then x else b) | None => Some x end) l (Some b)
  = Some (match last (sort_by leb l) with Some m => if leb b m then m else b | None => b end).
Proof.
  revert b. induction l as [|y l IH]; intros b; cbn [fold_left sort_by]; [done|]. rewrite IH. f_equal.
  destruct (last (sort_by leb l)) as [m|] eqn:Em.
  - rewrite (last_insert_by y _ m) by (done || apply sort_by_strong).
    destruct (leb y m) eqn:Eym, (leb b y) eqn:Eby, (leb b m) eqn:Ebm; rewrite ?Eym, ?Ebm; try done.
    + by rewrite (leb_trans _ _ _ Eby Eym) in Ebm.
    + destruct (leb_total y m) as [|Hmy]; [congruence|]. by rewrite (leb_trans _ _ _ Ebm Hmy) in Eby.
  - destruct (sort_by leb l) as [|z s] eqn:Es; [done|]. by rewrite last_cons in Em; destruct (last s).
Qed.
Lemma max_by_key_sort l : max_by_key leb l = last (sort_by leb l).
Proof.
  destruct l as [|x l]; [done|]. unfold max_by_key. cbn [fold_left sort_by]. rewrite max_fold_sort.
  destruct (last (sort_by leb l)) as [m|] eqn:Em.
  - by rewrite (last_insert_by x _ m) by (done || apply sort_by_strong).
  - destruct (sort_by leb l) as [|z s] eqn:Es; [done|]. by rewrite last_cons in Em; destruct (last s).
Qed.
End Greatest.

Lemma remap_leb_total a b : remap_leb a b = true \/ remap_leb b a = true.
Proof. unfold remap_leb. cbv zeta. rewrite !orb_true_iff, !andb_true_iff, !Z.ltb_lt, !Z.eqb_eq, !Z.leb_le. lia. Qed.
Lemma remap_leb_trans a b c : remap_leb a b = true -> remap_leb b c = true -> remap_leb a c = true.
Proof. unfold remap_leb. cbv zeta. rewrite !orb_true_iff, !andb_true_iff, !Z.ltb_lt, !Z.eqb_eq, !Z.leb_le. lia. Qed.
(** The owner of a source is the last rule of [remap_args] that matches it. *)
Lemma source_rule_last rules path :
  valid_utf8 path = true ->
  source_rule_for_path rules path = last (List.filter (owns_source path) (remap_order rules)).
Proof.
  intros Hv. unfold source_rule_for_path, to_str, remap_order. rewrite Hv. cbn [mbind option_bind].
  rewrite filter_sort_by by eauto using remap_leb_total, remap_leb_trans.
  apply max_by_key_sort; eauto using remap_leb_total, remap_leb_trans.
Qed.

(** ** What replacement leaves *)

(** A token: [<] first, no slash. *)
Definition token (t : string) : bool := starts_with "<" t && negb (contains_byte slash t).
(** An absolute prefix without [<]. *)
Definition erasable (p : string) : bool := is_absolute p && negb (contains_byte "<" p).
Lemma contains_token_app q t r : is_absolute q = true -> contains_byte slash t = false -> contains q (t ++ r) = contains q r.
Proof.
  intros Hq Ht. unfold contains_byte in Ht. apply negb_false_iff in Ht. destruct q as [|a q]; [done|].
  unfold is_absolute, starts_with in Hq. cbn [strip_prefix] in Hq.
  destruct (Ascii.eqb_spec "/"%char a) as [<-|]; [|done]. clear Hq.
  induction t as [|c t IH]; [done|]. cbn [all_bytes] in Ht. bool_to_prop. cbn [String.append contains]. rewrite IH by done.
  unfold starts_with. cbn [strip_prefix]. destruct (Ascii.eqb_spec "/"%char c) as [<-|]; [|done].
  by rewrite Ascii.eqb_refl in H.
Qed.
Lemma erasable_no_angle p : erasable p = true -> all_bytes (fun b => negb (Ascii.eqb b "<")) p = true.
Proof. unfold erasable, contains_byte. rewrite negb_involutive. intros H. by bool_to_prop. Qed.

Section Replacement.
Context (ok : string -> string -> bool) (from to : string).
Hypothesis token_to : token to = true.
(** Text without [<] at the head of the result was at the head of the input. *)
Lemma replace_copies q before s :
  all_bytes (fun b => negb (Ascii.eqb b "<")) q = true ->
  starts_with q (replace_where ok from to before 0 s) = true -> starts_with q s = true.
Proof.
  revert q before. induction s as [|c s IH]; intros q before Hq; [done|]. cbn [replace_where].
  assert (forall before, starts_with q (String c (replace_where ok from to before 0 s)) = true -> starts_with q (String c s) = true) as Hcopy.
  { intros b. destruct q as [|a q]; [done|]. unfold starts_with. cbn. cbn in Hq. bool_to_prop.
    destruct (Ascii.eqb a c); [|done]. by apply IH. }
  destruct (strip_prefix from (String c s)) as [after|]; [|apply Hcopy].
  destruct (ok before after); [|apply Hcopy].
  destruct q as [|a q]; [done|]. unfold token in token_to. bool_to_prop.
  destruct to as [|t to']; [done|]. unfold starts_with in *.
  cbn [strip_prefix all_bytes String.append] in *. bool_to_prop.
  destruct (Ascii.eqb_spec "<"%char t) as [<-|]; [|done]. destruct (Ascii.eqb_spec a "<"%char) as [->|]; done.
Qed.
Lemma replace_keeps_absent q before skip s :
  erasable q = true -> contains q s = false -> contains q (replace_where ok from to before skip s) = false.
Proof.
  intros Hq. pose proof (erasable_no_angle _ Hq) as Hna. unfold erasable in Hq. bool_to_prop.
  pose proof token_to as Ht. unfold token in Ht. bool_to_prop.
  revert before skip. induction s as [|c s IH]; intros before skip Hs; [done|].
  assert (contains q s = false) as Hs'. { cbn in Hs. bool_to_prop. done. }
  assert (forall before, contains q (String c (replace_where ok from to (before ++ String c "") 0 s)) = false
          \/ starts_with q (String c (replace_where ok from to (before ++ String c "") 0 s)) = true) as Hcopy.
  { intros b. cbn [contains]. rewrite IH by done. destruct (starts_with q _); auto. }
  cbn [replace_where]. destruct skip as [|skip]; [|by apply IH].
  destruct (strip_prefix from (String c s)) as [after|] eqn:Ef; [destruct (ok before after) eqn:Eo|].
  - rewrite contains_token_app by done. by apply IH.
  - destruct (Hcopy before) as [|Hst]; [done|].
    assert (starts_with q (String c s) = true) as Hst'.
    { apply (replace_copies q before (String c s) Hna). cbn [replace_where]. by rewrite Ef, Eo. }
    cbn [contains] in Hs. by rewrite Hst' in Hs.
  - destruct (Hcopy before) as [|Hst]; [done|].
    assert (starts_with q (String c s) = true) as Hst'.
    { apply (replace_copies q before (String c s) Hna). cbn [replace_where]. by rewrite Ef. }
    cbn [contains] in Hs. by rewrite Hst' in Hs.
Qed.
End Replacement.
(** No occurrence survives [str::replace] by a token. *)
Lemma replace_erases from to before skip s :
  token to = true -> erasable from = true -> contains from (replace_where (fun _ _ => true) from to before skip s) = false.
Proof.
  intros Ht Hf. pose proof (erasable_no_angle _ Hf) as Hna. unfold erasable in Hf. bool_to_prop.
  pose proof Ht as Ht'. unfold token in Ht'. bool_to_prop.
  revert before skip. induction s as [|c s IH]; intros before skip.
  { destruct from; [done|]. done. }
  cbn [replace_where]. destruct skip as [|skip]; [|by apply IH].
  destruct (strip_prefix from (String c s)) as [after|] eqn:Ef; [rewrite contains_token_app by done; by apply IH|].
  cbn [contains]. rewrite IH, orb_false_r.
  destruct (starts_with from (String c _)) eqn:Est; [|done].
  assert (starts_with from (String c s) = true) as Hst.
  { apply (replace_copies (fun _ _ => true) from to Ht from before (String c s) Hna). cbn [replace_where]. by rewrite Ef. }
  unfold starts_with in Hst. by rewrite Ef in Hst.
Qed.

(** ** The rules of a built normaliser *)

Definition AUTOMATIC : list (string * string) :=
  [("<BASE_DIR>", "<BASE_DIR>"); ("<WORKSPACE>", "<CWD>"); ("<WORKSPACE>", "<WORKSPACE>"); ("<TARGET>", "<TARGET>");
   ("<CARGO_HOME>", "<CARGO_HOME>"); ("<RUSTUP_HOME>", "<RUSTUP_HOME>"); ("<HOME>", "<HOME>");
   ("<APPDATA>", "<APPDATA>"); ("<LOCALAPPDATA>", "<LOCALAPPDATA>"); ("<PROGRAMFILES>", "<PROGRAMFILES>");
   ("<TMPDIR>", "<TMPDIR>")].
(** Which tokens and targets a rule can have. *)
Inductive tokens_of : string -> string -> string -> Prop :=
| to_automatic key source : (key, source) ∈ AUTOMATIC -> tokens_of key source (flag_target_for key)
| to_configured i : Z.of_nat i <= u64_max ->
    tokens_of (configured_base_dir_sentinel i) (configured_base_dir_sentinel i) (configured_base_dir_target i)
| to_rust_src hash : contains_byte "=" hash = false -> tokens_of "<RUST_SRC>" "<RUST_SRC>" ("/rustc/" ++ hash).
Definition wf_rule (r : Rule) : Prop :=
  rl_prefix r <> "" /\ tokens_of (rl_key_sentinel r) (rl_source_sentinel r) (rl_flag_target r).
Definition wf_rules (rules : list Rule) : Prop := Forall wf_rule rules /\ NoDup (map rl_prefix rules).

Lemma retain_new_sub seen rules r : r ∈ retain_new seen rules -> r ∈ rules.
Proof.
  revert seen. induction rules as [|a rules IH]; intros seen; cbn; [done|]. case_bool_decide.
  - intros Hr%IH. by right.
  - intros [->|Hr%IH]%elem_of_cons; [by left|by right].
Qed.
Lemma retain_new_fresh seen rules :
  NoDup (map rl_prefix (retain_new seen rules)) /\ forall r, r ∈ retain_new seen rules -> rl_prefix r ∉ seen.
Proof.
  revert seen. induction rules as [|a rules IH]; intros seen; cbn; [split; [constructor|by intros r ?%not_elem_of_nil]|].
  case_bool_decide as Ha; [apply IH|]. destruct (IH (rl_prefix a :: seen)) as [IH1 IH2]. split.
  - cbn. constructor; [|done]. intros (r & Hr & Hin)%list_elem_of_fmap. apply (IH2 r Hin). rewrite <- Hr. by left.
  - intros r [->|Hr%IH2]%elem_of_cons; [done|]. set_solver.
Qed.
Lemma wf_retain rules : Forall wf_rule rules -> wf_rules (retain_new [] rules).
Proof.
  intros Hwf. split; [|apply retain_new_fresh]. rewrite Forall_forall in *. intros r Hr. eapply Hwf, retain_new_sub, Hr.
Qed.
Lemma wf_pushed p key source target :
  tokens_of key source target -> Forall wf_rule (push_rule_with_variants_target_and_source p key source target).
Proof.
  intros Ht. unfold push_rule_with_variants_target_and_source. destruct p as [p|]; [|constructor].
  destruct (String.eqb_spec p ""); constructor; [|constructor]. by split.
Qed.
Lemma Forall_flat_map {A B} (P : B -> Prop) (f : A -> list B) l : Forall (fun a => Forall P (f a)) l -> Forall P (flat_map f l).
Proof. induction 1; cbn; [constructor|]. by apply Forall_app. Qed.
Lemma Forall_insert_at {A} (P : A -> Prop) n new l : Forall P new -> Forall P l -> Forall P (insert_at n new l).
Proof. intros Hn Hl. unfold insert_at. rewrite !Forall_app. eauto using Forall_take, Forall_drop. Qed.
Lemma Forall_list_filter {A} (P : A -> Prop) p l : Forall P l -> Forall P (List.filter p l).
Proof. rewrite !Forall_forall. intros Hl x Hx. apply Hl. rewrite list_elem_of_In in *. by apply filter_In in Hx as [? _]. Qed.

Section Built.
Context (nfc : string -> string) (canonicalize : string -> option string) (path_exists : string -> bool).

Lemma wf_aliases path key source :
  (key, source) ∈ AUTOMATIC -> Forall wf_rule (push_path_rule_aliases nfc canonicalize path key source).1.
Proof.
  intros Hin. apply Forall_flat_map, Forall_true. intros p. unfold push_rule_with_variants_source.
  apply wf_pushed. by constructor.
Qed.
Lemma wf_automatic p key : (key, key) ∈ AUTOMATIC -> Forall wf_rule (push_rule_with_variants p key).
Proof. intros Hin. apply wf_pushed. by constructor. Qed.
Lemma wf_source_root p key source :
  (key, source) ∈ AUTOMATIC -> Forall wf_rule (source_root nfc canonicalize p key source).1.
Proof.
  intros Hin. unfold source_root. destruct p as [p|]; [|constructor]. pose proof (wf_aliases p key source Hin) as H.
  by destruct (push_path_rule_aliases _ _ _ _ _).
Qed.
Lemma wf_legacy p : Forall wf_rule (push_legacy_base_dir_rules nfc canonicalize p).1.
Proof.
  unfold push_legacy_base_dir_rules. destruct p as [p|]; [|constructor]. destruct (String.eqb p ""); [constructor|]. destruct (to_str _) as [q|]; [|constructor].
  destruct (is_filesystem_root_prefix q); [constructor|].
  assert (("<BASE_DIR>", "<BASE_DIR>") ∈ AUTOMATIC) as Hin by set_solver. pose proof (wf_aliases p _ _ Hin) as H.
  by destruct (push_path_rule_aliases _ _ _ _ _).
Qed.
Ltac automatic := unfold AUTOMATIC; set_solver.
Lemma wf_from_invocation root env : wf_rules (pn_rules (from_invocation nfc canonicalize root env)).
Proof.
  unfold from_invocation.
  match goal with |- context [push_legacy_base_dir_rules nfc canonicalize ?p] =>
    pose proof (wf_legacy p) as Hb; destruct (push_legacy_base_dir_rules nfc canonicalize p) as [base base_root] end.
  match goal with |- context [source_root nfc canonicalize ?p "<WORKSPACE>" "<CWD>"] =>
    pose proof (wf_source_root p "<WORKSPACE>" "<CWD>" ltac:(automatic)) as Hc; destruct (source_root _ _ p "<WORKSPACE>" "<CWD>") as [cwd cwd_root] end.
  match goal with |- context [source_root nfc canonicalize ?p "<WORKSPACE>" "<WORKSPACE>"] =>
    pose proof (wf_source_root p "<WORKSPACE>" "<WORKSPACE>" ltac:(automatic)) as Hw; destruct (source_root _ _ p "<WORKSPACE>" "<WORKSPACE>") as [ws ws_root] end.
  match goal with |- context [source_root nfc canonicalize ?p "<TARGET>" "<TARGET>"] =>
    pose proof (wf_source_root p "<TARGET>" "<TARGET>" ltac:(automatic)) as Ht; destruct (source_root _ _ p "<TARGET>" "<TARGET>") as [tg tg_root] end.
  cbn [pn_rules fst] in *. apply wf_retain. rewrite !Forall_app. split_and!; try done; try (apply wf_automatic; automatic).
  apply Forall_flat_map. repeat constructor; apply wf_automatic; automatic.
Qed.
Lemma wf_with_target_dir n target :
  wf_rules (pn_rules n) -> wf_rules (pn_rules (with_target_dir nfc canonicalize n target)).
Proof.
  intros Hn. unfold with_target_dir. destruct target as [target|]; [|done].
  pose proof (wf_aliases target "<TARGET>" "<TARGET>" ltac:(automatic)) as H.
  destruct (push_path_rule_aliases _ _ _ _ _) as [rules root]. cbn in H |- *.
  apply wf_retain, Forall_insert_at; [done|apply Hn].
Qed.
Lemma wf_with_rust_src n sysroot hash :
  contains_byte "=" hash = false -> wf_rules (pn_rules n) ->
  wf_rules (pn_rules (with_rust_src_rule nfc canonicalize n sysroot (Some hash))).
Proof.
  intros Hh Hn. unfold with_rust_src_rule. destruct sysroot as [sysroot|]; [|done]. destruct (canonical_string _ _ _) as [p|]; [|done].
  cbn [pn_rules]. apply wf_retain, Forall_insert_at; [|apply Hn]. apply wf_pushed. by constructor.
Qed.
Lemma replace_byte_nonempty a b s : s <> "" -> replace_byte a b s <> "".
Proof. by destruct s. Qed.
Lemma lowercase_nonempty s t : lowercase_drive_letter s = Some t -> t <> "".
Proof. unfold lowercase_drive_letter. intros H. repeat case_match; simplify_eq; done. Qed.
Lemma wf_variants prefix key source target :
  prefix <> "" -> tokens_of key source target -> Forall wf_rule (push_slash_and_case_variants prefix key source target).
Proof.
  intros Hp Ht. unfold push_slash_and_case_variants. cbv zeta.
  assert (forall form, Forall wf_rule
    match lowercase_drive_letter form with
    | Some form_lc =>
        if negb (String.eqb form_lc form) && negb (bool_decide (Some form_lc = lowercase_drive_letter prefix))
        then [{| rl_prefix := form_lc; rl_key_sentinel := key; rl_source_sentinel := source; rl_flag_target := target |}] else []
    | None => []
    end) as Hcross.
  { intros form. destruct (lowercase_drive_letter form) as [t|] eqn:El; [|constructor]. apply lowercase_nonempty in El.
    destruct (_ && _); repeat constructor; done. }
  rewrite !Forall_app. split_and!; try apply Hcross.
  - destruct (String.eqb _ _); repeat constructor; [by apply replace_byte_nonempty|done].
  - destruct (String.eqb _ _); repeat constructor; [by apply replace_byte_nonempty|done].
  - destruct (lowercase_drive_letter prefix) as [t|] eqn:El; [|constructor]. apply lowercase_nonempty in El.
    destruct (String.eqb _ _); repeat constructor; done.
Qed.
Lemma wf_configured_rule prefix i : Z.of_nat i <= u64_max -> Forall wf_rule (push_configured_base_dir_rule prefix i).
Proof.
  intros Hi. unfold push_configured_base_dir_rule. destruct (String.eqb_spec prefix ""); constructor.
  - split; [done|]. by constructor.
  - destruct (is_windows_absolute_path prefix); [|constructor]. apply wf_variants; [done|]. by constructor.
Qed.
Lemma length_dedup l : (length (dedup l) <= length l)%nat.
Proof. induction l as [|a [|b l] IH]; cbn [dedup]; [done|done|]. destruct (String.eqb a b); cbn in *; lia. Qed.
Lemma wf_configured_rules base_dirs :
  Z.of_nat (length base_dirs) <= u64_max -> Forall wf_rule (configured_base_dir_rules nfc canonicalize base_dirs).2.
Proof.
  intros Hlen. unfold configured_base_dir_rules. cbv zeta. cbn [snd]. apply wf_retain, Forall_sort_by.
  set (configured := List.filter _ _).
  assert (Forall (fun ip : nat * string => Z.of_nat ip.1 <= u64_max) (imap pair configured)) as Hi.
  { apply Forall_forall. intros [i p] Hip. apply list_elem_of_lookup in Hip as [k Hk].
    rewrite list_lookup_imap in Hk. destruct (configured !! k) eqn:Ek; [|done]. cbn in Hk. injection Hk as -> ->. cbn.
    apply lookup_lt_Some in Ek. pose proof (List.filter_length_le (fun p => negb (is_filesystem_root_prefix p)) (dedup (sort_by String.leb base_dirs))).
    pose proof (length_dedup (sort_by String.leb base_dirs)). rewrite length_sort_by in *. subst configured. lia. }
  apply Forall_app. split; apply Forall_flat_map; (eapply Forall_impl; [exact Hi|]); intros [i p] Hip; cbn in Hip |- *.
  - by apply wf_configured_rule.
  - destruct (negb _); [constructor|]. destruct (canonicalize p) as [c|]; [|constructor].
    apply Forall_flat_map, Forall_true. intros x. destruct (String.eqb _ _); [constructor|].
    by apply Forall_list_filter, wf_configured_rule.
Qed.
Lemma wf_with_base_dirs n base_dirs :
  Z.of_nat (length base_dirs) <= u64_max -> wf_rules (pn_rules n) ->
  wf_rules (pn_rules (with_base_dirs nfc canonicalize path_exists n base_dirs)).
Proof.
  intros Hlen Hn. unfold with_base_dirs. pose proof (wf_configured_rules base_dirs Hlen) as H.
  destruct (configured_base_dir_rules _ _ _) as [configured extra]. cbn [pn_rules snd] in *.
  apply wf_retain, Forall_app. split; [|apply Hn]. by apply Forall_sort_by, Forall_list_filter.
Qed.

(** The normalisers the wrapper builds. *)
Inductive built : PathNormalizer -> Prop :=
| b_from_invocation root env : built (from_invocation nfc canonicalize root env)
| b_with_target_dir n target : built n -> built (with_target_dir nfc canonicalize n target)
| b_with_base_dirs n base_dirs : Z.of_nat (length base_dirs) <= u64_max -> built n ->
    built (with_base_dirs nfc canonicalize path_exists n base_dirs)
| b_with_path_only n vars : built n -> built (with_path_only_env_vars n vars)
| b_with_rust_src n sysroot hash : contains_byte "=" hash = false -> built n ->
    built (with_rust_src_rule nfc canonicalize n sysroot (Some hash)).
Lemma built_wf n : built n -> wf_rules (pn_rules n).
Proof.
  induction 1; eauto using wf_from_invocation, wf_with_target_dir, wf_with_base_dirs, wf_with_rust_src.
Qed.
End Built.

(** ** Tokens *)

Lemma fmt_dec_digits z : all_bytes is_ascii_digit (fmt_dec z) = true.
Proof. apply drop_zeros_spec, fmt_padded_digits. Qed.
Lemma parse_fmt_dec z : 0 <= z <= u64_max -> parse_unsigned u64_max (fmt_dec z) = Some z.
Proof.
  intros Hz. unfold fmt_dec. destruct (drop_zeros_spec (fmt_padded 20 z) (fmt_padded_digits _ _)) as (D & P & N).
  apply parse_unsigned_digits; [|done| |lia].
  - apply N. intros E. pose proof (slen_fmt_padded 20 z) as L. by rewrite E in L.
  - rewrite P. apply parse_fmt_padded. unfold u64_max in Hz. lia.
Qed.
Lemma digits_free c s : is_ascii_digit c = false -> all_bytes is_ascii_digit s = true -> contains_byte c s = false.
Proof.
  intros Hc Hs. unfold contains_byte. apply negb_false_iff. revert Hs. apply all_bytes_impl.
  intros b Hb. apply negb_true_iff, Ascii.eqb_neq. by intros ->; rewrite Hc in Hb.
Qed.
Lemma contains_byte_app c s t : contains_byte c (s ++ t) = contains_byte c s || contains_byte c t.
Proof. unfold contains_byte. rewrite all_bytes_app. apply negb_andb. Qed.
Lemma configured_index i : Z.of_nat i <= u64_max -> configured_base_dir_index (configured_base_dir_sentinel i) = Some (Z.of_nat i).
Proof.
  intros Hi. unfold configured_base_dir_index, configured_base_dir_sentinel. rewrite strip_prefix_app. cbn [mbind option_bind].
  rewrite (proj2 (strip_suffix_Some ">" _ (fmt_dec (Z.of_nat i)))) by done. cbn [mbind option_bind].
  apply parse_fmt_dec. lia.
Qed.
Lemma tokens_shape key source target : tokens_of key source target ->
  token key = true /\ token source = true /\ contains_byte "=" target = false.
Proof.
  destruct 1 as [key source Hin|i _|hash Hh].
  - unfold AUTOMATIC in Hin. repeat (apply elem_of_cons in Hin as [[= -> ->]|Hin]; [by vm_compute|]). by apply not_elem_of_nil in Hin.
  - pose proof (fmt_dec_digits (Z.of_nat i)) as Hd. unfold configured_base_dir_sentinel, configured_base_dir_target, token.
    rewrite !contains_byte_app, (digits_free slash _ eq_refl Hd), (digits_free "=" _ eq_refl Hd). done.
  - by rewrite contains_byte_app, Hh.
Qed.

(** C27. Normalised text is free of machine-local prefixes: after [normalize] no
    absolute prefix of an automatic rule occurs anywhere in the result, whatever
    later rules did.  (A prefix with a [<] in it would be mistaken for a token;
    the configured directories are replaced at path boundaries only.) *)
Theorem normalize_erases_prefixes nfc canonicalize path_exists n r s :
  built nfc canonicalize path_exists n -> r ∈ pn_rules n ->
  configured_base_dir_index (rl_key_sentinel r) = None -> erasable (rl_prefix r) = true ->
  contains (rl_prefix r) (normalize nfc n s) = false.
Proof.
  intros Hb Hr Hauto Her. apply built_wf in Hb as [Hwf _]. unfold normalize. generalize (nfc s) as out.
  induction (pn_rules n) as [|a rules IH]; intros out; [by apply not_elem_of_nil in Hr|].
  apply Forall_cons in Hwf as [Ha Hwf]. apply elem_of_cons in Hr as [<-|Hr]; [|by apply IH].
  cbn [fold_left]. assert (contains (rl_prefix r) (apply_rule out r) = false) as Habs.
  { destruct Ha as [Hne Ht]. apply tokens_shape in Ht as (Hk & _). unfold apply_rule.
    rewrite (proj2 (String.eqb_neq _ _) Hne), Hauto. by apply replace_erases. }
  clear IH. revert Habs. generalize (apply_rule out r) as t. induction Hwf as [|b rules Hb Hwf IH]; intros t Ht; cbn; [done|].
  apply IH. destruct Hb as [_ Hk]. apply tokens_shape in Hk as (Hk & _). unfold apply_rule.
  destruct (String.eqb (rl_prefix b) ""); [done|]. destruct (is_some _); by apply replace_keeps_absent.
Qed.

(** ** Absolute paths by their segments *)

Definition segment (n : string) : bool := negb (String.eqb n "") && negb (String.eqb n ".") && negb (contains_byte slash n).
Definition abs_path (ns : list string) : string := concat_str (map (String slash) ns).
(** An absolute path below the root, without empty or [.] segments. *)
Definition is_plain (p : string) : bool :=
  let ns := tail (split_on slash p) in
  negb (bool_decide (ns = [])) && forallb segment ns && String.eqb p (abs_path ns).
Definition segment_component (n : string) : Component := if String.eqb n ".." then ParentDir else Normal n.

Lemma is_plain_spec p : is_plain p = true -> exists ns, ns <> [] /\ Forall (fun n => segment n = true) ns /\ p = abs_path ns.
Proof.
  unfold is_plain. intros H. bool_to_prop. exists (tail (split_on slash p)). split_and!; [done| |done].
  by apply Forall_forall; intros n Hn%list_elem_of_In; eapply forallb_forall.
Qed.
Lemma segment_spec n : segment n = true -> n <> "" /\ n <> "." /\ contains_byte slash n = false.
Proof. unfold segment. intros H. by bool_to_prop. Qed.
Lemma split_slash_free s : contains_byte slash s = false -> split_on slash s = [s].
Proof. unfold contains_byte. rewrite negb_false_iff. apply split_on_none. Qed.
Lemma split_abs s ns : contains_byte slash s = false -> Forall (fun n => segment n = true) ns ->
  split_on slash (s ++ abs_path ns) = s :: ns.
Proof.
  intros Hs Hns. revert s Hs. induction Hns as [|n ns Hn _ IH]; intros s Hs; cbn.
  - rewrite string_app_nil_r. by apply split_slash_free.
  - apply segment_spec in Hn as (_ & _ & Hn). rewrite split_on_app, split_slash_free by done. cbn [app].
    f_equal. exact (IH n Hn).
Qed.
Lemma omap_segments ns : Forall (fun n => segment n = true) ns -> omap seg_component ns = map segment_component ns.
Proof.
  induction 1 as [|n ns Hn _ IH]; cbn; [done|]. apply segment_spec in Hn as (H1 & H2 & _). rewrite IH.
  unfold seg_component, segment_component. rewrite (proj2 (String.eqb_neq _ _) H1), (proj2 (String.eqb_neq _ _) H2).
  by destruct (String.eqb n "..").
Qed.
Lemma components_abs ns : ns <> [] -> Forall (fun n => segment n = true) ns ->
  components (abs_path ns) = RootDir :: map segment_component ns.
Proof.
  intros Hne Hns. unfold components. pose proof (split_abs "" ns eq_refl Hns) as H. cbn [String.append] in H. rewrite H.
  cbn [omap list_omap].
  change (seg_component "") with (@None Component). cbn. rewrite omap_segments by done. by destruct ns.
Qed.
Lemma abs_path_app a b : abs_path (a ++ b) = abs_path a ++ abs_path b.
Proof. unfold abs_path. by rewrite map_app, concat_str_app. Qed.
#[local] Instance segment_component_inj : Inj (=) (=) segment_component.
Proof.
  intros a b. unfold segment_component.
  destruct (String.eqb_spec a ".."), (String.eqb_spec b ".."); intros [=]; congruence.
Qed.
Lemma strip_path_Some b p r : strip_path b p = Some r <-> p = (b ++ r)%list.
Proof.
  split.
  - revert p. induction b as [|c b IH]; intros [|d p]; cbn; try congruence. destruct (decide (c = d)) as [->|]; [|done].
    intros H%IH. by rewrite H.
  - intros ->. apply strip_path_app.
Qed.
(** The segments of [path] below [prefix]. *)
Definition below (ps ns rest : list string) : Prop := ns = (ps ++ rest)%list.
Lemma strip_segments ps ns r :
  strip_path (RootDir :: map segment_component ps) (RootDir :: map segment_component ns) = Some r
  <-> exists rest, below ps ns rest /\ r = map segment_component rest.
Proof.
  rewrite strip_path_Some. cbn. split.
  - intros [= H]. revert ns H. induction ps as [|p ps IH]; intros ns H; [by exists ns|].
    destruct ns as [|n ns]; [done|]. cbn in H. injection H as Hn H. apply (inj segment_component) in Hn as ->.
    destruct (IH ns H) as (rest & -> & ->). by exists rest.
  - intros (rest & -> & ->). by rewrite map_app.
Qed.
Lemma plain_not_windows ps : ps <> [] -> Forall (fun n => segment n = true) ps -> is_windows_absolute_path (abs_path ps) = false.
Proof.
  destruct 2 as [|p ps Hp Hps]; [done|]. apply segment_spec in Hp as (Hp & _ & Hs). destruct p as [|c p]; [done|].
  unfold contains_byte in Hs. cbn in Hs. apply negb_false_iff, andb_prop in Hs as [Hc _]. apply negb_true_iff in Hc.
  unfold abs_path, is_windows_absolute_path, starts_with. cbn [map concat_str String.append strip_prefix].
  assert (Ascii.eqb "/" c = false) as ->. { apply Ascii.eqb_neq. intros <-. by rewrite Ascii.eqb_refl in Hc. }
  by destruct (p ++ _).
Qed.
Lemma plain_no_trailing ps : ps <> [] -> Forall (fun n => segment n = true) ps -> ends_with "/" (abs_path ps) = false.
Proof.
  intros Hne Hps. unfold ends_with. destruct (strip_suffix "/" (abs_path ps)) as [d|] eqn:E; [|done].
  apply strip_suffix_Some in E. pose proof (split_abs "" ps eq_refl Hps) as H. cbn [String.append] in H. rewrite E in H.
  change "/" with (String slash "") in H. rewrite split_on_app in H. cbn in H.
  assert (last ("" :: ps) = Some "") as Hl by (rewrite <- H; apply last_snoc).
  destruct ps as [|p ps]; [done|]. rewrite last_cons_cons in Hl. apply last_Some_elem_of in Hl. rewrite Forall_forall in Hps. apply Hps in Hl. done.
Qed.

(** ** The flag rustc applies *)

(** [--remap-path-prefix] as rustc documents it: FROM is split from TO at the
    last [=], the last flag whose FROM is a leading part of the path applies, and
    only the matched head is replaced. *)
Definition rustc_mapping (arg : string) : option (string * string) :=
  v ← strip_prefix "--remap-path-prefix=" arg; rsplit_once "=" v.
Definition maps (path : string) (ft : string * string) : bool := path_starts_with (components path) (components ft.1).
Definition rustc_remap (args : list string) (path : string) : Path :=
  match last (List.filter (maps path) (omap rustc_mapping args)) with
  | Some (from, to) => join_path (components to) (default [] (strip_path (components from) (components path)))
  | None => components path
  end.

Lemma remap_args_mappings rules : wf_rules rules ->
  omap rustc_mapping (remap_args rules) = map (fun r => (rl_prefix r, rl_flag_target r)) (remap_order rules).
Proof.
  intros [Hwf _]. assert (Forall wf_rule (remap_order rules)) as H by by apply Forall_sort_by, Forall_list_filter.
  unfold remap_args. induction H as [|r l Hr _ IH]; [done|]. cbn [map omap list_omap]. rewrite IH.
  destruct Hr as [_ (_ & _ & Ht)%tokens_shape]. unfold rustc_mapping. rewrite strip_prefix_app. cbn [mbind option_bind].
  unfold contains_byte in Ht. apply negb_false_iff in Ht.
  change (rl_prefix r ++ "=" ++ rl_flag_target r) with (rl_prefix r ++ String "=" (rl_flag_target r)).
  by rewrite rsplit_once_app.
Qed.
Lemma last_filter_map {A B} (g : A -> B) (p : B -> bool) l :
  last (List.filter p (map g l)) = g <$> last (List.filter (fun x => p (g x)) l).
Proof.
  rewrite <- fmap_last. f_equal. induction l as [|x l IH]; cbn; [done|]. rewrite IH. by destruct (p (g x)).
Qed.
(** Prefixes rustc and the key compare alike: plain ones, and those that are not
    absolute here. *)
Definition comparable (r : Rule) : bool := is_plain (rl_prefix r) || negb (is_absolute (rl_prefix r)).
Lemma components_not_root p : p <> "" -> is_absolute p = false -> exists c l, components p = c :: l /\ c <> RootDir.
Proof.
  intros Hp Ha. destruct p as [|a p]; [done|]. unfold is_absolute, starts_with in Ha. cbn [strip_prefix] in Ha.
  unfold components. cbn [split_on]. destruct (Ascii.eqb_spec a slash) as [->|Hn]; [by rewrite Ascii.eqb_refl in Ha|].
  destruct (split_on_cons slash p) as (h & t & ->). cbn [omap list_omap].
  unfold seg_component. change (String.eqb (String a h) "") with false. cbn iota.
  destruct (String.eqb_spec (String a h) ".") as [E|]; [rewrite E; by eexists _, _|].
  assert (leading (String a h :: t) = []) as ->. { cbn. destruct a as [[] [] [] [] [] [] [] []], h; done. }
  destruct (String.eqb _ ".."); cbn; by eexists _, _.
Qed.
Lemma owns_below ps ns key source target :
  ps <> [] -> ns <> [] -> Forall (fun n => segment n = true) ps -> Forall (fun n => segment n = true) ns ->
  owns_source (abs_path ns) {| rl_prefix := abs_path ps; rl_key_sentinel := key; rl_source_sentinel := source; rl_flag_target := target |} = true
  <-> exists rest, below ps ns rest.
Proof.
  intros Hp Hn Hps Hns. unfold owns_source. cbn [rl_prefix]. split.
  - destruct (strip_prefix _ _) as [after|] eqn:E; [|done]. apply strip_prefix_Some in E.
    unfold configured_prefix_boundaries_match. rewrite plain_not_windows, plain_no_trailing by done. cbn.
    pose proof (split_abs "" ns eq_refl Hns) as Hsn. pose proof (split_abs "" ps eq_refl Hps) as Hsp. cbn [String.append] in Hsn, Hsp.
    destruct after as [|c after].
    + intros _. exists []. unfold below. rewrite string_app_nil_r in E. rewrite E in Hsn. rewrite app_nil_r. congruence.
    + cbn. rewrite orb_false_r. intros Hc. apply Ascii.eqb_eq in Hc as ->.
      rewrite E, split_on_app, Hsp in Hsn. exists (split_on slash after). unfold below. by injection Hsn.
  - intros (rest & ->). rewrite abs_path_app, strip_prefix_app. unfold configured_prefix_boundaries_match.
    rewrite plain_not_windows, plain_no_trailing by done. by destruct rest.
Qed.
Lemma owns_maps r path : wf_rule r -> comparable r = true -> is_plain path = true ->
  owns_source path r = maps path (rl_prefix r, rl_flag_target r).
Proof.
  intros [Hne _] Hc (ns & Hn & Hns & ->)%is_plain_spec. unfold maps, path_starts_with. cbn [fst].
  rewrite (components_abs ns) by done. apply orb_prop in Hc as [(ps & Hp & Hps & Hpre)%is_plain_spec|Ha].
  - rewrite Hpre, (components_abs ps) by done. apply eq_bool_prop_intro. rewrite !Is_true_true.
    destruct r as [prefix key source target]. cbn [rl_prefix rl_flag_target fst] in Hpre |- *. subst prefix. rewrite owns_below by done.
    destruct (strip_path _ _) as [r|] eqn:E.
    + apply strip_segments in E as (rest & Hb & _). split; [done|]. eauto.
    + split; [|done]. intros (rest & Hb). assert (strip_path (RootDir :: map segment_component ps) (RootDir :: map segment_component ns) = Some (map segment_component rest)) as H
        by (apply strip_segments; eauto). congruence.
  - apply negb_true_iff in Ha. destruct (components_not_root _ Hne Ha) as (c & l & -> & Hc). cbn [strip_path].
    destruct (decide (c = RootDir)) as [->|]; [done|]. unfold owns_source.
    destruct (strip_prefix _ _) as [after|] eqn:E; [|done]. apply strip_prefix_Some in E.
    destruct ns as [|m ns]; [done|]. unfold is_absolute, starts_with in Ha.
    destruct (rl_prefix r) as [|a p]; [done|]. cbn in E. injection E as <- _. done.
Qed.
Lemma filter_ext_Forall {A} (p q : A -> bool) l : Forall (fun x => p x = q x) l -> List.filter p l = List.filter q l.
Proof. induction 1 as [|x l Hx _ IH]; cbn; [done|]. by rewrite Hx, IH. Qed.
Lemma remap_by_source_rule rules path :
  wf_rules rules -> forallb comparable rules = true -> is_plain path = true -> valid_utf8 path = true ->
  rustc_remap (remap_args rules) path
  = match source_rule_for_path rules path with
    | Some r => join_path (components (rl_flag_target r)) (default [] (strip_path (components (rl_prefix r)) (components path)))
    | None => components path
    end.
Proof.
  intros Hb Hc Hp Hv. unfold rustc_remap. rewrite remap_args_mappings, source_rule_last, last_filter_map by done.
  assert (Forall (fun r => owns_source path r = maps path (rl_prefix r, rl_flag_target r)) (remap_order rules)) as H.
  { apply Forall_sort_by, Forall_list_filter. destruct Hb as [Hwf _]. rewrite Forall_forall in *. intros r Hr.
    apply owns_maps; [by apply Hwf|eapply forallb_forall; [exact Hc|by apply list_elem_of_In]|done]. }
  rewrite (filter_ext_Forall _ _ _ H). by destruct (last _).
Qed.
(** The rule that names a source in the key is the one rustc applies to it:
    among the emitted [--remap-path-prefix] flags the last match wins, and that is
    the flag of the rule [source_rule_for_path] chooses. *)
Theorem source_rule_is_the_applied_flag nfc canonicalize path_exists n path :
  built nfc canonicalize path_exists n -> forallb comparable (pn_rules n) = true ->
  is_plain path = true -> valid_utf8 path = true ->
  rustc_remap (remap_args (pn_rules n)) path
  = match source_rule_for_path (pn_rules n) path with
    | Some r => join_path (components (rl_flag_target r)) (default [] (strip_path (components (rl_prefix r)) (components path)))
    | None => components path
    end.
Proof. intros Hb%built_wf. by apply remap_by_source_rule. Qed.

(** ** Source identities *)

(** The target a source token stands for. *)
Definition target_of (source : string) : string :=
  match configured_base_dir_index source with
  | Some i => "/kache/base-dir-" ++ fmt_dec i
  | None => flag_target_for (if String.eqb source "<CWD>" then "<WORKSPACE>" else source)
  end.
Lemma tokens_target key source target :
  tokens_of key source target -> is_some (depinfo_sentinel_for_source source) = true -> target = target_of source.
Proof.
  destruct 1 as [key source Hin|i Hi|hash _]; intros Hs.
  - unfold AUTOMATIC in Hin. repeat (apply elem_of_cons in Hin as [[= -> ->]|Hin]; [done|]). by apply not_elem_of_nil in Hin.
  - unfold target_of. by rewrite configured_index.
  - done.
Qed.
(** What an identity says of the path it names. *)
Lemma source_identity_spec rules path id :
  wf_rules rules -> forallb comparable rules = true -> is_plain path = true ->
  source_path_identity rules path = Some id ->
  exists r ps rest, source_rule_for_path rules path = Some r /\ components (rl_prefix r) = RootDir :: map segment_component ps /\
    components path = RootDir :: map segment_component (ps ++ rest) /\ Forall (fun n => segment n = true) rest /\
    id = rl_source_sentinel r ++ abs_path rest /\ contains_byte slash (rl_source_sentinel r) = false /\
    rl_flag_target r = target_of (rl_source_sentinel r).
Proof.
  intros [Hwf _] Hc (ns & Hn & Hns & ->)%is_plain_spec. unfold source_path_identity.
  destruct (to_str (abs_path ns)) as [input|] eqn:Eu; [|done]. unfold to_str in Eu. destruct (valid_utf8 _) eqn:Hv; [|done].
  injection Eu as <-. cbn [mbind option_bind]. rewrite source_rule_last by done.
  destruct (last _) as [r|] eqn:El; [|done]. cbn [mbind option_bind].
  assert (r ∈ rules /\ owns_source (abs_path ns) r = true) as [Hr Hown].
  { apply last_Some_elem_of, list_elem_of_In, filter_In in El as [Hin Ho]. split; [|done].
    unfold remap_order in Hin. apply list_elem_of_In, elem_of_sort_by, list_elem_of_In, filter_In in Hin as [Hin _].
    by apply list_elem_of_In. }
  rewrite Forall_forall in Hwf. destruct (Hwf r Hr) as [Hne Ht]. destruct (tokens_shape _ _ _ Ht) as (_ & Hs & _).
  destruct (depinfo_sentinel_for_source _) as [d|] eqn:Ed; [|done]. cbn [mbind option_bind].
  assert (is_plain (rl_prefix r) = true) as (ps & Hp & Hps & Hpre)%is_plain_spec.
  { assert (comparable r = true) as Hcr by (eapply forallb_forall; [exact Hc|by apply list_elem_of_In]).
    apply orb_prop in Hcr as [|Ha]; [done|]. apply negb_true_iff in Ha. unfold owns_source in Hown.
    destruct (strip_prefix _ _) as [after|] eqn:E; [|done]. apply strip_prefix_Some in E.
    destruct (rl_prefix r) as [|a p]; [done|]. destruct ns; [done|]. cbn in E. injection E as <- _. done. }
  destruct r as [prefix key source target]. cbn [rl_prefix rl_source_sentinel rl_flag_target] in *. subst prefix.
  apply owns_below in Hown as (rest & ->); [|done..]. rewrite abs_path_app, strip_prefix_app. cbn [mbind option_bind].
  apply Forall_app in Hns as [_ Hrest]. intros [= <-]. exists {| rl_prefix := abs_path ps; rl_key_sentinel := key; rl_source_sentinel := source; rl_flag_target := target |}, ps, rest.
  cbn [rl_prefix rl_source_sentinel rl_flag_target]. split_and!; [done|by apply components_abs| |done| | |].
  - rewrite <- abs_path_app. apply components_abs; [by destruct ps|]. by apply Forall_app.
  - destruct Hrest as [|m rest Hm Hrest]; cbn; [by rewrite string_app_nil_r|].
    apply segment_spec in Hm as (Hm & _). by destruct m.
  - unfold token in Hs. bool_to_prop. done.
  - eapply tokens_target; [done|]. by rewrite Ed.
Qed.
(** The path an identity stands for, whatever the machine. *)
Definition embedded (id : string) : Path :=
  match split_on slash id with
  | source :: rest => join_path (components (target_of source)) (map segment_component rest)
  | [] => []
  end.
Lemma identity_remap rules path id :
  wf_rules rules -> forallb comparable rules = true -> is_plain path = true ->
  source_path_identity rules path = Some id -> rustc_remap (remap_args rules) path = embedded id.
Proof.
  intros Hwf Hc Hp Hid. assert (valid_utf8 path = true) as Hv.
  { unfold source_path_identity, to_str in Hid. by destruct (valid_utf8 path). }
  rewrite remap_by_source_rule by done.
  destruct (source_identity_spec _ _ _ Hwf Hc Hp Hid) as (r & ps & rest & -> & -> & -> & Hrest & -> & Hs & ->).
  unfold embedded. rewrite split_abs by done. rewrite map_app. f_equal. cbn.
  by rewrite strip_path_app.
Qed.
(** C4. Equal source identities are equal embedded paths, across machines: when two
    builds with different roots give two source paths the same key identity, the
    [--remap-path-prefix] flags each passes make rustc embed the same path for
    them.  The paths are plain (absolute, below the root, without doubled
    separators and [.] segments), and so is every absolute prefix of a rule. *)
Theorem source_identity_fixes_embedded_path nfc nfc' canonicalize canonicalize' disk disk' n n' path path' id :
  built nfc canonicalize disk n -> built nfc' canonicalize' disk' n' ->
  forallb comparable (pn_rules n) = true -> forallb comparable (pn_rules n') = true ->
  is_plain path = true -> is_plain path' = true ->
  source_path_identity (pn_rules n) path = Some id -> source_path_identity (pn_rules n') path' = Some id ->
  rustc_remap (remap_args (pn_rules n)) path = rustc_remap (remap_args (pn_rules n')) path'.
Proof.
  intros Hb%built_wf Hb'%built_wf Hc Hc' Hp Hp' Hid Hid'.
  rewrite (identity_remap _ _ _ Hb Hc Hp Hid). symmetry. exact (identity_remap _ _ _ Hb' Hc' Hp' Hid').
Qed.

(** ** Configured directories *)

(** The order and repetition of [paths.base_dirs] do not matter: the tokens, the
    rules and the dep-info roots are those of the set of directories. *)
Theorem base_dirs_order_irrelevant nfc canonicalize path_exists n dirs dirs' :
  (forall d, d ∈ dirs <-> d ∈ dirs') ->
  with_base_dirs nfc canonicalize path_exists n dirs = with_base_dirs nfc canonicalize path_exists n dirs'.
Proof. intros Hd. unfold with_base_dirs, configured_base_dir_rules. by rewrite (canonical_types_eq _ _ Hd). Qed.
