(* ===== verification/SourceScan.v ===== *)
(** * The scan of a source for environment macros

    [source_env_dep_use_bytes] of [src/cache_key.rs] and its helpers: a scanner
    over the bytes of a source file that tells whether the value of an
    environment variable can reach the compiled artifact, or only locates files
    that [include!] splices in.  Positions are indices into the bytes as in the
    code; every loop carries the code's bound, [bytes.len()], as [passes].
    Slicing out of range and subtracting below zero are errors here, panics in
    the code. *)

From S2P Require Import Prelude Strings Codec.
#[local] Open Scope string_scope.
#[local] Open Scope nat_scope.
#[local] Open Scope record_scope.

(** ** Slices and UTF-8 *)

Inductive ScanPanic := IndexOutOfRange | SubtractOverflow.
Definition Safe := result ScanPanic.

(** [&bytes[a..]], [&bytes[a..b]] and [usize] subtraction. *)
Definition slice_from (bytes : list ascii) (a : nat) : Safe (list ascii) :=
  if a <=? length bytes then Ok (drop a bytes) else Err IndexOutOfRange.
Definition slice_range (bytes : list ascii) (a b : nat) : Safe (list ascii) :=
  if (a <=? b) && (b <=? length bytes) then Ok (take (b - a) (drop a bytes)) else Err IndexOutOfRange.
Definition index (bytes : list ascii) (i : nat) : Safe ascii := with_context (bytes !! i) IndexOutOfRange.
Definition usize_sub (a b : nat) : Safe nat := if b <=? a then Ok (a - b) else Err SubtractOverflow.

Definition byte_is (o : option ascii) (c : ascii) : bool := if o is Some b then Ascii.eqb b c else false.

(** One step of [str::from_utf8]: the width of the character at the front, or
    the [error_len] of the first error ([None]: the input ends too early). *)
Inductive Utf8Step := Utf8Char (width : nat) | Utf8Bad (error_len : option nat).
Definition second_byte_ok (a b : ascii) : bool :=
  let b0 := byte_val a in
  let b1 := byte_val b in
  if (b0 =? 224)%Z then between 160 191 b1
  else if (b0 =? 237)%Z then between 128 159 b1
  else if (b0 =? 240)%Z then between 144 191 b1
  else if (b0 =? 244)%Z then between 128 143 b1
  else continuation b.
Definition utf8_width (a : ascii) : nat :=
  let b0 := byte_val a in
  if (b0 <? 128)%Z then 1 else if between 194 223 b0 then 2
  else if between 224 239 b0 then 3 else if between 240 244 b0 then 4 else 0.
Definition utf8_step (a : ascii) (rest : list ascii) : Utf8Step :=
  match utf8_width a, rest with
  | 0, _ => Utf8Bad (Some 1)
  | 1, _ => Utf8Char 1
  | _, [] => Utf8Bad None
  | w, b :: rest =>
      if negb (second_byte_ok a b) then Utf8Bad (Some 1)
      else match w, rest with
      | 2, _ => Utf8Char 2
      | _, [] => Utf8Bad None
      | w, c :: rest =>
          if negb (continuation c) then Utf8Bad (Some 2)
          else match w, rest with
          | 3, _ => Utf8Char 3
          | _, [] => Utf8Bad None
          | _, d :: _ => if negb (continuation d) then Utf8Bad (Some 3) else Utf8Char 4
          end
      end
  end.

Record Utf8Error := { valid_up_to : nat; error_len : option nat }.
(** The [fuel] is the number of bytes: a character takes at least one. *)
Fixpoint utf8_error (fuel : nat) (at_ : nat) (l : list ascii) : option Utf8Error :=
  match fuel, l with
  | S fuel, a :: rest =>
      match utf8_step a rest with
      | Utf8Char w => utf8_error fuel (at_ + w) (drop w l)
      | Utf8Bad e => Some {| valid_up_to := at_; error_len := e |}
      end
  | _, _ => None
  end.
Definition from_utf8 (l : list ascii) : result Utf8Error string :=
  match utf8_error (length l) 0 l with
  | None => Ok (string_of_list_ascii l)
  | Some e => Err e
  end.

(** [text.chars().next().map(char::len_utf8)] *)
Definition first_char_len (text : string) : option nat :=
  (fun c => String.length c.2) <$> head (chars text).

(** ** Loops *)

(** One pass of a [for _ in 0..n] loop: go on, [break] or [return]. *)
Inductive Pass (S R : Type) := Next (s : S) | Break (s : S) | Return (r : R).
Arguments Next {S R} s.
Arguments Break {S R} s.
Arguments Return {S R} r.
(** What the loop leaves: the state after it, or the value returned from it. *)
Fixpoint for_passes {S R} (n : nat) (body : S -> Pass S R) (s : S) : S + R :=
  match n with
  | O => inl s
  | S n => match body s with Next s => for_passes n body s | Break s => inl s | Return r => inr r end
  end.

(** ** Classes of bytes *)

Definition is_ident_start (c : ascii) : bool :=
  Ascii.eqb c "_" || (is_ascii_lowercase c || is_ascii_uppercase c) || negb (byte_val c <? 128)%Z.

Definition squote : ascii := "'"%char.
Definition is_open (c : ascii) : bool := Ascii.eqb c "(" || Ascii.eqb c "[" || Ascii.eqb c "{".
Definition is_close (c : ascii) : bool := Ascii.eqb c ")" || Ascii.eqb c "]" || Ascii.eqb c "}".

Definition bytes_are (l : list ascii) (s : string) : bool := String.eqb (string_of_list_ascii l) s.
Definition is_include_macro (name : list ascii) : bool :=
  bytes_are name "include" || bytes_are name "include_str" || bytes_are name "include_bytes".
Definition is_env_macro (name : list ascii) : bool := bytes_are name "env" || bytes_are name "option_env".

(** Byte length of the whitespace character at the front of the slice, or 0. *)
Definition whitespace_front (rest : list ascii) : nat :=
  match rest with
  | [] => 0
  | a :: rest =>
      let b0 := byte_val a in
      if between 9 13 b0 || (b0 =? 32)%Z then 1
      else match rest with
      | [] => 0
      | b :: rest =>
          let b1 := byte_val b in
          if (b0 =? 194)%Z && (b1 =? 133)%Z then 2
          else match rest with
          | [] => 0
          | c :: _ =>
              let b2 := byte_val c in
              if (b0 =? 226)%Z && (b1 =? 128)%Z
                 && ((b2 =? 142)%Z || (b2 =? 143)%Z || (b2 =? 168)%Z || (b2 =? 169)%Z) then 3
              else if (b0 =? 239)%Z && (b1 =? 187)%Z && (b2 =? 191)%Z then 3 else 0
          end
      end
  end.

(** ** How a source uses a variable *)

Inductive SourceEnvDepUse :=
| Unused | IncludeLocator | ConcatPrefix (include_locator : bool) | ConcatBinding (include_locator : bool) | RuntimeValue.
#[export] Instance SourceEnvDepUse_eq_dec : EqDecision SourceEnvDepUse.
Proof. solve_decision. Defined.

Definition memo_code (u : SourceEnvDepUse) : Z :=
  match u with
  | Unused => 0
  | IncludeLocator => 1
  | RuntimeValue => 2
  | ConcatPrefix false => 3
  | ConcatPrefix true => 4
  | ConcatBinding false => 5
  | ConcatBinding true => 6
  end%Z.
Definition from_memo_code (code : Z) : option SourceEnvDepUse :=
  match code with
  | 0 => Some Unused
  | 1 => Some IncludeLocator
  | 2 => Some RuntimeValue
  | 3 => Some (ConcatPrefix false)
  | 4 => Some (ConcatPrefix true)
  | 5 => Some (ConcatBinding false)
  | 6 => Some (ConcatBinding true)
  | _ => None
  end%Z.

(** ** The scanner *)

Section Scanner.
Variables (passes : nat) (bytes : list ascii).

Definition rust_whitespace_len (i : nat) : nat := whitespace_front (drop i bytes).
Definition comment_starts_at (i : nat) : bool :=
  byte_is (bytes !! i) "/" && (byte_is (bytes !! (i + 1)) "/" || byte_is (bytes !! (i + 1)) "*").

Definition line_comment_pass (i : nat) : Pass nat nat :=
  match bytes !! i with
  | None => Break i
  | Some c => if Ascii.eqb c newline then Break i else Next (i + 1)
  end.
(** The state of the block comment loop is the nesting depth and the position. *)
Definition block_comment_pass (s : nat * nat) : Pass (nat * nat) nat :=
  let '(depth, i) := s in
  match bytes !! i with
  | None => Break s
  | Some c =>
      if Ascii.eqb c "/" && byte_is (bytes !! (i + 1)) "*" then Next (depth + 1, i + 2)
      else if Ascii.eqb c "*" && byte_is (bytes !! (i + 1)) "/" then
        if depth - 1 =? 0 then Return (i + 2) else Next (depth - 1, i + 2)
      else Next (depth, i + 1)
  end.
Definition skip_comment (i : nat) : nat :=
  if byte_is (bytes !! (i + 1)) "/" then
    match for_passes passes line_comment_pass i with inl i => i | inr r => r end
  else
    match for_passes passes block_comment_pass (1, i + 2) with inl _ => length bytes | inr r => r end.

(** The loops of [skip_quoted_string] and [skip_char_literal] differ in the
    byte that closes the literal. *)
Definition literal_pass (close : ascii) (i : nat) : Pass nat nat :=
  match bytes !! i with
  | None => Break i
  | Some c => if Ascii.eqb c backslash then Next (i + 2) else if Ascii.eqb c close then Return (i + 1) else Next (i + 1)
  end.
Definition skip_literal (close : ascii) (i : nat) : nat :=
  match for_passes passes (literal_pass close) i with inl _ => length bytes | inr r => r end.
Definition skip_quoted_string (i : nat) : nat := skip_literal dquote i.
Definition skip_char_literal (i : nat) : nat := skip_literal squote i.

Definition first_lossy_char_len (l : list ascii) : option nat :=
  let prefix := take (length l `min` 4) l in
  match from_utf8 prefix with
  | Ok text => first_char_len text
  | Err error =>
      if 0 <? valid_up_to error then
        text ← ok (from_utf8 (take (valid_up_to error) prefix)); first_char_len text
      else Some (default (length prefix) (error_len error))
  end.

Definition skip_char_literal_or_lifetime (quote : nat) : Safe nat :=
  if byte_is (bytes !! (quote + 1)) backslash then Ok (skip_char_literal (quote + 1))
  else
    rest ← slice_from bytes (quote + 1);
    match first_lossy_char_len rest with
    | None => Ok (length bytes)
    | Some width =>
        let close := quote + 1 + width in
        Ok (if byte_is (bytes !! close) squote then close + 1 else quote + 1)
    end.

Definition hash_pass (cursor : nat) : Pass nat nat :=
  if byte_is (bytes !! cursor) "#" then Next (cursor + 1) else Break cursor.
Definition raw_string_starts_at (i : nat) : option nat :=
  let cursor := if byte_is (bytes !! i) "b" || byte_is (bytes !! i) "c" then i + 1 else i in
  if negb (byte_is (bytes !! cursor) "r") then None
  else
    let cursor := match for_passes passes hash_pass (cursor + 1) with inl c => c | inr r => r end in
    if byte_is (bytes !! cursor) dquote then Some cursor else None.

(** [for cursor in open_quote + 1..bytes.len()] over the listed cursors. *)
Fixpoint raw_close (hashes : nat) (cursors : list nat) : Safe nat :=
  match cursors with
  | [] => Ok (length bytes)
  | cursor :: cursors =>
      c ← index bytes cursor;
      if Ascii.eqb c dquote && (cursor + hashes <? length bytes) then
        tail ← slice_range bytes (cursor + 1) (cursor + 1 + hashes);
        if forallb (fun b => Ascii.eqb b "#") tail then Ok (cursor + hashes + 1) else raw_close hashes cursors
      else raw_close hashes cursors
  end.
Definition skip_raw_string (i : nat) : Safe nat :=
  match raw_string_starts_at i with
  | None => Ok (i + 1)
  | Some open_quote =>
      first ← index bytes i;
      h ← usize_sub open_quote i;
      h ← usize_sub h (if Ascii.eqb first "r" then 0 else 1);
      hashes ← usize_sub h 1;
      raw_close hashes (seq (open_quote + 1) (length bytes - (open_quote + 1)))
  end.

Definition ident_pass (i : nat) : Pass nat nat :=
  match bytes !! i with
  | None => Break i
  | Some c =>
      if negb (is_ident_start c || is_ascii_digit c) || (0 <? rust_whitespace_len i) then Break i else Next (i + 1)
  end.
Definition skip_ident_bytes (i : nat) : nat :=
  match for_passes passes ident_pass i with inl i => i | inr r => r end.

Definition trivia_pass (i : nat) : Pass nat nat :=
  let whitespace := rust_whitespace_len i in
  if 0 <? whitespace then Next (i + whitespace)
  else if comment_starts_at i then Next (skip_comment i) else Break i.
Definition skip_trivia (i : nat) : nat :=
  match for_passes passes trivia_pass i with inl i => i | inr r => r end.

Definition parse_macro_open (after_ident : nat) : option nat :=
  let bang := skip_trivia after_ident in
  if negb (byte_is (bytes !! bang) "!") then None
  else
    let open := skip_trivia (bang + 1) in
    if (if bytes !! open is Some c then is_open c else false) then Some open else None.

(** The position of the first quote or backslash. *)
Fixpoint quote_or_escape (l : list ascii) : option nat :=
  match l with
  | [] => None
  | c :: l => if Ascii.eqb c dquote || Ascii.eqb c backslash then Some 0 else S <$> quote_or_escape l
  end.
Definition parse_env_macro_name (after_open : nat) : Safe (option string) :=
  let start := skip_trivia after_open in
  if negb (byte_is (bytes !! start) dquote) then Ok None
  else
    body ← slice_from bytes (start + 1);
    match quote_or_escape body with
    | None => Ok None
    | Some len =>
        let end_ := start + 1 + len in
        last ← index bytes end_;
        if Ascii.eqb last dquote then name ← slice_range bytes (start + 1) end_; Ok (ok (from_utf8 name)) else Ok None
    end.
Definition parse_concat_prefix (after_open : nat) : Safe (option string) :=
  let start := skip_trivia after_open in
  let end_ := skip_ident_bytes start in
  word ← slice_range bytes start end_;
  if negb (bytes_are word "concat") then Ok None
  else match parse_macro_open end_ with
  | None => Ok None
  | Some open => parse_env_macro_name (open + 1)
  end.

(** The variables of the main loop; [sc_groups] has the innermost delimiter first. *)
Record Scan := {
  sc_i : nat;
  sc_groups : list bool;
  sc_include_depth : nat;
  sc_include_locator : bool;
  sc_concat_prefix : bool;
  sc_concat_binding : bool;
  sc_use_item : bool }.
#[export] Instance Scan_eta : Eta Scan := fun s =>
  {| sc_i := sc_i s; sc_groups := sc_groups s; sc_include_depth := sc_include_depth s;
     sc_include_locator := sc_include_locator s; sc_concat_prefix := sc_concat_prefix s;
     sc_concat_binding := sc_concat_binding s; sc_use_item := sc_use_item s |}.

Section Var.
Variable var : string.

(** What an environment macro opened at [open] adds; [None] returns
    [RuntimeValue] from the scan. *)
Definition env_macro (open : nat) (s : Scan) : Safe (option Scan) :=
  name ← parse_env_macro_name (open + 1);
  match name with
  | Some name =>
      if negb (String.eqb name var) then Ok (Some s)
      else if 0 <? sc_include_depth s then Ok (Some (s <| sc_include_locator := true |>))
      else Ok None
  | None =>
      if 0 <? sc_include_depth s then Ok (Some s)
      else
        prefix ← parse_concat_prefix (open + 1);
        if (if prefix is Some prefix then negb (starts_with prefix var) else false)
        then Ok (Some (s <| sc_concat_prefix := true |>))
        else Ok None
  end.

(** The identifier arm of the main loop. *)
Definition scan_ident (s : Scan) : Safe (Pass Scan SourceEnvDepUse) :=
  let ident_start := sc_i s in
  let i := skip_ident_bytes ident_start in
  ident ← slice_range bytes ident_start i;
  let s := s <| sc_i := i |> <| sc_use_item ::= fun u => u || bytes_are ident "use" |>
             <| sc_concat_binding ::= fun c =>
                  c || (bytes_are ident "macro_use" || (bytes_are ident "concat" && negb (bool_decide (is_Some (parse_macro_open i))))) |> in
  match parse_macro_open i with
  | None => Ok (Next s)
  | Some open =>
      after ← (if is_env_macro ident then env_macro open s else Ok (Some s));
      match after with
      | None => Ok (Return RuntimeValue)
      | Some s =>
          let include := is_include_macro ident in
          Ok (Next (s <| sc_groups ::= cons include |>
                      <| sc_include_depth ::= fun d => d + Nat.b2n include |> <| sc_i := open + 1 |>))
      end
  end.

Definition scan_close (s : Scan) : Safe Scan :=
  let s' := s <| sc_groups ::= tail |> <| sc_i ::= fun i => i + 1 |> in
  match head (sc_groups s) with
  | Some true => depth ← usize_sub (sc_include_depth s) 1; Ok (s' <| sc_include_depth := depth |>)
  | _ => Ok s'
  end.

Definition scan_pass (s : Scan) : Safe (Pass Scan SourceEnvDepUse) :=
  let i := sc_i s in
  let goto i := s <| sc_i := i |> in
  match bytes !! i with
  | None => Ok (Break s)
  | Some byte =>
      let whitespace := rust_whitespace_len i in
      if 0 <? whitespace then Ok (Next (goto (i + whitespace)))
      else if Ascii.eqb byte "/" && comment_starts_at i then Ok (Next (goto (skip_comment i)))
      else if Ascii.eqb byte dquote then Ok (Next (goto (skip_quoted_string (i + 1))))
      else if Ascii.eqb byte squote then i ← skip_char_literal_or_lifetime i; Ok (Next (goto i))
      else if (Ascii.eqb byte "b" || Ascii.eqb byte "c" || Ascii.eqb byte "r")
              && bool_decide (is_Some (raw_string_starts_at i)) then i ← skip_raw_string i; Ok (Next (goto i))
      else if Ascii.eqb byte ";" then Ok (Next ((goto (i + 1)) <| sc_use_item := false |>))
      else if Ascii.eqb byte "*" && sc_use_item s then Ok (Next ((goto (i + 1)) <| sc_concat_binding := true |>))
      else if is_open byte then Ok (Next ((goto (i + 1)) <| sc_groups ::= cons false |>))
      else if is_close byte then s ← scan_close s; Ok (Next s)
      else if is_ascii_digit byte then Ok (Next (goto (skip_ident_bytes i)))
      else if is_ident_start byte then scan_ident s
      else Ok (Next (goto (i + 1)))
  end.

Fixpoint scan_passes (n : nat) (s : Scan) : Safe (Scan + SourceEnvDepUse) :=
  match n with
  | O => Ok (inl s)
  | S n =>
      pass ← scan_pass s;
      match pass with Next s => scan_passes n s | Break s => Ok (inl s) | Return r => Ok (inr r) end
  end.

Definition scan_start : Scan :=
  {| sc_i := 0; sc_groups := []; sc_include_depth := 0; sc_include_locator := false;
     sc_concat_prefix := false; sc_concat_binding := false; sc_use_item := false |}.
Definition scan_answer (s : Scan) : SourceEnvDepUse :=
  if sc_concat_prefix s && sc_concat_binding s then RuntimeValue
  else if sc_concat_prefix s then ConcatPrefix (sc_include_locator s)
  else if sc_concat_binding s then ConcatBinding (sc_include_locator s)
  else if sc_include_locator s then IncludeLocator
  else Unused.
Definition source_scan : Safe SourceEnvDepUse :=
  out ← scan_passes passes scan_start;
  Ok (match out with inl s => scan_answer s | inr u => u end).
End Var.
End Scanner.

(** The bound of every loop is the number of bytes. *)
Definition source_env_dep_use_bytes (bytes : list ascii) (var : string) : Safe SourceEnvDepUse :=
  source_scan (length bytes) bytes var.
Definition source_env_dep_use (source var : string) : Safe SourceEnvDepUse :=
  source_env_dep_use_bytes (list_ascii_of_string source) var.
