(* ===== verification/ScanProofs.v ===== *)
(** * The source scanner is total

    Every loop of the scanner is described by a function on the bytes that are
    left, which does not mention the loop's bound.  It follows that the bound is
    never what ends a loop, that positions stay in range and that no slice or
    subtraction of the scanner panics. *)

From S2P Require Import Prelude Strings Codec SourceScan.
#[local] Open Scope string_scope.
#[local] Open Scope nat_scope.
#[local] Open Scope record_scope.

(** ** What is left at a position *)

Lemma drop_cons (bytes : list ascii) i c l :
  drop i bytes = c :: l -> bytes !! i = Some c /\ drop (i + 1) bytes = l /\ i < length bytes.
Proof.
  intros H. assert (bytes !! i = Some c) as Hc by (rewrite <- (Nat.add_0_r i), <- lookup_drop, H; done).
  split_and!; [done| |by apply lookup_lt_Some in Hc]. by rewrite <- drop_drop, H.
Qed.
Lemma drop_nil (bytes : list ascii) i : drop i bytes = [] -> bytes !! i = None.
Proof. intros H. by rewrite <- (Nat.add_0_r i), <- lookup_drop, H. Qed.
Lemma drop_lookup (bytes : list ascii) i k l : drop i bytes = l -> bytes !! (i + k) = l !! k.
Proof. intros <-. by rewrite lookup_drop. Qed.
Lemma drop_plus (bytes : list ascii) i k l : drop i bytes = l -> drop (i + k) bytes = drop k l.
Proof. intros <-. by rewrite drop_drop. Qed.
Lemma drop_app_at (bytes l1 l2 : list ascii) i : drop i bytes = (l1 ++ l2)%list -> drop (i + length l1) bytes = l2.
Proof. intros H. by rewrite (drop_plus _ _ _ _ H), drop_app_length. Qed.
Lemma drop_left (bytes : list ascii) i l : drop i bytes = l -> i <= length bytes -> length bytes = i + length l.
Proof. intros <- Hi. rewrite length_drop. lia. Qed.

(** A loop whose passes decrease a measure, and break at measure 0, ends by
    itself: any two bounds that reach the measure give the same outcome, and
    the loop leaves a state that satisfies the invariant. *)
Section Loop.
Context {S R : Type} (body : S -> Pass S R) (measure : S -> nat) (inv : S -> Prop).
Hypothesis Hnext : forall s s', inv s -> body s = Next s' -> inv s' /\ measure s' < measure s.

Lemma for_passes_enough n m s :
  (forall s, inv s -> measure s = 0 -> body s = Break s) ->
  inv s -> measure s <= n -> measure s <= m -> for_passes n body s = for_passes m body s.
Proof.
  intros Hend. revert m s. induction n as [|n IH]; intros [|m] s Hi Hn Hm; simpl; [done| | |].
  1,2: by rewrite Hend by (done || lia).
  destruct (body s) as [s'|s'|r] eqn:Hb; [|done..]. destruct (Hnext _ _ Hi Hb). apply IH; [done|lia..].
Qed.
Lemma for_passes_inv n s s' :
  (forall s s', inv s -> body s = Break s' -> inv s') -> inv s -> for_passes n body s = inl s' -> inv s'.
Proof.
  intros Hbreak. revert s. induction n as [|n IH]; intros s Hi; simpl; [by intros [= <-]|].
  destruct (body s) as [s1|s1|r] eqn:Hb; [|by intros [= <-]; eauto|done]. destruct (Hnext _ _ Hi Hb). by apply IH.
Qed.
End Loop.

(** ** Comments, literals and identifiers, by the bytes left *)

Fixpoint line_len (l : list ascii) : nat :=
  match l with [] => 0 | c :: l => if Ascii.eqb c newline then 0 else S (line_len l) end.
(** Up to the end of the comment, at nesting depth [depth]. *)
Fixpoint block_len (depth : nat) (l : list ascii) : option nat :=
  match l with
  | [] => None
  | c :: l1 =>
      match l1 with
      | d :: l2 =>
          if Ascii.eqb c "/" && Ascii.eqb d "*" then (fun n => 2 + n) <$> block_len (depth + 1) l2
          else if Ascii.eqb c "*" && Ascii.eqb d "/" then
            if depth - 1 =? 0 then Some 2 else (fun n => 2 + n) <$> block_len (depth - 1) l2
          else S <$> block_len depth l1
      | [] => None
      end
  end.
Fixpoint literal_len (close : ascii) (l : list ascii) : option nat :=
  match l with
  | [] => None
  | c :: l1 =>
      if Ascii.eqb c backslash then match l1 with [] => None | _ :: l2 => (fun n => 2 + n) <$> literal_len close l2 end
      else if Ascii.eqb c close then Some 1 else S <$> literal_len close l1
  end.
Fixpoint ident_len (l : list ascii) : nat :=
  match l with
  | [] => 0
  | c :: l1 => if negb (is_ident_start c || is_ascii_digit c) || (0 <? whitespace_front l) then 0 else S (ident_len l1)
  end.
Fixpoint hashes_len (l : list ascii) : nat :=
  match l with [] => 0 | c :: l => if Ascii.eqb c "#" then S (hashes_len l) else 0 end.

Section Passes.
Variable bytes : list ascii.

Lemma line_passes n i l :
  drop i bytes = l -> length l <= n -> for_passes n (line_comment_pass bytes) i = inl (i + line_len l).
Proof.
  revert i l. induction n as [|n IH]; intros i [|c l] Hd Hn; simpl in *; try lia; [f_equal; lia| |].
  - unfold line_comment_pass. rewrite (drop_nil _ _ Hd). f_equal; lia.
  - apply drop_cons in Hd as (Hc & Hd & _). unfold line_comment_pass at 1. rewrite Hc.
    destruct (Ascii.eqb c newline); [f_equal; lia|]. rewrite (IH _ _ Hd) by lia. f_equal; lia.
Qed.
Lemma block_passes n depth i l :
  drop i bytes = l -> length l <= n ->
  match for_passes n (block_comment_pass bytes) (depth, i) with inl _ => length bytes | inr r => r end
  = match block_len depth l with Some k => i + k | None => length bytes end.
Proof.
  revert depth i l. induction n as [|n IH]; intros depth i [|c l] Hd Hn; cbn [for_passes block_len length] in *; try lia.
  - unfold block_comment_pass at 1. by rewrite (drop_nil _ _ Hd).
  - pose proof (drop_lookup _ _ 1 _ Hd) as H1. pose proof (drop_plus _ _ 2 _ Hd) as H2.
    apply drop_cons in Hd as (Hc & Hd & _). unfold block_comment_pass at 1. rewrite Hc, H1.
    destruct l as [|d l]; cbn [lookup list_lookup byte_is skipn length] in *.
    + rewrite !andb_false_r. by rewrite (IH _ _ _ Hd) by (simpl; lia).
    + rewrite drop_0 in H2. destruct (Ascii.eqb c "/" && Ascii.eqb d "*").
      { rewrite (IH _ _ _ H2) by lia. destruct (block_len _ l); simpl; lia. }
      destruct (Ascii.eqb c "*" && Ascii.eqb d "/").
      { destruct (depth - 1 =? 0); [done|]. rewrite (IH _ _ _ H2) by lia. destruct (block_len _ l); simpl; lia. }
      rewrite (IH _ _ _ Hd) by (simpl; lia). destruct (block_len depth (d :: l)); simpl; lia.
Qed.
Lemma hash_passes n i l :
  drop i bytes = l -> length l <= n -> for_passes n (hash_pass bytes) i = inl (i + hashes_len l).
Proof.
  revert i l. induction n as [|n IH]; intros i [|c l] Hd Hn; simpl in *; try lia; [f_equal; lia| |].
  - unfold hash_pass. rewrite (drop_nil _ _ Hd). simpl. f_equal; lia.
  - apply drop_cons in Hd as (Hc & Hd & _). unfold hash_pass at 1. rewrite Hc. simpl.
    destruct (Ascii.eqb c "#"); [|f_equal; lia]. rewrite (IH _ _ Hd) by lia. f_equal; lia.
Qed.
End Passes.

Section Skips.
Variables (passes : nat) (bytes : list ascii).
Hypothesis Hpasses : length bytes <= passes.

(** The bound covers what is left at any position. *)
Lemma left_within i l : drop i bytes = l -> length l <= passes.
Proof. intros <-. rewrite length_drop. lia. Qed.

Lemma skip_literal_at close i l :
  drop i bytes = l ->
  skip_literal passes bytes close i = match literal_len close l with Some k => i + k | None => length bytes end.
Proof.
  unfold skip_literal. intros Hd. pose proof (left_within _ _ Hd) as Hn. revert i l Hd Hn.
  generalize passes as n. induction n as [|n IH]; intros i [|c l] Hd Hn; simpl in *; try lia.
  - unfold literal_pass at 1. by rewrite (drop_nil _ _ Hd).
  - pose proof (drop_plus _ _ 2 _ Hd) as H2.
    apply drop_cons in Hd as (Hc & Hd & _). unfold literal_pass at 1. rewrite Hc.
    destruct (Ascii.eqb c backslash).
    { destruct l as [|d l]; simpl in *; rewrite ?drop_0 in H2; rewrite (IH _ _ H2) by (simpl; lia); [done|].
      destruct (literal_len close l); simpl; lia. }
    destruct (Ascii.eqb c close); [done|]. rewrite (IH _ _ Hd) by lia. destruct (literal_len close l); simpl; lia.
Qed.
Lemma skip_ident_at i l : drop i bytes = l -> skip_ident_bytes passes bytes i = i + ident_len l.
Proof.
  unfold skip_ident_bytes. intros Hd. pose proof (left_within _ _ Hd) as Hn. revert i l Hd Hn.
  generalize passes as n. induction n as [|n IH]; intros i [|c l] Hd Hn; simpl in *; try lia.
  - unfold ident_pass. rewrite (drop_nil _ _ Hd). lia.
  - unfold ident_pass at 1, rust_whitespace_len. rewrite Hd. apply drop_cons in Hd as (Hc & Hd & _). rewrite Hc.
    destruct (_ || _); [lia|]. rewrite (IH _ _ Hd) by lia. lia.
Qed.
End Skips.

Lemma line_len_le l : line_len l <= length l.
Proof. induction l as [|c l IH]; simpl; [lia|]. case_match; lia. Qed.
Lemma block_len_le depth l k : block_len depth l = Some k -> 2 <= k <= length l.
Proof.
  remember (length l) as n eqn:Hn. revert depth l k Hn.
  induction n as [n IH] using lt_wf_ind. intros depth [|c [|d l]] k Hn; try done. simpl in Hn.
  change (block_len depth (c :: d :: l)) with
    (if Ascii.eqb c "/" && Ascii.eqb d "*" then (fun n => 2 + n) <$> block_len (depth + 1) l
     else if Ascii.eqb c "*" && Ascii.eqb d "/" then
       if depth - 1 =? 0 then Some 2 else (fun n => 2 + n) <$> block_len (depth - 1) l
     else S <$> block_len depth (d :: l)).
  destruct (_ && _); [|destruct (_ && _); [destruct (_ =? 0)|]]; intros Hk; try (injection Hk as <-; lia).
  all: apply fmap_Some in Hk as (k' & Hk & ->); eapply IH in Hk; [..|reflexivity]; simpl in *; lia.
Qed.
Lemma literal_len_le close l k : literal_len close l = Some k -> 1 <= k <= length l.
Proof.
  remember (length l) as n eqn:Hn. revert l k Hn.
  induction n as [n IH] using lt_wf_ind. intros [|c l] k Hn; try done. simpl in *.
  destruct (Ascii.eqb c backslash); [destruct l; [done|]|destruct (Ascii.eqb c close)]; intros Hk; simplify_eq/=; try lia.
  all: apply fmap_Some in Hk as (k' & Hk & ->); eapply IH in Hk; [..|reflexivity]; simpl in *; lia.
Qed.
Lemma ident_len_le l : ident_len l <= length l.
Proof. induction l as [|c l IH]; cbn [ident_len length]; [lia|]. case_match; lia. Qed.
Lemma hashes_len_le l : hashes_len l <= length l.
Proof. induction l as [|c l IH]; simpl; [lia|]. case_match; lia. Qed.
Lemma whitespace_front_le l : whitespace_front l <= length l.
Proof. unfold whitespace_front. repeat case_match; simpl; lia. Qed.

Definition comment_front (l : list ascii) : bool :=
  if l is c :: d :: _ then Ascii.eqb c "/" && (Ascii.eqb d "/" || Ascii.eqb d "*") else false.
Definition comment_len (l : list ascii) : nat :=
  match l with
  | _ :: d :: l2 =>
      if Ascii.eqb d "/" then line_len l else match block_len 1 l2 with Some k => 2 + k | None => length l end
  | _ => 0
  end.
Lemma comment_len_le l : comment_front l = true -> 2 <= comment_len l <= length l.
Proof.
  destruct l as [|c [|d l]]; try done. cbn [comment_front comment_len].
  intros [->%Ascii.eqb_eq Hd]%andb_true_iff. destruct (Ascii.eqb_spec d "/") as [->|].
  - pose proof (line_len_le l). simpl. lia.
  - destruct (block_len 1 l) as [k|] eqn:Hk; simpl; [apply block_len_le in Hk|]; lia.
Qed.

(** What [trivia_pass] skips in one pass, and [skip_trivia] altogether. *)
Definition trivia_front (l : list ascii) : nat :=
  if 0 <? whitespace_front l then whitespace_front l else if comment_front l then comment_len l else 0.
Fixpoint trivia_fuel (fuel : nat) (l : list ascii) : nat :=
  match fuel with
  | O => 0
  | S fuel => if trivia_front l =? 0 then 0 else trivia_front l + trivia_fuel fuel (drop (trivia_front l) l)
  end.
Definition trivia_len (l : list ascii) : nat := trivia_fuel (length l) l.
Lemma trivia_front_le l : trivia_front l <= length l.
Proof.
  unfold trivia_front. pose proof (whitespace_front_le l). case_match; [lia|].
  destruct (comment_front l) eqn:Hc; [apply comment_len_le in Hc|]; lia.
Qed.
Lemma trivia_fuel_enough n m l : length l <= n -> length l <= m -> trivia_fuel n l = trivia_fuel m l.
Proof.
  revert m l. induction n as [|n IH]; intros [|m] l Hn Hm; simpl; [done| | |].
  1,2: pose proof (trivia_front_le l); rewrite (proj2 (Nat.eqb_eq _ 0)) by lia; done.
  pose proof (trivia_front_le l). destruct (Nat.eqb_spec (trivia_front l) 0); [done|].
  f_equal. apply IH; rewrite length_drop; lia.
Qed.
Lemma trivia_len_unfold l :
  trivia_len l = if trivia_front l =? 0 then 0 else trivia_front l + trivia_len (drop (trivia_front l) l).
Proof.
  unfold trivia_len. pose proof (trivia_front_le l) as Hl. destruct l as [|c l]; [done|].
  cbn [trivia_fuel length]. destruct (Nat.eqb_spec (trivia_front (c :: l)) 0); [done|]. f_equal.
  simpl in Hl. apply trivia_fuel_enough; rewrite length_drop; simpl; lia.
Qed.
Lemma trivia_len_le l : trivia_len l <= length l.
Proof.
  remember (length l) as n eqn:Hn. revert l Hn. induction n as [n IH] using lt_wf_ind. intros l Hn.
  rewrite trivia_len_unfold. destruct (Nat.eqb_spec (trivia_front l) 0); [lia|].
  pose proof (trivia_front_le l).
  epose proof (IH (length (drop (trivia_front l) l)) ltac:(rewrite length_drop; lia) _ eq_refl) as Ht.
  rewrite length_drop in Ht. lia.
Qed.

(** A raw string: its hashes and where its quote opens, and where it ends from there. *)
Definition raw_front (l : list ascii) : option (nat * nat) :=
  let k := if byte_is (l !! 0) "b" || byte_is (l !! 0) "c" then 1 else 0 in
  let hashes := hashes_len (drop (k + 1) l) in
  if byte_is (l !! k) "r" && byte_is (l !! (k + 1 + hashes)) dquote then Some (hashes, k + 1 + hashes) else None.
Definition hashes_follow (hashes : nat) (l : list ascii) : bool :=
  (hashes <=? length l) && forallb (fun b => Ascii.eqb b "#") (take hashes l).
Fixpoint raw_end (hashes : nat) (l : list ascii) : option nat :=
  match l with
  | [] => None
  | c :: l => if Ascii.eqb c dquote && hashes_follow hashes l then Some (1 + hashes) else S <$> raw_end hashes l
  end.
Lemma raw_end_le hashes l k : raw_end hashes l = Some k -> 1 <= k <= length l.
Proof.
  revert k. induction l as [|c l IH]; intros k; simpl; [done|]. case_match eqn:Hc.
  - intros [= <-]. apply andb_true_iff in Hc as [_ [Hh%Nat.leb_le _]%andb_true_iff]. lia.
  - intros (k' & Hk & ->)%fmap_Some. apply IH in Hk. lia.
Qed.

Section Skips2.
Variables (passes : nat) (bytes : list ascii).
Hypothesis Hpasses : length bytes <= passes.

Lemma comment_starts_left i l : drop i bytes = l -> comment_starts_at bytes i = comment_front l.
Proof.
  intros Hd. unfold comment_starts_at, comment_front. rewrite (drop_lookup _ _ 1 _ Hd).
  rewrite <- (Nat.add_0_r i), (drop_lookup _ _ 0 _ Hd).
  destruct l as [|c [|d l]]; simpl; rewrite ?andb_false_r; done.
Qed.
Lemma skip_comment_at i l :
  drop i bytes = l -> comment_front l = true -> skip_comment passes bytes i = i + comment_len l.
Proof.
  intros Hd Hc. unfold skip_comment. rewrite (drop_lookup _ _ 1 _ Hd).
  pose proof (left_within _ _ Hpasses _ _ Hd) as Hn. pose proof (drop_plus _ _ 2 _ Hd) as H2.
  destruct l as [|c [|d l]]; try done.
  pose proof (drop_cons _ _ _ _ Hd) as (_ & _ & Hi). pose proof (drop_left _ _ _ Hd ltac:(lia)) as Hlen.
  cbn [lookup list_lookup byte_is comment_len]. destruct (Ascii.eqb d "/").
  - by rewrite (line_passes _ _ _ _ Hd Hn).
  - simpl in H2. rewrite drop_0 in H2. simpl in Hn. rewrite (block_passes _ _ _ _ _ H2) by lia.
    destruct (block_len 1 l); lia.
Qed.
Lemma trivia_pass_at i l :
  drop i bytes = l ->
  trivia_pass passes bytes i = if trivia_front l =? 0 then Break i else Next (i + trivia_front l).
Proof.
  intros Hd. unfold trivia_pass, trivia_front, rust_whitespace_len. rewrite Hd, (comment_starts_left _ _ Hd).
  destruct (Nat.ltb_spec 0 (whitespace_front l)).
  { by destruct (Nat.eqb_spec (whitespace_front l) 0); [lia|]. }
  destruct (comment_front l) eqn:Hc; [|done]. rewrite (skip_comment_at _ _ Hd Hc). apply comment_len_le in Hc.
  by destruct (Nat.eqb_spec (comment_len l) 0); [lia|].
Qed.
Lemma skip_trivia_at i l : drop i bytes = l -> skip_trivia passes bytes i = i + trivia_len l.
Proof.
  intros Hd. unfold skip_trivia, trivia_len. pose proof (left_within _ _ Hpasses _ _ Hd) as Hn.
  rewrite (trivia_fuel_enough _ passes) by lia.
  enough (forall n i l, drop i bytes = l -> length l <= n ->
    for_passes n (trivia_pass passes bytes) i = inl (i + trivia_fuel n l)) as H by (by rewrite (H _ _ _ Hd Hn)).
  clear i l Hd Hn. intros n. induction n as [|n IH]; intros i l Hd Hn; simpl; [f_equal; lia|].
  rewrite (trivia_pass_at _ _ Hd). destruct (Nat.eqb_spec (trivia_front l) 0); [f_equal; lia|].
  pose proof (trivia_front_le l).
  rewrite (IH _ _ (drop_plus _ _ _ _ Hd)) by (rewrite length_drop; lia). f_equal; lia.
Qed.
End Skips2.

(** ** Raw strings and macro calls *)

Lemma slice_from_at (bytes : list ascii) a l : drop a bytes = l -> a <= length bytes -> slice_from bytes a = Ok l.
Proof. intros <- Ha. unfold slice_from. by rewrite (proj2 (Nat.leb_le _ _) Ha). Qed.
Lemma slice_range_at (bytes : list ascii) a n l :
  drop a bytes = l -> a <= length bytes -> n <= length l -> slice_range bytes a (a + n) = Ok (take n l).
Proof.
  intros <- Ha Hn. unfold slice_range. rewrite length_drop in Hn.
  rewrite (proj2 (Nat.leb_le _ _)), (proj2 (Nat.leb_le _ _)) by lia. simpl. do 2 f_equal. lia.
Qed.
Lemma index_at (bytes : list ascii) i k c l : drop i bytes = l -> l !! k = Some c -> index bytes (i + k) = Ok c.
Proof. intros Hd Hc. unfold index. by rewrite (drop_lookup _ _ _ _ Hd), Hc. Qed.

Definition macro_open_len (l : list ascii) : option nat :=
  let bang := trivia_len l in
  let open := bang + 1 + trivia_len (drop (bang + 1) l) in
  if byte_is (l !! bang) "!" && (if l !! open is Some c then is_open c else false) then Some open else None.
Definition env_name (l : list ascii) : option string :=
  let start := trivia_len l in
  if byte_is (l !! start) dquote then
    let body := drop (start + 1) l in
    len ← quote_or_escape body;
    if byte_is (body !! len) dquote then ok (from_utf8 (take len body)) else None
  else None.
Definition concat_prefix (l : list ascii) : option string :=
  let start := trivia_len l in
  let rest := drop start l in
  let end_ := ident_len rest in
  if bytes_are (take end_ rest) "concat" then
    open ← macro_open_len (drop end_ rest); env_name (drop (open + 1) (drop end_ rest))
  else None.

Lemma byte_is_Some o c : byte_is o c = true <-> o = Some c.
Proof. destruct o as [b|]; simpl; [rewrite Ascii.eqb_eq|]; naive_solver. Qed.
Lemma lookup_within (l : list ascii) i c : l !! i = Some c -> i + 1 <= length l.
Proof. intros H%lookup_lt_Some. lia. Qed.
Lemma macro_open_len_le l k : macro_open_len l = Some k -> 1 <= k /\ k + 1 <= length l.
Proof.
  unfold macro_open_len. intros H. case_match eqn:Hb; [|done]. injection H as <-.
  apply andb_true_iff in Hb as [_ Ho]. split; [lia|]. destruct (l !! _) eqn:Hl in Ho; [|done]. by eapply lookup_within.
Qed.
Lemma quote_or_escape_le l n : quote_or_escape l = Some n -> exists c, l !! n = Some c.
Proof.
  revert n. induction l as [|c l IH]; intros n; simpl; [done|]. case_match; [intros [= <-]; eauto|].
  intros (n' & Hn & ->)%fmap_Some. simpl. by apply IH.
Qed.
Lemma raw_front_le l h q : raw_front l = Some (h, q) -> 1 <= q /\ q + 1 <= length l.
Proof.
  unfold raw_front. intros H. case_match eqn:Hb; [|done]. injection H as <- <-.
  apply andb_true_iff in Hb as [_ Hq%byte_is_Some]. split; [lia|]. by eapply lookup_within.
Qed.

Section Skips3.
Variables (passes : nat) (bytes : list ascii).
Hypothesis Hpasses : length bytes <= passes.

Lemma parse_macro_open_at i l : drop i bytes = l -> parse_macro_open passes bytes i = (fun k => i + k) <$> macro_open_len l.
Proof.
  intros Hd. unfold parse_macro_open, macro_open_len. rewrite (skip_trivia_at _ _ Hpasses _ _ Hd).
  rewrite (drop_lookup _ _ _ _ Hd). destruct (byte_is _ "!"); [|done]. cbn [negb andb].
  rewrite <- Nat.add_assoc, (skip_trivia_at _ _ Hpasses _ _ (drop_plus _ _ _ _ Hd)).
  rewrite <- Nat.add_assoc, (drop_lookup _ _ _ _ Hd). repeat case_match; done.
Qed.
Lemma parse_env_macro_name_at i l :
  drop i bytes = l -> i <= length bytes -> parse_env_macro_name passes bytes i = Ok (env_name l).
Proof.
  intros Hd Hi. unfold parse_env_macro_name, env_name. rewrite (skip_trivia_at _ _ Hpasses _ _ Hd).
  rewrite (drop_lookup _ _ _ _ Hd). destruct (byte_is _ dquote) eqn:Hq; [|done]. cbn [negb].
  apply byte_is_Some, lookup_within in Hq. pose proof (drop_left _ _ _ Hd Hi) as Hlen.
  pose proof (drop_plus _ _ (trivia_len l + 1) _ Hd) as Hd'. rewrite Nat.add_assoc in Hd'.
  rewrite (slice_from_at _ _ _ Hd') by lia. cbn [mbind result_bind].
  destruct (quote_or_escape _) as [n|] eqn:Hn; [|done]. pose proof (quote_or_escape_le _ _ Hn) as [c Hc].
  rewrite (index_at _ _ _ _ _ Hd' Hc). simpl. rewrite Hc. simpl. destruct (Ascii.eqb c dquote); [|done].
  rewrite (slice_range_at _ _ _ _ Hd') by (apply lookup_within in Hc; lia). done.
Qed.
Lemma parse_concat_prefix_at i l :
  drop i bytes = l -> i <= length bytes -> parse_concat_prefix passes bytes i = Ok (concat_prefix l).
Proof.
  intros Hd Hi. unfold parse_concat_prefix, concat_prefix. rewrite (skip_trivia_at _ _ Hpasses _ _ Hd).
  pose proof (drop_plus _ _ (trivia_len l) _ Hd) as Hr. pose proof (trivia_len_le l). pose proof (drop_left _ _ _ Hd Hi).
  pose proof (ident_len_le (drop (trivia_len l) l)) as Hle.
  rewrite (skip_ident_at _ _ Hpasses _ _ Hr), (slice_range_at _ _ _ _ Hr) by lia. cbn [mbind result_bind].
  destruct (bytes_are _ "concat"); [|done]. cbn [negb]. pose proof (drop_plus _ _ (ident_len (drop (trivia_len l) l)) _ Hr) as He.
  rewrite (parse_macro_open_at _ _ He). destruct (macro_open_len _) as [open|] eqn:Ho; [|done]. simpl.
  apply macro_open_len_le in Ho as [_ Ho]. rewrite !length_drop in *.
  rewrite <- Nat.add_assoc, (parse_env_macro_name_at _ _ (drop_plus _ _ _ _ He)) by lia. done.
Qed.

Lemma raw_string_starts_at_left i l :
  drop i bytes = l -> raw_string_starts_at passes bytes i = (fun hq => i + hq.2) <$> raw_front l.
Proof.
  intros Hd. unfold raw_string_starts_at, raw_front.
  pose proof (drop_lookup _ _ 0 _ Hd) as H0. rewrite Nat.add_0_r in H0. rewrite H0.
  set (k := if byte_is (l !! 0) "b" || byte_is (l !! 0) "c" then 1 else 0).
  replace (if _ || _ then i + 1 else i) with (i + k) by (unfold k; case_match; lia).
  rewrite (drop_lookup _ _ _ _ Hd). destruct (byte_is (l !! k) "r"); [|done]. cbn [negb andb].
  rewrite <- Nat.add_assoc. pose proof (drop_plus _ _ (k + 1) _ Hd) as Hk.
  rewrite (hash_passes _ _ _ _ Hk (left_within _ _ Hpasses _ _ Hk)), <- Nat.add_assoc, (drop_lookup _ _ _ _ Hd).
  by destruct (byte_is _ dquote).
Qed.
Lemma raw_close_at hashes i l :
  drop i bytes = l -> i <= length bytes ->
  raw_close bytes hashes (seq i (length l))
  = Ok (match raw_end hashes l with Some k => i + k | None => length bytes end).
Proof.
  revert i. induction l as [|c l IH]; intros i Hd Hi; simpl; [done|]. pose proof (drop_left _ _ _ Hd Hi) as Hlen.
  pose proof (drop_cons _ _ _ _ Hd) as (Hc & Hd1 & _). unfold index. rewrite Hc. simpl. simpl in Hlen.
  assert (raw_close bytes hashes (seq (S i) (length l))
    = Ok (match S <$> raw_end hashes l with Some k => i + k | None => length bytes end)) as Hnext.
  { rewrite <- Nat.add_1_r, (IH _ Hd1) by lia. destruct (raw_end hashes l); simpl; [f_equal; lia|done]. }
  destruct (Ascii.eqb c dquote); [|done]. simpl. unfold hashes_follow.
  destruct (Nat.ltb_spec (i + hashes) (length bytes)), (Nat.leb_spec hashes (length l)); try lia; [|done].
  rewrite (slice_range_at _ _ _ _ Hd1) by lia. simpl. destruct (forallb _ _); [|done]. f_equal. lia.
Qed.
Lemma skip_raw_string_at i l h q :
  drop i bytes = l -> i < length bytes -> raw_front l = Some (h, q) ->
  skip_raw_string passes bytes i
  = Ok (match raw_end h (drop (q + 1) l) with Some k => i + (q + 1 + k) | None => length bytes end).
Proof.
  intros Hd Hi Hr. unfold skip_raw_string. rewrite (raw_string_starts_at_left _ _ Hd), Hr. simpl.
  pose proof (raw_front_le _ _ _ Hr) as [_ Hq]. pose proof (drop_left _ _ _ Hd ltac:(lia)) as Hlen.
  destruct l as [|c l]; [simpl in *; lia|]. rewrite <- (Nat.add_0_r i) at 1. rewrite (index_at _ _ _ c _ Hd) by done. simpl.
  unfold usize_sub. rewrite (proj2 (Nat.leb_le _ _)) by lia. simpl.
  assert (q - (if Ascii.eqb c "r" then 0 else 1) = h + 1 /\ (if Ascii.eqb c "r" then 0 else 1) <= q) as [Hh Hle].
  { revert Hr. unfold raw_front. simpl. destruct (Ascii.eqb_spec c "r") as [->|Hn]; simpl.
    - case_match; [|done]. intros [= <- <-]. lia.
    - destruct (Ascii.eqb c "b" || Ascii.eqb c "c") eqn:Hbc; simpl.
      + case_match; [|done]. intros [= <- <-]. lia.
      + by rewrite (proj2 (Ascii.eqb_neq _ _) Hn). }
  replace (i + q - i) with q by lia. rewrite (proj2 (Nat.leb_le _ _)) by lia. simpl. rewrite Hh, Nat.add_sub.
  replace (match h + 1 with 0 => false | S _ => true end) with true by (destruct h; done). simpl.
  pose proof (drop_plus _ _ (q + 1) _ Hd) as Hd'. rewrite <- Nat.add_assoc.
  replace (length bytes - (i + (q + 1))) with (length (drop (q + 1) (c :: l))) by (rewrite length_drop; lia).
  rewrite (raw_close_at _ _ _ Hd') by lia. destruct (raw_end h _); [|done]. f_equal. lia.
Qed.
End Skips3.
