(* ===== verification/ScanTotal.v ===== *)
(** * Totality of the source scanner

    One pass of the main loop as a function of the bytes left, [left_pass], and
    the theorem that the scan answers for every input, whatever bound above the
    number of bytes its loops carry. *)

From S2P Require Import Prelude Strings Codec SourceScan ScanProofs.
#[local] Open Scope string_scope.
#[local] Open Scope nat_scope.
#[local] Open Scope record_scope.

(** ** The width of the first character *)

Lemma chars_head s c : head (chars s) = Some c -> 1 <= String.length c.2 <= String.length s.
Proof.
  destruct s as [|a s]; [done|]. cbn [chars]. repeat case_match; simpl; intros [= <-]; simpl; lia.
Qed.
Lemma length_string_of_list l : String.length (string_of_list_ascii l) = length l.
Proof. induction l; simpl; congruence. Qed.
Lemma first_char_len_le l w : first_char_len (string_of_list_ascii l) = Some w -> w <= length l.
Proof.
  unfold first_char_len. intros (c & Hc & ->)%fmap_Some. apply chars_head in Hc. rewrite length_string_of_list in Hc. lia.
Qed.
Lemma from_utf8_Ok l s : from_utf8 l = Ok s -> s = string_of_list_ascii l.
Proof. unfold from_utf8. by destruct (utf8_error _ _ _); intros [= <-]. Qed.
Lemma utf8_error_len n at_ l e k :
  utf8_error n at_ l = Some e -> at_ <= valid_up_to e
  /\ (error_len e = Some k -> valid_up_to e + k <= at_ + length l).
Proof.
  revert at_ l. induction n as [|n IH]; intros at_ [|a l]; cbn [utf8_error]; try done.
  destruct (utf8_step a l) as [w|o] eqn:Hw.
  - intros [H1 H2]%IH. split; [lia|]. intros Hk. specialize (H2 Hk). rewrite length_drop in H2.
    revert Hw. unfold utf8_step. repeat case_match; intros; simplify_eq/=; lia.
  - intros [= <-]. simpl. split; [lia|]. intros ->. revert Hw. unfold utf8_step.
    repeat case_match; intros; simplify_eq/=; lia.
Qed.
Lemma first_lossy_char_len_le l w : first_lossy_char_len l = Some w -> w <= length l.
Proof.
  unfold first_lossy_char_len. set (prefix := take (length l `min` 4) l).
  assert (length prefix <= length l) as Hp by (subst prefix; rewrite length_take; lia).
  destruct (from_utf8 prefix) as [s|e] eqn:Hu.
  - apply from_utf8_Ok in Hu as ->. intros Hw%first_char_len_le. lia.
  - case_match.
    + destruct (from_utf8 (take _ _)) as [s|] eqn:Ht; simpl; [|done]. apply from_utf8_Ok in Ht as ->.
      intros Hw%first_char_len_le. rewrite length_take in Hw. lia.
    + intros [= <-]. unfold from_utf8 in Hu. destruct (utf8_error _ _ _) as [e'|] eqn:He; [|done]. injection Hu as ->.
      destruct (error_len e) as [k|] eqn:Hk; simpl; [|lia]. eapply utf8_error_len in He as [_ He]. specialize (He Hk). lia.
Qed.

(** ** One pass *)

(** The literal opened by the double or the single quote at the front. *)
Definition quoted_len (l : list ascii) : nat :=
  if literal_len dquote (drop 1 l) is Some k then 1 + k else length l.
Definition char_len (l : list ascii) : nat :=
  if byte_is (l !! 1) backslash then if literal_len squote (drop 1 l) is Some k then 1 + k else length l
  else match first_lossy_char_len (drop 1 l) with
  | None => length l
  | Some width => if byte_is (l !! (1 + width)) squote then 1 + width + 1 else 1
  end.
Definition raw_len (l : list ascii) (h q : nat) : nat :=
  if raw_end h (drop (q + 1) l) is Some k then q + 1 + k else length l.

Definition env_left (var : string) (l : list ascii) (s : Scan) : option Scan :=
  match env_name l with
  | Some name =>
      if negb (String.eqb name var) then Some s
      else if 0 <? sc_include_depth s then Some (s <| sc_include_locator := true |>) else None
  | None =>
      if 0 <? sc_include_depth s then Some s
      else if (if concat_prefix l is Some prefix then negb (starts_with prefix var) else false)
      then Some (s <| sc_concat_prefix := true |>) else None
  end.
(** The identifier [name], with [open] the offset of its macro delimiter. *)
Definition noted (name : list ascii) (macro : bool) (s : Scan) : Scan :=
  s <| sc_use_item ::= fun u => u || bytes_are name "use" |>
    <| sc_concat_binding ::= fun c => c || (bytes_are name "macro_use" || (bytes_are name "concat" && negb macro)) |>.
Definition opened (include : bool) (s : Scan) : Scan :=
  s <| sc_groups ::= cons include |> <| sc_include_depth ::= fun d => d + Nat.b2n include |>.
Definition closed (s : Scan) : Scan :=
  s <| sc_groups ::= tail |>
    <| sc_include_depth ::= fun d => if head (sc_groups s) is Some true then d - 1 else d |>.
Definition ident_left (var : string) (l : list ascii) (s : Scan) : Pass Scan SourceEnvDepUse :=
  let n := ident_len l in
  let name := take n l in
  match macro_open_len (drop n l) with
  | None => Next ((noted name false s) <| sc_i ::= fun i => i + n |>)
  | Some open =>
      match (if is_env_macro name then env_left var (drop (n + open + 1) l) (noted name true s)
             else Some (noted name true s)) with
      | None => Return RuntimeValue
      | Some s => Next ((opened (is_include_macro name) s) <| sc_i ::= fun i => i + (n + open + 1) |>)
      end
  end.
Definition left_pass (var : string) (l : list ascii) (s : Scan) : Pass Scan SourceEnvDepUse :=
  let go k s := Next (s <| sc_i ::= fun i => i + k |>) in
  match l with
  | [] => Break s
  | byte :: _ =>
      if 0 <? whitespace_front l then go (whitespace_front l) s
      else if comment_front l then go (comment_len l) s
      else if Ascii.eqb byte dquote then go (quoted_len l) s
      else if Ascii.eqb byte squote then go (char_len l) s
      else match raw_front l with
      | Some (h, q) => go (raw_len l h q) s
      | None =>
          if Ascii.eqb byte ";" then go 1 (s <| sc_use_item := false |>)
          else if Ascii.eqb byte "*" && sc_use_item s then go 1 (s <| sc_concat_binding := true |>)
          else if is_open byte then go 1 (opened false s)
          else if is_close byte then go 1 (closed s)
          else if is_ascii_digit byte then go (ident_len l) s
          else if is_ident_start byte then ident_left var l s
          else go 1 s
      end
  end.

(** The include depth counts the open include groups. *)
Definition open_includes (groups : list bool) : nat := foldr (fun b n => Nat.b2n b + n) 0 groups.
Definition depth_ok (s : Scan) : Prop := sc_include_depth s = open_includes (sc_groups s).

Section Pass.
Variables (passes : nat) (bytes : list ascii) (var : string).
Hypothesis Hpasses : length bytes <= passes.

Lemma env_macro_at open l s :
  drop (open + 1) bytes = l -> open + 1 <= length bytes -> env_macro passes bytes var open s = Ok (env_left var l s).
Proof.
  intros Hd Hi. unfold env_macro, env_left. rewrite (parse_env_macro_name_at _ _ Hpasses _ _ Hd Hi). simpl.
  destruct (env_name l); [by repeat case_match|]. case_match; [done|].
  rewrite (parse_concat_prefix_at _ _ Hpasses _ _ Hd Hi). simpl. by destruct (concat_prefix l); [case_match|].
Qed.
Lemma scan_ident_at s l :
  drop (sc_i s) bytes = l -> sc_i s <= length bytes -> scan_ident passes bytes var s = Ok (ident_left var l s).
Proof.
  intros Hd Hi. unfold scan_ident, ident_left. pose proof (ident_len_le l) as Hn.
  pose proof (drop_left _ _ _ Hd Hi) as Hlen.
  rewrite (skip_ident_at _ _ Hpasses _ _ Hd), (slice_range_at _ _ _ _ Hd) by lia. cbn [mbind result_bind].
  pose proof (drop_plus _ _ (ident_len l) _ Hd) as Hr. rewrite (parse_macro_open_at _ _ Hpasses _ _ Hr).
  destruct s as [i gs d il cp cb ui]. cbn [sc_i] in *.
  destruct (macro_open_len _) as [open|] eqn:Ho; [|done]. cbn [fmap option_fmap option_map].
  apply macro_open_len_le in Ho as [_ Ho]. rewrite length_drop in Ho.
  pose proof (drop_plus _ _ (ident_len l + open + 1) _ Hd) as Hopen.
  replace (i + (ident_len l + open + 1)) with (i + ident_len l + open + 1) in Hopen by lia.
  destruct (is_env_macro _).
  - rewrite (env_macro_at _ _ _ Hopen) by lia. unfold env_left, opened, noted, set. cbn -[Nat.ltb].
    destruct (env_name _) as [name|]; [destruct (negb _)|]; destruct (0 <? d); cbn -[Nat.ltb]; rewrite ?Nat.add_assoc; try done.
    destruct (concat_prefix _) as [p|]; [destruct (negb _)|]; cbn; by rewrite ?Nat.add_assoc.
  - unfold opened, noted, set. cbn. by rewrite !Nat.add_assoc.
Qed.
Lemma scan_close_at s : depth_ok s -> scan_close s = Ok ((closed s) <| sc_i ::= fun i => i + 1 |>).
Proof.
  destruct s as [i gs d il cp cb ui]. unfold scan_close, closed, depth_ok, usize_sub. cbn.
  destruct gs as [|[] gs]; cbn; intros ->; done.
Qed.
Lemma skip_char_at i l :
  drop i bytes = squote :: l ->
  skip_char_literal_or_lifetime passes bytes i = Ok (i + char_len (squote :: l)).
Proof.
  intros Hd. unfold skip_char_literal_or_lifetime, char_len. rewrite (drop_lookup _ _ 1 _ Hd).
  pose proof (drop_plus _ _ 1 _ Hd) as H1. pose proof (drop_cons _ _ _ _ Hd) as (_ & _ & Hi).
  pose proof (drop_left _ _ _ Hd ltac:(lia)) as Hlen. destruct (byte_is _ backslash).
  - unfold skip_char_literal. rewrite (skip_literal_at _ _ Hpasses _ _ _ H1). f_equal. case_match; lia.
  - rewrite (slice_from_at _ _ _ H1) by lia. cbn [mbind result_bind].
    destruct (first_lossy_char_len _) as [w|]; [|f_equal; lia].
    rewrite <- Nat.add_assoc, (drop_lookup _ _ _ _ Hd). f_equal. case_match; lia.
Qed.

Lemma raw_front_first l h q c : raw_front (c :: l) = Some (h, q) -> Ascii.eqb c "b" || Ascii.eqb c "c" || Ascii.eqb c "r" = true.
Proof.
  unfold raw_front. cbn [lookup list_lookup byte_is]. destruct (Ascii.eqb c "b"), (Ascii.eqb c "c"); [done..|]. simpl.
  by destruct (Ascii.eqb c "r").
Qed.

(** A pass depends on the bytes left, not on the bound, and never panics. *)
Lemma scan_pass_at s l :
  drop (sc_i s) bytes = l -> sc_i s <= length bytes -> depth_ok s ->
  scan_pass passes bytes var s = Ok (left_pass var l s).
Proof.
  intros Hd Hi Hok. unfold scan_pass, left_pass. destruct l as [|c l]; [by rewrite (drop_nil _ _ Hd)|].
  pose proof (drop_cons _ _ _ _ Hd) as (Hc & _ & Hlt). rewrite Hc. pose proof (drop_left _ _ _ Hd Hi) as Hlen.
  unfold rust_whitespace_len. rewrite Hd. destruct (0 <? _); [by destruct s|].
  rewrite (comment_starts_left _ _ _ Hd).
  replace (Ascii.eqb c "/" && comment_front (c :: l)) with (comment_front (c :: l))
    by (cbn; destruct (Ascii.eqb c "/"), l; done).
  destruct (comment_front _) eqn:Hcf; [by rewrite (skip_comment_at _ _ Hpasses _ _ Hd Hcf); destruct s|].
  destruct (Ascii.eqb c dquote).
  { unfold skip_quoted_string, quoted_len. rewrite (skip_literal_at _ _ Hpasses _ _ _ (drop_plus _ _ 1 _ Hd)).
    destruct s; unfold set; cbn in *. do 3 f_equal. destruct (literal_len _ _); lia. }
  destruct (Ascii.eqb_spec c squote) as [->|_]; [by rewrite (skip_char_at _ _ Hd); destruct s|].
  rewrite (raw_string_starts_at_left _ _ Hpasses _ _ Hd).
  destruct (raw_front (c :: l)) as [[h q]|] eqn:Hr.
  { rewrite (raw_front_first _ _ _ _ Hr). cbn [andb fmap option_fmap option_map].
    rewrite bool_decide_true by done. rewrite (skip_raw_string_at _ _ Hpasses _ _ _ _ Hd Hlt Hr).
    cbn [mbind result_bind]. unfold raw_len. destruct s; unfold set; cbn in *. do 3 f_equal.
    destruct (raw_end _ _); lia. }
  cbn [fmap option_fmap option_map]. rewrite bool_decide_false by (by intros []). rewrite andb_false_r.
  destruct (Ascii.eqb c ";"); [by destruct s|]. destruct (_ && sc_use_item s); [by destruct s|].
  destruct (is_open c); [destruct s; unfold opened, set; cbn; by rewrite Nat.add_0_r|].
  destruct (is_close c); [by rewrite (scan_close_at _ Hok); destruct s|].
  destruct (is_ascii_digit c); [by rewrite (skip_ident_at _ _ Hpasses _ _ Hd); destruct s|].
  destruct (is_ident_start c); [by apply scan_ident_at|by destruct s].
Qed.
End Pass.

(** ** Progress *)

Lemma quoted_len_le c l : 1 <= quoted_len (c :: l) <= length (c :: l).
Proof. unfold quoted_len. simpl. destruct (literal_len _ _) eqn:H; [apply literal_len_le in H|]; rewrite ?drop_0 in *; lia. Qed.
Lemma char_len_le c l : 1 <= char_len (c :: l) <= length (c :: l).
Proof.
  unfold char_len. cbn [drop]. rewrite drop_0. destruct (byte_is _ backslash).
  { destruct (literal_len _ _) eqn:H; [apply literal_len_le in H|]; simpl; lia. }
  destruct (first_lossy_char_len l) as [w|] eqn:Hw; [|simpl; lia]. apply first_lossy_char_len_le in Hw.
  destruct (byte_is _ squote) eqn:Hq; [apply byte_is_Some, lookup_within in Hq|]; simpl in *; lia.
Qed.
Lemma raw_len_le l h q : raw_front l = Some (h, q) -> 1 <= raw_len l h q <= length l.
Proof.
  intros Hr%raw_front_le. unfold raw_len. destruct (raw_end _ _) eqn:He; [|lia].
  apply raw_end_le in He. rewrite length_drop in He. lia.
Qed.
Lemma ident_len_pos c l :
  whitespace_front (c :: l) = 0 -> is_ident_start c || is_ascii_digit c = true -> 1 <= ident_len (c :: l).
Proof. intros Hw Hc. cbn [ident_len]. rewrite Hw, Hc. simpl. lia. Qed.

(** What a pass that goes on may do to the state. *)
Definition advances (l : list ascii) (s s' : Scan) : Prop :=
  depth_ok s' /\ sc_i s < sc_i s' <= sc_i s + length l.

Lemma env_left_fields var l s s' :
  env_left var l s = Some s' ->
  sc_i s' = sc_i s /\ sc_groups s' = sc_groups s /\ sc_include_depth s' = sc_include_depth s.
Proof. unfold env_left. intros H. repeat case_match; simplify_eq/=; done. Qed.
Lemma ident_left_advances var l s s' :
  1 <= ident_len l -> depth_ok s -> ident_left var l s = Next s' -> advances l s s'.
Proof.
  intros Hn Hok. unfold ident_left. pose proof (ident_len_le l) as Hle.
  destruct (macro_open_len _) as [open|] eqn:Ho.
  - apply macro_open_len_le in Ho as [_ Ho]. rewrite length_drop in Ho.
    set (after := if is_env_macro _ then _ else _). destruct after as [s1|] eqn:Ha; [|done]. intros [= <-].
    assert (sc_i s1 = sc_i s /\ sc_groups s1 = sc_groups s /\ sc_include_depth s1 = sc_include_depth s) as (H1 & H2 & H3).
    { subst after. destruct (is_env_macro _); [by apply env_left_fields in Ha|by injection Ha as <-]. }
    unfold advances, depth_ok, opened, set in *. cbn. rewrite H1, H2, H3, Hok. unfold open_includes. simpl. lia.
  - intros [= <-]. unfold advances. split; [by destruct s|]. cbn. lia.
Qed.
Lemma left_pass_advances var l s s' : depth_ok s -> left_pass var l s = Next s' -> advances l s s'.
Proof.
  intros Hok. destruct l as [|c l]; [done|]. unfold left_pass.
  assert (forall k s1, 1 <= k <= length (c :: l) -> depth_ok s1 -> sc_i s1 = sc_i s ->
    @Next _ SourceEnvDepUse (s1 <| sc_i ::= fun i => i + k |>) = Next s' -> advances (c :: l) s s') as Hgo.
  { intros k s1 Hk Hs1 Hi Hs'. assert (s' = s1 <| sc_i ::= fun i => i + k |>) as -> by congruence. split; [by destruct s1|]. cbn. rewrite Hi. cbn in Hk. lia. }
  pose proof (whitespace_front_le (c :: l)). assert (1 <= length (c :: l)) by (simpl; lia).
  destruct (Nat.ltb_spec 0 (whitespace_front (c :: l))) as [|Hw]; [apply Hgo; [lia|done..]|].
  destruct (comment_front (c :: l)) eqn:Hc; [apply comment_len_le in Hc; apply Hgo; [lia|done..]|].
  destruct (Ascii.eqb c dquote); [apply Hgo; [apply quoted_len_le|done..]|].
  destruct (Ascii.eqb c squote); [apply Hgo; [apply char_len_le|done..]|].
  destruct (raw_front (c :: l)) as [[h q]|] eqn:Hr; [apply Hgo; [by apply raw_len_le|done..]|].
  destruct (Ascii.eqb c ";"); [apply Hgo; [lia|by destruct s..]|].
  destruct (_ && sc_use_item s); [apply Hgo; [lia|by destruct s..]|].
  destruct (is_open c); [apply Hgo; [lia| |done]; unfold depth_ok, open_includes in *; cbn; rewrite Hok; cbn; lia|].
  destruct (is_close c).
  { apply Hgo; [lia| |done]. unfold depth_ok, open_includes in *. cbn. rewrite Hok. destruct (sc_groups s) as [|[] gs]; cbn; lia. }
  pose proof (ident_len_le (c :: l)).
  destruct (is_ascii_digit c) eqn:Hd.
  { apply Hgo; [|done..]. split; [|done]. apply ident_len_pos; [lia|]. by rewrite Hd, orb_true_r. }
  destruct (is_ident_start c) eqn:Hs; [|apply Hgo; [lia|done..]].
  apply ident_left_advances; [|done]. apply ident_len_pos; [lia|]. by rewrite Hs.
Qed.
Lemma left_pass_break var l s s' : left_pass var l s = Break s' -> l = [] /\ s' = s.
Proof.
  destruct l as [|c l]; [by intros [= <-]|]. unfold left_pass, ident_left.
  repeat (case_match; try done).
Qed.

(** ** The scan by the bytes left *)

(** The main loop on the suffix at [sc_i s]; [n] passes are enough when they
    reach the number of bytes left. *)
Fixpoint left_scan (var : string) (bytes : list ascii) (n : nat) (s : Scan) : Scan + SourceEnvDepUse :=
  match n with
  | O => inl s
  | S n =>
      match left_pass var (drop (sc_i s) bytes) s with
      | Next s => left_scan var bytes n s
      | Break s => inl s
      | Return u => inr u
      end
  end.

Section Total.
Variables (bytes : list ascii) (var : string).

Lemma scan_passes_at passes n s :
  length bytes <= passes -> sc_i s <= length bytes -> depth_ok s ->
  scan_passes passes bytes var n s = Ok (left_scan var bytes n s).
Proof.
  intros Hp. revert s. induction n as [|n IH]; intros s Hi Hok; simpl; [done|].
  rewrite (scan_pass_at _ _ _ Hp _ _ eq_refl Hi Hok). simpl.
  destruct (left_pass _ _ _) as [s'| |] eqn:Hs; [|done..].
  apply left_pass_advances in Hs as [Hok' Hi']; [|done]. rewrite length_drop in Hi'. apply IH; [lia|done].
Qed.
Lemma left_scan_enough n m s :
  sc_i s <= length bytes -> depth_ok s -> length bytes - sc_i s <= n -> length bytes - sc_i s <= m ->
  left_scan var bytes n s = left_scan var bytes m s.
Proof.
  revert m s. induction n as [|n IH]; intros [|m] s Hi Hok Hn Hm; simpl; [done| | |].
  1,2: rewrite drop_ge by lia; done.
  destruct (left_pass _ _ _) as [s'| |] eqn:Hs; [|done..].
  apply left_pass_advances in Hs as [Hok' Hi']; [|done]. rewrite length_drop in Hi'. apply IH; [lia|done|lia..].
Qed.
End Total.

(** The answer for the bytes, by the bytes left. *)
Definition left_answer (bytes : list ascii) (var : string) : SourceEnvDepUse :=
  match left_scan var bytes (length bytes) scan_start with inl s => scan_answer s | inr u => u end.
Lemma source_scan_at passes bytes var :
  length bytes <= passes -> source_scan passes bytes var = Ok (left_answer bytes var).
Proof.
  intros Hp. unfold source_scan, left_answer. rewrite scan_passes_at by (done || simpl; lia). simpl.
  rewrite (left_scan_enough _ _ passes (length bytes)) by (done || simpl; lia). done.
Qed.

(** C29. The scan answers for every input: no slice, index or subtraction panics,
    and a larger bound on its loops changes nothing. *)
Theorem scan_is_total (bytes : list ascii) (var : string) (passes : nat) :
  length bytes <= passes ->
  exists u, source_env_dep_use_bytes bytes var = Ok u /\ source_scan passes bytes var = Ok u.
Proof. intros Hp. exists (left_answer bytes var). split; by apply source_scan_at. Qed.
