(* ===== verification/ScanSpec.v ===== *)
(** * What a source says of a variable, by its tokens

    A reference for the source scanner: a source is a list of lexemes, and the
    uses of a variable are stated on that list.  [lexed] says that the text of
    each lexeme is what Rust reads there, by longest match. *)

From S2P Require Import Prelude Strings Codec SourceScan ScanProofs ScanTotal.
#[local] Open Scope string_scope.
#[local] Open Scope nat_scope.

(** ** Lexemes *)

(** A byte or C string literal is its prefix, a word, and a string; a raw
    identifier is the word [r], a hash and a word; a lifetime is a tick and a word. *)
Inductive Lexeme :=
| LSpace (ws : list ascii)
| LLine (text : list ascii)
| LBlock (text : list ascii)  (* with its closing mark *)
| LStr (body : list ascii)
| LRaw (prefix : list ascii) (hashes : nat) (body : list ascii)
| LChar (body : list ascii)
| LTick
| LNum (digits : list ascii)
| LWord (name : list ascii)
| LByte (c : ascii).

Definition hash_marks (n : nat) : list ascii := repeat "#"%char n.
Definition raw_close_mark (hashes : nat) : list ascii := dquote :: hash_marks hashes.
Definition text_of (lx : Lexeme) : list ascii :=
  match lx with
  | LSpace ws => ws
  | LLine text => "/"%char :: "/"%char :: text
  | LBlock text => "/"%char :: "*"%char :: text
  | LStr body => dquote :: body ++ [dquote]
  | LRaw prefix hashes body => prefix ++ "r"%char :: hash_marks hashes ++ dquote :: body ++ raw_close_mark hashes
  | LChar body => squote :: body ++ [squote]
  | LTick => [squote]
  | LNum digits => digits
  | LWord name => name
  | LByte c => [c]
  end%list.
Definition source_of (lxs : list Lexeme) : list ascii := concat (map text_of lxs).

(** The width of the valid character at the front. *)
Definition char_width (l : list ascii) : option nat :=
  if l is a :: rest then if utf8_step a rest is Utf8Char w then Some w else None else None.
Definition is_escape (l : list ascii) : bool := byte_is (l !! 0) backslash.
Definition closes_at_end (close : ascii) (body : list ascii) : bool :=
  bool_decide (literal_len close (body ++ [close]) = Some (length body + 1)).

(** [lx] is the lexeme at the front of its text and the text [rest] after it. *)
Definition lexeme_ok (lx : Lexeme) (rest : list ascii) : bool :=
  match lx with
  | LSpace ws => (0 <? length ws) && (whitespace_front ws =? length ws)
  | LLine text => negb (existsb (Ascii.eqb newline) text) && ((length rest =? 0) || byte_is (rest !! 0) newline)
  | LBlock text => bool_decide (block_len 1 text = Some (length text))
  | LStr body => closes_at_end dquote body
  | LRaw prefix hashes body =>
      (bytes_are prefix "" || bytes_are prefix "b" || bytes_are prefix "c")
      && bool_decide (raw_end hashes (body ++ raw_close_mark hashes)
                      = Some (length body + length (raw_close_mark hashes)))
  | LChar body =>
      if is_escape body then closes_at_end squote body
      else bool_decide (char_width (body ++ squote :: rest)%list = Some (length body))
  | LTick =>
      negb (is_escape rest)
      && (if char_width rest is Some w then negb (byte_is (rest !! w) squote) else false)
  | LNum digits =>
      (if digits is c :: _ then is_ascii_digit c else false)
      && (ident_len (digits ++ rest) =? length digits)
  | LWord name =>
      (if name is c :: _ then is_ident_start c else false)
      && (ident_len (name ++ rest) =? length name)
      && negb (bool_decide (is_Some (raw_front (name ++ rest))))
  | LByte c =>
      (whitespace_front (c :: rest) =? 0) && negb (comment_front (c :: rest))
      && negb (Ascii.eqb c dquote || Ascii.eqb c squote || is_ascii_digit c || is_ident_start c)
  end.
Fixpoint lexed (lxs : list Lexeme) : bool :=
  match lxs with
  | [] => true
  | lx :: lxs => lexeme_ok lx (source_of lxs) && lexed lxs
  end.

(** ** Macro calls *)

Definition is_trivia (lx : Lexeme) : bool :=
  match lx with LSpace _ | LLine _ | LBlock _ => true | _ => false end.
Fixpoint after_trivia (lxs : list Lexeme) : list Lexeme :=
  match lxs with
  | [] => []
  | lx :: rest => if is_trivia lx then after_trivia rest else lxs
  end.
(** What follows [! (], [! \[] or [! {]. *)
Definition macro_args (after_word : list Lexeme) : option (list Lexeme) :=
  match after_trivia after_word with
  | LByte c :: rest =>
      if Ascii.eqb c "!" then
        match after_trivia rest with
        | LByte d :: args => if is_open d then Some args else None
        | _ => None
        end
      else None
  | _ => None
  end.
(** The name of the macro whose arguments open here; [before] is the text
    before the delimiter, last lexeme first. *)
Definition macro_name (before : list Lexeme) : option (list ascii) :=
  match after_trivia before with
  | LByte c :: rest =>
      if Ascii.eqb c "!" then match after_trivia rest with LWord name :: _ => Some name | _ => None end else None
  | _ => None
  end.
(** The first argument as a string literal without escapes. *)
Definition literal_arg (args : list Lexeme) : option string :=
  match after_trivia args with
  | LStr body :: _ => if existsb (Ascii.eqb backslash) body then None else ok (from_utf8 body)
  | _ => None
  end.
Definition concat_arg (args : list Lexeme) : option string :=
  match after_trivia args with
  | LWord name :: rest => if bytes_are name "concat" then args ← macro_args rest; literal_arg args else None
  | _ => None
  end.

(** ** Uses of a variable *)

(** The open delimiters, innermost first: does each open an include macro? *)
Fixpoint groups_at (before : list Lexeme) : list bool :=
  match before with
  | [] => []
  | LByte c :: before =>
      if is_open c then (if macro_name before is Some name then is_include_macro name else false) :: groups_at before
      else if is_close c then tail (groups_at before)
      else groups_at before
  | _ :: before => groups_at before
  end.
Definition in_include (before : list Lexeme) : bool := existsb id (groups_at before).
(** A [use] that no semicolon has ended. *)
Fixpoint in_use_item (before : list Lexeme) : bool :=
  match before with
  | [] => false
  | LByte c :: before => if Ascii.eqb c ";" then false else in_use_item before
  | LWord name :: before => bytes_are name "use" || in_use_item before
  | _ :: before => in_use_item before
  end.

(** Some lexeme, with what comes before it (last first) and after it, satisfies [p]. *)
Fixpoint somewhere (p : list Lexeme -> Lexeme -> list Lexeme -> bool) (before lxs : list Lexeme) : bool :=
  match lxs with
  | [] => false
  | lx :: after => p before lx after || somewhere p (lx :: before) after
  end.
Definition env_call (before : list Lexeme) (lx : Lexeme) : bool :=
  if lx is LByte c then is_open c && (if macro_name before is Some name then is_env_macro name else false) else false.
(** The computed name of the variable cannot be [var]. *)
Definition excluded (var : string) (args : list Lexeme) : bool :=
  if concat_arg args is Some prefix then negb (starts_with prefix var) else false.

(** The value of [var] is read, or may be, outside the arguments of an include. *)
Definition reads_value (var : string) : list Lexeme -> bool :=
  somewhere (fun before lx args =>
    env_call before lx && negb (in_include before)
    && match literal_arg args with Some name => String.eqb name var | None => negb (excluded var args) end) [].
(** [var] is named inside the arguments of an include. *)
Definition locates_include (var : string) : list Lexeme -> bool :=
  somewhere (fun before lx args =>
    env_call before lx && in_include before
    && match literal_arg args with Some name => String.eqb name var | None => false end) [].
(** A name is computed outside the includes, and its prefix excludes [var]. *)
Definition relies_on_prefix (var : string) : list Lexeme -> bool :=
  somewhere (fun before lx args =>
    env_call before lx && negb (in_include before)
    && match literal_arg args with Some _ => false | None => excluded var args end) [].
(** A definition, an import or an attribute may bind [concat!]. *)
Definition binds_concat : list Lexeme -> bool :=
  somewhere (fun before lx after =>
    match lx with
    | LWord name =>
        bytes_are name "macro_use" || (bytes_are name "concat" && negb (bool_decide (is_Some (macro_args after))))
    | LByte c => Ascii.eqb c "*" && in_use_item before
    | _ => false
    end) [].

Definition expected_use (var : string) (lxs : list Lexeme) : SourceEnvDepUse :=
  if reads_value var lxs || (relies_on_prefix var lxs && binds_concat lxs) then RuntimeValue
  else if relies_on_prefix var lxs then ConcatPrefix (locates_include var lxs)
  else if binds_concat lxs then ConcatBinding (locates_include var lxs)
  else if locates_include var lxs then IncludeLocator
  else Unused.
