(* ===== verification/ScanLexemes.v ===== *)
(** * The source scanner reads tokens

    The scanner on the text of a list of lexemes answers what the reference of
    [ScanSpec] says of the lexemes: no comment, string, raw string, character
    or lifetime hides a use of a variable or makes one up. *)

From S2P Require Import Prelude Strings Codec SourceScan ScanProofs ScanTotal ScanSpec.
#[local] Open Scope string_scope.
#[local] Open Scope nat_scope.
#[local] Open Scope record_scope.

(** ** What comes after a lexeme does not change where it ends *)

Lemma block_len_app depth l rest k : block_len depth l = Some k -> block_len depth (l ++ rest) = Some k.
Proof.
  remember (length l) as n eqn:Hn. revert depth l k Hn.
  induction n as [n IH] using lt_wf_ind. intros depth [|c [|d l]] k Hn; try done. simpl in Hn.
  change ((c :: d :: l) ++ rest)%list with (c :: d :: (l ++ rest))%list.
  assert (forall t, block_len depth (c :: d :: t) =
    (if Ascii.eqb c "/" && Ascii.eqb d "*" then (fun n => 2 + n) <$> block_len (depth + 1) t
     else if Ascii.eqb c "*" && Ascii.eqb d "/" then
       if depth - 1 =? 0 then Some 2 else (fun n => 2 + n) <$> block_len (depth - 1) t
     else S <$> block_len depth (d :: t))) as Heq by done.
  rewrite !Heq. destruct (_ && _); [|destruct (_ && _); [destruct (_ =? 0); [done|]|]].
  all: intros (k' & Hk & ->)%fmap_Some.
  - by rewrite (IH (length l) ltac:(lia) _ _ _ eq_refl Hk).
  - by rewrite (IH (length l) ltac:(lia) _ _ _ eq_refl Hk).
  - pose proof (IH (S (length l)) ltac:(lia) _ (d :: l) _ eq_refl Hk) as H. cbn [app] in H. by rewrite H.
Qed.
Lemma literal_len_app close l rest k : literal_len close l = Some k -> literal_len close (l ++ rest) = Some k.
Proof.
  remember (length l) as n eqn:Hn. revert l k Hn.
  induction n as [n IH] using lt_wf_ind. intros [|c l] k Hn; try done. simpl in *.
  destruct (Ascii.eqb c backslash); [destruct l as [|d l]; [done|]|destruct (Ascii.eqb c close); [done|]]; simpl in *.
  all: intros (k' & Hk & ->)%fmap_Some; eapply IH in Hk; [|..|reflexivity]; [by rewrite Hk|lia].
Qed.
Lemma raw_end_room hashes l k : raw_end hashes l = Some k -> 1 + hashes <= length l.
Proof.
  revert k. induction l as [|c l IH]; intros k; simpl; [done|]. destruct (_ && _) eqn:Hc.
  - apply andb_true_iff in Hc as [_ [Hh%Nat.leb_le _]%andb_true_iff]. lia.
  - intros (k' & Hk%IH & ->)%fmap_Some. lia.
Qed.
Lemma hashes_follow_app hashes l rest : hashes <= length l -> hashes_follow hashes (l ++ rest) = hashes_follow hashes l.
Proof.
  intros H. unfold hashes_follow. rewrite take_app_le by lia. rewrite length_app.
  do 2 (rewrite (proj2 (Nat.leb_le _ _)) by lia). done.
Qed.
Lemma raw_end_app hashes l rest k : raw_end hashes l = Some k -> raw_end hashes (l ++ rest) = Some k.
Proof.
  revert k. induction l as [|c l IH]; intros k; [done|]. intros Hk. pose proof (raw_end_room _ _ _ Hk) as Hr.
  simpl in *. rewrite hashes_follow_app by lia. destruct (_ && _); [done|].
  apply fmap_Some in Hk as (k' & Hk & ->). by rewrite (IH _ Hk).
Qed.
Lemma whitespace_front_app ws rest :
  0 < length ws -> whitespace_front ws = length ws -> whitespace_front (ws ++ rest) = length ws.
Proof.
  intros H0 Hw. destruct ws as [|a [|b [|c [|d ws]]]]; simpl in H0; [lia|..]; revert Hw.
  all: unfold whitespace_front; simpl; repeat (case_match; try done).
Qed.
Lemma line_len_app text rest :
  existsb (Ascii.eqb newline) text = false -> (length rest =? 0) || byte_is (rest !! 0) newline = true ->
  line_len (text ++ rest) = length text.
Proof.
  intros Ht Hr. induction text as [|c text IH]; cbn [existsb line_len app length] in *.
  - destruct rest as [|c rest]; [done|]. simpl in *. by rewrite Hr.
  - apply orb_false_iff in Ht as [Hc Ht]. rewrite Ascii.eqb_sym, Hc. by rewrite (IH Ht).
Qed.
Lemma hashes_len_marks n rest : hashes_len (hash_marks n ++ dquote :: rest) = n.
Proof. unfold hash_marks. induction n as [|n IH]; simpl; [done|by rewrite IH]. Qed.

(** ** Characters *)

Lemma utf8_step_width a rest w : utf8_step a rest = Utf8Char w -> 1 <= w <= 1 + length rest.
Proof. unfold utf8_step. repeat case_match; intros; simplify_eq/=; lia. Qed.
Lemma utf8_step_take a rest w j : utf8_step a rest = Utf8Char w -> w <= S j -> utf8_step a (take j rest) = Utf8Char w.
Proof.
  destruct rest as [|b [|c [|d rest]]], j as [|[|[|j]]]; unfold utf8_step; simpl; intros H Hj; try done.
  all: repeat (case_match; simplify_eq/=; try done; try lia).
Qed.
Lemma utf8_valid_prefix n m at_ l e :
  utf8_error n at_ l = Some e -> utf8_error m at_ (take (valid_up_to e - at_) l) = None.
Proof.
  revert m at_ l. induction n as [|n IH]; intros m at_ [|a l]; cbn [utf8_error]; try done.
  destruct (utf8_step a l) as [w|o] eqn:Hw.
  - intros He. pose proof (utf8_error_len _ _ _ _ 0 He) as [Hv _]. pose proof (utf8_step_width _ _ _ Hw).
    destruct (valid_up_to e - at_) as [|k] eqn:Hk; [lia|]. destruct m as [|m]; [done|]. cbn [utf8_error take].
    rewrite (utf8_step_take _ _ _ _ Hw) by lia. rewrite <- (IH m _ _ He). f_equal.
    change (a :: take k l) with (take (S k) (a :: l)). rewrite <- Hk, skipn_firstn_comm. f_equal. lia.
  - intros [= <-]. simpl. rewrite Nat.sub_diag. by destruct m.
Qed.
Lemma chars_width a rest w : utf8_step a rest = Utf8Char w -> first_char_len (string_of_list_ascii (a :: rest)) = Some w.
Proof.
  unfold utf8_step, utf8_width, first_char_len, between. intros H.
  destruct rest as [|b [|c [|d rest]]]; cbn [string_of_list_ascii chars].
  all: destruct (Z.ltb_spec (byte_val a) 128); [by injection H as <-|].
  all: destruct (Z.ltb_spec (byte_val a) 224), (Z.ltb_spec (byte_val a) 240); try lia.
  all: repeat (case_match; simplify_eq/=; try done; bool_to_prop; try lia).
Qed.
Lemma first_lossy_char_width l w : char_width l = Some w -> first_lossy_char_len l = Some w.
Proof.
  destruct l as [|a rest]; [done|]. simpl. destruct (utf8_step a rest) as [w'|] eqn:Hw; [|done]. intros [= ->].
  assert (w <= 4) as Hw4 by (revert Hw; unfold utf8_step; repeat case_match; intros; simplify_eq/=; lia).
  pose proof (utf8_step_width _ _ _ Hw) as Hr. unfold first_lossy_char_len.
  replace (take (length (a :: rest) `min` 4) (a :: rest)) with (a :: take (length rest `min` 3) rest) by done.
  set (tl := take (length rest `min` 3) rest).
  assert (utf8_step a tl = Utf8Char w) as Ht by (apply utf8_step_take; [done|lia]).
  destruct (from_utf8 (a :: tl)) as [t|e] eqn:Hu; [apply from_utf8_Ok in Hu as ->; by apply chars_width|].
  unfold from_utf8 in Hu. destruct (utf8_error _ _ _) as [e'|] eqn:He; [|done]. injection Hu as ->.
  pose proof He as He0. cbn [utf8_error length] in He. rewrite Ht in He.
  pose proof (utf8_error_len _ _ _ _ 0 He) as [Hv _].
  rewrite (proj2 (Nat.ltb_lt _ _)) by lia. unfold from_utf8.
  apply (utf8_valid_prefix _ (length (take (valid_up_to e) (a :: tl)))) in He0. rewrite Nat.sub_0_r in He0. rewrite He0. simpl.
  destruct (valid_up_to e) as [|k]; [lia|]. apply (chars_width a (take k tl)). apply utf8_step_take; [done|lia].
Qed.

(** ** One lexeme *)

(** Bytes that start something of their own. *)
Lemma starts_nothing c rest :
  is_ident_start c || is_ascii_digit c = true -> comment_front (c :: rest) = false /\ Ascii.eqb c dquote = false
  /\ Ascii.eqb c squote = false /\ Ascii.eqb c ";" = false /\ Ascii.eqb c "*" = false /\ is_open c = false /\ is_close c = false.
Proof.
  intros H. assert (forall p, is_ident_start p || is_ascii_digit p = false -> Ascii.eqb c p = false) as Hne.
  { intros p Hp. apply Ascii.eqb_neq. intros ->. by rewrite Hp in H. }
  unfold is_open, is_close. rewrite !Hne by done. split_and!; try done.
  destruct rest; [done|]. simpl. by rewrite (Hne "/"%char).
Qed.
Lemma ident_len_whitespace l : 0 < ident_len l -> whitespace_front l = 0.
Proof.
  destruct l as [|c l]; [simpl; lia|]. cbn [ident_len]. destruct (Nat.ltb_spec 0 (whitespace_front (c :: l))).
  - rewrite orb_true_r. lia.
  - lia.
Qed.
Lemma lookup_marks n tail : (hash_marks n ++ dquote :: tail)%list !! n = Some dquote.
Proof. unfold hash_marks. by rewrite lookup_app_r, repeat_length, Nat.sub_diag by (rewrite repeat_length; lia). Qed.
Lemma raw_front_lexeme prefix hashes tail :
  bytes_are prefix "" || bytes_are prefix "b" || bytes_are prefix "c" = true ->
  raw_front (prefix ++ "r"%char :: hash_marks hashes ++ dquote :: tail) = Some (hashes, length prefix + 1 + hashes).
Proof.
  unfold bytes_are. intros H.
  assert (prefix = [] \/ prefix = ["b"%char] \/ prefix = ["c"%char]) as [-> | [-> | ->]].
  { rewrite !orb_true_iff, !String.eqb_eq in H.
    destruct H as [[H|H]|H]; apply (f_equal list_ascii_of_string) in H; rewrite list_ascii_of_string_of_list_ascii in H; auto. }
  all: unfold raw_front; cbn -[hashes_len dquote]; rewrite ?drop_0, hashes_len_marks; cbn -[dquote].
  all: replace (byte_is _ dquote) with true; [done|symmetry; apply byte_is_Some, lookup_marks].
Qed.

(** The effect of a lexeme other than a word, outside macro calls. *)
Definition lex_effect (lx : Lexeme) (s : Scan) : Scan :=
  if lx is LByte c then
    if Ascii.eqb c ";" then s <| sc_use_item := false |>
    else if Ascii.eqb c "*" && sc_use_item s then s <| sc_concat_binding := true |>
    else if is_open c then opened false s
    else if is_close c then closed s else s
  else s.
Definition stepped (k : nat) (s : Scan) : Pass Scan SourceEnvDepUse := Next (s <| sc_i ::= fun i => i + k |>).

Lemma left_pass_comment var l s :
  whitespace_front l = 0 -> comment_front l = true -> left_pass var l s = stepped (comment_len l) s.
Proof. intros Hw Hc. destruct l as [|c l]; [done|]. unfold left_pass. by rewrite Hw, Hc. Qed.
Lemma comment_len_lexeme lx rest :
  is_trivia lx = true -> lexeme_ok lx rest = true -> (if lx is LSpace _ then false else true) = true ->
  whitespace_front (text_of lx ++ rest) = 0 /\ comment_front (text_of lx ++ rest) = true
  /\ comment_len (text_of lx ++ rest) = length (text_of lx).
Proof.
  destruct lx as [|text|text| | | | | | |]; try done; intros _ Hok _; cbn [lexeme_ok text_of] in *.
  - apply andb_true_iff in Hok as [Ht%negb_true_iff Hr]. split_and!; [by destruct text, rest..|].
    cbn [app comment_len]. change (Ascii.eqb "/" "/") with true. cbn [line_len length].
    change (Ascii.eqb "/" newline) with false. cbn. by rewrite (line_len_app _ _ Ht Hr).
  - apply bool_decide_eq_true in Hok. split_and!; [by destruct text, rest..|].
    cbn [app comment_len]. change (Ascii.eqb "*" "/") with false. cbv iota. by rewrite (block_len_app _ _ _ _ Hok).
Qed.

Lemma closes_at_end_app close body rest :
  closes_at_end close body = true -> literal_len close (body ++ close :: rest) = Some (length body + 1).
Proof.
  intros H%bool_decide_eq_true. apply (literal_len_app _ _ rest) in H. by rewrite <- app_assoc in H.
Qed.
Lemma char_len_literal body rest :
  lexeme_ok (LChar body) rest = true -> char_len (text_of (LChar body) ++ rest) = length (text_of (LChar body)).
Proof.
  cbn [lexeme_ok text_of app]. rewrite <- app_assoc. cbn [app]. rewrite length_cons, length_app.
  unfold char_len, is_escape. cbn [drop]. rewrite drop_0.
  destruct (byte_is (body !! 0) backslash) eqn:He.
  - intros H. replace (byte_is _ backslash) with true.
    { rewrite (closes_at_end_app _ _ _ H). simpl. lia. }
    destruct body as [|c body]; [done|]. done.
  - intros H%bool_decide_eq_true. rewrite (first_lossy_char_width _ _ H).
    assert (0 < length body) as Hb.
    { destruct (body ++ squote :: rest)%list as [|a l]; [done|]. simpl in H. destruct (utf8_step a l) eqn:Hs; [|done].
      injection H as ->. apply utf8_step_width in Hs. lia. }
    replace (byte_is _ backslash) with false by (by destruct body as [|c body]; [simpl in Hb; lia|]).
    replace (byte_is _ squote) with true; [simpl; lia|]. symmetry. apply byte_is_Some.
    change ((squote :: body ++ squote :: rest)%list !! (1 + length body)) with ((body ++ squote :: rest)%list !! (length body)).
    by rewrite lookup_app_r, Nat.sub_diag by lia.
Qed.
Lemma char_len_tick rest : lexeme_ok LTick rest = true -> char_len (squote :: rest) = 1.
Proof.
  cbn [lexeme_ok]. intros [He%negb_true_iff Hw]%andb_true_iff. unfold char_len. cbn [drop]. rewrite drop_0.
  unfold is_escape in He. change ((squote :: rest) !! 1) with (rest !! 0). rewrite He.
  destruct (char_width rest) as [w|] eqn:Hc; [|done]. rewrite (first_lossy_char_width _ _ Hc).
  change ((squote :: rest) !! (1 + w)) with (rest !! w). apply negb_true_iff in Hw. by rewrite Hw.
Qed.
Lemma left_pass_raw var prefix hashes body rest s :
  lexeme_ok (LRaw prefix hashes body) rest = true ->
  left_pass var (text_of (LRaw prefix hashes body) ++ rest) s
  = stepped (length (text_of (LRaw prefix hashes body))) s.
Proof.
  cbn [lexeme_ok]. intros [Hp He%bool_decide_eq_true]%andb_true_iff.
  set (l := (text_of (LRaw prefix hashes body) ++ rest)%list).
  assert (l = prefix ++ "r"%char :: hash_marks hashes ++ dquote :: (body ++ raw_close_mark hashes) ++ rest)%list as Hl.
  { subst l. cbn [text_of]. repeat (rewrite <- !app_assoc; cbn [app]). done. }
  assert (raw_front l = Some (hashes, length prefix + 1 + hashes)) as Hr by (rewrite Hl; by apply raw_front_lexeme).
  assert (drop (length prefix + 1 + hashes + 1) l = (body ++ raw_close_mark hashes) ++ rest)%list as Hd.
  { rewrite Hl. rewrite <- (drop_drop _ _ (length prefix + 1 + hashes)), <- (drop_drop _ _ (length prefix + 1)).
    rewrite <- (drop_drop _ _ (length prefix)), drop_app_length. cbn [drop]. rewrite drop_0.
    replace hashes with (length (hash_marks hashes)) at 1 by apply repeat_length. rewrite drop_app_length. cbn [drop]. by rewrite drop_0. }
  assert (raw_len l hashes (length prefix + 1 + hashes) = length (text_of (LRaw prefix hashes body))) as Hlen.
  { unfold raw_len. rewrite Hd, (raw_end_app _ _ _ _ He). cbn [text_of]. unfold raw_close_mark, hash_marks.
    repeat (rewrite length_app || rewrite length_cons || rewrite repeat_length). lia. }
  rewrite <- Hlen. clearbody l. destruct l as [|c l]; [done|].
  assert (is_ident_start c = true) as Hc.
  { apply raw_front_first in Hr. rewrite !orb_true_iff, !Ascii.eqb_eq in Hr. by destruct Hr as [[-> | ->] | ->]. }
  destruct (starts_nothing c l) as (H1 & H2 & H3 & _); [by rewrite Hc|].
  assert (whitespace_front (c :: l) = 0) as Hw.
  { apply raw_front_first in Hr. rewrite !orb_true_iff, !Ascii.eqb_eq in Hr. by destruct Hr as [[-> | ->] | ->], l as [|? [|]]. }
  unfold left_pass. by rewrite Hw, H1, H2, H3, Hr.
Qed.
Lemma raw_front_none c l : Ascii.eqb c "b" || Ascii.eqb c "c" || Ascii.eqb c "r" = false -> raw_front (c :: l) = None.
Proof.
  intros H. destruct (raw_front (c :: l)) as [[h q]|] eqn:Hr; [|done]. apply raw_front_first in Hr. congruence.
Qed.
Lemma raw_first_ident c : is_ident_start c = false -> Ascii.eqb c "b" || Ascii.eqb c "c" || Ascii.eqb c "r" = false.
Proof.
  intros H. destruct (_ || _) eqn:Hb; [|done]. rewrite !orb_true_iff, !Ascii.eqb_eq in Hb.
  by destruct Hb as [[-> | ->] | ->].
Qed.
Lemma digit_not_ident c : is_ascii_digit c = true -> is_ident_start c = false.
Proof.
  intros H. destruct (Ascii.eqb_spec c "_") as [->|Hn]; [done|]. revert H.
  unfold is_ascii_digit, is_ident_start, is_ascii_lowercase, is_ascii_uppercase, between.
  rewrite (proj2 (Ascii.eqb_neq _ _) Hn). intros H. bool_to_prop. lia.
Qed.

(** One pass over a lexeme that is not a word. *)
Lemma left_pass_lexeme var lx rest s :
  lexeme_ok lx rest = true -> (if lx is LWord _ then false else true) = true ->
  left_pass var (text_of lx ++ rest) s = stepped (length (text_of lx)) (lex_effect lx s).
Proof.
  intros Hok Hnw. destruct lx as [ws|text|text|body|prefix hashes body|body| |digits|name|c]; try done.
  - apply andb_true_iff in Hok as [H0%Nat.ltb_lt Hw%Nat.eqb_eq]. pose proof (whitespace_front_app _ rest H0 Hw) as H.
    cbn [text_of]. destruct ws as [|c ws]; [simpl in H0; lia|]. cbn [app] in *. unfold left_pass. by rewrite H.
  - destruct (comment_len_lexeme (LLine text) rest) as (H1 & H2 & H3); [done..|]. by rewrite left_pass_comment, H3.
  - destruct (comment_len_lexeme (LBlock text) rest) as (H1 & H2 & H3); [done..|]. by rewrite left_pass_comment, H3.
  - cbn [text_of app lexeme_ok] in *. rewrite <- app_assoc. cbn [app]. unfold left_pass, stepped.
    replace (whitespace_front _) with 0 by (by destruct body as [|? []]; [destruct rest|..]).
    replace (comment_front _) with false by (by destruct body). change (Ascii.eqb dquote dquote) with true. cbv iota.
    unfold quoted_len. cbn [drop]. rewrite drop_0, (closes_at_end_app _ _ _ Hok).
    by rewrite length_cons, length_app.
  - by apply left_pass_raw.
  - pose proof (char_len_literal _ _ Hok) as Hl. cbn [text_of app] in *. unfold left_pass, stepped.
    replace (whitespace_front _) with 0 by (by destruct body as [|? []]; [destruct rest|..]).
    replace (comment_front _) with false by (by destruct body). change (Ascii.eqb squote dquote) with false.
    change (Ascii.eqb squote squote) with true. cbv iota. by rewrite Hl.
  - pose proof (char_len_tick _ Hok) as Hl. cbn [text_of app] in *. unfold left_pass, stepped.
    replace (whitespace_front _) with 0 by (by destruct rest as [|? []]).
    replace (comment_front _) with false by (by destruct rest). change (Ascii.eqb squote dquote) with false.
    change (Ascii.eqb squote squote) with true. cbv iota. by rewrite Hl.
  - apply andb_true_iff in Hok as [Hd Hl%Nat.eqb_eq]. cbn [text_of]. destruct digits as [|c digits]; [done|].
    assert (whitespace_front ((c :: digits) ++ rest) = 0) as Hw by (apply ident_len_whitespace; rewrite Hl; simpl; lia).
    destruct (starts_nothing c (digits ++ rest)) as (H1 & H2 & H3 & H4 & H5 & H6 & H7); [by rewrite Hd, orb_true_r|].
    cbn [app] in *. unfold left_pass. rewrite Hw, H1, H2, H3, H4, H5, H6, H7, Hd, Hl.
    by rewrite raw_front_none by (by apply raw_first_ident, digit_not_ident).
  - apply andb_true_iff in Hok as [[Hw%Nat.eqb_eq Hc%negb_true_iff]%andb_true_iff Hn%negb_true_iff].
    rewrite !orb_false_iff in Hn. destruct Hn as [[[Hq Hs] Hd] Hi]. cbn [text_of app lex_effect].
    unfold left_pass, stepped. rewrite Hw, Hc, Hq, Hs, Hd, Hi, raw_front_none by (by apply raw_first_ident).
    cbn [Nat.ltb Nat.leb length]. repeat (case_match; [done|]). done.
Qed.

(** ** Trivia and macro calls *)

Lemma whitespace_front_plain c l :
  (byte_val c <? 128)%Z = true -> between 9 13 (byte_val c) || (byte_val c =? 32)%Z = false -> whitespace_front (c :: l) = 0.
Proof.
  intros Ha Hn. unfold whitespace_front. rewrite Hn. apply Z.ltb_lt in Ha.
  destruct l as [|b l]; [done|]. destruct (Z.eqb_spec (byte_val c) 194); [lia|]. simpl. destruct l as [|d l]; [done|].
  destruct (Z.eqb_spec (byte_val c) 226); [lia|]. destruct (Z.eqb_spec (byte_val c) 239); [lia|]. done.
Qed.

(** The byte a lexeme other than trivia starts with. *)
Definition leads (lx : Lexeme) (c : ascii) : bool :=
  match lx with
  | LStr _ => Ascii.eqb c dquote
  | LChar _ | LTick => Ascii.eqb c squote
  | LRaw _ _ _ | LNum _ | LWord _ => is_ident_start c || is_ascii_digit c
  | LByte b => Ascii.eqb c b && negb (Ascii.eqb c dquote || Ascii.eqb c squote || is_ascii_digit c || is_ident_start c)
  | _ => false
  end.
Lemma lexeme_front lx rest :
  is_trivia lx = false -> lexeme_ok lx rest = true ->
  exists c l, (text_of lx ++ rest)%list = c :: l /\ leads lx c = true
    /\ whitespace_front (c :: l) = 0 /\ comment_front (c :: l) = false.
Proof.
  intros Ht Hok. destruct lx as [| | |body|prefix hashes body|body| |digits|name|c]; try done; cbn [lexeme_ok text_of] in *.
  - eexists dquote, _. cbn [app]. split_and!; [done..|by apply whitespace_front_plain|by destruct body].
  - apply andb_true_iff in Hok as [Hp _]. pose proof (raw_front_lexeme prefix hashes (body ++ raw_close_mark hashes ++ rest) Hp) as Hr.
    assert ((prefix ++ "r"%char :: hash_marks hashes ++ dquote :: body ++ raw_close_mark hashes) ++ rest
      = prefix ++ "r"%char :: hash_marks hashes ++ dquote :: body ++ raw_close_mark hashes ++ rest)%list as ->
      by (repeat (rewrite <- !app_assoc; cbn [app]); done).
    destruct (prefix ++ _)%list as [|c l]; [done|]. apply raw_front_first in Hr.
    rewrite !orb_true_iff, !Ascii.eqb_eq in Hr. exists c, l.
    destruct Hr as [[-> | ->] | ->]; (split_and!; [done..|by apply whitespace_front_plain|by destruct l]).
  - eexists squote, _. cbn [app]. split_and!; [done..|by apply whitespace_front_plain|by destruct body].
  - eexists squote, _. cbn [app]. split_and!; [done..|by apply whitespace_front_plain|by destruct rest].
  - apply andb_true_iff in Hok as [Hd Hl%Nat.eqb_eq]. destruct digits as [|c digits]; [done|]. exists c, (digits ++ rest)%list.
    assert (is_ident_start c || is_ascii_digit c = true) as Hc by (by rewrite Hd, orb_true_r).
    destruct (starts_nothing c (digits ++ rest) Hc) as (H1 & _). split_and!; [done..| |done].
    apply (ident_len_whitespace ((c :: digits) ++ rest)). rewrite Hl. simpl. lia.
  - apply andb_true_iff in Hok as [[Hd Hl%Nat.eqb_eq]%andb_true_iff _]. destruct name as [|c name]; [done|]. exists c, (name ++ rest)%list.
    assert (is_ident_start c || is_ascii_digit c = true) as Hc by (by rewrite Hd).
    destruct (starts_nothing c (name ++ rest) Hc) as (H1 & _). split_and!; [done..| |done].
    apply (ident_len_whitespace ((c :: name) ++ rest)). rewrite Hl. simpl. lia.
  - apply andb_true_iff in Hok as [[Hw%Nat.eqb_eq Hc%negb_true_iff]%andb_true_iff Hn]. exists c, rest.
    split_and!; [done| |done..]. simpl. by rewrite Ascii.eqb_refl, Hn.
Qed.
Lemma trivia_front_lexeme lx rest :
  lexeme_ok lx rest = true -> trivia_front (text_of lx ++ rest) = if is_trivia lx then length (text_of lx) else 0.
Proof.
  intros Hok. destruct (is_trivia lx) eqn:Ht.
  - destruct lx as [ws|text|text| | | | | | |]; try done.
    + apply andb_true_iff in Hok as [H0%Nat.ltb_lt Hw%Nat.eqb_eq]. cbn [text_of]. unfold trivia_front.
      rewrite (whitespace_front_app _ rest H0 Hw), (proj2 (Nat.ltb_lt _ _) H0). done.
    + destruct (comment_len_lexeme (LLine text) rest) as (H1 & H2 & H3); [done..|]. unfold trivia_front. by rewrite H1, H2, H3.
    + destruct (comment_len_lexeme (LBlock text) rest) as (H1 & H2 & H3); [done..|]. unfold trivia_front. by rewrite H1, H2, H3.
  - destruct (lexeme_front _ _ Ht Hok) as (c & l & -> & _ & Hw & Hc). unfold trivia_front. by rewrite Hw, Hc.
Qed.

(** The trivia in front, and what [after_trivia] keeps. *)
Fixpoint leading_trivia (lxs : list Lexeme) : list Lexeme :=
  match lxs with
  | [] => []
  | lx :: rest => if is_trivia lx then lx :: leading_trivia rest else []
  end.
Lemma leading_trivia_split lxs : lxs = (leading_trivia lxs ++ after_trivia lxs)%list.
Proof. induction lxs as [|lx lxs IH]; simpl; [done|]. destruct (is_trivia lx); [|done]. simpl. by rewrite <- IH. Qed.
Lemma leading_trivia_all lxs : forallb is_trivia (leading_trivia lxs) = true.
Proof. induction lxs as [|lx lxs IH]; simpl; [done|]. destruct (is_trivia lx) eqn:Ht; [|done]. simpl. by rewrite Ht. Qed.
Lemma source_of_app a b : source_of (a ++ b) = (source_of a ++ source_of b)%list.
Proof. unfold source_of. by rewrite map_app, concat_app. Qed.
Lemma lexed_after lxs : lexed lxs = true -> lexed (after_trivia lxs) = true.
Proof.
  induction lxs as [|lx lxs IH]; simpl; [done|]. intros [Hx Hl]%andb_true_iff. destruct (is_trivia lx); [by apply IH|].
  simpl. by rewrite Hx, Hl.
Qed.
Lemma trivia_len_source lxs : lexed lxs = true -> trivia_len (source_of lxs) = length (source_of (leading_trivia lxs)).
Proof.
  induction lxs as [|lx lxs IH]; [done|]. cbn [lexed]. intros [Hx Hl]%andb_true_iff.
  change (source_of (lx :: lxs)) with (text_of lx ++ source_of lxs)%list.
  rewrite trivia_len_unfold, (trivia_front_lexeme _ _ Hx). cbn [leading_trivia]. destruct (is_trivia lx) eqn:Ht; [|done].
  change (source_of (lx :: leading_trivia lxs)) with (text_of lx ++ source_of (leading_trivia lxs))%list.
  rewrite drop_app_length, length_app, (IH Hl).
  destruct (Nat.eqb_spec (length (text_of lx)) 0) as [H0|]; [|done]. exfalso.
  destruct lx; try done. apply andb_true_iff in Hx as [H1%Nat.ltb_lt _]. simpl in H0. lia.
Qed.
Lemma drop_trivia lxs : lexed lxs = true -> drop (trivia_len (source_of lxs)) (source_of lxs) = source_of (after_trivia lxs).
Proof.
  intros Hl. rewrite (trivia_len_source _ Hl). rewrite (leading_trivia_split lxs) at 2. by rewrite source_of_app, drop_app_length.
Qed.

Lemma after_trivia_head lxs lx rest : after_trivia lxs = lx :: rest -> is_trivia lx = false.
Proof. induction lxs as [|x lxs IH]; simpl; [done|]. destruct (is_trivia x) eqn:Hx; [done|]. by intros [= -> ->]. Qed.
(** A punctuation byte at the front is a lexeme of its own. *)
Lemma front_byte lxs p :
  lexed lxs = true -> is_ident_start p || is_ascii_digit p || Ascii.eqb p dquote || Ascii.eqb p squote = false ->
  byte_is (source_of (after_trivia lxs) !! 0) p = true <-> exists rest, after_trivia lxs = LByte p :: rest.
Proof.
  intros Hl%lexed_after Hp. split; [|by intros [rest ->]; simpl; apply Ascii.eqb_refl].
  destruct (after_trivia lxs) as [|lx rest] eqn:Ha; [done|]. cbn [lexed] in Hl. apply andb_true_iff in Hl as [Hx _].
  destruct (lexeme_front _ _ (after_trivia_head _ _ _ Ha) Hx) as (c & l & Hs & Hlead & _).
  change (source_of (lx :: rest)) with (text_of lx ++ source_of rest)%list. rewrite Hs.
  cbn [lookup list_lookup byte_is]. intros ->%Ascii.eqb_eq. rewrite !orb_false_iff in Hp. destruct Hp as [[[H1 H2] H3] H4].
  destruct lx; cbn [leads] in Hlead; rewrite ?H1, ?H2, ?H3, ?H4 in Hlead; try done.
  apply andb_true_iff in Hlead as [->%Ascii.eqb_eq _]. eauto.
Qed.
Lemma lookup_drop_0 (l : list ascii) n : l !! n = drop n l !! 0.
Proof. by rewrite lookup_drop, Nat.add_0_r. Qed.
Lemma open_byte c : is_open c = true -> is_ident_start c || is_ascii_digit c || Ascii.eqb c dquote || Ascii.eqb c squote = false.
Proof. unfold is_open. rewrite !orb_true_iff, !Ascii.eqb_eq. by intros [[-> | ->] | ->]. Qed.

(** The shape of a macro call after its name. *)
Lemma macro_args_split lxs args :
  macro_args lxs = Some args ->
  exists t1 t2 d, lxs = (t1 ++ LByte "!" :: t2 ++ LByte d :: args)%list
    /\ forallb is_trivia t1 = true /\ forallb is_trivia t2 = true /\ is_open d = true
    /\ after_trivia lxs = LByte "!" :: t2 ++ LByte d :: args
    /\ t1 = leading_trivia lxs /\ t2 = leading_trivia (t2 ++ LByte d :: args).
Proof.
  unfold macro_args. intros H. destruct (after_trivia lxs) as [|[| | | | | | | | |c] rest] eqn:Ha; try done.
  destruct (Ascii.eqb_spec c "!") as [->|]; [|done].
  destruct (after_trivia rest) as [|[| | | | | | | | |d] rest'] eqn:Hb; try done.
  destruct (is_open d) eqn:Hd; [|done]. injection H as ->.
  pose proof (leading_trivia_split lxs) as H1. pose proof (leading_trivia_split rest) as H2. rewrite Ha in H1. rewrite Hb in H2.
  exists (leading_trivia lxs), (leading_trivia rest), d. rewrite <- H2.
  split_and!; try done; apply leading_trivia_all.
Qed.
Lemma lexed_app a b : lexed (a ++ b) = true -> lexed b = true.
Proof. induction a as [|x a IH]; simpl; [done|]. intros [_ H]%andb_true_iff. by apply IH. Qed.
Lemma macro_open_source lxs :
  lexed lxs = true ->
  macro_open_len (source_of lxs)
  = (fun args => length (source_of lxs) - length (source_of args) - 1) <$> macro_args lxs.
Proof.
  intros Hl. unfold macro_open_len. rewrite lookup_drop_0, (drop_trivia _ Hl).
  pose proof (front_byte lxs "!" Hl eq_refl) as Hbang. unfold macro_args.
  destruct (byte_is (source_of (after_trivia lxs) !! 0) "!") eqn:Hb.
  2: { destruct (after_trivia lxs) as [|[| | | | | | | | |c] rest] eqn:Ha; try done.
       destruct (Ascii.eqb_spec c "!") as [->|]; [|done]. exfalso. assert (false = true); [apply Hbang; eauto|done]. }
  destruct (proj1 Hbang eq_refl) as [rest Ha]. rewrite Ha. change (Ascii.eqb "!" "!") with true. cbn [andb]. cbv iota.
  assert (lexed rest = true) as Hr.
  { apply lexed_after in Hl. rewrite Ha in Hl. cbn [lexed] in Hl. by apply andb_true_iff in Hl as [_ Hl]. }
  assert (drop (trivia_len (source_of lxs) + 1) (source_of lxs) = source_of rest) as Hd.
  { rewrite <- drop_drop, (drop_trivia _ Hl), Ha. cbn. by rewrite drop_0. }
  rewrite Hd, lookup_drop_0, <- drop_drop, Hd, (drop_trivia _ Hr).
  pose proof (trivia_len_le (source_of lxs)) as Hle. pose proof (trivia_len_le (source_of rest)) as Hle'.
  assert (forall c, source_of (after_trivia rest) !! 0 = Some c -> is_open c = true -> exists args, after_trivia rest = LByte c :: args) as Hopen.
  { intros c Hc Ho. apply (front_byte rest c Hr (open_byte _ Ho)). rewrite Hc. apply Ascii.eqb_refl. }
  destruct (source_of (after_trivia rest) !! 0) as [c|] eqn:Hc.
  - destruct (is_open c) eqn:Ho.
    + destruct (Hopen c eq_refl Ho) as [args Hargs]. rewrite Hargs, Ho. cbn [fmap option_fmap option_map]. f_equal.
      pose proof (f_equal length Hd) as Hn. rewrite length_drop in Hn.
      pose proof (f_equal length (drop_trivia _ Hr)) as Hn'. rewrite length_drop, Hargs in Hn'. change (length (source_of (LByte c :: args))) with (S (length (source_of args))) in Hn'. lia.
    + destruct (after_trivia rest) as [|[| | | | | | | | |d] args]; try done. simpl in Hc. injection Hc as ->. by rewrite Ho.
  - destruct (after_trivia rest) as [|[| | | | | | | | |d] args]; try done.
Qed.
