(* ===== verification/ScanCorrect.v ===== *)
(** * The source scanner implements its reference

    The scanner on the text of lexemes, lexeme by lexeme ([lex_run]), and the
    theorem that its answer is the one the uses of the variable call for. *)

From S2P Require Import Prelude Strings Codec SourceScan ScanProofs ScanTotal ScanSpec ScanLexemes.
#[local] Open Scope string_scope.
#[local] Open Scope nat_scope.
#[local] Open Scope record_scope.

(** ** Arguments of environment macros *)

(** The first quote or backslash in a literal: its close, or an escape. *)
Lemma quote_or_escape_literal body rest :
  literal_len dquote (body ++ [dquote]) = Some (length body + 1) ->
  exists n, quote_or_escape (body ++ dquote :: rest) = Some n
    /\ (body ++ dquote :: rest)%list !! n = Some (if existsb (Ascii.eqb backslash) body then backslash else dquote)
    /\ (existsb (Ascii.eqb backslash) body = false -> n = length body).
Proof.
  induction body as [|c body IH]; [by exists 0|]. cbn [literal_len app existsb quote_or_escape length].
  rewrite (Ascii.eqb_sym backslash). destruct (Ascii.eqb_spec c backslash) as [->|_]; [by exists 0|].
  destruct (Ascii.eqb c dquote); [intros [= H]; lia|].
  intros (k & Hk & Hn)%fmap_Some. assert (k = length body + 1) as -> by lia.
  destruct (IH Hk) as (n & -> & H1 & H2). exists (S n). cbn [orb]. split_and!; [done..|]. intros H. by rewrite H2.
Qed.
Lemma env_name_source args : lexed args = true -> env_name (source_of args) = literal_arg args.
Proof.
  intros Hl. unfold env_name, literal_arg. rewrite lookup_drop_0, <- drop_drop, (drop_trivia _ Hl).
  pose proof (lexed_after _ Hl) as Ha. destruct (after_trivia args) as [|lx rest] eqn:Hargs; [done|].
  cbn [lexed] in Ha. apply andb_true_iff in Ha as [Hx _].
  destruct (lexeme_front _ _ (after_trivia_head _ _ _ Hargs) Hx) as (c & l & Hs & Hlead & _).
  change (source_of (lx :: rest)) with (text_of lx ++ source_of rest)%list.
  destruct (match lx with LStr _ => true | _ => false end) eqn:Hstr.
  2: { assert (Ascii.eqb c dquote = false) as Hq; [|by rewrite Hs; cbn [lookup list_lookup byte_is]; rewrite Hq; destruct lx].
       destruct lx; try done; cbn [leads] in Hlead; try (by destruct (starts_nothing c [] Hlead) as (_ & -> & _)).
       1,2: by apply Ascii.eqb_eq in Hlead as ->.
       apply andb_true_iff in Hlead as [_ H%negb_true_iff]. rewrite !orb_false_iff in H. apply H. }
  destruct lx as [| | |body| | | | | |]; try done.
  cbn [text_of app lookup list_lookup byte_is drop]. change (Ascii.eqb dquote dquote) with true. cbv iota.
  rewrite drop_0, <- app_assoc. cbn [app]. cbn [lexeme_ok] in Hx. apply bool_decide_eq_true in Hx.
  destruct (quote_or_escape_literal _ (source_of rest) Hx) as (n & -> & Hn & Hlen). cbn [mbind option_bind]. rewrite Hn.
  destruct (existsb _ body); [done|]. rewrite (Hlen eq_refl). change (byte_is (Some dquote) dquote) with true. cbv iota.
  by rewrite take_app_length.
Qed.

Lemma bytes_are_concat n l : bytes_are (take n l) "concat" = true -> l !! 0 = Some "c"%char /\ l !! 1 = Some "o"%char.
Proof.
  unfold bytes_are. rewrite String.eqb_eq. intros H. apply (f_equal list_ascii_of_string) in H.
  rewrite list_ascii_of_string_of_list_ascii in H.
  destruct l as [|a [|b l]], n as [|[|n]]; simplify_eq/=; done.
Qed.
Lemma concat_prefix_source args : lexed args = true -> concat_prefix (source_of args) = concat_arg args.
Proof.
  intros Hl. unfold concat_prefix, concat_arg. rewrite (drop_trivia _ Hl).
  pose proof (lexed_after _ Hl) as Ha. destruct (after_trivia args) as [|lx rest] eqn:Hargs; [done|].
  cbn [lexed] in Ha. apply andb_true_iff in Ha as [Hx Hr].
  destruct (lexeme_front _ _ (after_trivia_head _ _ _ Hargs) Hx) as (c & l & Hs & Hlead & _).
  change (source_of (lx :: rest)) with (text_of lx ++ source_of rest)%list.
  destruct (match lx with LWord _ => true | _ => false end) eqn:Hw.
  - destruct lx as [| | | | | | | |name|]; try done. cbn [lexeme_ok text_of] in *.
    apply andb_true_iff in Hx as [[_ Hn%Nat.eqb_eq]%andb_true_iff _]. rewrite Hn, take_app_length, drop_app_length.
    destruct (bytes_are name "concat"); [|done]. rewrite (macro_open_source _ Hr).
    destruct (macro_args rest) as [args'|] eqn:Hm; [|done]. cbn [fmap option_fmap option_map mbind option_bind].
    apply macro_args_split in Hm as (t1 & t2 & d & -> & _).
    change (LByte "!" :: t2 ++ LByte d :: args')%list with ([LByte "!"] ++ t2 ++ [LByte d] ++ args')%list in *.
    rewrite !app_assoc in Hr |- *. rewrite source_of_app. set (pre := (((t1 ++ [LByte "!"]) ++ t2) ++ [LByte d])%list) in *.
    assert (1 <= length (source_of pre)) as Hpre by (subst pre; rewrite source_of_app, length_app; simpl; lia).
    replace (length (source_of pre ++ source_of args') - length (source_of args') - 1 + 1) with (length (source_of pre))
      by (rewrite length_app; lia).
    rewrite drop_app_length. apply env_name_source. by apply lexed_app in Hr.
  - destruct (bytes_are _ "concat") eqn:Hb; [|by destruct lx]. exfalso. apply bytes_are_concat in Hb as [H0 H1].
    rewrite Hs in H0, H1. simpl in H0. injection H0 as ->.
    destruct lx as [| | | |prefix hashes body| | |digits|name|b]; try done; cbn [leads lexeme_ok] in *.
    + apply andb_true_iff in Hx as [Hp _]. unfold bytes_are in Hp. rewrite !orb_true_iff, !String.eqb_eq in Hp.
      destruct Hp as [[Hp|Hp]|Hp]; apply (f_equal list_ascii_of_string) in Hp;
        rewrite list_ascii_of_string_of_list_ascii in Hp; simpl in Hp; subst prefix; simpl in Hs; injection Hs; intros; subst; done.
    + apply andb_true_iff in Hx as [Hd _]. destruct digits as [|d digits]; [done|]. simpl in Hs. injection Hs as -> _. done.
    + apply andb_true_iff in Hlead as [_ H]. done.
Qed.

(** ** Lexeme by lexeme *)

Definition bump (k : nat) (s : Scan) : Scan := s <| sc_i ::= fun i => i + k |>.
Definition env_effect (var : string) (args : list Lexeme) (s : Scan) : option Scan :=
  match literal_arg args with
  | Some name =>
      if negb (String.eqb name var) then Some s
      else if 0 <? sc_include_depth s then Some (s <| sc_include_locator := true |>) else None
  | None =>
      if 0 <? sc_include_depth s then Some s
      else if excluded var args then Some (s <| sc_concat_prefix := true |>) else None
  end.
(** The delimiter after [before] opens; [None] is the answer [RuntimeValue]. *)
Definition open_effect (var : string) (name : option (list ascii)) (args : list Lexeme) (s : Scan) : option Scan :=
  match name with
  | None => Some (opened false s)
  | Some name => opened (is_include_macro name) <$> (if is_env_macro name then env_effect var args s else Some s)
  end.
Definition lex_step (var : string) (before : list Lexeme) (lx : Lexeme) (after : list Lexeme) (s : Scan) : option Scan :=
  match lx with
  | LWord name => Some (noted name (bool_decide (is_Some (macro_args after))) s)
  | LByte c => if is_open c then open_effect var (macro_name before) after s else Some (lex_effect lx s)
  | _ => Some s
  end.
Fixpoint lex_run (var : string) (before lxs : list Lexeme) (s : Scan) : Scan + SourceEnvDepUse :=
  match lxs with
  | [] => inl s
  | lx :: after =>
      match lex_step var before lx after s with
      | Some s => lex_run var (lx :: before) after (bump (length (text_of lx)) s)
      | None => inr RuntimeValue
      end
  end.

Lemma bump_bump j k s : bump j (bump k s) = bump (k + j) s.
Proof. destruct s. unfold bump, set. cbn. by rewrite Nat.add_assoc. Qed.
Lemma noted_bump name m k s : noted name m (bump k s) = bump k (noted name m s).
Proof. by destruct s. Qed.
Lemma opened_bump b k s : opened b (bump k s) = bump k (opened b s).
Proof. by destruct s. Qed.
Lemma env_effect_bump var args k s : env_effect var args (bump k s) = bump k <$> env_effect var args s.
Proof. destruct s. unfold env_effect, bump, set. cbn -[Nat.ltb]. by repeat case_match. Qed.
Lemma open_effect_bump var name args k s : open_effect var name args (bump k s) = bump k <$> open_effect var name args s.
Proof.
  unfold open_effect. destruct name as [name|]; [|cbn; by rewrite opened_bump].
  destruct (is_env_macro name); [rewrite env_effect_bump; destruct (env_effect _ _ _)|]; cbn; by rewrite ?opened_bump.
Qed.

(** Trivia only moves the position. *)
Lemma lex_run_trivia var t before lxs s :
  forallb is_trivia t = true ->
  lex_run var before (t ++ lxs) s = lex_run var (rev t ++ before) lxs (bump (length (source_of t)) s).
Proof.
  revert before s. induction t as [|x t IH]; intros before s.
  - intros _. cbn. unfold bump, set. destruct s. cbn. by rewrite Nat.add_0_r.
  - cbn [forallb]. intros [Hx Ht]%andb_true_iff. cbn [app lex_run].
    assert (lex_step var before x (t ++ lxs) s = Some s) as -> by (by destruct x).
    rewrite (IH _ _ Ht), bump_bump. cbn [rev]. rewrite <- app_assoc.
    change (source_of (x :: t)) with (text_of x ++ source_of t)%list. by rewrite length_app.
Qed.
Lemma after_trivia_app t lxs : forallb is_trivia t = true -> after_trivia (rev t ++ lxs) = after_trivia lxs.
Proof.
  revert lxs. induction t as [|x t IH]; intros lxs; cbn [forallb rev]; [done|]. intros [Hx Ht]%andb_true_iff.
  rewrite <- app_assoc, (IH _ Ht). simpl. by rewrite Hx.
Qed.
(** The text between the name of a macro and its arguments. *)
Lemma lex_run_macro var before name t1 t2 d args s :
  forallb is_trivia t1 = true -> forallb is_trivia t2 = true -> is_open d = true ->
  exists before',
    lex_run var (LWord name :: before) (t1 ++ LByte "!" :: t2 ++ LByte d :: args) s
    = match open_effect var (Some name) args s with
      | Some s => lex_run var (LByte d :: before') args
                    (bump (length (source_of (t1 ++ LByte "!" :: t2 ++ [LByte d]))) s)
      | None => inr RuntimeValue
      end.
Proof.
  intros H1 H2 Hd. exists (rev t2 ++ LByte "!" :: rev t1 ++ LWord name :: before)%list. rewrite (lex_run_trivia _ _ _ _ _ H1). cbn [lex_run lex_step].
  change (is_open "!") with false. cbn [lex_effect]. change (Ascii.eqb "!" ";") with false. change (Ascii.eqb "!" "*") with false.
  change (is_close "!") with false. change (is_open "!") with false. cbn [andb].
  rewrite (lex_run_trivia _ _ _ _ _ H2), !bump_bump. cbn [lex_run lex_step]. rewrite Hd.
  replace (macro_name _) with (Some name).
  2: { unfold macro_name. rewrite (after_trivia_app _ _ H2). cbn [after_trivia is_trivia]. change (Ascii.eqb "!" "!") with true.
       by rewrite (after_trivia_app _ _ H1). }
  rewrite open_effect_bump. destruct (open_effect var (Some name) args s); [|done]. cbn [fmap option_fmap option_map].
  rewrite bump_bump. f_equal. f_equal.
  change (LByte "!" :: t2 ++ [LByte d])%list with ([LByte "!"] ++ t2 ++ [LByte d])%list.
  rewrite !source_of_app, !length_app. cbn. lia.
Qed.

(** One pass over a word, with the call it may start. *)
Lemma left_pass_word var name rest s :
  lexeme_ok (LWord name) (source_of rest) = true -> lexed rest = true ->
  left_pass var (name ++ source_of rest) s
  = match macro_args rest with
    | None => Next (bump (length name) (noted name false s))
    | Some args =>
        match open_effect var (Some name) args (noted name true s) with
        | None => Return RuntimeValue
        | Some s => Next (bump (length name + (length (source_of rest) - length (source_of args))) s)
        end
    end.
Proof.
  cbn [lexeme_ok]. intros [[Hi Hn%Nat.eqb_eq]%andb_true_iff Hraw%negb_true_iff]%andb_true_iff Hl.
  apply bool_decide_eq_false in Hraw. destruct name as [|c name]; [done|].
  assert (whitespace_front ((c :: name) ++ source_of rest) = 0) as Hw by (apply ident_len_whitespace; rewrite Hn; simpl; lia).
  destruct (starts_nothing c (name ++ source_of rest)) as (H1 & H2 & H3 & H4 & H5 & H6 & H7); [by rewrite Hi|].
  assert (is_ascii_digit c = false) as Hd.
  { destruct (is_ascii_digit c) eqn:Hd; [|done]. apply digit_not_ident in Hd. congruence. }
  assert (raw_front ((c :: name) ++ source_of rest) = None) as Hr.
  { destruct (raw_front _); [|done]. by destruct Hraw. }
  cbn [app] in *. unfold left_pass. rewrite Hw, H1, H2, H3, Hr, H4, H5, H6, H7, Hd, Hi. cbn [Nat.ltb Nat.leb andb].
  unfold ident_left. rewrite Hn.
  change (c :: name ++ source_of rest)%list with ((c :: name) ++ source_of rest)%list.
  rewrite take_app_length, drop_app_length, (macro_open_source _ Hl).
  destruct (macro_args rest) as [args|] eqn:Hm; [|done]. cbn [fmap option_fmap option_map].
  apply macro_args_split in Hm as (t1 & t2 & d & -> & _).
  change (LByte "!" :: t2 ++ LByte d :: args)%list with ([LByte "!"] ++ t2 ++ [LByte d] ++ args)%list in *.
  rewrite !app_assoc in Hl |- *. rewrite source_of_app. set (pre := (((t1 ++ [LByte "!"]) ++ t2) ++ [LByte d])%list) in *.
  assert (1 <= length (source_of pre)) as Hpre by (subst pre; rewrite source_of_app, length_app; simpl; lia).
  replace (length (c :: name) + (length (source_of pre ++ source_of args) - length (source_of args) - 1) + 1)
    with (length (c :: name) + length (source_of pre)) by (rewrite length_app; lia).
  replace (length (source_of pre ++ source_of args) - length (source_of args)) with (length (source_of pre)) by (rewrite length_app; lia).
  rewrite <- drop_drop, drop_app_length, drop_app_length. apply lexed_app in Hl. unfold open_effect, env_left, env_effect, excluded.
  rewrite (env_name_source _ Hl), (concat_prefix_source _ Hl).
  destruct (is_env_macro _); [|done]. destruct (literal_arg args); repeat (case_match; try done).
Qed.

(** No macro call is under way between [before] and [lxs]: the scanner has
    already gone over the delimiter of every call. *)
Definition calm (before lxs : list Lexeme) : Prop :=
  match after_trivia before with
  | LWord _ :: _ => macro_args lxs = None
  | LByte c :: rest =>
      if Ascii.eqb c "!" then
        match after_trivia rest with
        | LWord _ :: _ => match after_trivia lxs with LByte d :: _ => is_open d = false | _ => True end
        | _ => True
        end
      else True
  | _ => True
  end.
Lemma calm_next before lx lxs :
  calm before (lx :: lxs) -> (if lx is LWord _ then macro_args lxs = None else True) -> calm (lx :: before) lxs.
Proof.
  intros Hc Hw. destruct (is_trivia lx) eqn:Ht.
  { unfold calm, macro_args in *. cbn [after_trivia] in *. by rewrite Ht in *. }
  destruct lx as [| | | | | | | |name|c]; try done. unfold calm. cbn [after_trivia is_trivia].
  destruct (Ascii.eqb_spec c "!") as [->|]; [|done]. unfold calm in Hc.
  destruct (after_trivia before) as [|[] ?]; try done. unfold macro_args in Hc. cbn in Hc.
  destruct (after_trivia lxs) as [|[] ?]; try done. by destruct (is_open _).
Qed.
Lemma calm_open before c lxs : calm before (LByte c :: lxs) -> is_open c = true -> macro_name before = None.
Proof.
  unfold calm, macro_name. intros Hc Ho. destruct (after_trivia before) as [|[| | | | | | | | |b] rest]; try done.
  destruct (Ascii.eqb b "!"); [|done]. destruct (after_trivia rest) as [|[] ?]; try done. cbn in Hc. congruence.
Qed.
Lemma calm_args before d args : is_open d = true -> calm (LByte d :: before) args.
Proof.
  intros Ho. unfold calm. cbn [after_trivia is_trivia]. destruct (Ascii.eqb_spec d "!") as [->|]; done.
Qed.

Lemma text_of_pos lx rest : lexeme_ok lx rest = true -> 1 <= length (text_of lx).
Proof.
  destruct lx; cbn [lexeme_ok text_of length]; try lia.
  - intros [H%Nat.ltb_lt _]%andb_true_iff. lia.
  - intros _. rewrite length_app. simpl. lia.
  - intros [H _]%andb_true_iff. destruct digits; [done|]. simpl. lia.
  - intros [[H _]%andb_true_iff _]%andb_true_iff. destruct name; [done|]. simpl. lia.
Qed.
Lemma left_pass_other var before lx after s :
  lexeme_ok lx (source_of after) = true -> (if lx is LWord _ then false else true) = true -> calm before (lx :: after) ->
  exists s', lex_step var before lx after s = Some s'
    /\ left_pass var (text_of lx ++ source_of after) s = Next (bump (length (text_of lx)) s').
Proof.
  intros Hx Hw Hc. rewrite (left_pass_lexeme _ _ _ _ Hx Hw). exists (lex_effect lx s). split; [|done].
  destruct lx as [| | | | | | | |name|c]; try done. cbn [lex_step]. destruct (is_open c) eqn:Ho; [|done].
  rewrite (calm_open _ _ _ Hc Ho). cbn [open_effect lex_effect]. rewrite Ho.
  unfold is_open in Ho. rewrite !orb_true_iff, !Ascii.eqb_eq in Ho. by destruct Ho as [[-> | ->] | ->].
Qed.

Lemma open_effect_pos var name args s s' : open_effect var name args s = Some s' -> sc_i s' = sc_i s.
Proof.
  unfold open_effect, env_effect. destruct name as [name|]; [|by intros [= <-]]. intros (s1 & H & ->)%fmap_Some.
  repeat case_match; simplify_eq/=; done.
Qed.
Lemma lex_step_pos var before lx after s s' : lex_step var before lx after s = Some s' -> sc_i s' = sc_i s.
Proof.
  destruct lx as [| | | | | | | |name|c]; try (by intros [= <-]). cbn [lex_step].
  destruct (is_open c); [apply open_effect_pos|]. unfold lex_effect. intros H. repeat case_match; simplify_eq/=; done.
Qed.

(** What a call leaves to scan. *)
Lemma macro_args_suffix lxs args :
  macro_args lxs = Some args -> lexed lxs = true ->
  length args < length lxs /\ lexed args = true
  /\ length (source_of args) <= length (source_of lxs)
  /\ drop (length (source_of lxs) - length (source_of args)) (source_of lxs) = source_of args.
Proof.
  intros (t1 & t2 & d & -> & _)%macro_args_split Hl.
  change (LByte "!" :: t2 ++ LByte d :: args)%list with ([LByte "!"] ++ t2 ++ [LByte d] ++ args)%list in *.
  rewrite !app_assoc in Hl |- *. rewrite source_of_app, length_app, (length_app (source_of _)). split_and!.
  - rewrite length_app. simpl. lia.
  - by apply lexed_app in Hl.
  - lia.
  - rewrite Nat.add_sub. by rewrite drop_app_length.
Qed.
Lemma lex_run_call var before name lxs args s :
  macro_args lxs = Some args ->
  exists before', calm before' args /\
    lex_run var (LWord name :: before) lxs s
    = match open_effect var (Some name) args s with
      | Some s => lex_run var before' args (bump (length (source_of lxs) - length (source_of args)) s)
      | None => inr RuntimeValue
      end.
Proof.
  intros (t1 & t2 & d & -> & H1 & H2 & Ho & _)%macro_args_split.
  destruct (lex_run_macro var before name t1 t2 d args s H1 H2 Ho) as [before' ->].
  exists (LByte d :: before'). split; [by apply calm_args|].
  replace (length (source_of (t1 ++ LByte "!" :: t2 ++ LByte d :: args)) - length (source_of args))
    with (length (source_of (t1 ++ LByte "!" :: t2 ++ [LByte d]))); [done|].
  change (LByte "!" :: t2 ++ LByte d :: args)%list with ([LByte "!"] ++ t2 ++ [LByte d] ++ args)%list.
  change (LByte "!" :: t2 ++ [LByte d])%list with ([LByte "!"] ++ t2 ++ [LByte d])%list.
  rewrite !source_of_app, !length_app. lia.
Qed.

(** The scanner on the text of lexemes goes lexeme by lexeme. *)
Lemma left_scan_lexemes var bytes n : forall m before lxs s,
  length lxs <= n -> length (source_of lxs) <= m -> drop (sc_i s) bytes = source_of lxs -> lexed lxs = true ->
  calm before lxs -> left_scan var bytes m s = lex_run var before lxs s.
Proof.
  induction n as [|n IH]; intros m before [|lx lxs] s Hn Hm Hd Hl Hc; simpl in Hn; try lia.
  1,2: destruct m as [|m]; [done|]; cbn [left_scan]; by rewrite Hd.
  cbn [lexed] in Hl. apply andb_true_iff in Hl as [Hx Hl]. pose proof (text_of_pos _ _ Hx) as Hpos.
  change (source_of (lx :: lxs)) with (text_of lx ++ source_of lxs)%list in *. rewrite length_app in Hm.
  destruct m as [|m]; [lia|]. cbn [left_scan]. rewrite Hd.
  destruct (match lx with LWord _ => true | _ => false end) eqn:Hw.
  - destruct lx as [| | | | | | | |name|]; try done. cbn [text_of] in *. rewrite (left_pass_word _ _ _ _ Hx Hl).
    cbn [lex_run lex_step text_of]. pose proof (drop_app_at _ _ _ _ Hd) as Hd'.
    destruct (macro_args lxs) as [args|] eqn:Hargs.
    + rewrite bool_decide_true by done.
      destruct (lex_run_call var before name lxs args (bump (length name) (noted name true s)) Hargs) as (before' & Hc' & ->).
      rewrite open_effect_bump. destruct (open_effect _ _ _ _) as [s'|] eqn:He; [|done]. cbn [fmap option_fmap option_map].
      apply open_effect_pos in He. apply macro_args_suffix in Hargs as (H1 & H2 & H3 & H4); [|done].
      rewrite bump_bump. apply IH; [lia|lia| |done..]. cbn. rewrite He, Nat.add_assoc. cbn.
      by rewrite (drop_plus _ _ _ _ Hd').
    + rewrite bool_decide_false by (by intros []). apply IH; [lia|lia|done..|by apply calm_next].
  - destruct (left_pass_other var before lx lxs s Hx ltac:(by destruct lx) Hc) as (s' & Hs & ->). cbn [lex_run]. rewrite Hs.
    apply lex_step_pos in Hs. apply IH; [lia|lia| |done|apply calm_next; [done|by destruct lx]].
    cbn. rewrite Hs. by apply drop_app_at in Hd.
Qed.

(** ** What the flags mean *)

Definition value_read (var : string) (before : list Lexeme) (lx : Lexeme) (args : list Lexeme) : bool :=
  env_call before lx && negb (in_include before)
  && match literal_arg args with Some name => String.eqb name var | None => negb (excluded var args) end.
Definition locator (var : string) (before : list Lexeme) (lx : Lexeme) (args : list Lexeme) : bool :=
  env_call before lx && in_include before
  && match literal_arg args with Some name => String.eqb name var | None => false end.
Definition prefix_read (var : string) (before : list Lexeme) (lx : Lexeme) (args : list Lexeme) : bool :=
  env_call before lx && negb (in_include before)
  && match literal_arg args with Some _ => false | None => excluded var args end.
Definition binding (before : list Lexeme) (lx : Lexeme) (after : list Lexeme) : bool :=
  match lx with
  | LWord name =>
      bytes_are name "macro_use" || (bytes_are name "concat" && negb (bool_decide (is_Some (macro_args after))))
  | LByte c => Ascii.eqb c "*" && in_use_item before
  | _ => false
  end.

(** The state knows the delimiters and the [use] items of the text before it. *)
Definition knows (before : list Lexeme) (s : Scan) : Prop :=
  depth_ok s /\ sc_groups s = groups_at before /\ sc_use_item s = in_use_item before.
Lemma knows_depth before s : knows before s -> (0 <? sc_include_depth s) = in_include before.
Proof.
  intros (Hd & Hg & _). rewrite Hd, Hg. unfold in_include, open_includes. clear.
  induction (groups_at before) as [|[] gs IH]; [done..|]. apply IH.
Qed.

(** One lexeme: the scan stops exactly at a value read, and each flag gains
    what the lexeme shows. *)
Definition gains (var : string) (before : list Lexeme) (lx : Lexeme) (after : list Lexeme) (s s' : Scan) : Prop :=
  sc_include_locator s' = sc_include_locator s || locator var before lx after
  /\ sc_concat_prefix s' = sc_concat_prefix s || prefix_read var before lx after
  /\ sc_concat_binding s' = sc_concat_binding s || binding before lx after.
Definition step_meets (var : string) (before : list Lexeme) (lx : Lexeme) (after : list Lexeme) (s : Scan) : Prop :=
  match lex_step var before lx after s with
  | None => value_read var before lx after = true
  | Some s' => value_read var before lx after = false /\ knows (lx :: before) s' /\ gains var before lx after s s'
  end.

Lemma open_step_meets var before c after s :
  knows before s -> is_open c = true -> step_meets var before (LByte c) after s.
Proof.
  intros Hk Ho. pose proof (knows_depth _ _ Hk) as Hin. destruct Hk as (Hd & Hg & Hu).
  assert (Ascii.eqb c "*" = false /\ Ascii.eqb c ";" = false) as [Hstar Hsemi].
  { unfold is_open in Ho. rewrite !orb_true_iff, !Ascii.eqb_eq in Ho. by destruct Ho as [[-> | ->] | ->]. }
  unfold step_meets, value_read, gains, locator, prefix_read, binding, env_call, knows, depth_ok in *. cbn [lex_step].
  cbn [groups_at in_use_item]. rewrite Ho, Hstar, Hsemi. unfold open_effect, env_effect.
  destruct (macro_name before) as [name|].
  2: { destruct s; cbn in *. rewrite Hd, Hg, !orb_false_r. unfold open_includes. split_and!; try done; cbn; lia. }
  destruct (is_env_macro name); cbn [andb].
  2: { destruct s; cbn in *. rewrite Hd, Hg, !orb_false_r. unfold open_includes. split_and!; try done; cbn; lia. }
  rewrite Hin. destruct (in_include before), (literal_arg after) as [arg|]; cbn [negb andb].
  1,3: destruct (String.eqb arg var); cbn [negb andb].
  6: destruct (excluded var after).
  all: try done; destruct s; cbn in *; rewrite ?orb_false_r, ?orb_true_r.
  all: rewrite Hd, Hg; unfold open_includes; split_and!; try done; cbn; lia.
Qed.
Lemma lex_step_meets var before lx after s : knows before s -> step_meets var before lx after s.
Proof.
  intros Hk. destruct lx as [| | | | | | | |name|c].
  10: destruct (is_open c) eqn:Ho; [by apply open_step_meets|].
  all: destruct Hk as (Hd & Hg & Hu);
       unfold step_meets, value_read, gains, locator, prefix_read, binding, env_call, knows, depth_ok in *; cbn [lex_step groups_at in_use_item].
  1-8: by rewrite !orb_false_r.
  - destruct s; cbn in *. rewrite !orb_false_r. split_and!; try done. rewrite Hu. apply orb_comm.
  - rewrite Ho. cbn [andb]. unfold lex_effect. rewrite Ho, !orb_false_r.
    destruct (Ascii.eqb_spec c ";") as [->|]; [destruct s; cbn in *; by rewrite orb_false_r|].
    destruct (Ascii.eqb_spec c "*") as [->|].
    { cbn [andb]. rewrite Hu. destruct s; cbn in *. subst. destruct (in_use_item before); cbn; by rewrite ?orb_false_r, ?orb_true_r. }
    destruct (is_close c); destruct s; cbn in *; rewrite ?orb_false_r; [|done]. rewrite <- Hg, Hd. unfold open_includes.
    split_and!; try done. destruct sc_groups as [|[] gs]; cbn; lia.
Qed.

(** The whole run. *)
Lemma lex_run_meets var lxs : forall before s,
  knows before s ->
  match lex_run var before lxs s with
  | inr u => u = RuntimeValue /\ somewhere (value_read var) before lxs = true
  | inl s' =>
      somewhere (value_read var) before lxs = false
      /\ sc_include_locator s' = sc_include_locator s || somewhere (locator var) before lxs
      /\ sc_concat_prefix s' = sc_concat_prefix s || somewhere (prefix_read var) before lxs
      /\ sc_concat_binding s' = sc_concat_binding s || somewhere binding before lxs
  end.
Proof.
  induction lxs as [|lx lxs IH]; intros before s Hk; cbn [lex_run somewhere]; [by rewrite !orb_false_r|].
  pose proof (lex_step_meets var before lx lxs s Hk) as Hm. unfold step_meets in Hm.
  destruct (lex_step var before lx lxs s) as [s1|]; [|by rewrite Hm].
  destruct Hm as (Hv & Hk1 & Hl & Hp & Hb). rewrite Hv. cbn [orb].
  specialize (IH (lx :: before) (bump (length (text_of lx)) s1) Hk1).
  destruct (lex_run _ _ _ _) as [s2|]; [|done]. cbn in IH. rewrite Hl, Hp, Hb, <- !orb_assoc in IH. done.
Qed.

(** C5. The answer of the scanner on the text of lexemes is the one their uses of
    the variable call for. *)
Theorem scan_reads_tokens (lxs : list Lexeme) (var : string) :
  lexed lxs = true -> source_env_dep_use_bytes (source_of lxs) var = Ok (expected_use var lxs).
Proof.
  intros Hl. unfold source_env_dep_use_bytes. rewrite source_scan_at by done. f_equal. unfold left_answer.
  rewrite (left_scan_lexemes _ _ (length lxs) _ [] lxs) by done.
  assert (knows [] scan_start) as Hk by done. pose proof (lex_run_meets var lxs [] scan_start Hk) as Hm.
  unfold expected_use, reads_value, locates_include, relies_on_prefix, binds_concat.
  fold (value_read var) (locator var) (prefix_read var) binding.
  destruct (lex_run _ _ _ _) as [s|u]; [|by destruct Hm as [-> ->]].
  destruct Hm as (-> & H1 & H2 & H3). unfold scan_answer. rewrite H1, H2, H3. done.
Qed.
