(* ===== verification/DepInfoText.v ===== *)
(** * Dep-info

    The dep-info file rustc writes and the parser of [src/cache_key.rs] that
    reads from it the sources and the environment variables of a compilation.
    [dep_info_text] is the file as rustc writes it: spaces in file names and
    backslashes and line breaks in values are escaped. *)

From S2P Require Import Prelude Strings Codec StorePolicy PePdb CargoLayout RustcArgs RustcArgsProofs.
#[local] Open Scope string_scope.
#[local] Open Scope Z_scope.

Record DepInfo := { di_source_files : list string; di_env_deps : list (string * option string) }.

(** ** The order of paths *)

(** [Ord] of [Component] and of [Path]: by components, not by bytes. *)
Definition component_rank (c : Component) : Z :=
  match c with RootDir => 1 | CurDir => 2 | ParentDir => 3 | Normal _ => 4 end.
Definition component_compare (a b : Component) : comparison :=
  match a, b with
  | Normal x, Normal y => String.compare x y
  | _, _ => Z.compare (component_rank a) (component_rank b)
  end.
Fixpoint components_compare (a b : list Component) : comparison :=
  match a, b with
  | [], [] => Eq
  | [], _ :: _ => Lt
  | _ :: _, [] => Gt
  | x :: a, y :: b => match component_compare x y with Eq => components_compare a b | c => c end
  end.
Definition path_leb (a b : string) : bool :=
  match components_compare (components a) (components b) with Gt => false | _ => true end.

(** ** Parsing *)

Fixpoint parse_deps (current s : string) : list string :=
  match s with
  | "" => if String.eqb current "" then [] else [current]
  | String c s' =>
      if Ascii.eqb c backslash then
        match s' with
        | String d s'' => if Ascii.eqb d " " then parse_deps (current ++ " ") s'' else parse_deps (current ++ String backslash "") s'
        | "" => [current ++ String backslash ""]
        end
      else if Ascii.eqb c " " then
        if String.eqb current "" then parse_deps "" s' else current :: parse_deps "" s'
      else parse_deps (current ++ String c "") s'
  end.
Definition parse_dep_info (dep_info : string) : list string :=
  match head (lines dep_info) with
  | None => []
  | Some line =>
      match split_once_str ": " line with
      | None => []
      | Some (_, rest) => sort_by path_leb (parse_deps "" rest)
      end
  end.
Fixpoint unescape_env_dep_value (s : string) : string :=
  match s with
  | "" => ""
  | String c s' =>
      if negb (Ascii.eqb c backslash) then String c (unescape_env_dep_value s')
      else match s' with
      | "" => String backslash ""
      | String d s'' =>
          if Ascii.eqb d "n" then String newline (unescape_env_dep_value s'')
          else if Ascii.eqb d "r" then String carriage_return (unescape_env_dep_value s'')
          else if Ascii.eqb d backslash then String backslash (unescape_env_dep_value s'')
          else String backslash (String d (unescape_env_dep_value s''))
      end
  end.
Definition ENV_DEP : string := "# env-dep:".
Definition env_dep_line (line : string) : option (string * option string) :=
  env_dep ← strip_prefix ENV_DEP line;
  Some (match split_once "=" env_dep with
        | Some (var, val) => (var, Some (unescape_env_dep_value val))
        | None => (env_dep, None)
        end).
Definition env_dep_leb (a b : string * option string) : bool := String.leb a.1 b.1.
Definition parse_env_dep_info (dep_info : string) : list (string * option string) :=
  sort_by env_dep_leb (omap env_dep_line (lines dep_info)).
(** [String::from_utf8] *)
Definition read_dep_info_file (bytes : string) : option string := if valid_utf8 bytes then Some bytes else None.
Definition dep_info_from_emitted (bytes source_file : string) : option DepInfo :=
  content ← read_dep_info_file bytes;
  let source_files := parse_dep_info content in
  Some {| di_source_files := if bool_decide (source_files = []) then [source_file] else source_files;
          di_env_deps := parse_env_dep_info content |}.

(** ** What rustc writes *)

Fixpoint escape_dep_filename (s : string) : string :=
  match s with
  | "" => ""
  | String c s => if Ascii.eqb c " " then String backslash (String " " (escape_dep_filename s)) else String c (escape_dep_filename s)
  end.
Fixpoint escape_dep_env (s : string) : string :=
  match s with
  | "" => ""
  | String c s =>
      if Ascii.eqb c backslash then String backslash (String backslash (escape_dep_env s))
      else if Ascii.eqb c newline then String backslash (String "n" (escape_dep_env s))
      else if Ascii.eqb c carriage_return then String backslash (String "r" (escape_dep_env s))
      else String c (escape_dep_env s)
  end.
Definition written_env_dep (vv : string * option string) : string :=
  ENV_DEP ++ vv.1 ++ (if vv.2 is Some v then "=" ++ escape_dep_env v else "").
(** The rule of the crate, other rules, and the variables. *)
Definition dep_info_lines (target : string) (files others : list string) (env : list (string * option string)) : list string :=
  (target ++ ": " ++ join_with " " (map escape_dep_filename files)) :: (others ++ map written_env_dep env)%list.
Definition dep_info_text (target : string) (files others : list string) (env : list (string * option string)) : string :=
  concat_str (map (fun l => l ++ String newline "") (dep_info_lines target files others env)).

(** A name that can be written: not empty, on one line, and not ending in a
    backslash, which the next separator would turn into a space. *)
Definition writable_file (f : string) : bool :=
  negb (String.eqb f "") && negb (has_line_break f) && negb (ends_with (String backslash "") f).
Definition writable_var (v : string) : bool := negb (has_line_break v) && negb (contains_byte "=" v).
Definition writable_target (t : string) : bool := negb (has_line_break t) && negb (contains ": " t) && negb (starts_with "#" t).
Definition writable_other (l : string) : bool := negb (has_line_break l) && negb (starts_with ENV_DEP l).

(** ** Round trip *)

Lemma unescape_escape v : unescape_env_dep_value (escape_dep_env v) = v.
Proof.
  induction v as [|c v IH]; [done|]. cbn [escape_dep_env].
  destruct (Ascii.eqb_spec c backslash) as [->|Hb]; [cbn; by rewrite IH|].
  destruct (Ascii.eqb_spec c newline) as [->|]; [cbn; by rewrite IH|].
  destruct (Ascii.eqb_spec c carriage_return) as [->|]; [cbn; by rewrite IH|].
  cbn [unescape_env_dep_value]. rewrite (proj2 (Ascii.eqb_neq _ _) Hb). cbn. by rewrite IH.
Qed.
Lemma escape_front f rest c : escape_dep_filename f ++ rest = String " " c -> f = "".
Proof. destruct f as [|a f]; [done|]. cbn. destruct (Ascii.eqb_spec a " ") as [->|Ha]; intros [=]; done. Qed.
Lemma parse_escaped f : forall current rest,
  ends_with (String backslash "") f = false \/ starts_with " " rest = false ->
  parse_deps current (escape_dep_filename f ++ rest) = parse_deps (current ++ f) rest.
Proof.
  induction f as [|c f IH]; intros current rest Hend; [by rewrite string_app_nil_r|].
  assert (ends_with (String backslash "") f = false \/ starts_with " " rest = false) as Hend'.
  { destruct Hend as [H|]; [left|by right]. revert H. unfold ends_with.
    destruct (strip_suffix _ f) as [r|] eqn:E; [|done]. apply strip_suffix_Some in E as ->.
    by rewrite (proj2 (strip_suffix_Some (String backslash "") (String c (r ++ String backslash "")) (String c r)) eq_refl). }
  cbn [escape_dep_filename]. destruct (Ascii.eqb_spec c " ") as [->|Hc].
  - change (parse_deps (current ++ " ") (escape_dep_filename f ++ rest) = parse_deps (current ++ String " " f) rest).
    rewrite (IH _ _ Hend'). by rewrite <- string_app_assoc.
  - replace (current ++ String c f) with ((current ++ String c "") ++ f) by (by rewrite <- string_app_assoc).
    rewrite <- (IH _ _ Hend'). cbn [String.append parse_deps]. destruct (Ascii.eqb_spec c backslash) as [->|Hb].
    2: by rewrite (proj2 (Ascii.eqb_neq _ _) Hc).
    destruct (escape_dep_filename f ++ rest) as [|d t] eqn:E.
    { by destruct current. }
    destruct (Ascii.eqb_spec d " ") as [->|]; [|done]. exfalso. pose proof (escape_front _ _ _ E) as ->. cbn in E. subst rest.
    by destruct Hend.
Qed.
Lemma parse_escaped_files files :
  Forall (fun f => writable_file f = true) files -> parse_deps "" (join_with " " (map escape_dep_filename files)) = files.
Proof.
  induction 1 as [|f files Hf Hall IH]; [done|]. unfold writable_file in Hf. bool_to_prop.
  destruct files as [|g files].
  - cbn [map join_with]. rewrite <- (string_app_nil_r (escape_dep_filename f)), parse_escaped by (by left).
    cbn. by rewrite (proj2 (String.eqb_neq _ _)).
  - change (join_with " " (map escape_dep_filename (f :: g :: files)))
      with (escape_dep_filename f ++ " " ++ join_with " " (map escape_dep_filename (g :: files))).
    rewrite parse_escaped by (by left). cbn [String.append parse_deps]. change (Ascii.eqb " " backslash) with false.
    change (Ascii.eqb " " " ") with true. cbv iota. rewrite (proj2 (String.eqb_neq _ _)) by done. by rewrite IH.
Qed.

Lemma line_break_app a b : has_line_break (a ++ b) = has_line_break a || has_line_break b.
Proof.
  unfold has_line_break, contains_byte. rewrite !all_bytes_app, !negb_andb.
  by destruct (all_bytes _ a), (all_bytes _ b), (all_bytes _ a), (all_bytes _ b).
Qed.
Lemma line_break_cons c s :
  has_line_break (String c s) = Ascii.eqb c newline || Ascii.eqb c carriage_return || has_line_break s.
Proof.
  unfold has_line_break, contains_byte. cbn [all_bytes]. rewrite !negb_andb, !negb_involutive.
  by destruct (Ascii.eqb c newline), (Ascii.eqb c carriage_return), (all_bytes _ s), (all_bytes _ s).
Qed.
Lemma escape_filename_line f : has_line_break (escape_dep_filename f) = has_line_break f.
Proof.
  induction f as [|c f IH]; [done|]. cbn [escape_dep_filename]. destruct (Ascii.eqb_spec c " ") as [->|].
  - rewrite !line_break_cons, IH. done.
  - by rewrite !line_break_cons, IH.
Qed.
Lemma escape_env_line v : has_line_break (escape_dep_env v) = false.
Proof.
  induction v as [|c v IH]; [done|]. cbn [escape_dep_env].
  destruct (Ascii.eqb c backslash); [by rewrite !line_break_cons, IH|].
  destruct (Ascii.eqb c newline) eqn:Hn; [by rewrite !line_break_cons, IH|].
  destruct (Ascii.eqb c carriage_return) eqn:Hr; [by rewrite !line_break_cons, IH|]. by rewrite line_break_cons, Hn, Hr, IH.
Qed.
Lemma join_line l : Forall (fun s => has_line_break s = false) l -> has_line_break (join_with " " l) = false.
Proof.
  induction 1 as [|s l Hs Hl IH]; [done|]. destruct l as [|t l]; [done|].
  change (join_with " " (s :: t :: l)) with (s ++ " " ++ join_with " " (t :: l)). by rewrite !line_break_app, Hs, IH.
Qed.
Lemma dep_info_lines_ok target files others env :
  writable_target target = true -> Forall (fun f => writable_file f = true) files ->
  Forall (fun l => writable_other l = true) others -> Forall (fun vv => writable_var vv.1 = true) env ->
  Forall (fun l => has_line_break l = false) (dep_info_lines target files others env).
Proof.
  intros Ht Hf Ho He. unfold dep_info_lines. constructor; [|apply Forall_app; split].
  - unfold writable_target in Ht. bool_to_prop. rewrite !line_break_app, join_line; [by rewrite orb_false_r; bool_to_prop|].
    apply Forall_map. eapply Forall_impl; [exact Hf|]. intros f Hw. rewrite escape_filename_line. unfold writable_file in Hw. by bool_to_prop.
  - eapply Forall_impl; [exact Ho|]. intros l Hw. unfold writable_other in Hw. by bool_to_prop.
  - apply Forall_map. eapply Forall_impl; [exact He|]. intros [v o] Hw. unfold writable_var, written_env_dep in *. cbn [fst snd] in *.
    apply andb_true_iff in Hw as [Hw%negb_true_iff _]. rewrite !line_break_app, Hw.
    destruct o as [x|]; [by rewrite line_break_app, escape_env_line|done].
Qed.
Lemma split_once_str_first target rest :
  contains ": " target = false -> split_once_str ": " (target ++ ": " ++ rest) = Some (target, rest).
Proof.
  induction target as [|c t IH]; intros Hc; [done|]. cbn [contains] in Hc. apply orb_false_iff in Hc as [Hp Ht].
  change (String c t ++ ": " ++ rest) with (String c (t ++ ": " ++ rest)). cbn [split_once_str].
  destruct (strip_prefix ": " (String c (t ++ ": " ++ rest))) as [r|] eqn:E; [|by rewrite (IH Ht)].
  exfalso. apply strip_prefix_Some in E. cbn in E. injection E as -> E. destruct t as [|d t]; [done|]. cbn in E. injection E as -> _. done.
Qed.
Lemma split_once_none c s : contains_byte c s = false -> split_once c s = None.
Proof.
  unfold contains_byte. rewrite negb_false_iff. induction s as [|a s IH]; [done|]. cbn. intros [Ha%negb_true_iff Hs]%andb_true_iff.
  rewrite Ha, (IH Hs). done.
Qed.
Lemma env_line_round_trip vv : writable_var vv.1 = true -> env_dep_line (written_env_dep vv) = Some vv.
Proof.
  destruct vv as [v o]. unfold writable_var, env_dep_line, written_env_dep. cbn [fst snd]. intros H. bool_to_prop.
  rewrite strip_prefix_app. cbn [mbind option_bind]. destruct o as [x|].
  - change (v ++ "=" ++ escape_dep_env x) with (v ++ String "=" (escape_dep_env x)). rewrite split_once_app by (unfold contains_byte in *; by bool_to_prop).
    by rewrite unescape_escape.
  - rewrite string_app_nil_r. by rewrite split_once_none.
Qed.

Lemma not_env_dep_lines l : Forall (fun s => starts_with ENV_DEP s = false) l -> omap env_dep_line l = [].
Proof.
  induction 1 as [|s l Hs _ IH]; [done|]. cbn [omap list_omap].
  assert (env_dep_line s = None) as ->; [|done]. unfold env_dep_line, starts_with in *. by destruct (strip_prefix ENV_DEP s).
Qed.
Lemma env_dep_lines_round_trip env :
  Forall (fun vv => writable_var vv.1 = true) env -> omap env_dep_line (map written_env_dep env) = env.
Proof. induction 1 as [|vv env Hv _ IH]; [done|]. cbn [map omap list_omap]. by rewrite env_line_round_trip; [f_equal|]. Qed.
Lemma rule_not_env_dep target rest : starts_with "#" target = false -> starts_with ENV_DEP (target ++ ": " ++ rest) = false.
Proof.
  destruct target as [|c t]; [done|]. unfold starts_with. cbn [strip_prefix String.append ENV_DEP]. destruct (Ascii.eqb "#" c); [|done].
  by destruct t.
Qed.

(** The parser reads back what rustc wrote: the sources in path order, and the
    variables with their values by name. *)
Theorem dep_info_round_trip (target : string) (files others : list string) (env : list (string * option string)) :
  writable_target target = true -> Forall (fun f => writable_file f = true) files ->
  Forall (fun l => writable_other l = true) others -> Forall (fun vv => writable_var vv.1 = true) env ->
  parse_dep_info (dep_info_text target files others env) = sort_by path_leb files
  /\ parse_env_dep_info (dep_info_text target files others env) = sort_by env_dep_leb env.
Proof.
  intros Ht Hf Ho He. unfold parse_dep_info, parse_env_dep_info, dep_info_text.
  rewrite (lines_unlines _ (dep_info_lines_ok _ _ _ _ Ht Hf Ho He)). unfold writable_target in Ht. bool_to_prop. split.
  - unfold dep_info_lines. cbn [head]. rewrite split_once_str_first by done. by rewrite parse_escaped_files.
  - f_equal. unfold dep_info_lines. rewrite app_comm_cons, omap_app, (env_dep_lines_round_trip _ He), not_env_dep_lines; [done|].
    constructor; [by apply rule_not_env_dep|]. eapply Forall_impl; [exact Ho|]. intros l Hw. unfold writable_other in Hw. by bool_to_prop.
Qed.
