(* ===== verification/KeyFold.v ===== *)
(** * Folding inputs into a cache key

    The fold primitives of [src/cache_key.rs] (the grouped hasher, framed fields,
    the salt and the declared environment variables), the scrubbing of remap
    flags, and the environment snapshot of [src/key_env.rs].  A hasher is the
    bytes it was fed; [blake3_hex] is the parameter that digests them. *)

From S2P Require Import Prelude Strings Codec StorePolicy CargoLayout RustcArgs PathNormalizer.
#[local] Open Scope string_scope.
#[local] Open Scope Z_scope.

(** ** Records *)

(** What the recipe feeds the hasher: [label value LF], [label len value], and
    [name=value LF]; or a change of the group. *)
Inductive KeyRecord :=
| KGroup (group : string)
| KText (label value : string)
| KField (label value : string)
| KPair (name value : string).
(** The [update] calls of a record; [fold_field] is the one of [KField]. *)
Definition LF : string := String newline "".
Definition fold_field (label value : string) : list string := [label; to_le_bytes 8 (slen value); value].
Definition updates (r : KeyRecord) : list string :=
  match r with
  | KGroup _ => []
  | KText label value => [label; value; LF]
  | KField label value => fold_field label value
  | KPair name value => [name; "="; value; LF]
  end.

(** ** The grouped hasher *)

Definition KEY_FIELD_HEX : nat := 16.
Record GroupedHasher := { gh_main : string; gh_groups : gmap string string; gh_current : string }.
Definition new_hasher (initial_group : string) : GroupedHasher :=
  {| gh_main := ""; gh_groups := ∅; gh_current := initial_group |}.
Definition set_group (group : string) (h : GroupedHasher) : GroupedHasher :=
  {| gh_main := gh_main h; gh_groups := gh_groups h; gh_current := group |}.
Definition update (h : GroupedHasher) (bytes : string) : GroupedHasher :=
  {| gh_main := gh_main h ++ bytes;
     gh_groups := <[gh_current h := default "" (gh_groups h !! gh_current h) ++ bytes]> (gh_groups h);
     gh_current := gh_current h |}.
Definition fold_record (h : GroupedHasher) (r : KeyRecord) : GroupedHasher :=
  match r with
  | KGroup group => set_group group h
  | _ => fold_left update (updates r) h
  end.
Definition fold_records (records : list KeyRecord) (h : GroupedHasher) : GroupedHasher := fold_left fold_record records h.

(** ** The environment *)

Definition KEY_ENV_VARS : list string :=
  ["CARGO_ENCODED_RUSTFLAGS"; "CARGO_MANIFEST_DIR"; "CARGO_PKG_NAME"; "CARGO_PKG_VERSION"; "CLIPPY_ARGS";
   "CLIPPY_CONF_DIR"; "CLIPPY_DISABLE_DOCS_LINKS"; "KACHE_VERIFY_INPUT_PREDICTIONS"; "LIBRARY_PATH";
   "MACOSX_DEPLOYMENT_TARGET"; "OUT_DIR"; "RUSTC_BOOTSTRAP"; "RUSTFLAGS"; "SDKROOT"].
Definition CARGO_CFG_PREFIX : string := "CARGO_CFG_".
Record KeyEnv := { ke_vars : list (string * string); ke_cargo_cfgs : list (string * string); ke_cwd : option string }.
(** [None] for a name that is not UTF-8. *)
Definition declared_name (name : string) : option string :=
  name ← to_str name; if one_of KEY_ENV_VARS name then Some name else None.
Definition key_env_from_parts (vars : list (string * string)) (cwd : option string) : KeyEnv :=
  {| ke_vars := List.filter (fun kv => is_some (declared_name kv.1)) vars;
     ke_cargo_cfgs := List.filter (fun kv =>
       negb (is_some (declared_name kv.1)) && starts_with CARGO_CFG_PREFIX (to_string_lossy kv.1)) vars;
     ke_cwd := cwd |}.
Definition key_env (env : Invocation) : KeyEnv := key_env_from_parts (inv_vars env) (inv_cwd env).
(** The first value, and unset when the name is not declared. *)
Definition ke_var_os (env : KeyEnv) (name : string) : option string :=
  if one_of KEY_ENV_VARS name then assoc (ke_vars env) name else None.
Definition ke_var (env : KeyEnv) (name : string) : option string := ke_var_os env name ≫= to_str.

(** On Unix the bytes of the OS string. *)
Definition env_text_key_bytes (text : string) : string := if valid_utf8 text then text else String "255" text.
Definition cfg_leb (a b : string * string) : bool := pair_leb (to_string_lossy a.1, a.1) (to_string_lossy b.1, b.1).
Definition cargo_cfg_pairs (vars : list (string * string)) : list (string * string) :=
  sort_by cfg_leb (List.filter (fun kv => starts_with CARGO_CFG_PREFIX (to_string_lossy kv.1)) vars).

(** ** Remap flags *)

Definition normalize_rustflags (rustflags : string) : string := join_with " " (split_whitespace rustflags).
Definition REMAP_FROM_SENTINEL : string := "<REMAP_FROM>".
Definition EQ_FLAGS : list string :=
  ["--remap-path-prefix="; "-ffile-prefix-map="; "-fdebug-prefix-map="; "-fmacro-prefix-map="].
Definition scrub_remap_value (value : string) : string :=
  match rsplit_once "=" value with
  | Some (_, to) => REMAP_FROM_SENTINEL ++ "=" ++ to
  | None => value
  end.
Definition eq_flag (tok : string) : option (string * string) :=
  head (omap (fun flag => rest ← strip_prefix flag tok; Some (flag, rest)) EQ_FLAGS).
Fixpoint scrub_remap_from_prefixes (tokens : list string) : list string :=
  match tokens with
  | [] => []
  | tok :: rest =>
      match eq_flag tok with
      | Some (flag, value) => (flag ++ scrub_remap_value value) :: scrub_remap_from_prefixes rest
      | None =>
          if String.eqb tok "--remap-path-prefix"
          then tok :: match rest with
                      | value :: rest => scrub_remap_value value :: scrub_remap_from_prefixes rest
                      | [] => []
                      end
          else tok :: scrub_remap_from_prefixes rest
      end
  end.
Definition normalize_direct_remap_value (normalize : string -> string) (value : string) : string :=
  match rsplit_once "=" value with
  | Some (from, to) => normalize from ++ "=" ++ to
  | None => value
  end.

(** ** Declared variables and the salt *)

(** A trailing [*] matches by prefix. *)
Definition pattern_matches (name pattern : string) : bool :=
  match strip_suffix "*" pattern with
  | Some prefix =>
      (slen prefix <=? slen name) && eq_ignore_ascii_case (stake (String.length prefix) name) prefix
  | None => eq_ignore_ascii_case name pattern
  end.
Definition key_env_var_matches (patterns : list string) (name : string) : bool := existsb (pattern_matches name) patterns.
Definition matching_key_env_vars (patterns : list string) (vars : list (string * string)) : list (string * string) :=
  List.filter (fun kv => key_env_var_matches patterns (to_string_lossy kv.1)) vars.
Definition key_env_records (patterns : list string) (matched : list (string * string)) : list KeyRecord :=
  let sorted := if bool_decide (NoDup (map fst matched)) then sort_by pair_leb matched else matched in
  (map (KField "key_env_pattern:") patterns
   ++ flat_map (fun nv => [KField "key_env_name:" nv.1; KField "key_env_val:" nv.2]) sorted)%list.
Definition preimage (records : list KeyRecord) : string := concat_str (concat (map updates records)).

Section Digest.
Context (blake3_hex : string -> string).

(** [finalize_with_fields] *)
Definition finalize_with_fields (h : GroupedHasher) : string * gmap string string :=
  (blake3_hex (gh_main h), (fun bytes => stake KEY_FIELD_HEX (blake3_hex bytes)) <$> gh_groups h).
Definition fold_labeled (base label value : string) : string :=
  blake3_hex (label ++ ":" ++ value ++ String "031" base).
Definition apply_key_salt (base : string) (salt : option string) : string :=
  match salt with
  | Some s => if String.eqb s "" then base else fold_labeled base "key_salt" s
  | None => base
  end.
Definition key_env_digest (patterns : list string) (matched : list (string * string)) : string :=
  blake3_hex (preimage (key_env_records patterns matched)).
Definition apply_key_env_vars_in (base : string) (patterns : list string) (env : Invocation) : string :=
  match patterns with
  | [] => base
  | _ => fold_labeled base "key_env_vars" (key_env_digest patterns (matching_key_env_vars patterns (inv_vars env)))
  end.
Definition key_env_guard_in (patterns : list string) (env : Invocation) : option string :=
  match patterns with
  | [] => None
  | _ => Some (key_env_digest patterns (matching_key_env_vars patterns (inv_vars env)))
  end.
(** [source_path_identity]: a path no rule owns stays local to the machine. *)
Definition key_source_path (rules : list Rule) (file : string) : string :=
  match source_path_identity rules file with
  | Some identity => identity
  | None => "<OPAQUE_PATH>/" ++ blake3_hex ("kache-source-path-v1" ++ String "000" file)
  end.
End Digest.
