(* ===== verification/NativeLink.v ===== *)
(** * Native link inputs of a key

    The part of [src/cache_key.rs] (with [unix_link_arg_inputs] of
    [src/native_link_key.rs]) that finds the archives a compilation bundles or
    links and folds their contents: [-l] specs, [-L] directories, link arguments
    and the scan of search directories.  Directory listings, file tests,
    canonicalisation and the archive digests are parameters; so are the install
    names read from Mach-O files for Apple targets. *)

From S2P Require Import Prelude Strings Codec StorePolicy CargoLayout RustcArgs RustcPolicy PathNormalizer KeyFold.
#[local] Open Scope string_scope.
#[local] Open Scope Z_scope.

(** Why a key is refused. *)
Inductive KeyError :=
| VersionUnreadable | ClippyUnreadable | InputsUnresolved | SourceUnreadable (file : string) | RelativeInput (path : string)
| SideFiles | LinkArgUnmodelled (value : string) | SpecUnmodelled (spec : string) | SpecAmbiguous (spec : string)
| StaticLibMissing (spec : string) | RawLinkArg (spec : string) | LinkInputMissing (file : string)
| ArchiveUnreadable (file : string) | DirUnreadable (dir : string) | BackendUnreadable (backend : string)
| NoHostTriple | UnsupportedLibc (host : string) | ProbeFailed | NoLinkDriver | UndeclaredRead.

(** ** [-l] specs *)

Definition split_or (c : ascii) (s : string) (default_left : string) : string * string :=
  default (default_left, s) (split_once c s).
(** [kind.split_once(':').unwrap_or((kind, ""))] *)
Definition kind_modifiers (kind : string) : string * string := default (kind, "") (split_once ":" kind).

Inductive StaticLibSpec :=
| NotStatic
| StaticArchive (files : list string) (bundle whole_archive : bool)
| UnmodelledSpec (spec : string).
Record Modifiers := { md_verbatim : bool; md_bundle : bool; md_whole_archive : bool }.
Definition read_modifier (m : Modifiers) (modifier : string) : option Modifiers :=
  let '{| md_verbatim := v; md_bundle := b; md_whole_archive := w |} := m in
  if String.eqb modifier "+verbatim" then Some {| md_verbatim := true; md_bundle := b; md_whole_archive := w |}
  else if String.eqb modifier "-verbatim" then Some {| md_verbatim := false; md_bundle := b; md_whole_archive := w |}
  else if String.eqb modifier "+bundle" then Some {| md_verbatim := v; md_bundle := true; md_whole_archive := w |}
  else if String.eqb modifier "-bundle" then Some {| md_verbatim := v; md_bundle := false; md_whole_archive := w |}
  else if String.eqb modifier "+whole-archive" then Some {| md_verbatim := v; md_bundle := b; md_whole_archive := true |}
  else if String.eqb modifier "-whole-archive" then Some {| md_verbatim := v; md_bundle := b; md_whole_archive := false |}
  else if one_of ["+as-needed"; "-as-needed"] modifier then Some m
  else None.
Fixpoint read_modifiers (m : Modifiers) (l : list string) : option Modifiers :=
  match l with
  | [] => Some m
  | modifier :: l => m ← read_modifier m modifier; read_modifiers m l
  end.
Definition static_lib_spec (spec : string) : StaticLibSpec :=
  let '(kind, name) := split_or "=" spec "" in
  let '(kind, modifiers) := kind_modifiers kind in
  if negb (String.eqb kind "framework") && contains_byte ":" name then UnmodelledSpec spec
  else if negb (String.eqb kind "static") then NotStatic
  else if String.eqb name "" then UnmodelledSpec spec
  else match read_modifiers {| md_verbatim := false; md_bundle := true; md_whole_archive := false |}
               (List.filter (fun m => negb (String.eqb m "")) (split_on "," modifiers)) with
       | None => UnmodelledSpec spec
       | Some m =>
           StaticArchive (if md_verbatim m then [name] else ["lib" ++ name ++ ".a"; name ++ ".lib"])
             (md_bundle m) (md_whole_archive m)
       end.
Definition unix_library_request (spec : string) : option (string * bool) :=
  let '(kind, name) := split_or "=" spec "dylib" in
  let '(kind, modifiers) := kind_modifiers kind in
  if negb (String.eqb kind "dylib") || String.eqb name "" then None
  else Some (name, fold_left (fun verbatim m =>
    if String.eqb m "+verbatim" then true else if String.eqb m "-verbatim" then false else verbatim)
    (split_on "," modifiers) false).
Definition framework_request (spec : string) : option string :=
  '(kind, name) ← split_once "=" spec;
  let kind := (kind_modifiers kind).1 in
  let name := match split_once ":" name with Some (_, rename) => rename | None => name end in
  if String.eqb kind "framework" && negb (String.eqb name "") then Some name else None.
Definition is_link_arg_spec (spec : string) : bool :=
  match split_once "=" spec with
  | Some (kind, _) => String.eqb (kind_modifiers kind).1 "link-arg"
  | None => false
  end.
Definition packs_bundled_libs (unstable_flags : list string) : bool :=
  existsb (fun flag =>
    let name := match split_once "=" flag with Some (name, _) => name | None => flag end in
    String.eqb (replace_byte "_" "-" name) "packed-bundled-libs") unstable_flags.
Definition rlib_bundle (spec : StaticLibSpec) (emits_rlib packs_all : bool) : option bool :=
  match spec with
  | StaticArchive _ true whole_archive => if emits_rlib then Some (whole_archive || packs_all) else None
  | _ => None
  end.
(** [effective_native_libraries]: the spec that counts at the last mention of
    each name. *)
Definition effective_step (by_name : gmap string (nat * string)) (il : nat * string) : gmap string (nat * string) :=
  let '(index, library) := il in
  let '(kind, name) := split_or "=" library "" in
  let spec := if String.eqb kind ""
              then match by_name !! name with Some (_, spec) => spec | None => library end
              else library in
  <[name := (index, spec)]> by_name.
Definition effective_native_libraries (libraries : list string) : gmap nat string :=
  list_to_map (map_to_list (fold_left effective_step (imap pair libraries) ∅)).*2.

(** ** Names and targets *)

Definition ends_with_ignore_ascii_case (token suffix : string) : bool :=
  (slen suffix <=? slen token)
  && eq_ignore_ascii_case (sdrop (Z.to_nat (slen token - slen suffix)) token) suffix.
Definition is_native_archive_name (name : string) : bool :=
  ends_with_ignore_ascii_case name ".a" || ends_with_ignore_ascii_case name ".lib".
Definition shared_library_extensions (target : string) : list string :=
  if contains "-apple-" target then ["tbd"; "dylib"; "so"] else ["so"].
(** [next_back] of the features that set [crt-static]. *)
Definition prefers_static_libraries (target_features : list string) (target : string) : bool :=
  default (contains "musl" target)
    (last (omap (fun feature =>
       let f := trim feature in
       if String.eqb f "+crt-static" then Some true else if String.eqb f "-crt-static" then Some false else None)
       (target_features ≫= split_on ","))).
Definition link_target (target rustc_host : option string) : string :=
  match target with Some t => t | None => default "unknown" rustc_host end.
Definition multiarch_name (target : string) : string :=
  match split_on "-" target with
  | [arch; _; os; env] => arch ++ "-" ++ os ++ "-" ++ env
  | _ => target
  end.
Definition default_library_dirs (target : string) (rustc_host library_path : option string) : list string :=
  if negb (bool_decide (rustc_host = Some target)) then [] else
  let from_env := List.filter (fun dir => negb (String.eqb dir ""))
    (match library_path with Some p => split_on ":" p | None => [] end) in
  if contains "-apple-" target then (from_env ++ ["/usr/lib"; "/usr/local/lib"])%list
  else if contains "-linux-" target then
    let m := multiarch_name target in
    let fixed := ["/usr/local/lib/" ++ m; "/lib/" ++ m; "/usr/lib/" ++ m; "/usr/local/lib64"; "/lib64"; "/usr/lib64";
                  "/usr/local/lib"; "/lib"; "/usr/lib"] in
    (from_env ++ fixed)%list
  else [].
Definition is_cargo_package_dir (normalized : string) : bool :=
  match strip_prefix "<CARGO_HOME>" normalized with
  | None => false
  | Some rest =>
      match List.filter (fun part => negb (String.eqb part "")) (split_on slash (replace_byte backslash slash rest)) with
      | a :: b :: _ => (String.eqb a "registry" && String.eqb b "src") || (String.eqb a "git" && String.eqb b "checkouts")
      | _ => false
      end
  end.
Definition SYSTEM_LIBRARY_DIRS : list string :=
  ["/lib"; "/lib32"; "/lib64"; "/libx32"; "/usr/lib"; "/usr/lib32"; "/usr/lib64"; "/usr/libx32"; "/usr/local/lib";
   "/usr/local/lib64"; "/opt/homebrew"; "/usr/local/Cellar"; "/usr/local/opt"; "/home/linuxbrew/.linuxbrew"; "/opt/local";
   "/nix/store"; "/gnu/store"; "/System"; "/Library"; "/Applications"].

(** ** Link arguments *)

Record LinkArgInputs := { la_files : list string; la_dirs : list string; la_libs : list (string * bool) }.
Definition no_inputs : LinkArgInputs := {| la_files := []; la_dirs := []; la_libs := [] |}.
Definition add_dir (dir : string) (i : LinkArgInputs) : LinkArgInputs :=
  {| la_files := la_files i; la_dirs := (la_dirs i ++ [dir])%list; la_libs := la_libs i |}.
Definition add_file (file : string) (i : LinkArgInputs) : LinkArgInputs :=
  {| la_files := (la_files i ++ [file])%list; la_dirs := la_dirs i; la_libs := la_libs i |}.
(** [library_request] *)
Definition library_request (name : string) : string * bool :=
  match strip_prefix ":" name with Some file => (file, true) | None => (name, false) end.
Definition add_lib (name : string) (i : LinkArgInputs) : LinkArgInputs :=
  {| la_files := la_files i; la_dirs := la_dirs i; la_libs := (la_libs i ++ [library_request name])%list |}.
Definition ld64_library_option (token : string) : option string :=
  rest ← strip_prefix "-" token;
  '(modifier, name) ← split_once_str "-l" rest;
  if one_of ["hidden"; "force"; "needed"; "reexport"; "upward"; "weak"; "assert-weak"; "delay"; "merge"] modifier
  then Some name else None.
Fixpoint trim_dashes (s : string) : string :=
  match s with String c s' => if Ascii.eqb c "-" then trim_dashes s' else s | "" => "" end.
Definition takes_non_input_value (token : string) : bool :=
  let option := match split_once "=" token with Some (o, _) => o | None => token end in
  match strip_prefix "-" option with
  | Some option => one_of ["exclude-libs"; "out-implib"; "object_path_lto"] (trim_dashes option)
  | None => false
  end.
Definition link_token_names_input_file (token : string) : bool :=
  existsb (ends_with_ignore_ascii_case token) [".lib"; ".a"; ".obj"; ".o"; ".res"; ".def"; ".exp"; ".manifest"].
Definition link_arg_tokens (key value : string) : list string :=
  let arguments := if String.eqb key "link-args" then split_whitespace value else [value] in
  flat_map (fun argument =>
    match strip_prefix "-Wl," argument with
    | Some payload => split_on "," payload
    | None => [argument]
    end) arguments.
Definition value_of (value : string) (next : option string) : result KeyError string :=
  match next with
  | Some n => if String.eqb n "" then Err (LinkArgUnmodelled value) else Ok n
  | None => Err (LinkArgUnmodelled value)
  end.
(** The first of the library spellings of a token. *)
Definition library_option (token : string) : option string :=
  match strip_prefix "--library=" token with
  | Some name => Some name
  | None => match strip_prefix "-l" token with Some name => Some name | None => ld64_library_option token end
  end.
(** The token's own step: what it adds, and whether the next token is its
    value. *)
Definition link_token (value token : string) (next : option string) (inputs : LinkArgInputs)
    : result KeyError (LinkArgInputs * bool) :=
  if String.eqb token "-L" then dir ← value_of value next; Ok (add_dir dir inputs, true)
  else if starts_with "-L=" token || starts_with "--library-path" token then Err (LinkArgUnmodelled value)
  else match strip_prefix "-L" token with
  | Some dir => Ok (add_dir dir inputs, false)
  | None =>
      if one_of ["-l"; "--library"] token then name ← value_of value next; Ok (add_lib name inputs, true)
      else match library_option token with
      | Some name => if String.eqb name "" then Err (LinkArgUnmodelled value) else Ok (add_lib name inputs, false)
      | None =>
          if takes_non_input_value token then Ok (inputs, negb (contains_byte "=" token))
          else
            let operand :=
              if starts_with "--" token
              then match split_once "=" token with Some (_, v) => v | None => token end else token in
            if negb (link_token_names_input_file operand) then Ok (inputs, false)
            else if negb (is_absolute operand) then Err (LinkArgUnmodelled value)
            else Ok (add_file operand inputs, false)
      end
  end.
Fixpoint link_tokens (value : string) (tokens : list string) (inputs : LinkArgInputs) : result KeyError LinkArgInputs :=
  match tokens with
  | [] => Ok inputs
  | token :: rest =>
      '(inputs, takes) ← link_token value token (head rest) inputs;
      match takes, rest with
      | true, _ :: rest => link_tokens value rest inputs
      | _, _ => link_tokens value rest inputs
      end
  end.
Definition unix_link_arg_inputs (key value : string) : result KeyError LinkArgInputs :=
  link_tokens value (link_arg_tokens key value) no_inputs.
Definition is_link_arg (kv : string * option string) : bool := one_of ["link-arg"; "link-args"] kv.1.
Definition unix_link_arguments (args : RustcArgs) : result KeyError LinkArgInputs :=
  try_fold (fun inputs kv =>
    match kv.2 with
    | Some value =>
        if is_link_arg kv then
          parsed ← unix_link_arg_inputs kv.1 value;
          Ok {| la_files := (la_files inputs ++ la_files parsed)%list; la_dirs := (la_dirs inputs ++ la_dirs parsed)%list;
                la_libs := (la_libs inputs ++ la_libs parsed)%list |}
        else Ok inputs
    | None => Ok inputs
    end) no_inputs (ra_codegen_opts args).
(** [native_linker_side_files_are_unmodeled], off Apple. *)
Definition APPLE_TARGETS : list string :=
  ["aarch64-apple-darwin"; "aarch64-apple-ios"; "aarch64-apple-ios-macabi"; "aarch64-apple-ios-sim"; "aarch64-apple-tvos";
   "aarch64-apple-tvos-sim"; "aarch64-apple-visionos"; "aarch64-apple-visionos-sim"; "aarch64-apple-watchos";
   "aarch64-apple-watchos-sim"; "arm64_32-apple-watchos"; "arm64e-apple-darwin"; "arm64e-apple-ios"; "arm64e-apple-tvos";
   "armv7k-apple-watchos"; "armv7s-apple-ios"; "i386-apple-ios"; "i686-apple-darwin"; "x86_64-apple-darwin";
   "x86_64-apple-ios"; "x86_64-apple-ios-macabi"; "x86_64-apple-tvos"; "x86_64-apple-watchos-sim"; "x86_64h-apple-darwin"].
Definition is_builtin_apple_target (target : string) : bool := one_of APPLE_TARGETS target.
Definition ascii_prefix_eq_ignore_case (value prefix : string) : bool :=
  (slen prefix <=? slen value) && eq_ignore_ascii_case (stake (String.length prefix) value) prefix.
Definition token_names_side_file (apple_target : bool) (token : string) : bool :=
  one_of ["-map"; "-Map"; "--Map"; "-order_file"; "-sectorder"; "--symbol-ordering-file"; "--call-graph-ordering-file";
          "--section-ordering-file"] token
  || eq_ignore_ascii_case token "/map"
  || existsb (ascii_prefix_eq_ignore_case token) ["/map:"; "/mapinfo:"; "/order:"; "/call-graph-ordering-file:"]
  || (starts_with "@" token
      && negb (apple_target && existsb (fun p => String.eqb token p || starts_with (p ++ "/") token)
                                 ["@loader_path"; "@rpath"; "@executable_path"])).
Definition linker_value_has_unmodeled_file (value : string) (apple_target : bool) : bool :=
  existsb (token_names_side_file apple_target)
    (split_on_any [","%char; "="%char; " "%char; Ascii.ascii_of_nat 9; newline; carriage_return] value).
Definition native_linker_side_files_are_unmodeled (args : RustcArgs) : bool :=
  let apple_target := match ra_target args with Some t => is_builtin_apple_target t | None => false end in
  existsb (fun kv => is_link_arg kv
    && match kv.2 with Some value => linker_value_has_unmodeled_file value apple_target | None => false end)
    (ra_codegen_opts args).

(** ** Directories *)

Record BundledArchive := { ba_path : string; ba_packed : bool }.
Record KeyedNativeArchives := { kn_archives : list string; kn_bundled : list BundledArchive; kn_dirs : list string }.
Inductive StaticLibUse := UseBundled | UseLinked.
(** What the computation asks of the machine. *)
Record LinkProbes := {
  lp_is_file : string -> bool;
  lp_canonicalize : string -> option string;
  lp_read_dir : string -> result KeyError (list string);
  lp_has_archive_magic : string -> result KeyError bool;
  lp_hash : string -> result KeyError string;
  lp_hash_static_lib : string -> StaticLibUse -> result KeyError string;
  lp_apple_install_names : result KeyError (list string);
}.
Definition same_path (a b : string) : bool := bool_decide (components a = components b).
Fixpoint unique_from (kept dirs : list string) : list string :=
  match dirs with
  | [] => kept
  | dir :: dirs => unique_from (if existsb (same_path dir) kept then kept else kept ++ [dir])%list dirs
  end.
Definition unique_dirs (dirs : list string) : list string := unique_from [] dirs.
(** [cargo_target_dir] *)
Definition cargo_target_dir (profile : Path) (target : option string) : Path :=
  match parent profile with
  | None => profile
  | Some up =>
      let target_name := (fun t => match strip_suffix ".json" t with
        | Some spec => default "" (path_file_name (components spec))
        | None => t
        end) <$> target in
      match parent up, target_name with
      | Some grandparent, Some name => if bool_decide (path_file_name up = Some name) then grandparent else up
      | _, _ => up
      end
  end.
Definition collapse_step (collapsed : Path) (c : Component) : Path :=
  match c with
  | CurDir => collapsed
  | ParentDir => if last collapsed is Some (Normal _) then take (length collapsed - 1) collapsed else collapsed
  | _ => (collapsed ++ [c])%list
  end.
Definition collapse_lexical (path : Path) : Path := fold_left collapse_step path [].

Section Folding.
Context (env : Invocation) (normalize : string -> string) (io : LinkProbes).

(** [FileHasher::resolve_path]: a spelling under [OUT_DIR] is collapsed. *)
Definition collapse_out_dir_spelling (path : string) : string :=
  match inv_var_os env "OUT_DIR" ≫= resolve env with
  | None => path
  | Some out_dir =>
      let collapsed := collapse_lexical (components path) in
      if path_starts_with collapsed (collapse_lexical (components out_dir)) then path_of collapsed else path
  end.
Definition resolve_input (path : string) : result KeyError string :=
  resolved ← with_context (resolve env path ≫= only_absolute) (RelativeInput path);
  Ok (collapse_out_dir_spelling resolved).
Definition resolve_inputs (paths : list string) : result KeyError (list string) :=
  try_fold (fun acc path => p ← resolve_input path; Ok (acc ++ [p])%list) [] paths.
Definition resolved_path_for (path : string) : option string :=
  path ← resolve env path ≫= only_absolute;
  Some (default path (lp_canonicalize io path)).
Definition starts_with_path (path root : string) : bool := path_starts_with (components path) (components root).
Definition dirs_under_for (dirs : list string) (root : string) : list string :=
  match dirs, resolved_path_for root with
  | [], _ | _, None => []
  | _, Some root =>
      List.filter (fun dir => if resolved_path_for dir is Some p then starts_with_path p root else false) dirs
  end.
Definition is_under_any (path : string) (roots : list string) : bool := existsb (starts_with_path path) roots.
Definition build_tree_roots (args : RustcArgs) : list Path :=
  let target_root := out ← ra_out_dir args; profile ← profile_dir (components out); Some (cargo_target_dir profile (ra_target args)) in
  omap (resolve_path env) (option_list target_root ++ option_list (ra_path_normalization_root args))%list.

Record NativeLinkContext := {
  nc_target : string;
  nc_default_dirs : list string;
  nc_out_dir : option string;
  nc_build_tree : list string;
}.
(** Of dirs outside Cargo's packages, those outside the system library dirs or
    inside the build tree. *)
Definition scanned_dirs_for (context : NativeLinkContext) (dirs : list string) : list string :=
  let build_tree := omap resolved_path_for (nc_build_tree context) in
  List.filter (fun dir =>
    negb (is_cargo_package_dir (normalize (to_string_lossy dir)))
    && match resolved_path_for dir with
       | Some d => negb (is_under_any d SYSTEM_LIBRARY_DIRS) || is_under_any d build_tree
       | None => false
       end) (unique_dirs dirs).
Definition native_scan_dirs (args : RustcArgs) (dirs : list string) (context : NativeLinkContext) : list string :=
  if links_native_closure args then scanned_dirs_for context dirs
  else if emits_rlib args
  then match nc_out_dir context with Some out_dir => dirs_under_for (unique_dirs dirs) out_dir | None => [] end
  else [].

(** [native_dir_archives], [native_dir_static_frameworks] *)
Definition file_name_of (path : string) : option string := path_file_name (components path).
Definition native_dir_archives (dir : string) : result KeyError (list string) :=
  entries ← lp_read_dir io dir;
  Ok (List.filter (fun path =>
    (if file_name_of path is Some name then is_native_archive_name (to_string_lossy name) else false)
    && lp_is_file io path) (sort_by String.leb entries)).
Definition framework_binary (path : string) : option string :=
  name ← file_name_of path;
  name ← to_str name;
  stem ← strip_suffix ".framework" name;
  Some (join path stem).
Definition native_dir_static_frameworks (dir : string) : result KeyError (list string) :=
  entries ← lp_read_dir io dir;
  try_fold (fun acc binary =>
    if negb (lp_is_file io binary) then Ok acc else
    magic ← lp_has_archive_magic io binary;
    Ok (if magic : bool then acc ++ [binary] else acc)%list) [] (omap framework_binary (sort_by String.leb entries)).
Definition resolve_static_framework (name : string) (dirs : list string) : result KeyError (option string) :=
  match head (List.filter (lp_is_file io) (map (fun dir => join (join dir (name ++ ".framework")) name) dirs)) with
  | Some binary => magic ← lp_has_archive_magic io binary; Ok (if magic : bool then Some binary else None)
  | None => Ok None
  end.
(** [strip_prefix(dir).unwrap_or(archive)] *)
Definition name_in_dir (dir archive : string) : string :=
  to_string_lossy (match strip_path (components dir) (components archive) with Some rest => path_of rest | None => archive end).
Definition fold_native_dir_archives (list_ : string -> result KeyError (list string)) (hash : string -> result KeyError string)
    (dirs : list string) : result KeyError (list KeyRecord * list string) :=
  try_fold (fun acc idir =>
    archives ← list_ idir.2;
    try_fold (fun acc archive =>
      digest ← hash archive;
      Ok ((acc.1 ++ [KField "native_dir_archive.v1:"
             (fmt_dec (Z.of_nat idir.1) ++ "/" ++ name_in_dir idir.2 archive ++ "=" ++ digest)%string])%list,
          (acc.2 ++ [archive])%list)) acc archives) ([], []) (imap pair dirs).

(** ** Archives of a spec *)

Definition resolve_unix_library (name : string) (verbatim : bool) (dirs : list string) (prefer_static : bool)
    (shared_extensions : list string) : option string :=
  let candidates :=
    if verbatim then (if is_native_archive_name name then Some (name, []) else None)
    else if prefer_static then Some ("lib" ++ name ++ ".a", [])
    else Some ("lib" ++ name ++ ".a", map (fun extension => "lib" ++ name ++ "." ++ extension) shared_extensions) in
  '(archive, shared) ← candidates;
  let fix search dirs :=
    match dirs with
    | [] => None
    | dir :: dirs =>
        let has_archive := lp_is_file io (join dir archive) in
        let has_shared := existsb (fun file => lp_is_file io (join dir file)) shared in
        if has_archive || has_shared then (if has_shared then None else Some (join dir archive)) else search dirs
    end in
  search dirs.
(** Off macOS no [-oso_prefix] is injected. *)
Definition linked_archive_use (args : RustcArgs) : StaticLibUse :=
  if is_executable_output args then UseLinked else UseBundled.
Definition unresolved_static_lib_is_error (links : bool) : bool := links.
(** The distinct candidates, with where they are; those after the first must have
    its bytes. *)
Definition candidate_step (spec : string) (copies : list (string * string)) (c : string * string)
    : result KeyError (list (string * string)) :=
  let '(candidate, place) := c in
  if negb (lp_is_file io candidate) then Ok copies
  else if existsb (fun copy => same_path copy.1 candidate) copies then Ok copies
  else match head copies with
       | Some (first, _) =>
           a ← lp_hash io first;
           b ← lp_hash io candidate;
           if negb (String.eqb a b) then Err (SpecAmbiguous spec) else Ok (copies ++ [c])%list
       | None => Ok [c]
       end.
Definition candidates (search_dirs file_names : list string) : list (string * string) :=
  flat_map (fun idir => map (fun file => (join idir.2 file, (fmt_dec (Z.of_nat idir.1) ++ ":" ++ file)%string)) file_names)
    (imap pair search_dirs).
Definition resolve_native_static_lib (args : RustcArgs) (spec : string) (search_dirs : list string) (links : bool)
    : result KeyError (option (string * string)) :=
  match static_lib_spec spec with
  | NotStatic => Ok None
  | UnmodelledSpec spec => Err (SpecUnmodelled spec)
  | StaticArchive file_names bundle _ =>
      if negb bundle && negb links then Ok None else
      copies ← try_fold (candidate_step spec) [] (candidates search_dirs file_names);
      match copies with
      | [] => Ok None
      | (path, _) :: more =>
          hash ← lp_hash_static_lib io path (linked_archive_use args);
          Ok (Some (path, match more with
                          | [] => hash
                          | _ => hash ++ ";copies=" ++ join_with "," (map snd copies)
                          end))
      end
  end.

(** ** The fold *)

Record LinkFold := { lf_records : list KeyRecord; lf_archives : list string; lf_bundled : list BundledArchive }.
Definition emit (st : LinkFold) (records : list KeyRecord) (archives : list string) (bundled : list BundledArchive) : LinkFold :=
  {| lf_records := (lf_records st ++ records)%list; lf_archives := (lf_archives st ++ archives)%list;
     lf_bundled := (lf_bundled st ++ bundled)%list |}.
Section Libraries.
Context (args : RustcArgs) (native framework lib_dirs library_dirs : list string) (target : string).
Definition links : bool := invokes_linker args.
Definition hash_archive (path : string) : result KeyError string := lp_hash_static_lib io path (linked_archive_use args).
Definition target_features : list string :=
  omap snd (List.filter (fun kv => String.eqb kv.1 "target-feature") (ra_codegen_opts args)).
Definition hashed (path : option string) : result KeyError (option (string * string)) :=
  match path with
  | Some p => h ← hash_archive p; Ok (Some (p, h))
  | None => Ok None
  end.
(** One effective [-l] spec: the archive it stands for. *)
Definition library_archive (lib : string) : result KeyError (option (string * string)) :=
  resolved ← resolve_native_static_lib args lib (if links then lib_dirs else native) links;
  _ ← ensure (negb (negb (is_some resolved) && (if static_lib_spec lib is StaticArchive _ _ _ then true else false)
                    && unresolved_static_lib_is_error links)) (StaticLibMissing lib);
  resolved ← (if negb (is_some resolved) && links
              then hashed ('(name, verbatim) ← unix_library_request lib;
                           resolve_unix_library name verbatim library_dirs
                             (prefers_static_libraries target_features target) (shared_library_extensions target))
              else Ok resolved);
  match (if links then framework_request lib else None) with
  | Some name =>
      binary ← resolve_static_framework name framework;
      match binary with Some b => hashed (Some b) | None => Ok resolved end
  | None => Ok resolved
  end.
(** What the rlib carries of a [static] spec is asked before the other rules. *)
Definition bundle_of (lib : string) : result KeyError (list BundledArchive) :=
  resolved ← resolve_native_static_lib args lib (if links then lib_dirs else native) links;
  Ok (match resolved, rlib_bundle (static_lib_spec lib) (emits_rlib args) (packs_bundled_libs (ra_unstable_flags args)) with
      | Some (path, _), Some packed => [{| ba_path := path; ba_packed := packed |}]
      | _, _ => []
      end).
Definition library_step (effective : gmap nat string) (st : LinkFold) (il : nat * string) : result KeyError LinkFold :=
  let st := emit st [KText "link_lib:" il.2] [] [] in
  match effective !! il.1 with
  | None => Ok st
  | Some lib =>
      _ ← ensure (negb (links && is_link_arg_spec lib)) (RawLinkArg lib);
      archive ← library_archive lib;
      bundled ← bundle_of lib;
      Ok (match archive with
          | Some (path, content_hash) => emit st [KText "link_lib_content:" content_hash] [path] bundled
          | None => emit st [] [] bundled
          end)
  end.
Definition file_step (st : LinkFold) (ifile : nat * string) : result KeyError LinkFold :=
  _ ← ensure (lp_is_file io ifile.2) (LinkInputMissing ifile.2);
  digest ← (if is_native_archive_name (to_string_lossy ifile.2) then hash_archive ifile.2 else lp_hash io ifile.2);
  Ok (emit st [KField "link_arg_input.v1:" (fmt_dec (Z.of_nat ifile.1) ++ "=" ++ digest)%string] [] []).
Definition link_arg_library_step (st : LinkFold) (irequest : nat * (string * bool)) : result KeyError LinkFold :=
  let '(index, (name, verbatim)) := irequest in
  match resolve_unix_library name verbatim library_dirs true (shared_library_extensions target) with
  | None => Ok st
  | Some path =>
      digest ← hash_archive path;
      Ok (emit st [KField "link_arg_library.v1:" (fmt_dec (Z.of_nat index) ++ "=" ++ digest)%string] [path] [])
  end.
End Libraries.
(** Off Windows every link is a Unix link. *)
Definition fold_native_link_inputs (args : RustcArgs) (native framework : list string) (context : NativeLinkContext)
    : result KeyError (list KeyRecord * KeyedNativeArchives) :=
  let links := invokes_linker args in
  arguments ← (if links then unix_link_arguments args else Ok no_inputs);
  dirs ← resolve_inputs (la_dirs arguments);
  files ← resolve_inputs (la_files arguments);
  let lib_dirs := (native ++ dirs)%list in
  let library_dirs := (lib_dirs ++ nc_default_dirs context)%list in
  apple ← (if links && contains "-apple-" (nc_target context)
           then names ← lp_apple_install_names io;
                Ok (KField "apple_install_names.v1:" "" :: map (KField "apple_install_name.v1:") names)
           else Ok []);
  let start := {| lf_records := apple; lf_archives := []; lf_bundled := [] |} in
  let libs := ra_link_libs args in
  st ← try_fold (library_step args native framework lib_dirs library_dirs (nc_target context) (effective_native_libraries libs))
         start (imap pair libs);
  st ← try_fold (file_step args) st (imap pair files);
  st ← try_fold (link_arg_library_step args library_dirs (nc_target context)) st (imap pair (la_libs arguments));
  '(scan, scanned) ← fold_native_dir_archives native_dir_archives (hash_archive args) (native_scan_dirs args lib_dirs context);
  '(frameworks, found) ← (if links
     then fold_native_dir_archives native_dir_static_frameworks (hash_archive args) (scanned_dirs_for context framework)
     else Ok ([], []));
  let st := emit (emit st scan scanned []) frameworks found [] in
  Ok (lf_records st,
      {| kn_archives := lf_archives st; kn_bundled := lf_bundled st;
         kn_dirs := if emits_rlib args then scanned_dirs_for context native else [] |}).
End Folding.
Definition needs_native_bundle_audit (args : RustcArgs) (native_dirs : list string) : bool :=
  emits_rlib args && negb (bool_decide (native_dirs = [])).
