(* ===== verification/NativeLinkProofs.v ===== *)
(** * Native libraries are keyed by content

    A unit that links folds the bytes of every static library it names, or has
    no key. *)

From S2P Require Import Prelude Strings Codec StorePolicy CargoLayout RustcArgs PathNormalizer KeyFold NativeLink.
#[local] Open Scope string_scope.
#[local] Open Scope Z_scope.

(** A step whose result has a property that later steps keep. *)
Lemma try_fold_reaches {E S A} (f : S -> A -> result E S) (Q : S -> Prop) l a s s' :
  (forall s a s', Q s -> f s a = Ok s' -> Q s') -> (forall s s', f s a = Ok s' -> Q s') -> a ∈ l -> try_fold f s l = Ok s' -> Q s'.
Proof.
  intros Hkeep Ha Hin. revert s. induction Hin as [l|b l Hin IH] in |- *; intros s; cbn [try_fold]; intros (t & Ht & Hr)%bind_Ok; [|eauto].
  eapply try_fold_keeps; [exact Hkeep| |exact Hr]. eauto.
Qed.

Section Static.
Context (env : Invocation) (normalize : string -> string) (io : LinkProbes) (args : RustcArgs).

(** The content of one of the files a spec stands for is in the records. *)
Definition content_keyed (names : list string) (st : LinkFold) : Prop :=
  exists dir name h text, name ∈ names /\ lp_is_file io (join dir name) = true /\ join dir name ∈ lf_archives st /\
    lp_hash_static_lib io (join dir name) (linked_archive_use args) = Ok h /\
    KText "link_lib_content:" (h ++ text) ∈ lf_records st.
Lemma content_kept names st records archives bundled : content_keyed names st -> content_keyed names (emit st records archives bundled).
Proof.
  intros (dir & name & h & text & H1 & H2 & H3 & H4 & H5). exists dir, name, h, text. cbn [emit lf_records lf_archives].
  split_and!; [done|done|by apply elem_of_app; left|done|by apply elem_of_app; left].
Qed.
Lemma candidate_files spec l c copies : try_fold (candidate_step io spec) [] l = Ok copies -> c ∈ copies -> c ∈ l /\ lp_is_file io c.1 = true.
Proof.
  revert copies. apply (try_fold_ind _ (fun seen copies => c ∈ copies -> c ∈ seen /\ lp_is_file io c.1 = true)); [by intros ?%not_elem_of_nil|].
  intros seen [p q] copies copies' IH Hs Hc. rewrite elem_of_app, list_elem_of_singleton. unfold candidate_step in Hs.
  destruct (lp_is_file io p) eqn:Hf; cbn [negb] in Hs; [|injection Hs as <-; naive_solver].
  destruct (existsb _ copies); [injection Hs as <-; naive_solver|].
  destruct (head copies) as [[first ?]|].
  - apply bind_Ok in Hs as (a & _ & Hs). apply bind_Ok in Hs as (b & _ & Hs). destruct (negb _); [done|]. injection Hs as <-.
    apply elem_of_app in Hc as [Hc|Hc%list_elem_of_singleton]; [naive_solver|]. subst c. naive_solver.
  - injection Hs as <-. apply list_elem_of_singleton in Hc as ->. naive_solver.
Qed.
Lemma resolve_static_spec spec dirs names bundle whole links path text :
  static_lib_spec spec = StaticArchive names bundle whole ->
  resolve_native_static_lib io args spec dirs links = Ok (Some (path, text)) ->
  exists dir name h rest, name ∈ names /\ path = join dir name /\ lp_is_file io path = true /\
    lp_hash_static_lib io path (linked_archive_use args) = Ok h /\ text = h ++ rest.
Proof.
  unfold resolve_native_static_lib. intros ->. destruct (_ && _); [done|]. intros (copies & Hc & Hr)%bind_Ok.
  destruct copies as [|[p q] more]; [done|]. apply bind_Ok in Hr as (h & Hh & Hr). injection Hr as <- Ht.
  destruct (candidate_files _ _ (p, q) _ Hc) as [Hin Hf]; [by left|]. unfold candidates in Hin.
  apply list_elem_of_In, in_flat_map in Hin as ([i dir] & _ & Hin). apply in_map_iff in Hin as (name & Hp & Hn). apply (f_equal fst) in Hp. cbn [fst snd] in *. subst p.
  exists dir, name, h. rewrite <- Ht.
  destruct more; [exists ""; rewrite string_app_nil_r|eexists]; (split_and!; [by apply list_elem_of_In|done..]).
Qed.
Lemma static_is_no_framework spec names bundle whole : static_lib_spec spec = StaticArchive names bundle whole -> framework_request spec = None.
Proof.
  unfold static_lib_spec, framework_request, split_or. destruct (split_once "=" spec) as [[kind name]|] eqn:E; [|done]. cbn [mbind option_bind default from_option id].
  unfold id. destruct (kind_modifiers kind) as [k m]. cbn [fst]. intros H. destruct (String.eqb_spec k "framework") as [->|]; [|done].
  change (String.eqb "framework" "framework") with true in H. change (String.eqb "framework" "static") with false in H. discriminate H.
Qed.
Lemma library_step_static native framework lib_dirs library_dirs target effective st st' i l lib names bundle whole :
  invokes_linker args = true -> effective !! i = Some lib -> static_lib_spec lib = StaticArchive names bundle whole ->
  library_step io args native framework lib_dirs library_dirs target effective st (i, l) = Ok st' -> content_keyed names st'.
Proof.
  intros Hlinks Heff Hspec. unfold library_step. cbn [fst snd]. rewrite Heff. intros Hs.
  apply bind_Ok in Hs as (_ & _ & Hs). apply bind_Ok in Hs as (archive & Ha & Hs). apply bind_Ok in Hs as (bundled & _ & Hs). injection Hs as <-.
  unfold library_archive, links in Ha. rewrite Hlinks, Hspec, (static_is_no_framework _ _ _ _ Hspec) in Ha.
  apply bind_Ok in Ha as (resolved & Hr & Ha). apply bind_Ok in Ha as ([] & Hen & Ha). apply ensure_Ok in Hen.
  destruct resolved as [[path text]|]; [|done]. cbn [is_some negb andb mbind result_bind] in Ha. injection Ha as <-.
  destruct (resolve_static_spec _ _ _ _ _ _ _ _ Hspec Hr) as (dir & name & h & rest & Hn & -> & Hf & Hh & ->).
  exists dir, name, h, rest. cbn [emit lf_records lf_archives].
  split_and!; [done|done|by apply elem_of_app; right; left|done|by apply elem_of_app; right; left].
Qed.
Lemma library_step_keeps native framework lib_dirs library_dirs target effective names st il st' :
  content_keyed names st -> library_step io args native framework lib_dirs library_dirs target effective st il = Ok st' -> content_keyed names st'.
Proof.
  intros Hst. unfold library_step. destruct (effective !! il.1); [|intros [= <-]; by apply content_kept]. intros Hs.
  apply bind_Ok in Hs as (_ & _ & Hs). apply bind_Ok in Hs as (archive & Ha & Hs). apply bind_Ok in Hs as (bundled & _ & Hs). injection Hs as <-.
  destruct archive as [[? ?]|]; by do 2 apply content_kept.
Qed.
(** What the key says of an effective spec. *)
Definition spec_keyed (lib : string) (st : LinkFold) : Prop :=
  match static_lib_spec lib with
  | StaticArchive names _ _ => content_keyed names st
  | NotStatic => is_link_arg_spec lib = false
  | UnmodelledSpec _ => False
  end.
Lemma spec_kept lib st records archives bundled : spec_keyed lib st -> spec_keyed lib (emit st records archives bundled).
Proof. unfold spec_keyed. destruct (static_lib_spec lib); [done|apply content_kept|done]. Qed.
Lemma library_step_keyed native framework lib_dirs library_dirs target effective st st' i l lib :
  invokes_linker args = true -> effective !! i = Some lib ->
  library_step io args native framework lib_dirs library_dirs target effective st (i, l) = Ok st' -> spec_keyed lib st'.
Proof.
  intros Hlinks Heff Hs. unfold spec_keyed. destruct (static_lib_spec lib) as [|names bundle whole|spec] eqn:Hspec.
  - unfold library_step, links in Hs. cbn [fst snd] in Hs. rewrite Heff, Hlinks in Hs. apply bind_Ok in Hs as ([] & Hen & _).
    apply ensure_Ok in Hen. by destruct (is_link_arg_spec lib).
  - by eapply library_step_static.
  - unfold library_step in Hs. cbn [fst snd] in Hs. rewrite Heff in Hs. apply bind_Ok in Hs as ([] & _ & Hs).
    apply bind_Ok in Hs as (archive & Ha & _). unfold library_archive, resolve_native_static_lib in Ha. by rewrite Hspec in Ha.
Qed.
Lemma library_step_grows native framework lib_dirs library_dirs target effective lib st il st' :
  spec_keyed lib st -> library_step io args native framework lib_dirs library_dirs target effective st il = Ok st' -> spec_keyed lib st'.
Proof.
  unfold spec_keyed. destruct (static_lib_spec lib); [done| |done]. apply library_step_keeps.
Qed.
Lemma file_steps_grow lib st files st' : spec_keyed lib st -> try_fold (file_step io args) st files = Ok st' -> spec_keyed lib st'.
Proof.
  apply try_fold_keeps. intros s f s' Hs. unfold file_step. intros ([] & _ & H)%bind_Ok. apply bind_Ok in H as (d & _ & H).
  apply (inj Ok) in H as <-. by apply spec_kept.
Qed.
Lemma link_arg_steps_grow lib library_dirs target st libs st' :
  spec_keyed lib st -> try_fold (link_arg_library_step io args library_dirs target) st libs = Ok st' -> spec_keyed lib st'.
Proof.
  apply try_fold_keeps. intros s [i [name verbatim]] s' Hs. unfold link_arg_library_step. destruct (resolve_unix_library _ _ _ _ _ _); [|by intros [= <-]].
  intros (d & _ & H)%bind_Ok. apply (inj Ok) in H as <-. by apply spec_kept.
Qed.
(** C11. A unit that links is keyed by the bytes of its static libraries.  When its
    native inputs fold into a key, every effective [-l] spec that stands for a
    static archive has the content hash of an existing file of one of its names
    among the records and that file among the archives; no effective spec is of
    an unmodelled form, and none hands the linker a raw argument. *)
Theorem static_libraries_keyed native framework context rs archives i l lib :
  fold_native_link_inputs env normalize io args native framework context = Ok (rs, archives) ->
  invokes_linker args = true -> ra_link_libs args !! i = Some l ->
  effective_native_libraries (ra_link_libs args) !! i = Some lib ->
  match static_lib_spec lib with
  | StaticArchive names _ _ =>
      exists dir name h text, name ∈ names /\ lp_is_file io (join dir name) = true /\ join dir name ∈ kn_archives archives /\
        lp_hash_static_lib io (join dir name) (linked_archive_use args) = Ok h /\ KText "link_lib_content:" (h ++ text) ∈ rs
  | NotStatic => is_link_arg_spec lib = false
  | UnmodelledSpec _ => False
  end.
Proof.
  intros Hfold Hlinks Hl Heff. unfold fold_native_link_inputs in Hfold. inv_result.
  repeat (match goal with x : _ * _ |- _ => destruct x end; inv_result).
  rename select (try_fold (library_step _ _ _ _ _ _ _ _) _ _ = _) into Hlib.
  rename select (try_fold (file_step _ _) _ _ = _) into Hfile.
  rename select (try_fold (link_arg_library_step _ _ _ _) _ _ = _) into Harg.
  apply (try_fold_reaches _ (spec_keyed lib) _ (i, l)) in Hlib.
  - eapply file_steps_grow, link_arg_steps_grow in Hlib; [|done..].
    exact (spec_kept lib _ l2 l3 [] (spec_kept lib _ l0 l1 [] Hlib)).
  - intros s il s'. apply library_step_grows.
  - intros s s'. by apply library_step_keyed.
  - by apply (elem_of_lookup_imap_2 pair).
Qed.
End Static.
