(* ===== verification/EnvDeps.v ===== *)
(** * Environment dependencies of a key

    The part of [src/cache_key.rs] that decides how the value of an environment
    variable a compilation reads enters its key: as it is, or as a sentinel when
    the sources use it only to locate included files.  The answers of the source
    scan are memoised by content hash, in the process and in the database of
    [crates/kache-store/src/file_hash.rs].  Canonicalisation, Unicode
    normalisation, file contents and fingerprints are parameters; the platform
    is Linux. *)

From S2P Require Import Prelude Strings Codec StorePolicy PePdb CargoLayout RustcArgs PathNormalizer SourceScan.
#[local] Open Scope string_scope.
#[local] Open Scope Z_scope.

(** ** Lexical resolution *)

Fixpoint skip_seps (s : string) : string :=
  match s with String c s' => if is_separator c then skip_seps s' else s | "" => "" end.
(** The component in front, and the rest from its separator. *)
Fixpoint span_component (s : string) : string * string :=
  match s with
  | "" => ("", "")
  | String c s' => if is_separator c then ("", s) else let '(comp, rest) := span_component s' in (String c comp, rest)
  end.
(** The first two components of a UNC path. *)
Definition unc_root (s : string) : string * string :=
  let '(server, rest) := span_component (skip_seps s) in
  if String.eqb server "" then (bs "||/", rest)
  else
    let '(share, rest') := span_component (skip_seps rest) in
    if String.eqb share "" then (bs "||" ++ server ++ "/", rest') else (bs "||" ++ server ++ "/" ++ share ++ "/", rest').
(** The anchor that [..] cannot leave, and the text after it. *)
Definition split_anchor (input : string) : string * string :=
  match input with
  | String a (String b rest) =>
      if is_separator a && is_separator b then unc_root rest
      else if Ascii.eqb b ":" && is_ascii_alphabetic a then
        match rest with
        | String c rest' => if is_separator c then (String a (String b "/"), rest') else (String a (String b ""), rest)
        | "" => (String a (String b ""), "")
        end
      else if is_separator a then ("/", String b rest)
      else ("", input)
  | String a "" => if is_separator a then ("/", "") else ("", input)
  | "" => ("", "")
  end.
Fixpoint split_seps (s : string) : list string :=
  match s with
  | "" => [""]
  | String c s' =>
      if is_separator c then "" :: split_seps s'
      else match split_seps s' with h :: t => String c h :: t | [] => [String c ""] end
  end.
(** The stack has its last component first. *)
Definition resolve_step (absolute : bool) (stack : list string) (comp : string) : list string :=
  if String.eqb comp "." then stack
  else if String.eqb comp ".." then
    match stack with
    | top :: below => if String.eqb top ".." then (if absolute then stack else ".." :: stack) else below
    | [] => if absolute then [] else [".."]
    end
  else comp :: stack.
Definition lexically_resolve_path (input : string) : string :=
  let '(anchor, tail) := split_anchor input in
  let absolute := ends_with "/" anchor in
  let comps := List.filter (fun c => negb (String.eqb c "")) (split_seps tail) in
  let joined := join_with "/" (rev (fold_left (resolve_step absolute) comps [])) in
  match String.eqb anchor "", String.eqb joined "" with
  | true, true => "."
  | true, false => joined
  | false, true => anchor
  | false, false => anchor ++ joined
  end.

(** ** Decisions *)

Inductive EnvDepNormalizationDecision :=
| Unchanged | NormalizedPathOnly | KeptAbsoluteNotPathOnly | KeptAbsoluteManifestDir | KeptAbsoluteNoIncludeProof
| KeptAbsoluteRuntimeUse | KeptAbsoluteScanError | ForcedPathOnly | AliasedOutDir.
#[export] Instance EnvDepNormalizationDecision_eq_dec : EqDecision EnvDepNormalizationDecision.
Proof. solve_decision. Defined.
Definition keeps_literal_value (d : EnvDepNormalizationDecision) : bool :=
  match d with NormalizedPathOnly | ForcedPathOnly => false | _ => true end.
Record NormalizedEnvDep := { ne_value : string; ne_decision : EnvDepNormalizationDecision }.

(** [eq_ignore_ascii_case] *)
Definition is_manifest_dir_var (var : string) : bool :=
  String.eqb (to_ascii_lowercase var) (to_ascii_lowercase "CARGO_MANIFEST_DIR").
(** [Path::starts_with] *)
Definition value_at_or_under (value dir : string) : bool := path_starts_with (components value) (components dir).
Definition out_dir_unit (out_dir : option string) : string :=
  default "" (to_string_lossy <$> (out_dir ≫= fun d => parent (components d) ≫= path_file_name)).

(** What [Path::strip_prefix] leaves of the spelling of a path: the [k]
    components in front are dropped, with the separators and dots at both ends. *)
Definition is_real_segment (s : string) : bool := negb (String.eqb s "" || String.eqb s ".").
Fixpoint drop_segments (k : nat) (segs : list string) : list string :=
  match segs with
  | [] => []
  | s :: rest =>
      if is_real_segment s then match k with O => segs | S k => drop_segments k rest end else drop_segments k rest
  end.
Definition trim_segments_end (segs : list string) : list string := rev (drop_segments 0 (rev segs)).
Definition spelled_after (k : nat) (path : string) : string :=
  join_with "/" (trim_segments_end (drop_segments k (split_on slash path))).
(** [out_probe] is absolute, so its root is not a segment. *)
Definition out_dir_relative_suffix (value_probe out_probe : string) : option string :=
  _ ← strip_path (components out_probe) (components value_probe);
  Some (replace_byte backslash slash (to_string_lossy (spelled_after (length (components out_probe) - 1) value_probe))).
Fixpoint trim_start_byte (c : ascii) (s : string) : string :=
  match s with String a s' => if Ascii.eqb a c then trim_start_byte c s' else s | "" => "" end.

Definition has_rs_extension (file : string) : bool := bool_decide (path_extension (components file) = Some "rs").
Definition path_is_only_used_for_includes (value_probe : string) (source_probes : list string) : bool :=
  existsb (fun f => path_starts_with (components f) (components value_probe)) source_probes.

Section Decision.
Context (nfc : string -> string) (canonicalize : string -> option string).
(** [FileHasher::env_dep_use]; [None] is an error. *)
Context (env_dep_use : string -> string -> option SourceEnvDepUse).

Definition path_probe (path : string) : string := default path (canonicalize path).
Definition out_dir_probe (out_dir : option string) : option string :=
  d ← out_dir; if is_absolute (path_probe d) then Some (path_probe d) else None.
Record EnvDepPaths := { ep_out_dir : option string; ep_source_files : list string }.
Definition source_probes (paths : EnvDepPaths) : list string := map path_probe (ep_source_files paths).
Definition out_dir_suffix (paths : EnvDepPaths) (value : string) : option string :=
  out_probe ← out_dir_probe (ep_out_dir paths); out_dir_relative_suffix (path_probe value) out_probe.
Definition value_is_under_out_dir (paths : EnvDepPaths) (value : string) : bool := is_some (out_dir_suffix paths value).

(** The loop of [env_dep_source_decision] over the sources that are left. *)
Fixpoint source_decision (var : string) (proven concat_prefix concat_binding : bool) (files : list string)
    : EnvDepNormalizationDecision :=
  match files with
  | [] => if proven then NormalizedPathOnly else KeptAbsoluteNoIncludeProof
  | file :: files =>
      let next proven concat_prefix concat_binding :=
        if concat_prefix && concat_binding then KeptAbsoluteRuntimeUse
        else source_decision var proven concat_prefix concat_binding files in
      match env_dep_use file var with
      | Some Unused => next proven concat_prefix concat_binding
      | Some IncludeLocator => next (proven || has_rs_extension file) concat_prefix concat_binding
      | Some (ConcatPrefix include_locator) => next (proven || (include_locator && has_rs_extension file)) true concat_binding
      | Some (ConcatBinding include_locator) => next (proven || (include_locator && has_rs_extension file)) concat_prefix true
      | Some RuntimeValue => KeptAbsoluteRuntimeUse
      | None => KeptAbsoluteScanError
      end
  end.
Definition env_dep_source_decision (var : string) (files : list string) : EnvDepNormalizationDecision :=
  source_decision var false false false files.
Definition env_dep_path_only_decision (var value : string) (paths : EnvDepPaths) (allowlist : list string)
    : EnvDepNormalizationDecision :=
  if is_manifest_dir_var var then KeptAbsoluteManifestDir
  else if negb (String.eqb var "OUT_DIR" || existsb (String.eqb var) allowlist || value_is_under_out_dir paths value)
  then KeptAbsoluteNotPathOnly
  else if negb (path_is_only_used_for_includes (path_probe value) (source_probes paths)) then KeptAbsoluteNoIncludeProof
  else env_dep_source_decision var (ep_source_files paths).

Definition sentinelized_env_dep_value (paths : EnvDepPaths) (resolved normalized : string) : string :=
  match out_dir_suffix paths resolved with
  | Some rel =>
      let unit := out_dir_unit (ep_out_dir paths) in
      if String.eqb rel "" then "<OUT_DIR:" ++ unit ++ ">" else "<OUT_DIR:" ++ unit ++ ">/" ++ trim_start_byte slash rel
  | None => normalized
  end.
Definition forces (crate_name var entry : string) : bool :=
  match split_once ":" entry with
  | Some (krate, v) => String.eqb krate crate_name && String.eqb v var
  | None => false
  end.
Definition normalize_env_dep_value_with_hasher (crate_name var val : string) (paths : EnvDepPaths) (n : PathNormalizer)
    (aliased_out_dir : option string) : NormalizedEnvDep :=
  if (if aliased_out_dir is Some dir then value_at_or_under val dir else false)
  then {| ne_value := val; ne_decision := AliasedOutDir |}
  else
    let resolved := default (lexically_resolve_path val) (canonicalize val ≫= canonical_form nfc) in
    let normalized := normalize nfc n resolved in
    if String.eqb resolved val && String.eqb normalized val then {| ne_value := val; ne_decision := Unchanged |}
    else if negb (is_manifest_dir_var var) && existsb (forces crate_name var) (pn_path_only_env_vars n)
    then {| ne_value := sentinelized_env_dep_value paths resolved normalized; ne_decision := ForcedPathOnly |}
    else
      let decision := env_dep_path_only_decision var resolved paths (pn_path_only_env_vars n) in
      {| ne_value := (if bool_decide (decision = NormalizedPathOnly)
                      then sentinelized_env_dep_value paths resolved normalized else val);
         ne_decision := decision |}.
Definition env_dep_bakes_out_dir (var : string) (decision : EnvDepNormalizationDecision) (under : bool) : bool :=
  keeps_literal_value decision && (String.eqb var "OUT_DIR" || under).
End Decision.

(** ** Memoised scans *)

Definition SOURCE_ENV_DEP_SCANNER_VERSION : Z := 7.
Inductive UseError := UnresolvedPath | UnhashedSource | UnreadableSource | SourceChanged | ScanPanicked.

(** The scan of the bytes of a file; what is not UTF-8 proves no include. *)
Definition scan_bytes (bytes : string) (var : string) : Safe SourceEnvDepUse :=
  match from_utf8 (list_ascii_of_string bytes) with
  | Ok source => source_env_dep_use source var
  | Err _ =>
      u ← source_env_dep_use_bytes (list_ascii_of_string bytes) var;
      Ok (match u with
          | IncludeLocator => Unused
          | ConcatPrefix _ => ConcatPrefix false
          | ConcatBinding _ => ConcatBinding false
          | result => result
          end)
  end.

(** The answers this process has, and the rows of the database: the scanner
    that wrote a row and the code of its answer.  [um_db] is false when there is
    no database, or it fails. *)
Record UseMemo := {
  um_env_dep_uses : gmap (string * string) SourceEnvDepUse;
  um_rows : gmap (string * string) (Z * Z);
  um_db : bool;
}.
Definition get_source_env_dep_use (m : UseMemo) (content_hash var : string) (scanner : Z) : option Z :=
  '(s, code) ← um_rows m !! (content_hash, var); if s =? scanner then Some code else None.
Definition put_source_env_dep_use (m : UseMemo) (content_hash var : string) (scanner code : Z) : UseMemo :=
  {| um_env_dep_uses := um_env_dep_uses m; um_rows := <[(content_hash, var) := (scanner, code)]> (um_rows m); um_db := um_db m |}.
Definition remember_use (m : UseMemo) (content_hash var : string) (u : SourceEnvDepUse) : UseMemo :=
  {| um_env_dep_uses := <[(content_hash, var) := u]> (um_env_dep_uses m); um_rows := um_rows m; um_db := um_db m |}.

Section Memo.
Context (blake3_hex : string -> string) {F : Type} `{EqDecision F}.
Record RecentHash := { rh_hash : string; rh_fingerprint : option F }.
(** The file system as the hasher sees it: [so_recent] is the hash on record of
    a resolved path, or the one computed for it now. *)
Record Sources := {
  so_resolve : string -> option string;
  so_recent : string -> option RecentHash;
  so_fingerprint : string -> option F;
  so_read : string -> option string;
}.
Context (fs : Sources).

Definition scan_env_dep_use (path var content_hash : string) (m : UseMemo) : result UseError (SourceEnvDepUse * UseMemo) :=
  path ← with_context (so_resolve fs path) UnresolvedPath;
  bytes ← with_context (so_read fs path) UnreadableSource;
  _ ← ensure (String.eqb (blake3_hex bytes) content_hash) SourceChanged;
  result ← with_context (ok (scan_bytes bytes var)) ScanPanicked;
  let m := if um_db m then put_source_env_dep_use m content_hash var SOURCE_ENV_DEP_SCANNER_VERSION (memo_code result) else m in
  Ok (result, remember_use m content_hash var result).
Definition env_dep_use_for_hash (path var content_hash : string) (m : UseMemo) : result UseError (SourceEnvDepUse * UseMemo) :=
  match um_env_dep_uses m !! (content_hash, var) with
  | Some result => Ok (result, m)
  | None =>
      match (code ← (if um_db m then get_source_env_dep_use m content_hash var SOURCE_ENV_DEP_SCANNER_VERSION else None);
             from_memo_code code) with
      | Some result => Ok (result, remember_use m content_hash var result)
      | None => scan_env_dep_use path var content_hash m
      end
  end.
Definition env_dep_use (path var : string) (m : UseMemo) : result UseError (SourceEnvDepUse * UseMemo) :=
  path ← with_context (so_resolve fs path) UnresolvedPath;
  recent ← with_context (so_recent fs path) UnhashedSource;
  match rh_fingerprint recent with
  | Some expected =>
      current ← with_context (so_fingerprint fs path) UnreadableSource;
      _ ← ensure (bool_decide (current = expected)) SourceChanged;
      env_dep_use_for_hash path var (rh_hash recent) m
  | None => scan_env_dep_use path var (rh_hash recent) m
  end.
End Memo.
