(* ===== verification/EnvDepProofs.v ===== *)
(** * Environment dependencies: proofs

    A memoised scan answers what a scan of the content would; a value becomes a
    sentinel only when no source reads it; lexical resolution is the collapse of
    the components of a path. *)

From S2P Require Import Prelude Strings Codec StorePolicy PePdb CargoLayout RustcArgs RustcPolicy PathNormalizer PathNormalizerProofs KeyFold NativeLink SourceScan ScanTotal ScanSpec ScanCorrect EnvDeps.
#[local] Open Scope string_scope.
#[local] Open Scope Z_scope.

(** ** Memoised scans *)

Lemma from_memo_code_spec code u : from_memo_code code = Some u <-> code = memo_code u.
Proof.
  split; [|by intros ->; destruct u as [| |[]|[]|]].
  unfold from_memo_code. intros H. repeat (case_match; simplify_eq/=; try done).
Qed.
Lemma source_env_dep_use_total bytes var : exists u, source_env_dep_use_bytes bytes var = Ok u.
Proof. eexists. by apply source_scan_at. Qed.
Lemma scan_bytes_total bytes var : exists u, scan_bytes bytes var = Ok u.
Proof.
  unfold scan_bytes, source_env_dep_use. destruct (from_utf8 _) as [s|]; [apply source_env_dep_use_total|].
  destruct (source_env_dep_use_total (list_ascii_of_string bytes) var) as [u ->]. cbn. eauto.
Qed.

Section Memo.
Context (blake3_hex : string -> string) {F : Type} `{EqDecision F} (fs : @Sources F).

(** [u] is the answer for some content with this hash. *)
Definition answers (h var : string) (u : SourceEnvDepUse) : Prop :=
  exists content, blake3_hex content = h /\ scan_bytes content var = Ok u.
(** Every memoised answer came from a scan of this scanner. *)
Definition memo_ok (m : UseMemo) : Prop :=
  (forall h var u, um_env_dep_uses m !! (h, var) = Some u -> answers h var u)
  /\ (forall h var code u, um_rows m !! (h, var) = Some (SOURCE_ENV_DEP_SCANNER_VERSION, code) ->
        from_memo_code code = Some u -> answers h var u).

Lemma remember_ok m h var u : memo_ok m -> answers h var u -> memo_ok (remember_use m h var u).
Proof.
  intros [H1 H2] Hu. split; [|done]. intros h' var' u'. cbn.
  rewrite lookup_insert. case_decide; [|by apply H1]. intros [= <-]. by simplify_eq/=.
Qed.
Lemma put_row_ok m h var u :
  memo_ok m -> answers h var u -> memo_ok (put_source_env_dep_use m h var SOURCE_ENV_DEP_SCANNER_VERSION (memo_code u)).
Proof.
  intros [H1 H2] Hu. split; [done|]. intros h' var' code u'. cbn.
  rewrite lookup_insert. case_decide; [|by apply H2]. intros [= <-] Hc%from_memo_code_spec.
  assert (u' = u) as -> by (by destruct u as [| |[]|[]|], u' as [| |[]|[]|]). by simplify_eq/=.
Qed.
Lemma scan_env_dep_use_ok path var h m u m' :
  memo_ok m -> scan_env_dep_use blake3_hex fs path var h m = Ok (u, m') -> memo_ok m' /\ answers h var u.
Proof.
  unfold scan_env_dep_use. intros Hm Hr. apply bind_Ok in Hr as (p & _ & Hr). apply bind_Ok in Hr as (bytes & _ & Hr).
  apply bind_Ok in Hr as (_ & Hh%ensure_Ok%String.eqb_eq & Hr). apply bind_Ok in Hr as (u0 & Hs%with_context_Ok & [= -> <-]).
  assert (answers h var u) as Hu.
  { exists bytes. split; [done|]. by destruct (scan_bytes bytes var); simplify_eq/=. }
  split; [|done]. apply remember_ok; [|done]. destruct (um_db m); [by apply put_row_ok|done].
Qed.
Lemma env_dep_use_for_hash_ok path var h m u m' :
  memo_ok m -> env_dep_use_for_hash blake3_hex fs path var h m = Ok (u, m') -> memo_ok m' /\ answers h var u.
Proof.
  unfold env_dep_use_for_hash. intros Hm. destruct (um_env_dep_uses m !! (h, var)) as [u0|] eqn:Hu.
  { intros [= -> ->]. split; [done|]. by apply Hm. }
  destruct (_ ≫= from_memo_code) as [u0|] eqn:Hrow; [|by apply scan_env_dep_use_ok].
  intros [= <- <-]. apply bind_Some in Hrow as (code & Hc & Hcode).
  assert (answers h var u0) as Ha; [|split; [by apply remember_ok|done]].
  destruct (um_db m); [|done]. unfold get_source_env_dep_use in Hc. apply bind_Some in Hc as ([s c] & Hrow & Hs).
  destruct (Z.eqb_spec s SOURCE_ENV_DEP_SCANNER_VERSION) as [->|]; [|done]. injection Hs as ->. by eapply Hm.
Qed.

(** C28. A memoised answer is the answer of a scan of the content the hash on
    record stands for, and leaves a memo of which the same holds. *)
Theorem memoised_use_is_the_scan path resolved var m u m' recent content :
  memo_ok m -> so_resolve fs path = Some resolved -> so_recent fs resolved = Some recent ->
  blake3_hex content = rh_hash recent -> (forall c, blake3_hex c = rh_hash recent -> c = content) ->
  env_dep_use blake3_hex fs path var m = Ok (u, m') -> scan_bytes content var = Ok u /\ memo_ok m'.
Proof.
  intros Hm Hres Hrec Hh Hinj Hr.
  assert (memo_ok m' /\ answers (rh_hash recent) var u) as [Hm' (c & Hc%Hinj & Hu)]; [|by subst c].
  unfold env_dep_use in Hr. rewrite Hres in Hr. cbn in Hr. rewrite Hrec in Hr. cbn in Hr.
  destruct (rh_fingerprint recent); [|by eapply scan_env_dep_use_ok]. inv_result. by eapply env_dep_use_for_hash_ok.
Qed.
End Memo.

(** ** Decisions *)

Section Sources.
Context (env_dep_use : string -> string -> option SourceEnvDepUse).

Definition supplies_proof (var file : string) : bool :=
  has_rs_extension file
  && match env_dep_use file var with
     | Some (IncludeLocator | ConcatPrefix true | ConcatBinding true) => true
     | _ => false
     end.
Definition relies (var file : string) : bool := if env_dep_use file var is Some (ConcatPrefix _) then true else false.
Definition binds (var file : string) : bool := if env_dep_use file var is Some (ConcatBinding _) then true else false.
Definition reads (var file : string) : bool := match env_dep_use file var with Some RuntimeValue | None => true | _ => false end.

(** The decision normalises exactly when no source reads the value or fails to
    scan, no source binds what another relies on, and one proves an include. *)
Lemma source_decision_iff var files : forall proven prefix binding, prefix && binding = false ->
  source_decision env_dep_use var proven prefix binding files = NormalizedPathOnly
  <-> forallb (fun f => negb (reads var f)) files = true
      /\ (prefix || existsb (relies var) files) && (binding || existsb (binds var) files) = false
      /\ proven || existsb (supplies_proof var) files = true.
Proof.
  induction files as [|f files IH]; intros proven prefix binding Hpb; cbn [source_decision forallb existsb].
  { rewrite !orb_false_r. destruct proven; naive_solver. }
  unfold reads, relies, binds, supplies_proof in *.
  destruct (env_dep_use f var) as [[| |l|l|]|]; cbn [negb andb orb].
  5,6: split; [done|by intros (? & _)].
  all: destruct prefix, binding, proven, (has_rs_extension f); try destruct l; try done; cbn [andb orb].
  all: rewrite ?IH by done; cbn [andb orb]; rewrite ?orb_true_r, ?orb_false_r, ?andb_false_r; try done.
  all: split; [done|by intros (_ & ? & _)].
Qed.
End Sources.

(** ** What a normalised value means for the sources *)

(** The answer for a file that is not UTF-8. *)
Definition no_proof (u : SourceEnvDepUse) : SourceEnvDepUse :=
  match u with
  | IncludeLocator => Unused
  | ConcatPrefix _ => ConcatPrefix false
  | ConcatBinding _ => ConcatBinding false
  | u => u
  end.
Lemma scan_bytes_lexemes lxs text var :
  lexed lxs = true -> text = string_of_list_ascii (source_of lxs) ->
  scan_bytes text var = Ok (if is_ok (from_utf8 (source_of lxs)) then expected_use var lxs else no_proof (expected_use var lxs)).
Proof.
  intros Hl ->. unfold scan_bytes, source_env_dep_use. rewrite list_ascii_of_string_of_list_ascii.
  destruct (from_utf8 (source_of lxs)) as [s|e] eqn:Hu; cbn [is_ok].
  - apply from_utf8_Ok in Hu as ->. rewrite list_ascii_of_string_of_list_ascii. by apply scan_reads_tokens.
  - by rewrite (scan_reads_tokens _ _ Hl).
Qed.
Lemma expected_not_read var lxs :
  expected_use var lxs <> RuntimeValue ->
  reads_value var lxs = false /\ relies_on_prefix var lxs && binds_concat lxs = false.
Proof. unfold expected_use. by destruct (reads_value _ _), (relies_on_prefix _ _ && _). Qed.

(** The form of a value that the checks read. *)
Definition resolved_value (nfc : string -> string) (canonicalize : string -> option string) (val : string) : string :=
  default (lexically_resolve_path val) (canonicalize val ≫= canonical_form nfc).

Section Meaning.
Context (nfc : string -> string) (canonicalize : string -> option string) (contents : string -> string).
Abbreviation use_of := (fun file var => ok (scan_bytes (contents file) var)).
(** [lxs] are the tokens of the file. *)
Definition tokens_of (file : string) (lxs : list Lexeme) : Prop :=
  lexed lxs = true /\ contents file = string_of_list_ascii (source_of lxs).

Lemma reads_tokens var file lxs :
  tokens_of file lxs -> reads use_of var file = false ->
  reads_value var lxs = false /\ relies_on_prefix var lxs && binds_concat lxs = false
  /\ relies use_of var file = relies_on_prefix var lxs
  /\ (relies_on_prefix var lxs = false -> binds use_of var file = binds_concat lxs)
  /\ (supplies_proof use_of var file = true -> locates_include var lxs = true).
Proof.
  intros [Hl Hc] Hr. pose proof (scan_bytes_lexemes _ _ var Hl Hc) as Hs.
  unfold reads, relies, binds, supplies_proof in *. rewrite Hs in *. cbn [ok] in *.
  assert (expected_use var lxs <> RuntimeValue) as Hn.
  { intros He. by rewrite He in Hr; destruct (is_ok _). }
  pose proof (expected_not_read _ _ Hn) as [Hv Hb]. split; [done|]. split; [done|]. clear Hr Hs Hl.
  revert Hn. unfold expected_use. rewrite Hv. cbn [orb].
  destruct (relies_on_prefix var lxs), (binds_concat lxs), (locates_include var lxs), (is_ok _); cbn; rewrite ?andb_false_r; naive_solver.
Qed.

(** The value is a path that the sources only use to locate what they include:
    the variable is [OUT_DIR], listed by the user, or names something under
    [OUT_DIR]; no source reads the value outside the arguments of an include
    macro; no source relies on a [concat!] that another may bind; some Rust
    source names the variable inside an include; a source lies under the value. *)
Definition only_includes (var value : string) (paths : EnvDepPaths) (allowlist : list string) : Prop :=
  (var = "OUT_DIR" \/ var ∈ allowlist \/ value_is_under_out_dir canonicalize paths value = true)
  /\ (forall file lxs, file ∈ ep_source_files paths -> tokens_of file lxs -> reads_value var lxs = false)
  /\ (forall f1 l1 f2 l2, f1 ∈ ep_source_files paths -> f2 ∈ ep_source_files paths -> tokens_of f1 l1 -> tokens_of f2 l2 ->
        relies_on_prefix var l1 && binds_concat l2 = false)
  /\ (exists file, file ∈ ep_source_files paths /\ has_rs_extension file = true
        /\ forall lxs, tokens_of file lxs -> locates_include var lxs = true)
  /\ exists source, source ∈ source_probes canonicalize paths
       /\ path_starts_with (components source) (components (path_probe canonicalize value)) = true.
Lemma path_only_decision_sound var value paths allowlist :
  env_dep_path_only_decision canonicalize use_of var value paths allowlist = NormalizedPathOnly ->
  is_manifest_dir_var var = false /\ only_includes var value paths allowlist.
Proof.
  intros H. unfold env_dep_path_only_decision in H. destruct (is_manifest_dir_var var); [done|].
  destruct (negb _) eqn:Hallowed in H; [done|]. apply negb_false_iff in Hallowed.
  destruct (path_is_only_used_for_includes _ _) eqn:Hunder; [|done]. cbn [negb] in H.
  apply source_decision_iff in H as (Hreads & Hboth & Hproof); [|done]. cbn [orb] in *.
  rewrite forallb_forall in Hreads. assert (forall f, f ∈ ep_source_files paths -> reads use_of var f = false) as Hr.
  { intros f Hf%list_elem_of_In. by apply negb_true_iff, Hreads. }
  split; [done|]. split_and!.
  - rewrite !orb_true_iff, String.eqb_eq, existsb_exists in Hallowed. destruct Hallowed as [[?|(x & Hx & <-%String.eqb_eq)]|?]; [by left| |by right; right].
    right. left. by apply list_elem_of_In.
  - intros f lxs Hf Ht. by apply (reads_tokens _ _ _ Ht (Hr f Hf)).
  - intros f1 l1 f2 l2 Hf1 Hf2 Ht1 Ht2.
    pose proof (reads_tokens var _ _ Ht1 (Hr f1 Hf1)) as (_ & _ & Hrel1 & _).
    pose proof (reads_tokens var _ _ Ht2 (Hr f2 Hf2)) as (_ & Hself & _ & Hb2 & _).
    destruct (relies_on_prefix var l1) eqn:R1; [|done]. destruct (binds_concat l2) eqn:B2; [|done]. exfalso.
    assert (existsb (relies use_of var) (ep_source_files paths) = true) as E1.
    { apply existsb_exists. exists f1. split; [by apply list_elem_of_In|done]. }
    rewrite E1 in Hboth. cbn [andb] in Hboth. rewrite <- not_true_iff_false, existsb_exists in Hboth. apply Hboth.
    exists f2. split; [by apply list_elem_of_In|]. destruct (relies_on_prefix var l2) eqn:R2; [|by rewrite Hb2].
    done.
  - apply existsb_exists in Hproof as (f & Hf%list_elem_of_In & Hp). exists f. split_and!; [done| |].
    + by apply andb_true_iff in Hp as [Hp _].
    + intros lxs Ht. by apply (reads_tokens _ _ _ Ht (Hr f Hf)).
  - apply existsb_exists in Hunder as (s & Hs%list_elem_of_In & Hu). eauto.
Qed.

Lemma source_decision_literal var proven prefix binding files :
  keeps_literal_value (source_decision use_of var proven prefix binding files) = false ->
  source_decision use_of var proven prefix binding files = NormalizedPathOnly.
Proof.
  revert proven prefix binding. induction files as [|f files IH]; intros proven prefix binding; cbn [source_decision]; [by destruct proven|].
  repeat case_match; first [done|apply IH].
Qed.
Lemma path_only_literal var value paths allowlist :
  keeps_literal_value (env_dep_path_only_decision canonicalize use_of var value paths allowlist) = false ->
  env_dep_path_only_decision canonicalize use_of var value paths allowlist = NormalizedPathOnly.
Proof. unfold env_dep_path_only_decision. repeat case_match; [done..|]. apply source_decision_literal. Qed.

(** C12. A value enters the key as rustc sees it unless a sentinel replaces it, which
    never happens to the manifest directory and otherwise only in two cases: the
    user asserted it, with an entry that names the crate and the variable, or the
    sources use the value for nothing but to locate what they include
    ([only_includes]). *)
Theorem normalised_value_is_not_read crate_name var val paths n alias :
  let keyed := normalize_env_dep_value_with_hasher nfc canonicalize use_of crate_name var val paths n alias in
  (keeps_literal_value (ne_decision keyed) = true -> ne_value keyed = val)
  /\ (keeps_literal_value (ne_decision keyed) = false ->
       is_manifest_dir_var var = false
       /\ (crate_name ++ ":" ++ var ∈ pn_path_only_env_vars n
           \/ only_includes var (resolved_value nfc canonicalize val) paths (pn_path_only_env_vars n))).
Proof.
  unfold normalize_env_dep_value_with_hasher. cbn zeta.
  destruct (if alias is Some dir then value_at_or_under val dir else false); [done|]. fold (resolved_value nfc canonicalize val).
  destruct (_ && _); [done|]. destruct (negb _ && _) eqn:Hforced; cbn [ne_decision ne_value].
  - split; [done|]. intros _. apply andb_true_iff in Hforced as [Hm%negb_true_iff Hf]. split; [done|]. left.
    apply existsb_exists in Hf as (entry & Hin%list_elem_of_In & Hf). unfold forces in Hf.
    destruct (split_once ":" entry) as [[krate v]|] eqn:E; [|done]. apply andb_true_iff in Hf as [->%String.eqb_eq ->%String.eqb_eq].
    by apply split_once_Some in E as [-> _].
  - set (decision := env_dep_path_only_decision _ _ _ _ _ _). split.
    + intros Hk. rewrite bool_decide_false; [done|]. by intros E; rewrite E in Hk.
    + intros Hk. destruct (path_only_decision_sound var (resolved_value nfc canonicalize val) paths (pn_path_only_env_vars n)) as [Hm Ho].
      { by apply path_only_literal. }
      split; [done|]. by right.
Qed.
End Meaning.

(** ** Lexical resolution *)

(** A component that stays: not empty, a dot or two dots, without separators. *)
Definition plain_segment (n : string) : bool :=
  segment n && negb (String.eqb n "..") && negb (contains_byte backslash n).
Lemma slash_join ns : ns <> [] -> String slash (join_with "/" ns) = abs_path ns.
Proof.
  induction ns as [|n [|m ns] IH]; [done|intros _; unfold abs_path; cbn; by rewrite string_app_nil_r|]. intros _.
  change (String slash (n ++ String slash (join_with "/" (m :: ns))) = String slash (n ++ abs_path (m :: ns))). by rewrite IH.
Qed.
Lemma split_seps_slash s : contains_byte backslash s = false -> split_seps s = split_on slash s.
Proof.
  unfold contains_byte. rewrite negb_false_iff. induction s as [|c s IH]; [done|]. cbn [all_bytes split_seps split_on].
  intros [Hc%negb_true_iff Hs]%andb_true_iff. unfold is_separator. rewrite Hc, orb_false_r, (IH Hs).
  destruct (Ascii.eqb c slash); [done|]. by destruct (split_on_cons slash s) as (h & t & ->).
Qed.
Lemma split_on_segments s : Forall (fun n => contains_byte slash n = false) (split_on slash s).
Proof.
  induction s as [|c s IH]; cbn [split_on]; [by repeat constructor|]. destruct (Ascii.eqb c slash) eqn:Hc; [by constructor|].
  destruct (split_on slash s) as [|h t]; [done|]. inversion IH as [|? ? Hh Ht]; subst. constructor; [|done].
  unfold contains_byte in *. cbn. by rewrite Hc.
Qed.
Lemma split_on_bytes (p : ascii -> bool) c s : all_bytes p s = true -> Forall (fun n => all_bytes p n = true) (split_on c s).
Proof.
  induction s as [|a s IH]; cbn [split_on all_bytes]; [by repeat constructor|]. intros [Ha Hs]%andb_true_iff.
  destruct (Ascii.eqb a c); [by constructor; [|apply IH]|].
  specialize (IH Hs). destruct (split_on c s) as [|h t]; [done|]. inversion IH; subst. constructor; [|done]. cbn. by rewrite Ha.
Qed.

(** The stack of the loop is the collapse of the components. *)
Lemma resolve_collapse segs : forall stack,
  Forall (fun n => contains_byte slash n = false /\ contains_byte backslash n = false) segs ->
  Forall (fun n => plain_segment n = true) stack ->
  let stack' := fold_left (resolve_step true) (List.filter (fun c => negb (String.eqb c "")) segs) stack in
  fold_left collapse_step (omap seg_component segs) (RootDir :: map Normal (rev stack)) = RootDir :: map Normal (rev stack')
  /\ Forall (fun n => plain_segment n = true) stack'.
Proof.
  induction segs as [|seg segs IH]; intros stack Hs Hst; [done|]. inversion Hs as [|? ? [Hsl Hbs] Hs']; subst.
  cbn [List.filter]. change (omap seg_component (seg :: segs)) with
    (match seg_component seg with Some c => c :: omap seg_component segs | None => omap seg_component segs end).
  unfold seg_component at 1. destruct (String.eqb_spec seg "") as [->|Hne]; cbn [negb]; [by apply IH|].
  cbn [fold_left]. unfold resolve_step at 2 4.
  destruct (String.eqb_spec seg ".") as [->|Hdot]; [by apply IH|].
  destruct (String.eqb_spec seg "..") as [->|Hup].
  - destruct stack as [|top below]; [by apply IH|]. inversion Hst as [|? ? Htop Hbelow]; subst.
    assert (top <> "..") as Hne2 by (unfold plain_segment in Htop; bool_to_prop; naive_solver).
    rewrite (proj2 (String.eqb_neq _ _) Hne2). cbn [fold_left rev map]. rewrite map_app. cbn [map].
    replace (collapse_step _ ParentDir) with (RootDir :: map Normal (rev below)); [by apply IH|].
    set (below' := map Normal (rev below)). cbn [collapse_step]. change (RootDir :: below' ++ [Normal top])%list with ((RootDir :: below') ++ [Normal top])%list.
    rewrite last_snoc, length_app. cbn [length]. rewrite Nat.add_sub. symmetry. apply (take_app_length (RootDir :: below')).
  - assert (plain_segment seg = true) as Hseg.
    { unfold plain_segment, segment. rewrite Hsl, Hbs, !(proj2 (String.eqb_neq _ _)) by done. done. }
    specialize (IH (seg :: stack) Hs' ltac:(by constructor)). cbn [fold_left collapse_step rev] in *.
    rewrite map_app in IH. exact IH.
Qed.
Lemma plain_segments_ok ns : Forall (fun n => plain_segment n = true) ns -> Forall (fun n => segment n = true) ns.
Proof. intros H. eapply Forall_impl; [exact H|]. unfold plain_segment. intros n Hn. by bool_to_prop. Qed.
Lemma plain_component n : plain_segment n = true -> segment_component n = Normal n.
Proof.
  unfold plain_segment, segment_component. intros H. bool_to_prop. destruct (String.eqb_spec n ".."); [naive_solver|done].
Qed.
Definition root_path (ns : list string) : string := String slash (join_with "/" ns).
Lemma components_root_path ns :
  Forall (fun n => plain_segment n = true) ns -> components (root_path ns) = RootDir :: map Normal ns.
Proof.
  intros H. unfold root_path. destruct (decide (ns = [])) as [->|Hne]; [done|].
  rewrite slash_join, components_abs by (done || by apply plain_segments_ok). f_equal.
  apply map_ext_Forall. eapply Forall_impl; [exact H|]. apply plain_component.
Qed.
Lemma resolve_unix rest :
  starts_with "/" rest = false -> contains_byte backslash rest = false ->
  lexically_resolve_path (String slash rest)
  = root_path (rev (fold_left (resolve_step true) (List.filter (fun c => negb (String.eqb c "")) (split_on slash rest)) [])).
Proof.
  intros Hs Hb. unfold lexically_resolve_path, root_path.
  assert (split_anchor (String slash rest) = ("/", rest)) as ->.
  { destruct rest as [|b rest]; [done|]. cbn [split_anchor]. change (is_separator slash) with true. cbn [andb].
    assert (is_separator b = false) as ->; [|by rewrite andb_false_r].
    unfold is_separator. unfold starts_with, contains_byte in *. cbn [strip_prefix all_bytes] in *.
    rewrite Ascii.eqb_sym in Hs. change (Ascii.eqb "/" b) with (Ascii.eqb slash b) in Hs.
    apply negb_false_iff, andb_true_iff in Hb as [Hb%negb_true_iff _]. rewrite Hb, orb_false_r.
    destruct (Ascii.eqb_spec b slash) as [->|]; [by destruct rest|done]. }
  change (ends_with "/" "/") with true. rewrite (split_seps_slash _ Hb). cbn [String.eqb].
  destruct (String.eqb_spec (join_with "/" (rev (fold_left (resolve_step true) (List.filter (fun c => negb (String.eqb c "")) (split_on slash rest)) []))) "") as [->|]; done.
Qed.
Lemma resolve_fold_plain ns stack :
  Forall (fun n => plain_segment n = true) ns ->
  fold_left (resolve_step true) (List.filter (fun c => negb (String.eqb c "")) ns) stack = (rev ns ++ stack)%list.
Proof.
  intros H. revert stack. induction H as [|n ns Hn _ IH]; intros stack; [done|]. cbn [List.filter rev].
  apply andb_true_iff in Hn as [[Hseg Hup%negb_true_iff]%andb_true_iff _]. apply segment_spec in Hseg as (H1 & H2 & _).
  rewrite (proj2 (String.eqb_neq _ _) H1). cbn [negb fold_left]. unfold resolve_step at 2.
  rewrite Hup, (proj2 (String.eqb_neq _ _) H2), IH, <- app_assoc. done.
Qed.
Lemma root_path_rest ns :
  Forall (fun n => plain_segment n = true) ns ->
  starts_with "/" (join_with "/" ns) = false /\ contains_byte backslash (join_with "/" ns) = false
  /\ (ns <> [] -> split_on slash (join_with "/" ns) = ns).
Proof.
  intros H. destruct (decide (ns = [])) as [->|Hne]; [done|].
  pose proof (split_abs "" ns eq_refl (plain_segments_ok _ H)) as Hsplit. rewrite <- slash_join in Hsplit by done.
  cbn [String.append split_on] in Hsplit. change (Ascii.eqb slash slash) with true in Hsplit. cbv iota in Hsplit. injection Hsplit as Hsplit.
  split_and!; [| |done].
  - destruct ns as [|n ns]; [done|]. inversion H as [|? ? Hn _]; subst.
    apply andb_true_iff in Hn as [[Hseg _]%andb_true_iff _]. apply segment_spec in Hseg as (H1 & _ & H3).
    destruct n as [|a n]; [done|]. unfold contains_byte in H3. cbn in H3. unfold starts_with.
    replace (join_with "/" (String a n :: ns)) with (String a (n ++ match ns with [] => "" | _ => "/" ++ join_with "/" ns end))
      by (destruct ns; cbn; by rewrite ?string_app_nil_r).
    cbn [strip_prefix]. destruct (Ascii.eqb_spec "/" a) as [<-|]; done.
  - clear Hsplit Hne. unfold contains_byte. rewrite negb_false_iff. induction H as [|n ns Hn Hns IH]; [done|].
    apply andb_true_iff in Hn as [_ Hb%negb_true_iff]. unfold contains_byte in Hb. apply negb_false_iff in Hb.
    destruct ns as [|m ns]; [done|]. change (join_with "/" (n :: m :: ns)) with (n ++ "/" ++ join_with "/" (m :: ns)).
    rewrite !all_bytes_app, Hb, IH. done.
Qed.

(** Resolving an absolute path by its text collapses its components, and
    resolving the result again changes nothing. *)
Theorem lexical_resolution_collapses (rest : string) :
  starts_with "/" rest = false -> contains_byte backslash rest = false ->
  let resolved := lexically_resolve_path (String slash rest) in
  components resolved = collapse_lexical (components (String slash rest))
  /\ lexically_resolve_path resolved = resolved
  /\ existsb (fun c => bool_decide (c = ParentDir)) (components resolved) = false.
Proof.
  intros Hs Hb. rewrite (resolve_unix _ Hs Hb). cbn zeta.
  destruct (resolve_collapse (split_on slash rest) []) as [Hc Hp].
  { pose proof (split_on_segments rest) as H1. unfold contains_byte in Hb. apply negb_false_iff in Hb.
    apply (split_on_bytes _ slash) in Hb. rewrite Forall_forall in *. intros n Hn. split; [by apply H1|].
    unfold contains_byte. by rewrite (Hb n Hn). }
  { done. }
  set (stack := fold_left (resolve_step true) _ []) in *. apply List.Forall_rev in Hp.
  assert (components (root_path (rev stack)) = RootDir :: map Normal (rev stack)) as Hcs by (by apply components_root_path).
  split_and!.
  - rewrite Hcs, <- Hc. unfold collapse_lexical, components. cbn [split_on]. change (Ascii.eqb slash slash) with true. cbv iota.
    destruct (split_on_cons slash rest) as (h & t & E). rewrite E. done.
  - destruct (root_path_rest _ Hp) as (H1 & H2 & H3). unfold root_path at 1. rewrite (resolve_unix _ H1 H2). f_equal.
    destruct (decide (rev stack = [])) as [->|Hne]; [done|].
    rewrite (H3 Hne), (resolve_fold_plain _ _ Hp), app_nil_r, rev_involutive. done.
  - rewrite Hcs. cbn. clear. induction (rev stack); done.
Qed.
