(* ===== verification/Predictions.v ===== *)
(** * Input predictions

    The closures of earlier builds that [src/cache_key.rs] remembers, so that a
    key can be computed without running rustc to discover its inputs: the plain
    record of one checkout, the portable records whose paths are relative to
    [OUT_DIR] or the workspace, and the rows [src/prediction_share.rs] shares
    through the remote.  A record is a hint: everything in it is checked against
    the tree before it is used.  Row lookups, tree digests, identities and file
    tests are parameters; the platform is Linux. *)

From S2P Require Import Prelude Strings Codec StorePolicy PePdb CargoLayout RustcArgs PathNormalizer DepInfoText SourceScan EnvDeps.
#[local] Open Scope string_scope.
#[local] Open Scope Z_scope.

(** ** Paths inside a root *)

(** The walk of [stays_below], [depth] levels down. *)
Fixpoint stays_below_from (floor depth : nat) (comps : list string) : bool :=
  match comps with
  | [] => true
  | c :: comps =>
      if String.eqb c "" then false
      else if String.eqb c "." then stays_below_from floor depth comps
      else if String.eqb c ".." then (floor <? depth)%nat && stays_below_from floor (depth - 1) comps
      else stays_below_from floor (S depth) comps
  end.
Definition stays_below (floor : nat) (comps : list string) : bool := stays_below_from floor 0 comps.
(** [strip_prefix(['/', '\\'])] *)
Definition strip_separator (s : string) : option string :=
  if s is String c rest then if is_separator c then Some rest else None else None.
Definition suffix_within (value root : string) (floor : nat) : option string :=
  rest ← strip_prefix root value;
  suffix ← to_str rest;
  match strip_separator suffix with
  | None => if String.eqb suffix "" then Some "" else None
  | Some comps =>
      if stays_below floor (split_seps comps) && stays_below floor (split_on slash comps) then Some suffix else None
  end.
Definition under_out_dir (value root : string) : option string := suffix_within value root 0.
Definition registry_suffix (value registry : string) : option string :=
  suffix ← suffix_within value registry 2; if String.eqb suffix "" then None else Some suffix.
Definition under_registry_src (source registry_src : string) : bool := is_some (registry_suffix source registry_src).

Definition is_registry_package (manifest_dir : string) : bool :=
  match rev (components manifest_dir) with
  | _ :: _ :: Normal src :: Normal registry :: _ => String.eqb src "src" && String.eqb registry "registry"
  | _ => false
  end.
(** The spelling of [Path::parent], for a path of several components. *)
Definition parent_spelling (p : string) : string :=
  join_with "/" (trim_segments_end (rev (tail (rev (trim_segments_end (split_on slash p)))))).
Definition registry_src_root (manifest_dir : string) : option string :=
  if is_registry_package manifest_dir then Some (parent_spelling (parent_spelling manifest_dir)) else None.

(** ** Records *)

Definition PREDICTION_SCHEMA : Z := 2.
Definition PORTABLE_PREDICTION_SCHEMA : Z := 102.
Record InputPrediction := {
  ip_schema : Z;
  ip_sources : list string;
  ip_env_deps : list (string * option string);
  ip_tree : option string;
}.
Definition from_dep_info (d : DepInfo) (tree : option string) : InputPrediction :=
  {| ip_schema := PREDICTION_SCHEMA; ip_sources := di_source_files d; ip_env_deps := di_env_deps d; ip_tree := tree |}.

Inductive Portable := PLiteral (value : string) | POutDir (suffix : string) | PWorkspace (suffix : string) | PRegistry (suffix : string).
Record PortablePrediction := {
  pp_schema : Z;
  pp_sources : list Portable;
  pp_env_deps : list (string * option Portable);
  pp_tree : string;
}.
Record PlainRow := {
  pl_schema : Z;
  pl_sources : list Portable;
  pl_env_deps : list (string * option Portable);
  pl_tree : option string;
}.
Inductive SharedPrediction := SharedPortable (row : PortablePrediction) | SharedPlain (row : PlainRow).

Record Places := { pc_out_dir : option string; pc_workspace : option string; pc_registry : option string }.
Record PortableRoots := { po_out_dir : string; po_target : string; po_canonical_target : string; po_registry_src : string }.
Record WorkspaceRoots := {
  wr_root : string;
  wr_cwd : string;
  wr_canonical_root : string;
  wr_target : string;
  wr_canonical_target : string;
  wr_out_dir : option string;
  wr_vendored_package : option string;
}.

(** [map(..).collect::<Option<Vec<_>>>()] over environment entries. *)
Definition map_env {A B} (f : A -> option B) (env : list (string * option A)) : option (list (string * option B)) :=
  mapM (fun nv => match nv.2 with
                  | Some v => v' ← f v; Some (nv.1, Some v')
                  | None => Some (nv.1, None)
                  end) env.

(** ** A registry unit's record *)

Definition portable_source (roots : PortableRoots) (source : string) : option Portable :=
  match under_out_dir source (po_out_dir roots) with
  | Some suffix => Some (POutDir suffix)
  | None =>
      if under_registry_src source (po_registry_src roots) then s ← to_str source; Some (PLiteral s) else None
  end.
Definition portable_env_value (roots : PortableRoots) (value : string) : option Portable :=
  match under_out_dir value (po_out_dir roots) with
  | Some suffix => Some (POutDir suffix)
  | None =>
      if starts_with (po_target roots) value || starts_with (po_canonical_target roots) value then None
      else Some (PLiteral value)
  end.
Definition is_out_dir (p : Portable) : bool := if p is POutDir _ then true else false.
Definition portable_prediction (d : DepInfo) (roots : PortableRoots) (tree : option string) : option PortablePrediction :=
  tree ← tree;
  sources ← mapM (portable_source roots) (di_source_files d);
  if negb (existsb is_out_dir sources) then None
  else
    env_deps ← map_env (portable_env_value roots) (di_env_deps d);
    Some {| pp_schema := PORTABLE_PREDICTION_SCHEMA; pp_sources := sources; pp_env_deps := env_deps; pp_tree := tree |}.

(** ** A workspace unit's record *)

Definition has_root (path : string) : bool := starts_with "/" path.
Definition workspace_relative_source (w : WorkspaceRoots) (source : string) : option Portable :=
  spelled ← to_str source;
  comps ← strip_separator (wr_cwd w ++ "/" ++ spelled);
  if stays_below 0 (split_seps comps) && stays_below 0 (split_on slash comps) then Some (PLiteral spelled) else None.
Definition or_else {A} (a b : option A) : option A := if a is Some _ then a else b.
Definition workspace_portable_value (w : WorkspaceRoots) (value : string) : option Portable :=
  match wr_out_dir w ≫= under_out_dir value with
  | Some suffix => Some (POutDir suffix)
  | None =>
      if starts_with (wr_target w) value || starts_with (wr_canonical_target w) value then None
      else
        match or_else (suffix_within value (wr_root w) 0) (suffix_within value (wr_canonical_root w) 0) with
        | Some suffix => Some (PWorkspace suffix)
        | None => v ← to_str value; Some (PLiteral v)
        end
  end.
Definition workspace_source (w : WorkspaceRoots) (source : string) : option Portable :=
  if negb (has_root source) then workspace_relative_source w source
  else
    relocated ← workspace_portable_value w source;
    if relocated is PLiteral _ then None else Some relocated.
Definition workspace_portable_prediction (d : DepInfo) (w : WorkspaceRoots) (tree : option string) : option PortablePrediction :=
  tree ← tree;
  sources ← mapM (workspace_source w) (di_source_files d);
  env_deps ← map_env (workspace_portable_value w) (di_env_deps d);
  Some {| pp_schema := PORTABLE_PREDICTION_SCHEMA; pp_sources := sources; pp_env_deps := env_deps; pp_tree := tree |}.
Definition workspace_places (w : WorkspaceRoots) : option Places :=
  out_dir ← (match wr_out_dir w with Some d => d ← to_str d; Some (Some d) | None => Some None end);
  root ← to_str (wr_root w);
  Some {| pc_out_dir := out_dir; pc_workspace := Some root; pc_registry := None |}.

(** ** Using a record *)

Definition place (places : Places) (p : Portable) : option string :=
  match p with
  | PLiteral value => Some value
  | POutDir suffix => root ← pc_out_dir places; Some (root ++ suffix)
  | PWorkspace suffix => root ← pc_workspace places; Some (root ++ suffix)
  | PRegistry suffix => root ← pc_registry places; Some (root ++ suffix)
  end.
Definition resolve_prediction (row : PortablePrediction) (places : Places) : option InputPrediction :=
  sources ← mapM (place places) (pp_sources row);
  env_deps ← map_env (place places) (pp_env_deps row);
  Some {| ip_schema := PREDICTION_SCHEMA; ip_sources := sources; ip_env_deps := env_deps; ip_tree := Some (pp_tree row) |}.

Inductive Rejection := Disabled | NotEligible | NoRecord | Missing | NotRegular | EnvChanged | Sibling | TreeChanged.

Definition mod_sibling_candidate (file : string) : option Path :=
  let p := components file in
  stem ← file_stem p ≫= to_str;
  up ← parent p;
  if negb (bool_decide ((path_extension p ≫= to_str) = Some "rs")) then None
  else if String.eqb stem "mod" then
    above ← parent up; name ← path_file_name up; Some (with_extension (above ++ [Normal name])%list "rs")
  else if String.eqb stem "lib" || String.eqb stem "main" then None
  else Some (up ++ [Normal stem; Normal "mod.rs"])%list.

Section Validate.
(** [stat] tells whether a file there is regular; [exists_] follows a path's components. *)
Context (stat : string -> option bool) (exists_ : Path -> bool) (env_value : string -> option string).
Definition check_source (file : string) : result Rejection unit :=
  is_file ← with_context (stat file) Missing;
  _ ← ensure is_file NotRegular;
  ensure (negb (if mod_sibling_candidate file is Some sibling then exists_ sibling else false)) Sibling.
Definition check_env (nv : string * option string) : result Rejection unit :=
  ensure (bool_decide (env_value nv.1 = nv.2)) EnvChanged.
Definition validate_prediction (record : InputPrediction) : result Rejection DepInfo :=
  _ ← try_fold (fun _ file => check_source file) tt (ip_sources record);
  _ ← try_fold (fun _ nv => check_env nv) tt (ip_env_deps record);
  Ok {| di_source_files := ip_sources record; di_env_deps := ip_env_deps record |}.
Definition validate_portable_prediction (row : PortablePrediction) (guard : string) (places : Places) : result Rejection DepInfo :=
  _ ← ensure (String.eqb (pp_tree row) guard) TreeChanged;
  resolved ← with_context (resolve_prediction row places) NoRecord;
  validate_prediction resolved.
End Validate.

(** ** Guards *)

Definition has_dylib_extern (externs : list ExternDep) : bool :=
  existsb (fun e =>
    if (path ← ext_path e; name ← path_file_name (components path); to_str name) is Some name
    then (if classify_by_filename name is DynamicLibrary then true else false) else false) externs.
Definition needs_tree_guard (externs : list ExternDep) (manifest_dir : option string) : bool :=
  has_dylib_extern externs || (if manifest_dir is Some dir then negb (is_registry_package dir) else false).
Definition same_tree_guard (tree : option string) (workspace_unit covered : bool) : option string :=
  if workspace_unit && negb covered then None else tree.

Section Covers.
(** A directory the walk enters: no symlink and, when asked, no Cargo build directory. *)
Context (entered : Path -> bool -> bool).
(** The loop of [walk_reaches] over the directories on the way. *)
Fixpoint walk_dirs (skips : bool) (dir : Path) (depth : nat) (comps : list Component) : bool :=
  match comps with
  | [] => true
  | ParentDir :: comps =>
      match depth with
      | O => false
      | S depth => walk_dirs skips (default dir (parent dir)) depth comps
      end
  | c :: comps => let dir := (dir ++ [c])%list in entered dir skips && walk_dirs skips dir (S depth) comps
  end.
Definition is_walked (c : Component) : bool := match c with Normal _ | ParentDir => true | _ => false end.
Definition walk_reaches (root below : string) (skips : bool) : bool :=
  let comps := List.filter is_walked (components below) in
  walk_dirs skips (components root) 0 (take (length comps - 1) comps).
Definition guard_place (w : WorkspaceRoots) (source : string) : option (string * string * bool) :=
  if negb (has_root source) then
    _ ← workspace_relative_source w source;
    spelled ← to_str source;
    Some (wr_root w, wr_cwd w ++ "/" ++ spelled, true)
  else
    relocated ← workspace_portable_value w source;
    match relocated with
    | POutDir below => out_dir ← wr_out_dir w; Some (out_dir, below, false)
    | PWorkspace below => Some (wr_root w, below, true)
    | _ => None
    end.
Definition guard_covers (sources : list string) (w : WorkspaceRoots) : bool :=
  forallb (fun source =>
    match guard_place w source with
    | Some (root, below, skips) => walk_reaches root below skips
    | None => false
    end) sources.
End Covers.

(** ** Rows that travel *)

Definition SHARED_ROW_SCHEMA : Z := 1.
Definition SHARED_ROW_MAX_BYTES : Z := 256 * 1024.
Definition for_remote_value (registry : option string) (value : string) : option Portable :=
  if negb (has_root value) then Some (PLiteral value)
  else registry ← registry; suffix ← registry_suffix value registry; Some (PRegistry suffix).
Definition for_remote_entry (registry : option string) (entry : Portable) : option Portable :=
  if entry is PLiteral value then for_remote_value registry value else Some entry.
Definition for_remote_portable (row : PortablePrediction) (registry : option string) : option SharedPrediction :=
  sources ← mapM (for_remote_entry registry) (pp_sources row);
  env_deps ← map_env (for_remote_entry registry) (pp_env_deps row);
  Some (SharedPortable {| pp_schema := pp_schema row; pp_sources := sources; pp_env_deps := env_deps; pp_tree := pp_tree row |}).
Definition for_remote_plain (row : InputPrediction) (registry : string) : option SharedPrediction :=
  sources ← mapM (fun s => s ← to_str s; for_remote_value (Some registry) s) (ip_sources row);
  env_deps ← map_env (for_remote_value (Some registry)) (ip_env_deps row);
  Some (SharedPlain {| pl_schema := ip_schema row; pl_sources := sources; pl_env_deps := env_deps; pl_tree := ip_tree row |}).
Definition place_plain (registry : string) (entry : Portable) : option string :=
  match entry with
  | PLiteral value => Some value
  | PRegistry suffix => Some (registry ++ suffix)
  | POutDir _ | PWorkspace _ => None
  end.
Definition plain_from_remote (row : PlainRow) (registry : string) : option InputPrediction :=
  registry ← to_str registry;
  sources ← mapM (place_plain registry) (pl_sources row);
  env_deps ← map_env (place_plain registry) (pl_env_deps row);
  Some {| ip_schema := pl_schema row; ip_sources := sources; ip_env_deps := env_deps; ip_tree := pl_tree row |}.

Definition WORKSPACE_PREDICTION_PREFIX : string := "shared-workspace-v1:".
Definition SHARED_PREDICTION_PREFIX : string := "shared-target-v2:".
Definition RELOCATABLE_PREDICTION_PREFIX : string := "shared-out-dir-v1:".
Definition is_portable_identity (identity : string) : bool :=
  starts_with WORKSPACE_PREDICTION_PREFIX identity || starts_with RELOCATABLE_PREDICTION_PREFIX identity.
Definition is_shared_target_identity (identity : string) : bool := starts_with SHARED_PREDICTION_PREFIX identity.
Definition fits (row : SharedPrediction) (identity : string) : bool :=
  match row with
  | SharedPortable row => is_portable_identity identity && (pp_schema row =? PORTABLE_PREDICTION_SCHEMA)
  | SharedPlain row => is_shared_target_identity identity && (pl_schema row =? PREDICTION_SCHEMA)
  end.
Record SharedRow := { sr_schema : Z; sr_identity : string; sr_row : SharedPrediction }.

(** Values of the Rust types: UTF-8 strings and [u32] schemas. *)
Definition well_formed_portable (p : Portable) : bool :=
  match p with PLiteral s | POutDir s | PWorkspace s | PRegistry s => valid_utf8 s end.
#[export] Instance rust_portable : RustValue Portable := well_formed_portable.
Definition env_well_typed (env : list (string * option Portable)) : bool :=
  forallb (fun nv => valid_utf8 nv.1 && well_typed nv.2) env.
Definition u32_range (z : Z) : bool := (0 <=? z) && (z <=? u32_max).
#[export] Instance rust_shared_row : RustValue SharedRow := fun r =>
  u32_range (sr_schema r) && valid_utf8 (sr_identity r)
  && match sr_row r with
     | SharedPortable p =>
         u32_range (pp_schema p) && well_typed (pp_sources p) && env_well_typed (pp_env_deps p) && valid_utf8 (pp_tree p)
     | SharedPlain p =>
         u32_range (pl_schema p) && well_typed (pl_sources p) && env_well_typed (pl_env_deps p) && well_typed (pl_tree p)
     end.

Section Remote.
Context `{JsonCodec SharedRow}.
Definition encode_row (identity : string) (row : SharedPrediction) : option string :=
  if negb (fits row identity) then None
  else
    let bytes := to_vec {| sr_schema := SHARED_ROW_SCHEMA; sr_identity := identity; sr_row := row |} in
    if slen bytes <=? SHARED_ROW_MAX_BYTES then Some bytes else None.
Definition decode_row (bytes identity : string) : option SharedPrediction :=
  if SHARED_ROW_MAX_BYTES <? slen bytes then None
  else
    shared ← from_slice bytes;
    if (sr_schema shared =? SHARED_ROW_SCHEMA) && String.eqb (sr_identity shared) identity && fits (sr_row shared) identity
    then Some (sr_row shared) else None.
End Remote.

(** ** Looking a closure up *)

(** What the database, the remote and the file system answer, and the
    identities and digests of this invocation. *)
Record Lookup := {
  lu_enabled : bool;
  lu_identity : option string;
  lu_shared : option string;
  lu_relocatable_identity : option string;
  lu_workspace_identity : option string;
  lu_row : string -> option InputPrediction;
  lu_portable_row : string -> option PortablePrediction;
  lu_remote : string -> option SharedPrediction;
  lu_workspace : option WorkspaceRoots;
  lu_tree_digest : option string;
  lu_out_dir_digest : string -> option string;
  lu_stat : string -> option bool;
  lu_exists : Path -> bool;
  lu_entered : Path -> bool -> bool;
}.
(** A row written back after the remote supplied it. *)
Inductive KeptRow := KeptPlain (identity : string) (row : InputPrediction) | KeptPortable (identity : string) (row : PortablePrediction).
(** The answer, the tree guard of the invocation and the rows kept. *)
Record Predicted := { pd_result : result Rejection DepInfo; pd_guard : option string; pd_kept : list KeptRow }.
Definition rejected (guard : option string) (r : Rejection) : Predicted :=
  {| pd_result := Err r; pd_guard := guard; pd_kept := [] |}.

Section Predict.
Context (env : Invocation) (externs : list ExternDep) (lu : Lookup).

Definition stat_in (path : string) : option bool := path ← resolve env path; lu_stat lu path.
(** A sibling is a path of components; relative ones are resolved as rustc does. *)
Definition exists_in (p : Path) : bool := if resolve env (path_of p) is Some path then lu_exists lu (components path) else false.
Definition validate_in (record : InputPrediction) : result Rejection DepInfo :=
  validate_prediction stat_in exists_in (inv_var_os env) record.
Definition manifest_dir_var : option string := inv_var_os env "CARGO_MANIFEST_DIR".
Definition registry_src_of : option string := manifest_dir_var ≫= registry_src_root.
Definition remote_portable_row (identity : string) : option PortablePrediction :=
  row ← lu_remote lu identity; if row is SharedPortable row then Some row else None.
Definition remote_plain_row (identity registry : string) : option InputPrediction :=
  row ← lu_remote lu identity; if row is SharedPlain row then plain_from_remote row registry else None.

Definition portable_key_inputs (identity guard : string) (places : Places) (tree_guard : option string) : Predicted :=
  let validate row := validate_portable_prediction stat_in exists_in (inv_var_os env) row guard places in
  match lu_portable_row lu identity with
  | Some row => {| pd_result := validate row; pd_guard := tree_guard; pd_kept := [] |}
  | None =>
      match remote_portable_row identity with
      | None => rejected tree_guard NoRecord
      | Some row =>
          let validated := validate row in
          {| pd_result := validated; pd_guard := tree_guard;
             pd_kept := if is_ok validated then [KeptPortable identity row] else [] |}
      end
  end.
Definition relocated_key_inputs (tree : option string) : Predicted :=
  let out_dir := d ← inv_var_os env "OUT_DIR"; d ← resolve env d; to_str d in
  match lu_relocatable_identity lu, out_dir with
  | Some identity, Some out_dir =>
      let places := {| pc_out_dir := Some out_dir; pc_workspace := None; pc_registry := registry_src_of ≫= to_str |} in
      match tree with
      | Some tree => portable_key_inputs identity tree places (Some tree)
      | None =>
          match lu_out_dir_digest lu out_dir with
          | Some digest => portable_key_inputs identity digest places (Some digest)
          | None => rejected None NoRecord
          end
      end
  | _, _ => rejected tree NoRecord
  end.
Definition workspace_key_inputs (w : WorkspaceRoots) (tree : option string) : Predicted :=
  match lu_workspace_identity lu, tree, workspace_places w with
  | Some identity, Some guard, Some places =>
      let p := portable_key_inputs identity guard places (Some guard) in
      match pd_result p with
      | Ok d =>
          if guard_covers (lu_entered lu) (di_source_files d) w then p
          else {| pd_result := Err NoRecord; pd_guard := pd_guard p; pd_kept := pd_kept p |}
      | Err _ => p
      end
  | _, _, _ => rejected tree NoRecord
  end.

(** A plain record under the guard [tree] of this invocation. *)
Definition use_record (record : InputPrediction) (tree : option string) : result Rejection DepInfo :=
  _ ← (match tree, ip_tree record with
       | Some tree, Some recorded => ensure (String.eqb recorded tree) TreeChanged
       | Some _, None => Err NoRecord
       | None, _ => Ok tt
       end);
  _ ← ensure (if lu_workspace lu is Some w then guard_covers (lu_entered lu) (ip_sources record) w else true) NoRecord;
  validate_in record.
(** The lookups of an eligible invocation, nearest first: the row of this
    directory, the shared row, the remote's, the portable ones. *)
Definition looked_up (identity : string) (tree : option string) : Predicted :=
  match or_else (lu_row lu identity) (lu_shared lu ≫= lu_row lu) with
  | Some record => {| pd_result := use_record record tree; pd_guard := tree; pd_kept := [] |}
  | None =>
      match (shared ← lu_shared lu; registry ← registry_src_of;
             record ← remote_plain_row shared registry; Some (shared, record)) with
      | Some (shared, record) =>
          (* only a record that reaches validation is written back *)
          let validated := use_record record tree in
          {| pd_result := validated; pd_guard := tree;
             pd_kept := (if validated is Ok d then [KeptPlain shared (from_dep_info d (ip_tree record))] else []) |}
      | None =>
          match lu_workspace lu with
          | Some w => workspace_key_inputs w tree
          | None => relocated_key_inputs tree
          end
      end
  end.
Definition predicted_key_inputs : Predicted :=
  if negb (lu_enabled lu) then rejected None Disabled
  else
    let guarded := needs_tree_guard externs manifest_dir_var in
    match guarded, lu_tree_digest lu with
    | true, None => rejected None NotEligible
    | _, _ =>
        let tree := if guarded then lu_tree_digest lu else None in
        if lu_identity lu is Some identity then looked_up identity tree else rejected tree Disabled
    end.
End Predict.

(** ** The closure of a key *)

Definition option_leb (a b : option string) : bool :=
  match a, b with None, _ => true | Some _, None => false | Some x, Some y => String.leb x y end.
(** The derived order of [(String, Option<String>)]. *)
Definition env_entry_leb (a b : string * option string) : bool :=
  match String.compare a.1 b.1 with Lt => true | Gt => false | Eq => option_leb a.2 b.2 end.
(** Paths are equal when their components are. *)
Definition closures_agree (predicted discovered : DepInfo) : bool :=
  let paths d := map components (sort_by path_leb (di_source_files d)) in
  let envs d := sort_by env_entry_leb (di_env_deps d) in
  bool_decide (paths predicted = paths discovered) && bool_decide (envs predicted = envs discovered).

Inductive VerifyPredictions := VerifyOff | VerifySampled | VerifyAlways.
Definition parse_verify_predictions (value : option string) : VerifyPredictions :=
  match value with
  | Some v =>
      if eq_ignore_ascii_case v "sampled" then VerifySampled
      else if eq_ignore_ascii_case v "always" || String.eqb v "1" || eq_ignore_ascii_case v "true" then VerifyAlways
      else VerifyOff
  | None => VerifyOff
  end.
Definition VERIFY_PREDICTION_RATE : Z := 64.
(** [blake3] is the digest as bytes. *)
Definition sampled_by_identity (blake3 : string -> string) (identity : string) (rate : Z) : bool :=
  if rate <=? 1 then true else from_le_bytes (String.substring 0 8 (blake3 identity)) mod rate =? 0.
Definition should_verify_this_prediction (blake3 : string -> string) (mode : VerifyPredictions) (identity : string) : bool :=
  match mode with VerifyOff => false | VerifyAlways => true | VerifySampled => sampled_by_identity blake3 identity VERIFY_PREDICTION_RATE end.

(** What the invocation finds around the lookups.  [dv_flight] is the discovery
    flight it joins when a lookup fails: whether it holds the lock, and whether
    it waited for another holder. *)
Record Discovery := {
  dv_provided : option DepInfo;
  dv_has_source : bool;
  dv_flight : option (bool * bool);
  dv_verify : option string;
  dv_sample_identity : string;
  dv_pre_pass : option (option DepInfo);
  dv_defer : bool;
  dv_store_lacks_unit : bool;
  dv_compile_while_keying : bool;
}.
Inductive DiscoveredInputs := Inputs (d : option DepInfo) | Deferred (miss_certain : bool) | PrePassFailed.
(** The closure, whether it is a prediction, and whether a check of one disagreed. *)
Record Resolved := { rk_inputs : DiscoveredInputs; rk_used_prediction : bool; rk_mismatch : bool }.
Definition pre_passed (dv : Discovery) : Resolved :=
  {| rk_inputs := (if dv_pre_pass dv is Some d then Inputs d else PrePassFailed); rk_used_prediction := false; rk_mismatch := false |}.
Definition unpredicted (r : Rejection) : bool := match r with NoRecord | Disabled | NotEligible => true | _ => false end.

(** [first] and [again] are the lookup before and after the flight. *)
Definition resolve_key_inputs (blake3 : string -> string) (dv : Discovery) (first again : Predicted) : Resolved :=
  match dv_provided dv with
  | Some d => {| rk_inputs := Inputs (Some d); rk_used_prediction := false; rk_mismatch := false |}
  | None =>
      if negb (dv_has_source dv) then pre_passed dv
      else
        let flight := if is_ok (pd_result first) then None else dv_flight dv in
        let owns := if flight is Some (lock, _) then lock else false in
        let prediction := if flight is Some (_, true) then again else first in
        match pd_result prediction with
        | Ok d =>
            if should_verify_this_prediction blake3 (parse_verify_predictions (dv_verify dv)) (dv_sample_identity dv) then
              match dv_pre_pass dv with
              | None => {| rk_inputs := PrePassFailed; rk_used_prediction := false; rk_mismatch := false |}
              | Some discovered =>
                  {| rk_inputs := Inputs discovered; rk_used_prediction := false;
                     rk_mismatch := negb (if discovered is Some d' then closures_agree d d' else false) |}
              end
            else {| rk_inputs := Inputs (Some d); rk_used_prediction := true; rk_mismatch := false |}
        | Err reason =>
            if unpredicted reason && owns && dv_defer dv && dv_store_lacks_unit dv then
              {| rk_inputs := Deferred true; rk_used_prediction := false; rk_mismatch := false |}
            else if owns && dv_defer dv && dv_compile_while_keying dv then
              {| rk_inputs := Deferred false; rk_used_prediction := false; rk_mismatch := false |}
            else pre_passed dv
        end
  end.
