(* ===== verification/PredictionProofs.v ===== *)
(** * Input predictions: proofs

    Records written relative to a root read back as they were made, in the
    directories they were made in; what is written relative to a root stays
    inside it in any other; no rooted path of the machine is published; and a
    closure is used only when the tree, the files and the environment are the
    ones it was recorded for. *)

From S2P Require Import Prelude Strings Codec StorePolicy PePdb CargoLayout RustcArgs RustcPolicy PathNormalizer PathNormalizerProofs KeyFold NativeLink DepInfoText SourceScan EnvDeps Predictions.
#[local] Open Scope string_scope.
#[local] Open Scope Z_scope.

(** ** Round trips *)

Lemma suffix_within_Some value root floor suffix : suffix_within value root floor = Some suffix -> value = root ++ suffix.
Proof.
  unfold suffix_within, to_str. intros (rest & Hr%strip_prefix_Some & H)%bind_Some. subst value. destruct (valid_utf8 rest); [|done].
  cbn [mbind option_bind] in H. repeat case_match; simplify_eq/=; bool_to_prop; congruence.
Qed.
Lemma mapM_inverse {A B} (f : A -> option B) (g : B -> option A) l l' :
  (forall a b, f a = Some b -> g b = Some a) -> mapM f l = Some l' -> mapM g l' = Some l.
Proof.
  intros Hfg. revert l'. induction l as [|a l IH]; intros l'; cbn; [by intros [= <-]|].
  intros (b & Hb & (bs & Hbs & [= <-])%bind_Some)%bind_Some. cbn. by rewrite (Hfg _ _ Hb), (IH _ Hbs).
Qed.
Lemma map_env_inverse {A B} (f : A -> option B) (g : B -> option A) env env' :
  (forall a b, f a = Some b -> g b = Some a) -> map_env f env = Some env' -> map_env g env' = Some env.
Proof.
  intros Hfg. apply mapM_inverse. intros [n [v|]] [n' o]; cbn; [|by intros [= <- <-]].
  intros (w & Hw & [= <- <-])%bind_Some. cbn. by rewrite (Hfg _ _ Hw).
Qed.
Lemma to_str_Some s t : to_str s = Some t -> t = s.
Proof. unfold to_str. by destruct (valid_utf8 s); intros [= <-]. Qed.

(** The places of the recorder. *)
Definition own_places (roots : PortableRoots) : Places :=
  {| pc_out_dir := Some (po_out_dir roots); pc_workspace := None; pc_registry := None |}.
Lemma portable_source_place roots s p : portable_source roots s = Some p -> place (own_places roots) p = Some s.
Proof.
  unfold portable_source. destruct (under_out_dir _ _) as [suffix|] eqn:Hs.
  - intros [= <-]. cbn. f_equal. symmetry. by eapply suffix_within_Some.
  - destruct (under_registry_src _ _); [|done]. intros (t & ->%to_str_Some & [= <-])%bind_Some. done.
Qed.
Lemma portable_env_place roots v p : portable_env_value roots v = Some p -> place (own_places roots) p = Some v.
Proof.
  unfold portable_env_value. destruct (under_out_dir _ _) as [suffix|] eqn:Hs.
  - intros [= <-]. cbn. f_equal. symmetry. by eapply suffix_within_Some.
  - destruct (_ || _); [done|]. by intros [= <-].
Qed.
Lemma portable_round_trip d roots tree row :
  portable_prediction d roots (Some tree) = Some row ->
  resolve_prediction row (own_places roots) = Some (from_dep_info d (Some tree)).
Proof.
  unfold portable_prediction. cbn [mbind option_bind]. intros (sources & Hs & H)%bind_Some.
  destruct (negb _); [done|]. apply bind_Some in H as (env & He & [= <-]). unfold resolve_prediction. cbn [pp_sources pp_env_deps pp_tree].
  rewrite (mapM_inverse _ _ _ _ (portable_source_place roots) Hs). cbn [mbind option_bind].
  by rewrite (map_env_inverse _ _ _ _ (portable_env_place roots) He).
Qed.

Section Workspace.
Context (w : WorkspaceRoots) (places : Places).
Hypothesis Hcanonical : wr_canonical_root w = wr_root w.
Hypothesis Hplaces : workspace_places w = Some places.
Lemma workspace_places_of : pc_workspace places = Some (wr_root w) /\ pc_out_dir places = wr_out_dir w.
Proof.
  revert Hplaces. unfold workspace_places. intros (o & Ho & (r & ->%to_str_Some & [= <-])%bind_Some)%bind_Some. cbn. split; [done|].
  destruct (wr_out_dir w) as [x|]; [|by injection Ho as <-]. by apply bind_Some in Ho as (y & ->%to_str_Some & [= <-]).
Qed.
Lemma workspace_value_place v p : workspace_portable_value w v = Some p -> place places p = Some v.
Proof.
  destruct workspace_places_of as [Hw Ho]. unfold workspace_portable_value.
  destruct (wr_out_dir w ≫= _) as [suffix|] eqn:Hs.
  { intros [= <-]. apply bind_Some in Hs as (o & E & Hs). cbn. rewrite Ho, E. cbn. f_equal. symmetry. by eapply suffix_within_Some. }
  destruct (_ || _); [done|]. rewrite Hcanonical. unfold or_else.
  destruct (suffix_within v (wr_root w) 0) as [suffix|] eqn:Hr.
  - intros [= <-]. cbn. rewrite Hw. cbn. f_equal. symmetry. by eapply suffix_within_Some.
  - intros (t & ->%to_str_Some & [= <-])%bind_Some. done.
Qed.
Lemma workspace_source_place s p : workspace_source w s = Some p -> place places p = Some s.
Proof.
  unfold workspace_source. destruct (negb _).
  - unfold workspace_relative_source. intros (t & ->%to_str_Some & (c & _ & H)%bind_Some)%bind_Some. destruct (_ && _); by simplify_eq/=.
  - intros (r & Hr & H)%bind_Some. assert (p = r) as -> by (by destruct r; simplify_eq/=). by apply workspace_value_place.
Qed.
Lemma workspace_round_trip d tree row :
  workspace_portable_prediction d w (Some tree) = Some row ->
  resolve_prediction row places = Some (from_dep_info d (Some tree)).
Proof.
  unfold workspace_portable_prediction. cbn [mbind option_bind]. intros (sources & Hs & (env & He & [= <-])%bind_Some)%bind_Some.
  unfold resolve_prediction. cbn [pp_sources pp_env_deps pp_tree].
  rewrite (mapM_inverse _ _ _ _ workspace_source_place Hs). cbn [mbind option_bind].
  by rewrite (map_env_inverse _ _ _ _ workspace_value_place He).
Qed.
End Workspace.

(** A closure written for other checkouts reads back in its own: the record of
    a registry unit at its [OUT_DIR], that of a workspace unit at its root. *)
Theorem portable_records_round_trip (d : DepInfo) (tree : string) :
  (forall roots row, portable_prediction d roots (Some tree) = Some row ->
     resolve_prediction row (own_places roots) = Some (from_dep_info d (Some tree)))
  /\ (forall w places row, wr_canonical_root w = wr_root w -> workspace_places w = Some places ->
        workspace_portable_prediction d w (Some tree) = Some row ->
        resolve_prediction row places = Some (from_dep_info d (Some tree))).
Proof. split; intros; [by apply portable_round_trip|by eapply workspace_round_trip]. Qed.

(** ** Containment *)

(** A walk that stays below its floor only ever leaves names of its own. *)
Lemma stays_below_collapse base comps : forall names,
  stays_below_from 0 (length names) comps = true ->
  exists names', fold_left collapse_step (omap seg_component comps) (base ++ map Normal names)%list = (base ++ map Normal names')%list.
Proof.
  induction comps as [|c comps IH]; intros names H; [by exists names|]. cbn [stays_below_from] in H.
  change (omap seg_component (c :: comps)) with
    (match seg_component c with Some x => x :: omap seg_component comps | None => omap seg_component comps end).
  unfold seg_component at 1. destruct (String.eqb c ""); [done|]. destruct (String.eqb c "."); [by apply IH|].
  destruct (String.eqb c "..").
  - apply andb_true_iff in H as [Hd%Nat.ltb_lt H].
    destruct names as [|n names _] using rev_ind; [simpl in Hd; lia|]. rewrite length_app in H. cbn [length] in H. rewrite Nat.add_sub in H.
    cbn [fold_left]. replace (collapse_step _ ParentDir) with (base ++ map Normal names)%list; [by apply IH|].
    cbn [collapse_step]. rewrite map_app, app_assoc. cbn [map]. rewrite last_snoc, length_app. cbn [length].
    by rewrite Nat.add_sub, take_app_length.
  - cbn [fold_left collapse_step]. replace ((base ++ map Normal names) ++ [Normal c])%list with (base ++ map Normal (names ++ [c]))%list
      by (by rewrite map_app, app_assoc). apply IH. rewrite length_app. cbn [length]. by rewrite Nat.add_1_r.
Qed.
Lemma components_below root rest :
  root <> "" -> components (root ++ String slash rest) = (components root ++ omap seg_component (split_on slash rest))%list.
Proof.
  intros Hr. unfold components. rewrite split_on_app, omap_app, app_assoc. f_equal. f_equal.
  destruct (split_on_cons slash root) as (h & t & E). destruct (split_on_cons slash rest) as (h' & t' & E').
  apply leading_app.
  - by rewrite E.
  - intros E2. apply Hr. destruct root as [|a root]; [done|]. cbn in E2. destruct (Ascii.eqb a slash); [|by destruct (split_on slash root)].
    by destruct (split_on_cons slash root) as (? & ? & E3); rewrite E3 in E2.
Qed.

(** C23. What is written relative to a root is, under any other root, still inside
    it: no [..] of the suffix climbs out.  Suffixes that begin with a backslash
    are another matter, see [backslash_beside_root]. *)
Theorem relocated_path_stays_inside (value root root' : string) (suffix : string) :
  suffix_within value root 0 = Some suffix -> starts_with (String backslash "") suffix = false -> root' <> "" ->
  value = root ++ suffix
  /\ path_starts_with (collapse_lexical (components (root' ++ suffix))) (collapse_lexical (components root')) = true.
Proof.
  intros H Hb Hr. split; [by eapply suffix_within_Some|]. revert H. unfold suffix_within, to_str.
  intros (rest & _ & H)%bind_Some. destruct (valid_utf8 rest); [|done]. cbn [mbind option_bind] in H.
  destruct (strip_separator rest) as [comps|] eqn:Hs.
  - destruct (_ && _) eqn:Hw; [|done]. injection H as ->. apply andb_true_iff in Hw as [_ Hw].
    assert (suffix = String slash comps) as ->.
    { unfold strip_separator in Hs. destruct suffix as [|c t]; [done|]. unfold is_separator in Hs. unfold starts_with in Hb. cbn in Hb.
      destruct (Ascii.eqb_spec c slash) as [->|]; [by injection Hs as ->|]. cbn [orb] in Hs.
      destruct (Ascii.eqb_spec c backslash) as [->|]; [done|done]. }
    rewrite components_below by done. unfold collapse_lexical. rewrite fold_left_app.
    destruct (stays_below_collapse (fold_left collapse_step (components root') []) _ [] Hw) as [names' Hn].
    cbn [map] in Hn. rewrite app_nil_r in Hn. rewrite Hn. apply components_start_with_app.
  - destruct (String.eqb_spec rest "") as [->|]; [|done]. injection H as <-. rewrite string_app_nil_r.
    rewrite <- (app_nil_r (collapse_lexical _)) at 1. apply components_start_with_app.
Qed.
(** On Unix a backslash is part of a name, so a file beside the root whose name
    continues with one counts as inside. *)
Theorem backslash_beside_root :
  suffix_within (bs "/t/o|x") "/t/o" 0 = Some (bs "|x")
  /\ path_starts_with (components (bs "/t/o|x")) (components "/t/o") = false
  /\ components (bs "/u/o|x") = [RootDir; Normal "u"; Normal (bs "o|x")].
Proof. vm_compute. auto. Qed.

(** ** Rows that travel *)

Definition published (p : Portable) : bool := if p is PLiteral v then negb (has_root v) else true.
Lemma mapM_all {A B} (f : A -> option B) (P : B -> Prop) l l' :
  (forall a b, f a = Some b -> P b) -> mapM f l = Some l' -> Forall P l'.
Proof.
  intros Hf. revert l'. induction l as [|a l IH]; intros l'; cbn; [by intros [= <-]|].
  intros (b & Hb & (bs & Hbs & [= <-])%bind_Some)%bind_Some. constructor; [by eapply Hf|by apply IH].
Qed.
Lemma map_env_all {A B} (f : A -> option B) (P : B -> Prop) env env' :
  (forall a b, f a = Some b -> P b) -> map_env f env = Some env' ->
  Forall (fun nv => if nv.2 is Some v then P v else True) env'.
Proof.
  intros Hf. apply mapM_all. intros [n [v|]] [n' o]; cbn; [|by intros [= <- <-]].
  intros (x & Hx & [= <- <-])%bind_Some. cbn. by eapply Hf.
Qed.
Lemma for_remote_value_published registry v p : for_remote_value registry v = Some p -> published p = true.
Proof.
  unfold for_remote_value. destruct (negb (has_root v)) eqn:H; [by intros [= <-]|].
  by intros (r & _ & (s & _ & [= <-])%bind_Some)%bind_Some.
Qed.
Lemma for_remote_entry_published registry e p : for_remote_entry registry e = Some p -> published p = true.
Proof. destruct e; [apply for_remote_value_published|by intros [= <-]..]. Qed.
Lemma for_remote_value_place registry v p : for_remote_value (Some registry) v = Some p -> place_plain registry p = Some v.
Proof.
  unfold for_remote_value. destruct (negb _); [by intros [= <-]|]. cbn [mbind option_bind].
  intros (s & Hs & [= <-])%bind_Some. cbn. f_equal. symmetry. unfold registry_suffix in Hs.
  apply bind_Some in Hs as (t & Ht%suffix_within_Some & Hs). destruct (String.eqb t ""); [done|]. by injection Hs as ->.
Qed.
Definition row_entries (row : SharedPrediction) : list Portable * list (string * option Portable) :=
  match row with
  | SharedPortable p => (pp_sources p, pp_env_deps p)
  | SharedPlain p => (pl_sources p, pl_env_deps p)
  end.
(** No entry of a row starts at the root of the machine. *)
Definition publishes_no_root (row : SharedPrediction) : Prop :=
  Forall (fun p => published p = true) (row_entries row).1
  /\ Forall (fun nv => if nv.2 is Some v then published v = true else True) (row_entries row).2.
Lemma portable_published row registry shared : for_remote_portable row registry = Some shared -> publishes_no_root shared.
Proof.
  unfold for_remote_portable. intros (s & Hs & (e & He & [= <-])%bind_Some)%bind_Some. split; cbn.
  - by eapply mapM_all; [|exact Hs]; apply for_remote_entry_published.
  - by eapply (map_env_all _ (fun p => published p = true)); [|exact He]; apply for_remote_entry_published.
Qed.
Lemma plain_published row registry shared : for_remote_plain row registry = Some shared -> publishes_no_root shared.
Proof.
  unfold for_remote_plain. intros (s & Hs & (e & He & [= <-])%bind_Some)%bind_Some. split; cbn.
  - eapply mapM_all; [|exact Hs]. intros a b (t & _ & Hb)%bind_Some. by eapply for_remote_value_published.
  - by eapply (map_env_all _ (fun p => published p = true)); [|exact He]; apply for_remote_value_published.
Qed.
Lemma plain_round_trip row registry p :
  valid_utf8 registry = true -> for_remote_plain row registry = Some (SharedPlain p) -> plain_from_remote p registry = Some row.
Proof.
  intros Hu. unfold for_remote_plain, plain_from_remote, to_str at 2. rewrite Hu.
  intros (s & Hs & (e & He & [= <-])%bind_Some)%bind_Some. cbn [mbind option_bind pl_sources pl_env_deps pl_schema pl_tree].
  rewrite (mapM_inverse _ (place_plain registry) _ _) by (exact Hs || (intros a b (t & ->%to_str_Some & Hb)%bind_Some; by apply for_remote_value_place)).
  cbn [mbind option_bind].
  rewrite (map_env_inverse _ (place_plain registry) _ _) by (exact He || (intros a b; apply for_remote_value_place)). by destruct row.
Qed.

Section Codec.
Context `{JsonCodec SharedRow}.
Lemma decode_encode_row identity row bytes :
  well_typed {| sr_schema := SHARED_ROW_SCHEMA; sr_identity := identity; sr_row := row |} = true ->
  encode_row identity row = Some bytes -> decode_row bytes identity = Some row.
Proof.
  intros Ht. unfold encode_row, decode_row. destruct (fits row identity) eqn:Hf; [|done]. cbn [negb].
  destruct (Z.leb_spec (slen (to_vec {| sr_schema := SHARED_ROW_SCHEMA; sr_identity := identity; sr_row := row |})) SHARED_ROW_MAX_BYTES); [|done].
  intros [= <-]. destruct (Z.ltb_spec SHARED_ROW_MAX_BYTES (slen (to_vec {| sr_schema := SHARED_ROW_SCHEMA; sr_identity := identity; sr_row := row |}))); [lia|].
  rewrite from_slice_to_vec by done. cbn. by rewrite String.eqb_refl, Hf.
Qed.

(** C22. What is published of a record: no entry that starts at the root of the
    machine, an answer only to its own identity and kind, and on a machine with
    the same registry directory the record itself. *)
Theorem published_rows_are_private_and_faithful (row : InputPrediction) (registry identity bytes : string) (shared : SharedPrediction) :
  valid_utf8 registry = true -> for_remote_plain row registry = Some shared ->
  well_typed {| sr_schema := SHARED_ROW_SCHEMA; sr_identity := identity; sr_row := shared |} = true ->
  encode_row identity shared = Some bytes ->
  publishes_no_root shared
  /\ (forall portable registry' row', for_remote_portable portable registry' = Some row' -> publishes_no_root row')
  /\ (forall other answer, decode_row bytes other = Some answer -> other = identity /\ answer = shared)
  /\ exists p, decode_row bytes identity = Some (SharedPlain p) /\ plain_from_remote p registry = Some row.
Proof.
  intros Hu Hr Ht He. split; [by eapply plain_published|]. split; [by apply portable_published|]. split.
  - intros other answer. unfold decode_row. case_match; [done|].
    unfold encode_row in He. destruct (negb _); [done|]. case_match; [|done]. injection He as <-.
    rewrite from_slice_to_vec by done. cbn. destruct (String.eqb_spec identity other) as [->|]; [|done].
    case_match; [|done]. by intros [= <-].
  - pose proof (decode_encode_row _ _ _ Ht He) as Hd. assert (exists p, shared = SharedPlain p) as [p ->].
    { revert Hr. unfold for_remote_plain. intros (s & _ & (e & _ & [= <-])%bind_Some)%bind_Some. eauto. }
    exists p. split; [done|]. by apply plain_round_trip.
Qed.
End Codec.

(** ** Validation *)

Lemma try_fold_units {E A} (f : A -> result E unit) l :
  try_fold (fun _ a => f a) tt l = Ok tt <-> Forall (fun a => f a = Ok tt) l.
Proof.
  induction l as [|a l IH]; cbn; [done|]. rewrite bind_Ok, Forall_cons, <- IH.
  split; [intros ([] & H1 & H2); done|intros [H1 H2]; by exists tt].
Qed.
Section Current.
Context (stat : string -> option bool) (exists_ : Path -> bool) (env_value : string -> option string).
(** The closure is what the tree and the environment hold now. *)
Definition current (d : DepInfo) : Prop :=
  Forall (fun f => stat f = Some true /\ match mod_sibling_candidate f with Some s => exists_ s = false | None => True end) (di_source_files d)
  /\ Forall (fun nv => env_value nv.1 = nv.2) (di_env_deps d).
Lemma check_source_Ok f :
  check_source stat exists_ f = Ok tt <->
  stat f = Some true /\ match mod_sibling_candidate f with Some s => exists_ s = false | None => True end.
Proof.
  unfold check_source. destruct (stat f) as [[]|]; cbn; [|split; [done|by intros [[=] _]]..].
  rewrite ensure_Ok. destruct (mod_sibling_candidate f) as [s|]; [|done]. destruct (exists_ s); cbn; naive_solver.
Qed.
Lemma validate_prediction_Ok record d :
  validate_prediction stat exists_ env_value record = Ok d <->
  current d /\ di_source_files d = ip_sources record /\ di_env_deps d = ip_env_deps record.
Proof.
  unfold validate_prediction, current. rewrite bind_Ok. setoid_rewrite bind_Ok. split.
  - intros ([] & H1%try_fold_units & [] & H2%try_fold_units & [= <-]). cbn. split_and!; [| |done..].
    + eapply Forall_impl; [exact H1|]. intros f. apply check_source_Ok.
    + eapply Forall_impl; [exact H2|]. intros nv Hn%ensure_Ok. by apply bool_decide_eq_true in Hn.
  - destruct d as [fs es]. cbn. intros ([H1 H2] & -> & ->). exists tt. split.
    { apply try_fold_units. eapply Forall_impl; [exact H1|]. intros f. apply check_source_Ok. }
    exists tt. split; [|done]. apply try_fold_units. eapply Forall_impl; [exact H2|]. intros nv Hn. apply ensure_Ok. by apply bool_decide_eq_true.
Qed.
End Current.

(** ** Lookups *)

Section Lookups.
Context (env : Invocation) (externs : list ExternDep) (lu : Lookup).
Abbreviation current_in := (current (stat_in env lu) (exists_in env lu) (inv_var_os env)).

(** [record] is a row of the database or the remote, placed for this invocation. *)
Definition recorded (record : InputPrediction) : Prop :=
  (exists identity, lu_row lu identity = Some record)
  \/ (exists identity row registry, lu_remote lu identity = Some (SharedPlain row) /\ plain_from_remote row registry = Some record)
  \/ (exists identity row places,
        (lu_portable_row lu identity = Some row \/ lu_remote lu identity = Some (SharedPortable row))
        /\ resolve_prediction row places = Some record).
(** [d] is a current closure from a record that carries the guard [tree]. *)
Definition from_record (tree : option string) (d : DepInfo) : Prop :=
  current_in d /\ exists record, recorded record /\ di_source_files d = ip_sources record /\ di_env_deps d = ip_env_deps record
    /\ (forall t, tree = Some t -> ip_tree record = Some t).

(** The walk behind the tree guard of a workspace unit sees every file. *)
Definition covered (d : DepInfo) : bool := if lu_workspace lu is Some w then guard_covers (lu_entered lu) (di_source_files d) w else true.

Lemma validate_portable_from row identity guard places d :
  lu_portable_row lu identity = Some row \/ lu_remote lu identity = Some (SharedPortable row) ->
  validate_portable_prediction (stat_in env lu) (exists_in env lu) (inv_var_os env) row guard places = Ok d -> from_record (Some guard) d.
Proof.
  intros Hrow. unfold validate_portable_prediction.
  intros (_ & Hg%ensure_Ok%String.eqb_eq & (record & Hr%with_context_Ok & Hv)%bind_Ok)%bind_Ok.
  apply validate_prediction_Ok in Hv as (Hc & Hs & He). split; [done|]. exists record. split_and!; [|done..|].
  - right. right. by exists identity, row, places.
  - intros t [= <-]. unfold resolve_prediction in Hr. apply bind_Some in Hr as (s & _ & (e & _ & [= <-])%bind_Some). by rewrite <- Hg.
Qed.
Lemma portable_key_inputs_from identity guard places tg d :
  pd_result (portable_key_inputs env lu identity guard places tg) = Ok d -> from_record (Some guard) d.
Proof.
  unfold portable_key_inputs. destruct (lu_portable_row lu identity) as [row|] eqn:Hl; cbn.
  { apply (validate_portable_from _ identity). by left. }
  unfold remote_portable_row. destruct (lu_remote lu identity) as [[row|row]|] eqn:Hr; cbn; [|done..].
  apply (validate_portable_from _ identity). by right.
Qed.
Lemma use_record_from record tree d :
  recorded record -> use_record env lu record tree = Ok d ->
  from_record tree d /\ covered d = true.
Proof.
  intros Hrec. unfold use_record. intros ([] & Ht & ([] & Hw%ensure_Ok & Hv)%bind_Ok)%bind_Ok.
  apply validate_prediction_Ok in Hv as (Hc & Hs & He). split; [|unfold covered; by rewrite Hs]. split; [done|]. exists record.
  split_and!; [done..|]. intros t ->. destruct (ip_tree record) as [r|]; [|done]. by apply ensure_Ok, String.eqb_eq in Ht as ->.
Qed.

Lemma from_record_unguarded tree d : from_record tree d -> from_record None d.
Proof. intros (Hc & record & Hr & Hs & He & _). split; [done|]. by exists record. Qed.
Lemma portable_guard identity guard places tg : pd_guard (portable_key_inputs env lu identity guard places tg) = tg.
Proof. unfold portable_key_inputs, remote_portable_row. destruct (lu_portable_row lu identity); [done|]. by destruct (lu_remote lu identity) as [[]|]. Qed.

(** What a lookup under the guard [tree] answers. *)
Definition answers_under (tree : option string) (p : Predicted) : Prop :=
  forall d, pd_result p = Ok d -> from_record tree d /\ (is_Some tree -> pd_guard p = tree) /\ covered d = true.

Lemma relocated_answers tree : lu_workspace lu = None -> answers_under tree (relocated_key_inputs env lu tree).
Proof.
  intros Hw d. unfold relocated_key_inputs, covered. rewrite Hw.
  destruct (lu_relocatable_identity lu) as [i|]; [|done]. destruct (inv_var_os env "OUT_DIR" ≫= _) as [o|]; [|done].
  destruct tree as [tree|]; [|destruct (lu_out_dir_digest lu o); [|done]]; intros H%portable_key_inputs_from; rewrite portable_guard.
  - done.
  - split_and!; [by eapply from_record_unguarded|by intros []|done].
Qed.
Lemma workspace_answers w tree : lu_workspace lu = Some w -> answers_under tree (workspace_key_inputs env lu w tree).
Proof.
  intros Hw d. unfold workspace_key_inputs, covered. rewrite Hw.
  destruct (lu_workspace_identity lu) as [i|]; [|done]. destruct tree as [guard|]; [|done]. destruct (workspace_places w) as [places|]; [|done].
  destruct (pd_result (portable_key_inputs env lu i guard places (Some guard))) as [d'|] eqn:Hp; [|by rewrite Hp].
  destruct (guard_covers (lu_entered lu) (di_source_files d') w) eqn:Hc; [|done]. rewrite Hp. intros [= <-].
  split_and!; [by eapply portable_key_inputs_from|by rewrite portable_guard|done].
Qed.
Lemma use_record_answers record tree kept :
  recorded record -> answers_under tree {| pd_result := use_record env lu record tree; pd_guard := tree; pd_kept := kept |}.
Proof. intros Hr d Hu. by destruct (use_record_from _ _ _ Hr Hu). Qed.
Lemma looked_up_answers identity tree : answers_under tree (looked_up env lu identity tree).
Proof.
  unfold looked_up. destruct (or_else _ _) as [record|] eqn:Ho.
  { apply use_record_answers. left. destruct (lu_row lu identity) eqn:Hl; cbn in Ho; [by simplify_eq; exists identity|].
    apply bind_Some in Ho as (shared & _ & Hs). by exists shared. }
  clear Ho. destruct (lu_shared lu ≫= fun shared => _ ≫= _) as [[shared record]|] eqn:Hs; [|destruct (lu_workspace lu) eqn:Hw; [by apply workspace_answers|by apply relocated_answers]].
  apply use_record_answers. right. left. apply bind_Some in Hs as (sh & _ & (registry & _ & (r & Hr & [= <- <-])%bind_Some)%bind_Some).
  unfold remote_plain_row in Hr. apply bind_Some in Hr as ([row|row] & Hl & Hp); [done|]. by exists sh, row, registry.
Qed.

Lemma predicted_answers :
  answers_under (if needs_tree_guard externs (manifest_dir_var env) then lu_tree_digest lu else None) (predicted_key_inputs env externs lu).
Proof.
  unfold predicted_key_inputs. destruct (lu_enabled lu); [|done]. cbn [negb].
  destruct (needs_tree_guard externs (manifest_dir_var env)), (lu_tree_digest lu) as [digest|]; [|done|..].
  all: destruct (lu_identity lu) as [identity|]; [|done]; apply looked_up_answers.
Qed.

(** C6. A closure the lookups return is one that was recorded, and holds now: its
    files are there and unambiguous, its variables have their values; where the
    unit needs a tree guard the record carries this tree's digest, and a
    workspace unit's files are all seen by the walk behind it. *)
Theorem predicted_closure_is_current (d : DepInfo) :
  pd_result (predicted_key_inputs env externs lu) = Ok d ->
  lu_enabled lu = true
  /\ from_record (if needs_tree_guard externs (manifest_dir_var env) then lu_tree_digest lu else None) d
  /\ (needs_tree_guard externs (manifest_dir_var env) = true ->
        exists tree, lu_tree_digest lu = Some tree /\ pd_guard (predicted_key_inputs env externs lu) = Some tree)
  /\ covered d = true.
Proof.
  intros Hd. destruct (predicted_answers d Hd) as (Hf & Hg & Hc). split_and!; [|exact Hf| |exact Hc].
  - unfold predicted_key_inputs in Hd. by destruct (lu_enabled lu).
  - intros Hn. rewrite Hn in Hg. destruct (lu_tree_digest lu) as [digest|] eqn:Ht; [exists digest; by rewrite Hg|].
    unfold predicted_key_inputs in Hd. rewrite Hn, Ht in Hd. by destruct (lu_enabled lu).
Qed.
End Lookups.

(** ** Agreement of closures *)

(** A comparison that is a total order. *)
Record ordered {A} (cmp : A -> A -> comparison) : Prop := {
  ord_flip : forall x y, cmp y x = CompOpp (cmp x y);
  ord_eq : forall x y, cmp x y = Eq <-> x = y;
  ord_lt : forall x y z, cmp x y = Lt -> cmp y z = Lt -> cmp x z = Lt;
}.
Definition at_most {A} (cmp : A -> A -> comparison) (x y : A) : bool := match cmp x y with Gt => false | _ => true end.
Section Orders.
Context {A B} (ca : A -> A -> comparison) (cb : B -> B -> comparison) (Ha : ordered ca) (Hb : ordered cb).

Lemma at_most_total x y : at_most ca x y = true \/ at_most ca y x = true.
Proof. unfold at_most. rewrite (ord_flip _ Ha x y). destruct (ca x y); auto. Qed.
Lemma at_most_antisym x y : at_most ca x y = true -> at_most ca y x = true -> x = y.
Proof. unfold at_most. rewrite (ord_flip _ Ha x y). destruct (ca x y) eqn:E; [|done..]. by apply (ord_eq _ Ha) in E. Qed.
Lemma at_most_trans x y z : at_most ca x y = true -> at_most ca y z = true -> at_most ca x z = true.
Proof.
  unfold at_most. destruct (ca x y) eqn:E1; [|destruct (ca y z) eqn:E2; [|by rewrite (ord_lt _ Ha _ _ _ E1 E2)|done]|done].
  - by apply (ord_eq _ Ha) in E1 as ->.
  - apply (ord_eq _ Ha) in E2 as ->. by rewrite E1.
Qed.
(** Sorting forgets exactly the order. *)
Lemma sorted_agree l1 l2 : sort_by (at_most ca) l1 = sort_by (at_most ca) l2 <-> l1 ≡ₚ l2.
Proof.
  split; [intros E; by rewrite <- (sort_by_perm (at_most ca) l1), E, sort_by_perm|].
  apply sort_by_perm_eq; [apply at_most_total|apply at_most_trans|apply at_most_antisym].
Qed.
Lemma map_sort_by (f : B -> A) l : map f (sort_by (fun x y => at_most ca (f x) (f y)) l) = sort_by (at_most ca) (map f l).
Proof.
  induction l as [|x l IH]; cbn; [done|]. rewrite <- IH. clear IH.
  induction (sort_by _ l) as [|y s IHs]; cbn; [done|]. destruct (at_most ca (f x) (f y)); cbn; [done|]. by rewrite IHs.
Qed.

Definition lex (c d : comparison) : comparison := match c with Eq => d | c => c end.
Lemma ordered_pair : ordered (fun x y : A * B => lex (ca x.1 y.1) (cb x.2 y.2)).
Proof.
  split.
  - intros x y. rewrite (ord_flip _ Ha x.1), (ord_flip _ Hb x.2). by destruct (ca x.1 y.1).
  - intros [x1 x2] [y1 y2]. cbn. destruct (ca x1 y1) eqn:E; cbn; [apply (ord_eq _ Ha) in E as ->|..].
    + rewrite (ord_eq _ Hb). naive_solver.
    + split; [done|]. intros [= -> _]. by rewrite (proj2 (ord_eq _ Ha y1 y1)) in E.
    + split; [done|]. intros [= -> _]. by rewrite (proj2 (ord_eq _ Ha y1 y1)) in E.
  - intros [x1 x2] [y1 y2] [z1 z2]. cbn.
    destruct (ca x1 y1) eqn:E1; cbn; [apply (ord_eq _ Ha) in E1 as ->|destruct (ca y1 z1) eqn:E2; cbn|done].
    + destruct (ca y1 z1); cbn; [apply (ord_lt _ Hb)|done..].
    + apply (ord_eq _ Ha) in E2 as ->. by rewrite E1.
    + by rewrite (ord_lt _ Ha _ _ _ E1 E2).
    + done.
Qed.
Definition compare_option (x y : option A) : comparison :=
  match x, y with None, None => Eq | None, Some _ => Lt | Some _, None => Gt | Some x, Some y => ca x y end.
Lemma ordered_option : ordered compare_option.
Proof.
  split.
  - intros [x|] [y|]; cbn; [apply (ord_flip _ Ha)|done..].
  - intros [x|] [y|]; cbn; [rewrite (ord_eq _ Ha); naive_solver|naive_solver..].
  - intros [x|] [y|] [z|]; cbn; [apply (ord_lt _ Ha)|done..].
Qed.
Fixpoint compare_list (l k : list A) : comparison :=
  match l, k with
  | [], [] => Eq
  | [], _ :: _ => Lt
  | _ :: _, [] => Gt
  | x :: l, y :: k => lex (ca x y) (compare_list l k)
  end.
Lemma ordered_list : ordered compare_list.
Proof.
  split.
  - intros x. induction x as [|a x IH]; intros [|b y]; cbn; [done..|]. rewrite (ord_flip _ Ha a b), IH. by destruct (ca a b).
  - intros x. induction x as [|a x IH]; intros [|b y]; cbn; [done..|].
    destruct (ca a b) eqn:E; cbn; [apply (ord_eq _ Ha) in E as ->; rewrite IH; naive_solver|..].
    all: split; [done|]; intros [= -> _]; by rewrite (proj2 (ord_eq _ Ha b b)) in E.
  - intros x. induction x as [|a x IH]; intros [|b y] [|c z]; cbn; [done..|].
    destruct (ca a b) eqn:E1; cbn; [apply (ord_eq _ Ha) in E1 as ->|destruct (ca b c) eqn:E2; cbn|done].
    + destruct (ca b c); cbn; [apply IH|done..].
    + apply (ord_eq _ Ha) in E2 as ->. by rewrite E1.
    + by rewrite (ord_lt _ Ha _ _ _ E1 E2).
    + done.
Qed.
End Orders.

Lemma string_compare_Eq x y : String.compare x y = Eq <-> x = y.
Proof. split; [apply String.compare_eq_iff|intros ->]. pose proof (String.compare_antisym y y) as H. by destruct (String.compare y y). Qed.
Lemma ordered_string : ordered String.compare.
Proof.
  split; [intros x y; apply String.compare_antisym|intros x y; apply string_compare_Eq|].
  intros x y z H1 H2. assert (String.leb x z = true) as H by (eapply (string_leb_trans x y); unfold String.leb; [by rewrite H1|by rewrite H2]).
  unfold String.leb in H. destruct (String.compare x z) eqn:E; [|done..]. apply String.compare_eq_iff in E as ->.
  by rewrite String.compare_antisym, H2 in H1.
Qed.
Lemma ordered_component : ordered component_compare.
Proof.
  split.
  - intros [| | |x] [| | |y]; try done. apply String.compare_antisym.
  - intros [| | |x] [| | |y]; try done. cbn. rewrite string_compare_Eq. naive_solver.
  - intros [| | |x] [| | |y] [| | |z]; try done. apply (ord_lt _ ordered_string).
Qed.
Lemma components_compare_list l k : components_compare l k = compare_list component_compare l k.
Proof. revert k. induction l as [|x l IH]; intros [|y k]; cbn; [done..|]. rewrite IH. unfold lex. by destruct (component_compare x y). Qed.
Lemma path_leb_at_most a b : path_leb a b = at_most (compare_list component_compare) (components a) (components b).
Proof. unfold path_leb, at_most. by rewrite components_compare_list. Qed.
Lemma env_entry_leb_at_most a b :
  env_entry_leb a b = at_most (fun x y => lex (String.compare x.1 y.1) (compare_option String.compare x.2 y.2)) a b.
Proof. unfold env_entry_leb, at_most. destruct (String.compare a.1 b.1); [|done..]. by destruct a.2, b.2. Qed.
Lemma sort_by_ext {A} (f g : A -> A -> bool) l : (forall x y, f x y = g x y) -> sort_by f l = sort_by g l.
Proof.
  intros Hfg. induction l as [|x l IH]; cbn; [done|]. rewrite IH. generalize (sort_by g l) as s. intros s.
  induction s as [|y s IHs]; cbn; [done|]. by rewrite Hfg, IHs.
Qed.
Lemma closures_agree_iff p d :
  closures_agree p d = true <->
  map components (di_source_files p) ≡ₚ map components (di_source_files d) /\ di_env_deps p ≡ₚ di_env_deps d.
Proof.
  unfold closures_agree. rewrite andb_true_iff, !bool_decide_eq_true.
  rewrite !(sort_by_ext path_leb _ _ path_leb_at_most), !map_sort_by, (sorted_agree _ (ordered_list _ ordered_component)).
  rewrite !(sort_by_ext env_entry_leb _ _ env_entry_leb_at_most).
  by rewrite (sorted_agree _ (ordered_pair _ _ ordered_string (ordered_option _ ordered_string))).
Qed.

(** ** The closure of a key *)

Lemma predicted_from_record env externs lu d :
  pd_result (predicted_key_inputs env externs lu) = Ok d -> from_record env lu None d.
Proof. intros (Hf & _)%predicted_answers. by eapply from_record_unguarded. Qed.
Section Resolve.
Context (blake3 : string -> string) (dv : Discovery) (first again : Predicted).
Abbreviation answer := (resolve_key_inputs blake3 dv first again).
Abbreviation verified := (should_verify_this_prediction blake3 (parse_verify_predictions (dv_verify dv)) (dv_sample_identity dv)).
Lemma resolved_inputs d :
  rk_inputs answer = Inputs (Some d) ->
  (dv_provided dv = Some d \/ dv_pre_pass dv = Some (Some d)) /\ rk_used_prediction answer = false
  \/ rk_used_prediction answer = true /\ dv_provided dv = None /\ verified = false
     /\ (pd_result first = Ok d \/ pd_result again = Ok d /\ exists owned, dv_flight dv = Some (owned, true)).
Proof. unfold resolve_key_inputs, pre_passed. repeat case_match; cbn; naive_solver. Qed.
(** The lookups end with the closure [p]: at once, or after waiting for a flight. *)
Definition settles_on (p : DepInfo) : Prop :=
  pd_result first = Ok p
  \/ (exists r, pd_result first = Err r) /\ (exists owned, dv_flight dv = Some (owned, true)) /\ pd_result again = Ok p.
(** Two closures name the same files, component by component, and the same variables. *)
Definition same_closure (p d : DepInfo) : Prop :=
  map components (di_source_files p) ≡ₚ map components (di_source_files d) /\ di_env_deps p ≡ₚ di_env_deps d.
Lemma settled p :
  dv_provided dv = None -> dv_has_source dv = true -> settles_on p ->
  answer = if verified then
             match dv_pre_pass dv with
             | Some discovered =>
                 {| rk_inputs := Inputs discovered; rk_used_prediction := false;
                    rk_mismatch := negb (if discovered is Some d then closures_agree p d else false) |}
             | None => {| rk_inputs := PrePassFailed; rk_used_prediction := false; rk_mismatch := false |}
             end
           else {| rk_inputs := Inputs (Some p); rk_used_prediction := true; rk_mismatch := false |}.
Proof.
  intros Hn Hs Hp. unfold resolve_key_inputs. rewrite Hn, Hs. cbn [negb].
  destruct Hp as [Hp|([r Hr] & [owned Hf] & Hp)].
  - rewrite Hp. cbn [is_ok]. rewrite Hp. by destruct verified, (dv_pre_pass dv) as [[]|].
  - rewrite Hr, Hf. cbn [is_ok]. rewrite Hp. by destruct verified, (dv_pre_pass dv) as [[]|].
Qed.
Lemma mismatch_settled :
  rk_mismatch answer = true ->
  dv_provided dv = None /\ dv_has_source dv = true /\ verified = true /\ (exists p, settles_on p) /\ is_Some (dv_pre_pass dv).
Proof.
  unfold resolve_key_inputs, pre_passed, settles_on. destruct (dv_provided dv); [done|]. destruct (dv_has_source dv); [|done]. cbn [negb].
  destruct (pd_result first) as [d|r] eqn:Hf; cbn [is_ok]; [rewrite Hf|destruct (dv_flight dv) as [[? []]|]; rewrite ?Hf; [destruct (pd_result again) as [d|] eqn:Ha|..]];
    repeat case_match; cbn; naive_solver.
Qed.
Lemma mismatch_iff :
  rk_mismatch answer = true <->
  dv_provided dv = None /\ dv_has_source dv = true /\ verified = true
  /\ exists p discovered, settles_on p /\ dv_pre_pass dv = Some discovered
     /\ (if discovered is Some d then ~ same_closure p d else True).
Proof.
  split.
  - intros Hm. destruct (mismatch_settled Hm) as (Hn & Hs & Hv & [p Hp] & [discovered Hd]). split_and!; [done..|].
    exists p, discovered. split_and!; [done..|]. rewrite (settled p Hn Hs Hp), Hv, Hd in Hm. cbn in Hm.
    destruct discovered as [d|]; [|done]. unfold same_closure. rewrite <- closures_agree_iff. by apply negb_true_iff, not_true_iff_false in Hm.
  - intros (Hn & Hs & Hv & p & discovered & Hp & Hd & Hc). rewrite (settled p Hn Hs Hp), Hv, Hd. cbn.
    destruct discovered as [d|]; [|done]. unfold same_closure in Hc. rewrite <- closures_agree_iff in Hc.
    by apply negb_true_iff, not_true_iff_false.
Qed.
Lemma deferred_inputs certain :
  rk_inputs answer = Deferred certain ->
  dv_provided dv = None /\ dv_defer dv = true /\ (exists waited, dv_flight dv = Some (true, waited))
  /\ (exists r, pd_result first = Err r) /\ (certain = true -> dv_store_lacks_unit dv = true).
Proof.
  unfold resolve_key_inputs, pre_passed. destruct (dv_provided dv); [done|]. destruct (dv_has_source dv); [|by destruct (dv_pre_pass dv)]. cbn [negb].
  destruct (pd_result first) as [d|r] eqn:Hf; cbn [is_ok]; [rewrite Hf; repeat case_match; done|].
  destruct (dv_flight dv) as [[[] []]|]; cbn; rewrite ?Hf, ?andb_false_r; repeat case_match; cbn; bool_to_prop; naive_solver.
Qed.
End Resolve.

(** C21. The closure a key is computed from is one of three: the one the compilation
    already emitted, the pre-pass's answer, or, where verification is off, a
    prediction that holds now.  Once the lookups settle on a prediction, at once
    or after waiting for a flight, it is used when verification is off; when it is
    on, the pre-pass's answer is used, and a mismatch is counted exactly when that
    pass found no closure or one that differs in the files, component by
    component, or the variables, whatever their order.  Discovery is deferred only
    by the holder of the flight. *)
Theorem key_closure_is_accounted_for (blake3 : string -> string) (env env' : Invocation) (externs : list ExternDep) (lu lu' : Lookup) (dv : Discovery) :
  let first := predicted_key_inputs env externs lu in
  let again := predicted_key_inputs env' externs lu' in
  let answer := resolve_key_inputs blake3 dv first again in
  let verified := should_verify_this_prediction blake3 (parse_verify_predictions (dv_verify dv)) (dv_sample_identity dv) in
  (forall d, rk_inputs answer = Inputs (Some d) ->
     (dv_provided dv = Some d \/ dv_pre_pass dv = Some (Some d)) /\ rk_used_prediction answer = false
     \/ rk_used_prediction answer = true /\ dv_provided dv = None /\ verified = false
        /\ (pd_result first = Ok d /\ from_record env lu None d
            \/ pd_result again = Ok d /\ from_record env' lu' None d /\ exists owned, dv_flight dv = Some (owned, true)))
  /\ (forall p, dv_provided dv = None -> dv_has_source dv = true -> settles_on dv first again p ->
        rk_used_prediction answer = negb verified
        /\ rk_inputs answer = if verified then (if dv_pre_pass dv is Some discovered then Inputs discovered else PrePassFailed)
                              else Inputs (Some p))
  /\ (rk_mismatch answer = true <->
        dv_provided dv = None /\ dv_has_source dv = true /\ verified = true
        /\ exists p discovered, settles_on dv first again p /\ dv_pre_pass dv = Some discovered
           /\ (if discovered is Some d then ~ same_closure p d else True))
  /\ (forall certain, rk_inputs answer = Deferred certain ->
        dv_provided dv = None /\ dv_defer dv = true /\ (exists waited, dv_flight dv = Some (true, waited))
        /\ (exists r, pd_result first = Err r) /\ (certain = true -> dv_store_lacks_unit dv = true)).
Proof.
  cbn zeta. split_and!.
  - intros d [?|(Hu & Hn & Hv & [H|[H Hw]])]%resolved_inputs; [by left|right; split_and!; [done..|]|right; split_and!; [done..|]].
    + left. split; [done|]. by eapply predicted_from_record.
    + right. split_and!; [done| |done]. by eapply predicted_from_record.
  - intros p Hn Hs Hp. rewrite (settled _ _ _ _ _ Hn Hs Hp). destruct (should_verify_this_prediction _ _ _); [|done].
    by destruct (dv_pre_pass dv).
  - apply mismatch_iff.
  - intros certain. apply deferred_inputs.
Qed.
