(* ===== verification/InputWitness.v ===== *)
(** * Scans, environment dependencies and predictions, evaluated

    The theorems about the inputs of a compilation at concrete ones: a crate
    that includes what its build script wrote, and a registry package whose
    closure another machine recorded. *)

From S2P Require Import Prelude Strings Codec StorePolicy PePdb CargoLayout RustcArgs RustcPolicy PathNormalizer SourceScan ScanTotal ScanSpec ScanCorrect DepInfoText KeyFold NativeLink EnvDeps EnvDepProofs Predictions PredictionProofs.
#[local] Open Scope string_scope.
#[local] Open Scope Z_scope.

(** ** A source that includes generated code *)

Definition word (s : string) : Lexeme := LWord (list_ascii_of_string s).
Definition text (s : string) : Lexeme := LStr (list_ascii_of_string s).
Definition mark (c : ascii) : Lexeme := LByte c.
Definition call (name : string) (args : list Lexeme) : list Lexeme := word name :: mark "!" :: mark "(" :: args ++ [mark ")"].
Definition quoted (s : string) : list ascii := (dquote :: list_ascii_of_string s ++ [dquote])%list.

(** The variable is named in an include, in a comment and in a raw string. *)
Definition demo_tokens : list Lexeme :=
  (call "include" (call "concat" (call "env" [text "OUT_DIR"] ++ [mark ","; text "/gen.rs"])) ++ [mark ";"; LSpace [newline];
     LBlock (list_ascii_of_string "env!(" ++ quoted "OUT_DIR" ++ list_ascii_of_string ")*/"); LSpace [newline];
     word "static"; LSpace [" "%char]; word "S"; mark ":"; LSpace [" "%char]; mark "&"; LTick; word "static"; LSpace [" "%char]; word "str"; mark "=";
     LRaw [] 1 (list_ascii_of_string "env!(" ++ quoted "OUT_DIR" ++ list_ascii_of_string ")"); mark ";"])%list.
Definition demo_text : string := string_of_list_ascii (source_of demo_tokens).

Lemma scan_is_total_witness : exists u, source_env_dep_use_bytes (quoted "env!(") "OUT_DIR" = Ok u
  /\ source_scan 40 (quoted "env!(") "OUT_DIR" = Ok u.
Proof. apply (scan_is_total (quoted "env!(") "OUT_DIR" 40). cbn. lia. Defined.
Lemma scan_reads_tokens_witness :
  lexed demo_tokens = true /\ expected_use "OUT_DIR" demo_tokens = IncludeLocator
  /\ source_env_dep_use_bytes (source_of demo_tokens) "OUT_DIR" = Ok (expected_use "OUT_DIR" demo_tokens).
Proof. split_and!; [vm_compute; reflexivity..|]. apply (scan_reads_tokens demo_tokens "OUT_DIR"). vm_compute. reflexivity. Defined.

(** ** The memo of scans *)

Definition demo_sources : @Sources Z :=
  {| so_resolve := Some; so_recent := fun _ => Some {| rh_hash := demo_text; rh_fingerprint := Some 3 |};
     so_fingerprint := fun _ => Some 3; so_read := fun _ => Some demo_text |}.
Definition empty_memo : UseMemo := {| um_env_dep_uses := ∅; um_rows := ∅; um_db := true |}.
(** With the identity for a digest the hash on record has one content. *)
Lemma memoised_use_is_the_scan_witness : exists m, scan_bytes demo_text "OUT_DIR" = Ok IncludeLocator /\ memo_ok (fun s => s) m.
Proof.
  destruct (env_dep_use (fun s => s) demo_sources "src/lib.rs" "OUT_DIR" empty_memo) as [[u m]|e] eqn:E; [|not_err E].
  destruct (memoised_use_is_the_scan (fun s => s) demo_sources "src/lib.rs" "src/lib.rs" "OUT_DIR" empty_memo u m
    {| rh_hash := demo_text; rh_fingerprint := Some 3 |} demo_text
    (conj (fun _ _ _ H => match lookup_empty_Some _ _ H with end) (fun _ _ _ _ H => match lookup_empty_Some _ _ H with end))
    eq_refl eq_refl eq_refl (fun c H => H) E) as [_ Hm].
  exists m. split; [vm_compute; reflexivity|exact Hm].
Defined.

(** ** A value that becomes a sentinel *)

Definition demo_out_dir : string := "/w/target/debug/build/foo-0123456789abcdef/out".
Definition demo_file_contents (file : string) : string := if String.eqb file "/w/src/lib.rs" then demo_text else "pub fn g() {}".
Definition demo_paths : EnvDepPaths :=
  {| ep_out_dir := Some demo_out_dir; ep_source_files := ["/w/src/lib.rs"; demo_out_dir ++ "/gen.rs"] |}.
Definition demo_rules : PathNormalizer :=
  from_invocation (fun s => s) Some None {| inv_vars := []; inv_cwd := Some "/w"; inv_home := None; inv_temp := "/tmp" |}.
Abbreviation demo_normalized :=
  (normalize_env_dep_value_with_hasher (fun s => s) Some (fun file var => ok (scan_bytes (demo_file_contents file) var))
    "foo" "OUT_DIR" demo_out_dir demo_paths demo_rules None).
Lemma demo_decision : keeps_literal_value (ne_decision demo_normalized) = false.
Proof. vm_compute. reflexivity. Qed.
Lemma normalised_value_is_not_read_witness :
  ne_value demo_normalized = "<OUT_DIR:foo-0123456789abcdef>"
  /\ ("foo:OUT_DIR" ∈ pn_path_only_env_vars demo_rules
      \/ only_includes Some demo_file_contents "OUT_DIR" (resolved_value (fun s => s) Some demo_out_dir) demo_paths (pn_path_only_env_vars demo_rules)).
Proof.
  split; [vm_compute; reflexivity|].
  exact (proj2 (proj2 (normalised_value_is_not_read (fun s => s) Some demo_file_contents "foo" "OUT_DIR" demo_out_dir demo_paths demo_rules None)
                      demo_decision)).
Defined.

(** ** Records that travel *)

Lemma relocated_path_stays_inside_witness :
  "/w/out/a/../gen.rs" = "/w/out" ++ "/a/../gen.rs"
  /\ path_starts_with (collapse_lexical (components ("/other" ++ "/a/../gen.rs"))) (collapse_lexical (components "/other")) = true.
Proof. apply (relocated_path_stays_inside "/w/out/a/../gen.rs" "/w/out" "/other" "/a/../gen.rs"); [vm_compute; reflexivity..|done]. Defined.

#[export] Instance serial_Portable : Serial Portable.
Proof.
  refine {| serialize p := match p with PLiteral s => String "l" s | POutDir s => String "o" s | PWorkspace s => String "w" s | PRegistry s => String "r" s end;
    deserialize s := match s with
      | String c s => if Ascii.eqb c "l" then Some (PLiteral s) else if Ascii.eqb c "o" then Some (POutDir s)
                      else if Ascii.eqb c "w" then Some (PWorkspace s) else Some (PRegistry s)
      | "" => None end |}.
  by intros [].
Defined.
#[export] Instance serial_pair `{Serial A, Serial B} : Serial (A * B).
Proof.
  refine {| serialize r := quote_fields [serialize r.1; serialize r.2];
    deserialize s := match fields s with [a; b] => a ← deserialize a; b ← deserialize b; Some (a, b) | _ => None end |}.
  solve_serial.
Defined.
#[export] Instance serial_PlainRow : Serial PlainRow.
Proof.
  refine {| serialize r := quote_fields [serialize (pl_schema r); serialize (pl_sources r); serialize (pl_env_deps r); serialize (pl_tree r)];
    deserialize s := match fields s with
      | [a; b; c; d] => a ← deserialize a; b ← deserialize b; c ← deserialize c; d ← deserialize d; Some (Build_PlainRow a b c d)
      | _ => None end |}.
  solve_serial.
Defined.
#[export] Instance serial_PortablePrediction : Serial PortablePrediction.
Proof.
  refine {| serialize r := quote_fields [serialize (pp_schema r); serialize (pp_sources r); serialize (pp_env_deps r); serialize (pp_tree r)];
    deserialize s := match fields s with
      | [a; b; c; d] => a ← deserialize a; b ← deserialize b; c ← deserialize c; d ← deserialize d; Some (Build_PortablePrediction a b c d)
      | _ => None end |}.
  solve_serial.
Defined.
#[export] Instance serial_SharedPrediction : Serial SharedPrediction.
Proof.
  refine {| serialize r := match r with SharedPlain p => String "p" (serialize p) | SharedPortable p => String "o" (serialize p) end;
    deserialize s := match s with
      | String c s => if Ascii.eqb c "p" then p ← deserialize s; Some (SharedPlain p) else p ← deserialize s; Some (SharedPortable p)
      | "" => None end |}.
  intros [p|p]; cbn [Ascii.eqb Bool.eqb]; by rewrite deserialize_serialize.
Defined.
#[export] Instance serial_SharedRow : Serial SharedRow.
Proof.
  refine {| serialize r := quote_fields [serialize (sr_schema r); serialize (sr_identity r); serialize (sr_row r)];
    deserialize s := match fields s with
      | [a; b; c] => a ← deserialize a; b ← deserialize b; c ← deserialize c; Some (Build_SharedRow a b c)
      | _ => None end |}.
  solve_serial.
Defined.
#[export] Instance codec_SharedRow : JsonCodec SharedRow := serial_codec SharedRow.

(** A registry package, recorded under one home and published. *)
Definition demo_registry : string := "/home/a/.cargo/registry/src".
Definition demo_package : string := demo_registry ++ "/index/bar-1.0.0".
Definition demo_row : InputPrediction :=
  {| ip_schema := PREDICTION_SCHEMA; ip_sources := [demo_package ++ "/src/lib.rs"]; ip_env_deps := [("CARGO_PKG_NAME", Some "bar"); ("X", None)];
     ip_tree := None |}.
Definition demo_row_identity : string := SHARED_PREDICTION_PREFIX ++ "0f".
Definition demo_shared : SharedPrediction :=
  SharedPlain {| pl_schema := PREDICTION_SCHEMA; pl_sources := [PRegistry "/index/bar-1.0.0/src/lib.rs"];
                 pl_env_deps := [("CARGO_PKG_NAME", Some (PLiteral "bar")); ("X", None)]; pl_tree := None |}.
Lemma published_rows_are_private_and_faithful_witness : exists bytes p,
  publishes_no_root demo_shared /\ decode_row bytes demo_row_identity = Some (SharedPlain p) /\ plain_from_remote p demo_registry = Some demo_row.
Proof.
  destruct (encode_row demo_row_identity demo_shared) as [bytes|] eqn:E.
  - destruct (published_rows_are_private_and_faithful demo_row demo_registry demo_row_identity bytes demo_shared
      ltac:(vm_compute; reflexivity) ltac:(vm_compute; reflexivity) ltac:(vm_compute; reflexivity) E) as (Hp & _ & _ & p & Hd & Hr).
    exists bytes, p. exact (conj Hp (conj Hd Hr)).
  - assert (is_some (encode_row demo_row_identity demo_shared) = true) as H by (vm_compute; reflexivity). rewrite E in H. discriminate H.
Defined.

(** ** A prediction that is used *)

(** Another machine's row, found in the remote and placed under this home. *)
Definition demo_invocation : Invocation :=
  {| inv_vars := [("CARGO_MANIFEST_DIR", "/home/b/.cargo/registry/src/index/bar-1.0.0"); ("CARGO_PKG_NAME", "bar")];
     inv_cwd := Some "/w"; inv_home := Some "/home/b"; inv_temp := "/tmp" |}.
Definition demo_lookup : Lookup :=
  {| lu_enabled := true; lu_identity := Some "id"; lu_shared := Some demo_row_identity; lu_relocatable_identity := None; lu_workspace_identity := None;
     lu_row := fun _ => None; lu_portable_row := fun _ => None;
     lu_remote := fun identity => if String.eqb identity demo_row_identity then Some demo_shared else None;
     lu_workspace := None; lu_tree_digest := None; lu_out_dir_digest := fun _ => None;
     lu_stat := fun path => if String.eqb path "/home/b/.cargo/registry/src/index/bar-1.0.0/src/lib.rs" then Some true else None;
     lu_exists := fun _ => false; lu_entered := fun _ _ => true |}.
Definition demo_closure : DepInfo :=
  {| di_source_files := ["/home/b/.cargo/registry/src/index/bar-1.0.0/src/lib.rs"]; di_env_deps := [("CARGO_PKG_NAME", Some "bar"); ("X", None)] |}.
Lemma demo_predicted : pd_result (predicted_key_inputs demo_invocation [] demo_lookup) = Ok demo_closure.
Proof. vm_compute. reflexivity. Qed.
Lemma predicted_closure_is_current_witness :
  pd_result (predicted_key_inputs demo_invocation [] demo_lookup) = Ok demo_closure /\ lu_enabled demo_lookup = true
  /\ covered demo_lookup demo_closure = true.
Proof.
  destruct (predicted_closure_is_current demo_invocation [] demo_lookup demo_closure demo_predicted) as (He & _ & _ & Hc).
  exact (conj demo_predicted (conj He Hc)).
Defined.
