(* ===== verification/KeyRecipe.v ===== *)
(** * The rustc cache key

    [compute_key_into] of [src/cache_key.rs]: the records a key digests, section
    by section in the order of the code.  What the compiler, the file system and
    the toolchain probes answer is the record [Probes]; path normalisation, the
    command line, the environment snapshot and the native link inputs are the
    modelled components.  The platform is Linux. *)

From S2P Require Import Prelude Strings Codec StorePolicy Format CargoLayout RustcArgs RustcPolicy PathNormalizer DepInfoText KeyFold NativeLink SourceScan EnvDeps.
#[local] Open Scope string_scope.
#[local] Open Scope Z_scope.

Inductive LinuxLibcFamily := GnuLibc | MuslLibc.
Definition libc_key_name (f : LinuxLibcFamily) : string := match f with GnuLibc => "gnu-libc" | MuslLibc => "musl" end.
(** Answers of the machine and of the parts that are not modelled. *)
Record Probes := {
  pr_host_target_triple : string;
  pr_rustc_version : string -> result KeyError string;
  pr_clippy_identity : string -> result KeyError string;
  pr_spec_hash : string -> option string;
  pr_key_inputs : result KeyError (option DepInfo);
  pr_env_dep_use : string -> string -> option SourceEnvDepUse;
  pr_aliased_out_dir : option string;
  pr_backends : string -> result KeyError (list (string * string));
  pr_linker_identity : option string;
  pr_libc_signature : LinuxLibcFamily -> result KeyError string;
  pr_link_driver : string -> option string;
  pr_crt_objects : string -> result KeyError (gmap string string);
  pr_native_linker : string -> string -> result KeyError string;
  pr_io : LinkProbes;
}.

(** ** Toolchains *)

Definition rustc_host_triple (rustc_version : string) : option string :=
  head (omap (fun line =>
    host ← strip_prefix "host:" line;
    if String.eqb (trim host) "" then None else Some (trim host)) (lines rustc_version)).
Definition has_component (component target : string) : bool := existsb (String.eqb component) (split_on "-" target).
Definition linux_libc_family (target : string) : option LinuxLibcFamily :=
  if negb (has_component "linux" target) then None
  else head (omap (fun c =>
    if starts_with "gnu" c then Some GnuLibc else if starts_with "musl" c then Some MuslLibc else None) (split_on "-" target)).
Definition executable_pdb_admission (args : RustcArgs) (rustc_version : string) (custom_target : bool) : bool :=
  is_user_facing_executable args && emits_link args
  && (custom_target
      || match (match ra_target args with Some t => Some t | None => rustc_host_triple rustc_version end) with
         | None => true
         | Some target => has_component "windows" target
         end).

Section Recipe.
Context (blake3_hex : string -> string) (nfc : string -> string).
Context (env : Invocation) (n : PathNormalizer) (pr : Probes) (args : RustcArgs).
Abbreviation normalize := (normalize nfc n).
Abbreviation kenv := (key_env env).
Abbreviation io := (pr_io pr).

(** ** Compiler *)

Definition target : string := default (pr_host_target_triple pr) (ra_target args).
Definition custom_target_file : bool := lp_is_file io target.
Definition custom_target : bool :=
  custom_target_file
  || match ra_target args with
     | Some t => contains_byte slash t || contains_byte backslash t || ends_with ".json" t || is_some (inv_var_os env "RUST_TARGET_PATH")
     | None => false
     end.
Definition compiler_records : result KeyError (list KeyRecord * string) :=
  rustc_version ← pr_rustc_version pr (ra_rustc args);
  clippy ← (if is_clippy_chain args
            then clippy ← pr_clippy_identity pr (ra_rustc args); Ok [KField "clippy.v1:" clippy] else Ok []);
  Ok (([KText "key_version:" (fmt_dec CACHE_KEY_VERSION); KField "emit_placement.v1:" "compiler-owned"]
       ++ (if (pn_configured_base_dir_count n =? 0)%nat then []
           else [KField "configured_base_dirs.v1:" (fmt_dec (Z.of_nat (pn_configured_base_dir_count n)))])
       ++ [KText "rustc_version:" rustc_version] ++ clippy ++ [KText "target:" target]
       ++ (if custom_target_file then (if pr_spec_hash pr target is Some h then [KText "target_spec:" h] else []) else [])
       ++ (if executable_pdb_admission args rustc_version custom_target
           then [KGroup "pe_pdb_admission"; KField "executable_pdb_pairing.v1:" "verified"] else []))%list,
      rustc_version).

(** ** Crate and arguments *)

Definition crate_records : list KeyRecord :=
  (KGroup "crate" :: (KText "crate_name:" <$> option_list (ra_crate_name args))
   ++ map (KText "crate_type:") (ra_crate_types args)
   ++ (KText "edition:" <$> option_list (ra_edition args)))%list.
(** The codegen options the key holds, grouped by name. *)
Definition opt_leb (a b : string * option string) : bool := String.leb a.1 b.1.
Definition keyed_opts : list (string * option string) :=
  sort_by opt_leb (List.filter (fun kv => negb (String.eqb kv.1 "incremental") && negb (String.eqb kv.1 "linker")) (ra_codegen_opts args)).
Definition keyed_cfgs : list string :=
  sort_by String.leb (List.filter (fun c => negb (starts_with "feature=" c)) (ra_cfgs args)).
Definition argument_records : list KeyRecord :=
  (KGroup "args" :: map (KText "emit:") (sort_by String.leb (ra_emit args))
   ++ flat_map (fun kv => KField "codegen_key:" kv.1 :: (KField "codegen_val:" <$> option_list kv.2)) keyed_opts
   ++ map (KText "feature:") (ra_features args)
   ++ map (KField "cfg:") keyed_cfgs)%list.

(** ** Sources *)

Definition source_pairs (files : list string) : result KeyError (list (string * string)) :=
  try_fold (fun acc file =>
    h ← lp_hash io file;
    Ok (acc ++ [(key_source_path blake3_hex (pn_rules n) file, h)])%list) [] files.
(** [u8::from(val.is_some())] *)
Definition presence (v : option string) : string := String (if v is Some _ then "001" else "000") "".
(** [unwrap_or("unknown")] *)
Definition crate_name_or_unknown : string := default "unknown" (ra_crate_name args).
Definition normalized_env_dep (d : DepInfo) (var value : string) : NormalizedEnvDep :=
  normalize_env_dep_value_with_hasher nfc (lp_canonicalize io) (pr_env_dep_use pr) crate_name_or_unknown var value
    {| ep_out_dir := ke_var_os kenv "OUT_DIR"; ep_source_files := di_source_files d |} n (pr_aliased_out_dir pr).
Definition env_dep_records (d : DepInfo) (var : string) (val : option string) : list KeyRecord :=
  KField "env_dep_var:" var :: KField "env_dep_presence.v1:" (presence val)
  :: ((fun v => KField "env_dep_val:" (ne_value (normalized_env_dep d var v))) <$> option_list val).
Definition source_records (dep_info : option DepInfo) : result KeyError (list KeyRecord) :=
  match dep_info with
  | None => Ok [KGroup "sources"]
  | Some d =>
      hashed ← source_pairs (di_source_files d);
      Ok (KGroup "sources"
          :: flat_map (fun ph => [KField "source_path:" ph.1; KField "source_hash:" ph.2]) (sort_by pair_leb hashed)
          ++ KGroup "env_deps" :: flat_map (fun vv => env_dep_records d vv.1 vv.2) (di_env_deps d))%list
  end.

(** ** Dependencies *)

Definition extern_leb (a b : string * string) : bool := String.leb a.1 b.1.
Definition keyed_externs : list (string * string) :=
  sort_by extern_leb (omap (fun e => path ← ext_path e; Some (ext_name e, path)) (ra_externs args)).
Definition extern_record (np : string * string) : KeyRecord :=
  match lp_hash io np.2 with
  | Ok h => KText "extern:" (np.1 ++ "=" ++ h)
  | Err _ => KText "extern_unreadable:" np.1
  end.
Definition extern_records : list KeyRecord := KGroup "externs" :: map extern_record keyed_externs.

(** ** Flags *)

Definition US : ascii := Ascii.ascii_of_nat 31.
Definition scrubbed_rustflags (rustflags : string) : string :=
  normalize_rustflags (normalize (join_with " " (scrub_remap_from_prefixes (split_whitespace rustflags)))).
Definition scrubbed_encoded (flags : string) : string :=
  normalize (join_with (String US "") (scrub_remap_from_prefixes (split_on US flags))).
Definition flag_records : list KeyRecord :=
  (KGroup "args"
   :: ((fun f => KText "RUSTFLAGS:" (scrubbed_rustflags f)) <$> option_list (ke_var kenv "RUSTFLAGS"))
   ++ ((fun f => KText "CARGO_ENCODED_RUSTFLAGS:" (scrubbed_encoded f)) <$> option_list (ke_var kenv "CARGO_ENCODED_RUSTFLAGS"))
   ++ map (fun v => KField "argv_remap_path_prefix.v1:" (normalize_direct_remap_value normalize v)) (ra_remap_path_prefixes args)
   ++ (match ke_var kenv "RUSTC_BOOTSTRAP" with
       | Some b => if String.eqb b "" then [] else [KText "RUSTC_BOOTSTRAP:" b]
       | None => []
       end))%list.

(** ** Linking *)

Definition KNOWN_L_KINDS : list string := ["dependency"; "crate"; "native"; "framework"; "all"].
Definition search_kind (spec : string) : option string * string :=
  match split_once "=" spec with
  | Some (k, p) => if one_of KNOWN_L_KINDS k then (Some k, p) else (None, spec)
  | None => (None, spec)
  end.
Definition out_dir_native_search_identity (path : string) (out_dir : option string) : option string :=
  if ra_is_test args || negb (emits_rlib args) || links_native_closure args || skip_path_remap args then None else
  target ← target_dir env args;
  out_dir ← out_dir;
  if negb (is_absolute out_dir) then None else
  rest ← strip_path target (components path);
  if bool_decide (rest = []) || negb (forallb (fun c => if c is Normal _ then true else false) rest) then None else
  if bool_decide (dirs_under_for env io [path] out_dir = []) then None else
  Some (path_of rest).
Record SearchFold := { sf_records : list KeyRecord; sf_native : list string; sf_framework : list string }.
Definition search_step (st : SearchFold) (spec : string) : result KeyError SearchFold :=
  let '(kind, path) := search_kind spec in
  if bool_decide (kind = Some "dependency") || bool_decide (kind = Some "crate") then Ok st else
  let is_native := bool_decide (kind = None) || bool_decide (kind = Some "native") || bool_decide (kind = Some "all") in
  native ← (if is_native then p ← resolve_input env path; Ok [p] else Ok []);
  framework ← (if bool_decide (kind = Some "framework") then p ← resolve_input env path; Ok [p] else Ok []);
  let record :=
    match (if bool_decide (kind = Some "native") then out_dir_native_search_identity path (ke_var_os kenv "OUT_DIR") else None) with
    | Some rest => KField "link_search_native_out_dir.v1:" rest
    | None => KText "link_search:" ((if kind is Some k then k ++ "=" else "") ++ normalize path)
    end in
  Ok {| sf_records := (sf_records st ++ [record])%list; sf_native := (sf_native st ++ native)%list;
        sf_framework := (sf_framework st ++ framework)%list |}.
(** The version of the rustc that links. *)
Definition rustc_version_for_native_link (outer : string) : result KeyError string :=
  match ra_inner_rustc args with
  | Some inner => pr_rustc_version pr inner
  | None => Ok outer
  end.
Definition link_records (rustc_version : string) : result KeyError (list KeyRecord) :=
  let sysroot := (fun s => KText "sysroot:" (normalize (to_string_lossy s))) <$> option_list (ra_sysroot args) in
  search ← try_fold search_step {| sf_records := []; sf_native := []; sf_framework := [] |} (ra_link_search args);
  _ ← ensure (negb (native_linker_side_files_are_unmodeled args)) SideFiles;
  link_version ← (if invokes_linker args then v ← rustc_version_for_native_link rustc_version; Ok (Some v) else Ok None);
  let rustc_host := link_version ≫= rustc_host_triple in
  let target := link_target (ra_target args) rustc_host in
  out_dir ← (match ke_var_os kenv "OUT_DIR" with
             | Some path => p ← resolve_input env path; Ok (Some p)
             | None => Ok None
             end);
  default_dirs ← resolve_inputs env (default_library_dirs target rustc_host (ke_var_os kenv "LIBRARY_PATH"));
  '(native, archives) ← fold_native_link_inputs env normalize io args (sf_native search) (sf_framework search)
    {| nc_target := target; nc_default_dirs := default_dirs; nc_out_dir := out_dir;
       nc_build_tree := map path_of (build_tree_roots env args) |};
  let audit := if needs_native_bundle_audit args (kn_dirs archives)
               then [KGroup "native_bundle_audit"; KField "native_bundle_audit.v2" ""] else [] in
  Ok (KGroup "link" :: sysroot ++ sf_records search ++ native ++ audit)%list.

(** ** Unmodelled and unstable flags *)

Definition unstable_record (z : string) : result KeyError KeyRecord :=
  match strip_prefix "codegen-backend=" z with
  | Some path =>
      if bool_decide (Some path = codegen_backend_dylib (ra_unstable_flags args))
      then content ← lp_hash io path; Ok (KField "codegen_backend_content.v1:" content)
      else Ok (KText "unstable:" z)
  | None => Ok (KText "unstable:" z)
  end.
Definition backend_records : result KeyError (list KeyRecord) :=
  match codegen_backend_name (ra_unstable_flags args) with
  | Some backend =>
      libraries ← pr_backends pr backend;
      Ok (flat_map (fun lc => [KField "codegen_backend_library.v1:" lc.1; KField "codegen_backend_content.v1:" lc.2]) libraries)
  | None => Ok []
  end.
Definition residual : list string := sort_by String.leb (map normalize (ra_residual_args args)).
Definition unstable_records : result KeyError (list KeyRecord) :=
  unstable ← try_fold (fun acc z => r ← unstable_record z; Ok (acc ++ [r])%list) [] (ra_unstable_flags args);
  backends ← backend_records;
  Ok (KGroup "args" :: unstable ++ backends ++ map (KField "frontend_jobs.v1:") (ra_frontend_jobs args)
      ++ map (KField "residual_args.v1:") residual)%list.
Definition diagnostic_records : list KeyRecord :=
  (KGroup "diagnostics" :: KField "diagnostics.v1:" ""
   :: map (KField "diagnostic_arg:") (cache_key_diagnostic_flags args)
   ++ (match ra_outcome_lint_flags args with
       | [] => []
       | flags => KGroup "outcome_lints" :: map (KField "outcome_lint.v1:") flags
       end))%list.
Definition cfg_records : list KeyRecord :=
  KGroup "env_cfg" :: map (fun kv => KPair (env_text_key_bytes kv.1) (env_text_key_bytes kv.2)) (cargo_cfg_pairs (ke_cargo_cfgs kenv)).

(** ** The host of a link *)

(** [native_linux_libc_family] *)
Definition native_linux_libc_family (rustc_version : string) : result KeyError (option LinuxLibcFamily) :=
  host ← with_context (rustc_host_triple rustc_version) NoHostTriple;
  if negb (String.eqb (default host (ra_target args)) host) then Ok None
  else if negb (has_component "linux" host) then Ok None
  else family ← with_context (linux_libc_family host) (UnsupportedLibc host); Ok (Some family).
Definition libc_records (rustc_version : string) : result KeyError (list KeyRecord) :=
  if negb (is_executable_output args) || negb (emits_link args) then Ok [] else
  version ← rustc_version_for_native_link rustc_version;
  family ← native_linux_libc_family version;
  match family with
  | None => Ok []
  | Some family =>
      signature ← pr_libc_signature pr family;
      Ok [KField "host_libc.v1:" (libc_key_name family ++ ":" ++ signature)]
  end.
(** [encode_crt_objects] of a [BTreeMap] *)
Definition encode_crt_objects (objects : gmap string string) : string :=
  join_with LF (map (fun nd => nd.1 ++ "=" ++ nd.2)%string (sort_by pair_leb (map_to_list objects))).
Definition runtime_records (rustc_version : string) : result KeyError (list KeyRecord) :=
  if negb (is_executable_output args) || negb (emits_link args) then Ok [] else
  version ← rustc_version_for_native_link rustc_version;
  host ← with_context (rustc_host_triple version) NoHostTriple;
  if negb (String.eqb (default host (ra_target args)) host) then Ok [] else
  if negb (has_component "linux" host) then Ok [] else
  driver ← with_context (pr_link_driver pr (default "cc" (get_codegen_opt args "linker"))) NoLinkDriver;
  objects ← pr_crt_objects pr driver;
  linker ← pr_native_linker pr driver version;
  Ok [KField "host_crt.v1:" (encode_crt_objects objects); KField "host_linker.v1:" linker].
Definition host_records (rustc_version : string) : result KeyError (list KeyRecord) :=
  let generic := if is_executable_output args && emits_link args then KText "linker:" <$> option_list (pr_linker_identity pr) else [] in
  libc ← libc_records rustc_version;
  runtime ← runtime_records rustc_version;
  Ok (KGroup "link" :: generic ++ libc ++ runtime)%list.

(** ** Remapping *)

Definition joined_under (cwd : option string) (path : string) : string :=
  if is_absolute path then path else match cwd with Some c => join c path | None => path end.
Definition trybuild_paths_in_the_artifact : list string :=
  let cwd := ke_cwd kenv in
  (option_list cwd ++ (joined_under cwd <$> option_list (ra_source_file args))
   ++ (match ke_var_os kenv "OUT_DIR" with
       | Some out => if String.eqb out "" then [] else [joined_under cwd out]
       | None => []
       end))%list.
Definition path_is_under (path prefix : string) : bool := starts_with_path path prefix.
Definition unremapped_prefixes : list string :=
  let prefixes := raw_prefixes n in
  let prefixes := if is_trybuild_unit args
    then List.filter (fun prefix => existsb (fun path => path_is_under path prefix) trybuild_paths_in_the_artifact) prefixes
    else prefixes in
  dedup (sort_by String.leb prefixes).
Definition unremapped_records : list KeyRecord :=
  (KText "unremapped_path_identity:" "v1"
   :: (KField "unremapped:cwd:" <$> option_list (ke_cwd kenv))
   ++ (KField "unremapped:source:" <$> option_list (ra_source_file args))
   ++ map (KField "unremapped:prefix:") unremapped_prefixes)%list.
Definition remap_records : list KeyRecord :=
  KGroup "remap" :: (if skip_path_remap args then KText "remap:" "none" :: unremapped_records else [KText "remap:" "multi-prefix"]).

(** ** The key *)

Definition key_records : result KeyError (list KeyRecord) :=
  '(compiler, rustc_version) ← compiler_records;
  dep_info ← pr_key_inputs pr;
  sources ← source_records dep_info;
  link ← link_records rustc_version;
  unstable ← unstable_records;
  host ← host_records rustc_version;
  Ok (compiler ++ crate_records ++ argument_records ++ sources ++ extern_records ++ flag_records ++ link ++ unstable
      ++ diagnostic_records ++ cfg_records ++ host ++ remap_records)%list.
(** The variables the recipe reads, for [complete_key]. *)
Definition KEY_READS : list string :=
  ["OUT_DIR"; "RUSTFLAGS"; "CARGO_ENCODED_RUSTFLAGS"; "RUSTC_BOOTSTRAP"; "LIBRARY_PATH"].
Definition read_undeclared : bool := negb (forallb (one_of KEY_ENV_VARS) KEY_READS).
Definition compute_key_into : result KeyError (string * gmap string string) :=
  records ← key_records;
  _ ← ensure (negb read_undeclared) UndeclaredRead;
  Ok (finalize_with_fields blake3_hex (fold_records records (new_hasher "compiler"))).
End Recipe.

(** ** Finishing a key ([src/compiler/rustc.rs]) *)

(** [KeyCtx], as far as a finished key depends on it. *)
Record KeyCtx := {
  kc_extra_inputs_digest : option string;
  kc_build_script_inputs_digest : option string;
  kc_key_env_vars : list string;
  kc_key_salt : option string;
}.
Definition fold_digest (blake3_hex : string -> string) (label : string) (digest : option string) (key : string) : string :=
  match digest with Some d => fold_labeled blake3_hex key label d | None => key end.
Definition finish_key (blake3_hex : string -> string) (env : Invocation) (ctx : KeyCtx) (key : string) : string :=
  let key := fold_digest blake3_hex "extra_inputs" (kc_extra_inputs_digest ctx) key in
  let key := fold_digest blake3_hex "build_script_inputs" (kc_build_script_inputs_digest ctx) key in
  let key := apply_key_env_vars_in blake3_hex key (kc_key_env_vars ctx) env in
  apply_key_salt blake3_hex key (kc_key_salt ctx).
(** The group [kache explain] names when declared inputs moved; [str::get] has
    no answer inside a character. *)
Definition digest_field (digest : string) : string :=
  let head := stake KEY_FIELD_HEX digest in if valid_utf8 head then head else digest.
Definition cache_key_in (blake3_hex nfc : string -> string) (env : Invocation) (n : PathNormalizer) (pr : Probes) (args : RustcArgs)
    (ctx : KeyCtx) : result KeyError (string * gmap string string) :=
  '(key, fields) ← compute_key_into blake3_hex nfc env n pr args;
  Ok (finish_key blake3_hex env ctx key,
      match kc_build_script_inputs_digest ctx with
      | Some digest => <["build_script_inputs" := digest_field digest]> fields
      | None => fields
      end).
