(* ===== verification/KeyProofs.v ===== *)
(** * Properties of the fold

    The grouped hasher digests what a plain one would; a stream of records is
    uniquely decodable, so equal preimages are equal records. *)

From S2P Require Import Prelude Strings Codec StorePolicy CargoLayout RustcArgs PathNormalizer KeyFold NativeLink DepInfoText SourceScan EnvDeps KeyRecipe.
#[local] Open Scope string_scope.
#[local] Open Scope Z_scope.

(** ** The grouped hasher *)

(** The records of one group, in order. *)
Fixpoint in_group (group current : string) (records : list KeyRecord) : list KeyRecord :=
  match records with
  | [] => []
  | KGroup g :: rest => in_group group g rest
  | r :: rest => if String.eqb current group then r :: in_group group current rest else in_group group current rest
  end.
Lemma preimage_app a b : preimage (a ++ b) = preimage a ++ preimage b.
Proof. unfold preimage. by rewrite map_app, concat_app, concat_str_app. Qed.
Lemma preimage_cons r l : preimage (r :: l) = concat_str (updates r) ++ preimage l.
Proof. unfold preimage. cbn. by rewrite concat_str_app. Qed.
Lemma update_all h l :
  gh_main (fold_left update l h) = gh_main h ++ concat_str l /\ gh_current (fold_left update l h) = gh_current h /\
  forall g, default "" (gh_groups (fold_left update l h) !! g)
            = default "" (gh_groups h !! g) ++ (if String.eqb (gh_current h) g then concat_str l else "").
Proof.
  revert h. induction l as [|b l IH]; intros h; cbn [fold_left].
  - cbn. split_and!; [by rewrite string_app_nil_r|done|]. intros g. destruct (String.eqb _ _); by rewrite string_app_nil_r.
  - destruct (IH (update h b)) as (H1 & H2 & H3). rewrite H1, H2. cbn [update gh_main gh_current concat_str].
    split_and!; [by rewrite string_app_assoc|done|]. intros g. rewrite H3. cbn [update gh_groups gh_current].
    destruct (String.eqb_spec (gh_current h) g) as [<-|Hg].
    + rewrite lookup_insert_eq. cbn. by rewrite string_app_assoc.
    + by rewrite lookup_insert_ne.
Qed.
(** Grouping cannot change a key: the main digest is that of the plain stream of
    updates, and each group's is that of its own records. *)
Theorem grouping_is_transparent records initial :
  gh_main (fold_records records (new_hasher initial)) = preimage records /\
  forall g, default "" (gh_groups (fold_records records (new_hasher initial)) !! g) = preimage (in_group g initial records).
Proof.
  assert (forall h, gh_main (fold_records records h) = gh_main h ++ preimage records /\
    forall g, default "" (gh_groups (fold_records records h) !! g)
              = default "" (gh_groups h !! g) ++ preimage (in_group g (gh_current h) records)) as H.
  { unfold fold_records. induction records as [|r records IH]; intros h; cbn [fold_left].
    { split; [by rewrite string_app_nil_r|]. intros g. by rewrite string_app_nil_r. }
    destruct (IH (fold_record h r)) as [IH1 IH2]. rewrite IH1, preimage_cons. setoid_rewrite IH2.
    assert (gh_main (fold_record h r) = gh_main h ++ concat_str (updates r) /\ forall g,
      default "" (gh_groups (fold_record h r) !! g) ++ preimage (in_group g (gh_current (fold_record h r)) records)
      = default "" (gh_groups h !! g) ++ preimage (in_group g (gh_current h) (r :: records))) as [-> Hg].
    { destruct r as [g0|l v|l v|a v]; [split; [by rewrite string_app_nil_r|done]|..].
      all: cbn [fold_record in_group].
      all: edestruct update_all as (-> & -> & Hu); split; [done|]; intros g; rewrite Hu, <- string_app_assoc; f_equal.
      all: by destruct (String.eqb _ g); rewrite ?preimage_cons. }
    split; [by rewrite string_app_assoc|done]. }
  destruct (H (new_hasher initial)) as [H1 H2]. split; [done|]. intros g. by rewrite H2.
Qed.

(** ** Labels *)

Definition TEXT_LABELS : list string :=
  ["key_version:"; "rustc_version:"; "target:"; "target_spec:"; "crate_name:"; "crate_type:"; "edition:"; "emit:"; "feature:";
   "extern:"; "extern_unreadable:"; "RUSTFLAGS:"; "CARGO_ENCODED_RUSTFLAGS:"; "RUSTC_BOOTSTRAP:"; "sysroot:"; "link_search:";
   "link_lib:"; "link_lib_content:"; "unstable:"; "linker:"; "remap:"; "unremapped_path_identity:"; "CARGO_CFG_";
   String "255" ""].
Definition FIELD_LABELS : list string :=
  ["emit_placement.v1:"; "configured_base_dirs.v1:"; "clippy.v1:"; "executable_pdb_pairing.v1:"; "codegen_key:"; "codegen_val:";
   "cfg:"; "source_path:"; "source_hash:"; "env_dep_var:"; "env_dep_presence.v1:"; "env_dep_val:"; "argv_remap_path_prefix.v1:";
   "link_search_native_out_dir.v1:"; "apple_install_names.v1:"; "apple_install_name.v1:"; "link_arg_input.v1:";
   "link_arg_library.v1:"; "native_dir_archive.v1:"; "native_bundle_audit.v2"; "codegen_backend_content.v1:";
   "codegen_backend_library.v1:"; "frontend_jobs.v1:"; "residual_args.v1:"; "diagnostics.v1:"; "diagnostic_arg:";
   "outcome_lint.v1:"; "host_libc.v1:"; "host_crt.v1:"; "host_linker.v1:"; "unremapped:cwd:"; "unremapped:source:";
   "unremapped:prefix:"; "key_env_pattern:"; "key_env_name:"; "key_env_val:"].
Definition LABELS : list string := (TEXT_LABELS ++ FIELD_LABELS)%list.
(** No label is the head of another, none is empty, none holds a line feed. *)
Definition prefix_free (labels : list string) : bool :=
  forallb (fun a => negb (String.eqb a "") && negb (contains_byte newline a)
                    && forallb (fun b => negb (starts_with a b) || String.eqb a b) labels) labels.
Lemma labels_prefix_free : prefix_free LABELS = true.
Proof. by vm_compute. Qed.
Lemma labels_disjoint l : l ∈ TEXT_LABELS -> l ∉ FIELD_LABELS.
Proof.
  assert (forallb (fun l => negb (one_of FIELD_LABELS l)) TEXT_LABELS = true) as H by by vm_compute.
  intros Hl Hf. rewrite forallb_forall in H. apply list_elem_of_In in Hl. apply H, negb_true_iff in Hl.
  unfold one_of in Hl. rewrite <- not_true_iff_false in Hl. apply Hl, existsb_exists. exists l.
  split; [by apply list_elem_of_In|apply String.eqb_refl].
Qed.
Definition starts_label (s : string) : bool := existsb (fun l => starts_with l s) LABELS.
(** Text in which no line but the first begins with a label. *)
Definition clean (v : string) : bool := forallb (fun line => negb (starts_label line)) (tail (split_on newline v)).
(** The values of a stream: what a framed length can hold, and clean text. *)
Definition clean_record (r : KeyRecord) : bool :=
  match r with
  | KGroup _ => true
  | KText _ v => clean v
  | KField _ v => slen v <=? u64_max
  | KPair n v => clean (n ++ "=" ++ v)
  end.
Definition labelled (r : KeyRecord) : bool :=
  match r with
  | KGroup _ => true
  | KText l _ => one_of TEXT_LABELS l
  | KField l _ => one_of FIELD_LABELS l
  | KPair n _ => starts_with "CARGO_CFG_" n || starts_with (String "255" "") n
  end.
(** A pair is text under the head of its name; groups leave no bytes. *)
Definition canon (r : KeyRecord) : list KeyRecord :=
  match r with
  | KGroup _ => []
  | KPair n v =>
      match strip_prefix "CARGO_CFG_" n with
      | Some rest => [KText "CARGO_CFG_" (rest ++ "=" ++ v)]
      | None => match strip_prefix (String "255" "") n with
                | Some rest => [KText (String "255" "") (rest ++ "=" ++ v)]
                | None => []
                end
      end
  | r => [r]
  end.

(** ** Decoding *)

Lemma label_facts l : l ∈ LABELS -> l <> "" /\ contains_byte newline l = false /\ forall m, m ∈ LABELS -> starts_with l m = true -> l = m.
Proof.
  intros Hl. pose proof labels_prefix_free as H. unfold prefix_free in H. rewrite forallb_forall in H.
  apply list_elem_of_In in Hl. specialize (H l Hl). bool_to_prop. split_and!; [done|done|].
  intros m Hm Hlm. rewrite forallb_forall in H0. apply list_elem_of_In in Hm. specialize (H0 m Hm).
  rewrite Hlm in H0. cbn in H0. by apply String.eqb_eq in H0.
Qed.
Lemma starts_with_spec p s : starts_with p s = true <-> exists r, s = p ++ r.
Proof.
  unfold starts_with. destruct (strip_prefix p s) as [r|] eqn:E.
  - apply strip_prefix_Some in E. split; eauto.
  - split; [done|]. intros [r ->]. by rewrite strip_prefix_app in E.
Qed.
(** Of two heads of one text, one is the head of the other. *)
Lemma heads_comparable p q r s : p ++ r = q ++ s -> starts_with p q = true \/ starts_with q p = true.
Proof.
  revert q. induction p as [|a p IH]; intros q E; [by left|]. destruct q as [|b q]; [by right|].
  cbn in E. injection E as -> E. unfold starts_with. cbn [strip_prefix]. rewrite Ascii.eqb_refl. by apply IH.
Qed.
Lemma same_label l m r s : l ∈ LABELS -> m ∈ LABELS -> l ++ r = m ++ s -> l = m /\ r = s.
Proof.
  intros Hl Hm E. assert (l = m) as ->.
  { destruct (heads_comparable _ _ _ _ E) as [H|H].
    - by apply (label_facts l Hl).
    - symmetry. by apply (label_facts m Hm). }
  split; [done|]. by apply string_app_inj in E as [_ E].
Qed.
Definition boundary (r : string) : Prop := r = "" \/ starts_label r = true.
Lemma text_split c v1 v2 r1 r2 : v1 ++ String c r1 = v2 ++ String c r2 ->
  (v1 = v2 /\ r1 = r2) \/ (exists x, v2 = v1 ++ String c x /\ r1 = x ++ String c r2)
  \/ (exists x, v1 = v2 ++ String c x /\ r2 = x ++ String c r1).
Proof.
  revert v2. induction v1 as [|a v1 IH]; intros [|b v2]; cbn; intros E.
  - left. by injection E.
  - injection E as <- ->. right. left. by exists v2.
  - injection E as -> <-. right. right. by exists v1.
  - injection E as -> E. destruct (IH _ E) as [[-> ->]|[(x & -> & ->)|(x & -> & ->)]]; eauto.
Qed.
Lemma label_in_line l x r : contains_byte newline l = false -> starts_with l (x ++ String newline r) = true ->
  exists h t, split_on newline x = h :: t /\ starts_with l h = true.
Proof.
  revert x. induction l as [|a l IH]; intros x Hl Hs.
  { destruct (split_on_cons newline x) as (h & t & ->). by exists h, t. }
  unfold contains_byte in Hl. cbn [all_bytes] in Hl. apply negb_false_iff, andb_prop in Hl as [Ha Hl]. apply negb_true_iff in Ha.
  unfold starts_with in Hs. destruct x as [|b x]; cbn [String.append strip_prefix] in Hs; [by rewrite Ha in Hs|].
  destruct (Ascii.eqb_spec a b) as [<-|]; [|done]. destruct (IH x) as (h & t & Hx & Hh); [unfold contains_byte; by rewrite Hl|done|].
  cbn [split_on]. rewrite Ha, Hx. exists (String a h), t. split; [done|]. unfold starts_with. cbn [strip_prefix]. by rewrite Ascii.eqb_refl.
Qed.
Lemma clean_no_label v x r : clean (v ++ String newline x) = true -> boundary (x ++ String newline r) -> False.
Proof.
  intros Hc [Hb|Hb]; [by destruct x|]. unfold starts_label in Hb. apply existsb_exists in Hb as (l & Hl & Hs).
  apply list_elem_of_In in Hl. destruct (label_facts l Hl) as (_ & Hn & _).
  destruct (label_in_line l x r Hn Hs) as (h & t & Hx & Hh). unfold clean in Hc. rewrite split_on_app, Hx in Hc.
  destruct (split_on_cons newline v) as (h' & t' & Hv). rewrite Hv in Hc. cbn [tail app] in Hc.
  rewrite forallb_app in Hc. apply andb_prop in Hc as [_ Hc]. cbn [forallb] in Hc. apply andb_prop in Hc as [Hc _].
  apply negb_true_iff in Hc. rewrite <- not_true_iff_false in Hc. apply Hc, existsb_exists. exists l. split; [by apply list_elem_of_In|done].
Qed.
Lemma text_end v1 v2 r1 r2 : clean v1 = true -> clean v2 = true -> boundary r1 -> boundary r2 ->
  v1 ++ LF ++ r1 = v2 ++ LF ++ r2 -> v1 = v2 /\ r1 = r2.
Proof.
  intros H1 H2 B1 B2 E. destruct (text_split newline _ _ _ _ E) as [?|[(x & -> & ->)|(x & -> & ->)]]; [done|..].
  - by destruct (clean_no_label v1 x r2).
  - by destruct (clean_no_label v2 x r1).
Qed.

(** A canonical record. *)
Definition canonical (r : KeyRecord) : bool :=
  match r with KText _ _ | KField _ _ => labelled r && clean_record r | _ => false end.
Lemma one_of_elem labels l : one_of labels l = true -> l ∈ labels.
Proof. unfold one_of. intros (x & Hx & ->%String.eqb_eq)%existsb_exists. by apply list_elem_of_In. Qed.
Lemma text_label l : l ∈ TEXT_LABELS -> l ∈ LABELS.
Proof. intros H. apply elem_of_app. by left. Qed.
Lemma field_label l : l ∈ FIELD_LABELS -> l ∈ LABELS.
Proof. intros H. apply elem_of_app. by right. Qed.
Lemma canonical_cases r : canonical r = true ->
  (exists l v, r = KText l v /\ l ∈ TEXT_LABELS /\ clean v = true) \/
  (exists l v, r = KField l v /\ l ∈ FIELD_LABELS /\ slen v <= u64_max).
Proof.
  destruct r as [g|l v|l v|a v]; [done|..|done]; unfold canonical, labelled, clean_record; intros [Hl%one_of_elem Hv]%andb_prop.
  - left. eauto.
  - right. apply Z.leb_le in Hv. eauto.
Qed.
Lemma preimage_text l v rs : preimage (KText l v :: rs) = l ++ (v ++ LF ++ preimage rs).
Proof. rewrite preimage_cons. cbn [updates concat_str]. rewrite <- !string_app_assoc. done. Qed.
Lemma preimage_field l v rs : preimage (KField l v :: rs) = l ++ (len_prefix v ++ preimage rs).
Proof.
  rewrite preimage_cons. unfold len_prefix. cbn [updates fold_field concat_str]. rewrite string_app_nil_r. by rewrite <- !string_app_assoc.
Qed.
Lemma preimage_head r rs : canonical r = true -> exists l rest, l ∈ LABELS /\ preimage (r :: rs) = l ++ rest.
Proof.
  intros [(l & v & -> & Hl & _)|(l & v & -> & Hl & _)]%canonical_cases; [rewrite preimage_text|rewrite preimage_field];
    eauto using text_label, field_label.
Qed.
Lemma canonical_boundary rs : Forall (fun r => canonical r = true) rs -> boundary (preimage rs).
Proof.
  destruct 1 as [|r rs Hr _]; [by left|]. right. destruct (preimage_head r rs Hr) as (l & rest & Hl & ->).
  apply existsb_exists. exists l. split; [by apply list_elem_of_In|]. apply starts_with_spec. eauto.
Qed.
Lemma canonical_nonempty r rs : canonical r = true -> preimage (r :: rs) <> "".
Proof. intros Hr. destruct (preimage_head r rs Hr) as (l & rest & (Hn & _)%label_facts & ->). by destruct l. Qed.
Lemma canonical_inj l1 l2 :
  Forall (fun r => canonical r = true) l1 -> Forall (fun r => canonical r = true) l2 -> preimage l1 = preimage l2 -> l1 = l2.
Proof.
  intros H1. revert l2. induction H1 as [|r l1 Hr Hl1 IH]; intros l2 H2 E.
  { destruct H2 as [|s l2 Hs _]; [done|]. by destruct (canonical_nonempty s l2 Hs). }
  destruct H2 as [|s l2 Hs Hl2]; [by destruct (canonical_nonempty r l1 Hr)|].
  pose proof (canonical_boundary _ Hl1) as B1. pose proof (canonical_boundary _ Hl2) as B2.
  apply canonical_cases in Hr as [(l & v & -> & Hl & Hv)|(l & v & -> & Hl & Hv)];
  apply canonical_cases in Hs as [(m & w & -> & Hm & Hw)|(m & w & -> & Hm & Hw)];
    rewrite ?preimage_text, ?preimage_field in E;
    apply same_label in E as [-> E]; eauto using text_label, field_label.
  - apply text_end in E as [-> E]; [|done..]. by rewrite (IH l2).
  - by destruct (labels_disjoint m).
  - by destruct (labels_disjoint m).
  - apply len_prefix_inj in E as [-> E]; [|done..]. by rewrite (IH l2).
Qed.
Lemma canon_preimage l : Forall (fun r => labelled r = true) l -> preimage (flat_map canon l) = preimage l.
Proof.
  induction 1 as [|r l Hr _ IH]; [done|]. cbn [flat_map]. rewrite preimage_app, IH, preimage_cons. f_equal.
  destruct r as [g|lb v|lb v|a v]; cbn [canon]; [done|by rewrite preimage_cons; apply string_app_nil_r..|].
  unfold labelled, starts_with in Hr. destruct (strip_prefix "CARGO_CFG_" a) as [rest|] eqn:E.
  - apply strip_prefix_Some in E as ->. rewrite preimage_text. cbn [updates concat_str]. rewrite <- !string_app_assoc. done.
  - destruct (strip_prefix (String "255" "") a) as [rest|] eqn:E'; [|done].
    apply strip_prefix_Some in E' as ->. rewrite preimage_text. cbn [updates concat_str]. rewrite <- !string_app_assoc. done.
Qed.
Lemma clean_head p x : contains_byte newline p = false -> clean (p ++ x) = clean x.
Proof.
  intros Hp. unfold clean. f_equal. induction p as [|a p IH]; [done|].
  unfold contains_byte in *. cbn [all_bytes] in Hp. apply negb_false_iff, andb_prop in Hp as [Ha Hp]. apply negb_true_iff in Ha.
  cbn [String.append split_on]. rewrite Ha. destruct (split_on_cons newline (p ++ x)) as (h & t & E). rewrite E in *.
  cbn [tail] in *. apply IH. by rewrite Hp.
Qed.
Lemma canon_canonical l : Forall (fun r => labelled r = true) l -> forallb clean_record l = true ->
  Forall (fun r => canonical r = true) (flat_map canon l).
Proof.
  intros Hl Hc. apply Forall_forall. intros r Hr. apply list_elem_of_In, in_flat_map in Hr as (s & Hs & Hr).
  rewrite Forall_forall in Hl. rewrite forallb_forall in Hc. specialize (Hc s Hs). apply list_elem_of_In, Hl in Hs.
  destruct s as [g|lb v|lb v|a v]; cbn [canon] in Hr.
  - done.
  - destruct Hr as [<-|[]]. unfold canonical. by rewrite Hs, Hc.
  - destruct Hr as [<-|[]]. unfold canonical. by rewrite Hs, Hc.
  - unfold labelled, starts_with in Hs. unfold clean_record in Hc. destruct (strip_prefix "CARGO_CFG_" a) as [rest|] eqn:E.
    + apply strip_prefix_Some in E as ->. destruct Hr as [<-|[]]. unfold canonical, clean_record.
      rewrite <- string_app_assoc, clean_head in Hc by done. by rewrite Hc.
    + destruct (strip_prefix (String "255" "") a) as [rest|] eqn:E'; [|done].
      apply strip_prefix_Some in E' as ->. destruct Hr as [<-|[]]. unfold canonical, clean_record.
      rewrite <- string_app_assoc, clean_head in Hc by done. by rewrite Hc.
Qed.
(** Equal preimages are equal records, up to groups. *)
Lemma records_decodable l1 l2 :
  Forall (fun r => labelled r = true) l1 -> Forall (fun r => labelled r = true) l2 ->
  forallb clean_record l1 = true -> forallb clean_record l2 = true ->
  preimage l1 = preimage l2 -> flat_map canon l1 = flat_map canon l2.
Proof.
  intros H1 H2 C1 C2 E. apply canonical_inj; [by apply canon_canonical..|]. by rewrite !canon_preimage.
Qed.
