(* ===== verification/KeySound.v ===== *)
(** * Equal keys, equal inputs

    The records of a key by section, and what equal keys say of two
    compilations. *)

From S2P Require Import Prelude Strings Codec StorePolicy CargoLayout RustcArgs RustcPolicy PathNormalizer PathNormalizerProofs KeyFold NativeLink DepInfoText SourceScan EnvDeps KeyRecipe KeyProofs.
#[local] Open Scope string_scope.
#[local] Open Scope Z_scope.

(** ** Sections *)

(** The records of a section use its labels. *)
Definition within (texts fields : list string) (r : KeyRecord) : bool :=
  match r with
  | KGroup _ => true
  | KText l _ => one_of texts l
  | KField l _ => one_of fields l
  | KPair _ _ => one_of texts "CARGO_CFG_" && labelled r
  end.
Definition sublist_of (small big : list string) : bool := forallb (one_of big) small.
Definition disjoint_from (a b : list string) : bool := forallb (fun l => negb (one_of b l)) a.
(** The records under some labels. *)
Definition under (labels : list string) (r : KeyRecord) : bool :=
  match r with KText l _ | KField l _ => one_of labels l | _ => false end.
Definition only (labels : list string) (rs : list KeyRecord) : list KeyRecord := List.filter (under labels) rs.

Lemma one_of_spec l x : one_of l x = true <-> x ∈ l.
Proof.
  split; [apply one_of_elem|]. intros Hx. unfold one_of. apply existsb_exists. exists x.
  split; [by apply list_elem_of_In|apply String.eqb_refl].
Qed.
Lemma sublist_of_spec small big x : sublist_of small big = true -> one_of small x = true -> one_of big x = true.
Proof. unfold sublist_of. rewrite forallb_forall. intros H Hx%one_of_spec. apply H. by apply list_elem_of_In. Qed.
Lemma within_labelled texts fields rs :
  sublist_of texts TEXT_LABELS = true -> sublist_of fields FIELD_LABELS = true ->
  Forall (fun r => within texts fields r = true) rs -> Forall (fun r => labelled r = true) rs.
Proof.
  intros Ht Hf H. eapply Forall_impl; [exact H|]. intros [g|l v|l v|a v]; [done|by apply sublist_of_spec..|]. by intros [_ ?]%andb_prop.
Qed.
Lemma only_outside labels texts fields rs :
  disjoint_from texts labels = true -> disjoint_from fields labels = true ->
  Forall (fun r => within texts fields r = true) rs -> only labels rs = [].
Proof.
  intros Ht Hf. unfold only, disjoint_from in *. rewrite forallb_forall in Ht, Hf.
  induction 1 as [|[g|l v|l v|a v] rs Hr _ IH]; cbn [List.filter under within] in *; [done|done|..|done].
  - apply one_of_spec, list_elem_of_In, Ht, negb_true_iff in Hr. by rewrite Hr.
  - apply one_of_spec, list_elem_of_In, Hf, negb_true_iff in Hr. by rewrite Hr.
Qed.
Lemma only_app labels a b : only labels (a ++ b) = (only labels a ++ only labels b)%list.
Proof. apply List.filter_app. Qed.
Lemma only_canon labels rs : one_of labels "CARGO_CFG_" = false -> one_of labels (String "255" "") = false ->
  only labels (flat_map canon rs) = only labels rs.
Proof.
  intros H1 H2. induction rs as [|r rs IH]; cbn [flat_map]; [done|]. rewrite only_app, IH.
  destruct r as [g|l v|l v|a v]; cbn [canon]; unfold only; cbn [List.filter under]; [done|by destruct (one_of labels l)..|].
  destruct (strip_prefix "CARGO_CFG_" a); cbn [List.filter under]; [by rewrite H1|].
  destruct (strip_prefix (String "255" "") a); cbn [List.filter under]; [by rewrite H2|done].
Qed.
(** Lossy decoding changes nothing of valid text. *)
Lemma to_string_lossy_valid s : valid_utf8 s = true -> to_string_lossy s = s.
Proof.
  remember (String.length s) as k eqn:Hk. revert s Hk.
  induction k as [k IH] using lt_wf_ind. intros s ->.
  assert (forall t, (String.length t < String.length s)%nat -> valid_utf8 t = true -> to_string_lossy t = t) as IH'
    by (intros t Ht; by eapply IH). clear IH.
  destruct s as [|a s1]; [done|]. cbn [valid_utf8 to_string_lossy String.length] in *.
  destruct (byte_val a <? 128); [intros Hv; by rewrite IH' by (done || lia)|].
  destruct s1 as [|b s2]; [done|]. cbv match beta. cbn [String.length] in *.
  destruct (between 194 223 (byte_val a)); [intros [-> Hv]%andb_prop; by rewrite IH' by (done || lia)|].
  destruct s2 as [|c s3]; [done|]. cbv match beta. cbn [String.length] in *.
  destruct (between 224 239 (byte_val a)); [intros [[-> ->]%andb_prop Hv]%andb_prop; by rewrite IH' by (done || lia)|].
  destruct s3 as [|d s4]; [done|]. cbv match beta. cbn [String.length] in *.
  intros [[[[-> ->]%andb_prop ->]%andb_prop ->]%andb_prop Hv]%andb_prop. by rewrite IH' by (done || lia).
Qed.
Ltac within_labels :=
  repeat first
    [ done
    | apply Forall_app; split
    | apply Forall_cons; split
    | apply Forall_nil; exact I
    | apply Forall_map, Forall_true; intros
    | apply Forall_fmap, Forall_true; intros
    | apply Forall_flat_map, Forall_true; intros
    | progress cbn [within]
    | case_match ].

Section Sections.
Context (H : string -> string) (nfc : string -> string) (env : Invocation) (n : PathNormalizer) (pr : Probes) (args : RustcArgs).

Definition COMPILER_T : list string := ["key_version:"; "rustc_version:"; "target:"; "target_spec:"].
Definition COMPILER_F : list string := ["emit_placement.v1:"; "configured_base_dirs.v1:"; "clippy.v1:"; "executable_pdb_pairing.v1:"].
Lemma compiler_within rs v : compiler_records env n pr args = Ok (rs, v) ->
  Forall (fun r => within COMPILER_T COMPILER_F r = true) rs /\ pr_rustc_version pr (ra_rustc args) = Ok v.
Proof.
  unfold compiler_records. intros Hr. inv_result. split; [|done].
  rename select ((if is_clippy_chain args then _ else _) = Ok _) into Hc.
  assert (Forall (fun r => within COMPILER_T COMPILER_F r = true) x0) as Hx.
  { destruct (is_clippy_chain args); inv_result; within_labels. }
  within_labels.
Qed.
Definition CRATE_T : list string := ["crate_name:"; "crate_type:"; "edition:"].
Lemma crate_within : Forall (fun r => within CRATE_T [] r = true) (crate_records args).
Proof. unfold crate_records. within_labels. Qed.
Definition ARGS_T : list string := ["emit:"; "feature:"].
Definition ARGS_F : list string := ["codegen_key:"; "codegen_val:"; "cfg:"].
Lemma argument_within : Forall (fun r => within ARGS_T ARGS_F r = true) (argument_records args).
Proof. unfold argument_records. within_labels. Qed.
Definition SOURCES_F : list string := ["source_path:"; "source_hash:"; "env_dep_var:"; "env_dep_presence.v1:"; "env_dep_val:"].
Lemma source_within d rs : source_records H nfc env n pr args d = Ok rs -> Forall (fun r => within [] SOURCES_F r = true) rs.
Proof. unfold source_records, env_dep_records. destruct d as [d|]; intros Hr; inv_result; within_labels. Qed.
Definition EXTERNS_T : list string := ["extern:"; "extern_unreadable:"].
Lemma extern_within : Forall (fun r => within EXTERNS_T [] r = true) (extern_records pr args).
Proof. unfold extern_records, extern_record. within_labels. Qed.
Definition FLAGS_T : list string := ["RUSTFLAGS:"; "CARGO_ENCODED_RUSTFLAGS:"; "RUSTC_BOOTSTRAP:"].
Definition FLAGS_F : list string := ["argv_remap_path_prefix.v1:"].
Lemma flag_within : Forall (fun r => within FLAGS_T FLAGS_F r = true) (flag_records nfc env n args).
Proof. unfold flag_records. within_labels. Qed.
Definition UNSTABLE_T : list string := ["unstable:"].
Definition UNSTABLE_F : list string :=
  ["codegen_backend_content.v1:"; "codegen_backend_library.v1:"; "frontend_jobs.v1:"; "residual_args.v1:"].
Lemma unstable_within rs : unstable_records nfc n pr args = Ok rs -> Forall (fun r => within UNSTABLE_T UNSTABLE_F r = true) rs.
Proof.
  unfold unstable_records, backend_records. intros Hr. inv_result.
  assert (Forall (fun r => within UNSTABLE_T UNSTABLE_F r = true) x) as Hx.
  { eapply (try_fold_keeps _ (Forall (fun r => within UNSTABLE_T UNSTABLE_F r = true))); [|constructor|done].
    intros s z s' Hs Hz. unfold unstable_record in Hz. repeat case_match; inv_result; within_labels. }
  repeat case_match; inv_result; within_labels.
Qed.
Definition DIAGNOSTIC_F : list string := ["diagnostics.v1:"; "diagnostic_arg:"; "outcome_lint.v1:"].
Lemma diagnostic_within : Forall (fun r => within [] DIAGNOSTIC_F r = true) (diagnostic_records args).
Proof. unfold diagnostic_records. within_labels. Qed.
Definition HOST_T : list string := ["linker:"].
Definition HOST_F : list string := ["host_libc.v1:"; "host_crt.v1:"; "host_linker.v1:"].
Lemma libc_within v rs : libc_records pr args v = Ok rs -> Forall (fun r => within HOST_T HOST_F r = true) rs.
Proof.
  unfold libc_records. destruct (_ || _); intros Hr; inv_result; [constructor|].
  destruct x0 as [f|]; inv_result; within_labels.
Qed.
Lemma runtime_within v rs : runtime_records pr args v = Ok rs -> Forall (fun r => within HOST_T HOST_F r = true) rs.
Proof.
  unfold runtime_records. destruct (_ || _); intros Hr; inv_result; [constructor|].
  destruct (negb _); inv_result; [constructor|]. destruct (negb _); inv_result; [constructor|]. within_labels.
Qed.
Lemma host_within v rs : host_records pr args v = Ok rs -> Forall (fun r => within HOST_T HOST_F r = true) rs.
Proof.
  unfold host_records. intros Hr. inv_result.
  rename select (libc_records _ _ _ = _) into Hl. rename select (runtime_records _ _ _ = _) into Hrt.
  apply libc_within in Hl. apply runtime_within in Hrt. within_labels.
Qed.
Definition REMAP_T : list string := ["remap:"; "unremapped_path_identity:"].
Definition REMAP_F : list string := ["unremapped:cwd:"; "unremapped:source:"; "unremapped:prefix:"].
Lemma remap_within : Forall (fun r => within REMAP_T REMAP_F r = true) (remap_records env n args).
Proof. unfold remap_records, unremapped_records. within_labels. Qed.

Definition LINK_T : list string := ["sysroot:"; "link_search:"; "link_lib:"; "link_lib_content:"].
Definition LINK_F : list string :=
  ["link_search_native_out_dir.v1:"; "apple_install_names.v1:"; "apple_install_name.v1:"; "link_arg_input.v1:";
   "link_arg_library.v1:"; "native_dir_archive.v1:"; "native_bundle_audit.v2"].
Abbreviation in_link := (Forall (fun r => within LINK_T LINK_F r = true)).
Lemma emit_within st records archives bundled :
  in_link (lf_records st) -> in_link records -> in_link (lf_records (emit st records archives bundled)).
Proof. intros Hst Hr. cbn [emit lf_records]. by apply Forall_app. Qed.
Lemma dir_archives_within list_ hash dirs rs archives :
  fold_native_dir_archives list_ hash dirs = Ok (rs, archives) -> in_link rs.
Proof.
  intros Hf. change (in_link (rs, archives).1). revert Hf. apply (try_fold_keeps _ (fun acc => in_link acc.1)); [|constructor].
  intros s idir s' Hs Hi. inv_result. rename select (try_fold _ s x = Ok s') into Hf. revert Hf.
  apply (try_fold_keeps _ (fun acc => in_link acc.1)); [|exact Hs].
  intros t a t' Ht (d & _ & Ha)%bind_Ok. apply (inj Ok) in Ha as <-. cbn [fst]. apply Forall_app; split; [done|by repeat constructor].
Qed.
Lemma library_within io args' native framework lib_dirs library_dirs target effective st il st' :
  library_step io args' native framework lib_dirs library_dirs target effective st il = Ok st' ->
  in_link (lf_records st) -> in_link (lf_records st').
Proof.
  unfold library_step. intros Hs Hst.
  assert (in_link (lf_records (emit st [KText "link_lib:" il.2] [] []))) as Hl by (apply emit_within; [done|within_labels]).
  destruct (effective !! il.1) as [lib|]; ok_result; [|done].
  repeat case_match; (apply emit_within; [exact Hl|within_labels]).
Qed.
Lemma native_within native framework context rs archives :
  fold_native_link_inputs env (normalize nfc n) (pr_io pr) args native framework context = Ok (rs, archives) -> in_link rs.
Proof.
  unfold fold_native_link_inputs. intros Hr. inv_result.
  repeat (match goal with x : _ * _ |- _ => destruct x end; inv_result).
  rename select (try_fold (library_step _ _ _ _ _ _ _ _) _ _ = _) into Hlib.
  rename select (try_fold (file_step _ _) _ _ = _) into Hfile.
  rename select (try_fold (link_arg_library_step _ _ _ _) _ _ = _) into Harg.
  cbn [lf_records emit]. apply Forall_app; split; [apply Forall_app; split|].
  - revert Harg. apply (try_fold_keeps _ (fun st : LinkFold => in_link (lf_records st))).
    { intros st (i & nm & vb) st' Hst Hs. unfold link_arg_library_step in Hs. destruct (resolve_unix_library _ _ _ _ _ _); ok_result; [|done].
      by apply emit_within; [|repeat constructor]. }
    revert Hfile. apply (try_fold_keeps _ (fun st : LinkFold => in_link (lf_records st))).
    { intros st f st' Hst Hs. unfold file_step in Hs. ok_result. by apply emit_within; [|repeat constructor]. }
    revert Hlib. apply (try_fold_keeps _ (fun st : LinkFold => in_link (lf_records st))).
    { intros st l' st' Hst Hs. by eapply library_within. }
    cbn [lf_records]. destruct (invokes_linker args && contains _ _); inv_result; within_labels.
  - by eapply dir_archives_within.
  - destruct (invokes_linker args); [by eapply dir_archives_within|inv_result; constructor].
Qed.
Lemma search_within st spec st' : search_step nfc env n pr args st spec = Ok st' -> in_link (sf_records st) -> in_link (sf_records st').
Proof.
  unfold search_step. destruct (search_kind spec) as [kind path]. destruct (_ || _); intros Hs Hst; inv_result; [done|].
  cbn [sf_records]. within_labels.
Qed.
Lemma link_within v rs : link_records nfc env n pr args v = Ok rs -> in_link rs.
Proof.
  unfold link_records. intros Hr. inv_result. repeat (match goal with x : _ * _ |- _ => destruct x end; inv_result).
  rename select (try_fold (search_step _ _ _ _ _) _ _ = _) into Hs.
  rename select (fold_native_link_inputs _ _ _ _ _ _ _ = _) into Hn. apply native_within in Hn.
  eapply (try_fold_keeps _ (fun st => in_link (sf_records st))) in Hs; [|by intros; eapply search_within|constructor].
  within_labels.
Qed.
Definition CFG_T : list string := ["CARGO_CFG_"; String "255" ""].
Lemma cfg_within : Forall (fun r => within CFG_T [] r = true) (cfg_records env).
Proof.
  unfold cfg_records. apply Forall_cons; split; [done|]. apply Forall_fmap, Forall_forall. intros [name value] Hp.
  unfold cargo_cfg_pairs in Hp. rewrite sort_by_perm in Hp. apply list_elem_of_In, List.filter_In in Hp as [_ Hp]. cbn [fst] in Hp.
  unfold CARGO_CFG_PREFIX in Hp. change (labelled (KPair (env_text_key_bytes name) (env_text_key_bytes value)) = true).
  unfold labelled, env_text_key_bytes.
  destruct (valid_utf8 name) eqn:Hv; [by rewrite to_string_lossy_valid in Hp by done; rewrite Hp|].
  apply orb_true_intro. by right.
Qed.

(** The sections of a key and their labels, in order. *)
Definition SECTIONS : list (list string * list string) :=
  [(COMPILER_T, COMPILER_F); (CRATE_T, []); (ARGS_T, ARGS_F); ([], SOURCES_F); (EXTERNS_T, []); (FLAGS_T, FLAGS_F);
   (LINK_T, LINK_F); (UNSTABLE_T, UNSTABLE_F); ([], DIAGNOSTIC_F); (CFG_T, []); (HOST_T, HOST_F); (REMAP_T, REMAP_F)].
Definition in_section (set : list string * list string) (rs : list KeyRecord) : Prop :=
  Forall (fun r => within set.1 set.2 r = true) rs.
(** The fallible sections of a successful key. *)
Record KeySections := {
  ks_version : string;
  ks_dep_info : option DepInfo;
  ks_compiler : list KeyRecord;
  ks_sources : list KeyRecord;
  ks_link : list KeyRecord;
  ks_unstable : list KeyRecord;
  ks_host : list KeyRecord;
}.
Definition sections_of (k : KeySections) : list (list KeyRecord) :=
  [ks_compiler k; crate_records args; argument_records args; ks_sources k; extern_records pr args; flag_records nfc env n args;
   ks_link k; ks_unstable k; diagnostic_records args; cfg_records env; ks_host k; remap_records env n args].
Record key_sections (k : KeySections) : Prop := {
  kd_compiler : compiler_records env n pr args = Ok (ks_compiler k, ks_version k);
  kd_dep_info : pr_key_inputs pr = Ok (ks_dep_info k);
  kd_sources : source_records H nfc env n pr args (ks_dep_info k) = Ok (ks_sources k);
  kd_link : link_records nfc env n pr args (ks_version k) = Ok (ks_link k);
  kd_unstable : unstable_records nfc n pr args = Ok (ks_unstable k);
  kd_host : host_records pr args (ks_version k) = Ok (ks_host k);
}.
Lemma key_records_sections rs : key_records H nfc env n pr args = Ok rs ->
  exists k, key_sections k /\ rs = concat (sections_of k).
Proof.
  unfold key_records. intros ([compiler v] & Hc & Hr)%bind_Ok. ok_result.
  exists {| ks_version := v; ks_dep_info := x; ks_compiler := compiler; ks_sources := x0; ks_link := x1; ks_unstable := x2; ks_host := x3 |}.
  split; [by split|]. unfold sections_of. cbn [concat ks_compiler ks_sources ks_link ks_unstable ks_host]. by rewrite app_nil_r.
Qed.
Lemma sections_labels k : key_sections k -> Forall2 in_section SECTIONS (sections_of k).
Proof.
  intros [Hc _ Hs Hl Hu Hh]. unfold SECTIONS, sections_of.
  repeat apply Forall2_cons_2; [..|constructor]; unfold in_section; cbn [fst snd].
  - by destruct (compiler_within _ _ Hc).
  - apply crate_within.
  - apply argument_within.
  - by eapply source_within.
  - apply extern_within.
  - apply flag_within.
  - by eapply link_within.
  - by apply unstable_within.
  - apply diagnostic_within.
  - apply cfg_within.
  - by eapply host_within.
  - apply remap_within.
Qed.
End Sections.
Lemma sections_labelled secs : Forall2 in_section SECTIONS secs -> Forall (fun r => labelled r = true) (concat secs).
Proof.
  assert (forallb (fun set => sublist_of set.1 TEXT_LABELS && sublist_of set.2 FIELD_LABELS) SECTIONS = true) as Hs by by vm_compute.
  intros Hsecs. revert Hs. induction Hsecs as [|set sec sets secs Hset _ IH]; cbn [forallb concat]; [constructor|].
  intros [[Ht Hf]%andb_prop Hs]%andb_prop. apply Forall_app. split; [by eapply within_labelled|by apply IH].
Qed.
(** Labels of one section select records of that section alone. *)
Definition apart (labels : list string) (set : list string * list string) : bool :=
  disjoint_from set.1 labels && disjoint_from set.2 labels.
Fixpoint apart_but (labels : list string) (i : nat) (sets : list (list string * list string)) : bool :=
  match sets, i with
  | [], _ => true
  | _ :: sets, O => forallb (apart labels) sets
  | set :: sets, S i => apart labels set && apart_but labels i sets
  end.
Lemma only_apart labels sets secs : forallb (apart labels) sets = true -> Forall2 in_section sets secs -> only labels (concat secs) = [].
Proof.
  intros Ha. induction 1 as [|set sec sets secs Hset _ IH]; cbn [forallb concat] in *; [done|].
  apply andb_prop in Ha as [[Ht Hf]%andb_prop Ha]. rewrite only_app, IH, app_nil_r by done. by apply (only_outside _ set.1 set.2).
Qed.
Lemma only_section i labels sets secs : apart_but labels i sets = true -> Forall2 in_section sets secs ->
  only labels (concat secs) = only labels (default [] (secs !! i)).
Proof.
  intros Ha Hs. induction Hs as [|set sec sets secs Hset Hs IH] in i, Ha |- *; [done|]. cbn [concat]. rewrite only_app.
  destruct i as [|i]; cbn [apart_but] in Ha; cbn [lookup list_lookup default].
  - by rewrite (only_apart labels sets), app_nil_r.
  - apply andb_prop in Ha as [[Ht Hf]%andb_prop Ha]. by rewrite (only_outside _ set.1 set.2), (IH i).
Qed.
