(* ===== verification/KeyInputs.v ===== *)
(** * What a key determines

    Two compilations with one key were given the same inputs: the records of a
    section are read back as the inputs they came from. *)

From S2P Require Import Prelude Strings Codec StorePolicy CargoLayout RustcArgs RustcPolicy PathNormalizer PathNormalizerProofs KeyFold NativeLink DepInfoText SourceScan EnvDeps KeyRecipe KeyProofs KeySound.
#[local] Open Scope string_scope.
#[local] Open Scope Z_scope.

(** ** Selecting records *)

Lemma only_map {A} labels (b : bool) (f : A -> KeyRecord) xs :
  (forall x, under labels (f x) = b) -> only labels (map f xs) = if b then map f xs else [].
Proof.
  intros Hf. unfold only. induction xs as [|x xs IH]; cbn [map List.filter]; [by destruct b|].
  rewrite Hf, IH. by destruct b.
Qed.
Lemma only_flat_map {A} labels (b : bool) (f : A -> list KeyRecord) xs :
  (forall x, only labels (f x) = if b then f x else []) -> only labels (flat_map f xs) = if b then flat_map f xs else [].
Proof.
  intros Hf. induction xs as [|x xs IH]; cbn [flat_map]; [by destruct b|]. rewrite only_app, Hf, IH. by destruct b.
Qed.
Lemma only_none labels rs : forallb (fun r => negb (under labels r)) rs = true -> only labels rs = [].
Proof.
  unfold only. induction rs as [|r rs IH]; cbn [forallb List.filter]; [done|]. intros [Hr%negb_true_iff Hs]%andb_prop.
  rewrite Hr. by apply IH.
Qed.
Lemma only_all labels rs : forallb (under labels) rs = true -> only labels rs = rs.
Proof.
  unfold only. induction rs as [|r rs IH]; cbn [forallb List.filter]; [done|]. intros [-> Hs]%andb_prop. by rewrite IH.
Qed.
Lemma only_cons labels r rs : only labels (r :: rs) = if under labels r then r :: only labels rs else only labels rs.
Proof. done. Qed.
#[export] Instance KText_inj l : Inj (=) (=) (KText l).
Proof. by intros ?? [=]. Qed.
#[export] Instance KField_inj l : Inj (=) (=) (KField l).
Proof. by intros ?? [=]. Qed.
Lemma texts_inj l xs ys : map (KText l) xs = map (KText l) ys -> xs = ys.
Proof. apply (inj (fmap (KText l))). Qed.
Lemma fields_inj l xs ys : map (KField l) xs = map (KField l) ys -> xs = ys.
Proof. apply (inj (fmap (KField l))). Qed.
Lemma option_list_inj {A} (x y : option A) : option_list x = option_list y -> x = y.
Proof. by destruct x, y; intros [=]; subst. Qed.

(** Reads the records under closed labels of a section written out. *)
Ltac decide_labels :=
  repeat match goal with
  | |- context [one_of ?a ?b] => let v := eval vm_compute in (one_of a b) in progress change (one_of a b) with v
  end; cbv match.
Ltac as_maps :=
  repeat match goal with
  | |- context [@fmap list ?i ?A ?B ?f ?l] => progress change (@fmap list i A B f l) with (@map A B f l)
  end.
Ltac same_labels := let x := fresh in intros x; first [reflexivity | destruct x as [? [?|]]; reflexivity].
Ltac read_records :=
  as_maps;
  repeat (rewrite ?only_cons, ?only_app; cbn [under]; decide_labels;
          try match goal with
          | |- context [only ?L (map ?f ?xs)] =>
              first [ rewrite (only_map L true f xs) by same_labels | rewrite (only_map L false f xs) by same_labels ]
          | |- context [only ?L (flat_map ?f ?xs)] =>
              first [ rewrite (only_flat_map L true f xs) by same_labels | rewrite (only_flat_map L false f xs) by same_labels ]
          end);
  rewrite ?app_nil_r; cbn [app].

Section Read.
Context (nfc : string -> string) (env : Invocation) (n : PathNormalizer) (pr : Probes) (args : RustcArgs).

Lemma read_crate_name : only ["crate_name:"] (crate_records args) = map (KText "crate_name:") (option_list (ra_crate_name args)).
Proof. unfold crate_records. by read_records. Qed.
Lemma read_crate_types : only ["crate_type:"] (crate_records args) = map (KText "crate_type:") (ra_crate_types args).
Proof. unfold crate_records. by read_records. Qed.
Lemma read_edition : only ["edition:"] (crate_records args) = map (KText "edition:") (option_list (ra_edition args)).
Proof. unfold crate_records. by read_records. Qed.
Lemma read_emit : only ["emit:"] (argument_records args) = map (KText "emit:") (sort_by String.leb (ra_emit args)).
Proof. unfold argument_records. by read_records. Qed.
Definition opt_records (kv : string * option string) : list KeyRecord :=
  KField "codegen_key:" kv.1 :: (KField "codegen_val:" <$> option_list kv.2).
Lemma read_opts : only ["codegen_key:"; "codegen_val:"] (argument_records args) = flat_map opt_records (keyed_opts args).
Proof. unfold argument_records. by read_records. Qed.
Lemma read_features : only ["feature:"] (argument_records args) = map (KText "feature:") (ra_features args).
Proof. unfold argument_records. by read_records. Qed.
Lemma read_cfgs : only ["cfg:"] (argument_records args) = map (KField "cfg:") (keyed_cfgs args).
Proof. unfold argument_records. by read_records. Qed.

Lemma read_target rs v : compiler_records env n pr args = Ok (rs, v) -> only ["target:"] rs = [KText "target:" (target pr args)].
Proof.
  unfold compiler_records. intros Hr. inv_result. rename select ((if is_clippy_chain args then _ else _) = Ok _) into Hc.
  assert (only ["target:"] x0 = []) as Hx by (destruct (is_clippy_chain args); inv_result; done).
  read_records. rewrite Hx. repeat case_match; by read_records.
Qed.
Lemma read_version rs v : compiler_records env n pr args = Ok (rs, v) -> only ["rustc_version:"] rs = [KText "rustc_version:" v].
Proof.
  unfold compiler_records. intros Hr. inv_result. rename select ((if is_clippy_chain args then _ else _) = Ok _) into Hc.
  assert (only ["rustc_version:"] x0 = []) as Hx by (destruct (is_clippy_chain args); inv_result; done).
  read_records. rewrite Hx. repeat case_match; by read_records.
Qed.
Lemma read_clippy rs v : compiler_records env n pr args = Ok (rs, v) -> is_clippy_chain args = negb (bool_decide (only ["clippy.v1:"] rs = [])).
Proof.
  unfold compiler_records. intros Hr. inv_result. rename select ((if is_clippy_chain args then _ else _) = Ok _) into Hc.
  read_records. assert (only ["clippy.v1:"] x0 = x0) as -> by (destruct (is_clippy_chain args); inv_result; done).
  destruct (is_clippy_chain args); inv_result; repeat case_match; by read_records.
Qed.

(** Sources, sorted by their identity. *)
Definition keyed_sources (blake3_hex : string -> string) (d : option DepInfo) : result KeyError (list (string * string)) :=
  match d with
  | None => Ok []
  | Some d => hashed ← source_pairs blake3_hex n pr (di_source_files d); Ok (sort_by pair_leb hashed)
  end.
Definition pair_records (ph : string * string) : list KeyRecord := [KField "source_path:" ph.1; KField "source_hash:" ph.2].
Lemma read_sources H d rs : source_records H nfc env n pr args d = Ok rs ->
  exists pairs, keyed_sources H d = Ok pairs /\ only ["source_path:"; "source_hash:"] rs = flat_map pair_records pairs.
Proof.
  unfold source_records, keyed_sources. destruct d as [d|]; intros Hr; inv_result; [|by exists []].
  rename select (source_pairs _ _ _ _ = _) into Hp. rewrite Hp. eexists. split; [done|]. by read_records.
Qed.
(** The variables the source reads, with the values the key holds. *)
Definition keyed_env_deps (d : option DepInfo) : list (string * option string) :=
  match d with
  | None => []
  | Some d => map (fun vv => (vv.1, (fun v => ne_value (normalized_env_dep nfc env n pr args d vv.1 v)) <$> vv.2)) (di_env_deps d)
  end.
Definition env_records (vv : string * option string) : list KeyRecord :=
  KField "env_dep_var:" vv.1 :: KField "env_dep_presence.v1:" (presence vv.2) :: (KField "env_dep_val:" <$> option_list vv.2).
Lemma read_env_deps H d rs : source_records H nfc env n pr args d = Ok rs ->
  only ["env_dep_var:"; "env_dep_presence.v1:"; "env_dep_val:"] rs = flat_map env_records (keyed_env_deps d).
Proof.
  unfold source_records, keyed_env_deps. destruct d as [d|]; intros Hr; inv_result; [|done]. read_records.
  induction (di_env_deps d) as [|[v [x'|]] l IH]; cbn [flat_map map]; [done|by rewrite IH..].
Qed.
Lemma read_externs : only ["extern:"; "extern_unreadable:"] (extern_records pr args) = map (extern_record pr) (keyed_externs args).
Proof.
  unfold extern_records. rewrite only_cons. cbn [under]. apply (only_map _ true). intros x. unfold extern_record.
  by destruct (lp_hash _ _).
Qed.

Lemma read_rustflags : only ["RUSTFLAGS:"] (flag_records nfc env n args)
  = map (KText "RUSTFLAGS:") (option_list (scrubbed_rustflags nfc n <$> ke_var (key_env env) "RUSTFLAGS")).
Proof. unfold flag_records. read_records. repeat case_match; read_records; by destruct (ke_var _ "RUSTFLAGS"). Qed.
Lemma read_encoded : only ["CARGO_ENCODED_RUSTFLAGS:"] (flag_records nfc env n args)
  = map (KText "CARGO_ENCODED_RUSTFLAGS:") (option_list (scrubbed_encoded nfc n <$> ke_var (key_env env) "CARGO_ENCODED_RUSTFLAGS")).
Proof. unfold flag_records. read_records. repeat case_match; read_records; by destruct (ke_var _ "CARGO_ENCODED_RUSTFLAGS"). Qed.
Lemma read_argv_remaps : only ["argv_remap_path_prefix.v1:"] (flag_records nfc env n args)
  = map (KField "argv_remap_path_prefix.v1:") (map (normalize_direct_remap_value (normalize nfc n)) (ra_remap_path_prefixes args)).
Proof. unfold flag_records. read_records. rewrite map_map. repeat case_match; by read_records. Qed.
(** [RUSTC_BOOTSTRAP], unset when empty. *)
Definition keyed_bootstrap : option string :=
  b ← ke_var (key_env env) "RUSTC_BOOTSTRAP"; if String.eqb b "" then None else Some b.
Lemma read_bootstrap : only ["RUSTC_BOOTSTRAP:"] (flag_records nfc env n args)
  = map (KText "RUSTC_BOOTSTRAP:") (option_list keyed_bootstrap).
Proof.
  unfold flag_records, keyed_bootstrap. read_records. destruct (ke_var (key_env env) "RUSTC_BOOTSTRAP") as [b|]; [|done].
  cbn [mbind option_bind]. by destruct (String.eqb b "").
Qed.

(** The unstable flags but the backend library keyed by content. *)
Definition is_backend_library (z : string) : bool :=
  match strip_prefix "codegen-backend=" z with
  | Some path => bool_decide (Some path = codegen_backend_dylib (ra_unstable_flags args))
  | None => false
  end.
Definition keyed_unstable : list string := List.filter (fun z => negb (is_backend_library z)) (ra_unstable_flags args).
Lemma backend_apart rs : backend_records pr args = Ok rs ->
  forallb (under ["codegen_backend_library.v1:"; "codegen_backend_content.v1:"]) rs = true.
Proof.
  unfold backend_records. destruct (codegen_backend_name _); intros Hr; inv_result; [|done].
  apply forallb_forall. intros r (lc & _ & Hin)%in_flat_map. by destruct Hin as [<-|[<-|[]]].
Qed.
Lemma unstable_record_cases z r : unstable_record pr args z = Ok r ->
  if is_backend_library z then exists c, r = KField "codegen_backend_content.v1:" c else r = KText "unstable:" z.
Proof.
  unfold unstable_record, is_backend_library. destruct (strip_prefix _ z); [|by intros [= <-]].
  destruct (bool_decide _); intros Hr; ok_result; eauto.
Qed.
Lemma read_unstable rs : unstable_records nfc n pr args = Ok rs ->
  only ["unstable:"] rs = map (KText "unstable:") keyed_unstable /\
  only ["frontend_jobs.v1:"] rs = map (KField "frontend_jobs.v1:") (ra_frontend_jobs args) /\
  only ["residual_args.v1:"] rs = map (KField "residual_args.v1:") (residual nfc n args).
Proof.
  unfold unstable_records. intros Hr. ok_result. rename select (backend_records _ _ = _) into Hb. apply backend_apart in Hb.
  rename select (try_fold _ _ _ = _) into Hz.
  assert (forall labels, one_of labels "codegen_backend_library.v1:" = false -> one_of labels "codegen_backend_content.v1:" = false ->
    only labels x0 = []) as Hx0.
  { intros labels H1 H2. apply only_none. rewrite forallb_forall in *. intros r Hr. apply Hb in Hr.
    destruct r as [|l v|l v|]; cbn [under] in *; try done; unfold one_of in Hr; cbn [existsb] in Hr;
      rewrite orb_false_r in Hr; apply orb_true_iff in Hr as [->%String.eqb_eq| ->%String.eqb_eq]; by rewrite ?H1, ?H2. }
  assert (only ["unstable:"] x = map (KText "unstable:") keyed_unstable /\ only ["frontend_jobs.v1:"] x = []
    /\ only ["residual_args.v1:"] x = []) as (Hu & Hf & Hre).
  { unfold keyed_unstable. revert x Hz. apply (try_fold_ind _ (fun seen s =>
      only ["unstable:"] s = map (KText "unstable:") (List.filter (fun z => negb (is_backend_library z)) seen)
      /\ only ["frontend_jobs.v1:"] s = [] /\ only ["residual_args.v1:"] s = [])); [done|].
    intros seen z s s' (IH1 & IH2 & IH3) Hs. ok_result. rewrite !only_app, IH1, IH2, IH3, List.filter_app, map_app.
    rename select (unstable_record _ _ _ = _) into Hz. apply unstable_record_cases in Hz. cbn [List.filter].
    destruct (is_backend_library z); [destruct Hz as [c ->]|subst]; done. }
  split_and!; read_records; rewrite Hx0, ?Hu, ?Hf, ?Hre by done; rewrite ?app_nil_r; done.
Qed.

Lemma read_diagnostics : only ["diagnostic_arg:"] (diagnostic_records args) = map (KField "diagnostic_arg:") (cache_key_diagnostic_flags args).
Proof. unfold diagnostic_records. read_records. destruct (ra_outcome_lint_flags args); by read_records. Qed.
Lemma read_outcome_lints : only ["outcome_lint.v1:"] (diagnostic_records args) = map (KField "outcome_lint.v1:") (ra_outcome_lint_flags args).
Proof. unfold diagnostic_records. read_records. destruct (ra_outcome_lint_flags args); by read_records. Qed.
Lemma read_remap : only ["remap:"] (remap_records env n args) = [KText "remap:" (if skip_path_remap args then "none" else "multi-prefix")].
Proof. unfold remap_records, unremapped_records. destruct (skip_path_remap args); by read_records. Qed.
(** What an artifact that keeps its paths says of the machine. *)
Definition keyed_paths : option (option string * option string * list string) :=
  if skip_path_remap args then Some (ke_cwd (key_env env), ra_source_file args, unremapped_prefixes env n args) else None.
Lemma read_paths : skip_path_remap args = true ->
  only ["unremapped:cwd:"] (remap_records env n args) = map (KField "unremapped:cwd:") (option_list (ke_cwd (key_env env))) /\
  only ["unremapped:source:"] (remap_records env n args) = map (KField "unremapped:source:") (option_list (ra_source_file args)) /\
  only ["unremapped:prefix:"] (remap_records env n args) = map (KField "unremapped:prefix:") (unremapped_prefixes env n args).
Proof. unfold remap_records, unremapped_records. intros ->. split_and!; by read_records. Qed.

(** ** Libraries *)

Abbreviation libs rs := (only ["link_lib:"] rs).
Lemma dir_archives_libs list_ hash dirs rs archives : fold_native_dir_archives list_ hash dirs = Ok (rs, archives) -> libs rs = [].
Proof.
  intros Hf. change (libs (rs, archives).1 = []). revert Hf. apply (try_fold_keeps _ (fun acc => libs acc.1 = [])); [|done].
  intros s idir s' Hs Hi. apply bind_Ok in Hi as (l & _ & Hf). revert Hf. apply (try_fold_keeps _ (fun acc => libs acc.1 = [])); [|exact Hs].
  intros t a t' Ht (d & _ & Ha)%bind_Ok. apply (inj Ok) in Ha as <-. cbn [fst]. by rewrite only_app, Ht.
Qed.
Lemma library_libs io args' native framework lib_dirs library_dirs target effective st il st' :
  library_step io args' native framework lib_dirs library_dirs target effective st il = Ok st' ->
  libs (lf_records st') = (libs (lf_records st) ++ [KText "link_lib:" il.2])%list.
Proof.
  unfold library_step. destruct (effective !! il.1) as [lib|]; intros Hs; ok_result; cbn [emit lf_records]; [|by rewrite only_app].
  repeat case_match; cbn [emit lf_records]; rewrite !only_app; by rewrite app_nil_r.
Qed.
Lemma native_libs native framework context rs archives :
  fold_native_link_inputs env (normalize nfc n) (pr_io pr) args native framework context = Ok (rs, archives) ->
  libs rs = map (KText "link_lib:") (ra_link_libs args).
Proof.
  unfold fold_native_link_inputs. intros Hr. inv_result.
  repeat (match goal with x : _ * _ |- _ => destruct x end; inv_result).
  rename select (try_fold (library_step _ _ _ _ _ _ _ _) _ _ = _) into Hlib.
  rename select (try_fold (file_step _ _) _ _ = _) into Hfile.
  rename select (try_fold (link_arg_library_step _ _ _ _) _ _ = _) into Harg.
  rename select (fold_native_dir_archives _ _ _ = Ok (l, _)) into Hscan. apply dir_archives_libs in Hscan.
  assert (libs l1 = []) as Hframeworks
    by (destruct (invokes_linker args); [by eapply dir_archives_libs|by inv_result]).
  cbn [lf_records emit]. rewrite !only_app, Hscan, Hframeworks, !app_nil_r.
  revert Harg. apply (try_fold_keeps _ (fun st : LinkFold => libs (lf_records st) = _)).
  { intros st (i & nm & vb) st' Hst Hs. unfold link_arg_library_step in Hs. destruct (resolve_unix_library _ _ _ _ _ _); ok_result; [|done].
    cbn [emit lf_records]. by rewrite only_app, Hst, app_nil_r. }
  revert Hfile. apply (try_fold_keeps _ (fun st : LinkFold => libs (lf_records st) = _)).
  { intros st f st' Hst Hs. unfold file_step in Hs. ok_result. cbn [emit lf_records]. by rewrite only_app, Hst, app_nil_r. }
  rewrite <- (map_snd_imap (ra_link_libs args)). revert x3 Hlib.
  apply (try_fold_ind _ (fun seen st => libs (lf_records st) = map (KText "link_lib:") (map snd seen))).
  - destruct (invokes_linker args && contains _ _); inv_result; [|done]. cbn [lf_records]. by read_records.
  - intros seen il st st' IH Hs%library_libs. by rewrite Hs, IH, !map_app.
Qed.
Lemma read_libs v rs : link_records nfc env n pr args v = Ok rs -> libs rs = map (KText "link_lib:") (ra_link_libs args).
Proof.
  unfold link_records. intros Hr. inv_result. repeat (match goal with x : _ * _ |- _ => destruct x end; inv_result).
  rename select (try_fold (search_step _ _ _ _ _) _ _ = _) into Hs.
  rename select (fold_native_link_inputs _ _ _ _ _ _ _ = _) into Hn. apply native_libs in Hn.
  eapply (try_fold_keeps _ (fun st => libs (sf_records st) = [])) in Hs; [| |done].
  - read_records. rewrite Hs, Hn. by destruct (needs_native_bundle_audit _ _); read_records.
  - intros st spec st' Hst. unfold search_step. destruct (search_kind spec) as [kind path].
    destruct (_ || _); intros Hx; ok_result; [done|]. cbn [sf_records]. rewrite only_app, Hst. by destruct (if bool_decide (kind = Some "native") then _ else _).
Qed.
End Read.

(** ** Reading back *)

Lemma opts_inj xs ys : flat_map opt_records xs = flat_map opt_records ys -> xs = ys.
Proof.
  assert (forall v l (zs : list (string * option string)), KField "codegen_val:" v :: l <> flat_map opt_records zs) as Hv
    by (intros v l [|[z u] zs]; done).
  revert ys. induction xs as [|[x [v|]] xs IH]; intros [|[y [w|]] ys]; cbn; intros E; try discriminate E; [done|..];
    injection E as <-.
  - by subst; rewrite (IH ys).
  - by destruct (Hv v (flat_map opt_records xs) ys).
  - by destruct (Hv w (flat_map opt_records ys) xs).
  - by rewrite (IH ys).
Qed.
Lemma pairs_inj xs ys : flat_map pair_records xs = flat_map pair_records ys -> xs = ys.
Proof. revert ys. induction xs as [|[x v] xs IH]; intros [|[y w] ys]; cbn; intros E; simplify_eq; [done|by rewrite (IH ys)]. Qed.
Lemma env_inj xs ys : flat_map env_records xs = flat_map env_records ys -> xs = ys.
Proof.
  revert ys. induction xs as [|[x [v|]] xs IH]; intros [|[y [w|]] ys]; cbn; intros E; simplify_eq; try done; by rewrite (IH ys).
Qed.
(** The [CARGO_CFG_*] variables as the key holds them. *)
Definition cfg_texts (env : Invocation) : list string :=
  map (fun kv => env_text_key_bytes kv.1 ++ "=" ++ env_text_key_bytes kv.2) (cargo_cfg_pairs (ke_cargo_cfgs (key_env env))).
Definition whole_text (r : KeyRecord) : string := match r with KText l v => l ++ v | _ => "" end.
Lemma read_cfg_texts env : map whole_text (flat_map canon (cfg_records env)) = cfg_texts env.
Proof.
  pose proof (cfg_within env) as Hw. unfold cfg_records, cfg_texts in *. cbn [flat_map canon app]. apply Forall_cons in Hw as [_ Hw].
  induction (cargo_cfg_pairs _) as [|[name v] l IH]; cbn [map flat_map]; [done|]. apply Forall_cons in Hw as [Hr Hw].
  rewrite map_app, IH by done. cbn [fst snd within] in *. apply andb_prop in Hr as [_ Hr]. unfold labelled, starts_with in Hr. cbn [canon].
  destruct (strip_prefix "CARGO_CFG_" _) as [rest|] eqn:E; [apply strip_prefix_Some in E as ->; done|].
  destruct (strip_prefix (String "255" "") _) as [rest|] eqn:E'; [apply strip_prefix_Some in E' as ->; done|done].
Qed.
Lemma filter_bool {A} (P : A -> Prop) `{!forall x, Decision (P x)} l : filter P l = List.filter (fun x => bool_decide (P x)) l.
Proof. induction l as [|x l IH]; [done|]. cbn [List.filter]. rewrite filter_cons, IH. by case_decide; case_bool_decide. Qed.
(** The last value of an option is found in the grouped list. *)
Lemma keyed_opts_last args o : o <> "incremental" -> o <> "linker" ->
  get_codegen_opt args o = (kv ← head (filter (fun kv : string * option string => kv.1 = o) (rev (keyed_opts args))); kv.2).
Proof.
  intros Hi Hl. unfold get_codegen_opt, keyed_opts. f_equal. f_equal. rewrite !filter_bool, !List.filter_rev. f_equal.
  rewrite sort_by_stable.
  - induction (ra_codegen_opts args) as [|[k v] l IH]; [done|]. cbn [List.filter fst]. rewrite IH. case_bool_decide as Hk.
    + subst k. apply String.eqb_neq in Hi as ->, Hl as ->. cbn [negb andb List.filter fst]. by rewrite bool_decide_eq_true_2.
    + destruct (_ && _); [|done]. cbn [List.filter fst]. by rewrite bool_decide_eq_false_2.
  - intros [k v] [k' v'] Hk%bool_decide_eq_true Hk'%bool_decide_eq_true. cbn in *. subst. unfold opt_leb. cbn. apply string_leb_refl.
Qed.

Lemma canon_within T F r : implb (one_of T "CARGO_CFG_") (one_of T (String "255" "")) = true -> within T F r = true ->
  Forall (fun r => within T F r = true) (canon r).
Proof.
  intros HT Hr. destruct r as [g|l v|l v|a v]; cbn [canon]; [constructor|by repeat constructor..|].
  cbn [within] in Hr. apply andb_prop in Hr as [H1 Hr]. rewrite H1 in HT. cbn [implb] in HT.
  destruct (strip_prefix _ a); [by repeat constructor|]. destruct (strip_prefix _ a); by repeat constructor.
Qed.
Lemma canon_sections secs : Forall2 in_section SECTIONS secs -> Forall2 in_section SECTIONS (map (flat_map canon) secs).
Proof.
  assert (forallb (fun set => implb (one_of set.1 "CARGO_CFG_") (one_of set.1 (String "255" ""))) SECTIONS = true) as Hs by by vm_compute.
  intros H. revert Hs. induction H as [|set sec sets secs Hset _ IH]; cbn [forallb map]; [constructor|].
  intros [Hi Hs]%andb_prop. constructor; [|by apply IH]. unfold in_section in *.
  induction Hset as [|r rs Hr _ IHr]; cbn [flat_map]; [constructor|]. apply Forall_app. split; [by apply canon_within|done].
Qed.
Lemma flat_map_concat {A B} (f : A -> list B) ls : flat_map f (concat ls) = concat (map (flat_map f) ls).
Proof. induction ls as [|l ls IH]; cbn; [done|]. by rewrite flat_map_app, IH. Qed.
Lemma cfg_canon env : only CFG_T (flat_map canon (cfg_records env)) = flat_map canon (cfg_records env).
Proof.
  apply only_all, forallb_forall. intros r (s & Hs & Hr)%in_flat_map. pose proof (cfg_within env) as Hw. rewrite Forall_forall in Hw.
  apply list_elem_of_In, Hw, (canon_within CFG_T []) in Hs; [|done]. rewrite Forall_forall in Hs. 
  assert (within CFG_T [] r = true) as Hr' by (apply Hs; by apply list_elem_of_In).
  destruct r as [g|l v|l v|a v]; [|done..|]; destruct s; cbn [canon] in Hr; repeat case_match; naive_solver.
Qed.

(** ** Two runs *)

Record KeyRun := { kr_env : Invocation; kr_normalizer : PathNormalizer; kr_probes : Probes; kr_args : RustcArgs }.
Section Runs.
Context (blake3_hex : string -> string) (nfc : string -> string).
Definition run_records (r : KeyRun) : result KeyError (list KeyRecord) :=
  key_records blake3_hex nfc (kr_env r) (kr_normalizer r) (kr_probes r) (kr_args r).
Definition run_key (r : KeyRun) : result KeyError (string * gmap string string) :=
  compute_key_into blake3_hex nfc (kr_env r) (kr_normalizer r) (kr_probes r) (kr_args r).
Definition run_sources (r : KeyRun) : result KeyError (list (string * string)) :=
  d ← pr_key_inputs (kr_probes r); keyed_sources (kr_normalizer r) (kr_probes r) blake3_hex d.
Definition run_env_deps (r : KeyRun) : result KeyError (list (string * option string)) :=
  d ← pr_key_inputs (kr_probes r); Ok (keyed_env_deps nfc (kr_env r) (kr_normalizer r) (kr_probes r) (kr_args r) d).
(** The toolchain, the crate and its command line. *)
Record same_command (r1 r2 : KeyRun) : Prop := {
  sc_version : pr_rustc_version (kr_probes r1) (ra_rustc (kr_args r1)) = pr_rustc_version (kr_probes r2) (ra_rustc (kr_args r2));
  sc_clippy : is_clippy_chain (kr_args r1) = is_clippy_chain (kr_args r2);
  sc_target : target (kr_probes r1) (kr_args r1) = target (kr_probes r2) (kr_args r2);
  sc_crate_name : ra_crate_name (kr_args r1) = ra_crate_name (kr_args r2);
  sc_crate_types : ra_crate_types (kr_args r1) = ra_crate_types (kr_args r2);
  sc_edition : ra_edition (kr_args r1) = ra_edition (kr_args r2);
  sc_emit : ra_emit (kr_args r1) ≡ₚ ra_emit (kr_args r2);
  sc_codegen : forall o, o <> "incremental" -> o <> "linker" -> get_codegen_opt (kr_args r1) o = get_codegen_opt (kr_args r2) o;
  sc_features : ra_features (kr_args r1) = ra_features (kr_args r2);
  sc_cfgs : keyed_cfgs (kr_args r1) = keyed_cfgs (kr_args r2);
  sc_link_libs : ra_link_libs (kr_args r1) = ra_link_libs (kr_args r2);
  sc_unstable : keyed_unstable (kr_args r1) = keyed_unstable (kr_args r2);
  sc_frontend_jobs : ra_frontend_jobs (kr_args r1) = ra_frontend_jobs (kr_args r2);
  sc_residual : residual nfc (kr_normalizer r1) (kr_args r1) = residual nfc (kr_normalizer r2) (kr_args r2);
  sc_diagnostics : cache_key_diagnostic_flags (kr_args r1) = cache_key_diagnostic_flags (kr_args r2);
  sc_outcome_lints : ra_outcome_lint_flags (kr_args r1) = ra_outcome_lint_flags (kr_args r2);
}.
(** The variables the sources read: the value rustc sees, and how it is keyed. *)
Definition env_reads (r : KeyRun) (d : DepInfo) : list (string * option (string * NormalizedEnvDep)) :=
  map (fun vv => (vv.1, (fun v => (v, normalized_env_dep nfc (kr_env r) (kr_normalizer r) (kr_probes r) (kr_args r) d vv.1 v)) <$> vv.2))
    (di_env_deps d).
(** The same variable, set in both or in neither, with the same value unless
    one of the keys holds a sentinel for it. *)
Definition same_read (x y : string * option (string * NormalizedEnvDep)) : Prop :=
  x.1 = y.1 /\
  match x.2, y.2 with
  | Some (v1, e1), Some (v2, e2) =>
      keeps_literal_value (ne_decision e1) && keeps_literal_value (ne_decision e2) = true -> v1 = v2
  | None, None => True
  | _, _ => False
  end.
Definition same_env_reads (r1 r2 : KeyRun) : Prop :=
  match pr_key_inputs (kr_probes r1), pr_key_inputs (kr_probes r2) with
  | Ok (Some d1), Ok (Some d2) => Forall2 same_read (env_reads r1 d1) (env_reads r2 d2)
  | _, _ => True
  end.
(** A value whose decision keeps it is in the key as rustc sees it. *)
Lemma literal_value f crate_name canonicalize use var val paths n alias :
  let e := normalize_env_dep_value_with_hasher f canonicalize use crate_name var val paths n alias in
  keeps_literal_value (ne_decision e) = true -> ne_value e = val.
Proof.
  unfold normalize_env_dep_value_with_hasher. cbn zeta.
  destruct (if alias is Some dir then value_at_or_under val dir else false); [done|].
  destruct (_ && _); [done|]. destruct (_ && _); [done|]. cbn [ne_decision ne_value].
  intros H. rewrite bool_decide_false; [done|]. by intros E; rewrite E in H.
Qed.
Lemma same_env_reads_of r1 r2 : run_env_deps r1 = run_env_deps r2 -> same_env_reads r1 r2.
Proof.
  unfold run_env_deps, same_env_reads. destruct (pr_key_inputs _) as [[d1|]|]; [|done..].
  destruct (pr_key_inputs _) as [[d2|]|]; [|done..]. cbn [mbind result_bind]. intros E%(inj Ok).
  cbn [keyed_env_deps] in E. unfold env_reads. revert E. generalize (di_env_deps d2) as l2. generalize (di_env_deps d1) as l1.
  induction l1 as [|[v1 o1] l1 IH]; intros [|[v2 o2] l2]; cbn [map]; intros E; try done. 
  injection E as Hv Ho E. constructor; [|by apply IH]. cbn [fst snd] in *. subst v2. split; [done|]. cbn [snd].
  destruct o1 as [x1|], o2 as [x2|]; try done. cbn [fmap option_fmap option_map] in *. injection Ho as Ho.
  intros [K1 K2]%andb_prop. unfold normalized_env_dep in *. apply literal_value in K1, K2. congruence.
Qed.
(** The contents and the environment the compilation reads. *)
Record same_surroundings (r1 r2 : KeyRun) : Prop := {
  ss_sources : run_sources r1 = run_sources r2;
  ss_env_deps : run_env_deps r1 = run_env_deps r2;
  ss_env_reads : same_env_reads r1 r2;
  ss_externs : map (extern_record (kr_probes r1)) (keyed_externs (kr_args r1))
               = map (extern_record (kr_probes r2)) (keyed_externs (kr_args r2));
  ss_rustflags : scrubbed_rustflags nfc (kr_normalizer r1) <$> ke_var (key_env (kr_env r1)) "RUSTFLAGS"
                 = scrubbed_rustflags nfc (kr_normalizer r2) <$> ke_var (key_env (kr_env r2)) "RUSTFLAGS";
  ss_encoded : scrubbed_encoded nfc (kr_normalizer r1) <$> ke_var (key_env (kr_env r1)) "CARGO_ENCODED_RUSTFLAGS"
               = scrubbed_encoded nfc (kr_normalizer r2) <$> ke_var (key_env (kr_env r2)) "CARGO_ENCODED_RUSTFLAGS";
  ss_bootstrap : keyed_bootstrap (kr_env r1) = keyed_bootstrap (kr_env r2);
  ss_cfg_vars : cfg_texts (kr_env r1) = cfg_texts (kr_env r2);
  ss_paths : keyed_paths (kr_env r1) (kr_normalizer r1) (kr_args r1) = keyed_paths (kr_env r2) (kr_normalizer r2) (kr_args r2);
}.

Abbreviation run_sections r := (sections_of nfc (kr_env r) (kr_normalizer r) (kr_probes r) (kr_args r)).
Abbreviation run_has_sections r := (key_sections blake3_hex nfc (kr_env r) (kr_normalizer r) (kr_probes r) (kr_args r)).
Lemma equal_sections r1 r2 rs1 rs2 :
  run_records r1 = Ok rs1 -> run_records r2 = Ok rs2 -> flat_map canon rs1 = flat_map canon rs2 ->
  exists k1 k2, run_has_sections r1 k1 /\ run_has_sections r2 k2 /\ cfg_texts (kr_env r1) = cfg_texts (kr_env r2) /\
    forall i labels, apart_but labels i SECTIONS && negb (one_of labels "CARGO_CFG_") && negb (one_of labels (String "255" "")) = true ->
      only labels (default [] (run_sections r1 k1 !! i)) = only labels (default [] (run_sections r2 k2 !! i)).
Proof.
  intros (k1 & K1 & ->)%key_records_sections (k2 & K2 & ->)%key_records_sections E. exists k1, k2.
  pose proof (canon_sections _ (sections_labels _ _ _ _ _ _ _ K1)) as S1. pose proof (canon_sections _ (sections_labels _ _ _ _ _ _ _ K2)) as S2.
  rewrite !flat_map_concat in E. split; [done|]. split; [done|]. split.
  - rewrite <- !read_cfg_texts, <- (cfg_canon (kr_env r1)), <- (cfg_canon (kr_env r2)). f_equal.
    pose proof (only_section 9 CFG_T SECTIONS _ eq_refl S1) as H1. pose proof (only_section 9 CFG_T SECTIONS _ eq_refl S2) as H2.
    rewrite E in H1. by rewrite H1 in H2.
  - intros i labels [[Ha H1%negb_true_iff]%andb_prop H2%negb_true_iff]%andb_prop.
    assert (forall secs : list (list KeyRecord), only labels (default [] (map (flat_map canon) secs !! i)) = only labels (default [] (secs !! i))) as Hc.
    { intros secs. change (map (flat_map canon) secs) with (flat_map canon <$> secs). rewrite list_lookup_fmap. destruct (secs !! i); [|done].
      by apply only_canon. }
    pose proof (only_section i labels SECTIONS _ Ha S1) as E1. pose proof (only_section i labels SECTIONS _ Ha S2) as E2.
    rewrite Hc in E1, E2. rewrite E in E1. by rewrite <- E1, <- E2.
Qed.

Ltac same_section Hs i labels E :=
  pose proof (Hs i labels ltac:(by vm_compute)) as E; cbn [lookup list_lookup sections_of default id from_option] in E; unfold id in E.
Section Same.
Context (r1 r2 : KeyRun) (k1 k2 : KeySections) (K1 : run_has_sections r1 k1) (K2 : run_has_sections r2 k2).
Context (Hs : forall i labels,
  apart_but labels i SECTIONS && negb (one_of labels "CARGO_CFG_") && negb (one_of labels (String "255" "")) = true ->
  only labels (default [] (run_sections r1 k1 !! i)) = only labels (default [] (run_sections r2 k2 !! i))).
Lemma same_command_of : same_command r1 r2.
Proof.
  destruct K1 as [C1 D1 S1 L1 U1 O1], K2 as [C2 D2 S2 L2 U2 O2].
  destruct (compiler_within _ _ _ _ _ _ C1) as [_ V1], (compiler_within _ _ _ _ _ _ C2) as [_ V2].
  pose proof (read_unstable _ _ _ _ _ U1) as (Z1 & J1 & R1). pose proof (read_unstable _ _ _ _ _ U2) as (Z2 & J2 & R2). split.
  - rewrite V1, V2. same_section Hs 0%nat ["rustc_version:"] E. rewrite (read_version _ _ _ _ _ _ C1), (read_version _ _ _ _ _ _ C2) in E. congruence.
  - same_section Hs 0%nat ["clippy.v1:"] E. by rewrite (read_clippy _ _ _ _ _ _ C1), (read_clippy _ _ _ _ _ _ C2), E.
  - same_section Hs 0%nat ["target:"] E. rewrite (read_target _ _ _ _ _ _ C1), (read_target _ _ _ _ _ _ C2) in E. congruence.
  - same_section Hs 1%nat ["crate_name:"] E. rewrite !read_crate_name in E. by apply texts_inj, option_list_inj in E.
  - same_section Hs 1%nat ["crate_type:"] E. rewrite !read_crate_types in E. by apply texts_inj in E.
  - same_section Hs 1%nat ["edition:"] E. rewrite !read_edition in E. by apply texts_inj, option_list_inj in E.
  - same_section Hs 2%nat ["emit:"] E. rewrite !read_emit in E. apply texts_inj in E. by rewrite <- (sort_by_perm String.leb), E, sort_by_perm.
  - same_section Hs 2%nat ["codegen_key:"; "codegen_val:"] E. rewrite !read_opts in E. apply opts_inj in E.
    intros o Hi Hl. by rewrite !keyed_opts_last, E.
  - same_section Hs 2%nat ["feature:"] E. rewrite !read_features in E. by apply texts_inj in E.
  - same_section Hs 2%nat ["cfg:"] E. rewrite !read_cfgs in E. by apply fields_inj in E.
  - same_section Hs 6%nat ["link_lib:"] E. rewrite (read_libs _ _ _ _ _ _ _ L1), (read_libs _ _ _ _ _ _ _ L2) in E. by apply texts_inj in E.
  - same_section Hs 7%nat ["unstable:"] E. rewrite Z1, Z2 in E. by apply texts_inj in E.
  - same_section Hs 7%nat ["frontend_jobs.v1:"] E. rewrite J1, J2 in E. by apply fields_inj in E.
  - same_section Hs 7%nat ["residual_args.v1:"] E. rewrite R1, R2 in E. by apply fields_inj in E.
  - same_section Hs 8%nat ["diagnostic_arg:"] E. rewrite !read_diagnostics in E. by apply fields_inj in E.
  - same_section Hs 8%nat ["outcome_lint.v1:"] E. rewrite !read_outcome_lints in E. by apply fields_inj in E.
Qed.
Lemma same_paths_of : keyed_paths (kr_env r1) (kr_normalizer r1) (kr_args r1) = keyed_paths (kr_env r2) (kr_normalizer r2) (kr_args r2).
Proof.
  same_section Hs 11%nat ["remap:"] E. rewrite !read_remap in E. unfold keyed_paths.
  destruct (skip_path_remap (kr_args r1)) eqn:H1, (skip_path_remap (kr_args r2)) eqn:H2; try done.
  same_section Hs 11%nat ["unremapped:cwd:"] E1. same_section Hs 11%nat ["unremapped:source:"] E2.
  same_section Hs 11%nat ["unremapped:prefix:"] E3.
  destruct (read_paths (kr_env r1) (kr_normalizer r1) _ H1) as (A1 & A2 & A3), (read_paths (kr_env r2) (kr_normalizer r2) _ H2) as (B1 & B2 & B3).
  rewrite A1, B1 in E1. rewrite A2, B2 in E2. rewrite A3, B3 in E3. apply fields_inj in E1, E2, E3. apply option_list_inj in E1, E2.
  by rewrite E1, E2, E3.
Qed.
Lemma same_surroundings_of : cfg_texts (kr_env r1) = cfg_texts (kr_env r2) -> same_surroundings r1 r2.
Proof.
  destruct K1 as [C1 D1 S1 L1 U1 O1], K2 as [C2 D2 S2 L2 U2 O2].
  destruct (read_sources _ _ _ _ _ _ _ _ S1) as (p1 & P1 & R1), (read_sources _ _ _ _ _ _ _ _ S2) as (p2 & P2 & R2).
  assert (run_env_deps r1 = run_env_deps r2) as Henv.
  { unfold run_env_deps. rewrite D1, D2. cbn. same_section Hs 3%nat ["env_dep_var:"; "env_dep_presence.v1:"; "env_dep_val:"] E.
    rewrite (read_env_deps _ _ _ _ _ _ _ _ S1), (read_env_deps _ _ _ _ _ _ _ _ S2) in E. apply env_inj in E. by rewrite E. }
  intros Hcfg. split.
  - unfold run_sources. rewrite D1, D2. cbn. rewrite P1, P2. same_section Hs 3%nat ["source_path:"; "source_hash:"] E.
    rewrite R1, R2 in E. apply pairs_inj in E. by rewrite E.
  - done.
  - by apply same_env_reads_of.
  - same_section Hs 4%nat ["extern:"; "extern_unreadable:"] E. by rewrite !read_externs in E.
  - same_section Hs 5%nat ["RUSTFLAGS:"] E. rewrite !read_rustflags in E. by apply texts_inj, option_list_inj in E.
  - same_section Hs 5%nat ["CARGO_ENCODED_RUSTFLAGS:"] E. rewrite !read_encoded in E. by apply texts_inj, option_list_inj in E.
  - same_section Hs 5%nat ["RUSTC_BOOTSTRAP:"] E. rewrite !read_bootstrap in E. by apply texts_inj, option_list_inj in E.
  - done.
  - apply same_paths_of.
Qed.
End Same.
Lemma run_key_preimage r rs key fields : run_records r = Ok rs -> run_key r = Ok (key, fields) -> key = blake3_hex (preimage rs).
Proof.
  intros Hr Hk. unfold run_key, compute_key_into in Hk. fold (run_records r) in Hk. rewrite Hr in Hk. cbn [mbind result_bind] in Hk.
  apply bind_Ok in Hk as (_ & _ & Hk). unfold finalize_with_fields in Hk.
  destruct (grouping_is_transparent rs "compiler") as [<- _]. by injection Hk as <-.
Qed.
Lemma equal_preimages_equal_inputs r1 r2 rs1 rs2 :
  run_records r1 = Ok rs1 -> run_records r2 = Ok rs2 ->
  forallb clean_record rs1 = true -> forallb clean_record rs2 = true ->
  preimage rs1 = preimage rs2 -> same_command r1 r2 /\ same_surroundings r1 r2.
Proof.
  intros R1 R2 C1 C2 E.
  assert (forall r rs, run_records r = Ok rs -> Forall (fun r => labelled r = true) rs) as Hlab.
  { intros r rs (k & Kr & ->)%key_records_sections. by eapply sections_labelled, sections_labels. }
  destruct (equal_sections r1 r2 rs1 rs2 R1 R2) as (k1 & k2 & K1 & K2 & Hcfg & Hs).
  { apply records_decodable; eauto. }
  split; [by eapply same_command_of|by eapply same_surroundings_of].
Qed.
Lemma preimage_key_version r rs : run_records r = Ok rs -> exists rest, preimage rs = "key_version:" ++ rest.
Proof.
  intros (k & [Hc _ _ _ _ _] & ->)%key_records_sections. unfold sections_of. cbn [concat]. unfold compiler_records in Hc.
  apply bind_Ok in Hc as (v & _ & Hc). apply bind_Ok in Hc as (clippy & _ & Hc). injection Hc as <- _.
  cbn [app]. rewrite preimage_text. eauto.
Qed.
End Runs.
