(* ===== verification/KeyComplete.v ===== *)
(** * The complete key

    What is folded over a key after its recipe (configured inputs, declared
    variables, the salt), and the theorem over the key the wrapper uses. *)

From S2P Require Import Prelude Strings Codec StorePolicy CargoLayout RustcArgs RustcPolicy PathNormalizer KeyFold NativeLink DepInfoText SourceScan EnvDeps KeyRecipe KeyProofs KeySound KeyInputs.
#[local] Open Scope string_scope.
#[local] Open Scope Z_scope.

(** ** Stages *)

(** The digests folded over a key, innermost first. *)
Definition effective_salt (ctx : KeyCtx) : option string :=
  s ← kc_key_salt ctx; if String.eqb s "" then None else Some s.
Definition declared_vars (ctx : KeyCtx) (env : Invocation) : list (string * string) :=
  matching_key_env_vars (kc_key_env_vars ctx) (inv_vars env).
Definition stage_text (base : string) (stage : string * string) : string := stage.1 ++ ":" ++ stage.2 ++ String "031" base.
(** No two of the texts share a digest. *)
Definition collision_free (digest : string -> string) (texts : list string) : bool :=
  forallb (fun x => forallb (fun y => implb (String.eqb (digest x) (digest y)) (String.eqb x y)) texts) texts.
Lemma collision_free_spec digest texts x y :
  collision_free digest texts = true -> x ∈ texts -> y ∈ texts -> digest x = digest y -> x = y.
Proof.
  unfold collision_free. rewrite forallb_forall. intros H Hx%list_elem_of_In Hy%list_elem_of_In E. specialize (H x Hx).
  rewrite forallb_forall in H. specialize (H y Hy). rewrite E, String.eqb_refl in H. by apply String.eqb_eq.
Qed.

Definition STAGE_LABELS : list string := ["extra_inputs"; "build_script_inputs"; "key_env_vars"; "key_salt"].
Definition stage_label (stage : string * string) : Prop := one_of STAGE_LABELS stage.1 = true.

Section Stages.
Context (blake3_hex : string -> string).
Definition stages (env : Invocation) (ctx : KeyCtx) : list (string * string) :=
  ((pair "extra_inputs" <$> option_list (kc_extra_inputs_digest ctx))
   ++ (pair "build_script_inputs" <$> option_list (kc_build_script_inputs_digest ctx))
   ++ (pair "key_env_vars" <$> option_list (key_env_guard_in blake3_hex (kc_key_env_vars ctx) env))
   ++ (pair "key_salt" <$> option_list (effective_salt ctx)))%list.
Definition fold_stages (key : string) (sts : list (string * string)) : string :=
  fold_left (fun key st => blake3_hex (stage_text key st)) sts key.
(** Every text digested on the way. *)
Fixpoint stage_texts (key : string) (sts : list (string * string)) : list string :=
  match sts with
  | [] => []
  | st :: sts => stage_text key st :: stage_texts (blake3_hex (stage_text key st)) sts
  end.
Lemma finish_key_stages env ctx key : finish_key blake3_hex env ctx key = fold_stages key (stages env ctx).
Proof.
  unfold finish_key, stages, fold_digest, apply_key_env_vars_in, key_env_guard_in, apply_key_salt, effective_salt.
  destruct (kc_extra_inputs_digest ctx), (kc_build_script_inputs_digest ctx), (kc_key_env_vars ctx), (kc_key_salt ctx) as [salt|];
    cbn [mbind option_bind]; try done; by destruct (String.eqb salt "").
Qed.
Lemma stages_labels env ctx : Forall stage_label (stages env ctx).
Proof. unfold stages. repeat apply Forall_app_2; apply Forall_fmap, Forall_true; done. Qed.
Lemma fold_stages_snoc key sts st : fold_stages key (sts ++ [st]) = blake3_hex (stage_text (fold_stages key sts) st).
Proof. unfold fold_stages. by rewrite fold_left_app. Qed.
Lemma stage_texts_snoc key sts st :
  stage_texts key (sts ++ [st]) = (stage_texts key sts ++ [stage_text (fold_stages key sts) st])%list.
Proof. revert key. induction sts as [|s sts IH]; intros key; cbn; [done|]. by rewrite IH. Qed.

Context (digest_length : forall x, slen (blake3_hex x) = 64).
Lemma fold_stages_length key sts : slen key = 64 -> slen (fold_stages key sts) = 64.
Proof. destruct sts as [|st sts _] using rev_ind; [done|]. intros _. by rewrite fold_stages_snoc. Qed.
End Stages.

(** A stage is read back from its text: labels are prefix-free and a base key
    has one length. *)
Lemma stage_heads a b r s : one_of STAGE_LABELS a = true -> one_of STAGE_LABELS b = true -> a ++ ":" ++ r = b ++ ":" ++ s -> a = b /\ r = s.
Proof.
  intros Ha%one_of_spec Hb%one_of_spec E.
  assert (a = b) as -> by (repeat (apply elem_of_cons in Ha as [->|Ha]; [|]); repeat (apply elem_of_cons in Hb as [->|Hb]; [|]);
    try (by apply not_elem_of_nil in Ha); try (by apply not_elem_of_nil in Hb); first [reflexivity|discriminate E]).
  split; [done|]. apply string_app_inj in E as [_ E]; [|done]. by injection E.
Qed.
Lemma app_tail_inj a b x y : slen x = slen y -> a ++ x = b ++ y -> a = b /\ x = y.
Proof.
  intros Hl E. apply string_app_inj in E; [done|]. apply (f_equal slen) in E. rewrite !slen_app in E. lia.
Qed.
Lemma stage_text_inj k1 k2 s1 s2 : stage_label s1 -> stage_label s2 -> slen k1 = slen k2 ->
  stage_text k1 s1 = stage_text k2 s2 -> s1 = s2 /\ k1 = k2.
Proof.
  destruct s1 as [l1 v1], s2 as [l2 v2]. unfold stage_text. cbn [fst snd]. intros H1 H2 Hl E.
  apply stage_heads in E as [-> E]; [|done..]. apply app_tail_inj in E as [-> E]; [by injection E as ->|].
  unfold slen in *. cbn [String.length]. lia.
Qed.

(** ** The complete key *)

Section Complete.
Context (blake3_hex : string -> string) (nfc : string -> string).
Context (digest_length : forall x, slen (blake3_hex x) = 64).

Definition complete_key (r : KeyRun) (ctx : KeyCtx) : result KeyError (string * gmap string string) :=
  cache_key_in blake3_hex nfc (kr_env r) (kr_normalizer r) (kr_probes r) (kr_args r) ctx.
(** Every text a complete key digests, from the records of its recipe. *)
Definition env_text (env : Invocation) (ctx : KeyCtx) : string := preimage (key_env_records (kc_key_env_vars ctx) (declared_vars ctx env)).
Definition key_texts (r : KeyRun) (ctx : KeyCtx) (rs : list KeyRecord) : list string :=
  preimage rs :: env_text (kr_env r) ctx :: stage_texts blake3_hex (blake3_hex (preimage rs)) (stages blake3_hex (kr_env r) ctx).
Definition clean_run (r : KeyRun) (ctx : KeyCtx) (rs : list KeyRecord) : bool :=
  forallb clean_record rs && forallb clean_record (key_env_records (kc_key_env_vars ctx) (declared_vars ctx (kr_env r))).
(** The configuration and the declared variables. *)
Record same_context (r1 r2 : KeyRun) (c1 c2 : KeyCtx) : Prop := {
  sx_extra : kc_extra_inputs_digest c1 = kc_extra_inputs_digest c2;
  sx_build_script : kc_build_script_inputs_digest c1 = kc_build_script_inputs_digest c2;
  sx_patterns : kc_key_env_vars c1 = kc_key_env_vars c2;
  sx_declared : declared_vars c1 (kr_env r1) ≡ₚ declared_vars c2 (kr_env r2);
  sx_salt : effective_salt c1 = effective_salt c2;
}.
Abbreviation is_head x := (exists rest, x = "key_version:" ++ rest).
Lemma head_not_stage k s x : is_head x -> stage_label s -> x <> stage_text k s.
Proof.
  destruct s as [l v]. unfold stage_label, stage_text. cbn [fst snd]. intros [rest ->] Hl%one_of_spec E.
  repeat (apply elem_of_cons in Hl as [->|Hl]; [discriminate E|]). by apply not_elem_of_nil in Hl.
Qed.
Lemma equal_chains x1 x2 s1 s2 texts : is_head x1 -> is_head x2 -> Forall stage_label s1 -> Forall stage_label s2 ->
  collision_free blake3_hex texts = true ->
  x1 :: stage_texts blake3_hex (blake3_hex x1) s1 ⊆ texts -> x2 :: stage_texts blake3_hex (blake3_hex x2) s2 ⊆ texts ->
  fold_stages blake3_hex (blake3_hex x1) s1 = fold_stages blake3_hex (blake3_hex x2) s2 -> x1 = x2 /\ s1 = s2.
Proof.
  intros H1 H2 L1 L2 Hc. pose proof (fun x y => collision_free_spec _ _ x y Hc) as Hinj. clear Hc.
  revert s2 L2. induction s1 as [|st1 s1 IH] using rev_ind; intros s2 L2; destruct s2 as [|st2 s2 _] using rev_ind; intros T1 T2 E.
  - split; [|done]. apply Hinj; [set_solver..|done].
  - rewrite fold_stages_snoc in E. rewrite stage_texts_snoc in T2. apply Forall_app in L2 as [_ [L2 _]%Forall_cons].
    apply Hinj in E; [by eapply head_not_stage in E|set_solver..].
  - rewrite fold_stages_snoc in E. rewrite stage_texts_snoc in T1. apply Forall_app in L1 as [_ [L1 _]%Forall_cons].
    apply Hinj in E; [symmetry in E; by eapply head_not_stage in E|set_solver..].
  - rewrite !fold_stages_snoc in E. rewrite stage_texts_snoc in T1, T2.
    apply Forall_app in L1 as [L1 [M1 _]%Forall_cons], L2 as [L2 [M2 _]%Forall_cons].
    apply Hinj in E; [|set_solver..]. apply stage_text_inj in E as [-> E]; [|done|done|by rewrite !fold_stages_length].
    destruct (IH L1 s2 L2) as [-> ->]; [set_solver..|done|done].
Qed.
Definition stage_values (l : string) (sts : list (string * string)) : list string :=
  map snd (List.filter (fun st => String.eqb st.1 l) sts).
Lemma stage_values_app l a b : stage_values l (a ++ b) = (stage_values l a ++ stage_values l b)%list.
Proof. unfold stage_values. by rewrite List.filter_app, map_app. Qed.
Lemma stage_value l m o : stage_values l (pair m <$> option_list o) = if String.eqb m l then option_list o else [].
Proof. unfold stage_values. destruct o; cbn; by destruct (String.eqb m l). Qed.
Lemma equal_stages r1 r2 c1 c2 : stages blake3_hex (kr_env r1) c1 = stages blake3_hex (kr_env r2) c2 ->
  kc_extra_inputs_digest c1 = kc_extra_inputs_digest c2 /\ kc_build_script_inputs_digest c1 = kc_build_script_inputs_digest c2 /\
  key_env_guard_in blake3_hex (kc_key_env_vars c1) (kr_env r1) = key_env_guard_in blake3_hex (kc_key_env_vars c2) (kr_env r2) /\
  effective_salt c1 = effective_salt c2.
Proof.
  intros E. assert (forall l, stage_values l (stages blake3_hex (kr_env r1) c1) = stage_values l (stages blake3_hex (kr_env r2) c2)) as Hl
    by (intros l; by rewrite E).
  unfold stages in Hl. setoid_rewrite stage_values_app in Hl. setoid_rewrite stage_values_app in Hl. setoid_rewrite stage_values_app in Hl.
  setoid_rewrite stage_value in Hl.
  pose proof (Hl "extra_inputs") as E1. pose proof (Hl "build_script_inputs") as E2.
  pose proof (Hl "key_env_vars") as E3. pose proof (Hl "key_salt") as E4. clear Hl E. cbn in E1, E2, E3, E4.
  rewrite !app_nil_r in *. split_and!; by apply option_list_inj.
Qed.
Definition sorted_vars (matched : list (string * string)) : list (string * string) :=
  if bool_decide (NoDup (map fst matched)) then sort_by pair_leb matched else matched.
Lemma sorted_vars_perm l : sorted_vars l ≡ₚ l.
Proof. unfold sorted_vars. case_bool_decide; [apply sort_by_perm|done]. Qed.
Definition var_records (nv : string * string) : list KeyRecord := [KField "key_env_name:" nv.1; KField "key_env_val:" nv.2].
Lemma key_env_records_eq patterns matched :
  key_env_records patterns matched = (map (KField "key_env_pattern:") patterns ++ flat_map var_records (sorted_vars matched))%list.
Proof. done. Qed.
Lemma vars_inj xs ys : flat_map var_records xs = flat_map var_records ys -> xs = ys.
Proof. revert ys. induction xs as [|[x v] xs IH]; intros [|[y w] ys]; cbn; intros E; simplify_eq; [done|by rewrite (IH ys)]. Qed.
Lemma key_env_records_inj p1 p2 m1 m2 : key_env_records p1 m1 = key_env_records p2 m2 -> p1 = p2 /\ m1 ≡ₚ m2.
Proof.
  rewrite !key_env_records_eq. intros E. split.
  - apply (f_equal (only ["key_env_pattern:"])) in E. revert E. read_records. apply fields_inj.
  - apply (f_equal (only ["key_env_name:"; "key_env_val:"])) in E. revert E. read_records. intros E%vars_inj.
    by rewrite <- (sorted_vars_perm m1), E, sorted_vars_perm.
Qed.
Lemma key_env_labelled p m : Forall (fun r => labelled r = true) (key_env_records p m).
Proof. rewrite key_env_records_eq. apply Forall_app. split; [apply Forall_fmap|apply Forall_flat_map]; apply Forall_true; intros; by repeat constructor. Qed.
Lemma key_env_canon p m : flat_map canon (key_env_records p m) = key_env_records p m.
Proof.
  rewrite key_env_records_eq, flat_map_app. f_equal; [by induction p as [|x p IH]; cbn; [|rewrite IH]|].
  by induction (sorted_vars m) as [|[x v] l IH]; cbn; [|rewrite IH].
Qed.
Lemma equal_env_texts e1 e2 c1 c2 : env_text e1 c1 = env_text e2 c2 ->
  forallb clean_record (key_env_records (kc_key_env_vars c1) (declared_vars c1 e1)) = true ->
  forallb clean_record (key_env_records (kc_key_env_vars c2) (declared_vars c2 e2)) = true ->
  kc_key_env_vars c1 = kc_key_env_vars c2 /\ declared_vars c1 e1 ≡ₚ declared_vars c2 e2.
Proof.
  intros E C1 C2. apply key_env_records_inj. rewrite <- (key_env_canon _ (declared_vars c1 e1)), <- (key_env_canon _ (declared_vars c2 e2)).
  apply records_decodable; auto using key_env_labelled.
Qed.
Lemma no_patterns ctx env : kc_key_env_vars ctx = [] -> declared_vars ctx env = [].
Proof. unfold declared_vars. intros ->. unfold matching_key_env_vars. by induction (inv_vars env). Qed.
Lemma equal_guards e1 e2 c1 c2 :
  key_env_guard_in blake3_hex (kc_key_env_vars c1) e1 = key_env_guard_in blake3_hex (kc_key_env_vars c2) e2 ->
  (kc_key_env_vars c1 = [] /\ kc_key_env_vars c2 = []) \/ blake3_hex (env_text e1 c1) = blake3_hex (env_text e2 c2).
Proof.
  unfold key_env_guard_in, env_text, declared_vars, key_env_digest. destruct (kc_key_env_vars c1), (kc_key_env_vars c2); try done; [by left|].
  intros [= E]. by right.
Qed.
End Complete.
