(* ===== verification/KeyWitness.v ===== *)
(** * Command lines, paths and keys, evaluated

    The theorems of the key components at concrete command lines: one crate,
    built by two users in two checkouts; and the inputs that a key leaves out. *)

From S2P Require Import Prelude Strings Codec StorePolicy CargoLayout RustcArgs RustcPolicy RustcArgsProofs PathNormalizer PathNormalizerProofs SourceScan DepInfoText KeyFold NativeLink NativeLinkProofs EnvDeps KeyRecipe KeyProofs KeySound KeyInputs KeyComplete.
#[local] Open Scope string_scope.
#[local] Open Scope Z_scope.
#[local] Open Scope record_scope.

(** ** Two checkouts *)

Definition demo_env (home : string) : Invocation :=
  {| inv_vars := [("HOME", home); ("RUSTFLAGS", "-C debuginfo=1"); ("FLAVOUR", "plain"); ("CARGO_CFG_UNIX", "")];
     inv_cwd := Some (home ++ "/p"); inv_home := Some home; inv_temp := "/tmp" |}.
Definition demo_disk (home : string) : Disk :=
  {| disk_exists := fun _ => true;
     disk_read_to_string := fun p => if String.eqb p (home ++ "/args") then Some ("-C" ++ LF ++ "opt-level=3" ++ LF) else None;
     disk_is_file := fun _ => false; disk_canonicalize := fun p => Some p |}.
Definition demo_argv : list string :=
  ["rustc"; "--crate-name"; "foo"; "--crate-type"; "lib"; "--edition=2021"; "--error-format=json"; "src/lib.rs"; "--emit=link,metadata";
   "-C"; "opt-level=3"; "-lz"; "--extern"; "bar=/deps/libbar.rlib"].
Definition demo_nfc (s : string) : string := s.
Definition demo_canonicalize (s : string) : option string := Some s.
Definition demo_normalizer (home : string) : PathNormalizer := from_invocation demo_nfc demo_canonicalize None (demo_env home).
Definition demo_io : LinkProbes :=
  {| lp_is_file := fun _ => false; lp_canonicalize := demo_canonicalize; lp_read_dir := fun _ => Ok [];
     lp_has_archive_magic := fun _ => Ok false; lp_hash := fun _ => Ok (toy_hex "pub fn f() {}");
     lp_hash_static_lib := fun _ _ => Ok (toy_hex "archive"); lp_apple_install_names := Ok [] |}.
Definition demo_probes (home : string) : Probes :=
  {| pr_host_target_triple := "x86_64-unknown-linux-gnu";
     pr_rustc_version := fun _ => Ok ("rustc 1.90.0" ++ LF ++ "host: x86_64-unknown-linux-gnu");
     pr_clippy_identity := fun _ => Ok ""; pr_spec_hash := fun _ => None;
     pr_key_inputs := Ok (Some {| di_source_files := [home ++ "/p/src/lib.rs"]; di_env_deps := [("FLAVOUR", Some "plain"); ("UNSET", None)] |});
     pr_env_dep_use := fun _ _ => Some Unused; pr_aliased_out_dir := None; pr_backends := fun _ => Ok []; pr_linker_identity := None; pr_libc_signature := fun _ => Ok "";
     pr_link_driver := fun _ => Some "/usr/bin/cc"; pr_crt_objects := fun _ => Ok ∅; pr_native_linker := fun _ _ => Ok ""; pr_io := demo_io |}.
Definition demo_args (home : string) (argv : list string) : RustcArgs :=
  default (empty_args "" None [] None NoArgfile false) (parse_for (demo_env home) (demo_disk home) argv).
Definition demo_keyed (home : string) (argv : list string) : KeyRun :=
  {| kr_env := demo_env home; kr_normalizer := demo_normalizer home; kr_probes := demo_probes home; kr_args := demo_args home argv |}.
Definition demo_ctx : KeyCtx :=
  {| kc_extra_inputs_digest := None; kc_build_script_inputs_digest := Some (toy_hex "script"); kc_key_env_vars := ["FLAV*"];
     kc_key_salt := Some "team" |}.
Definition value_or {E A} (d : A) (r : result E A) : A := match r with Ok a => a | Err _ => d end.
Definition succeeds {E A} (r : result E A) : bool := match r with Ok _ => true | Err _ => false end.
Lemma value_or_Ok {E A} (d : A) (r : result E A) : succeeds r = true -> r = Ok (value_or d r).
Proof. by destruct r. Qed.
Definition demo_records (home : string) (argv : list string) : list KeyRecord :=
  value_or [] (run_records toy_hex demo_nfc (demo_keyed home argv)).
Definition demo_complete (home : string) (argv : list string) : string * gmap string string :=
  value_or ("", ∅) (complete_key toy_hex demo_nfc (demo_keyed home argv) demo_ctx).
Lemma toy_hex_length x : slen (toy_hex x) = 64.
Proof. apply slen_fmt_padded. Qed.

(** Both checkouts have clean records, a key, and the same one. *)
Definition same_demo (h1 h2 : string) (argv : list string) : bool :=
  let keyed h := succeeds (run_records toy_hex demo_nfc (demo_keyed h argv))
    && succeeds (complete_key toy_hex demo_nfc (demo_keyed h argv) demo_ctx)
    && clean_run (demo_keyed h argv) demo_ctx (demo_records h argv) in
  keyed h1 && keyed h2 && String.eqb (demo_complete h1 argv).1 (demo_complete h2 argv).1
  && collision_free toy_hex (key_texts toy_hex (demo_keyed h1 argv) demo_ctx (demo_records h1 argv)
                             ++ key_texts toy_hex (demo_keyed h2 argv) demo_ctx (demo_records h2 argv)).
Lemma demo_pair_Ok {E A B} (d : A * B) (r : result E (A * B)) k : succeeds r = true -> (value_or d r).1 = k -> r = Ok (k, (value_or d r).2).
Proof. destruct r as [[a b]|e]; [|done]. by intros _ <-. Qed.

Lemma same_demo_spec h1 h2 argv : same_demo h1 h2 argv = true -> exists rs1 rs2 key f1 f2,
  run_records toy_hex demo_nfc (demo_keyed h1 argv) = Ok rs1 /\ run_records toy_hex demo_nfc (demo_keyed h2 argv) = Ok rs2 /\
  clean_run (demo_keyed h1 argv) demo_ctx rs1 = true /\ clean_run (demo_keyed h2 argv) demo_ctx rs2 = true /\
  collision_free toy_hex (key_texts toy_hex (demo_keyed h1 argv) demo_ctx rs1 ++ key_texts toy_hex (demo_keyed h2 argv) demo_ctx rs2) = true /\
  complete_key toy_hex demo_nfc (demo_keyed h1 argv) demo_ctx = Ok (key, f1) /\
  complete_key toy_hex demo_nfc (demo_keyed h2 argv) demo_ctx = Ok (key, f2).
Proof.
  unfold same_demo. intros [[[[[R1 K1]%andb_prop C1]%andb_prop [[R2 K2]%andb_prop C2]%andb_prop]%andb_prop E%String.eqb_eq]%andb_prop F]%andb_prop.
  exists (demo_records h1 argv), (demo_records h2 argv), (demo_complete h2 argv).1, (demo_complete h1 argv).2, (demo_complete h2 argv).2.
  split_and!; [by apply value_or_Ok|by apply value_or_Ok|done|done|done|by apply demo_pair_Ok|by apply demo_pair_Ok].
Qed.
Lemma demo_checkouts_agree : same_demo "/home/a" "/home/b" demo_argv = true.
Proof. vm_compute. reflexivity. Qed.


(** ** Command lines *)

Lemma response_files_transparent_witness :
  (exists parts, mapM (expansion (demo_env "/home/a") (disk_read_to_string (demo_disk "/home/a"))) ["@/home/a/args"; "src/lib.rs"] = Some parts
    /\ ["-C"; "opt-level=3"; "src/lib.rs"] = concat parts) /\
  Forall (fun arg => has_line_break arg = false) ["-C"; "opt-level=3"; "src/lib.rs"].
Proof.
  destruct (response_files_transparent (demo_env "/home/a") (disk_read_to_string (demo_disk "/home/a")) ["@/home/a/args"; "src/lib.rs"]
    ["-C"; "opt-level=3"; "src/lib.rs"] "" "" ltac:(vm_compute; reflexivity)) as (H1 & H2 & _).
  exact (conj H1 H2).
Defined.
Lemma presentation_stripped_exact_witness :
  args_without_diagnostic_presentation (demo_args "/home/a" demo_argv)
  = ["--crate-name"; "foo"; "--crate-type"; "lib"; "--edition=2021"; "src/lib.rs"; "--emit=link,metadata"; "-C"; "opt-level=3"; "-lz";
     "--extern"; "bar=/deps/libbar.rlib"] /\
  exists st, finish_parse (demo_env "/home/a") (demo_disk "/home/a") st
    = (demo_args "/home/a" demo_argv) <| ra_diagnostic_flags := [] |> <| ra_diagnostic_arg_indices := [] |>
        <| ra_all_args := args_without_diagnostic_presentation (demo_args "/home/a" demo_argv) |>.
Proof.
  split; [vm_compute; reflexivity|]. eexists.
  apply (presentation_stripped_exact (demo_env "/home/a") (demo_disk "/home/a") demo_argv (demo_args "/home/a" demo_argv)).
  vm_compute. reflexivity.
Defined.
Lemma spellings_equivalent_witness :
  same unpresented
    (parse_args (fun _ => true) 0 ["-O"; "--crate-name"; "foo"; "--test"] {| pg_args := demo_args "/home/a" demo_argv; pg_is_query := false |})
    (parse_args (fun _ => true) 0 ["-C"; "opt-level=3"; "--crate-name=foo"; "--test"]
      {| pg_args := demo_args "/home/a" demo_argv; pg_is_query := false |}).
Proof.
  apply (spellings_equivalent (fun _ => true) ["-O"; "--crate-name"; "foo"; "--test"]).
  apply (sl_respelled _ ["-O"] ["-C"; "opt-level=3"]); [constructor|].
  apply (sl_respelled _ ["--crate-name"; "foo"] ["--crate-name=foo"]); [by apply (rs_joined "--crate-name"), list_elem_of_In; left|].
  apply (sl_same _ ["--test"] [] []); [|constructor]. intros i rest st. reflexivity.
Defined.


(** ** Paths *)

Definition no_rule : Rule := {| rl_prefix := ""; rl_key_sentinel := ""; rl_source_sentinel := ""; rl_flag_target := "" |}.
Definition nth_rule (i : nat) : Rule := default no_rule (pn_rules (demo_normalizer "/home/a") !! i).
Lemma demo_built home : built demo_nfc demo_canonicalize (fun _ => true) (demo_normalizer home).
Proof. apply b_from_invocation. Qed.
Definition is_elem (i : nat) : bool := (i <? length (pn_rules (demo_normalizer "/home/a")))%nat.
Lemma nth_rule_elem i : is_elem i = true -> nth_rule i ∈ pn_rules (demo_normalizer "/home/a").
Proof.
  unfold is_elem, nth_rule. intros H%Nat.ltb_lt. destruct (lookup_lt_is_Some_2 _ _ H) as [r Hr]. rewrite Hr. by eapply list_elem_of_lookup_2.
Qed.
Lemma normalize_erases_prefixes_witness :
  rl_prefix (nth_rule 0) = "/home/a/p" /\
  contains (rl_prefix (nth_rule 0)) (normalize demo_nfc (demo_normalizer "/home/a") "-L/home/a/p/x:/home/a/p") = false.
Proof.
  split; [vm_compute; reflexivity|].
  apply (normalize_erases_prefixes demo_nfc demo_canonicalize (fun _ => true) (demo_normalizer "/home/a") (nth_rule 0)
    "-L/home/a/p/x:/home/a/p" (demo_built _)); [apply nth_rule_elem|..]; vm_compute; reflexivity.
Defined.
Lemma source_rule_is_the_applied_flag_witness :
  rustc_remap (remap_args (pn_rules (demo_normalizer "/home/a"))) "/home/a/p/src/lib.rs"
  = match source_rule_for_path (pn_rules (demo_normalizer "/home/a")) "/home/a/p/src/lib.rs" with
    | Some r => join_path (components (rl_flag_target r)) (default [] (strip_path (components (rl_prefix r)) (components "/home/a/p/src/lib.rs")))
    | None => components "/home/a/p/src/lib.rs"
    end.
Proof.
  apply (source_rule_is_the_applied_flag demo_nfc demo_canonicalize (fun _ => true) (demo_normalizer "/home/a") "/home/a/p/src/lib.rs"
    (demo_built _)); vm_compute; reflexivity.
Defined.
Lemma source_identity_fixes_embedded_path_witness :
  rustc_remap (remap_args (pn_rules (demo_normalizer "/home/a"))) "/home/a/p/src/lib.rs"
  = rustc_remap (remap_args (pn_rules (demo_normalizer "/srv/ci"))) "/srv/ci/p/src/lib.rs".
Proof.
  apply (source_identity_fixes_embedded_path demo_nfc demo_nfc demo_canonicalize demo_canonicalize (fun _ => true) (fun _ => true)
    (demo_normalizer "/home/a") (demo_normalizer "/srv/ci") "/home/a/p/src/lib.rs" "/srv/ci/p/src/lib.rs" "<CWD>/src/lib.rs"
    (demo_built _) (demo_built _)); vm_compute; reflexivity.
Defined.
(** The premise that paths are plain matters.  The identity compares prefixes as text,
    rustc by components: with a doubled separator the two name different rules,
    and one identity stands for two embedded paths. *)
Definition doubled (home cwd : string) : list Rule :=
  pn_rules (from_invocation demo_nfc demo_canonicalize None
    {| inv_vars := [("HOME", home)]; inv_cwd := Some cwd; inv_home := Some home; inv_temp := "/tmp" |}).
Example doubled_separator_splits_identity :
  source_path_identity (doubled "/home/a" "/home/a/p") "/home/a//p/x.rs"
  = source_path_identity (doubled "/home/b" "/home/b/q") "/home/b//p/x.rs"
  /\ rustc_remap (remap_args (doubled "/home/a" "/home/a/p")) "/home/a//p/x.rs"
     <> rustc_remap (remap_args (doubled "/home/b" "/home/b/q")) "/home/b//p/x.rs".
Proof. vm_compute. split; [reflexivity|discriminate]. Qed.
Lemma unit_dirs_agree_witness :
  let target := components "/home/a/p/target" in
  let out := (target ++ map Normal ["debug"; "build"; "foo-0123456789abcdef"; "out"])%list in
  path_starts_with (target ++ map Normal ["debug"; "build"; "foo-0123456789abcdef"; "out"; "gen.rs"])%list out = true /\
  is_cargo_unit_dir out = true /\
  (exists profile, out_dir_profile out = Some profile /\ path_starts_with profile target = true) /\
  (exists h, is_unit_hash h = true /\ out_dir_unit_name out "foo" = Some ("foo-" ++ h)).
Proof.
  apply (unit_dirs_agree (components "/home/a/p/target") ["debug"; "build"; "foo-0123456789abcdef"; "out"; "gen.rs"]).
  vm_compute. reflexivity.
Defined.

(** ** Native libraries *)

Definition static_io : LinkProbes :=
  {| lp_is_file := String.eqb "/deps/libz.a"; lp_canonicalize := demo_canonicalize; lp_read_dir := fun _ => Ok [];
     lp_has_archive_magic := fun _ => Ok false; lp_hash := fun p => Ok (toy_hex p);
     lp_hash_static_lib := fun p _ => Ok (toy_hex p); lp_apple_install_names := Ok [] |}.
Definition static_args : RustcArgs :=
  demo_args "/home/a" ["rustc"; "--crate-name"; "foo"; "--crate-type"; "bin"; "--emit=link"; "src/main.rs"; "-lstatic=z"].
Definition static_context : NativeLinkContext :=
  {| nc_target := "x86_64-unknown-linux-gnu"; nc_default_dirs := []; nc_out_dir := None; nc_build_tree := [] |}.
Definition static_fold : result KeyError (list KeyRecord * KeyedNativeArchives) :=
  fold_native_link_inputs (demo_env "/home/a") demo_nfc static_io static_args ["/deps"] [] static_context.
Definition no_archives : list KeyRecord * KeyedNativeArchives := ([], {| kn_archives := []; kn_bundled := []; kn_dirs := [] |}).
Lemma static_libraries_keyed_witness :
  exists dir name h text, name ∈ ["libz.a"; "z.lib"] /\ lp_is_file static_io (join dir name) = true /\
    join dir name ∈ kn_archives (value_or no_archives static_fold).2 /\
    lp_hash_static_lib static_io (join dir name) (linked_archive_use static_args) = Ok h /\
    KText "link_lib_content:" (h ++ text) ∈ (value_or no_archives static_fold).1.
Proof.
  apply (static_libraries_keyed (demo_env "/home/a") demo_nfc static_io static_args ["/deps"] [] static_context
    (value_or no_archives static_fold).1 (value_or no_archives static_fold).2 0 "static=z" "static=z"); vm_compute; reflexivity.
Defined.

(** ** What a key leaves out

    Inputs of a compilation that the recipe does not fold, and values that it
    folds ambiguously: runs that differ and have one key. *)

(** An extern without a path, which rustc finds on the search path, leaves no
    record. *)
Theorem pathless_externs_not_keyed H nfc env n pr args externs :
  omap (fun e => path ← ext_path e; Some (ext_name e, path)) externs
  = omap (fun e => path ← ext_path e; Some (ext_name e, path)) (ra_externs args) ->
  key_records H nfc env n pr (args <| ra_externs := externs |>) = key_records H nfc env n pr args.
Proof.
  intros E. assert (extern_records pr (args <| ra_externs := externs |>) = extern_records pr args) as Hx
    by (unfold extern_records, keyed_externs; cbn; by rewrite E).
  unfold key_records. rewrite Hx. reflexivity.
Qed.
(** [--test] leaves no record beside [--crate-type bin]. *)
Definition bin_argv : list string := ["rustc"; "--crate-name"; "foo"; "--crate-type"; "bin"; "--emit=link"; "src/main.rs"].
Lemma test_flag_not_keyed :
  succeeds (complete_key toy_hex demo_nfc (demo_keyed "/home/a" bin_argv) demo_ctx)
  && String.eqb (demo_complete "/home/a" bin_argv).1 (demo_complete "/home/a" (bin_argv ++ ["--test"])).1 = true /\
  ra_is_test (demo_args "/home/a" bin_argv) = false /\ ra_is_test (demo_args "/home/a" (bin_argv ++ ["--test"])) = true.
Proof. vm_compute. done. Qed.
(** The modifiers of an extern are dropped by the parser. *)
Lemma extern_modifiers_not_kept value : strip_prefix "priv:" value = None -> strip_prefix "noprelude:" value = None ->
  parse_extern ("noprelude:" ++ value) = parse_extern value /\ parse_extern ("priv:" ++ value) = parse_extern value.
Proof. intros H1 H2. unfold parse_extern. by rewrite H1, H2. Qed.
(** A variable given twice is keyed by its first value, and set to its last. *)
Definition doubled_env : Invocation :=
  {| inv_vars := [("RUSTFLAGS", "-Copt-level=0"); ("RUSTFLAGS", "-Copt-level=3")]; inv_cwd := None; inv_home := None; inv_temp := "/tmp" |}.
Lemma first_value_keyed :
  ke_var (key_env doubled_env) "RUSTFLAGS" = Some "-Copt-level=0" /\ inv_var doubled_env "RUSTFLAGS" = Some "-Copt-level=3".
Proof. by vm_compute. Qed.
(** Text records are not framed: one feature can spell two. *)
Lemma features_not_framed :
  preimage (map (KText "feature:") ["a" ++ LF ++ "feature:b"]) = preimage (map (KText "feature:") ["a"; "b"]).
Proof. by vm_compute. Qed.
